(* ===== verification/_CoqProject ===== *)
-Q . S2P
Prelude.v
GoText.v
Hlc.v
Model.v
Metrics.v
World.v
Store.v
StoreOpen.v
Lattice.v
Lww.v
StoreSpec.v
StoreProps.v
Tombstones.v
Checksum.v
EventLog.v
JsonCodec.v
Transport.v
Client.v
Sync.v
SyncSpec.v
SyncProps.v
Cluster.v
ClusterExamples.v
Mesh.v
MeshLive.v
MeshExamples.v
Agent.v
AgentProps.v
Api.v
ApiProps.v
Route.v
RouteProps.v
ServeProps.v
Membership.v
MembershipProps.v
Net.v
Config.v
Tls.v
Takld.v
TakldProps.v
Ctl.v
CtlProps.v
CtlServe.v
