(* ===== verification/Prelude.v ===== *)
(** * Takl: a verification development

    Takl is a masterless fleet registry in Go: every node runs the daemon takld, which keeps a
    SQLite store of runners, labels and events, replicates it with its peers by pull-based
    anti-entropy, and answers placement queries over HTTP; taklctl queries a node and issues keys and
    certificates. This library models the program in Rocq, as executable definitions that follow
    the source function by function, and proves the properties that make it correct. Paths below
    are relative to src/.

    ** The program and its model

    The components and the files that model them, in dependency order:

    - internal/model/hlc.go: hybrid logical timestamps and the per-process clock.  Hlc.v: [HLC],
      [Compare], [After], [Clock], [Tick], [Update]; integers are int64 as [Z] with the wrap-around
      of [seq++] written out.
    - internal/model/model.go, event.go: the runner and event types.  Model.v: [Runner], [Event],
      float64 as the binary64 of [SpecFloat], and encoding/json as the class [Json] (functions on
      the shapes the program marshals, with the documented round-trip laws).  JsonCodec.v is an
      instance of [Json] with which the model is evaluated.
    - internal/metrics: Metrics.v, the counters and timers as uint64.
    - GoText.v: what the program uses of Go's strings and path packages, on byte strings.
    - World.v: the state the goroutines of a process share (tables, clock, metrics) as [world], the
      state-and-error monad [M] of its code, SQL statements and transactions, and the class [Env]
      of what the process does not control: which driver calls fail, in which order the database
      and Go's maps enumerate, the wall clock, the random numbers.  Each such question is answered
      by the number of the call, so a theorem holds for every behaviour of the environment.  [wp] is
      the weakest precondition of a computation; computations of [M] are total functions, so it is
      total correctness: [returns P] says that a call ends in a result satisfying [P] or in an
      error of the driver, and [returns_ok] that it succeeds when the driver does not fail.
    - internal/engine/store/store.go: Store.v, every method statement by statement: rows with
      (HLC, owner) stamps, watermarks per (peer, kind), the numbered event log, checksums.
      StoreOpen.v: [Open], [init] and [Close] on a database file with tables (columns, keys, rows),
      indexes and settings, and SQLite's CREATE statements on it.
    - internal/transport/server.go, client.go, pb: Transport.v, the messages, the [Pull] handler and
      the client's request; Client.v, the client's cache of connections, with gRPC's connections as a
      log of those made and a set of those closed.
    - internal/engine/sync/sync.go: Sync.v, [RoundOnce], [roundAll], [gcTombstones], [Run].  gRPC is
      the parameter [rpc], a computation of the process: it may fail, and other goroutines may act
      while it runs.
    - internal/agent/agent.go, internal/backend/stub, the membership events: Agent.v.  [Backend] is
      the source's interface as a class, [Stub.stub_backend] its implementation.
    - internal/api/api.go: Api.v, every handler as a computation ending in a response; Route.v,
      [handleMetrics] and [Handler] with the routing of http.ServeMux.
    - internal/membership, and the key printed by taklctl keygen: Membership.v, the gossip key with
      base64, the configuration of memberlist (a parameter), the members offered to the engine, and
      the bounded channel to the agent as a list of events.
    - internal/config, internal/transport/tls.go, cmd/takld: Config.v, Tls.v, and Takld.v, where [main]
      is a trace of what the process opens, starts and releases, with its deferred calls and exits;
      Net.v has the address functions of package net.
    - cmd/taklctl, internal/version: Ctl.v, the queries and their tables, the keys, and the certificate
      authority over a map of files; crypto/x509 is the class [X509].

    ** Specifications and interfaces

    Lattice.v states what a replicated table promises to the code that replicates it: the class
    [JoinState], applying an update yields the least state above the current one that accounts for
    the update.  Order and repetition of updates are proved irrelevant once, against the class.
    Lww.v makes the rows table (order: [newer] on stamps) and the watermarks table instances,
    EventLog.v the event log.  StoreSpec.v proves that the monadic translation of each method refines
    a function of the tables ([apply_remote_spec], [live_rows], ...), in every environment: success
    has exactly that effect, failure is a driver error and has none.  SyncSpec.v does this for a
    round: the request as a function of the tables ([round_req]), and the rule of [RoundOnce] against
    any behaviour of the RPC.

    ** What the theorems show

    - Clock (Hlc.v): a tick is after everything issued or observed before, until seq overflows.
    - Store (StoreProps.v, Tombstones.v, Checksum.v, EventLog.v): [ApplyRemote] is atomic last-writer-
      wins, idempotent, and moves exactly the right watermarks; replicas that receive the same set of
      versions agree; reads return exactly the selected rows in order; deletion leaves a tombstone that
      replicates; collection removes exactly the old tombstones; events are numbered without gaps and
      replicate as a grow-only map; checksums are independent of scan order and incremental.
      Opening a file keeps every table and row in it and creates what is missing.
    - Replication (Transport.v, SyncProps.v): [Pull] serves exactly what it should; a round with sound
      watermarks leaves no row and no event of the peer behind; whatever a peer answers, a round only
      adds.  Cluster.v has the writes of a node, cut between the clock reading and the statement that
      uses it.  Mesh.v is the cluster of any number of nodes as a transition system: clock readings
      and writes are separate steps, a round is cut at its call, requests and answers are in flight
      while nodes write and other rounds run, and get lost.  Once writes stop, any rounds between all
      pairs make all nodes agree on the version of every row, and on the rows themselves where no two
      nodes wrote one version with different contents ([unambiguous]).  The side condition [on_time]
      of these theorems says that a node's database does not change between the clock reading of one
      of its writes and the write; nothing in the program enforces it, and MeshExamples.v has the
      runs that show that both conditions are needed.  MeshLive.v proves that a sweep of rounds goes
      through when nothing fails.
    - Client.v: every connection ever made is cached or closed, and a pull uses one made for its
      address with the client's credentials.
    - Agent (AgentProps.v): the drain decision equals a specification on the history of readings; a
      step publishes what the backend reports; a departure buries the node's rows.
    - API (ApiProps.v): placement, labels read back, the event log.  RouteProps.v: the routing tree
      equals a table of endpoints.  ServeProps.v, over every method and path: requests change at most
      the labels they name, are counted once, and reach the profiler only with the admin token; the
      metrics text reports the counters and the runners.
    - Membership (MembershipProps.v): a printed gossip key is accepted and gives back its bytes; the
      event channel is bounded, keeps order, and loses events only when it is full.
    - Start-up (TakldProps.v): flags over file over defaults; what is opened is protected; the advertised
      address can be dialled; shutdown releases what was acquired.
    - taklctl (CtlProps.v): issued certificates chain to the authority and hold for their days, within
      the bound of int64; a failed command leaves other files alone.  CtlServe.v: the query of a command
      reaches its handler with its limit.
    - Where the program falls short of its intention, theorems say when: a row stored below a watermark
      is left behind and a collected deletion is undone (SyncProps.v), a label update between another
      one's read and write is lost (ApiProps.v); or exhibit a run: two nodes that write one version
      differently (MeshExamples.v), a node id used as a LIKE pattern, checksum collisions, a relayed
      row below the watermark, an event without HLC (ClusterExamples.v), a restart that goes back in
      time, plaintext sync on a node without peers, an interval of zero, an event table that panics,
      an overwritten authority.

    ** Bounds and fuel

    Recursion is structural except for two loops over an array by index, [reverse_loop] and
    [filter_in_place]; their fuel is the length of the array, which bounds the iterations, and they
    are proved equal to [reverse] and [filter]; and for [trim_left], whose fuel is the length of the
    string: each turn removes a byte.  [v6_groups] has the eight
    turns of the loop it translates.  Loops that run until the process ends ([Run] of the
    engine and the agent) take the number of ticks.

    ** Limits of the model

    - A goroutine's database call, clock call and metric update are atomic steps (one SQL connection, a
      mutex, atomics).  Handlers and rounds are modelled without interleaving inside them, except
      through [rpc] and where a theorem splits a handler ([label_update_lost]); [roundAll] runs its
      rounds to their end one after the other, in any order, so rounds of one node that overlap on its
      store are covered by Mesh.v only (there the part of a round before the call, the answer of the
      peer and the part after the call are one step each).
    - A nil and an empty byte slice are the same payload; whether the driver rejects one is an answer
      of [env_fault].
    - [sort.Slice] is a stable sort of an arbitrary permutation, which covers its results for the
      strict weak order of scores that are not NaN.
    - Mesh.v starts from empty stores and leaves out restarts and the collection of tombstones
      ([collected_tombstone_undone] says what the latter can do); its agreement is about rows, not
      events, and its clocks do not reach the wrap of seq.
    - SQLite's type affinities, NULL and collations other than the default one are not modelled; PRAGMA
      statements set what they name.
    - net/http hands the handler a request whose URL is parsed; a response is its status and the value
      written, the metrics text its lines, a table of taklctl its cells.
    - Parameters: the flag and yaml packages, name resolution and interfaces, listening, TLS handshakes
      and certificates, memberlist, the profiler's handlers.
    - Not modelled: generated gRPC glue, logging, contexts and timeouts. *)

From Stdlib Require Export ZArith Lia.
From stdpp Require Export base gmap sets strings sorting option numbers functions.
From stdpp Require Export list.

#[export] Set Default Goal Selector "!".

(** ** Results: a Go call returns a value, returns an error, or panics *)

(** The errors the modelled code can return, by where they come from. *)
Inductive error :=
| ErrDriver (what : string)          (* the database driver: I/O, busy, constraint *)
| ErrInvalidFilterKey (key : string) (* store.List *)
| ErrConstraint                      (* PRIMARY KEY conflict of a plain INSERT *)
| ErrJson                            (* encoding/json *)
| ErrRpc (what : string)             (* gRPC *)
| ErrGossipKey (len : nat)           (* membership.parseSecretKey *)
| ErrText (msg : string).            (* fmt.Errorf and errors.New with a fixed text *)

Inductive result (A : Type) :=
| Ok (a : A)
| Err (e : error)
| Panic.
Arguments Ok {A} a.
Arguments Err {A} e.
Arguments Panic {A}.

#[export] Instance error_eq_dec : EqDecision error.
Proof. solve_decision. Defined.
#[export] Instance result_eq_dec `{EqDecision A} : EqDecision (result A).
Proof. solve_decision. Defined.

Definition is_ok {A} (r : result A) : bool := match r with Ok _ => true | _ => false end.

(** ** Machine integers: Go int64 and uint64 as [Z] with explicit wrap-around *)

Definition max_i64 : Z := 2 ^ 63 - 1.
Definition min_i64 : Z := - 2 ^ 63.
Definition wrap_i64 (z : Z) : Z := (z + 2 ^ 63) `mod` 2 ^ 64 - 2 ^ 63.
Definition wrap_u64 (z : Z) : Z := z `mod` 2 ^ 64.
Definition in_i64 (z : Z) : Prop := (min_i64 ≤ z ≤ max_i64)%Z.
Definition in_u64 (z : Z) : Prop := (0 ≤ z < 2 ^ 64)%Z.

Create HintDb takl.

(** Case analysis on the boolean comparisons of machine integers that occur in the goal. *)
Ltac zcases :=
  repeat match goal with
  | |- context [(?a =? ?b)%Z] => destruct (Z.eqb_spec a b)
  | |- context [(?a <? ?b)%Z] => destruct (Z.ltb_spec a b)
  | |- context [(?a <=? ?b)%Z] => destruct (Z.leb_spec a b)
  | |- context [(?a >? ?b)%Z] => rewrite (Z.gtb_ltb a b)
  | |- context [(?a >=? ?b)%Z] => rewrite (Z.geb_leb a b)
  end; simpl.

Lemma wrap_i64_id (z : Z) : in_i64 z → wrap_i64 z = z.
Proof. unfold in_i64, wrap_i64, min_i64, max_i64. intros. rewrite Z.mod_small; lia. Qed.

Lemma wrap_i64_range (z : Z) : in_i64 (wrap_i64 z).
Proof.
  unfold in_i64, wrap_i64, min_i64, max_i64.
  pose proof (Z.mod_pos_bound (z + 2 ^ 63) (2 ^ 64)). lia.
Qed.

Lemma wrap_u64_range (z : Z) : in_u64 (wrap_u64 z).
Proof. unfold in_u64, wrap_u64. apply Z.mod_pos_bound. lia. Qed.

#[export] Hint Resolve wrap_i64_range wrap_u64_range : takl.

(** ** Lists *)

Lemma filter_all {A} (P : A → Prop) `{∀ x, Decision (P x)} (l : list A) :
  (∀ x, P x) → filter P l = l.
Proof.
  intros HP. induction l as [|x l IH]; [done|]. rewrite filter_cons, decide_True by done. by rewrite IH.
Qed.
