(* ===== verification/GoText.v ===== *)
(** * Text: what the program uses of Go's strings package

    strings.TrimSpace, strings.Split, strings.ToLower and path.Clean on byte strings, with the lemmas the
    components share: what trimming removes, what splitting keeps. *)

From Stdlib Require Import Ascii.
From S2P Require Import Prelude.
Local Open Scope N_scope.

(** ** strings.TrimSpace *)

(** The encodings of the characters unicode.IsSpace accepts. *)
Definition byte_string (l : list N) : string :=
  foldr (λ n s, String (ascii_of_N n) s) EmptyString l.
Definition spaces : list string :=
  byte_string <$>
    [[9]; [10]; [11]; [12]; [13]; [32]; [0xC2; 0x85]; [0xC2; 0xA0]; [0xE1; 0x9A; 0x80];
     [0xE2; 0x80; 0x80]; [0xE2; 0x80; 0x81]; [0xE2; 0x80; 0x82]; [0xE2; 0x80; 0x83];
     [0xE2; 0x80; 0x84]; [0xE2; 0x80; 0x85]; [0xE2; 0x80; 0x86]; [0xE2; 0x80; 0x87];
     [0xE2; 0x80; 0x88]; [0xE2; 0x80; 0x89]; [0xE2; 0x80; 0x8A]; [0xE2; 0x80; 0xA8];
     [0xE2; 0x80; 0xA9]; [0xE2; 0x80; 0xAF]; [0xE2; 0x81; 0x9F]; [0xE3; 0x80; 0x80]].

Fixpoint cut_prefix (p s : string) : option string :=
  match p, s with
  | EmptyString, _ => Some s
  | String a p', String b s' => if Ascii.eqb a b then cut_prefix p' s' else None
  | String _ _, EmptyString => None
  end.

(** The rest after one of the given prefixes. *)
Fixpoint cut_any (ps : list string) (s : string) : option string :=
  match ps with
  | [] => None
  | p :: ps => match cut_prefix p s with Some s' => Some s' | None => cut_any ps s end
  end.

Fixpoint trim_left (ps : list string) (fuel : nat) (s : string) : string :=
  match fuel with
  | O => s
  | S fuel => match cut_any ps s with Some s' => trim_left ps fuel s' | None => s end
  end.

Fixpoint string_rev_app (s acc : string) : string :=
  match s with EmptyString => acc | String c s' => string_rev_app s' (String c acc) end.
Definition string_rev (s : string) : string := string_rev_app s EmptyString.

(** Leading spaces, then trailing ones: those of the reversed string. *)
Definition TrimSpace (s : string) : string :=
  let s := trim_left spaces (String.length s) s in
  string_rev (trim_left (string_rev <$> spaces) (String.length s) (string_rev s)).

(** ** strings.Split with a one-byte separator, strings.ToLower *)

Fixpoint Split (sep : ascii) (s : string) : list string :=
  match s with
  | EmptyString => [EmptyString]
  | String a s' =>
      if Ascii.eqb a sep then EmptyString :: Split sep s'
      else match Split sep s' with
           | p :: ps => String a p :: ps
           | [] => [String a EmptyString]
           end
  end.

(** On ASCII letters; other bytes stay.  Go also maps non-ASCII letters, of which only U+212A and
    U+0130 have an ASCII lower case (k and i), so comparisons with texts that contain neither
    letter come out as in Go. *)
Fixpoint ToLower (s : string) : string :=
  match s with
  | EmptyString => EmptyString
  | String c s' =>
      let n := N_of_ascii c in
      String (if (65 <=? n) && (n <=? 90) then ascii_of_N (n + 32) else c) (ToLower s')
  end.

(** ** Searching for a byte *)

Fixpoint has (c : ascii) (s : string) : bool :=
  match s with EmptyString => false | String a s' => Ascii.eqb a c || has c s' end.

(** strings.Cut at a byte: before and after its first occurrence. *)
Fixpoint cut (c : ascii) (s : string) : option (string * string) :=
  match s with
  | EmptyString => None
  | String a s' =>
      if Ascii.eqb a c then Some (EmptyString, s')
      else match cut c s' with Some (x, y) => Some (String a x, y) | None => None end
  end.

(** strings.Join. *)
Fixpoint join (sep : string) (l : list string) : string :=
  match l with
  | [] => EmptyString
  | [x] => x
  | x :: l => x +:+ (sep +:+ join sep l)
  end.

(** ** Paths: path.Clean, filepath.Clean on Unix *)

(** The segments between slashes, and those kept so far, the last one first. *)
Fixpoint clean_segs (rooted : bool) (segs kept : list string) : list string :=
  match segs with
  | [] => kept
  | s :: segs =>
      if bool_decide (s = ""%string ∨ s = "."%string) then clean_segs rooted segs kept
      else if bool_decide (s = ".."%string) then
        match kept with
        | k :: kept' => if bool_decide (k = ".."%string) then clean_segs rooted segs (s :: kept)
                        else clean_segs rooted segs kept'
        | [] => clean_segs rooted segs (if rooted then [] else [s])
        end
      else clean_segs rooted segs (s :: kept)
  end.

Definition Clean (p : string) : string :=
  let rooted := match p with String c _ => Ascii.eqb c "/"%char | EmptyString => false end in
  let segs := reverse (clean_segs rooted (Split "/"%char p) []) in
  if rooted then "/" +:+ join "/" segs
  else match segs with [] => "."%string | _ => join "/" segs end.

Lemma string_cons_app a (x y : string) : String a x +:+ y = String a (x +:+ y).
Proof. done. Qed.

Lemma has_app c (x y : string) : has c (x +:+ y) = has c x || has c y.
Proof. induction x as [|a x IH]; [done|]. simpl. by rewrite IH, orb_assoc. Qed.

Lemma cut_app c (x y : string) : has c x = false → cut c (x +:+ String c y) = Some (x, y).
Proof.
  induction x as [|a x IH]; simpl; [by rewrite Ascii.eqb_refl|].
  intros [-> Hx]%orb_false_iff. by rewrite IH.
Qed.

Lemma cut_spec c (s x y : string) :
  cut c s = Some (x, y) → s = x +:+ String c y ∧ has c x = false.
Proof.
  revert x y. induction s as [|a s IH]; intros x y; [done|]. simpl.
  destruct (Ascii.eqb_spec a c) as [->|Hne]; [by intros [= <- <-]|].
  destruct (cut c s) as [[x' y']|]; [|done]. intros [= <- <-].
  destruct (IH x' y' eq_refl) as [-> Hx]. split; [done|]. simpl.
  by destruct (Ascii.eqb_spec a c).
Qed.

Lemma string_app_nil (x : string) : x +:+ EmptyString = x.
Proof. induction x as [|a x IH]; [done|]. by rewrite !string_cons_app, IH. Qed.

Lemma string_app_assoc (x y z : string) : (x +:+ y) +:+ z = x +:+ (y +:+ z).
Proof. induction x as [|a x IH]; [done|]. by rewrite !string_cons_app, IH. Qed.

Fixpoint string_Forall (P : ascii → Prop) (s : string) : Prop :=
  match s with EmptyString => True | String c s' => P c ∧ string_Forall P s' end.

Lemma Split_no_sep c (s : string) : has c s = false → Split c s = [s].
Proof.
  induction s as [|a s IH]; [done|]. cbn [has Split]. intros [-> Hs]%orb_false_iff. by rewrite IH.
Qed.

(** ** TrimSpace on a text without spaces *)

(** The first byte of a nonempty string is none of the first bytes of the patterns. *)
Definition starts_none (ps : list string) (c : ascii) : bool :=
  forallb (λ p, match p with String a _ => negb (Ascii.eqb a c) | EmptyString => false end) ps.

Lemma cut_any_none ps c s : starts_none ps c = true → cut_any ps (String c s) = None.
Proof.
  induction ps as [|p ps IH]; [done|]. unfold starts_none. simpl. rewrite andb_true_iff.
  intros [Hp Hps]. destruct p as [|a p]; [done|]. apply negb_true_iff in Hp. cbn [cut_prefix].
  rewrite Hp. by apply IH.
Qed.

Lemma cut_any_empty ps : Forall (λ p, p ≠ EmptyString) ps → cut_any ps EmptyString = None.
Proof. induction 1 as [|p ps Hp _ IH]; [done|]. by destruct p. Qed.

Lemma trim_left_id ps fuel s :
  Forall (λ p, p ≠ EmptyString) ps →
  match s with EmptyString => True | String c _ => starts_none ps c = true end →
  trim_left ps fuel s = s.
Proof.
  intros Hps Hs. destruct fuel as [|fuel]; [done|]. cbn [trim_left].
  destruct s as [|c s]; [by rewrite cut_any_empty|by rewrite cut_any_none].
Qed.

Lemma string_rev_involutive (s : string) : string_rev (string_rev s) = s.
Proof.
  assert (∀ s acc, string_rev (string_rev_app s acc) = string_rev_app acc s) as H.
  { clear s. induction s as [|c s IH]; intros acc; [done|]. simpl. by rewrite IH. }
  unfold string_rev at 2. by rewrite H.
Qed.

Lemma string_Forall_rev P (s : string) : string_Forall P s → string_Forall P (string_rev s).
Proof.
  assert (∀ acc, string_Forall P s → string_Forall P acc → string_Forall P (string_rev_app s acc)) as H.
  { induction s as [|c s IH]; intros acc; [done|]. intros [Hc Hs] Hacc. simpl. by apply IH. }
  intros Hs. by apply H.
Qed.

Lemma spaces_nonempty : Forall (λ p, p ≠ EmptyString) spaces.
Proof. apply (bool_decide_unpack _). vm_compute. done. Qed.

Lemma spaces_rev_nonempty : Forall (λ p, p ≠ EmptyString) (string_rev <$> spaces).
Proof. apply (bool_decide_unpack _). vm_compute. done. Qed.


(** ** TrimSpace removes all the space there is *)

Lemma cut_prefix_app (p s s' : string) : cut_prefix p s = Some s' → s = p +:+ s'.
Proof.
  revert s. induction p as [|a p IH]; intros s; cbn [cut_prefix]; [by destruct s; intros [= <-]|].
  destruct s as [|b s]; [done|]. destruct (Ascii.eqb_spec a b) as [->|]; [|done].
  intros H. by rewrite string_cons_app, <-(IH _ H).
Qed.

Lemma cut_prefix_of_app (p s : string) : cut_prefix p (p +:+ s) = Some s.
Proof. induction p as [|a p IH]; [done|]. simpl. by rewrite Ascii.eqb_refl. Qed.

Lemma cut_any_Some ps (s s' : string) : cut_any ps s = Some s' → ∃ p, p ∈ ps ∧ s = p +:+ s'.
Proof.
  induction ps as [|p ps IH]; [done|]. simpl. destruct (cut_prefix p s) as [s1|] eqn:Hp.
  - intros [= <-]. exists p. split; [by left|]. by apply cut_prefix_app.
  - intros H. destruct (IH H) as (q & ? & ?). exists q. split; [by right|done].
Qed.

Lemma cut_any_None ps (s s' p : string) : cut_any ps s = None → p ∈ ps → s ≠ p +:+ s'.
Proof.
  induction ps as [|q ps IH]; [by intros _ ?%not_elem_of_nil|]. simpl.
  destruct (cut_prefix q s) eqn:Hq; [done|]. intros H [->|Hin]%elem_of_cons; [|by apply IH].
  intros ->. by rewrite cut_prefix_of_app in Hq.
Qed.

Lemma string_length_app (x y : string) : String.length (x +:+ y) = (String.length x + String.length y)%nat.
Proof. induction x as [|a x IH]; [done|]. simpl. by rewrite IH. Qed.

(** The fuel, the length of the string, is enough. *)
Lemma trim_left_done ps fuel s :
  Forall (λ p, p ≠ EmptyString) ps → (String.length s ≤ fuel)%nat →
  cut_any ps (trim_left ps fuel s) = None.
Proof.
  intros Hps. revert s. induction fuel as [|fuel IH]; intros s Hf.
  { destruct s; [by apply cut_any_empty|simpl in Hf; lia]. }
  cbn [trim_left]. destruct (cut_any ps s) as [s'|] eqn:Hs; [|done]. apply IH.
  apply cut_any_Some in Hs as (p & Hp & ->). rewrite Forall_forall in Hps.
  specialize (Hps p Hp). rewrite string_length_app in Hf. destruct p; [done|]. simpl in Hf. lia.
Qed.

Lemma trim_left_suffix ps fuel s : ∃ pre, s = pre +:+ trim_left ps fuel s.
Proof.
  revert s. induction fuel as [|fuel IH]; intros s; cbn [trim_left]; [by exists EmptyString|].
  destruct (cut_any ps s) as [s'|] eqn:Hs; [|by exists EmptyString].
  apply cut_any_Some in Hs as (p & _ & ->). destruct (IH s') as [pre Hpre].
  exists (p +:+ pre). by rewrite string_app_assoc, <-Hpre.
Qed.

Lemma string_rev_app_spec (s acc : string) : string_rev_app s acc = string_rev s +:+ acc.
Proof.
  unfold string_rev. revert acc. induction s as [|c s IH]; intros acc; [done|].
  simpl. rewrite (IH (String c acc)), (IH (String c EmptyString)), string_app_assoc. done.
Qed.

Lemma string_rev_app_distr (x y : string) : string_rev (x +:+ y) = string_rev y +:+ string_rev x.
Proof.
  unfold string_rev. induction x as [|c x IH]; simpl; [by rewrite string_app_nil|].
  rewrite (string_rev_app_spec (x +:+ y)), (string_rev_app_spec x). fold (string_rev (x +:+ y)) in IH.
  unfold string_rev in *. rewrite IH. by rewrite string_app_assoc.
Qed.

Lemma string_rev_length (s : string) : String.length (string_rev s) = String.length s.
Proof.
  unfold string_rev. assert (∀ acc, String.length (string_rev_app s acc) =
    (String.length s + String.length acc)%nat) as H.
  { induction s as [|c s IH]; intros acc; [done|]. simpl. rewrite IH. simpl. lia. }
  rewrite H. simpl. lia.
Qed.

(** No space character stands at either end of the result, which is a part of the text. *)
Lemma TrimSpace_spec (s : string) :
  (∃ l r, s = l +:+ (TrimSpace s +:+ r)) ∧
  ∀ p t, p ∈ spaces → TrimSpace s ≠ p +:+ t ∧ TrimSpace s ≠ t +:+ p.
Proof.
  unfold TrimSpace. set (s1 := trim_left spaces (String.length s) s).
  set (s2 := trim_left (string_rev <$> spaces) (String.length s1) (string_rev s1)).
  destruct (trim_left_suffix spaces (String.length s) s) as [l Hl]. fold s1 in Hl.
  destruct (trim_left_suffix (string_rev <$> spaces) (String.length s1) (string_rev s1)) as [r' Hr].
  fold s2 in Hr.
  assert (s1 = string_rev s2 +:+ string_rev r') as Hs1.
  { rewrite <-(string_rev_involutive s1), Hr. apply string_rev_app_distr. }
  split; [exists l, (string_rev r'); by rewrite <-Hs1|].
  assert (cut_any spaces s1 = None) as H1 by by apply trim_left_done; [apply spaces_nonempty|].
  assert (cut_any (string_rev <$> spaces) s2 = None) as H2.
  { apply trim_left_done; [apply spaces_rev_nonempty|]. by rewrite string_rev_length. }
  intros p t Hp. split; intros Heq.
  - apply (cut_any_None _ _ (t +:+ string_rev r') p H1 Hp). by rewrite Hs1, Heq, string_app_assoc.
  - apply (cut_any_None _ _ (string_rev t) (string_rev p) H2); [by apply list_elem_of_fmap_2|].
    rewrite <-string_rev_app_distr, <-Heq. by rewrite string_rev_involutive.
Qed.
