(* ===== verification/Hlc.v ===== *)
(** * Hybrid logical clocks: internal/model/hlc.go

    [HLC] with its lexicographic [Compare], and the per-process [Clock] with [Tick] and
    [Update].  The mutex makes each method atomic, so a method is one function of the clock's
    state; the wall clock the [now] closure reads is an argument of [Tick]. *)

From S2P Require Import Prelude.
Local Open Scope Z_scope.

Record HLC := mkHLC { TS : Z; Seq : Z }.

#[export] Instance HLC_eq_dec : EqDecision HLC.
Proof. solve_decision. Defined.

(** The zero value [model.HLC{}]. *)
Definition zeroHLC : HLC := mkHLC 0 0.

Definition Compare (h o : HLC) : Z :=
  if negb (TS h =? TS o) then
    if TS h <? TS o then -1 else 1
  else if Seq h =? Seq o then 0
  else if Seq h <? Seq o then -1 else 1.

Definition After (h o : HLC) : bool := Compare h o >? 0.

(** [Clock]: the fields [ts] and [seq]; both start at zero ([NewClock]). *)
Record Clock := mkClock { c_ts : Z; c_seq : Z }.

Definition NewClock : Clock := mkClock 0 0.

(** [Tick] with the wall clock reading [n]; [c.seq++] is an int64 increment. *)
Definition Tick (n : Z) (c : Clock) : HLC * Clock :=
  let c' := if n >? c_ts c then mkClock n 0
            else mkClock (c_ts c) (wrap_i64 (c_seq c + 1)) in
  (mkHLC (c_ts c') (c_seq c'), c').

Arguments Tick : simpl never.

Definition Update (o : HLC) (c : Clock) : Clock :=
  if TS o >? c_ts c then mkClock (TS o) (Seq o)
  else if (TS o =? c_ts c) && (Seq o >? c_seq c) then mkClock (c_ts c) (Seq o)
  else c.

Arguments Update : simpl never.

(** ** The order [Compare] decides *)

Definition hlc_le (h o : HLC) : Prop := TS h < TS o ∨ (TS h = TS o ∧ Seq h ≤ Seq o).
Definition hlc_lt (h o : HLC) : Prop := TS h < TS o ∨ (TS h = TS o ∧ Seq h < Seq o).

Declare Scope hlc_scope.
Infix "⪯" := hlc_le (at level 70) : hlc_scope.
Infix "≺" := hlc_lt (at level 70) : hlc_scope.
Open Scope hlc_scope.

#[export] Instance hlc_le_dec : RelDecision hlc_le.
Proof. intros h o. unfold hlc_le. apply _. Defined.
#[export] Instance hlc_lt_dec : RelDecision hlc_lt.
Proof. intros h o. unfold hlc_lt. apply _. Defined.

Lemma hlc_eq (h o : HLC) : TS h = TS o → Seq h = Seq o → h = o.
Proof. destruct h, o; simpl; congruence. Qed.

(** Every goal about these orders is linear arithmetic on the two components. *)
Ltac hlc :=
  intros; unfold hlc_le, hlc_lt, zeroHLC in *; simpl in *;
  try (apply hlc_eq; simpl); lia.

#[export] Instance hlc_le_po : PartialOrder hlc_le.
Proof.
  split; [split|].
  - intros ?. hlc.
  - intros ???. hlc.
  - intros ???. hlc.
Qed.
#[export] Instance hlc_le_total : Total hlc_le.
Proof. intros ??. hlc. Qed.

Lemma hlc_le_lt_cases (h o : HLC) : h ⪯ o ∨ o ≺ h.
Proof. hlc. Qed.
Lemma hlc_lt_le (h o : HLC) : h ≺ o → h ⪯ o.
Proof. hlc. Qed.
Lemma hlc_lt_not_le (h o : HLC) : h ≺ o ↔ ¬ o ⪯ h.
Proof. split; hlc. Qed.
Lemma hlc_lt_le_trans (a b c : HLC) : a ≺ b → b ⪯ c → a ≺ c.
Proof. hlc. Qed.
Lemma hlc_le_lt_trans (a b c : HLC) : a ⪯ b → b ≺ c → a ≺ c.
Proof. hlc. Qed.
#[export] Hint Resolve hlc_lt_le hlc_lt_le_trans hlc_le_lt_trans : takl.

Lemma Compare_cases (h o : HLC) :
  (Compare h o = -1 ∧ h ≺ o) ∨ (Compare h o = 0 ∧ h = o) ∨ (Compare h o = 1 ∧ o ≺ h).
Proof.
  unfold Compare. zcases;
    solve [left; split; hlc | right; left; split; hlc | right; right; split; hlc].
Qed.

Lemma After_spec (h o : HLC) : After h o = true ↔ o ≺ h.
Proof.
  unfold After. destruct (Compare_cases h o) as [[-> ?]|[[-> ->]|[-> ?]]]; simpl;
    split; try done; hlc.
Qed.

Lemma After_false (h o : HLC) : After h o = false ↔ h ⪯ o.
Proof.
  rewrite <-not_true_iff_false, After_spec, hlc_lt_not_le.
  destruct (decide (h ⪯ o)); tauto.
Qed.

(** ** The clock as a join of everything it has issued and observed *)

(** [store.maxHLC], which [Update] computes on the clock's own reading. *)
Definition hlc_max (a b : HLC) : HLC := if After b a then b else a.

Lemma hlc_max_ub_l (a b : HLC) : a ⪯ hlc_max a b.
Proof. unfold hlc_max. destruct (After b a) eqn:H; [|done]. apply After_spec in H. auto with takl. Qed.
Lemma hlc_max_ub_r (a b : HLC) : b ⪯ hlc_max a b.
Proof. unfold hlc_max. destruct (After b a) eqn:H; [done|]. by apply After_false. Qed.
Lemma hlc_max_lub (a b c : HLC) : a ⪯ c → b ⪯ c → hlc_max a b ⪯ c.
Proof. unfold hlc_max. by destruct (After b a). Qed.
#[export] Hint Resolve hlc_max_ub_l hlc_max_ub_r hlc_max_lub : takl.

Definition clock_hlc (c : Clock) : HLC := mkHLC (c_ts c) (c_seq c).
Arguments clock_hlc : simpl never.

Lemma Update_max (o : HLC) (c : Clock) : clock_hlc (Update o c) = hlc_max (clock_hlc c) o.
Proof.
  destruct (After o (clock_hlc c)) eqn:H; unfold hlc_max; rewrite H.
  - apply After_spec in H. revert H. unfold Update, clock_hlc. zcases; hlc.
  - apply After_false in H. revert H. unfold Update, clock_hlc. zcases; hlc.
Qed.

(** A call of [Tick] overflows when the wall clock has not passed [c.ts] and [c.seq] is
    already the largest int64. *)
Definition tick_wraps (n : Z) (c : Clock) : bool :=
  negb (n >? c_ts c) && (c_seq c =? max_i64).

Definition clock_ok (c : Clock) : Prop := in_i64 (c_ts c) ∧ in_i64 (c_seq c).

Lemma Tick_clock (n : Z) (c : Clock) : (Tick n c).1 = clock_hlc (Tick n c).2.
Proof. done. Qed.

Lemma Tick_after (n : Z) (c : Clock) :
  clock_ok c → tick_wraps n c = false → clock_hlc c ≺ (Tick n c).1.
Proof.
  unfold clock_ok, in_i64, tick_wraps. intros [_ Hs] Hw.
  unfold Tick, clock_hlc. revert Hw. zcases; intros Hw; try hlc.
  unfold hlc_lt; simpl. rewrite wrap_i64_id; [lia|]. unfold in_i64. lia.
Qed.

Lemma Tick_ok (n : Z) (c : Clock) : in_i64 n → clock_ok c → clock_ok (Tick n c).2.
Proof.
  intros Hn [??]. unfold Tick. destruct (n >? c_ts c); split; simpl; auto with takl.
  unfold in_i64, min_i64, max_i64. lia.
Qed.

Lemma Update_ok (o : HLC) (c : Clock) :
  in_i64 (TS o) → in_i64 (Seq o) → clock_ok c → clock_ok (Update o c).
Proof. unfold Update. intros ?? [??]. repeat case_match; split; done. Qed.

(** ** Runs of the clock *)

(** What the process does with its clock: [Tick] (with the wall clock reading) or [Update]. *)
Inductive clock_op := OpTick (n : Z) | OpUpdate (o : HLC).

Definition op_ok (x : clock_op) : Prop :=
  match x with OpTick n => in_i64 n | OpUpdate o => in_i64 (TS o) ∧ in_i64 (Seq o) end.

Definition clock_step (x : clock_op) (c : Clock) : Clock :=
  match x with OpTick n => (Tick n c).2 | OpUpdate o => Update o c end.

(** The timestamp a step hands out or takes in. *)
Definition op_hlc (x : clock_op) (c : Clock) : HLC :=
  match x with OpTick n => (Tick n c).1 | OpUpdate o => o end.

Fixpoint clock_run (xs : list clock_op) (c : Clock) : list HLC * Clock :=
  match xs with
  | [] => ([], c)
  | x :: xs => let '(hs, c') := clock_run xs (clock_step x c) in (op_hlc x c :: hs, c')
  end.

Fixpoint no_wrap (xs : list clock_op) (c : Clock) : bool :=
  match xs with
  | [] => true
  | x :: xs =>
      (match x with OpTick n => negb (tick_wraps n c) | OpUpdate _ => true end)
      && no_wrap xs (clock_step x c)
  end.

Lemma clock_step_ok (x : clock_op) (c : Clock) :
  op_ok x → clock_ok c → clock_ok (clock_step x c).
Proof. destruct x; simpl; [apply Tick_ok|intros [??]; by apply Update_ok]. Qed.

Lemma clock_step_dominates (x : clock_op) (c : Clock) :
  clock_ok c → no_wrap [x] c = true →
  clock_hlc c ⪯ clock_hlc (clock_step x c) ∧ op_hlc x c ⪯ clock_hlc (clock_step x c).
Proof.
  destruct x as [n|o]; cbn [clock_step op_hlc no_wrap]; intros Hc Hw.
  - rewrite <-Tick_clock. split; [|done].
    apply hlc_lt_le, Tick_after; [done|]. by destruct (tick_wraps n c).
  - rewrite Update_max. auto with takl.
Qed.

Lemma clock_run_dominates (xs : list clock_op) (c : Clock) :
  Forall op_ok xs → clock_ok c → no_wrap xs c = true →
  clock_ok (clock_run xs c).2 ∧ clock_hlc c ⪯ clock_hlc (clock_run xs c).2 ∧
  Forall (λ h, h ⪯ clock_hlc (clock_run xs c).2) (clock_run xs c).1.
Proof.
  intros Hxs. revert c. induction Hxs as [|x xs Hx _ IH]; intros c Hc Hw; [done|].
  simpl in Hw. apply andb_true_iff in Hw as [Hw1 Hw2].
  destruct (clock_step_dominates x c Hc) as [H1 H2].
  { simpl. by rewrite Hw1. }
  specialize (IH _ (clock_step_ok _ _ Hx Hc) Hw2).
  simpl. destruct (clock_run xs (clock_step x c)) as [hs c'] eqn:E; simpl in *.
  destruct IH as (? & Hle & Hall). split_and!; [done|by etrans|].
  constructor; [by etrans|done].
Qed.

(** C16: Along any run of a process's clock without seq overflow, a [Tick] returns a timestamp
    strictly after every timestamp the process has issued or observed before it. *)
Theorem Tick_after_run (xs : list clock_op) (n : Z) :
  Forall op_ok xs → in_i64 n → no_wrap (xs ++ [OpTick n]) NewClock = true →
  Forall (λ h, After (Tick n (clock_run xs NewClock).2).1 h = true) (clock_run xs NewClock).1.
Proof.
  intros Hxs Hn Hw.
  assert (∀ ys c, no_wrap (ys ++ [OpTick n]) c =
    no_wrap ys c && negb (tick_wraps n (clock_run ys c).2)) as Happ.
  { induction ys as [|y ys IH]; intros c; simpl; [by rewrite andb_true_r|].
    rewrite IH, andb_assoc. by destruct (clock_run ys (clock_step y c)). }
  rewrite Happ in Hw. apply andb_true_iff in Hw as [Hw Hn'].
  destruct (clock_run_dominates xs NewClock) as (Hok & _ & Hall); [done|done..|].
  eapply Forall_impl; [exact Hall|]. intros h Hh. apply After_spec.
  eapply hlc_le_lt_trans; [exact Hh|]. apply Tick_after; [done|].
  by apply negb_true_iff.
Qed.

Lemma Tick_after_run_witness :
  (clock_run [OpTick 5; OpUpdate (mkHLC 9 3); OpTick 7] NewClock).1
    = [mkHLC 5 0; mkHLC 9 3; mkHLC 9 4] ∧
  (Tick 8 (clock_run [OpTick 5; OpUpdate (mkHLC 9 3); OpTick 7] NewClock).2).1 = mkHLC 9 5 ∧
  Forall (λ h, After (Tick 8 (clock_run [OpTick 5; OpUpdate (mkHLC 9 3); OpTick 7] NewClock).2).1 h
               = true)
         (clock_run [OpTick 5; OpUpdate (mkHLC 9 3); OpTick 7] NewClock).1.
Proof.
  split; [vm_compute; reflexivity|]. split; [vm_compute; reflexivity|].
  apply (Tick_after_run [OpTick 5; OpUpdate (mkHLC 9 3); OpTick 7] 8).
  - repeat constructor; unfold op_ok, in_i64, min_i64, max_i64; simpl; lia.
  - unfold in_i64, min_i64, max_i64. lia.
  - vm_compute. reflexivity.
Defined.
