(* ===== verification/Model.v ===== *)
(** * Domain types: internal/model/model.go and internal/model/event.go

    [Runner] and [Event] with the source's fields; float64 as the IEEE 754 binary64 of
    [SpecFloat]; strings as byte strings.  Package encoding/json enters as the class [Json]: its
    text-level functions on the three shapes the program marshals, with the documented
    round-trip laws. *)

From Stdlib Require Export SpecFloat.
From S2P Require Import Prelude Hlc.
Local Open Scope Z_scope.

(** ** float64 *)

Abbreviation float64 := spec_float.

#[export] Instance float64_eq_dec : EqDecision spec_float.
Proof. solve_decision. Defined.

Definition f64_add : float64 → float64 → float64 := SFadd 53 1024.
Definition f64_sub : float64 → float64 → float64 := SFsub 53 1024.
Definition f64_mul : float64 → float64 → float64 := SFmul 53 1024.
Definition f64_div : float64 → float64 → float64 := SFdiv 53 1024.
(** Conversion of an integer, rounded to nearest even. *)
Definition f64_of_Z (z : Z) : float64 := binary_normalize 53 1024 z 0 false.
(** Go's [a >= b] and [a > b]: false when an operand is NaN. *)
Definition f64_geb (a b : float64) : bool := SFleb b a.
Definition f64_gtb (a b : float64) : bool := SFltb b a.
Definition f64_is_nan (a : float64) : bool := match a with S754_nan => true | _ => false end.
Definition f64_is_finite (a : float64) : bool :=
  match a with S754_zero _ | S754_finite _ _ _ => true | _ => false end.

(** The literal [0.90]: the binary64 nearest to nine tenths. *)
Definition f64_0_90 : float64 := S754_finite false 8106479329266893 (-53).

Example f64_0_90_is_nearest : f64_div (f64_of_Z 9) (f64_of_Z 10) = f64_0_90.
Proof. vm_compute. reflexivity. Qed.

(** ** Runner and Event *)

(** A [map[string]string]; [None] is the nil map. *)
Abbreviation labels := (option (gmap string string)).

Record Runner := mkRunner {
  r_RunnerID : string;
  r_Hostname : string;
  r_IP : string;
  r_Region : string;
  r_Version : string;
  r_Status : string;
  r_LastHeartbeat : Z;
  r_CPUUtil : float64;
  r_MemUtil : float64;
  r_FreeDiskMB : Z;
  r_WorkerCapacity : Z;
  r_AvailableWorkers : Z;
  r_Labels : labels
}.

Definition RunnerActive : string := "active".
Definition RunnerDraining : string := "draining".
Definition RunnerOffline : string := "offline".

#[export] Instance Runner_eq_dec : EqDecision Runner.
Proof. solve_decision. Defined.

Definition Runner_Key (r : Runner) : string := r_RunnerID r.

Definition set_Status (s : string) (r : Runner) : Runner :=
  mkRunner (r_RunnerID r) (r_Hostname r) (r_IP r) (r_Region r) (r_Version r) s
    (r_LastHeartbeat r) (r_CPUUtil r) (r_MemUtil r) (r_FreeDiskMB r) (r_WorkerCapacity r)
    (r_AvailableWorkers r) (r_Labels r).

Definition set_Labels (l : labels) (r : Runner) : Runner :=
  mkRunner (r_RunnerID r) (r_Hostname r) (r_IP r) (r_Region r) (r_Version r) (r_Status r)
    (r_LastHeartbeat r) (r_CPUUtil r) (r_MemUtil r) (r_FreeDiskMB r) (r_WorkerCapacity r)
    (r_AvailableWorkers r) l.

(** A Go [any] as encoding/json produces it. *)
#[warnings="-register-all"]
Inductive any :=
| AnyNull
| AnyBool (b : bool)
| AnyNum (f : float64)
| AnyStr (s : string)
| AnyArr (l : list any)
| AnyObj (l : list (string * any)).

(** A [map[string]any]; [None] is the nil map. *)
Abbreviation payload := (option (gmap string any)).

Definition EventRunnerJoined : string := "RunnerJoined".
Definition EventRunnerLeft : string := "RunnerLeft".
Definition EventRunnerDraining : string := "RunnerDraining".

Record Event := mkEvent {
  e_Seq : Z;
  e_Type : string;
  e_RunnerID : string;
  e_Payload : payload;
  e_HLC : HLC
}.

(** ** encoding/json *)

(** A byte between two bounds. *)
Definition byte_in (lo hi : N) (c : Ascii.ascii) : bool :=
  (lo <=? Ascii.N_of_ascii c)%N && (Ascii.N_of_ascii c <=? hi)%N.

(** utf8.ValidString: the encodings of RFC 3629, without overlong forms and surrogates. *)
Fixpoint valid_utf8 (s : string) : bool :=
  match s with
  | EmptyString => true
  | String a s1 =>
      if byte_in 0x00 0x7F a then valid_utf8 s1 else
      match s1 with
      | EmptyString => false
      | String b s2 =>
          if byte_in 0xC2 0xDF a then byte_in 0x80 0xBF b && valid_utf8 s2 else
          match s2 with
          | EmptyString => false
          | String c s3 =>
              if byte_in 0xE0 0xE0 a then byte_in 0xA0 0xBF b && byte_in 0x80 0xBF c && valid_utf8 s3
              else if byte_in 0xE1 0xEC a || byte_in 0xEE 0xEF a then
                byte_in 0x80 0xBF b && byte_in 0x80 0xBF c && valid_utf8 s3
              else if byte_in 0xED 0xED a then
                byte_in 0x80 0x9F b && byte_in 0x80 0xBF c && valid_utf8 s3
              else match s3 with
              | EmptyString => false
              | String d s4 =>
                  (if byte_in 0xF0 0xF0 a then byte_in 0x90 0xBF b
                   else if byte_in 0xF1 0xF3 a then byte_in 0x80 0xBF b
                   else byte_in 0xF4 0xF4 a && byte_in 0x80 0x8F b)
                  && byte_in 0x80 0xBF c && byte_in 0x80 0xBF d && valid_utf8 s4
              end
          end
      end
  end.

Definition labels_utf8 (m : gmap string string) : bool :=
  forallb (λ kv, valid_utf8 kv.1 && valid_utf8 kv.2) (map_to_list m).

(** What encoding/json represents without loss: finite numbers and valid UTF-8. *)
Definition runner_json_ok (r : Runner) : bool :=
  f64_is_finite (r_CPUUtil r) && f64_is_finite (r_MemUtil r) &&
  forallb valid_utf8 [r_RunnerID r; r_Hostname r; r_IP r; r_Region r; r_Version r; r_Status r] &&
  match r_Labels r with Some m => labels_utf8 m | None => true end.

(** [omitempty] drops an empty map, which comes back as nil. *)
Definition omit_empty (l : labels) : labels :=
  match l with Some m => if decide (m = ∅) then None else Some m | None => None end.

Definition norm_runner (r : Runner) : Runner := set_Labels (omit_empty (r_Labels r)) r.

Class Json := {
  (** [json.Marshal] and [json.Unmarshal] of a [Runner]. *)
  marshal_runner : Runner → option string;
  unmarshal_runner : string → option Runner;
  unmarshal_marshal_runner : ∀ r, runner_json_ok r = true →
    ∃ s, marshal_runner r = Some s ∧ unmarshal_runner s = Some (norm_runner r);
  (** [json.Marshal] and [json.Unmarshal] of a [map[string]string]. *)
  marshal_labels : gmap string string → string;
  unmarshal_labels : string → option labels;
  unmarshal_marshal_labels : ∀ m, labels_utf8 m = true →
    unmarshal_labels (marshal_labels m) = Some (Some m);
  (** What [json.Unmarshal] leaves in an empty map when the caller drops its error. *)
  unmarshal_labels_dropped : string → labels;
  unmarshal_labels_dropped_ok : ∀ s l,
    unmarshal_labels s = Some l → unmarshal_labels_dropped s = l;
  (** [json.NewDecoder(body).Decode] into a [map[string]string]. *)
  decode_labels : string → option labels;
  (** [json.Marshal] and [json.Unmarshal] of a [map[string]any]. *)
  marshal_payload : payload → option string;
  unmarshal_payload : string → option payload;
  marshal_payload_nil : marshal_payload None = Some "null"%string;
  unmarshal_payload_nil : unmarshal_payload "null" = Some None;
  (** What [json.Unmarshal] leaves in the variable when the caller drops its error. *)
  unmarshal_payload_dropped : string → payload;
  unmarshal_payload_dropped_ok : ∀ s pl,
    unmarshal_payload s = Some pl → unmarshal_payload_dropped s = pl
}.

(** [Encode] and [Decode], at the one type the program uses them with. *)
Definition Encode `{Json} (v : Runner) : option string := marshal_runner v.
Definition Decode `{Json} (b : string) : option Runner := unmarshal_runner b.

Lemma Decode_Encode `{Json} (r : Runner) :
  runner_json_ok r = true → ∃ s, Encode r = Some s ∧ Decode s = Some (norm_runner r).
Proof. apply unmarshal_marshal_runner. Qed.
