(* ===== verification/Metrics.v ===== *)
(** * Process-wide counters: internal/metrics/metrics.go

    [Counter] is an atomic uint64, [Timer] a count and a total in nanoseconds,
    [StatusCounters] a map from HTTP status to a counter.  [Metrics] gathers the package's
    variables; each field is updated only through the package's methods. *)

From S2P Require Import Prelude.
Local Open Scope Z_scope.

Definition Counter := Z.
Definition Counter_Add (v : Z) (c : Counter) : Counter := wrap_u64 (c + v).
Definition Counter_Inc (c : Counter) : Counter := Counter_Add 1 c.

Record Timer := mkTimer { tm_count : Z; tm_total : Z }.
(** [t.total.Add(uint64(d.Nanoseconds()))]: a negative duration wraps. *)
Definition Observe (d : Z) (t : Timer) : Timer :=
  mkTimer (wrap_u64 (tm_count t + 1)) (wrap_u64 (tm_total t + wrap_u64 d)).

(** [StatusCounters.Inc]: the counter of a status is created at its first increment. *)
Definition StatusCounters_Inc (status : Z) (m : gmap Z Counter) : gmap Z Counter :=
  <[status := Counter_Inc (default 0 (m !! status))]> m.

(** The package's variables: eight counters, two timers and the counters by HTTP status. *)
Inductive counter :=
| PlacementRequests
| PlacementErrors
| SyncRounds
| SyncRoundErrors
| SyncRowsApplied
| SyncEventsApplied
| SyncChecksumMismatches
| SyncEventChecksumMismatches.

Inductive timer := PlacementLatency | SyncRoundLatency.

#[export] Instance counter_eq_dec : EqDecision counter.
Proof. solve_decision. Defined.
#[export] Instance timer_eq_dec : EqDecision timer.
Proof. solve_decision. Defined.

Record Metrics := mkMetrics {
  HTTPRequests : gmap Z Counter;
  m_counter : counter → Counter;
  m_timer : timer → Timer
}.

Definition zero_metrics : Metrics := mkMetrics ∅ (λ _, 0) (λ _, mkTimer 0 0).

Definition add_counter (c : counter) (v : Z) (m : Metrics) : Metrics :=
  mkMetrics (HTTPRequests m) (<[c := Counter_Add v (m_counter m c)]> (m_counter m)) (m_timer m).
Definition inc_counter (c : counter) (m : Metrics) : Metrics :=
  mkMetrics (HTTPRequests m) (<[c := Counter_Inc (m_counter m c)]> (m_counter m)) (m_timer m).
Definition observe_timer (t : timer) (d : Z) (m : Metrics) : Metrics :=
  mkMetrics (HTTPRequests m) (m_counter m) (<[t := Observe d (m_timer m t)]> (m_timer m)).
Definition inc_status (status : Z) (m : Metrics) : Metrics :=
  mkMetrics (StatusCounters_Inc status (HTTPRequests m)) (m_counter m) (m_timer m).
