(* ===== verification/World.v ===== *)
(** * The process's shared state and its effects

    A takld process shares one SQLite store, one clock and the metrics among its goroutines.
    [world] is that state, [M] the state-and-error monad its code runs in.  What the process
    does not control is the class [Env]: which driver calls fail, in which order the database
    and Go's map iteration enumerate, what the wall clock reads.  Every such question is
    answered by the number of the call, so the theorems hold for every behaviour of the
    driver. *)

From S2P Require Import Prelude Hlc Model Metrics.
Local Open Scope Z_scope.

(** ** The database schema (store.go, [init]) *)

(** Columns of [rows] besides the primary key (kind, key). *)
Record rowcols := mkCols {
  col_owner : string;
  col_hlc_ts : Z;
  col_hlc_seq : Z;
  col_tombstone : Z;
  col_payload : string
}.

(** Columns of [events_v2] besides the primary key (runner_id, seq). *)
Record evcols := mkEv {
  ev_type : string;
  ev_payload : string;
  ev_hlc_ts : Z;
  ev_hlc_seq : Z
}.

(** The three tables, each a map from its primary key; [watermarks] has (peer, kind). *)
Record tables := mkTables {
  t_rows : gmap (string * string) rowcols;
  t_events : gmap (string * Z) evcols;
  t_watermarks : gmap (string * string) HLC
}.

#[export] Instance rowcols_eq_dec : EqDecision rowcols.
Proof. solve_decision. Defined.
#[export] Instance evcols_eq_dec : EqDecision evcols.
Proof. solve_decision. Defined.
#[export] Instance tables_eq_dec : EqDecision tables.
Proof. solve_decision. Defined.

Definition empty_tables : tables := mkTables ∅ ∅ ∅.

Definition set_rows (m : gmap (string * string) rowcols) (t : tables) : tables :=
  mkTables m (t_events t) (t_watermarks t).
Definition set_events (m : gmap (string * Z) evcols) (t : tables) : tables :=
  mkTables (t_rows t) m (t_watermarks t).
Definition set_watermarks (m : gmap (string * string) HLC) (t : tables) : tables :=
  mkTables (t_rows t) (t_events t) m.

(** An SQL value as [json_extract] returns it. *)
Inductive sqlval := VNull | VInt (z : Z) | VText (s : string).

#[export] Instance sqlval_eq_dec : EqDecision sqlval.
Proof. solve_decision. Defined.

(** ** The environment *)

Class Env := {
  (** The error the [n]-th driver call returns, if it fails. *)
  env_fault : nat → option string;
  (** The order in which the [n]-th enumeration (a SELECT without ORDER BY, a range over a Go
      map, the elements sort.Slice finds equal) delivers its elements: each exactly once. *)
  env_order : nat → ∀ {A : Type}, list A → list A;
  env_order_perm : ∀ n A (l : list A), env_order n l ≡ₚ l;
  (** [time.Now().UnixMilli()], an int64. *)
  env_now : nat → Z;
  env_now_i64 : ∀ n, in_i64 (env_now n);
  (** [time.Since], in nanoseconds. *)
  env_elapsed : nat → Z;
  (** [rand.Float64()]: a number in [0.0, 1.0). *)
  env_rand : nat → float64;
  env_rand_range : ∀ n, SFleb (S754_zero false) (env_rand n) = true ∧
                        SFltb (env_rand n) (f64_of_Z 1) = true;
  (** SQLite's [json_extract(payload, '$.key')]. *)
  env_json_extract : string → string → sqlval
}.

(** ** State and monad *)

Record world := World {
  w_db : tables;
  w_clock : Clock;
  w_met : Metrics;
  w_n : nat
}.

Definition M (A : Type) : Type := world → result A * world.

#[export] Instance M_ret : MRet M := λ A a w, (Ok a, w).
#[export] Instance M_bind : MBind M := λ A B k m w,
  match m w with
  | (Ok a, w') => k a w'
  | (Err e, w') => (Err e, w')
  | (Panic, w') => (Panic, w')
  end.

Definition act {A} (f : world → result A * world) : M A := f.
Definition throw {A} (e : error) : M A := λ w, (Err e, w).
Definition panic {A} : M A := λ w, (Panic, w).
Definition get : M world := λ w, (Ok w, w).

(** The error of [m] as a value, for code that inspects or drops it; a panic passes. *)
Definition attempt {A} (m : M A) : M (result A) := λ w,
  match m w with
  | (Panic, w') => (Panic, w')
  | (r, w') => (Ok r, w')
  end.

Definition upd (w : world) (db : tables) (n : nat) : world := World db (w_clock w) (w_met w) n.

(** The number of the next call on the environment. *)
Definition next : M nat := λ w, (Ok (w_n w), upd w (w_db w) (S (w_n w))).

Definition set_clock (c : Clock) : M unit := λ w,
  (Ok tt, World (w_db w) c (w_met w) (w_n w)).
Definition on_metrics (f : Metrics → Metrics) : M unit := λ w,
  (Ok tt, World (w_db w) (w_clock w) (f (w_met w)) (w_n w)).

Section Driver.
Context `{E : Env}.

(** A call on the driver: it fails with the environment's error or gets its number. *)
Definition driver : M nat :=
  n ← next;
  match env_fault n with Some e => throw (ErrDriver e) | None => mret n end.

(** [Exec] of a statement that changes the tables by [f]. *)
Definition exec (f : tables → tables) : M unit :=
  _ ← driver;
  act (λ w, (Ok tt, upd w (f (w_db w)) (w_n w))).

(** [Exec] of a statement that can violate a constraint, or that reports a count. *)
Definition exec_checked {A} (f : tables → result (A * tables)) : M A :=
  _ ← driver;
  act (λ w, match f (w_db w) with
            | Ok (a, db) => (Ok a, upd w db (w_n w))
            | Err e => (Err e, w)
            | Panic => (Panic, w)
            end).

(** [Query]: the selected rows in the order the database delivers them. *)
Definition query {A} (f : tables → list A) : M (list A) :=
  n ← driver;
  act (λ w, (Ok (env_order n (f (w_db w))), w)).

(** [QueryRow(...).Scan(...)]: [None] stands for sql.ErrNoRows. *)
Definition query_row {A} (f : tables → option A) : M (option A) :=
  _ ← driver;
  act (λ w, (Ok (f (w_db w)), w)).

(** How a transaction body leaves its function: through [tx.Commit()], or by a plain return. *)
Inductive tx_exit (A : Type) := Commit (a : A) | Return (a : A).
Arguments Commit {A} a.
Arguments Return {A} a.

(** [tx, err := s.db.Begin()] ... [defer tx.Rollback()] ... [return tx.Commit()].  The pool
    has one connection, so the tables seen inside are the tables at [Begin]. *)
Definition with_tx {A} (body : M (tx_exit A)) : M A :=
  _ ← driver;
  act (λ w,
    match body w with
    | (Ok (Commit a), w') =>
        match driver w' with
        | (Ok _, w'') => (Ok a, w'')
        | (Err e, w'') => (Err e, upd w'' (w_db w) (w_n w''))
        | (Panic, w'') => (Panic, upd w'' (w_db w) (w_n w''))
        end
    | (Ok (Return a), w') => (Ok a, upd w' (w_db w) (w_n w'))
    | (Err e, w') => (Err e, upd w' (w_db w) (w_n w'))
    | (Panic, w') => (Panic, upd w' (w_db w) (w_n w'))
    end).

(** [for k, v := range m] over a Go map: every entry once, in some order. *)
Definition range_map {V} (m : gmap string V) : M (list (string * V)) :=
  n ← next;
  mret (env_order n (map_to_list m)).

(** [c.Tick()] and [c.Update(o)] on the shared clock. *)
Definition clock_Tick : M HLC :=
  n ← next;
  w ← get;
  let '(h, c) := Tick (env_now n) (w_clock w) in
  _ ← set_clock c;
  mret h.

Definition clock_Update (o : HLC) : M unit :=
  w ← get;
  set_clock (Update o (w_clock w)).

(** [metrics.X.Observe(time.Since(start))]. *)
Definition observe (t : timer) : M unit :=
  n ← next;
  on_metrics (observe_timer t (env_elapsed n)).

End Driver.
Arguments Commit {A} a.
Arguments Return {A} a.

(** ** A concrete environment

    No call fails, enumerations come in table order, the wall clock stands still: used to
    evaluate the model on concrete inputs. *)

Lemma calm_now : in_i64 1700000000000.
Proof. unfold in_i64, min_i64, max_i64. lia. Qed.

Definition calm_env : Env := {|
  env_fault _ := None;
  env_order _ _ l := l;
  env_order_perm _ A l := reflexivity l;
  env_now _ := 1700000000000;
  env_now_i64 _ := calm_now;
  env_elapsed _ := 0;
  env_rand _ := S754_zero false;
  env_rand_range _ := conj eq_refl eq_refl;
  env_json_extract _ _ := VNull
|}.

(** ** Weakest preconditions

    [wp m Q w]: running [m] in [w] ends in a result and a world that satisfy [Q].  Every [M]
    computation is total, so [wp] is total correctness. *)

Definition wp {A} (m : M A) (Q : result A → world → Prop) (w : world) : Prop :=
  Q (m w).1 (m w).2.

Lemma wp_run {A} (m : M A) Q w r w' : wp m Q w → m w = (r, w') → Q r w'.
Proof. unfold wp. intros H Hr. by rewrite Hr in H. Qed.

Lemma wp_mono {A} (m : M A) (Q Q' : result A → world → Prop) w :
  wp m Q w → (∀ r w', Q r w' → Q' r w') → wp m Q' w.
Proof. unfold wp. auto. Qed.

Lemma wp_ret {A} (a : A) (Q : result A → world → Prop) w : Q (Ok a) w → wp (mret a) Q w.
Proof. done. Qed.

Lemma wp_throw {A} (e : error) (Q : result A → world → Prop) w : Q (Err e) w → wp (throw e) Q w.
Proof. done. Qed.

Lemma wp_bind {A B} (m : M A) (k : A → M B) (Q : result B → world → Prop) w :
  wp m (λ r w', match r with
                | Ok a => wp (k a) Q w'
                | Err e => Q (Err e) w'
                | Panic => Q Panic w'
                end) w →
  wp (m ≫= k) Q w.
Proof. unfold wp, mbind, M_bind. by destruct (m w) as [[] ?]. Qed.

Lemma wp_attempt {A} (m : M A) (Q : result (result A) → world → Prop) w :
  wp m (λ r w', match r with Panic => Q Panic w' | _ => Q (Ok r) w' end) w →
  wp (attempt m) Q w.
Proof. unfold wp, attempt. by destruct (m w) as [[] ?]. Qed.

Lemma wp_get (Q : result world → world → Prop) w : Q (Ok w) w → wp get Q w.
Proof. done. Qed.

Section DriverRules.
Context `{E : Env}.

(** The errors the driver can return in this environment. *)
Definition db_error (e : error) : Prop := ∃ s n, e = ErrDriver s ∧ env_fault n = Some s.

Definition fault_free : Prop := ∀ n, env_fault n = None.

(** The outcome of a call that can only fail through the driver: a result satisfying [P], or an
    error some driver call returned; never a panic. *)
Definition returns {A} (P : A → world → Prop) (r : result A) (w' : world) : Prop :=
  match r with
  | Ok a => P a w'
  | Err e => db_error e
  | Panic => False
  end.

Lemma fault_free_no_error e : fault_free → ¬ db_error e.
Proof. intros Hf (s & n & _ & Hn). by rewrite Hf in Hn. Qed.

(** When no driver call fails, such a call succeeds. *)
Lemma returns_ok {A} (m : M A) P w :
  fault_free → wp m (returns P) w → ∃ a w', m w = (Ok a, w') ∧ P a w'.
Proof.
  unfold wp, returns. intros Hf H. destruct (m w) as [[a|e|] w']; simpl in H; [eauto| |done].
  by destruct (fault_free_no_error e Hf).
Qed.

Lemma wp_next (Q : result nat → world → Prop) w :
  (∀ n n', Q (Ok n) (upd w (w_db w) n')) → wp next Q w.
Proof. intros HQ. apply HQ. Qed.

Lemma wp_driver (Q : result nat → world → Prop) w :
  (∀ n n', Q (Ok n) (upd w (w_db w) n')) →
  (∀ e n', db_error e → Q (Err e) (upd w (w_db w) n')) →
  wp driver Q w.
Proof.
  intros Hok Herr. unfold driver. apply wp_bind, wp_next. intros n n'.
  destruct (env_fault n) as [s|] eqn:Hf; [|apply wp_ret, Hok].
  apply wp_throw, Herr. by exists s, n.
Qed.

Lemma wp_exec f (Q : result unit → world → Prop) w :
  (∀ n, Q (Ok tt) (upd w (f (w_db w)) n)) →
  (∀ e n, db_error e → Q (Err e) (upd w (w_db w) n)) →
  wp (exec f) Q w.
Proof. intros Hok Herr. apply wp_bind, wp_driver; [|done]. intros n n'. apply Hok. Qed.

Lemma wp_exec_checked {A} (f : tables → result (A * tables)) (Q : result A → world → Prop) w :
  (∀ n, match f (w_db w) with
        | Ok (a, db) => Q (Ok a) (upd w db n)
        | Err e => Q (Err e) (upd w (w_db w) n)
        | Panic => Q Panic (upd w (w_db w) n)
        end) →
  (∀ e n, db_error e → Q (Err e) (upd w (w_db w) n)) →
  wp (exec_checked f) Q w.
Proof.
  intros Hok Herr. apply wp_bind, wp_driver; [|done]. intros n n'. specialize (Hok n').
  unfold wp, act. simpl. destruct (f (w_db w)) as [[a db]|e|]; apply Hok.
Qed.

Lemma wp_query {A} (f : tables → list A) (Q : result (list A) → world → Prop) w :
  (∀ l n, l ≡ₚ f (w_db w) → Q (Ok l) (upd w (w_db w) n)) →
  (∀ e n, db_error e → Q (Err e) (upd w (w_db w) n)) →
  wp (query f) Q w.
Proof.
  intros Hok Herr. apply wp_bind, wp_driver; [|done]. intros n n'.
  apply Hok, env_order_perm.
Qed.

Lemma wp_query_row {A} (f : tables → option A) (Q : result (option A) → world → Prop) w :
  (∀ n, Q (Ok (f (w_db w))) (upd w (w_db w) n)) →
  (∀ e n, db_error e → Q (Err e) (upd w (w_db w) n)) →
  wp (query_row f) Q w.
Proof. intros Hok Herr. apply wp_bind, wp_driver; [|done]. intros n n'. apply Hok. Qed.

Lemma wp_range_map {V} (m : gmap string V) (Q : result (list (string * V)) → world → Prop) w :
  (∀ l n, l ≡ₚ map_to_list m → Q (Ok l) (upd w (w_db w) n)) → wp (range_map m) Q w.
Proof.
  intros Hok. apply wp_bind, wp_next. intros n n'. apply wp_ret, Hok, env_order_perm.
Qed.

(** A transaction is atomic: on every exit but a successful commit the tables are those at
    [Begin].  The body may change nothing but the tables. *)
Lemma wp_with_tx {A} (body : M (tx_exit A)) (Q : result A → world → Prop) w :
  (∀ e n, db_error e → Q (Err e) (upd w (w_db w) n)) →
  (∀ n, wp body (λ r w', ∃ db' n', w' = upd w db' n' ∧
      match r with
      | Ok (Commit a) => ∀ n'', Q (Ok a) (upd w db' n'')
      | Ok (Return a) => ∀ n'', Q (Ok a) (upd w (w_db w) n'')
      | Err e => ∀ n'', Q (Err e) (upd w (w_db w) n'')
      | Panic => ∀ n'', Q Panic (upd w (w_db w) n'')
      end) (upd w (w_db w) n)) →
  wp (with_tx body) Q w.
Proof.
  intros Herr Hbody. apply wp_bind, wp_driver; [|done]. intros _ n.
  specialize (Hbody n). unfold wp, act in *.
  destruct (body (upd w (w_db w) n)) as [[[a|a]|e|] w']; simpl in *;
    destruct Hbody as (db' & n' & -> & Hq); simpl; try apply Hq.
  pose proof (wp_driver (λ r w'',
    Q (match r with Ok _ => Ok a | Err e => Err e | Panic => Panic end)
      (upd w (match r with Ok _ => db' | _ => w_db w end) (w_n w'')) ∧
      w_db w'' = db' ∧ w_clock w'' = w_clock w ∧ w_met w'' = w_met w) (upd w db' n')) as Hd.
  unfold wp in Hd. destruct Hd as (Hr & Hdb & Hc & Hm); [simpl; auto|simpl; auto|].
  destruct (driver (upd w db' n')) as [[?|e|] w'']; simpl in *; try done.
  - assert (w'' = upd w db' (w_n w'')) as ->; [|done].
    destruct w''; simpl in *. by subst.
  - unfold upd in *. by rewrite Hc, Hm.
  - unfold upd in *. by rewrite Hc, Hm.
Qed.

Lemma wp_clock_Tick (Q : result HLC → world → Prop) w :
  (∀ n n', let '(h, c) := Tick (env_now n) (w_clock w) in
           Q (Ok h) (World (w_db w) c (w_met w) n')) →
  wp clock_Tick Q w.
Proof.
  intros HQ. apply wp_bind, wp_next. intros n n'. specialize (HQ n n').
  apply wp_bind, wp_get. cbn [w_clock upd].
  destruct (Tick (env_now n) (w_clock w)) as [h c].
  apply HQ.
Qed.

Lemma wp_next_at (Q : result nat → world → Prop) w :
  Q (Ok (w_n w)) (upd w (w_db w) (S (w_n w))) → wp next Q w.
Proof. done. Qed.

(** A tick with the reading it uses: the clock's new reading is the timestamp handed out. *)
Lemma wp_tick {A} (k : HLC → M A) (Q : result A → world → Prop) w :
  (let clk := (Tick (env_now (w_n w)) (w_clock w)).2 in
   wp (k (clock_hlc clk)) Q (World (w_db w) clk (w_met w) (S (w_n w)))) →
  wp (h ← clock_Tick; k h) Q w.
Proof.
  cbv zeta. rewrite <-Tick_clock. intros HQ. apply wp_bind. unfold wp, clock_Tick, next, get, set_clock.
  unfold mbind, M_bind, mret, M_ret. cbn [w_n w_clock w_db w_met upd].
  destruct (Tick (env_now (w_n w)) (w_clock w)) as [h c]. exact HQ.
Qed.

Lemma wp_clock_Update o (Q : result unit → world → Prop) w :
  Q (Ok tt) (World (w_db w) (Update o (w_clock w)) (w_met w) (w_n w)) → wp (clock_Update o) Q w.
Proof. intros HQ. by apply wp_bind, wp_get. Qed.

Lemma wp_on_metrics f (Q : result unit → world → Prop) w :
  Q (Ok tt) (World (w_db w) (w_clock w) (f (w_met w)) (w_n w)) → wp (on_metrics f) Q w.
Proof. done. Qed.

End DriverRules.

(** One step of a [wp] proof: the rule of the program's head. *)
Ltac wp_step :=
  lazymatch goal with
  | |- wp (_ ≫= _) _ _ => apply wp_bind
  | |- wp (mret _) _ _ => apply wp_ret
  | |- wp (throw _) _ _ => apply wp_throw
  | |- wp get _ _ => apply wp_get
  | |- wp (attempt _) _ _ => apply wp_attempt
  | |- wp next _ _ => apply wp_next; intros ? ?
  | |- wp (exec _) _ _ => apply wp_exec; [intros ?|intros ? ? ?]
  | |- wp (exec_checked _) _ _ => apply wp_exec_checked; [intros ?|intros ? ? ?]
  | |- wp (query _) _ _ => apply wp_query; [intros ? ? ?|intros ? ? ?]
  | |- wp (query_row _) _ _ => apply wp_query_row; [intros ?|intros ? ? ?]
  | |- wp (range_map _) _ _ => apply wp_range_map; intros ? ? ?
  | |- wp (on_metrics _) _ _ => apply wp_on_metrics
  end; cbn [w_db w_n upd].
