(* ===== verification/Store.v ===== *)
(** * The store: internal/engine/store/store.go

    Every exported method of [Store], statement by statement: each SQL statement of the source
    is one function of the tables, run through [exec], [query], [query_row] or inside
    [with_tx].  Rows as the program sees them are [Row]; the columns behind them are
    [rowcols]. *)

From Stdlib Require Import Ascii.
From stdpp Require Import pretty.
From S2P Require Import Prelude Hlc Model Metrics World.
Local Open Scope Z_scope.

Definition KindRunner : string := "runner".
Definition KindMeta : string := "meta".
Definition KindEvent : string := "event".
Definition Kinds : list string := [KindRunner; KindMeta].

Record Row := mkRow {
  Kind : string;
  Key : string;
  Owner : string;
  RHLC : HLC;
  Tombstone : bool;
  Payload : string
}.

#[export] Instance Row_eq_dec : EqDecision Row.
Proof. solve_decision. Defined.

Definition b2i (b : bool) : Z := if b then 1 else 0.

(** ** Statements on the [rows] table *)

Definition cols_of (r : Row) : rowcols :=
  mkCols (Owner r) (TS (RHLC r)) (Seq (RHLC r)) (b2i (Tombstone r)) (Payload r).

(** [upsertRowSQL]. *)
Definition upsertRowSQL (r : Row) (t : tables) : tables :=
  set_rows (<[(Kind r, Key r) := cols_of r]> (t_rows t)) t.

(** [scanRow] on a row of the table. *)
Definition scanRow (kc : (string * string) * rowcols) : Row :=
  let '((kind, key), c) := kc in
  mkRow kind key (col_owner c) (mkHLC (col_hlc_ts c) (col_hlc_seq c))
        (negb (col_tombstone c =? 0)) (col_payload c).

(** [SELECT ... FROM rows WHERE kind = ? AND key = ?]. *)
Definition select_row (kind key : string) (t : tables) : option Row :=
  (λ c, scanRow ((kind, key), c)) <$> t_rows t !! (kind, key).

Definition newer (a b : Row) : bool :=
  let c := Compare (RHLC a) (RHLC b) in
  if c =? 1 then true
  else if c =? -1 then false
  else String.ltb (Owner b) (Owner a).

Definition maxHLC (a b : HLC) : HLC := if After b a then b else a.

(** [INSERT INTO watermarks ... ON CONFLICT(peer, kind) DO UPDATE]. *)
Definition upsert_watermark (peer kind : string) (h : HLC) (t : tables) : tables :=
  set_watermarks (<[(peer, kind) := h]> (t_watermarks t)) t.

(** [ORDER BY] a relation on the selected rows; ties come in any order. *)
Definition order_by {A} (R : relation A) `{!RelDecision R} (l : list A) : list A :=
  merge_sort R l.

Definition row_hlc_le (a b : Row) : Prop := hlc_le (RHLC a) (RHLC b).
#[export] Instance row_hlc_le_dec : RelDecision row_hlc_le := λ a b, hlc_le_dec (RHLC a) (RHLC b).
Definition row_key_le (a b : Row) : Prop := String.le (Key a) (Key b).
#[export] Instance row_key_le_dec : RelDecision row_key_le := λ a b, String.le_dec (Key a) (Key b).

(** [hlc_ts > ? OR (hlc_ts = ? AND hlc_seq > ?)]. *)
Definition sql_after (ts seq : Z) (wm : HLC) : bool :=
  (ts >? TS wm) || ((ts =? TS wm) && (seq >? Seq wm)).

(** [hlc_ts < ? OR (hlc_ts = ? AND hlc_seq < ?)]. *)
Definition sql_before (ts seq : Z) (h : HLC) : bool :=
  (ts <? TS h) || ((ts =? TS h) && (seq <? Seq h)).

(** ** SQL [LIKE]: [%] any sequence, [_] one character, ASCII letters without case *)

Definition ascii_lower (c : Ascii.ascii) : Ascii.ascii :=
  if byte_in 65 90 c then Ascii.ascii_of_N (Ascii.N_of_ascii c + 32) else c.

(** The rest of the string after one UTF-8 character. *)
Fixpoint skip_continuation (s : string) : string :=
  match s with
  | String c s' => if byte_in 0x80 0xBF c then skip_continuation s' else s
  | EmptyString => EmptyString
  end.
Definition skip_char (s : string) : option string :=
  match s with
  | EmptyString => None
  | String c s' => Some (if byte_in 0xC0 0xFF c then skip_continuation s' else s')
  end.

Fixpoint sql_like (p s : string) {struct p} : bool :=
  match p with
  | EmptyString => match s with EmptyString => true | _ => false end
  | String c p' =>
      if Ascii.eqb c "%"%char then
        (fix any_suffix (s : string) : bool :=
           sql_like p' s || match s with EmptyString => false | String _ s' => any_suffix s' end) s
      else if Ascii.eqb c "_"%char then
        match skip_char s with Some s' => sql_like p' s' | None => false end
      else
        match s with
        | EmptyString => false
        | String d s' => Ascii.eqb (ascii_lower c) (ascii_lower d) && sql_like p' s'
        end
  end.

(** [UPDATE rows SET tombstone = 1, hlc_ts = ?, hlc_seq = ? WHERE owner LIKE ? AND tombstone = 0]. *)
Definition bury (hlc : HLC) (prefix : string) (c : rowcols) : rowcols :=
  if sql_like prefix (col_owner c) && (col_tombstone c =? 0)
  then mkCols (col_owner c) (TS hlc) (Seq hlc) 1 (col_payload c)
  else c.

(** The WHERE clause of [GCTombstones]. *)
Definition gc_matches (minHLC : HLC) (c : rowcols) : bool :=
  (col_tombstone c =? 1) && sql_before (col_hlc_ts c) (col_hlc_seq c) minHLC.

Definition gc_rows (minHLC : HLC) (m : gmap (string * string) rowcols) :
    gmap (string * string) rowcols :=
  filter (λ kc, gc_matches minHLC kc.2 = false) m.

(** ** Checksums *)

Definition fnv_offset : Z := 14695981039346656037.
Definition fnv_prime : Z := 1099511628211.

(** The byte loop [kHash ^= uint64(key[i]); kHash *= 1099511628211]. *)
Fixpoint fnv_loop (key : string) (kHash : Z) : Z :=
  match key with
  | EmptyString => kHash
  | String c key' =>
      fnv_loop key' (wrap_u64 (Z.lxor kHash (Z.of_N (Ascii.N_of_ascii c)) * fnv_prime))
  end.
Definition kHash (key : string) : Z := fnv_loop key fnv_offset.

(** One iteration of the row loop: [kHash ^ uint64(ts) ^ uint64(seq)]. *)
Definition row_hash (x : string * Z * Z) : Z :=
  let '(key, ts, seq) := x in Z.lxor (Z.lxor (kHash key) (wrap_u64 ts)) (wrap_u64 seq).
Definition hash_fold (l : list (string * Z * Z)) : Z :=
  foldl (λ hash x, Z.lxor hash (row_hash x)) 0 l.

(** [SELECT key, hlc_ts, hlc_seq FROM rows WHERE kind = ? AND tombstone = 0]. *)
Definition select_live_keys (kind : string) (t : tables) : list (string * Z * Z) :=
  omap (λ kc : (string * string) * rowcols,
          if bool_decide (kc.1.1 = kind) && (col_tombstone kc.2 =? 0)
          then Some (kc.1.2, col_hlc_ts kc.2, col_hlc_seq kc.2) else None)
       (map_to_list (t_rows t)).

(** [SELECT runner_id, seq, hlc_ts, hlc_seq FROM events_v2], keyed by [Sprintf("%s/%d")]. *)
Definition select_event_keys (t : tables) : list (string * Z * Z) :=
  (λ x : (string * Z) * evcols,
     (x.1.1 +:+ "/" +:+ pretty x.1.2, ev_hlc_ts x.2, ev_hlc_seq x.2))
  <$> map_to_list (t_events t).

(** ** [List]: filters and pagination *)

Definition is_alpha_ (c : Ascii.ascii) : bool :=
  byte_in 97 122 c || byte_in 65 90 c || byte_in 95 95 c.
Definition is_alnum_ (c : Ascii.ascii) : bool := is_alpha_ c || byte_in 48 57 c.
Fixpoint all_chars (f : Ascii.ascii → bool) (s : string) : bool :=
  match s with EmptyString => true | String c s' => f c && all_chars f s' end.

(** [safeKey]: ^[a-zA-Z_][a-zA-Z0-9_]*$ *)
Definition safeKey (s : string) : bool :=
  match s with EmptyString => false | String c s' => is_alpha_ c && all_chars is_alnum_ s' end.

(** [LIMIT] and [OFFSET] as [List] appends them to the query. *)
Definition window {A} (limit offset : Z) (l : list A) : list A :=
  if limit >? 0 then
    take (Z.to_nat limit) (if offset >? 0 then drop (Z.to_nat offset) l else l)
  else if (limit =? -1) && (offset >? 0) then drop (Z.to_nat offset) l
  else l.

(** The loop over [rows.Next()] with the caller's callback, which threads [S]. *)
Fixpoint each_row {S} (fn : S → Row → S * bool) (s : S) (rows : list Row) : S :=
  match rows with
  | [] => s
  | r :: rest => let '(s', go) := fn s r in if go then each_row fn s' rest else s'
  end.

Section Store.
Context `{E : Env, J : Json}.

(** ** Rows *)

(** The row loop of [ApplyRemote], with [maxByKind] as its accumulator. *)
Fixpoint apply_rows (rows : list Row) (maxByKind : gmap string HLC) : M (gmap string HLC) :=
  match rows with
  | [] => mret maxByKind
  | r :: rest =>
      cur ← query_row (λ t, t_rows t !! (Kind r, Key r));
      let maxByKind' :=
        <[Kind r := maxHLC (default zeroHLC (maxByKind !! Kind r)) (RHLC r)]> maxByKind in
      match cur with
      | Some c =>
          let cur := mkRow (Kind r) (Key r) (col_owner c)
                           (mkHLC (col_hlc_ts c) (col_hlc_seq c)) false "" in
          if negb (newer r cur) then apply_rows rest maxByKind'
          else _ ← exec (upsertRowSQL r); apply_rows rest maxByKind'
      | None => _ ← exec (upsertRowSQL r); apply_rows rest maxByKind'
      end
  end.

(** The watermark loop of [ApplyRemote]. *)
Fixpoint advance_watermarks (peer : string) (entries : list (string * HLC)) : M unit :=
  match entries with
  | [] => mret tt
  | (kind, hlc) :: rest =>
      cur ← query_row (λ t, t_watermarks t !! (peer, kind));
      match cur with
      | Some c =>
          if negb (After hlc c) then advance_watermarks peer rest
          else _ ← exec (upsert_watermark peer kind hlc); advance_watermarks peer rest
      | None => _ ← exec (upsert_watermark peer kind hlc); advance_watermarks peer rest
      end
  end.

Definition ApplyRemote (peer : string) (rows : list Row) : M unit :=
  if bool_decide (length rows = 0%nat) then mret tt
  else with_tx (
    maxByKind ← apply_rows rows ∅;
    entries ← range_map maxByKind;
    _ ← advance_watermarks peer entries;
    mret (Commit tt)).

Definition upsert (r : Row) : M unit := exec (upsertRowSQL r).

Definition Put (r : Row) : M unit := upsert r.

Definition Apply (r : Row) : M unit :=
  with_tx (
    cur ← query_row (select_row (Kind r) (Key r));
    match cur with
    | Some cur =>
        if negb (newer r cur) then mret (Return tt)
        else _ ← exec (upsertRowSQL r); mret (Commit tt)
    | None => _ ← exec (upsertRowSQL r); mret (Commit tt)
    end).

(** [Get]: the row and whether it exists. *)
Definition Get (kind key : string) : M (option Row) := query_row (select_row kind key).

(** The filter loop of [List]: rejects an unsafe key, otherwise yields the conditions. *)
Fixpoint check_filters (filters : list (string * sqlval)) : M unit :=
  match filters with
  | [] => mret tt
  | (k, _) :: rest => if safeKey k then check_filters rest else throw (ErrInvalidFilterKey k)
  end.

(** [json_extract(payload, '$.k') = ?]: never true of NULL. *)
Definition filter_matches (c : rowcols) (kv : string * sqlval) : bool :=
  let v := env_json_extract (col_payload c) kv.1 in
  negb (bool_decide (v = VNull)) && bool_decide (v = kv.2).

Definition select_live (kind : string) (filters : list (string * sqlval)) (t : tables) : list Row :=
  omap (λ kc : (string * string) * rowcols,
          if bool_decide (kc.1.1 = kind) && (col_tombstone kc.2 =? 0)
             && forallb (filter_matches kc.2) filters
          then Some (scanRow kc) else None)
       (map_to_list (t_rows t)).

Definition List_ {S} (kind : string) (limit offset : Z) (filters : gmap string sqlval)
    (fn : S → Row → S * bool) (s : S) : M S :=
  fs ← range_map filters;
  _ ← check_filters fs;
  rows ← query (select_live kind fs);
  mret (each_row fn s (window limit offset (order_by row_key_le rows))).

(** [SELECT ... FROM rows WHERE kind = ? AND (hlc_ts, hlc_seq) after the watermark]. *)
Definition select_changes (kind : string) (wm : HLC) (t : tables) : list Row :=
  omap (λ kc : (string * string) * rowcols,
          if bool_decide (kc.1.1 = kind) && sql_after (col_hlc_ts kc.2) (col_hlc_seq kc.2) wm
          then Some (scanRow kc) else None)
       (map_to_list (t_rows t)).

Definition ChangesSince (kind : string) (wm : HLC) : M (list Row) :=
  rows ← query (select_changes kind wm);
  mret (order_by row_hlc_le rows).

Definition Delete (kind key owner : string) (hlc : HLC) : M unit :=
  cur ← Get kind key;
  let payload := match cur with Some c => Payload c | None => ""%string end in
  upsert (mkRow kind key owner hlc true payload).

Definition DeleteByNode (nodeID : string) (hlc : HLC) : M unit :=
  let prefix := nodeID +:+ "/%" in
  exec (λ t, set_rows (bury hlc prefix <$> t_rows t) t).

Definition GCTombstones (minHLC : HLC) : M Z :=
  exec_checked (λ t,
    let kept := gc_rows minHLC (t_rows t) in
    Ok (Z.of_nat (size (t_rows t) - size kept), set_rows kept t)).

Definition Checksum (kind : string) : M Z :=
  rows ← query (select_live_keys kind);
  mret (hash_fold rows).

(** ** Watermarks *)

Definition Watermark (peer kind : string) : M HLC :=
  cur ← query_row (λ t, t_watermarks t !! (peer, kind));
  mret (default zeroHLC cur).

Definition SetWatermark (peer kind : string) (hlc : HLC) : M unit :=
  cur ← Watermark peer kind;
  if negb (After hlc cur) then mret tt
  else exec (upsert_watermark peer kind hlc).

(** ** Events *)

(** [SELECT COALESCE(MAX(seq), 0) FROM events_v2 WHERE runner_id = ?]. *)
Definition runner_seqs (runner : string) (t : tables) : list Z :=
  omap (λ x : (string * Z) * evcols, if bool_decide (x.1.1 = runner) then Some x.1.2 else None)
       (map_to_list (t_events t)).
Definition coalesce_max (l : list Z) : Z :=
  match l with [] => 0 | x :: l => foldl Z.max x l end.

Definition event_cols (e : Event) (payload : string) : evcols :=
  mkEv (e_Type e) payload (TS (e_HLC e)) (Seq (e_HLC e)).

Definition AppendEvent (e : Event) : M unit :=
  match marshal_payload (e_Payload e) with
  | None => throw ErrJson
  | Some payload =>
      with_tx (
        m ← query_row (λ t, Some (coalesce_max (runner_seqs (e_RunnerID e) t)));
        let seq := wrap_i64 (default 0 m + 1) in
        _ ← exec_checked (λ t,
              match t_events t !! (e_RunnerID e, seq) with
              | Some _ => Err ErrConstraint
              | None => Ok (tt, set_events (<[(e_RunnerID e, seq) := event_cols e payload]> (t_events t)) t)
              end);
        mret (Commit tt))
  end.

(** The scan loop of [Events] and [EventsSince]. *)
Fixpoint scan_events (l : list ((string * Z) * evcols)) : M (list Event) :=
  match l with
  | [] => mret []
  | ((runner, seq), c) :: rest =>
      pl ← (if bool_decide (ev_payload c = ""%string) then mret None
            else match unmarshal_payload (ev_payload c) with
                 | Some pl => mret pl
                 | None => throw ErrJson
                 end);
      out ← scan_events rest;
      mret (mkEvent seq (ev_type c) runner pl (mkHLC (ev_hlc_ts c) (ev_hlc_seq c)) :: out)
  end.

Definition ev_hlc (x : (string * Z) * evcols) : HLC := mkHLC (ev_hlc_ts x.2) (ev_hlc_seq x.2).
Definition ev_hlc_le (a b : (string * Z) * evcols) : Prop := hlc_le (ev_hlc a) (ev_hlc b).
#[export] Instance ev_hlc_le_dec : RelDecision ev_hlc_le := λ a b, hlc_le_dec (ev_hlc a) (ev_hlc b).
#[export] Instance ev_hlc_ge_dec : RelDecision (flip ev_hlc_le) := λ a b, ev_hlc_le_dec b a.

(** [for i, j := 0, len(out)-1; i < j; i, j = i+1, j-1 { out[i], out[j] = out[j], out[i] }]. *)
Definition swap {A} (i j : nat) (l : list A) : list A :=
  match l !! i, l !! j with
  | Some x, Some y => <[j := x]> (<[i := y]> l)
  | _, _ => l
  end.
Fixpoint reverse_loop {A} (fuel i j : nat) (l : list A) : list A :=
  match fuel with
  | O => l
  | S fuel =>
      if bool_decide (i < j)%nat then reverse_loop fuel (i + 1) (j - 1) (swap i j l) else l
  end.
Definition reverse_in_place {A} (l : list A) : list A :=
  reverse_loop (length l) 0 (length l - 1) l.

Definition Events (limit : Z) : M (list Event) :=
  let limit := if limit <=? 0 then 100 else limit in
  l ← query (λ t, map_to_list (t_events t));
  out ← scan_events (take (Z.to_nat limit) (order_by (flip ev_hlc_le) l));
  mret (reverse_in_place out).

Definition select_events_since (wm : HLC) (t : tables) : list ((string * Z) * evcols) :=
  filter (λ x, sql_after (ev_hlc_ts x.2) (ev_hlc_seq x.2) wm = true) (map_to_list (t_events t)).

Definition EventsSince (wm : HLC) : M (list Event) :=
  l ← query (select_events_since wm);
  scan_events (order_by ev_hlc_le l).

Definition ChecksumEvents : M Z :=
  rows ← query select_event_keys;
  mret (hash_fold rows).

(** [INSERT ... ON CONFLICT(runner_id, seq) DO NOTHING]. *)
Definition insert_event (e : Event) (payload : string) (t : tables) : tables :=
  match t_events t !! (e_RunnerID e, e_Seq e) with
  | Some _ => t
  | None => set_events (<[(e_RunnerID e, e_Seq e) := event_cols e payload]> (t_events t)) t
  end.

Fixpoint apply_event_loop (events : list Event) : M unit :=
  match events with
  | [] => mret tt
  | e :: rest =>
      match marshal_payload (e_Payload e) with
      | None => throw ErrJson
      | Some pl => _ ← exec (insert_event e pl); apply_event_loop rest
      end
  end.

Definition ApplyEvents (events : list Event) : M unit :=
  if bool_decide (length events = 0%nat) then mret tt
  else with_tx (
    _ ← driver;  (* tx.Prepare *)
    _ ← apply_event_loop events;
    mret (Commit tt)).

End Store.
