(* ===== verification/StoreOpen.v ===== *)
(** * Opening the store: store.Open, init and Close

    A database file as data definition sees it: its tables, each with its columns, its primary key
    and its rows, its indexes, and the settings of the connection.  Every statement may fail, by
    itself or through the driver.  Names are compared as they are written. *)

From S2P Require Import Prelude Hlc Model Metrics World Store.

Inductive affinity := TEXT | INTEGER | BLOB.
#[export] Instance affinity_eq_dec : EqDecision affinity.
Proof. solve_decision. Defined.

Record column := mkColumn { co_name : string; co_type : affinity; co_not_null : bool; co_default : option Z }.
#[export] Instance column_eq_dec : EqDecision column.
Proof. solve_decision. Defined.

Record table_def := mkDef { td_columns : list column; td_key : list string }.
#[export] Instance table_def_eq_dec : EqDecision table_def.
Proof. solve_decision. Defined.

Inductive value := VText (s : string) | VInt (n : Z) | VBlob (s : string) | VNull.

(** A table: what it was created as, and its rows, a value for each column. *)
Record table := mkTable { tb_def : table_def; tb_rows : list (list value) }.

(** The statements [init] runs; [ine] is IF NOT EXISTS. *)
Inductive statement :=
| JournalModeWAL
| BusyTimeout (ms : Z)
| CreateTable (ine : bool) (name : string) (def : table_def)
| CreateIndex (ine : bool) (name on : string) (cols : list string).

Record database := mkDatabase {
  d_tables : gmap string table;
  d_indexes : gmap string (string * list string);
  d_wal : bool;
  d_busy_timeout : Z;
  d_max_conns : Z;
  d_closed : bool
}.

Definition set_tables (m : gmap string table) (d : database) : database :=
  mkDatabase m (d_indexes d) (d_wal d) (d_busy_timeout d) (d_max_conns d) (d_closed d).
Definition set_indexes (m : gmap string (string * list string)) (d : database) : database :=
  mkDatabase (d_tables d) m (d_wal d) (d_busy_timeout d) (d_max_conns d) (d_closed d).

(** What SQLite does with a statement.  Tables and indexes share one name space; creating what exists
    is an error unless IF NOT EXISTS is given, and then does nothing; an index needs its table and
    its columns. *)
Definition run_statement (s : statement) (d : database) : result database :=
  match s with
  | JournalModeWAL =>
      Ok (mkDatabase (d_tables d) (d_indexes d) true (d_busy_timeout d) (d_max_conns d) (d_closed d))
  | BusyTimeout ms =>
      Ok (mkDatabase (d_tables d) (d_indexes d) (d_wal d) ms (d_max_conns d) (d_closed d))
  | CreateTable ine name def =>
      match d_tables d !! name with
      | Some _ => if ine then Ok d else Err (ErrDriver "table already exists")
      | None =>
          match d_indexes d !! name with
          | Some _ => Err (ErrDriver "there is already an index with that name")
          | None => Ok (set_tables (<[name := mkTable def []]> (d_tables d)) d)
          end
      end
  | CreateIndex ine name on cols =>
      match d_tables d !! on with
      | None => Err (ErrDriver "no such table")
      | Some t =>
          match d_tables d !! name, d_indexes d !! name with
          | Some _, _ => Err (ErrDriver "there is already a table with that name")
          | None, Some _ => if ine then Ok d else Err (ErrDriver "index already exists")
          | None, None =>
              if forallb (λ c, bool_decide (c ∈ co_name <$> td_columns (tb_def t))) cols
              then Ok (set_indexes (<[name := (on, cols)]> (d_indexes d)) d)
              else Err (ErrDriver "no such column")
          end
      end
  end.

Definition NN (name : string) (ty : affinity) : column := mkColumn name ty true None.

Definition schema : list statement :=
  [JournalModeWAL;
   BusyTimeout 5000;
   CreateTable true "rows"
     (mkDef [NN "kind" TEXT; NN "key" TEXT; NN "owner" TEXT; NN "hlc_ts" INTEGER; NN "hlc_seq" INTEGER;
             mkColumn "tombstone" INTEGER true (Some 0%Z); NN "payload" BLOB]
            ["kind"; "key"]);
   CreateIndex true "rows_hlc" "rows" ["kind"; "hlc_ts"; "hlc_seq"];
   CreateTable true "events_v2"
     (mkDef [NN "runner_id" TEXT; NN "seq" INTEGER; NN "type" TEXT; NN "payload" TEXT;
             NN "hlc_ts" INTEGER; NN "hlc_seq" INTEGER]
            ["runner_id"; "seq"]);
   CreateTable true "watermarks"
     (mkDef [NN "peer" TEXT; NN "kind" TEXT; NN "hlc_ts" INTEGER; NN "hlc_seq" INTEGER]
            ["peer"; "kind"]);
   CreateIndex true "idx_events_ts" "events_v2" ["hlc_ts"; "hlc_seq"];
   CreateIndex true "idx_rows_owner" "rows" ["owner"]]%string.

(** The loop of [init]: the first failing statement ends it, what ran before it stays. *)
Fixpoint init (fault : nat → option string) (n : nat) (stmts : list statement) (d : database) :
    result unit * database :=
  match stmts with
  | [] => (Ok tt, d)
  | s :: stmts =>
      match fault n with
      | Some e => (Err (ErrDriver ("schema: " +:+ e)), d)
      | None => match run_statement s d with
                | Ok d' => init fault (S n) stmts d'
                | Err (ErrDriver e) => (Err (ErrDriver ("schema: " +:+ e)), d)
                | Err e => (Err e, d)
                | Panic => (Panic, d)
                end
      end
  end.

Definition SetMaxOpenConns (n : Z) (d : database) : database :=
  mkDatabase (d_tables d) (d_indexes d) (d_wal d) (d_busy_timeout d) n (d_closed d).
Definition Close (d : database) : database :=
  mkDatabase (d_tables d) (d_indexes d) (d_wal d) (d_busy_timeout d) (d_max_conns d) true.

Record Store := mkStore { st_nodeID : string }.

(** [Open]: [sql.Open] fails or gives a connection to the file. *)
Definition Open (sql_Open : option string) (fault : nat → option string) (nodeID : string) (d : database) :
    result Store * database :=
  match sql_Open with
  | Some e => (Err (ErrDriver e), d)
  | None =>
      let d := SetMaxOpenConns 1 d in
      match init fault 0 schema d with
      | (Ok _, d') => (Ok (mkStore nodeID), d')
      | (Err e, d') => (Err e, Close d')
      | (Panic, d') => (Panic, d')
      end
  end.

Definition NodeID (s : Store) : string := st_nodeID s.

(** ** One statement *)

(** The table or index that the statements create first under a name. *)
Fixpoint first_table (name : string) (stmts : list statement) : option table_def :=
  match stmts with
  | [] => None
  | CreateTable _ name' def :: stmts => if bool_decide (name' = name) then Some def else first_table name stmts
  | _ :: stmts => first_table name stmts
  end.
Fixpoint first_index (name : string) (stmts : list statement) : option (string * list string) :=
  match stmts with
  | [] => None
  | CreateIndex _ name' on cols :: stmts =>
      if bool_decide (name' = name) then Some (on, cols) else first_index name stmts
  | _ :: stmts => first_index name stmts
  end.

(** What is there stays as it is, with all its rows. *)
Lemma run_keeps s d d' :
  run_statement s d = Ok d' →
  d_tables d ⊆ d_tables d' ∧ d_indexes d ⊆ d_indexes d' ∧ d_max_conns d' = d_max_conns d ∧
  d_closed d' = d_closed d.
Proof.
  destruct s as [|ms|ine name def|ine name on cols]; simpl; [by intros [= <-]..| |]; repeat case_match;
    intros; simplify_eq; try done; simpl; (split_and!; [|..|done|done]); try done; by apply insert_subseteq.
Qed.

(** What was not there is there exactly if the statement creates it. *)
Lemma run_creates s d d' :
  run_statement s d = Ok d' →
  (∀ name, d_tables d !! name = None →
     d_tables d' !! name = (λ def, mkTable def []) <$> first_table name [s]) ∧
  (∀ name, d_indexes d !! name = None → d_indexes d' !! name = first_index name [s]).
Proof.
  destruct s as [|ms|ine name def|ine name on cols]; simpl; [by intros [= <-]..| |].
  - destruct (d_tables d !! name) as [t|] eqn:Ht.
    + destruct ine; [|done]. intros [= <-]. split; [|done]. intros n Hn.
      by rewrite bool_decide_false by (by intros ->; rewrite Ht in Hn).
    + destruct (d_indexes d !! name); [done|]. intros [= <-]. split; [|done]. intros n Hn. simpl.
      case_bool_decide as Hd; [subst; by rewrite lookup_insert_eq|by rewrite lookup_insert_ne].
  - destruct (d_tables d !! on) as [t|]; [|done]. destruct (d_tables d !! name); [done|].
    destruct (d_indexes d !! name) as [x|] eqn:Hx.
    + destruct ine; [|done]. intros [= <-]. split; [done|]. intros n Hn.
      by rewrite bool_decide_false by (by intros ->; rewrite Hx in Hn).
    + destruct (forallb _ cols); [|done]. intros [= <-]. split; [done|]. intros n Hn. simpl.
      case_bool_decide as Hd; [subst; by rewrite lookup_insert_eq|by rewrite lookup_insert_ne].
Qed.

Lemma first_table_cons s stmts name def :
  first_table name [s] = Some def → first_table name (s :: stmts) = Some def.
Proof. destruct s; simpl; try done. by case_bool_decide. Qed.
Lemma first_table_skip s stmts name :
  first_table name [s] = None → first_table name (s :: stmts) = first_table name stmts.
Proof. destruct s; simpl; try done. by case_bool_decide. Qed.
Lemma first_index_cons s stmts name x :
  first_index name [s] = Some x → first_index name (s :: stmts) = Some x.
Proof. destruct s; simpl; try done. by case_bool_decide. Qed.
Lemma first_index_skip s stmts name :
  first_index name [s] = None → first_index name (s :: stmts) = first_index name stmts.
Proof. destruct s; simpl; try done. by case_bool_decide. Qed.

(** ** The whole list *)

Lemma init_keeps fault n stmts d :
  let d' := (init fault n stmts d).2 in
  d_tables d ⊆ d_tables d' ∧ d_indexes d ⊆ d_indexes d' ∧ d_max_conns d' = d_max_conns d ∧
  d_closed d' = d_closed d.
Proof.
  revert n d. induction stmts as [|s stmts IH]; intros n d; [done|]. simpl.
  destruct (fault n); [done|]. destruct (run_statement s d) as [d1|[]|] eqn:Hs; try done.
  apply run_keeps in Hs as (H1 & H2 & <- & <-). destruct (IH (S n) d1) as (H3 & H4 & H5 & H6).
  split_and!; [by etrans|by etrans|done|done].
Qed.

Lemma init_creates fault n stmts d d' :
  init fault n stmts d = (Ok tt, d') →
  (∀ name, d_tables d !! name = None →
     d_tables d' !! name = (λ def, mkTable def []) <$> first_table name stmts) ∧
  (∀ name, d_indexes d !! name = None → d_indexes d' !! name = first_index name stmts).
Proof.
  revert n d. induction stmts as [|s stmts IH]; intros n d; cbn [init]; [by intros [= <-]|].
  destruct (fault n); [done|]. destruct (run_statement s d) as [d1|[]|] eqn:Hs; try done. intros Hi.
  pose proof (init_keeps fault (S n) stmts d1) as (Ht & Hx & _). rewrite Hi in Ht, Hx. cbn [snd] in Ht, Hx.
  apply run_creates in Hs as [H1 H2]. apply IH in Hi as [H3 H4]. split; intros name Hn.
  - specialize (H1 name Hn). destruct (first_table name [s]) as [def|] eqn:Hf.
    + rewrite (first_table_cons _ _ _ _ Hf). simpl in H1 |- *. by eapply lookup_weaken.
    + rewrite (first_table_skip _ _ _ Hf). by apply H3.
  - specialize (H2 name Hn). destruct (first_index name [s]) as [x|] eqn:Hf.
    + rewrite (first_index_cons _ _ _ _ Hf). by eapply lookup_weaken.
    + rewrite (first_index_skip _ _ _ Hf). by apply H4.
Qed.

Definition is_definition (s : statement) : bool :=
  match s with CreateTable _ _ _ | CreateIndex _ _ _ _ => true | _ => false end.

Lemma init_settings fault n stmts d d' :
  Forall (λ s, is_definition s = true) stmts → init fault n stmts d = (Ok tt, d') →
  d_wal d' = d_wal d ∧ d_busy_timeout d' = d_busy_timeout d.
Proof.
  intros HF. revert n d. induction HF as [|s stmts Hs _ IH]; intros n d; simpl; [by intros [= <-]|].
  destruct (fault n); [done|]. destruct (run_statement s d) as [d1|[]|] eqn:Hr; try done.
  intros Hi. apply IH in Hi as [-> ->]. destruct s; try done; simpl in Hr; repeat case_match; by simplify_eq.
Qed.

(** ** Success *)

Definition table_names : list string := ["rows"; "events_v2"; "watermarks"]%string.
Definition index_names : list string := ["rows_hlc"; "idx_events_ts"; "idx_rows_owner"]%string.

(** A file the program can use: its tables, where they exist, are as the schema declares them, and
    no index is called like a table of the schema or a table like an index of it. *)
Record compatible (d : database) : Prop := {
  cp_tables : ∀ name t def, d_tables d !! name = Some t → first_table name schema = Some def → tb_def t = def;
  cp_no_index : ∀ name, name ∈ table_names → d_indexes d !! name = None;
  cp_no_table : ∀ name, name ∈ index_names → d_tables d !! name = None
}.

(** The statement can run once its table is there. *)
Definition fits (s : statement) (d : database) : Prop :=
  match s with
  | CreateTable ine name def => ine = true ∧ name ∈ table_names ∧ first_table name schema = Some def
  | CreateIndex ine name on cols =>
      ine = true ∧ name ∈ index_names ∧ ∃ def, first_table on schema = Some def ∧
        Forall (λ c, c ∈ co_name <$> td_columns def) cols ∧ is_Some (d_tables d !! on)
  | _ => True
  end.

Lemma run_compatible s d :
  compatible d → fits s d → ∃ d', run_statement s d = Ok d' ∧ compatible d'.
Proof.
  intros [Ct Ci Cn] Hf. destruct s as [|ms|ine name def|ine name on cols]; cbn [fits run_statement] in *;
    [eexists; split; [done|by split]..| |].
  - destruct Hf as (-> & Hin & Hdef). destruct (d_tables d !! name) as [t|] eqn:Ht; [by exists d|].
    rewrite (Ci name Hin). eexists. split; [done|]. split; cbn [d_tables d_indexes set_tables]; [|done|].
    + intros n t def'. destruct (decide (name = n)) as [<-|Hne].
      * rewrite lookup_insert_eq, Hdef. by intros [= <-] [= <-].
      * rewrite lookup_insert_ne by done. apply Ct.
    + intros n Hn. rewrite lookup_insert_ne; [by apply Cn|]. intros <-. clear -Hin Hn.
      unfold table_names, index_names in *. set_solver.
  - destruct Hf as (-> & Hin & def & Hdef & Hcols & t & Ht). rewrite Ht, (Cn name Hin).
    destruct (d_indexes d !! name) as [x|]; [by exists d|].
    rewrite (Ct on t def Ht Hdef). replace (forallb _ cols) with true.
    + eexists. split; [done|]. split; cbn [d_tables d_indexes set_indexes]; [done| |done].
      intros n Hn. rewrite lookup_insert_ne; [by apply Ci|]. intros <-. clear -Hin Hn.
      unfold table_names, index_names in *. set_solver.
    + symmetry. apply forallb_forall. intros c Hc%list_elem_of_In. rewrite Forall_forall in Hcols.
      by apply bool_decide_eq_true, Hcols.
Qed.

(** What every statement but the creation of a table needs. *)
Definition ready_for (before : list statement) (s : statement) : Prop :=
  match s with
  | CreateTable ine name def => ine = true ∧ name ∈ table_names ∧ first_table name schema = Some def
  | CreateIndex ine name on cols =>
      ine = true ∧ name ∈ index_names ∧ is_Some (first_table on before) ∧
      ∃ def, first_table on schema = Some def ∧ Forall (λ c, c ∈ co_name <$> td_columns def) cols
  | _ => True
  end.

Fixpoint ordered (before stmts : list statement) : Prop :=
  match stmts with
  | [] => True
  | s :: stmts => ready_for before s ∧ ordered (before ++ [s]) stmts
  end.

Lemma schema_ordered : ordered [] schema.
Proof.
  cbn [schema ordered ready_for app]. split_and!; try done; try (by eexists);
    try (unfold table_names, index_names; set_solver);
    (eexists; split; [vm_compute; reflexivity|]); repeat constructor; vm_compute; set_solver.
Qed.

Lemma ready_fits before s d :
  (∀ name, is_Some (first_table name before) → is_Some (d_tables d !! name)) → ready_for before s → fits s d.
Proof.
  intros Hb. destruct s; try done. intros (H1 & H2 & H3 & def & H4 & H5). repeat split; try done.
  exists def. split_and!; try done. by apply Hb.
Qed.

Lemma first_table_app name l1 l2 :
  is_Some (first_table name (l1 ++ l2)) → is_Some (first_table name l1) ∨ is_Some (first_table name l2).
Proof.
  induction l1 as [|s l1 IH]; [by right|]. cbn [app]. destruct s; cbn [first_table]; try done.
  case_bool_decide; [by left|done].
Qed.

Lemma run_present s d d' before :
  run_statement s d = Ok d' →
  (∀ name, is_Some (first_table name before) → is_Some (d_tables d !! name)) →
  ∀ name, is_Some (first_table name (before ++ [s])) → is_Some (d_tables d' !! name).
Proof.
  intros Hr Hb name [Hn|Hn]%first_table_app.
  - destruct (Hb name Hn) as [t Ht]. exists t. apply run_keeps in Hr as [Hk _]. by eapply lookup_weaken.
  - destruct (d_tables d !! name) as [t|] eqn:Ht.
    + exists t. apply run_keeps in Hr as [Hk _]. by eapply lookup_weaken.
    + apply run_creates in Hr as [Hc _]. rewrite (Hc name Ht). by apply fmap_is_Some.
Qed.

Lemma init_succeeds fault n stmts before d :
  (∀ i, (i < n + length stmts)%nat → fault i = None) → ordered before stmts → compatible d →
  (∀ name, is_Some (first_table name before) → is_Some (d_tables d !! name)) →
  ∃ d', init fault n stmts d = (Ok tt, d') ∧ compatible d'.
Proof.
  revert n before d. induction stmts as [|s stmts IH]; intros n before d Hf Ho Hc Hb; [by exists d|].
  destruct Ho as [Hs Ho]. destruct (run_compatible s d Hc (ready_fits _ _ _ Hb Hs)) as (d1 & Hr & Hc1).
  cbn [init]. rewrite Hf, Hr by (simpl; lia).
  apply (IH (S n) (before ++ [s])); [|done|done|by eapply run_present].
  intros i Hi. apply Hf. simpl. lia.
Qed.

Lemma init_fails fault n stmts d :
  match (init fault n stmts d).1 with
  | Ok _ => True
  | Err e => ∃ msg, e = ErrDriver ("schema: " +:+ msg)
  | Panic => False
  end.
Proof.
  revert n d. induction stmts as [|s stmts IH]; intros n d; [done|]. cbn [init].
  destruct (fault n); [by eexists|]. destruct (run_statement s d) as [d1|[]|] eqn:Hs; [apply IH|by eexists|..];
    destruct s; cbn [run_statement] in Hs; repeat case_match; simplify_eq.
Qed.

(** ** What a store relies on *)

(** The table [name] of the opened file: the one that was there, or an empty one with these columns,
    none of which may be null, and this primary key. *)
Definition has_table (d d' : database) (name : string) (cols : list (string * affinity)) (key : list string) : Prop :=
  match d_tables d !! name with
  | Some t => d_tables d' !! name = Some t
  | None => ∃ def, d_tables d' !! name = Some (mkTable def []) ∧
              ((λ c, (co_name c, co_type c)) <$> td_columns def) = cols ∧
              Forall (λ c, co_not_null c = true) (td_columns def) ∧ td_key def = key
  end.
Definition has_index (d d' : database) (name on : string) (cols : list string) : Prop :=
  d_indexes d' !! name = Some (default (on, cols) (d_indexes d !! name)).

(** The file after a successful [Open]. *)
Record opened (d d' : database) : Prop := {
  op_rows : has_table d d' "rows"
    [("kind", TEXT); ("key", TEXT); ("owner", TEXT); ("hlc_ts", INTEGER); ("hlc_seq", INTEGER);
     ("tombstone", INTEGER); ("payload", BLOB)]%string ["kind"; "key"]%string;
  op_events : has_table d d' "events_v2"
    [("runner_id", TEXT); ("seq", INTEGER); ("type", TEXT); ("payload", TEXT); ("hlc_ts", INTEGER);
     ("hlc_seq", INTEGER)]%string ["runner_id"; "seq"]%string;
  op_watermarks : has_table d d' "watermarks"
    [("peer", TEXT); ("kind", TEXT); ("hlc_ts", INTEGER); ("hlc_seq", INTEGER)]%string ["peer"; "kind"]%string;
  op_rows_hlc : has_index d d' "rows_hlc" "rows" ["kind"; "hlc_ts"; "hlc_seq"]%string;
  op_events_ts : has_index d d' "idx_events_ts" "events_v2" ["hlc_ts"; "hlc_seq"]%string;
  op_rows_owner : has_index d d' "idx_rows_owner" "rows" ["owner"]%string;
  op_no_other_table : ∀ name, name ∉ table_names → d_tables d' !! name = d_tables d !! name;
  op_no_other_index : ∀ name, name ∉ index_names → d_indexes d' !! name = d_indexes d !! name;
  op_settings : d_wal d' = true ∧ d_busy_timeout d' = 5000%Z ∧ d_max_conns d' = 1%Z ∧ d_closed d' = d_closed d
}.

Lemma created_table d d' name def cols key :
  d_tables d ⊆ d_tables d' →
  (∀ name, d_tables d !! name = None → d_tables d' !! name = (λ def, mkTable def []) <$> first_table name schema) →
  first_table name schema = Some def → Forall (λ c, co_not_null c = true) (td_columns def) →
  ((λ c, (co_name c, co_type c)) <$> td_columns def) = cols → td_key def = key → has_table d d' name cols key.
Proof.
  intros Hk Hc Hf Hn Hcols Hkey. unfold has_table. destruct (d_tables d !! name) as [t|] eqn:Ht; [by eapply lookup_weaken|].
  exists def. rewrite (Hc name Ht), Hf. done.
Qed.

Lemma created_index d d' name on cols :
  d_indexes d ⊆ d_indexes d' →
  (∀ name, d_indexes d !! name = None → d_indexes d' !! name = first_index name schema) →
  first_index name schema = Some (on, cols) → has_index d d' name on cols.
Proof.
  intros Hk Hc Hf. unfold has_index. destruct (d_indexes d !! name) as [t|] eqn:Ht; [by eapply lookup_weaken|].
  by rewrite (Hc name Ht), Hf.
Qed.

Lemma first_table_names name : name ∉ table_names → first_table name schema = None.
Proof.
  intros Hn. cbn [schema first_table]. rewrite !bool_decide_false; [done|..]; intros <-; apply Hn;
    unfold table_names; set_solver.
Qed.
Lemma first_index_names name : name ∉ index_names → first_index name schema = None.
Proof.
  intros Hn. cbn [schema first_index]. rewrite !bool_decide_false; [done|..]; intros <-; apply Hn;
    unfold index_names; set_solver.
Qed.

Lemma kept_or_absent {A} (m m' : gmap string A) name :
  m ⊆ m' → (m !! name = None → m' !! name = None) → m' !! name = m !! name.
Proof. intros Hk Hn. destruct (m !! name) eqn:Hm; [by eapply lookup_weaken|by apply Hn]. Qed.

Lemma init_settings_schema fault d d' :
  init fault 0 schema d = (Ok tt, d') → d_wal d' = true ∧ d_busy_timeout d' = 5000%Z.
Proof.
  set (rest := drop 2 schema). change schema with (JournalModeWAL :: BusyTimeout 5000 :: rest). cbn [init].
  destruct (fault 0%nat); [done|]. cbn [run_statement]. destruct (fault 1%nat); [done|]. intros Hi.
  apply init_settings in Hi as [-> ->]; [done|by repeat constructor].
Qed.

Lemma init_opened fault d d' :
  init fault 0 schema (SetMaxOpenConns 1 d) = (Ok tt, d') → opened d d'.
Proof.
  intros Hi. pose proof (init_settings_schema _ _ _ Hi) as [Hw Hb].
  pose proof (init_keeps fault 0 schema (SetMaxOpenConns 1 d)) as (Kt & Kx & Km & Kc).
  rewrite Hi in Kt, Kx, Km, Kc. pose proof (init_creates _ _ _ _ _ Hi) as [Ct Cx].
  cbn [snd SetMaxOpenConns d_tables d_indexes d_max_conns d_closed] in *.
  split; [| | | | | | | |done].
  1-3: eapply (created_table d d'); [done|done|reflexivity|by repeat constructor|done|done].
  1-3: by apply (created_index d d').
  - intros name Hn. apply kept_or_absent; [done|]. intros Ha. by rewrite (Ct name Ha), first_table_names.
  - intros name Hn. apply kept_or_absent; [done|]. intros Ha. by rewrite (Cx name Ha), first_index_names.
Qed.

(** Opening a file that has been opened adds nothing. *)
Lemma opened_again d d1 d2 : opened d d1 → opened d1 d2 → d_tables d2 = d_tables d1 ∧ d_indexes d2 = d_indexes d1.
Proof.
  assert (Ht : ∀ a b c name cols key cols' key',
            has_table a b name cols key → has_table b c name cols' key' → d_tables c !! name = d_tables b !! name).
  { unfold has_table. intros a b c name cols key cols' key' H1 H2.
    assert (is_Some (d_tables b !! name)) as [t Hb].
    { destruct (d_tables a !! name); [by eexists|]. destruct H1 as (? & ? & _). by eexists. }
    by rewrite Hb in *. }
  assert (Hx : ∀ a b c name on cols on' cols',
            has_index a b name on cols → has_index b c name on' cols' → d_indexes c !! name = d_indexes b !! name).
  { unfold has_index. intros a b c name on cols on' cols' H1 H2. rewrite H2, H1. done. }
  intros [] []. split; apply map_eq; intros name.
  - destruct (decide (name ∈ table_names)) as [Hin|Hn]; [|by auto].
    assert (Hin' : (name = "rows" ∨ name = "events_v2" ∨ name = "watermarks")%string)
      by (clear -Hin; unfold table_names in Hin; set_solver).
    destruct Hin' as [->|[->| ->]]; by eapply Ht.
  - destruct (decide (name ∈ index_names)) as [Hin|Hn]; [|by auto].
    assert (Hin' : (name = "rows_hlc" ∨ name = "idx_events_ts" ∨ name = "idx_rows_owner")%string)
      by (clear -Hin; unfold index_names in Hin; set_solver).
    destruct Hin' as [->|[->| ->]]; by eapply Hx.
Qed.

(** C31: [store.Open] on a file with any tables, indexes and rows.  Whatever it answers, every table
    that was there keeps its definition and all its rows, every index stays, and opening never
    panics; an error without [sql.Open] failing leaves the connection closed and names the schema.  A store it gives has
    the node's id, each of the three tables and three indexes of the schema (the one that was there,
    or an empty one with the columns, NOT NULL and primary key the queries rely on), no other new
    table or index, write-ahead logging, the busy timeout and one connection.  When the driver
    reports no error and the file's own tables and indexes do not conflict with the schema, opening
    succeeds, and opening the file again succeeds and changes no table and no index. *)
Theorem Open_keeps_contents sql_Open fault nodeID d :
  let '(r, d') := Open sql_Open fault nodeID d in
  d_tables d ⊆ d_tables d' ∧ d_indexes d ⊆ d_indexes d' ∧
  match r with
  | Ok s => NodeID s = nodeID ∧ opened d d'
  | Err e => is_Some sql_Open ∨ d_closed d' = true ∧ ∃ msg, e = ErrDriver ("schema: " +:+ msg)
  | Panic => False
  end ∧
  (sql_Open = None → (∀ i, fault i = None) → compatible d →
     r = Ok (mkStore nodeID) ∧ ∃ d'', Open sql_Open fault nodeID d' = (Ok (mkStore nodeID), d'') ∧
       d_tables d'' = d_tables d' ∧ d_indexes d'' = d_indexes d').
Proof.
  destruct sql_Open as [e|]; [by split_and!; [..|left|]|]. unfold Open.
  pose proof (init_keeps fault 0 schema (SetMaxOpenConns 1 d)) as (Kt & Kx & _).
  pose proof (init_fails fault 0 schema (SetMaxOpenConns 1 d)) as Hp.
  assert (Hgo : ∀ d0, (∀ i, fault i = None) → compatible d0 →
            ∃ d1, init fault 0 schema (SetMaxOpenConns 1 d0) = (Ok tt, d1) ∧ compatible d1).
  { intros d0 Hf [C1 C2 C3]. apply (init_succeeds fault 0 schema []); [done|apply schema_ordered|by split|].
    intros name []%is_Some_None. }
  destruct (init fault 0 schema (SetMaxOpenConns 1 d)) as [[[]|e|] d'] eqn:Hi; [| |done]; cbn [snd] in Kt, Kx.
  - pose proof (init_opened _ _ _ Hi) as Hopen. split_and!; [done|done|done|done|].
    intros _ Hf Hc. split; [done|]. destruct (Hgo d Hf Hc) as (d1 & Hd1 & Hc1).
    rewrite Hi in Hd1. injection Hd1 as <-. destruct (Hgo d' Hf Hc1) as (d2 & Hd2 & _).
    exists d2. rewrite Hd2. split; [done|]. eapply opened_again; [done|by eapply init_opened].
  - split_and!; [done|done|by right|]. intros _ Hf Hc. destruct (Hgo d Hf Hc) as (d1 & Hd1 & _).
    by rewrite Hi in Hd1.
Qed.

(** A file an earlier process left: one row, no event and no watermark. *)
Definition old_rows : table :=
  mkTable (mkDef [NN "kind" TEXT; NN "key" TEXT; NN "owner" TEXT; NN "hlc_ts" INTEGER; NN "hlc_seq" INTEGER;
                  mkColumn "tombstone" INTEGER true (Some 0%Z); NN "payload" BLOB] ["kind"; "key"])%string
          [[VText "runner"; VText "n1"; VText "n1"; VInt 5; VInt 0; VInt 0; VBlob "{}"]]%string.
Definition old_file : database := mkDatabase {["rows" := old_rows]} ∅ false 0 0 false.

Lemma Open_keeps_contents_witness :
  compatible old_file ∧
  match Open None (λ _, None) "n1" old_file with
  | (Ok s, d) => d_tables d !! "rows" = Some old_rows ∧ opened old_file d
  | _ => False
  end.
Proof.
  assert (Hc : compatible old_file).
  { split; [|done|].
    - intros name t def Ht. cbn [old_file d_tables] in Ht. apply lookup_singleton_Some in Ht as [<- <-]. intros [= <-].
      reflexivity.
    - intros name Hn. cbn [old_file d_tables]. apply lookup_singleton_None. intros <-.
      unfold index_names in Hn. set_solver. }
  split; [done|]. pose proof (Open_keeps_contents None (λ _, None) "n1" old_file) as H.
  destruct (Open None (λ _, None) "n1" old_file) as [r d]. destruct H as (Ht & _ & Hr & Hok).
  destruct (Hok eq_refl (λ _, eq_refl) Hc) as [-> _]. split; [|apply Hr]. eapply lookup_weaken; [|exact Ht]. reflexivity.
Defined.
