(* ===== verification/Lattice.v ===== *)
(** * States that grow by joins

    What the replicated tables promise to the replication code: applying an update yields the
    least state above the current one that accounts for the update.  Convergence of replicas is
    proved once, here, against this interface; the tables of the store are its instances. *)

From S2P Require Import Prelude.

Class JoinState (St Up : Type) := {
  js_le : relation St;
  js_preorder :: PreOrder js_le;
  (** the state accounts for the update *)
  js_has : Up → St → Prop;
  js_put : Up → St → St;
  js_has_mono : ∀ u s t, js_has u s → js_le s t → js_has u t;
  js_put_le : ∀ u s, js_le s (js_put u s);
  js_put_has : ∀ u s, js_has u (js_put u s);
  js_put_least : ∀ u s t, js_le s t → js_has u t → js_le (js_put u s) t
}.

Declare Scope join_scope.
Infix "⊑ⱼ" := js_le (at level 70) : join_scope.
Open Scope join_scope.

Section Join.
Context `{JS : JoinState St Up}.
Implicit Types (s t : St) (u : Up) (us : list Up).

(** Two states are equivalent when each is below the other. *)
Definition js_equiv s t : Prop := s ⊑ⱼ t ∧ t ⊑ⱼ s.

#[export] Instance js_equiv_equivalence : Equivalence js_equiv.
Proof.
  split.
  - intros s. by split.
  - intros s t [??]. by split.
  - intros s t v [??] [??]. split; by etrans.
Qed.

#[export] Instance js_le_proper : Proper (js_equiv ==> js_equiv ==> iff) js_le.
Proof.
  intros s s' [H1 H2] t t' [H3 H4]. split; intros H.
  - transitivity s; [done|]. by transitivity t.
  - transitivity s'; [done|]. by transitivity t'.
Qed.

#[export] Instance js_has_proper u : Proper (js_equiv ==> iff) (js_has u).
Proof. intros s t [??]. split; intros; by eapply js_has_mono. Qed.

#[export] Instance js_put_proper u : Proper (js_equiv ==> js_equiv) (js_put u).
Proof.
  assert (∀ s t, s ⊑ⱼ t → js_put u s ⊑ⱼ js_put u t) as Hmono.
  { intros s t H. apply js_put_least; [|apply js_put_has]. by transitivity t; [|apply js_put_le]. }
  intros s t [??]. by split; apply Hmono.
Qed.

(** A batch, applied in order. *)
Definition put_all us s : St := foldl (λ s u, js_put u s) s us.

Lemma put_all_cons u us s : put_all (u :: us) s = put_all us (js_put u s).
Proof. done. Qed.

Lemma put_all_app us1 us2 s : put_all (us1 ++ us2) s = put_all us2 (put_all us1 s).
Proof. apply foldl_app. Qed.

Lemma put_all_le us s : s ⊑ⱼ put_all us s.
Proof.
  revert s. induction us as [|u us IH]; intros s; [done|].
  rewrite put_all_cons. transitivity (js_put u s); [apply js_put_le|apply IH].
Qed.

Lemma put_all_has us s u : u ∈ us → js_has u (put_all us s).
Proof.
  revert s. induction us as [|v us IH]; intros s Hin; [by apply not_elem_of_nil in Hin|].
  rewrite put_all_cons. apply elem_of_cons in Hin as [->|Hin]; [|by apply IH].
  eapply js_has_mono; [apply js_put_has|apply put_all_le].
Qed.

Lemma put_all_least us s t : s ⊑ⱼ t → (∀ u, u ∈ us → js_has u t) → put_all us s ⊑ⱼ t.
Proof.
  revert s. induction us as [|u us IH]; intros s Hs Hus; [done|].
  rewrite put_all_cons. apply IH; [|set_solver].
  apply js_put_least; set_solver.
Qed.

(** Order and repetition of the updates do not matter. *)
Lemma put_all_same_set us1 us2 s :
  (∀ u, u ∈ us1 ↔ u ∈ us2) → js_equiv (put_all us1 s) (put_all us2 s).
Proof.
  intros Hset. split; apply put_all_least; try apply put_all_le;
    intros u Hu; apply put_all_has; by apply Hset.
Qed.

(** Updates the state accounts for change nothing. *)
Lemma put_all_absorb us s : (∀ u, u ∈ us → js_has u s) → js_equiv (put_all us s) s.
Proof. intros Hus. split; [by apply put_all_least|apply put_all_le]. Qed.

Lemma put_all_twice us s : js_equiv (put_all us (put_all us s)) (put_all us s).
Proof. apply put_all_absorb, put_all_has. Qed.

End Join.
