(* ===== verification/Lww.v ===== *)
(** * Last-writer-wins: the rows table as a replicated map

    The order behind [newer], and the contract [ApplyRemote] implements: a batch leaves, for
    every key, the version with the greatest (HLC, owner) stamp among the one stored and those
    received.  [merge_row] is the reference definition of one step; the rows table with it is an
    instance of [JoinState]. *)

From S2P Require Import Prelude Hlc Model Metrics World Store Lattice.
Local Open Scope Z_scope.

(** ** Stamps *)

Definition stamp : Type := HLC * string.

Definition stamp_le (a b : stamp) : Prop :=
  hlc_lt a.1 b.1 ∨ (a.1 = b.1 ∧ String.le a.2 b.2).

#[export] Instance stamp_le_dec : RelDecision stamp_le.
Proof. intros a b. unfold stamp_le. apply _. Defined.

Lemma hlc_lt_trans (a b c : HLC) : a ≺ b → b ≺ c → a ≺ c.
Proof. hlc. Qed.
Lemma hlc_lt_irrefl (a : HLC) : ¬ a ≺ a.
Proof. hlc. Qed.
Lemma hlc_trichotomy (a b : HLC) : a ≺ b ∨ a = b ∨ b ≺ a.
Proof.
  destruct (Compare_cases a b) as [[_ ?]|[[_ ?]|[_ ?]]]; auto.
Qed.

#[export] Instance stamp_le_po : PartialOrder stamp_le.
Proof.
  split; [split|].
  - intros [h o]. by right.
  - intros [h1 o1] [h2 o2] [h3 o3]; unfold stamp_le; simpl.
    intros [H1|[-> H1]] [H2|[-> H2]]; auto; [left; by eapply hlc_lt_trans|].
    right. split; [done|]. by etrans.
  - intros [h1 o1] [h2 o2]; unfold stamp_le; simpl.
    intros [H1|[-> H1]] [H2|[H2 H2']]; subst.
    + by destruct (hlc_lt_irrefl h1 (hlc_lt_trans _ _ _ H1 H2)).
    + by destruct (hlc_lt_irrefl _ H1).
    + by destruct (hlc_lt_irrefl _ H2).
    + f_equal. by apply (anti_symm String.le).
Qed.

#[export] Instance stamp_le_total : Total stamp_le.
Proof.
  intros [h1 o1] [h2 o2]; unfold stamp_le; simpl.
  destruct (hlc_trichotomy h1 h2) as [?|[->|?]]; auto.
  destruct (total String.le o1 o2); auto.
Qed.

Definition row_stamp (r : Row) : stamp := (RHLC r, Owner r).
Definition cols_hlc (c : rowcols) : HLC := mkHLC (col_hlc_ts c) (col_hlc_seq c).
Definition cols_stamp (c : rowcols) : stamp := (cols_hlc c, col_owner c).

Lemma cols_stamp_of (r : Row) : cols_stamp (cols_of r) = row_stamp r.
Proof. by destruct r as [??? []]. Qed.

Lemma row_stamp_scan kk c : row_stamp (scanRow (kk, c)) = cols_stamp c.
Proof. by destruct kk. Qed.

Lemma string_ltb_le (a b : string) : String.ltb a b = true ↔ ¬ String.le b a.
Proof.
  unfold String.ltb, String.le, String.leb. rewrite (String.compare_antisym b a).
  destruct (String.compare a b); simpl; naive_solver.
Qed.

(** [newer] decides the strict order of stamps. *)
Lemma newer_spec (a b : Row) : newer a b = true ↔ ¬ stamp_le (row_stamp a) (row_stamp b).
Proof.
  unfold newer, stamp_le, row_stamp; simpl.
  destruct (Compare_cases (RHLC a) (RHLC b)) as [[-> H]|[[-> H]|[-> H]]]; simpl.
  - split; [done|]. intros Hn. destruct Hn. by left.
  - rewrite string_ltb_le, H. split; [|naive_solver].
    intros Hn [Hl|[_ ?]]; [by apply hlc_lt_irrefl in Hl|done].
  - split; [|done]. intros _ [Hl|[He _]].
    + by destruct (hlc_lt_irrefl _ (hlc_lt_trans _ _ _ H Hl)).
    + rewrite He in H. by apply hlc_lt_irrefl in H.
Qed.

Lemma newer_false (a b : Row) : newer a b = false ↔ stamp_le (row_stamp a) (row_stamp b).
Proof.
  rewrite <-not_true_iff_false, newer_spec.
  destruct (decide (stamp_le (row_stamp a) (row_stamp b))); tauto.
Qed.

(** ** The rows table as a join state *)

Abbreviation rows_map := (gmap (string * string) rowcols).

Definition rows_le (m1 m2 : rows_map) : Prop :=
  ∀ kk c1, m1 !! kk = Some c1 →
    ∃ c2, m2 !! kk = Some c2 ∧ stamp_le (cols_stamp c1) (cols_stamp c2).

(** The table holds, under the row's key, a version at least as new. *)
Definition rows_has (r : Row) (m : rows_map) : Prop :=
  ∃ c, m !! (Kind r, Key r) = Some c ∧ stamp_le (row_stamp r) (cols_stamp c).

(** Reference definition: the row replaces the stored version if it is newer. *)
Definition merge_row (r : Row) (m : rows_map) : rows_map :=
  match m !! (Kind r, Key r) with
  | Some c => if decide (stamp_le (row_stamp r) (cols_stamp c)) then m
              else <[(Kind r, Key r) := cols_of r]> m
  | None => <[(Kind r, Key r) := cols_of r]> m
  end.

#[export] Instance rows_le_preorder : PreOrder rows_le.
Proof.
  split.
  - intros m kk c H. by exists c.
  - intros m1 m2 m3 H12 H23 kk c1 H1.
    destruct (H12 _ _ H1) as (c2 & H2 & ?). destruct (H23 _ _ H2) as (c3 & ? & ?).
    exists c3. split; [done|]. by etrans.
Qed.

Lemma merge_row_le (r : Row) (m : rows_map) : rows_le m (merge_row r m).
Proof.
  intros kk c Hc. unfold merge_row.
  destruct (m !! (Kind r, Key r)) as [c'|] eqn:Hr; [case_decide as Hd; [by exists c|]|].
  - destruct (decide ((Kind r, Key r) = kk)) as [<-|Hne];
      [rewrite lookup_insert_eq|rewrite lookup_insert_ne by done; by exists c].
    eexists; split; [done|]. rewrite cols_stamp_of. simplify_eq.
    by destruct (total stamp_le (row_stamp r) (cols_stamp c)).
  - rewrite lookup_insert_ne by congruence. by exists c.
Qed.

Lemma merge_row_has (r : Row) (m : rows_map) : rows_has r (merge_row r m).
Proof.
  unfold rows_has, merge_row.
  destruct (m !! (Kind r, Key r)) as [c'|] eqn:Hr; [case_decide; [eauto|]|];
    rewrite lookup_insert_eq; eexists; (split; [done|]); by rewrite cols_stamp_of.
Qed.

Lemma merge_row_least (r : Row) (m t : rows_map) :
  rows_le m t → rows_has r t → rows_le (merge_row r m) t.
Proof.
  intros Hm (c & Hc & Hle).
  assert (rows_le (<[(Kind r, Key r) := cols_of r]> m) t) as Hins.
  { intros kk c1. destruct (decide ((Kind r, Key r) = kk)) as [<-|Hne].
    - rewrite lookup_insert_eq. intros [= <-]. exists c. by rewrite cols_stamp_of.
    - rewrite lookup_insert_ne by done. apply Hm. }
  unfold merge_row. destruct (m !! (Kind r, Key r)); [by case_decide|done].
Qed.

Lemma rows_has_mono (r : Row) (m t : rows_map) : rows_has r m → rows_le m t → rows_has r t.
Proof.
  intros (c & Hc & Hle) Hmt. destruct (Hmt _ _ Hc) as (c' & ? & ?).
  exists c'. split; [done|]. by etrans.
Qed.

#[export] Instance rows_join : JoinState rows_map Row := {
  js_le := rows_le;
  js_preorder := rows_le_preorder;
  js_has := rows_has;
  js_put := merge_row;
  js_has_mono := rows_has_mono;
  js_put_le := merge_row_le;
  js_put_has := merge_row_has;
  js_put_least := merge_row_least
}.

Abbreviation merge_rows := (put_all (St := rows_map) (Up := Row)).

Lemma merge_rows_le (rs : list Row) (m : rows_map) : rows_le m (merge_rows rs m).
Proof. exact (put_all_le (JS := rows_join) rs m). Qed.
Lemma merge_rows_has (rs : list Row) (m : rows_map) (r : Row) :
  r ∈ rs → rows_has r (merge_rows rs m).
Proof. exact (put_all_has (JS := rows_join) rs m r). Qed.
Lemma merge_rows_least (rs : list Row) (m t : rows_map) :
  rows_le m t → (∀ r, r ∈ rs → rows_has r t) → rows_le (merge_rows rs m) t.
Proof. exact (put_all_least (JS := rows_join) rs m t). Qed.

(** ** Equivalent tables *)

(** Each below the other: the same stamp under every key.  The rest of a row can differ, since a
    stamp does not determine it. *)
Lemma equiv_stamps (m1 m2 : rows_map) :
  js_equiv m1 m2 → ∀ kk, cols_stamp <$> m1 !! kk = cols_stamp <$> m2 !! kk.
Proof.
  intros [Hle Hge] kk. destruct (m1 !! kk) as [c1|] eqn:E1.
  - destruct (Hle _ _ E1) as (c2 & E2 & H12). destruct (Hge _ _ E2) as (c1' & E1' & H21).
    rewrite E2. simplify_eq. simpl. f_equal. by apply (anti_symm stamp_le).
  - destruct (m2 !! kk) as [c2|] eqn:E2; [|done].
    destruct (Hge _ _ E2) as (c1' & ? & _). congruence.
Qed.

(** ** The watermarks table as a join state *)

Abbreviation wm_map := (gmap (string * string) HLC).
Abbreviation mark := ((string * string) * HLC)%type.

Definition wm_le (m1 m2 : wm_map) : Prop :=
  ∀ pk h1, m1 !! pk = Some h1 → ∃ h2, m2 !! pk = Some h2 ∧ h1 ⪯ h2.
Definition wm_has (u : mark) (m : wm_map) : Prop := ∃ h, m !! u.1 = Some h ∧ u.2 ⪯ h.
(** Reference definition: a watermark only moves forward. *)
Definition wm_put (u : mark) (m : wm_map) : wm_map :=
  match m !! u.1 with
  | Some h => if decide (u.2 ⪯ h) then m else <[u.1 := u.2]> m
  | None => <[u.1 := u.2]> m
  end.

#[export] Instance wm_le_preorder : PreOrder wm_le.
Proof.
  split.
  - intros m pk h H. by exists h.
  - intros m1 m2 m3 H12 H23 pk h1 H1.
    destruct (H12 _ _ H1) as (h2 & H2 & ?). destruct (H23 _ _ H2) as (h3 & ? & ?).
    exists h3. split; [done|]. by etrans.
Qed.

Lemma wm_has_mono u m t : wm_has u m → wm_le m t → wm_has u t.
Proof.
  intros (h & Hh & ?) Hmt. destruct (Hmt _ _ Hh) as (h' & ? & ?).
  exists h'. split; [done|]. by etrans.
Qed.

Lemma wm_put_lookup u m pk :
  wm_put u m !! pk =
    if decide (u.1 = pk) then
      Some (match m !! pk with Some h => hlc_max h u.2 | None => u.2 end)
    else m !! pk.
Proof.
  unfold wm_put, hlc_max. case_decide as Hpk; [subst pk|].
  - destruct (m !! u.1) as [h|] eqn:Hh; [|by rewrite lookup_insert_eq].
    destruct (After u.2 h) eqn:Ha.
    + apply After_spec, hlc_lt_not_le in Ha. by rewrite decide_False, lookup_insert_eq.
    + apply After_false in Ha. by rewrite decide_True.
  - destruct (m !! u.1) as [h|]; [case_decide; [done|]|]; by rewrite lookup_insert_ne.
Qed.

Lemma wm_put_le u m : wm_le m (wm_put u m).
Proof.
  intros pk h Hh. rewrite wm_put_lookup. case_decide; [|by exists h].
  rewrite Hh. eauto with takl.
Qed.

Lemma wm_put_has u m : wm_has u (wm_put u m).
Proof.
  unfold wm_has. rewrite wm_put_lookup, decide_True by done.
  destruct (m !! u.1); eexists; split; eauto with takl. done.
Qed.

Lemma wm_put_least u m t : wm_le m t → wm_has u t → wm_le (wm_put u m) t.
Proof.
  intros Hm (h & Hh & Hle) pk h1. rewrite wm_put_lookup. case_decide; [subst pk|apply Hm].
  intros [= <-]. exists h. split; [done|].
  destruct (m !! u.1) as [h0|] eqn:H0; [|done].
  destruct (Hm _ _ H0) as (h' & ? & ?). simplify_eq. auto with takl.
Qed.

#[export] Instance wm_join : JoinState wm_map mark := {
  js_le := wm_le;
  js_preorder := wm_le_preorder;
  js_has := wm_has;
  js_put := wm_put;
  js_has_mono := wm_has_mono;
  js_put_le := wm_put_le;
  js_put_has := wm_put_has;
  js_put_least := wm_put_least
}.

Lemma wm_equiv_eq (m1 m2 : wm_map) : js_equiv m1 m2 → m1 = m2.
Proof.
  intros [Hle Hge]. apply map_eq. intros pk. destruct (m1 !! pk) as [h1|] eqn:E1.
  - destruct (Hle _ _ E1) as (h2 & E2 & ?). destruct (Hge _ _ E2) as (h1' & ? & ?).
    simplify_eq. rewrite E2. f_equal. by apply (anti_symm hlc_le).
  - destruct (m2 !! pk) as [h2|] eqn:E2; [|done].
    destruct (Hge _ _ E2) as (h1' & ? & _). congruence.
Qed.
