(* ===== verification/StoreSpec.v ===== *)
(** * What the store's operations do: functional specifications and refinement

    For each method of store.go the effect on the tables as a pure function or a characterised
    result, proved of the monadic translation in every environment: a successful call has that
    effect, a failed one returns a driver error and leaves the tables as they were. *)

From S2P Require Import Prelude Hlc Model Metrics World Store Lattice Lww.
Local Open Scope Z_scope.

Lemma set_rows_id (t : tables) : set_rows (t_rows t) t = t.
Proof. by destruct t. Qed.
Lemma set_watermarks_id (t : tables) : set_watermarks (t_watermarks t) t = t.
Proof. by destruct t. Qed.

(** The outcome every mutating method promises: [f] on success, nothing on failure. *)
Definition atomic_update `{Env} (f : tables → tables) (w : world)
    (r : result unit) (w' : world) : Prop :=
  match r with
  | Ok _ => ∃ n, w' = upd w (f (w_db w)) n
  | Err e => db_error e ∧ ∃ n, w' = upd w (w_db w) n
  | Panic => False
  end.

(** ** [ApplyRemote] *)

(** [maxByKind] after the row loop. *)
Definition batch_max (rows : list Row) (mk : gmap string HLC) : gmap string HLC :=
  foldl (λ mk r, <[Kind r := maxHLC (default zeroHLC (mk !! Kind r)) (RHLC r)]> mk) mk rows.

Definition batch_marks (peer : string) (rows : list Row) : list mark :=
  (λ kh : string * HLC, ((peer, kh.1), kh.2)) <$> map_to_list (batch_max rows ∅).

(** Reference semantics of [ApplyRemote]: merge every row, advance the watermarks. *)
Definition apply_remote_spec (peer : string) (rows : list Row) (t : tables) : tables :=
  mkTables (merge_rows rows (t_rows t)) (t_events t)
           (put_all (batch_marks peer rows) (t_watermarks t)).

Section Specs.
Context `{E : Env, J : Json}.

Lemma merge_row_new r (t : tables) :
  t_rows t !! (Kind r, Key r) = None → upsertRowSQL r t = set_rows (merge_row r (t_rows t)) t.
Proof. intros H. unfold upsertRowSQL, merge_row. by rewrite H. Qed.

Lemma merge_row_cur r c (t : tables) own pl :
  t_rows t !! (Kind r, Key r) = Some c → own = col_owner c →
  set_rows (merge_row r (t_rows t)) t =
  if negb (newer r (mkRow (Kind r) (Key r) own (cols_hlc c) false pl)) then t
  else upsertRowSQL r t.
Proof.
  intros H ->. unfold merge_row. rewrite H.
  destruct (newer r _) eqn:Hn; simpl.
  - apply newer_spec in Hn. by rewrite decide_False.
  - apply newer_false in Hn. rewrite decide_True by done. apply set_rows_id.
Qed.

Lemma wp_apply_rows rows mk Q w :
  (∀ n, Q (Ok (batch_max rows mk))
          (upd w (set_rows (merge_rows rows (t_rows (w_db w))) (w_db w)) n)) →
  (∀ e db n, db_error e → Q (Err e) (upd w db n)) →
  wp (apply_rows rows mk) Q w.
Proof.
  revert mk w. induction rows as [|r rows IH]; intros mk w Hok Herr.
  { simpl. apply wp_ret. specialize (Hok (w_n w)).
    unfold put_all in Hok. simpl in Hok. rewrite set_rows_id in Hok. by destruct w. }
  cbn [apply_rows]. wp_step. wp_step; [|by apply Herr]. rewrite put_all_cons in Hok.
  assert (∀ w', w' = upd w (set_rows (merge_row r (t_rows (w_db w))) (w_db w)) (w_n w') →
    wp (apply_rows rows (<[Kind r:=maxHLC (default zeroHLC (mk !! Kind r)) (RHLC r)]> mk)) Q w')
    as Hrest.
  { intros w' Hw'. apply IH; rewrite Hw'; [|done]. intros n'. apply Hok. }
  destruct (t_rows (w_db w) !! (Kind r, Key r)) as [c|] eqn:Hc.
  - pose proof (merge_row_cur r c (w_db w) (col_owner c) "" Hc eq_refl) as Hm.
    unfold cols_hlc in Hm. destruct (negb _).
    + apply Hrest. by rewrite Hm.
    + wp_step. wp_step; [|by apply Herr]. apply Hrest. by rewrite Hm.
  - wp_step. wp_step; [|by apply Herr]. apply Hrest.
    rewrite (merge_row_new r (w_db w) Hc). done.
Qed.

Lemma wp_advance_watermarks peer entries Q w :
  (∀ n, Q (Ok tt) (upd w (set_watermarks
     (put_all ((λ kh : string * HLC, ((peer, kh.1), kh.2)) <$> entries)
              (t_watermarks (w_db w))) (w_db w)) n)) →
  (∀ e db n, db_error e → Q (Err e) (upd w db n)) →
  wp (advance_watermarks peer entries) Q w.
Proof.
  revert w. induction entries as [|[k h] entries IH]; intros w Hok Herr.
  { simpl. apply wp_ret. specialize (Hok (w_n w)).
    unfold put_all in Hok. simpl in Hok. rewrite set_watermarks_id in Hok. by destruct w. }
  cbn [advance_watermarks]. wp_step. wp_step; [|by apply Herr].
  rewrite fmap_cons, put_all_cons in Hok. simpl in Hok.
  assert (∀ w', w' = upd w (set_watermarks (wm_put ((peer, k), h) (t_watermarks (w_db w))) (w_db w))
                        (w_n w') →
    wp (advance_watermarks peer entries) Q w') as Hrest.
  { intros w' Hw'. apply IH; rewrite Hw'; [|done]. intros n'. apply Hok. }
  unfold wm_put in Hrest. simpl in Hrest.
  destruct (t_watermarks (w_db w) !! (peer, k)) as [c|] eqn:Hc.
  - destruct (After h c) eqn:Ha; simpl.
    + apply After_spec, hlc_lt_not_le in Ha. rewrite decide_False in Hrest by done.
      wp_step. wp_step; [|by apply Herr]. by apply Hrest.
    + apply After_false in Ha. rewrite decide_True in Hrest by done.
      apply Hrest. by rewrite set_watermarks_id.
  - wp_step. wp_step; [|by apply Herr]. by apply Hrest.
Qed.

Lemma wp_ApplyRemote peer rows Q w :
  (∀ n, Q (Ok tt) (upd w (apply_remote_spec peer rows (w_db w)) n)) →
  (∀ e n, db_error e → Q (Err e) (upd w (w_db w) n)) →
  wp (ApplyRemote peer rows) Q w.
Proof.
  intros Hok Herr. unfold ApplyRemote. case_bool_decide as Hlen.
  { wp_step. destruct rows; [|done]. specialize (Hok (w_n w)).
    unfold apply_remote_spec, put_all in Hok. simpl in Hok. by destruct w as [[]]. }
  apply wp_with_tx; [done|]. intros n. wp_step. apply wp_apply_rows; simpl.
  2:{ intros e db n' He. exists db, n'. split; [done|]. intros n''. by apply Herr. }
  intros n1. wp_step. wp_step. wp_step. apply wp_advance_watermarks; simpl.
  2:{ intros e db n' He. exists db, n'. split; [done|]. intros n''. by apply Herr. }
  intros n2. wp_step. eexists _, _. split; [done|]. intros n3.
  replace (set_watermarks _ _) with (apply_remote_spec peer rows (w_db w)); [apply Hok|].
  unfold apply_remote_spec, set_watermarks, set_rows; simpl. f_equal.
  apply wm_equiv_eq, put_all_same_set. intros u. unfold batch_marks. by rewrite H.
Qed.

(** ** Single rows *)

Lemma scan_cols_of (r : Row) : scanRow ((Kind r, Key r), cols_of r) = r.
Proof. by destruct r as [??? [] []]. Qed.

Lemma wp_Put r Q w :
  (∀ n, Q (Ok tt) (upd w (upsertRowSQL r (w_db w)) n)) →
  (∀ e n, db_error e → Q (Err e) (upd w (w_db w) n)) →
  wp (Put r) Q w.
Proof. intros. by apply wp_exec. Qed.

Lemma wp_Get kind key Q w :
  (∀ n, Q (Ok (select_row kind key (w_db w))) (upd w (w_db w) n)) →
  (∀ e n, db_error e → Q (Err e) (upd w (w_db w) n)) →
  wp (Get kind key) Q w.
Proof. intros. by apply wp_query_row. Qed.

(** The tombstone [Delete] writes: the old payload under the new stamp. *)
Definition delete_row (kind key owner : string) (hlc : HLC) (t : tables) : Row :=
  mkRow kind key owner hlc true
    (match select_row kind key t with Some c => Payload c | None => ""%string end).

Lemma wp_Delete kind key owner hlc Q w :
  (∀ n, Q (Ok tt) (upd w (upsertRowSQL (delete_row kind key owner hlc (w_db w)) (w_db w)) n)) →
  (∀ e n, db_error e → Q (Err e) (upd w (w_db w) n)) →
  wp (Delete kind key owner hlc) Q w.
Proof.
  intros Hok Herr. unfold Delete. wp_step. apply wp_Get; [|exact Herr]. intros n.
  by apply wp_exec.
Qed.

Lemma wp_Apply r Q w :
  (∀ n, Q (Ok tt) (upd w (set_rows (merge_row r (t_rows (w_db w))) (w_db w)) n)) →
  (∀ e n, db_error e → Q (Err e) (upd w (w_db w) n)) →
  wp (Apply r) Q w.
Proof.
  intros Hok Herr. apply wp_with_tx; [done|]. intros n. wp_step. wp_step; [|eauto 10].
  unfold select_row. destruct (t_rows (w_db w) !! (Kind r, Key r)) as [c|] eqn:Hc; simpl.
  - assert (set_rows (merge_row r (t_rows (w_db w))) (w_db w) =
      if negb (newer r (scanRow ((Kind r, Key r), c))) then w_db w else upsertRowSQL r (w_db w)) as Hm.
    { rewrite (merge_row_cur r c (w_db w) (col_owner c) "" Hc eq_refl). done. }
    simpl in Hm. destruct (negb _).
    + wp_step. eexists _, _. split; [done|]. simpl. by rewrite Hm in Hok.
    + wp_step. wp_step; [|eauto 10]. wp_step. eexists _, _. split; [done|]. by rewrite Hm in Hok.
  - wp_step. wp_step; [|eauto 10]. wp_step. eexists _, _. split; [done|].
    by rewrite <-(merge_row_new r _ Hc) in Hok.
Qed.

(** ** Selections *)

Lemma elem_of_omap_rows (f : (string * string) * rowcols → option Row) (m : rows_map) r :
  r ∈ omap f (map_to_list m) ↔ ∃ kk c, m !! kk = Some c ∧ f (kk, c) = Some r.
Proof.
  rewrite list_elem_of_omap. split.
  - intros ([kk c] & Hin & Hf). apply elem_of_map_to_list in Hin. eauto.
  - intros (kk & c & Hin & Hf). exists (kk, c). by rewrite elem_of_map_to_list.
Qed.

Lemma scanRow_Kind kk c : Kind (scanRow (kk, c)) = kk.1.
Proof. by destruct kk. Qed.
Lemma scanRow_Key kk c : Key (scanRow (kk, c)) = kk.2.
Proof. by destruct kk. Qed.
Lemma scanRow_hlc kk c : RHLC (scanRow (kk, c)) = cols_hlc c.
Proof. by destruct kk. Qed.

(** A selection that scans the rows satisfying a predicate never repeats a key. *)
Lemma NoDup_omap_scan (p : (string * string) * rowcols → bool) (m : rows_map) :
  NoDup ((λ r, (Kind r, Key r)) <$> omap (λ kc, if p kc then Some (scanRow kc) else None)
                                        (map_to_list m)).
Proof.
  pose proof (NoDup_fst_map_to_list m) as Hnd.
  induction (map_to_list m) as [|[kk c] l IH]; [constructor|].
  rewrite fmap_cons in Hnd. apply NoDup_cons in Hnd as [Hkk Hnd]. specialize (IH Hnd).
  simpl. destruct (p (kk, c)); [|done]. destruct kk as [k0 k1]. rewrite fmap_cons.
  constructor; [|done]. simpl. intros Hin. destruct Hkk.
  apply list_elem_of_fmap in Hin as (r & Hr & Hin).
  apply list_elem_of_omap in Hin as ([kk' c'] & Hin & Hf).
  destruct (p (kk', c')); [|done]. apply list_elem_of_fmap.
  exists (kk', c'). split; [|done]. simplify_eq. by destruct kk'.
Qed.

Lemma sql_after_spec ts seq wm : sql_after ts seq wm = true ↔ wm ≺ mkHLC ts seq.
Proof. unfold sql_after, hlc_lt; simpl. zcases; split; intros; try done; try lia. Qed.

Lemma sql_before_spec ts seq h : sql_before ts seq h = true ↔ mkHLC ts seq ≺ h.
Proof. unfold sql_before, hlc_lt; simpl. zcases; split; intros; try done; try lia. Qed.

(** Membership in the rows [ChangesSince] selects. *)
Lemma elem_of_select_changes kind wm (t : tables) r :
  r ∈ select_changes kind wm t ↔
  Kind r = kind ∧ select_row kind (Key r) t = Some r ∧ wm ≺ RHLC r.
Proof.
  unfold select_changes, select_row. rewrite elem_of_omap_rows. split.
  - intros (kk & c & Hc & Hr). case_bool_decide as Hk; [|done]. simpl in *.
    destruct (sql_after _ _ _) eqn:Ha; [|done]. injection Hr as <-.
    apply sql_after_spec in Ha. destruct kk as [k0 k1]; simpl in *. subst.
    by rewrite Hc.
  - intros (Hk & Hr & Ha). destruct (t_rows t !! _) as [c|] eqn:Hc; [|done].
    simpl in Hr. injection Hr as Hr. exists (kind, Key r), c. split; [done|].
    rewrite bool_decide_true by done. simpl. rewrite <-Hr in Ha. simpl in Ha.
    apply sql_after_spec in Ha. rewrite Ha. f_equal. exact Hr.
Qed.

Lemma elem_of_select_live kind (t : tables) r :
  r ∈ select_live kind [] t ↔
  Kind r = kind ∧ select_row kind (Key r) t = Some r ∧ Tombstone r = false.
Proof.
  unfold select_live, select_row. rewrite elem_of_omap_rows. split.
  - intros (kk & c & Hc & Hr). case_bool_decide as Hk; [|done]. simpl in *.
    destruct (col_tombstone c =? 0) eqn:Ha; [|done]. simpl in Hr. injection Hr as <-.
    destruct kk as [k0 k1]; simpl in *. subst. rewrite Hc. simpl. by rewrite Ha.
  - intros (Hk & Hr & Ha). destruct (t_rows t !! _) as [c|] eqn:Hc; [|done].
    simpl in Hr. injection Hr as Hr. exists (kind, Key r), c. split; [done|].
    rewrite bool_decide_true by done. simpl. rewrite <-Hr in Ha. simpl in Ha.
    apply negb_false_iff in Ha. rewrite Ha in *. simpl. f_equal. exact Hr.
Qed.

#[export] Instance row_hlc_le_total : Total row_hlc_le.
Proof. intros a b. apply (total hlc_le). Qed.
#[export] Instance row_hlc_le_trans : Transitive row_hlc_le.
Proof. intros a b c. unfold row_hlc_le. by etrans. Qed.
#[export] Instance row_key_le_total : Total row_key_le.
Proof. intros a b. apply (total String.le). Qed.
#[export] Instance row_key_le_trans : Transitive row_key_le.
Proof. intros a b c. unfold row_key_le. by etrans. Qed.

(** What [ChangesSince] returns: the rows after the watermark, in HLC order. *)
Definition changes_result (kind : string) (wm : HLC) (t : tables) (l : list Row) : Prop :=
  l ≡ₚ select_changes kind wm t ∧ StronglySorted row_hlc_le l.

Lemma wp_ChangesSince kind wm Q w :
  (∀ l n, changes_result kind wm (w_db w) l → Q (Ok l) (upd w (w_db w) n)) →
  (∀ e n, db_error e → Q (Err e) (upd w (w_db w) n)) →
  wp (ChangesSince kind wm) Q w.
Proof.
  intros Hok Herr. unfold ChangesSince. wp_step. wp_step; [|by apply Herr]. wp_step.
  apply Hok. split; [|apply StronglySorted_merge_sort; apply _].
  unfold order_by. by rewrite merge_sort_Permutation.
Qed.

Lemma changes_result_elem kind wm (t : tables) l r :
  changes_result kind wm t l →
  r ∈ l ↔ Kind r = kind ∧ select_row kind (Key r) t = Some r ∧ wm ≺ RHLC r.
Proof. intros [Hp _]. by rewrite Hp, elem_of_select_changes. Qed.

(** The live rows of a kind in key order: what [List] enumerates. *)
Definition live_rows (kind : string) (t : tables) : list Row :=
  order_by row_key_le (select_live kind [] t).

Lemma live_rows_unique kind (t : tables) l :
  l ≡ₚ select_live kind [] t → order_by row_key_le l = live_rows kind t.
Proof.
  intros Hp. unfold live_rows, order_by.
  apply (StronglySorted_unique_strong row_key_le); try (apply StronglySorted_merge_sort; apply _).
  2:{ by rewrite !merge_sort_Permutation. }
  intros x y Hx Hy Hxy Hyx. rewrite merge_sort_Permutation in Hx, Hy.
  rewrite Hp in Hx. apply elem_of_select_live in Hx as (_ & Hx & _), Hy as (_ & Hy & _).
  assert (Key x = Key y) as Hk by by apply (anti_symm String.le).
  rewrite Hk in Hx. congruence.
Qed.

Lemma wp_List_nil {A} (fn : A → Row → A * bool) kind limit offset s Q w :
  (∀ n, Q (Ok (each_row fn s (window limit offset (live_rows kind (w_db w)))))
          (upd w (w_db w) n)) →
  (∀ e n, db_error e → Q (Err e) (upd w (w_db w) n)) →
  wp (List_ kind limit offset ∅ fn s) Q w.
Proof.
  intros Hok Herr. unfold List_. wp_step. wp_step.
  rewrite map_to_list_empty in H. apply Permutation_nil_r in H as ->.
  wp_step. cbn [check_filters]. wp_step. wp_step. wp_step; [|by apply Herr]. wp_step.
  rewrite (live_rows_unique kind (w_db w)); [apply Hok|done].
Qed.

(** ** Watermarks, tombstones *)

Lemma wp_Watermark peer kind Q w :
  (∀ n, Q (Ok (default zeroHLC (t_watermarks (w_db w) !! (peer, kind)))) (upd w (w_db w) n)) →
  (∀ e n, db_error e → Q (Err e) (upd w (w_db w) n)) →
  wp (Watermark peer kind) Q w.
Proof. intros Hok Herr. unfold Watermark. wp_step. wp_step; [wp_step|]; auto. Qed.

(** Reference semantics of [SetWatermark]. *)
Definition set_watermark_spec (peer kind : string) (h : HLC) (t : tables) : tables :=
  if After h (default zeroHLC (t_watermarks t !! (peer, kind)))
  then upsert_watermark peer kind h t else t.

Lemma wp_SetWatermark peer kind h Q w :
  (∀ n, Q (Ok tt) (upd w (set_watermark_spec peer kind h (w_db w)) n)) →
  (∀ e n, db_error e → Q (Err e) (upd w (w_db w) n)) →
  wp (SetWatermark peer kind h) Q w.
Proof.
  intros Hok Herr. unfold SetWatermark, set_watermark_spec in *. wp_step.
  apply wp_Watermark; [|exact Herr]. intros n.
  destruct (After h _) eqn:Ha; cbn [negb]; [|wp_step; apply Hok].
  by apply wp_exec.
Qed.

Lemma wp_GCTombstones h Q w :
  (∀ n, Q (Ok (Z.of_nat (size (t_rows (w_db w)) - size (gc_rows h (t_rows (w_db w))))))
          (upd w (set_rows (gc_rows h (t_rows (w_db w))) (w_db w)) n)) →
  (∀ e n, db_error e → Q (Err e) (upd w (w_db w) n)) →
  wp (GCTombstones h) Q w.
Proof. intros Hok Herr. unfold GCTombstones. wp_step; auto. Qed.

Lemma wp_DeleteByNode node h Q w :
  (∀ n, Q (Ok tt) (upd w (set_rows (bury h (node +:+ "/%") <$> t_rows (w_db w)) (w_db w)) n)) →
  (∀ e n, db_error e → Q (Err e) (upd w (w_db w) n)) →
  wp (DeleteByNode node h) Q w.
Proof. intros. by apply wp_exec. Qed.

Lemma wp_Checksum kind Q w :
  (∀ l n, l ≡ₚ select_live_keys kind (w_db w) → Q (Ok (hash_fold l)) (upd w (w_db w) n)) →
  (∀ e n, db_error e → Q (Err e) (upd w (w_db w) n)) →
  wp (Checksum kind) Q w.
Proof. intros Hok Herr. unfold Checksum. wp_step. wp_step; [wp_step|]; auto. Qed.

End Specs.
