(* ===== verification/StoreProps.v ===== *)
(** * Properties of the row operations of the store

    Theorems about [ApplyRemote], [Apply], [Put], [Get], [Delete], [List], [ChangesSince],
    [GCTombstones], [DeleteByNode] and [SetWatermark], from the specifications of StoreSpec. *)

From S2P Require Import Prelude Hlc Model Metrics World Store Lattice Lww StoreSpec.
Local Open Scope Z_scope.

Implicit Types (r : Row) (rs rows : list Row) (k kind key peer : string) (h : HLC) (c : rowcols)
  (kk pk : string * string).

(** ** Lemmas on merged tables and batch maxima *)

Lemma merge_row_absorb r (m : rows_map) : rows_has r m → merge_row r m = m.
Proof. intros (c & Hc & Hle). unfold merge_row. by rewrite Hc, decide_True. Qed.

Lemma merge_rows_absorb rs (m : rows_map) : (∀ r, r ∈ rs → rows_has r m) → merge_rows rs m = m.
Proof.
  induction rs as [|r rs IH]; intros Hrs; [done|].
  rewrite put_all_cons. simpl. rewrite merge_row_absorb by set_solver. apply IH. set_solver.
Qed.

Lemma merge_row_origin r (m : rows_map) kk c :
  merge_row r m !! kk = Some c → m !! kk = Some c ∨ (kk = (Kind r, Key r) ∧ c = cols_of r).
Proof.
  unfold merge_row. destruct (m !! (Kind r, Key r)) eqn:Hm; [case_decide; [auto|]|];
    (destruct (decide ((Kind r, Key r) = kk)) as [<-|];
      [rewrite lookup_insert_eq; intros [= <-]; auto|rewrite lookup_insert_ne by done; auto]).
Qed.

Lemma merge_rows_origin rs (m : rows_map) kk c :
  merge_rows rs m !! kk = Some c →
  m !! kk = Some c ∨ ∃ r, r ∈ rs ∧ kk = (Kind r, Key r) ∧ c = cols_of r.
Proof.
  revert m. induction rs as [|r rs IH]; intros m Hc; [auto|].
  rewrite put_all_cons in Hc. apply IH in Hc as [Hc|(r' & ? & ?)].
  - apply merge_row_origin in Hc as [?|[??]]; [auto|]. right. exists r. set_solver.
  - right. exists r'. split; [by apply list_elem_of_further|done].
Qed.

Lemma merge_rows_other rs (m : rows_map) kk :
  (∀ r, r ∈ rs → (Kind r, Key r) ≠ kk) → merge_rows rs m !! kk = m !! kk.
Proof.
  intros Hrs. destruct (merge_rows rs m !! kk) as [c|] eqn:Hc.
  - destruct (merge_rows_origin _ _ _ _ Hc) as [?|(r & Hr & -> & _)]; [done|]. by destruct (Hrs r Hr).
  - destruct (m !! kk) as [c|] eqn:Hm; [|done].
    destruct (merge_rows_le rs m kk c Hm) as (c' & Hc' & _). congruence.
Qed.

(** The tombstone column holds 0 or 1, so reading a row and storing it again changes nothing. *)
Definition flag_ok c : Prop := col_tombstone c = 0 ∨ col_tombstone c = 1.

Lemma flag_ok_of (r : Row) : flag_ok (cols_of r).
Proof. destruct r as [??? ? [] ?]; [by right|by left]. Qed.

Lemma cols_of_scan kk c : flag_ok c → cols_of (scanRow (kk, c)) = c.
Proof. destruct kk, c as [? ? ? tomb ?]. by intros [Ht|Ht]; simpl in Ht; subst. Qed.

Lemma batch_max_lookup rows mk k :
  batch_max rows mk !! k =
    match filter (λ r, Kind r = k) rows with
    | [] => mk !! k
    | rs => Some (foldl maxHLC (default zeroHLC (mk !! k)) (RHLC <$> rs))
    end.
Proof.
  revert mk. induction rows as [|r rows IH]; intros mk; [done|].
  unfold batch_max in *. simpl. rewrite IH, filter_cons.
  destruct (decide (Kind r = k)) as [<-|Hne].
  - rewrite lookup_insert_eq. simpl. by destruct (filter _ rows).
  - by rewrite lookup_insert_ne.
Qed.

Lemma foldl_max_ge hs h : h ⪯ foldl maxHLC h hs.
Proof.
  revert h. induction hs as [|x hs IH]; intros h; simpl; [done|].
  etrans; [apply (hlc_max_ub_l h x)|apply IH].
Qed.

Lemma foldl_max_ub hs h x : x ∈ hs → x ⪯ foldl maxHLC h hs.
Proof.
  revert h. induction hs as [|y hs IH]; intros h Hx; [by apply not_elem_of_nil in Hx|].
  apply elem_of_cons in Hx as [->|Hx]; simpl; [|by apply IH].
  etrans; [apply (hlc_max_ub_r h y)|apply foldl_max_ge].
Qed.

Lemma foldl_max_in hs h : foldl maxHLC h hs = h ∨ foldl maxHLC h hs ∈ hs.
Proof.
  revert h. induction hs as [|y hs IH]; intros h; [by left|]. simpl.
  destruct (IH (maxHLC h y)) as [->|?]; [|right; by apply list_elem_of_further].
  unfold maxHLC. destruct (After y h); [right; by left|by left].
Qed.

(** A join of watermarks touches only the marked entries. *)
Lemma put_marks_lookup (us : list mark) (m : wm_map) pk :
  NoDup us.*1 →
  put_all us m !! pk =
    match list_find (λ u, u.1 = pk) us with
    | Some (_, u) => Some (match m !! pk with Some h => hlc_max h u.2 | None => u.2 end)
    | None => m !! pk
    end.
Proof.
  revert m. induction us as [|u us IH]; intros m Hnd; [done|].
  rewrite fmap_cons in Hnd. apply NoDup_cons in Hnd as [Hu Hnd].
  rewrite put_all_cons, IH by done. cbn [list_find js_put wm_join].
  rewrite wm_put_lookup. destruct (decide (u.1 = pk)) as [<-|Hne].
  - destruct (list_find _ us) as [[i v]|] eqn:Hf; [|done].
    apply list_find_Some in Hf as (Hv & Heq & _). destruct Hu. rewrite <-Heq.
    apply list_elem_of_fmap_2, list_elem_of_lookup. eauto.
  - by destruct (list_find _ us) as [[]|].
Qed.

Lemma batch_marks_nodup peer rows : NoDup (batch_marks peer rows).*1.
Proof.
  unfold batch_marks. rewrite <-list_fmap_compose.
  change (NoDup ((λ k, (peer, k)) ∘ fst <$> map_to_list (batch_max rows ∅))).
  rewrite list_fmap_compose. apply NoDup_fmap_2; [by intros ?? [= ->]|].
  apply NoDup_fst_map_to_list.
Qed.

(** The watermark of (p, k) after a batch from [peer]. *)
Definition watermark_after (peer : string) (rows : list Row) (pk : string * string)
    (old : option HLC) : option HLC :=
  if bool_decide (pk.1 = peer) then
    match filter (λ r, Kind r = pk.2) rows with
    | [] => old
    | rs => let top := foldl maxHLC zeroHLC (RHLC <$> rs) in
            Some (match old with Some h => hlc_max h top | None => top end)
    end
  else old.

Lemma apply_remote_watermark peer rows (t : tables) pk :
  t_watermarks (apply_remote_spec peer rows t) !! pk =
  watermark_after peer rows pk (t_watermarks t !! pk).
Proof.
  simpl. rewrite put_marks_lookup by apply batch_marks_nodup.
  unfold watermark_after. pose proof (batch_max_lookup rows ∅ pk.2) as Hb.
  rewrite lookup_empty in Hb. simpl in Hb.
  destruct (list_find _ _) as [[i u]|] eqn:Hf.
  - apply list_find_Some in Hf as (Hu & <- & _).
    apply list_elem_of_lookup_2 in Hu. unfold batch_marks in Hu.
    apply list_elem_of_fmap in Hu as ([k' h] & -> & Hkh). simpl in *.
    rewrite bool_decide_true by done. apply elem_of_map_to_list in Hkh.
    rewrite Hkh in Hb. destruct (filter _ rows); by simplify_eq.
  - case_bool_decide as Hp; [|done]. destruct (filter _ rows) as [|r rs]; [done|].
    apply list_find_None in Hf. rewrite Forall_forall in Hf.
    destruct (Hf ((peer, pk.2), foldl maxHLC zeroHLC (RHLC <$> (r :: rs)))).
    + unfold batch_marks. apply list_elem_of_fmap.
      eexists (pk.2, _). split; [done|]. by apply elem_of_map_to_list.
    + destruct pk; simpl in *; by subst.
Qed.

(** What one replica owes a batch: nothing invented, nothing lost, every row accounted for. *)
Definition lww_outcome (rows : list Row) (m m' : rows_map) : Prop :=
  (∀ kk c, m' !! kk = Some c →
     m !! kk = Some c ∨ ∃ r, r ∈ rows ∧ kk = (Kind r, Key r) ∧ c = cols_of r) ∧
  rows_le m m' ∧ (∀ r, r ∈ rows → rows_has r m').

Lemma merge_rows_outcome rows (m : rows_map) : lww_outcome rows m (merge_rows rows m).
Proof.
  split_and!; [apply merge_rows_origin|apply merge_rows_le|intros r; apply merge_rows_has].
Qed.

Section Rows.
Context `{E : Env, J : Json}.

(** C3: [ApplyRemote] is atomic and implements last-writer-wins: it either fails with a driver
    error and leaves the database as it was, or succeeds and has merged the whole batch by
    (HLC, owner), keeping events, clock and metrics. *)
Theorem ApplyRemote_refines peer rows w :
  wp (ApplyRemote peer rows) (atomic_update (apply_remote_spec peer rows) w) w ∧
  lww_outcome rows (t_rows (w_db w)) (t_rows (apply_remote_spec peer rows (w_db w))).
Proof.
  split; [|apply merge_rows_outcome].
  apply wp_ApplyRemote; simpl; eauto.
Qed.

(** A repeated delivery of a batch has no effect: the second [ApplyRemote] leaves rows,
    events and watermarks exactly as the first left them, whatever the driver does. *)
Theorem ApplyRemote_idempotent peer rows w :
  wp (_ ← ApplyRemote peer rows; w1 ← get; _ ← ApplyRemote peer rows; mret (w_db w1))
     (returns (λ db1 w', w_db w' = db1)) w.
Proof.
  wp_step. apply wp_ApplyRemote; [|done]. intros n1. wp_step. wp_step. wp_step.
  apply wp_ApplyRemote; [|done]. intros n2. wp_step.
  unfold apply_remote_spec; simpl. f_equal.
  - apply merge_rows_absorb. intros r. apply merge_rows_has.
  - apply wm_equiv_eq, put_all_twice.
Qed.

(** [ApplyRemote] moves the watermark of (peer, kind) to the maximum of its old value and the
    HLCs of the batch's rows of that kind, moves no other watermark, and never moves one back. *)
Theorem ApplyRemote_watermark peer rows w pk :
  wp (ApplyRemote peer rows) (returns (λ _ w',
    t_watermarks (w_db w') !! pk = watermark_after peer rows pk (t_watermarks (w_db w) !! pk) ∧
    ∀ old, t_watermarks (w_db w) !! pk = Some old →
      ∃ new, t_watermarks (w_db w') !! pk = Some new ∧ old ⪯ new ∧
      (pk.1 = peer → ∀ r, r ∈ rows → Kind r = pk.2 → RHLC r ⪯ new))) w.
Proof.
  apply wp_ApplyRemote; [|done]. intros n. cbn [returns w_db upd].
  rewrite apply_remote_watermark.
  split; [done|]. intros old ->. unfold watermark_after.
  case_bool_decide as Hp; [|by exists old].
  destruct (filter _ rows) as [|r0 rs] eqn:Hf.
  - exists old. split_and!; [done|done|]. intros _ r Hr Hk.
    assert (r ∈ filter (λ r, Kind r = pk.2) rows) as Hin by by apply list_elem_of_filter.
    rewrite Hf in Hin. by apply not_elem_of_nil in Hin.
  - eexists. split_and!; [done|auto with takl|]. intros _ r Hr Hk.
    etrans; [|apply hlc_max_ub_r]. apply foldl_max_ub, list_elem_of_fmap_2.
    rewrite <-Hf. by apply list_elem_of_filter.
Qed.

(** A replica's history of deliveries: batches, each from some peer. *)
Fixpoint apply_batches (bs : list (string * list Row)) : M unit :=
  match bs with
  | [] => mret tt
  | (peer, rows) :: bs => _ ← ApplyRemote peer rows; apply_batches bs
  end.

Lemma wp_apply_batches bs w :
  wp (apply_batches bs) (λ res w', res = Ok tt →
    t_rows (w_db w') = merge_rows (concat bs.*2) (t_rows (w_db w))) w.
Proof.
  revert w. induction bs as [|[p rows] bs IH]; intros w; [by intros _|].
  cbn [apply_batches]. wp_step. apply wp_ApplyRemote; [|done]. intros n.
  eapply wp_mono; [apply IH|]. simpl. intros res w' Hr Heq. rewrite Hr by done.
  by rewrite put_all_app.
Qed.

End Rows.

(** The versions of a key a replica starts from or is delivered. *)
Definition version_of (m : rows_map) (rs : list Row) kk (c : rowcols) : Prop :=
  m !! kk = Some c ∨ ∃ r, r ∈ rs ∧ kk = (Kind r, Key r) ∧ c = cols_of r.

(** C4: Strong eventual consistency.  Two replicas, each under its own driver, start from equal rows
    and apply without error deliveries with the same set of rows, in any order, grouping and
    repetition and from any peers.  They end with the same keys and, under each, the same (HLC,
    owner) version; and with the same row, payload and tombstone included, under every key for
    which no two versions at hand (stored at the start or delivered) carry one stamp with
    different contents. *)
Theorem replicas_converge (E1 E2 : Env) (bs1 bs2 : list (string * list Row)) w1 w2 w1' w2' :
  t_rows (w_db w1) = t_rows (w_db w2) →
  (∀ r, r ∈ concat bs1.*2 ↔ r ∈ concat bs2.*2) →
  apply_batches (E := E1) bs1 w1 = (Ok tt, w1') →
  apply_batches (E := E2) bs2 w2 = (Ok tt, w2') →
  ∀ kk,
    cols_stamp <$> t_rows (w_db w1') !! kk = cols_stamp <$> t_rows (w_db w2') !! kk ∧
    ((∀ c1 c2, version_of (t_rows (w_db w1)) (concat bs1.*2) kk c1 →
               version_of (t_rows (w_db w1)) (concat bs1.*2) kk c2 →
               cols_stamp c1 = cols_stamp c2 → c1 = c2) →
     t_rows (w_db w1') !! kk = t_rows (w_db w2') !! kk).
Proof.
  intros Heq Hset H1 H2 kk.
  pose proof (wp_run _ _ _ _ _ (wp_apply_batches (E := E1) bs1 w1) H1 eq_refl) as ->.
  pose proof (wp_run _ _ _ _ _ (wp_apply_batches (E := E2) bs2 w2) H2 eq_refl) as ->.
  rewrite <-Heq. set (m := t_rows (w_db w1)).
  pose proof (equiv_stamps _ _ (put_all_same_set _ _ m Hset) kk) as Hst. split; [exact Hst|].
  intros Hone. destruct (merge_rows (concat bs1.*2) m !! kk) as [c1|] eqn:E1',
    (merge_rows (concat bs2.*2) m !! kk) as [c2|] eqn:E2'; try done.
  apply (inj Some) in Hst. f_equal. apply Hone; [by apply merge_rows_origin| |exact Hst].
  apply merge_rows_origin in E2' as [?|(r & Hr & Hk & Hc)]; [by left|right].
  exists r. split; [by apply Hset|done].
Qed.

Lemma replicas_converge_witness :
  let r1 := mkRow "runner" "a" "a/1" (mkHLC 5 0) false "x" in
  let r2 := mkRow "runner" "a" "b/1" (mkHLC 5 0) false "y" in
  let w := World empty_tables NewClock zero_metrics 0 in
  let w1 := (apply_batches (E := calm_env) [("p", [r1; r2])%string] w).2 in
  let w2 := (apply_batches (E := calm_env) [("q", [r2]); ("p", [r1; r1])]%string w).2 in
  t_rows (w_db w1) !! ("runner", "a")%string = t_rows (w_db w2) !! ("runner", "a")%string ∧
  t_rows (w_db w1) !! ("runner", "a")%string = Some (cols_of r2).
Proof.
  intros r1 r2 w w1 w2. split; [|vm_compute; reflexivity].
  apply (replicas_converge calm_env calm_env
           [("p", [r1; r2])%string] [("q", [r2]); ("p", [r1; r1])]%string w w).
  - reflexivity.
  - intros r. cbn [concat fmap list_fmap snd app]. rewrite !elem_of_cons, elem_of_nil. tauto.
  - vm_compute. reflexivity.
  - vm_compute. reflexivity.
  - assert (∀ c, version_of (t_rows (w_db w)) [r1; r2] ("runner", "a")%string c → c = cols_of r1 ∨ c = cols_of r2)
      as Hv.
    { intros c [Hc|(r & Hr & _ & ->)]; [discriminate Hc|].
      apply elem_of_cons in Hr as [->|Hr]; [by left|]. apply list_elem_of_singleton in Hr as ->. by right. }
    intros c1 c2 [->| ->]%Hv [->| ->]%Hv H; [done|discriminate H|discriminate H|done].
Defined.

(** ** Single rows *)

Lemma select_row_upsert_eq r (t : tables) : select_row (Kind r) (Key r) (upsertRowSQL r t) = Some r.
Proof. unfold select_row; simpl. rewrite lookup_insert_eq. simpl. f_equal. apply scan_cols_of. Qed.

Lemma select_row_upsert_ne r (t : tables) kind key :
  (kind, key) ≠ (Kind r, Key r) → select_row kind key (upsertRowSQL r t) = select_row kind key t.
Proof. intros. unfold select_row; simpl. by rewrite lookup_insert_ne. Qed.

(** The callback with which the API collects every row. *)
Definition collect (out : list Row) (r : Row) : list Row * bool := (out ++ [r], true).

Lemma each_row_collect out rs : each_row collect out rs = out ++ rs.
Proof.
  revert out. induction rs as [|r rs IH]; intros out; simpl; [by rewrite app_nil_r|].
  by rewrite IH, <-app_assoc.
Qed.

Section Single.
Context `{E : Env, J : Json}.

Lemma elem_of_live_rows kind (t : tables) r :
  r ∈ live_rows kind t ↔
  Kind r = kind ∧ select_row kind (Key r) t = Some r ∧ Tombstone r = false.
Proof.
  unfold live_rows, order_by. rewrite merge_sort_Permutation. apply elem_of_select_live.
Qed.

(** [Put] then [Get] returns exactly the row that was put, metadata, tombstone flag and
    payload included, whatever was stored before; every other key reads as before. *)
Theorem Put_Get r kind key w :
  wp (_ ← Put r; Get kind key)
     (returns (λ got w',
        got = if decide ((kind, key) = (Kind r, Key r)) then Some r
              else select_row kind key (w_db w))) w.
Proof.
  wp_step. apply wp_Put; [|done]. intros n. apply wp_Get; [|done]. intros n'.
  cbn [returns w_db upd]. case_decide as Hd.
  - injection Hd as -> ->. apply select_row_upsert_eq.
  - by apply select_row_upsert_ne.
Qed.

(** After [Delete] a key is out of every listing, its row stays as a tombstone with the
    payload it had, and [ChangesSince] carries the tombstone past any older watermark. *)
Theorem Delete_replicates kind key owner h wm w :
  wm ≺ h →
  wp (_ ← Delete kind key owner h; live ← List_ kind (-1) 0 ∅ collect [];
      out ← ChangesSince kind wm; mret (live, out))
     (returns (λ lo w',
        Forall (λ r, Key r ≠ key) lo.1 ∧
        delete_row kind key owner h (w_db w) ∈ lo.2)) w.
Proof.
  intros Hwm. wp_step. apply wp_Delete; [|done]. intros n. wp_step. apply wp_List_nil; [|done].
  intros n1. wp_step. apply wp_ChangesSince; [|done]. intros out n2 Hout. wp_step.
  cbn [returns fst snd w_db upd] in *.
  set (r := delete_row kind key owner h (w_db w)).
  split.
  - rewrite each_row_collect. cbn [window app]. apply Forall_forall. intros x Hx Hk.
    apply elem_of_live_rows in Hx as (_ & Hx & Ht). rewrite Hk in Hx.
    change (select_row (Kind r) (Key r) (upsertRowSQL r (w_db w)) = Some x) in Hx.
    rewrite select_row_upsert_eq in Hx. by injection Hx as <-.
  - rewrite (changes_result_elem _ _ _ _ _ Hout). split_and!; [done| |done].
    apply (select_row_upsert_eq r).
Qed.

(** [Apply] stores the row exactly when it is newer than the stored version, as one atomic
    step: the reference merge on success, no change on failure. *)
Theorem Apply_refines r w :
  wp (Apply r) (atomic_update (λ t, set_rows (merge_row r (t_rows t)) t) w) w.
Proof. apply wp_Apply; simpl; eauto. Qed.

(** The clauses of [List], read together: a negative offset is none, and an offset counts only
    with a positive limit or with -1. *)
Lemma window_spec {A} (limit offset : Z) (l : list A) :
  window limit offset l =
    if 0 <? limit then take (Z.to_nat limit) (drop (Z.to_nat offset) l)
    else if limit =? -1 then drop (Z.to_nat offset) l else l.
Proof.
  unfold window. rewrite !Z.gtb_ltb.
  destruct (Z.ltb_spec 0 limit), (Z.ltb_spec 0 offset), (Z.eqb_spec limit (-1)); simpl; try done;
    by replace (Z.to_nat offset) with 0%nat by lia.
Qed.

(** C37: [List] without filters visits exactly the live rows of the kind, in strictly increasing
    key order and therefore each key once, whatever order the database scans in; a positive
    limit cuts the first rows after the offset, limit -1 drops the offset only, and any other limit
    returns all. *)
Theorem List_live_rows kind limit offset w :
  wp (List_ kind limit offset ∅ collect [])
     (returns (λ out w', w_db w' = w_db w ∧
        out = if 0 <? limit then take (Z.to_nat limit) (drop (Z.to_nat offset) (live_rows kind (w_db w)))
              else if limit =? -1 then drop (Z.to_nat offset) (live_rows kind (w_db w))
              else live_rows kind (w_db w))) w ∧
  StronglySorted row_key_le (live_rows kind (w_db w)) ∧
  NoDup (Key <$> live_rows kind (w_db w)) ∧
  (∀ r, r ∈ live_rows kind (w_db w) ↔
     Kind r = kind ∧ select_row kind (Key r) (w_db w) = Some r ∧ Tombstone r = false).
Proof.
  split_and!.
  - apply wp_List_nil; [|done]. intros n. split; [done|].
    rewrite each_row_collect. apply window_spec.
  - apply StronglySorted_merge_sort; apply _.
  - unfold live_rows, order_by. rewrite merge_sort_Permutation.
    eapply (NoDup_fmap_1 (λ k, (kind, k))). rewrite <-list_fmap_compose.
    erewrite list_fmap_ext; [apply (NoDup_omap_scan
      (λ kc, bool_decide (kc.1.1 = kind) && (col_tombstone kc.2 =? 0)
             && forallb (filter_matches kc.2) []))|].
    intros i r Hr. apply list_elem_of_lookup_2, elem_of_select_live in Hr as (<- & _). done.
  - intros r. apply elem_of_live_rows.
Qed.

(** [ChangesSince] returns exactly the rows of the kind, tombstones included, whose HLC is
    after the watermark, each once, oldest first. *)
Theorem ChangesSince_exact kind wm w :
  wp (ChangesSince kind wm)
     (returns (λ l w', w_db w' = w_db w ∧
        NoDup l ∧ StronglySorted row_hlc_le l ∧
        ∀ r, r ∈ l ↔ Kind r = kind ∧ select_row kind (Key r) (w_db w) = Some r ∧
                     After (RHLC r) wm = true)) w.
Proof.
  apply wp_ChangesSince; [|done]. intros l n Hl. split; [done|].
  split_and!.
  - destruct Hl as [Hp _]. rewrite Hp. eapply NoDup_fmap_1. apply NoDup_omap_scan.
  - apply Hl.
  - intros r. rewrite (changes_result_elem _ _ _ _ _ Hl). by rewrite After_spec.
Qed.

(** [SetWatermark] never moves a watermark back: read afterwards it is the maximum of its old
    value and the argument. *)
Theorem SetWatermark_max peer kind h w :
  wp (_ ← SetWatermark peer kind h; Watermark peer kind)
     (returns (λ got w',
        got = hlc_max (default zeroHLC (t_watermarks (w_db w) !! (peer, kind))) h)) w.
Proof.
  wp_step. apply wp_SetWatermark; [|done]. intros n. apply wp_Watermark; [|done].
  intros n'. cbn [returns w_db upd]. unfold set_watermark_spec, hlc_max.
  destruct (After h _) eqn:Ha; [|done]. simpl. by rewrite lookup_insert_eq.
Qed.

End Single.
