(* ===== verification/Tombstones.v ===== *)
(** * Tombstones: [GCTombstones] and [DeleteByNode] of store.go

    What garbage collection removes and keeps; SQL [LIKE] on the pattern [DeleteByNode] builds,
    and which rows a departed node's id selects. *)

From Stdlib Require Import Ascii.
From S2P Require Import Prelude Hlc Model Metrics World Store Lattice Lww StoreSpec StoreProps.
Local Open Scope Z_scope.

Implicit Types (h : HLC) (c : rowcols) (kk : string * string) (node owner : string).

(** ** Garbage collection *)

Lemma gc_rows_lookup h (m : rows_map) kk :
  gc_rows h m !! kk =
    match m !! kk with
    | Some c => if gc_matches h c then None else Some c
    | None => None
    end.
Proof.
  unfold gc_rows. rewrite map_lookup_filter. destruct (m !! kk) as [c|]; simpl; [|done].
  destruct (gc_matches h c) eqn:Hg; [by rewrite option_guard_False|by rewrite option_guard_True].
Qed.

Lemma gc_matches_spec h c : gc_matches h c = true ↔ col_tombstone c = 1 ∧ cols_hlc c ≺ h.
Proof.
  unfold gc_matches, cols_hlc. rewrite andb_true_iff, Z.eqb_eq, sql_before_spec. done.
Qed.

Section Tombstones.
Context `{E : Env, J : Json}.

(** [GCTombstones] deletes exactly the tombstones older than the bound: every live row and
    every tombstone at or after it stays unchanged, and the count returned is the number of rows
    removed. *)
Theorem GCTombstones_exact h w :
  wp (GCTombstones h)
     (returns (λ n w',
        (∀ kk c, t_rows (w_db w) !! kk = Some c →
           t_rows (w_db w') !! kk =
             if decide (col_tombstone c = 1 ∧ cols_hlc c ≺ h) then None else Some c) ∧
        (∀ kk, t_rows (w_db w) !! kk = None → t_rows (w_db w') !! kk = None) ∧
        n + Z.of_nat (size (t_rows (w_db w'))) = Z.of_nat (size (t_rows (w_db w))))) w.
Proof.
  apply wp_GCTombstones; [|done]. intros n. cbn [returns w_db upd t_rows set_rows].
  split_and!.
  - intros kk c Hc. rewrite gc_rows_lookup, Hc. pose proof (gc_matches_spec h c) as Hg.
    case_decide; destruct (gc_matches h c); naive_solver.
  - intros kk Hn. by rewrite gc_rows_lookup, Hn.
  - assert (size (gc_rows h (t_rows (w_db w))) ≤ size (t_rows (w_db w)))%nat; [|lia].
    apply map_subseteq_size, map_filter_subseteq.
Qed.

End Tombstones.

(** ** SQL [LIKE] on a node id followed by "/%" *)

Fixpoint lower (s : string) : string :=
  match s with EmptyString => EmptyString | String c s' => String (ascii_lower c) (lower s') end.

(** No [%] and no [_]. *)
Definition no_wildcards (s : string) : bool :=
  all_chars (λ a, negb (Ascii.eqb a "%"%char) && negb (Ascii.eqb a "_"%char)) s.

Lemma like_percent (s : string) : sql_like "%" s = true.
Proof. induction s as [|c s IH]; [done|]. simpl in *. by rewrite IH. Qed.

Lemma ascii_lower_slash (d : Ascii.ascii) : ascii_lower d = "/"%char → d = "/"%char.
Proof. destruct d as [[] [] [] [] [] [] [] []]; vm_compute; congruence. Qed.

Lemma like_slash_percent (s : string) : sql_like "/%" s = true ↔ ∃ t, s = "/" +:+ t.
Proof.
  destruct s as [|d s]; [split; [done|by intros [? [=]]]|].
  change (sql_like "/%" (String d s))
    with (Ascii.eqb (ascii_lower "/"%char) (ascii_lower d) && sql_like "%" s).
  rewrite andb_true_iff, Ascii.eqb_eq, like_percent. split.
  - intros [Hd _]. symmetry in Hd. apply ascii_lower_slash in Hd as ->. by exists s.
  - by intros [t [= -> ->]].
Qed.

(** A pattern that starts with literal characters matches them up to ASCII case. *)
Lemma like_literal (p q s : string) :
  no_wildcards p = true →
  sql_like (p +:+ q) s = true ↔
  ∃ s1 s2, s = s1 +:+ s2 ∧ lower s1 = lower p ∧ sql_like q s2 = true.
Proof.
  revert s. induction p as [|c p IH]; intros s Hp.
  { simpl. split; [intros H; by exists ""%string, s|].
    intros (s1 & s2 & -> & Hl & H). destruct s1; [done|discriminate]. }
  unfold no_wildcards in Hp. simpl in Hp. apply andb_true_iff in Hp as [Hc Hp].
  apply andb_true_iff in Hc as [Hc1 Hc2]. apply negb_true_iff in Hc1, Hc2.
  simpl. rewrite Hc1, Hc2. destruct s as [|d s].
  { split; [done|]. intros (s1 & s2 & Hs & Hl & _). destruct s1; [discriminate Hl|discriminate Hs]. }
  rewrite andb_true_iff, Ascii.eqb_eq, (IH s Hp). split.
  - intros [Hd (s1 & s2 & -> & Hl & Hq)]. exists (String d s1), s2. simpl. by rewrite Hd, Hl.
  - intros (s1 & s2 & Hs & Hl & Hq). destruct s1 as [|d' s1]; [discriminate Hl|].
    injection Hs as -> ->. injection Hl as Hd Hl. split; [done|]. by exists s1, s2.
Qed.

(** The owners that the pattern [node/%] selects: an id that equals [node] up to ASCII case, a slash,
    and anything.  The rows a node publishes have the owner nodeID/epoch, so its own rows are among
    them; so are those of an id that differs in case only, and, for a node called "api", the label
    rows, whose owner is api/nodeID. *)
Definition selects_owner (node owner : string) : Prop :=
  ∃ id rest, owner = id +:+ "/" +:+ rest ∧ lower id = lower node.

Lemma like_owner node owner :
  no_wildcards node = true → sql_like (node +:+ "/%") owner = true ↔ selects_owner node owner.
Proof.
  intros Hn. rewrite like_literal by done. unfold selects_owner.
  setoid_rewrite like_slash_percent. naive_solver.
Qed.

Section ByNode.
Context `{E : Env, J : Json}.

(** C32: For a node id without LIKE wildcards, [DeleteByNode] turns into tombstones exactly the live
    rows whose owner consists of an id equal to the node id up to ASCII case, a slash, and anything:
    stamped with the given HLC, with owner and payload kept.  In particular every live row with the
    owner nodeID/epoch is buried, and a row whose owner does not start so is untouched, as is every
    tombstone. *)
Theorem DeleteByNode_exact node h w kk c :
  no_wildcards node = true → t_rows (w_db w) !! kk = Some c →
  wp (DeleteByNode node h)
     (returns (λ _ w',
        (selects_owner node (col_owner c) → col_tombstone c = 0 →
           t_rows (w_db w') !! kk =
             Some (mkCols (col_owner c) (TS h) (Seq h) 1 (col_payload c))) ∧
        ((∃ epoch, col_owner c = node +:+ "/" +:+ epoch) → selects_owner node (col_owner c)) ∧
        (¬ selects_owner node (col_owner c) ∨ col_tombstone c ≠ 0 →
           t_rows (w_db w') !! kk = Some c))) w.
Proof.
  intros Hn Hc. apply wp_DeleteByNode; [|done]. intros n.
  cbn [returns w_db upd t_rows set_rows]. rewrite lookup_fmap, Hc. simpl. unfold bury.
  pose proof (like_owner node (col_owner c) Hn) as Hl.
  assert ((∃ epoch, col_owner c = node +:+ "/" +:+ epoch) → selects_owner node (col_owner c)) as Hown.
  { intros [epoch He]. by exists node, epoch. }
  destruct (sql_like _ _), (Z.eqb_spec (col_tombstone c) 0); simpl; naive_solver.
Qed.

End ByNode.

Lemma DeleteByNode_exact_witness :
  let c := mkCols "node-1/e1" 5 0 0 "p" in
  let w := World (mkTables {[("runner", "n")%string := c]} ∅ ∅) NewClock zero_metrics 0 in
  wp (DeleteByNode (E := calm_env) "node-1" (mkHLC 9 2))
     (returns (E := calm_env) (λ _ w',
        (selects_owner "node-1" (col_owner c) → col_tombstone c = 0 →
           t_rows (w_db w') !! ("runner", "n")%string = Some (mkCols "node-1/e1" 9 2 1 "p")) ∧
        ((∃ epoch, col_owner c = "node-1" +:+ "/" +:+ epoch) → selects_owner "node-1" (col_owner c)) ∧
        (¬ selects_owner "node-1" (col_owner c) ∨ col_tombstone c ≠ 0 →
           t_rows (w_db w') !! ("runner", "n")%string = Some c))) w ∧
  selects_owner "node-1" (col_owner c).
Proof.
  intros c w. split; [|by exists "node-1"%string, "e1"%string].
  apply (DeleteByNode_exact (E := calm_env) "node-1" (mkHLC 9 2) w ("runner", "n")%string c).
  - vm_compute. reflexivity.
  - vm_compute. reflexivity.
Defined.

(** Node ids are used as LIKE patterns without escaping: when the node "web_1" leaves, the
    live rows of the different node "web-1" are tombstoned too, and when a node called "api"
    leaves, every label row written through the HTTP API (owner "api/<node>") is. *)
Theorem DeleteByNode_overreach :
  let other := mkCols "web-1/3f" 5 0 0 "r" in
  let label := mkCols "api/node-a" 6 0 0 "l" in
  let w := World (mkTables {[("runner", "web-1")%string := other; ("meta", "node-a")%string := label]}
                    ∅ ∅) NewClock zero_metrics 0 in
  t_rows (w_db (DeleteByNode (E := calm_env) "web_1" (mkHLC 9 0) w).2) !! ("runner", "web-1")%string
    = Some (mkCols "web-1/3f" 9 0 1 "r") ∧
  t_rows (w_db (DeleteByNode (E := calm_env) "api" (mkHLC 9 0) w).2) !! ("meta", "node-a")%string
    = Some (mkCols "api/node-a" 9 0 1 "l").
Proof. split; vm_compute; reflexivity. Qed.
