(* ===== verification/Checksum.v ===== *)
(** * Checksums: [Checksum] and [ChecksumEvents] of store.go

    The XOR of one 64-bit hash per live row.  It does not depend on the order in which the
    database returns the rows, it fits in a uint64, and a write changes it by XORing the old
    version's hash out and the new one's in. *)

From S2P Require Import Prelude Hlc Model Metrics World Store Lattice Lww StoreSpec.
Local Open Scope Z_scope.

Implicit Types (kind : string) (c : rowcols) (kk : string * string) (t : tables).

(** ** XOR of a list *)

Definition xor_sum (l : list Z) : Z := foldr Z.lxor 0 l.

#[export] Instance xor_sum_perm : Proper (Permutation ==> (=)) xor_sum.
Proof.
  unfold xor_sum. apply foldr_permutation_proper'; [apply _|apply _|..].
  - intros a b d. by rewrite Z.lxor_assoc.
  - intros a b. apply Z.lxor_comm.
Qed.

Lemma hash_fold_xor l : hash_fold l = xor_sum (row_hash <$> l).
Proof.
  unfold hash_fold, xor_sum.
  assert (∀ a, foldl (λ hash x, Z.lxor hash (row_hash x)) a l =
               Z.lxor a (foldr Z.lxor 0 (row_hash <$> l))) as Hgen.
  { induction l as [|x l IH]; intros a; simpl; [by rewrite Z.lxor_0_r|].
    by rewrite IH, Z.lxor_assoc. }
  by rewrite Hgen, Z.lxor_0_l.
Qed.

Lemma hash_fold_perm l1 l2 : l1 ≡ₚ l2 → hash_fold l1 = hash_fold l2.
Proof. intros H. rewrite !hash_fold_xor. by rewrite H. Qed.

Lemma lxor_u64 a b : in_u64 a → in_u64 b → in_u64 (Z.lxor a b).
Proof.
  unfold in_u64. intros Ha Hb.
  assert (0 <= Z.lxor a b) by (apply Z.lxor_nonneg; lia). split; [done|].
  destruct (Z.eq_dec (Z.lxor a b) 0) as [->|Hne]; [lia|].
  apply Z.log2_lt_pow2; [lia|].
  pose proof (Z.log2_lxor a b ltac:(lia) ltac:(lia)) as Hl.
  assert (∀ x, 0 <= x < 2 ^ 64 → Z.log2 x < 64) as Hx.
  { intros x Hx. destruct (Z.eq_dec x 0) as [->|]; [done|]. apply Z.log2_lt_pow2; lia. }
  pose proof (Hx a Ha). pose proof (Hx b Hb). lia.
Qed.

Lemma kHash_u64 (key : string) : in_u64 (kHash key).
Proof.
  unfold kHash. assert (in_u64 fnv_offset) as H by (unfold in_u64, fnv_offset; lia).
  revert H. generalize fnv_offset. induction key as [|a key IH]; intros z Hz; [done|].
  simpl. apply IH. apply wrap_u64_range.
Qed.

Lemma row_hash_u64 x : in_u64 (row_hash x).
Proof. destruct x as [[key ts] seq]. simpl. auto using lxor_u64, kHash_u64 with takl. Qed.

Lemma xor_sum_u64 l : Forall in_u64 l → in_u64 (xor_sum l).
Proof. induction 1; simpl; [unfold in_u64; lia|]. by apply lxor_u64. Qed.

(** ** The checksum of a table *)

Definition checksum_of kind t : Z := hash_fold (select_live_keys kind t).

(** What one stored version contributes to the checksum of [kind]. *)
Definition contribution kind kk c : Z :=
  if bool_decide (kk.1 = kind) && (col_tombstone c =? 0)
  then row_hash (kk.2, col_hlc_ts c, col_hlc_seq c) else 0.

Lemma checksum_of_contributions kind t :
  checksum_of kind t =
  xor_sum ((λ kc : (string * string) * rowcols, contribution kind kc.1 kc.2) <$> map_to_list (t_rows t)).
Proof.
  unfold checksum_of, select_live_keys, contribution. rewrite hash_fold_xor.
  induction (map_to_list (t_rows t)) as [|[kk c] l IH]; [done|]. simpl.
  destruct (bool_decide _ && _); simpl; [f_equal; exact IH|rewrite Z.lxor_0_l; exact IH].
Qed.

Lemma checksum_of_insert kind t kk c :
  checksum_of kind (set_rows (<[kk := c]> (t_rows t)) t) =
  Z.lxor (checksum_of kind t)
    (Z.lxor (match t_rows t !! kk with Some c0 => contribution kind kk c0 | None => 0 end)
            (contribution kind kk c)).
Proof.
  rewrite !checksum_of_contributions. cbn [t_rows set_rows].
  destruct (t_rows t !! kk) as [c0|] eqn:Hc.
  - rewrite <-(insert_delete_id (t_rows t) kk c0 Hc) at 2.
    rewrite <-(insert_delete_eq (t_rows t) kk c).
    rewrite !map_to_list_insert by apply lookup_delete_eq.
    rewrite !fmap_cons. simpl.
    rewrite (Z.lxor_comm (contribution kind kk c0)), Z.lxor_assoc.
    rewrite <-(Z.lxor_assoc (contribution kind kk c0) (contribution kind kk c0)).
    rewrite Z.lxor_nilpotent, Z.lxor_0_l. apply Z.lxor_comm.
  - rewrite map_to_list_insert by done. rewrite fmap_cons. simpl.
    rewrite Z.lxor_0_l. apply Z.lxor_comm.
Qed.

Section Sums.
Context `{E : Env, J : Json}.

Lemma wp_Checksum_of kind Q w :
  (∀ n, Q (Ok (checksum_of kind (w_db w))) (upd w (w_db w) n)) →
  (∀ e n, db_error e → Q (Err e) (upd w (w_db w) n)) →
  wp (Checksum kind) Q w.
Proof.
  intros Hok Herr. apply wp_Checksum; [|done]. intros l n Hl.
  rewrite (hash_fold_perm _ _ Hl). apply Hok.
Qed.

Definition checksum_events_of t : Z := hash_fold (select_event_keys t).

Lemma wp_ChecksumEvents Q w :
  (∀ n, Q (Ok (checksum_events_of (w_db w))) (upd w (w_db w) n)) →
  (∀ e n, db_error e → Q (Err e) (upd w (w_db w) n)) →
  wp ChecksumEvents Q w.
Proof.
  intros Hok Herr. unfold ChecksumEvents. wp_step. wp_step; [|by apply Herr]. wp_step.
  rewrite (hash_fold_perm _ _ H). apply Hok.
Qed.

(** [Checksum] is a function of the tables, whatever order the database scans in: a uint64 to
    which a write of one row contributes by XORing the replaced version's hash out and the new
    version's in (a tombstone contributes nothing). *)
Theorem Checksum_incremental kind r w :
  wp (old ← Checksum kind; _ ← Put r; new ← Checksum kind; mret (old, new))
     (returns (λ '(old, new) w',
        in_u64 old ∧ in_u64 new ∧
        new = Z.lxor old (Z.lxor
          (match t_rows (w_db w) !! (Kind r, Key r) with
           | Some c0 => contribution kind (Kind r, Key r) c0 | None => 0 end)
          (contribution kind (Kind r, Key r) (cols_of r))))) w.
Proof.
  wp_step. apply wp_Checksum_of; [|done]. intros n. wp_step. apply wp_Put; [|done]. intros n1.
  wp_step. apply wp_Checksum_of; [|done]. intros n2. wp_step.
  cbn [returns w_db upd].
  assert (∀ t, in_u64 (checksum_of kind t)) as Hu.
  { intros t. unfold checksum_of. rewrite hash_fold_xor. apply xor_sum_u64.
    apply Forall_fmap, Forall_true. intros x. apply row_hash_u64. }
  split_and!; [apply Hu|apply Hu|]. apply checksum_of_insert.
Qed.

End Sums.

(** Equal checksums do not mean equal contents: two nodes whose rows a and b carry each
    other's timestamps have the same checksum for every kind, although both rows differ. *)
Theorem Checksum_collision :
  let row key ts := mkCols "n/1" ts 0 0 "p" in
  let t1 := set_rows {[("runner", "a")%string := row "a" 1; ("runner", "b")%string := row "b" 2]}
              empty_tables in
  let t2 := set_rows {[("runner", "a")%string := row "a" 2; ("runner", "b")%string := row "b" 1]}
              empty_tables in
  checksum_of KindRunner t1 = checksum_of KindRunner t2 ∧
  (∀ k, select_row KindRunner k t1 ≠ None → select_row KindRunner k t1 ≠ select_row KindRunner k t2).
Proof.
  intros row t1 t2. split; [vm_compute; reflexivity|].
  intros k Hk. destruct (decide (k = "a"%string)) as [->|Ha]; [by vm_compute|].
  destruct (decide (k = "b"%string)) as [->|Hb]; [by vm_compute|].
  destruct Hk. unfold select_row. cbn [t_rows t1 set_rows].
  rewrite lookup_insert_ne by congruence. by rewrite lookup_singleton_ne by congruence.
Qed.
