(* ===== verification/EventLog.v ===== *)
(** * The event log: [AppendEvent], [Events], [EventsSince], [ApplyEvents] of store.go

    Sequence numbers, the newest-events query with its in-place reversal, and replication of
    events as a grow-only map keyed by (runner_id, seq). *)

From S2P Require Import Prelude Hlc Model Metrics World Store Lattice Lww StoreSpec.
Local Open Scope Z_scope.

Implicit Types (t : tables) (runner : string) (e : Event).

(** The events table, and the entry an event becomes. *)
Abbreviation ev_map := (gmap (string * Z) evcols).
Abbreviation ev_up := ((string * Z) * evcols)%type.

(** ** The reversal loop *)

Lemma swap_lookup {A} (i j p : nat) (l : list A) :
  (i < j < length l)%nat →
  swap i j l !! p = if decide (p = j) then l !! i else if decide (p = i) then l !! j else l !! p.
Proof.
  intros [Hij Hj]. unfold swap.
  destruct (lookup_lt_is_Some_2 l i) as [x Hx]; [lia|].
  destruct (lookup_lt_is_Some_2 l j) as [y Hy]; [lia|]. rewrite Hx, Hy.
  case_decide as Hpj; [subst p; rewrite list_lookup_insert_eq; [done|rewrite length_insert; lia]|].
  rewrite list_lookup_insert_ne by done.
  case_decide as Hpi; [subst p; rewrite list_lookup_insert_eq; [done|lia]|].
  by rewrite list_lookup_insert_ne.
Qed.

Lemma swap_length {A} (i j : nat) (l : list A) : length (swap i j l) = length l.
Proof. unfold swap. destruct (l !! i), (l !! j); by rewrite ?length_insert. Qed.

(** After the loop the segment from [i] to [j] is mirrored and nothing else has moved. *)
Lemma reverse_loop_lookup {A} (fuel i j p : nat) (l : list A) :
  (j < length l)%nat → (j ≤ i + fuel)%nat →
  reverse_loop fuel i j l !! p =
    if decide (i ≤ p ≤ j)%nat then l !! (i + j - p)%nat else l !! p.
Proof.
  revert i j l. induction fuel as [|fuel IH]; intros i j l Hj Hf; cbn [reverse_loop].
  { case_decide; [|done]. f_equal. lia. }
  case_bool_decide as Hij.
  - rewrite IH by (rewrite ?swap_length; lia). rewrite !swap_lookup by lia.
    repeat case_decide; try lia; f_equal; lia.
  - case_decide; [|done]. f_equal. lia.
Qed.

Lemma reverse_in_place_reverse {A} (l : list A) : reverse_in_place l = reverse l.
Proof.
  destruct l as [|x l]; [done|]. set (xs := x :: l).
  assert (0 < length xs)%nat by (simpl; lia).
  apply list_eq. intros p. unfold reverse_in_place.
  rewrite reverse_loop_lookup by lia. destruct (decide (p < length xs)%nat).
  - rewrite decide_True by lia. rewrite reverse_lookup by done. f_equal. lia.
  - rewrite decide_False by lia. rewrite !lookup_ge_None_2; [done|..]; rewrite ?length_reverse; lia.
Qed.

(** ** Decoding a stored event *)

Definition scan_event `{Json} (x : (string * Z) * evcols) : option Event :=
  let c := x.2 in
  (λ pl, mkEvent x.1.2 (ev_type c) x.1.1 pl (mkHLC (ev_hlc_ts c) (ev_hlc_seq c))) <$>
  (if bool_decide (ev_payload c = ""%string) then Some None else unmarshal_payload (ev_payload c)).

Section Log.
Context `{E : Env, J : Json}.

Lemma wp_scan_events l Q w :
  match mapM scan_event l with Some out => Q (Ok out) w | None => Q (Err ErrJson) w end →
  wp (scan_events l) Q w.
Proof.
  revert Q. induction l as [|[[runner seq] c] l IH]; intros Q HQ; [apply HQ|].
  cbn [scan_events mapM] in *.
  change (scan_event (runner, seq, c)) with
    ((λ pl, mkEvent seq (ev_type c) runner pl (mkHLC (ev_hlc_ts c) (ev_hlc_seq c))) <$>
     (if bool_decide (ev_payload c = ""%string) then Some None
      else unmarshal_payload (ev_payload c))) in HQ.
  wp_step.
  assert (∀ pl, match (out ← mapM scan_event l; Some (mkEvent seq (ev_type c) runner pl
      (mkHLC (ev_hlc_ts c) (ev_hlc_seq c)) :: out)) with
    | Some out => Q (Ok out) w | None => Q (Err ErrJson) w end →
    wp (out ← scan_events l; mret (mkEvent seq (ev_type c) runner pl
          (mkHLC (ev_hlc_ts c) (ev_hlc_seq c)) :: out)) Q w) as Hrest.
  { intros pl Hpl. wp_step. apply IH. by destruct (mapM scan_event l). }
  revert HQ. case_bool_decide; intros HQ; [wp_step; by apply Hrest|].
  revert HQ. destruct (unmarshal_payload (ev_payload c)); intros HQ; wp_step; [|done].
  by apply Hrest.
Qed.

Lemma scan_event_hlc x e : scan_event x = Some e → e_HLC e = ev_hlc x.
Proof. unfold scan_event. destruct (if bool_decide _ then _ else _); [|done]. by intros [= <-]. Qed.

(** ** [Events] *)

Definition event_hlc_le (a b : Event) : Prop := hlc_le (e_HLC a) (e_HLC b).

(** [out] decodes the newest stored events, as many as the limit allows, oldest first. *)
Definition newest_events (limit : Z) t (out : list Event) : Prop :=
  ∃ sel rest, sel ++ rest ≡ₚ map_to_list (t_events t) ∧
    length sel = min (Z.to_nat limit) (size (t_events t)) ∧
    (∀ x y, x ∈ sel → y ∈ rest → ev_hlc y ⪯ ev_hlc x) ∧
    Forall2 (λ x e, scan_event x = Some e) sel out ∧
    StronglySorted event_hlc_le out.

Lemma Forall2_sorted (sel : list ((string * Z) * evcols)) out :
  Forall2 (λ x e, scan_event x = Some e) sel out → StronglySorted ev_hlc_le sel →
  StronglySorted event_hlc_le out.
Proof.
  induction 1 as [|x e sel out Hx H IH]; intros Hs; [constructor|].
  apply StronglySorted_cons in Hs as [Hall Hs]. constructor; [by apply IH|].
  clear Hs IH. induction H as [|y e' sel out Hy H IH]; [constructor|].
  apply Forall_cons in Hall as [Hxy Hall]. constructor; [|by apply IH].
  unfold event_hlc_le. by rewrite (scan_event_hlc _ _ Hx), (scan_event_hlc _ _ Hy).
Qed.

#[export] Instance ev_hlc_ge_total : Total (flip ev_hlc_le).
Proof. intros a b. apply (total hlc_le). Qed.
#[export] Instance ev_hlc_ge_trans : Transitive (flip ev_hlc_le).
Proof. intros a b c. unfold flip, ev_hlc_le. intros. by etrans. Qed.
#[export] Instance ev_hlc_le_total : Total ev_hlc_le.
Proof. intros a b. apply (total hlc_le). Qed.
#[export] Instance ev_hlc_le_trans : Transitive ev_hlc_le.
Proof. intros a b c. unfold ev_hlc_le. intros. by etrans. Qed.

Lemma StronglySorted_reverse {A} (R : relation A) (l : list A) :
  StronglySorted (flip R) l → StronglySorted R (reverse l).
Proof.
  induction 1 as [|x l Hs IH Hall]; [constructor|]. rewrite reverse_cons.
  apply StronglySorted_app_2; [|done|repeat constructor].
  intros a b Ha Hb. apply list_elem_of_singleton in Hb as ->.
  rewrite elem_of_reverse in Ha. rewrite Forall_forall in Hall. exact (Hall a Ha).
Qed.

Lemma newest_events_take limit t l out :
  l ≡ₚ map_to_list (t_events t) →
  mapM scan_event (take (Z.to_nat limit) (order_by (flip ev_hlc_le) l)) = Some out →
  newest_events limit t (reverse_in_place out).
Proof.
  intros Hl Hout. set (s := order_by (flip ev_hlc_le) l) in *.
  assert (s ≡ₚ map_to_list (t_events t)) as Hs.
  { unfold s, order_by. by rewrite merge_sort_Permutation. }
  assert (StronglySorted (flip ev_hlc_le) s) as Hss.
  { apply StronglySorted_merge_sort; apply _. }
  rewrite <-(take_drop (Z.to_nat limit) s) in Hss.
  apply StronglySorted_app in Hss as (Hcross & Htake & _).
  apply mapM_Some_1 in Hout. rewrite reverse_in_place_reverse.
  assert (Forall2 (λ x e, scan_event x = Some e) (reverse (take (Z.to_nat limit) s)) (reverse out)) as HF.
  { by apply Forall2_reverse. }
  exists (reverse (take (Z.to_nat limit) s)), (drop (Z.to_nat limit) s). split_and!.
  - rewrite reverse_Permutation, take_drop. done.
  - rewrite length_reverse, length_take, Hs. by rewrite length_map_to_list.
  - intros x y Hx Hy. rewrite elem_of_reverse in Hx. by apply Hcross.
  - done.
  - eapply Forall2_sorted; [exact HF|]. by apply StronglySorted_reverse.
Qed.

(** A stored event whose payload column does not decode. *)
Definition undecodable t : Prop :=
  ∃ x, t_events t !! x.1 = Some x.2 ∧ scan_event x = None.

(** The outcome of a read of the log: a result, a driver error, or a decoding error that some
    stored payload causes. *)
Definition reads {A} (P : A → world → Prop) t (r : result A) (w' : world) : Prop :=
  match r with
  | Ok a => P a w'
  | Err er => db_error er ∨ (er = ErrJson ∧ undecodable t)
  | Panic => False
  end.

Lemma undecodable_mapM t l :
  (∀ x, x ∈ l → t_events t !! x.1 = Some x.2) → mapM scan_event l = None → undecodable t.
Proof.
  intros Hl Hm. apply mapM_None_1, Exists_exists in Hm as (x & Hx & Hn). exists x. auto.
Qed.

Lemma elem_of_events t (x : (string * Z) * evcols) :
  x ∈ map_to_list (t_events t) ↔ t_events t !! x.1 = Some x.2.
Proof. destruct x. apply elem_of_map_to_list. Qed.

Lemma wp_Events limit Q w :
  (∀ out n, newest_events (if limit <=? 0 then 100 else limit) (w_db w) out →
     Q (Ok out) (upd w (w_db w) n)) →
  (∀ n, undecodable (w_db w) → Q (Err ErrJson) (upd w (w_db w) n)) →
  (∀ er n, db_error er → Q (Err er) (upd w (w_db w) n)) →
  wp (Events limit) Q w.
Proof.
  intros Hok Hjson Herr. unfold Events. wp_step. wp_step; [|by apply Herr]. wp_step.
  apply wp_scan_events. destruct (mapM _ _) as [out|] eqn:Hm.
  - wp_step. apply Hok. by eapply newest_events_take.
  - apply Hjson. eapply undecodable_mapM; [|exact Hm]. intros x Hx.
    apply (subseteq_take (Z.to_nat _)) in Hx. unfold order_by in Hx.
    rewrite merge_sort_Permutation, H in Hx. by apply elem_of_events.
Qed.

Lemma elem_of_select_events_since wm t x :
  x ∈ select_events_since wm t ↔ t_events t !! x.1 = Some x.2 ∧ wm ≺ ev_hlc x.
Proof.
  unfold select_events_since. rewrite list_elem_of_filter, sql_after_spec, elem_of_events.
  unfold ev_hlc. tauto.
Qed.

(** What [EventsSince] returns: the events after the watermark, decoded, in HLC order. *)
Definition events_result wm t (out : list Event) : Prop :=
  StronglySorted event_hlc_le out ∧
  (∀ e, e ∈ out ↔ ∃ x, t_events t !! x.1 = Some x.2 ∧ scan_event x = Some e ∧ wm ≺ e_HLC e) ∧
  (∀ x, t_events t !! x.1 = Some x.2 → wm ≺ ev_hlc x → is_Some (scan_event x)).

Lemma events_result_mapM wm t l out :
  (∀ x, x ∈ l ↔ t_events t !! x.1 = Some x.2 ∧ wm ≺ ev_hlc x) → StronglySorted ev_hlc_le l →
  mapM scan_event l = Some out → events_result wm t out.
Proof.
  intros Hsel Hs Hm. apply mapM_Some_1 in Hm. split_and!; [by eapply Forall2_sorted| |].
  2:{ intros x Hx Ha. assert (x ∈ l) as Hin by by apply Hsel.
      apply list_elem_of_lookup in Hin as [i Hi].
      destruct (Forall2_lookup_l _ _ _ _ _ Hm Hi) as (e & _ & He). eauto. }
  intros e. split.
  - intros He. apply list_elem_of_lookup in He as [i He].
    destruct (Forall2_lookup_r _ _ _ _ _ Hm He) as (x & Hx & Hse).
    apply list_elem_of_lookup_2, Hsel in Hx as [Hx Ha]. exists x.
    by rewrite (scan_event_hlc _ _ Hse).
  - intros (x & Hx & Hse & Ha). rewrite (scan_event_hlc _ _ Hse) in Ha.
    assert (x ∈ l) as Hin by by apply Hsel.
    apply list_elem_of_lookup in Hin as [i Hi].
    destruct (Forall2_lookup_l _ _ _ _ _ Hm Hi) as (e' & He' & Hse').
    rewrite Hse in Hse'. injection Hse' as ->. by apply list_elem_of_lookup_2 in He'.
Qed.

Lemma wp_EventsSince wm Q w :
  (∀ out n, events_result wm (w_db w) out → Q (Ok out) (upd w (w_db w) n)) →
  (∀ n, undecodable (w_db w) → Q (Err ErrJson) (upd w (w_db w) n)) →
  (∀ er n, db_error er → Q (Err er) (upd w (w_db w) n)) →
  wp (EventsSince wm) Q w.
Proof.
  intros Hok Hjson Herr. unfold EventsSince. wp_step. wp_step; [|by apply Herr].
  assert (∀ x, x ∈ order_by ev_hlc_le l ↔
    t_events (w_db w) !! x.1 = Some x.2 ∧ wm ≺ ev_hlc x) as Hsel.
  { intros x. unfold order_by. rewrite merge_sort_Permutation, H.
    apply elem_of_select_events_since. }
  apply wp_scan_events. destruct (mapM _ _) as [out|] eqn:Hm.
  - apply Hok. eapply events_result_mapM; [exact Hsel| |exact Hm].
    apply StronglySorted_merge_sort; apply _.
  - apply Hjson. eapply undecodable_mapM; [|exact Hm]. intros x Hx. by apply Hsel in Hx as [? _].
Qed.

(** [EventsSince] returns exactly the stored events after the watermark, in HLC order; it fails
    only through the driver or on a stored payload that does not decode. *)
Theorem EventsSince_exact wm w :
  wp (EventsSince wm)
     (reads (λ out w', w_db w' = w_db w ∧ StronglySorted event_hlc_le out ∧
        ∀ e, e ∈ out ↔ ∃ x, t_events (w_db w) !! x.1 = Some x.2 ∧ scan_event x = Some e ∧
                            After (e_HLC e) wm = true) (w_db w)) w.
Proof.
  apply wp_EventsSince; [|by right|by left]. intros out n (Hs & He & _).
  split_and!; [done|done|]. intros e. rewrite He. by setoid_rewrite After_spec.
Qed.

End Log.

(** ** Sequence numbers *)

Lemma foldl_Zmax_ge l x : x ≤ foldl Z.max x l ∧ Forall (λ y, y ≤ foldl Z.max x l) l.
Proof.
  revert x. induction l as [|y l IH]; intros x; simpl; [by split; [lia|]|].
  destruct (IH (x `max` y)) as [H1 H2]. split; [lia|]. constructor; [lia|done].
Qed.

Lemma foldl_Zmax_in l x : foldl Z.max x l = x ∨ foldl Z.max x l ∈ l.
Proof.
  revert x. induction l as [|y l IH]; intros x; simpl; [by left|].
  destruct (IH (x `max` y)) as [->|?]; [|right; by apply list_elem_of_further].
  destruct (Z.max_spec x y) as [[_ ->]|[_ ->]]; [right; by left|by left].
Qed.

Lemma coalesce_max_spec l :
  (l = [] ∧ coalesce_max l = 0) ∨ (coalesce_max l ∈ l ∧ Forall (λ y, y ≤ coalesce_max l) l).
Proof.
  destruct l as [|x l]; [by left|]. right. simpl. destruct (foldl_Zmax_ge l x) as [H1 H2]. split.
  - destruct (foldl_Zmax_in l x) as [->|?]; [by left|by right].
  - by constructor.
Qed.

Lemma elem_of_runner_seqs runner t s : s ∈ runner_seqs runner t ↔ is_Some (t_events t !! (runner, s)).
Proof.
  unfold runner_seqs. rewrite list_elem_of_omap. split.
  - intros ([[r s'] c] & Hin & Hs). simpl in Hs. case_bool_decide; [|done]. simplify_eq.
    apply elem_of_map_to_list in Hin. eauto.
  - intros [c Hc]. exists ((runner, s), c). rewrite elem_of_map_to_list. split; [done|].
    simpl. by rewrite bool_decide_true.
Qed.

(** The runner's events are numbered 1 to [n] without gaps. *)
Definition log_contiguous runner (n : Z) t : Prop :=
  ∀ s, is_Some (t_events t !! (runner, s)) ↔ 1 ≤ s ≤ n.

Lemma contiguous_max runner n t :
  0 ≤ n → log_contiguous runner n t → coalesce_max (runner_seqs runner t) = n.
Proof.
  intros Hn Hc. destruct (coalesce_max_spec (runner_seqs runner t)) as [[Hnil ->]|[Hin Hall]].
  - destruct (decide (n = 0)) as [|Hne]; [done|].
    assert (n ∈ runner_seqs runner t) as Hin by (apply elem_of_runner_seqs, Hc; lia).
    rewrite Hnil in Hin. by apply not_elem_of_nil in Hin.
  - apply elem_of_runner_seqs, Hc in Hin.
    assert (n ∈ runner_seqs runner t) as Hn' by (apply elem_of_runner_seqs, Hc; lia).
    rewrite Forall_forall in Hall. apply Hall in Hn'. lia.
Qed.

Section Append.
Context `{E : Env, J : Json}.

(** [AppendEvent] on a log that holds the runner's events 1 to [n]. *)
Lemma wp_AppendEvent_next e pl n (Q : result unit → world → Prop) w :
  marshal_payload (e_Payload e) = Some pl → 0 ≤ n < max_i64 →
  log_contiguous (e_RunnerID e) n (w_db w) →
  (∀ m, Q (Ok tt) (upd w (set_events (<[(e_RunnerID e, n + 1) := event_cols e pl]> (t_events (w_db w)))
                            (w_db w)) m)) →
  (∀ er m, db_error er → Q (Err er) (upd w (w_db w) m)) →
  wp (AppendEvent e) Q w.
Proof.
  intros Hpl Hn Hc Hok Herr. unfold AppendEvent. rewrite Hpl. apply wp_with_tx; [auto|]. intros n0.
  wp_step. wp_step; [|eauto 10]. simpl. rewrite (contiguous_max _ n) by (done || lia).
  rewrite wrap_i64_id by (unfold in_i64, min_i64, max_i64 in *; lia).
  assert (t_events (w_db w) !! (e_RunnerID e, n + 1) = None) as Hnone.
  { apply eq_None_not_Some. rewrite (Hc (n + 1)). lia. }
  wp_step. wp_step; [|eauto 10]. rewrite Hnone. wp_step. eexists _, _. split; [done|].
  intros m. apply Hok.
Qed.

(** C22: [AppendEvent] numbers a runner's events 1, 2, 3, ...: when the log holds 1..n it stores the
    event under n+1 and keeps every stored event, in one atomic step; a failure is a driver error
    and changes nothing. *)
Theorem AppendEvent_contiguous e pl n w :
  marshal_payload (e_Payload e) = Some pl → 0 ≤ n < max_i64 →
  log_contiguous (e_RunnerID e) n (w_db w) →
  wp (AppendEvent e) (λ res w',
    match res with
    | Ok _ => w_db w' = set_events (<[(e_RunnerID e, n + 1) := event_cols e pl]> (t_events (w_db w)))
                                   (w_db w) ∧
              log_contiguous (e_RunnerID e) (n + 1) (w_db w')
    | Err er => db_error er ∧ w_db w' = w_db w
    | Panic => False
    end) w.
Proof.
  intros Hpl Hn Hc. apply (wp_AppendEvent_next e pl n); [done..| |done]. intros m. cbn [w_db upd].
  split; [done|]. intros s. cbn [t_events set_events]. destruct (decide (s = n + 1)) as [->|Hne].
  - rewrite lookup_insert_eq. split; [lia|eauto].
  - rewrite lookup_insert_ne by congruence. rewrite (Hc s). lia.
Qed.

(** ** [ApplyEvents]: a grow-only map *)

Definition ev_le (m1 m2 : ev_map) : Prop := ∀ x, is_Some (m1 !! x) → is_Some (m2 !! x).
Definition ev_has (u : ev_up) (m : ev_map) : Prop := is_Some (m !! u.1).
(** Reference definition: an event is stored unless its number is taken. *)
Definition ev_put (u : ev_up) (m : ev_map) : ev_map :=
  match m !! u.1 with Some _ => m | None => <[u.1 := u.2]> m end.

#[export] Instance ev_le_preorder : PreOrder ev_le.
Proof. split; [by intros m x|]. intros m1 m2 m3 H1 H2 x Hx. by apply H2, H1. Qed.
Lemma ev_has_mono (u : ev_up) (m m' : ev_map) : ev_has u m → ev_le m m' → ev_has u m'.
Proof. intros Hu Hm. by apply Hm. Qed.
Lemma ev_put_lookup (u : ev_up) (m : ev_map) (x : string * Z) :
  ev_put u m !! x = if decide (u.1 = x) then Some (default u.2 (m !! x)) else m !! x.
Proof.
  unfold ev_put. case_decide as Hx; [subst x|].
  - destruct (m !! u.1) eqn:Hm; [done|]. by rewrite lookup_insert_eq.
  - destruct (m !! u.1); [done|]. by rewrite lookup_insert_ne.
Qed.
Lemma ev_put_le (u : ev_up) (m : ev_map) : ev_le m (ev_put u m).
Proof. intros x Hx. rewrite ev_put_lookup. case_decide; eauto. Qed.
Lemma ev_put_has (u : ev_up) (m : ev_map) : ev_has u (ev_put u m).
Proof. unfold ev_has. rewrite ev_put_lookup, decide_True by done. eauto. Qed.
Lemma ev_put_least (u : ev_up) (m m' : ev_map) : ev_le m m' → ev_has u m' → ev_le (ev_put u m) m'.
Proof. intros Hm Hu x. rewrite ev_put_lookup. case_decide; [by subst x|apply Hm]. Qed.

#[export] Instance ev_join : JoinState ev_map ev_up := {
  js_le := ev_le;
  js_preorder := ev_le_preorder;
  js_has := ev_has;
  js_put := ev_put;
  js_has_mono := ev_has_mono;
  js_put_le := ev_put_le;
  js_put_has := ev_put_has;
  js_put_least := ev_put_least
}.

(** The entry an event becomes, if its payload can be marshalled. *)
Definition event_entry (e : Event) : option ev_up :=
  (λ pl, ((e_RunnerID e, e_Seq e), event_cols e pl)) <$> marshal_payload (e_Payload e).

Lemma wp_apply_event_loop es Q w :
  (∀ us n, mapM event_entry es = Some us →
     Q (Ok tt) (upd w (set_events (put_all us (t_events (w_db w))) (w_db w)) n)) →
  (∀ db n, mapM event_entry es = None → Q (Err ErrJson) (upd w db n)) →
  (∀ er db n, db_error er → Q (Err er) (upd w db n)) →
  wp (apply_event_loop es) Q w.
Proof.
  revert w. induction es as [|e es IH]; intros w Hok Hjson Herr.
  { specialize (Hok [] (w_n w) eq_refl). cbn in Hok. apply wp_ret. by destruct w as [[]]. }
  cbn [apply_event_loop mapM] in *.
  assert (event_entry e = (λ pl, ((e_RunnerID e, e_Seq e), event_cols e pl)) <$>
            marshal_payload (e_Payload e)) as Hentry by done.
  rewrite Hentry in Hok, Hjson. clear Hentry.
  destruct (marshal_payload (e_Payload e)) as [pl|]; simpl in *.
  2:{ wp_step. specialize (Hjson (w_db w) (w_n w) eq_refl). by destruct w as [[]]. }
  wp_step. wp_step; [|by apply Herr].
  assert (insert_event e pl (w_db w) =
    set_events (ev_put ((e_RunnerID e, e_Seq e), event_cols e pl) (t_events (w_db w))) (w_db w)) as ->.
  { unfold insert_event, ev_put. simpl. destruct (t_events (w_db w) !! _) ; [|done]. by destruct (w_db w). }
  apply IH; simpl.
  - intros us n' Hus. rewrite Hus in Hok. apply (Hok _ _ eq_refl).
  - intros db n' Hus. rewrite Hus in Hjson. by apply Hjson.
  - done.
Qed.

Lemma wp_ApplyEvents es Q w :
  (∀ us n, mapM event_entry es = Some us →
     Q (Ok tt) (upd w (set_events (put_all us (t_events (w_db w))) (w_db w)) n)) →
  (∀ n, mapM event_entry es = None → Q (Err ErrJson) (upd w (w_db w) n)) →
  (∀ er n, db_error er → Q (Err er) (upd w (w_db w) n)) →
  wp (ApplyEvents es) Q w.
Proof.
  intros Hok Hjson Herr. unfold ApplyEvents. case_bool_decide as Hlen.
  { wp_step. destruct es; [|done]. specialize (Hok [] (w_n w) eq_refl). cbn in Hok.
    by destruct w as [[]]. }
  apply wp_with_tx; [done|]. intros n. wp_step. apply wp_driver; [|eauto 10].
  intros n0 n1. wp_step. apply wp_apply_event_loop; simpl.
  - intros us n2 Hus. wp_step. eexists _, _. split; [done|]. intros n3. by apply Hok.
  - intros db n2 Hus. eexists _, _. split; [done|]. intros n3. by apply Hjson.
  - intros er db n2 Her. eexists _, _. split; [done|]. intros n3. by apply Herr.
Qed.

Lemma put_events_keep (us : list ev_up) (m : ev_map) (x : string * Z) (c : evcols) : m !! x = Some c → put_all us m !! x = Some c.
Proof.
  revert m. induction us as [|u us IH]; intros m Hx; [done|]. rewrite put_all_cons. apply IH.
  simpl. rewrite ev_put_lookup, Hx. by case_decide.
Qed.

(** The log after a batch, at a free key: the first event of the batch with that key, if any. *)
Lemma put_entries_lookup (es : list Event) (us : list ev_up) (m : ev_map) (x : string * Z) :
  mapM event_entry es = Some us → m !! x = None →
  match list_find (λ e, (e_RunnerID e, e_Seq e) = x) es with
  | Some (_, e) => ∃ pl, marshal_payload (e_Payload e) = Some pl ∧ put_all us m !! x = Some (event_cols e pl)
  | None => put_all us m !! x = None
  end.
Proof.
  revert us m. induction es as [|e es IH]; intros us m Hus Hx.
  { injection Hus as <-. exact Hx. }
  cbn [mapM] in Hus. assert (event_entry e = (λ pl, ((e_RunnerID e, e_Seq e), event_cols e pl)) <$>
    marshal_payload (e_Payload e)) as Hentry by done.
  rewrite Hentry in Hus. clear Hentry. destruct (marshal_payload (e_Payload e)) as [pl|] eqn:Hpl; [|done].
  simpl in Hus. destruct (mapM event_entry es) as [us'|] eqn:Hes; [|done]. injection Hus as <-.
  rewrite put_all_cons. cbn [list_find]. destruct (decide ((e_RunnerID e, e_Seq e) = x)) as [Hk|Hk].
  - exists pl. split; [done|]. apply put_events_keep. simpl. rewrite ev_put_lookup. simpl.
    by rewrite decide_True, Hx by done.
  - specialize (IH us' (ev_put ((e_RunnerID e, e_Seq e), event_cols e pl) m) eq_refl).
    destruct (list_find _ es) as [[j e']|]; simpl in *; apply IH; rewrite ev_put_lookup; simpl;
      by rewrite decide_False.
Qed.

(** C21: [ApplyEvents] is atomic.  On success it never changes a stored event; under a (runner, seq)
    that was free it stores the first event of the batch with that number, with its type, its
    marshalled payload and its HLC, and nothing under any other number; rows, watermarks and clock
    stay, and a second delivery of the batch changes nothing.  A driver error, or a payload of the
    batch that cannot be marshalled, leaves the whole database as it was. *)
Theorem ApplyEvents_grow_only es w :
  wp (ApplyEvents es) (λ res w',
    match res with
    | Ok _ => (∀ x c, t_events (w_db w) !! x = Some c → t_events (w_db w') !! x = Some c) ∧
              (∀ x, t_events (w_db w) !! x = None →
                 match list_find (λ e, (e_RunnerID e, e_Seq e) = x) es with
                 | Some (_, e) => ∃ c, t_events (w_db w') !! x = Some c ∧ ev_type c = e_Type e ∧
                     marshal_payload (e_Payload e) = Some (ev_payload c) ∧
                     ev_hlc_ts c = TS (e_HLC e) ∧ ev_hlc_seq c = Seq (e_HLC e)
                 | None => t_events (w_db w') !! x = None
                 end) ∧
              t_rows (w_db w') = t_rows (w_db w) ∧ t_watermarks (w_db w') = t_watermarks (w_db w) ∧
              w_clock w' = w_clock w ∧
              wp (ApplyEvents es) (λ res2 w2, w_db w2 = w_db w') w'
    | Err er => (db_error er ∨ er = ErrJson ∧ Exists (λ e, marshal_payload (e_Payload e) = None) es) ∧
                w_db w' = w_db w
    | Panic => False
    end) w.
Proof.
  apply wp_ApplyEvents; cycle 1.
  { intros n Hn. split; [right|done]. split; [done|]. apply mapM_None_1 in Hn.
    eapply Exists_impl; [exact Hn|]. intros e. unfold event_entry. by destruct (marshal_payload _). }
  { by auto. }
  intros us n Hus.
  assert (∀ u, u ∈ us → ev_has u (put_all us (t_events (w_db w)))) as Hhas.
  { exact (put_all_has (JS := ev_join) us (t_events (w_db w))). }
  split_and!; [|..|]; try done.
  - intros x c Hx. by apply put_events_keep.
  - intros x Hx. pose proof (put_entries_lookup es us _ x Hus Hx) as Hl.
    destruct (list_find _ es) as [[j e]|]; [|exact Hl].
    destruct Hl as (pl & Hpl & Hl). eexists. split; [exact Hl|]. by split_and!.
  - apply wp_ApplyEvents; [|done|done]. intros us' n' Hus'. rewrite Hus in Hus'.
    injection Hus' as <-. cbn [w_db upd set_events t_events t_rows t_watermarks].
    enough (put_all us (put_all us (t_events (w_db w))) = put_all us (t_events (w_db w))) as ->;
      [done|].
    clear Hus. generalize (put_all us (t_events (w_db w))) Hhas. clear Hhas. intros m Hhas.
    induction us as [|u us IH]; [done|]. rewrite put_all_cons. simpl.
    assert (ev_put u m = m) as ->; [|apply IH; intros; apply Hhas; by right].
    destruct (Hhas u) as [c Hc]; [by left|]. unfold ev_put. by rewrite Hc.
Qed.

End Append.
