(* ===== verification/JsonCodec.v ===== *)
(** * A concrete codec with the laws of [Json]

    Values are numbered by stdpp's [Countable] and the number is written in binary: not the text
    encoding/json produces, but a pair of functions with the round-trip laws the development
    relies on.  The witnesses evaluate the model with it. *)

From Stdlib Require Import Ascii.
From S2P Require Import Prelude Hlc Model.

Fixpoint pos_bits (p : positive) : string :=
  match p with
  | xH => "1"
  | xO p => String "0"%char (pos_bits p)
  | xI p => String "1"%char (pos_bits p)
  end.

Fixpoint bits_pos (s : string) : option positive :=
  match s with
  | EmptyString => None
  | String a s' =>
      match bits_pos s' with
      | Some p => Some (if Ascii.eqb a "1"%char then xI p else xO p)
      | None => Some xH
      end
  end.

Lemma bits_pos_bits (p : positive) : bits_pos (pos_bits p) = Some p.
Proof. induction p as [p IH|p IH|]; simpl; [by rewrite IH..|done]. Qed.

Definition encode_text {A} `{Countable A} (a : A) : string := pos_bits (encode a).
Definition decode_text {A} `{Countable A} (s : string) : option A := bits_pos s ≫= decode.

Lemma decode_encode_text {A} `{Countable A} (a : A) : decode_text (encode_text a) = Some a.
Proof. unfold decode_text, encode_text. rewrite bits_pos_bits. simpl. apply decode_encode. Qed.

(** float64 as a tuple: a tag, the sign, mantissa and exponent. *)
Definition float_tuple (f : float64) : nat * bool * positive * Z :=
  match f with
  | S754_zero s => (0, s, 1%positive, 0%Z)
  | S754_infinity s => (1, s, 1%positive, 0%Z)
  | S754_nan => (2, false, 1%positive, 0%Z)
  | S754_finite s m e => (3, s, m, e)
  end.
Definition tuple_float (x : nat * bool * positive * Z) : option float64 :=
  match x with
  | (0, s, _, _) => Some (S754_zero s)
  | (1, s, _, _) => Some (S754_infinity s)
  | (2, _, _, _) => Some S754_nan
  | (_, s, m, e) => Some (S754_finite s m e)
  end.

#[export] Instance float64_countable : Countable spec_float.
Proof. refine (inj_countable float_tuple tuple_float _). by intros []. Defined.

Definition runner_tuple (r : Runner) :=
  ((r_RunnerID r, r_Hostname r, r_IP r, r_Region r, r_Version r, r_Status r),
   (r_LastHeartbeat r, r_CPUUtil r, r_MemUtil r, r_FreeDiskMB r, r_WorkerCapacity r,
    r_AvailableWorkers r), r_Labels r).

#[export] Instance Runner_countable : Countable Runner.
Proof.
  refine (inj_countable' runner_tuple
    (λ '((a, b, c, d, e, f), (g, h, i, j, k, l), m), mkRunner a b c d e f g h i j k l m) _).
  by intros [].
Defined.

Lemma codec_runner (r : Runner) :
  runner_json_ok r = true →
  ∃ s, (if runner_json_ok r then Some (encode_text (norm_runner r)) else None) = Some s ∧
       decode_text s = Some (norm_runner r).
Proof. intros ->. eexists. split; [done|]. apply decode_encode_text. Qed.

Lemma codec_labels (m : gmap string string) :
  labels_utf8 m = true → Some <$> decode_text (encode_text m) = Some (Some m).
Proof. intros _. by rewrite decode_encode_text. Qed.

Lemma codec_labels_dropped (s : string) (l : labels) :
  Some <$> decode_text s = Some l → Some (default ∅ (decode_text s)) = l.
Proof. destruct (decode_text s); simpl; by intros [= <-]. Qed.

Definition codec_unmarshal_payload (s : string) : option payload :=
  if decide (s = "null") then Some None
  else if decide (s = "{}") then Some (Some ∅) else None.

Lemma codec_payload (s : string) (pl : payload) :
  codec_unmarshal_payload s = Some pl → default None (codec_unmarshal_payload s) = pl.
Proof. by intros ->. Qed.

(** Payloads: nil and the empty object. *)
Definition codec : Json := {|
  marshal_runner r := if runner_json_ok r then Some (encode_text (norm_runner r)) else None;
  unmarshal_runner := decode_text;
  unmarshal_marshal_runner := codec_runner;
  marshal_labels := encode_text;
  unmarshal_labels s := Some <$> decode_text s;
  unmarshal_marshal_labels := codec_labels;
  unmarshal_labels_dropped s := Some (default ∅ (decode_text s));
  unmarshal_labels_dropped_ok := codec_labels_dropped;
  decode_labels s := Some <$> decode_text s;
  marshal_payload pl := match pl with None => Some "null" | Some _ => Some "{}" end;
  unmarshal_payload := codec_unmarshal_payload;
  marshal_payload_nil := eq_refl;
  unmarshal_payload_nil := eq_refl;
  unmarshal_payload_dropped s := default None (codec_unmarshal_payload s);
  unmarshal_payload_dropped_ok := codec_payload
|}.
