(* ===== verification/Transport.v ===== *)
(** * The sync RPC: internal/transport/server.go, client.go and the messages of takl.proto

    The messages as records (a pointer field is an option), the server's [Pull] handler on the
    store, and the request the client sends.  gRPC itself is a parameter of the sync engine. *)

From S2P Require Import Prelude Hlc Model Metrics World Store Lattice Lww StoreSpec Checksum EventLog.
Local Open Scope Z_scope.

Implicit Types (t : tables) (kind : string) (wm : HLC).

(** ** Messages *)

Record pbRow := mkPbRow {
  pr_Kind : string;
  pr_Key : string;
  pr_Owner : string;
  pr_Hlc : option HLC;
  pr_Tombstone : bool;
  pr_Payload : string
}.

Record pbEvent := mkPbEvent {
  pe_RunnerId : string;
  pe_Seq : Z;
  pe_Type : string;
  pe_Payload : string;
  pe_Hlc : option HLC
}.

Record PullRequest := mkPullRequest {
  rq_NodeId : string;
  rq_Watermarks : gmap string (option HLC);
  rq_Checksums : gmap string Z;
  rq_EventWatermark : option HLC;
  rq_EventChecksum : Z
}.

Record PullResponse := mkPullResponse {
  rs_NodeId : string;
  rs_Rows : list pbRow;
  rs_Checksums : gmap string Z;
  rs_Events : list pbEvent;
  rs_EventChecksum : Z
}.

(** The generated nil-safe getters [GetTs] and [GetSeq]. *)
Definition GetTs (h : option HLC) : Z := match h with Some h => TS h | None => 0 end.
Definition GetSeq (h : option HLC) : Z := match h with Some h => Seq h | None => 0 end.

(** ** Client *)

(** The request [Client.Pull] builds from the engine's watermarks and checksums. *)
Definition pull_request (watermarks : gmap string HLC) (checksums : gmap string Z)
    (eventWm : HLC) (eventChk : Z) : PullRequest :=
  mkPullRequest "" ((λ h, Some (mkHLC (TS h) (Seq h))) <$> watermarks) checksums
    (Some (mkHLC (TS eventWm) (Seq eventWm))) eventChk.

(** ** Server *)

Definition pb_of_row (r : Row) : pbRow :=
  mkPbRow (Kind r) (Key r) (Owner r) (Some (mkHLC (TS (RHLC r)) (Seq (RHLC r))))
    (Tombstone r) (Payload r).

Section Server.
Context `{E : Env, J : Json}.

(** [pl, _ := json.Marshal(e.Payload)]: nil bytes when it fails. *)
Definition pb_of_event (e : Event) : pbEvent :=
  mkPbEvent (e_RunnerID e) (e_Seq e) (e_Type e) (default ""%string (marshal_payload (e_Payload e)))
    (Some (mkHLC (TS (e_HLC e)) (Seq (e_HLC e)))).

(** One iteration of the loop over [store.Kinds]: the kind's checksum and its rows. *)
Definition pull_kind (req : PullRequest) (kind : string) : M (Z * list Row) :=
  let wm := match rq_Watermarks req !! kind with Some (Some h) => h | _ => zeroHLC end in
  chk ← Checksum kind;
  let reqChk := default 0 (rq_Checksums req !! kind) in
  rows ← ChangesSince kind wm;
  rows ← (if bool_decide (length rows = 0%nat) && negb (reqChk =? 0) && negb (reqChk =? chk) then
            _ ← on_metrics (inc_counter SyncChecksumMismatches);
            ChangesSince kind zeroHLC
          else mret rows);
  mret (chk, rows).

Fixpoint pull_kinds (req : PullRequest) (kinds : list string)
    (acc : gmap string Z * list pbRow) : M (gmap string Z * list pbRow) :=
  match kinds with
  | [] => mret acc
  | kind :: rest =>
      cr ← pull_kind req kind;
      pull_kinds req rest (<[kind := cr.1]> acc.1, acc.2 ++ (pb_of_row <$> cr.2))
  end.

Definition pull_events (req : PullRequest) : M (Z * list Event) :=
  let evWm := default zeroHLC (rq_EventWatermark req) in
  evChk ← ChecksumEvents;
  evs ← EventsSince evWm;
  evs ← (if bool_decide (length evs = 0%nat) && negb (rq_EventChecksum req =? 0)
            && negb (rq_EventChecksum req =? evChk) then
           _ ← on_metrics (inc_counter SyncEventChecksumMismatches);
           EventsSince zeroHLC
         else mret evs);
  mret (evChk, evs).

Definition Server_Pull (nodeID : string) (req : PullRequest) : M PullResponse :=
  rows ← pull_kinds req Kinds (∅, []);
  evs ← pull_events req;
  mret (mkPullResponse nodeID rows.2 rows.1 (pb_of_event <$> evs.2) evs.1).

End Server.

(** ** What a pull answers *)

(** The watermark the server really serves from: the requested one, or zero when nothing is newer
    and the requester's non-zero checksum differs. *)
Definition req_watermark (req : PullRequest) kind : HLC :=
  match rq_Watermarks req !! kind with Some (Some h) => h | _ => zeroHLC end.

Definition reconciles (req : PullRequest) t kind : bool :=
  let reqChk := default 0 (rq_Checksums req !! kind) in
  bool_decide (select_changes kind (req_watermark req kind) t = []) &&
  negb (reqChk =? 0) && negb (reqChk =? checksum_of kind t).

Definition served_after (req : PullRequest) t kind : HLC :=
  if reconciles req t kind then zeroHLC else req_watermark req kind.

Section Answers.
Context `{E : Env, J : Json}.

Definition reconciles_events (req : PullRequest) t : Prop :=
  (∀ e, e ∈ map_to_list (t_events t) → ev_hlc e ⪯ default zeroHLC (rq_EventWatermark req)) ∧
  rq_EventChecksum req ≠ 0 ∧ rq_EventChecksum req ≠ checksum_events_of t.

(** The answer of [Pull] on the tables [t]. *)
Record pull_answer (nodeID : string) (req : PullRequest) t (resp : PullResponse) : Prop := {
  pa_node : rs_NodeId resp = nodeID;
  pa_checksums : ∀ kind, rs_Checksums resp !! kind =
    if bool_decide (kind ∈ Kinds) then Some (checksum_of kind t) else None;
  pa_rows : ∃ rows, rs_Rows resp = pb_of_row <$> rows ∧
    ∀ r, r ∈ rows ↔ Kind r ∈ Kinds ∧ select_row (Kind r) (Key r) t = Some r ∧
                    served_after req t (Kind r) ≺ RHLC r;
  pa_events : ∃ evs evWm, rs_Events resp = pb_of_event <$> evs ∧ events_result evWm t evs ∧
    ((evWm = zeroHLC ∧ reconciles_events req t) ∨
     (evWm = default zeroHLC (rq_EventWatermark req) ∧ ¬ reconciles_events req t));
  pa_event_checksum : rs_EventChecksum resp = checksum_events_of t
}.

(** A world that differs from [w] at most in its metrics and its call counter. *)
Definition same_state (w w' : world) : Prop := w_db w' = w_db w ∧ w_clock w' = w_clock w.

Lemma changes_nil kind wm t l :
  changes_result kind wm t l → length l = 0%nat ↔ select_changes kind wm t = [].
Proof.
  intros [Hp _]. split.
  - intros Hl. apply Permutation_length in Hp. rewrite Hl in Hp. by apply nil_length_inv.
  - intros Hs. rewrite Hs in Hp. by rewrite Hp.
Qed.

Lemma wp_pull_kind req kind Q w w0 :
  same_state w0 w →
  (∀ rows w', same_state w0 w' → changes_result kind (served_after req (w_db w0) kind) (w_db w0) rows →
     Q (Ok (checksum_of kind (w_db w0), rows)) w') →
  (∀ e w', same_state w0 w' → db_error e → Q (Err e) w') →
  wp (pull_kind req kind) Q w.
Proof.
  intros [Hdb Hc] Hok Herr. rewrite <-Hdb in Hok. unfold pull_kind, served_after, reconciles in *.
  fold (req_watermark req kind).
  assert (∀ m n, same_state w0 (World (w_db w) (w_clock w) m n)) as Hsame by by split.
  wp_step. apply wp_Checksum_of; [|intros e n; apply Herr, Hsame].
  intros n. wp_step. apply wp_ChangesSince; [|intros e m; apply Herr, Hsame].
  cbn [w_db upd]. intros rows n1 Hrows. wp_step.
  rewrite (bool_decide_ext _ _ (changes_nil _ _ _ _ Hrows)).
  destruct (bool_decide (select_changes _ _ _ = []) && _ && _).
  - wp_step. wp_step. apply wp_ChangesSince; cbn [w_db upd].
    + intros rows' n2 Hrows'. wp_step. apply Hok; [apply Hsame|done].
    + intros e m. apply Herr, Hsame.
  - wp_step. wp_step. apply Hok; [apply Hsame|done].
Qed.

Lemma wp_pull_kinds req kinds acc Q w w0 :
  same_state w0 w →
  (∀ rows w', same_state w0 w' →
     (∀ r, r ∈ rows ↔ Kind r ∈ kinds ∧ select_row (Kind r) (Key r) (w_db w0) = Some r ∧
                      served_after req (w_db w0) (Kind r) ≺ RHLC r) →
     Q (Ok (foldl (λ m k, <[k := checksum_of k (w_db w0)]> m) acc.1 kinds,
            acc.2 ++ (pb_of_row <$> rows))) w') →
  (∀ e w', same_state w0 w' → db_error e → Q (Err e) w') →
  wp (pull_kinds req kinds acc) Q w.
Proof.
  revert acc w Q. induction kinds as [|k kinds IH]; intros acc w Q Hw Hok Herr.
  { cbn [pull_kinds]. wp_step. specialize (Hok [] w Hw). simpl in Hok.
    rewrite app_nil_r in Hok. destruct acc. apply Hok. set_solver. }
  cbn [pull_kinds]. wp_step. apply wp_pull_kind with w0; [done| |done].
  intros rows w1 Hw1 Hrows. apply IH; [done| |done]. cbn [fst snd].
  intros rows2 w2 Hw2 Hrows2. rewrite <-app_assoc, <-fmap_app. apply Hok; [done|].
  intros r. rewrite elem_of_app, (changes_result_elem _ _ _ _ _ Hrows), Hrows2, elem_of_cons.
  split; [intros [(<- & ? & ?)|(? & ? & ?)]; auto|].
  intros ([Hk|?] & Hs & Hlt); [|by auto]. left. rewrite <-Hk. auto.
Qed.

Lemma events_result_nil evWm t evs :
  events_result evWm t evs →
  length evs = 0%nat ↔ ∀ e, e ∈ map_to_list (t_events t) → ev_hlc e ⪯ evWm.
Proof.
  intros (_ & He & Hsc). split.
  - intros Hl x Hx. apply elem_of_events in Hx.
    destruct (hlc_le_lt_cases (ev_hlc x) evWm) as [?|Hlt]; [done|].
    destruct (Hsc x Hx Hlt) as [e Hse].
    apply nil_length_inv in Hl as ->. destruct (not_elem_of_nil e). apply He. exists x.
    by rewrite (scan_event_hlc _ _ Hse).
  - intros Hall. destruct evs as [|e evs]; [done|].
    assert (e ∈ e :: evs) as Hin by by left. apply He in Hin as (x & Hx & Hse & Hlt).
    rewrite (scan_event_hlc _ _ Hse) in Hlt. apply elem_of_events, Hall in Hx.
    by apply hlc_lt_not_le in Hlt.
Qed.

(** The events part of an answer. *)
Definition events_answer (req : PullRequest) t (evs : list Event) : Prop :=
  ∃ evWm, events_result evWm t evs ∧
    ((evWm = zeroHLC ∧ reconciles_events req t) ∨
     (evWm = default zeroHLC (rq_EventWatermark req) ∧ ¬ reconciles_events req t)).

Lemma wp_pull_events req Q w w0 :
  same_state w0 w →
  (∀ evs w', same_state w0 w' → events_answer req (w_db w0) evs →
     Q (Ok (checksum_events_of (w_db w0), evs)) w') →
  (∀ e w', same_state w0 w' → db_error e ∨ e = ErrJson ∧ undecodable (w_db w0) → Q (Err e) w') →
  wp (pull_events req) Q w.
Proof.
  intros [Hdb Hc] Hok Herr. rewrite <-Hdb in Hok, Herr. unfold pull_events.
  assert (∀ m n, same_state w0 (World (w_db w) (w_clock w) m n)) as Hsame by by split.
  wp_step. apply wp_ChecksumEvents; [|intros e n ?; apply Herr; [apply Hsame|by left]].
  intros n. wp_step.
  apply wp_EventsSince; [|intros m Hu; apply Herr; [apply Hsame|by right]
                         |intros e m ?; apply Herr; [apply Hsame|by left]].
  cbn [w_db upd]. intros evs n1 Hevs. wp_step.
  pose proof (events_result_nil _ _ _ Hevs) as Hnil.
  destruct (bool_decide _ && _ && _) eqn:Hrec.
  - apply andb_true_iff in Hrec as [Hrec Hr3]. apply andb_true_iff in Hrec as [Hr1 Hr2].
    apply bool_decide_eq_true in Hr1. apply negb_true_iff, Z.eqb_neq in Hr2, Hr3.
    assert (reconciles_events req (w_db w)) as Hr by (split_and!; [by apply Hnil|done|done]).
    wp_step. wp_step. apply wp_EventsSince; cbn [w_db upd].
    + intros evs' n2 Hevs'. wp_step. apply Hok; [apply Hsame|]. exists zeroHLC. auto.
    + intros m Hu; apply Herr; [apply Hsame|by right].
    + intros e m ?; apply Herr; [apply Hsame|by left].
  - wp_step. wp_step. apply Hok; [apply Hsame|]. eexists. split; [done|]. right. split; [done|].
    intros (H1 & H2 & H3). apply Hnil in H1. rewrite bool_decide_true in Hrec by done.
    apply Z.eqb_neq in H2, H3. by rewrite H2, H3 in Hrec.
Qed.

Lemma wp_Server_Pull nodeID req Q w :
  (∀ resp w', same_state w w' → pull_answer nodeID req (w_db w) resp → Q (Ok resp) w') →
  (∀ e w', same_state w w' → db_error e ∨ e = ErrJson ∧ undecodable (w_db w) → Q (Err e) w') →
  wp (Server_Pull nodeID req) Q w.
Proof.
  intros Hok Herr. unfold Server_Pull. wp_step.
  apply wp_pull_kinds with w; [done| |intros e w' ? ?; apply Herr; auto].
  intros rows w1 Hw1 Hrows. wp_step.
  apply wp_pull_events with w; [done| |done]. intros evs w2 Hw2 (evWm & Hevs).
  wp_step. apply Hok; [done|]. split; cbn [fst snd rs_NodeId rs_Rows rs_Checksums rs_Events rs_EventChecksum].
  - done.
  - intros kind. simpl. destruct (decide (kind = KindMeta)) as [->|Hm].
    { by rewrite lookup_insert_eq. }
    rewrite lookup_insert_ne by done. destruct (decide (kind = KindRunner)) as [->|Hr].
    { by rewrite lookup_insert_eq. }
    rewrite lookup_insert_ne by done. rewrite bool_decide_false; [done|]. set_solver.
  - by exists rows.
  - by exists evs, evWm.
  - done.
Qed.

(** C8: [Pull] is a read: it changes neither tables nor clock.  For every kind it returns exactly
    the rows after the requested watermark, or, when there are none and the requester's non-zero
    checksum differs from the server's, exactly the rows after the zero HLC; the events likewise;
    and the server's checksums.  It fails only through the driver or on a stored event payload
    that does not decode. *)
Theorem Pull_answers nodeID req w :
  wp (Server_Pull nodeID req)
     (reads (λ resp w', same_state w w' ∧ pull_answer nodeID req (w_db w) resp) (w_db w)) w.
Proof. apply wp_Server_Pull; by unfold reads. Qed.

End Answers.
