(* ===== verification/Client.v ===== *)
(** * The sync client's connections: internal/transport/client.go

    [Client] caches one gRPC connection per address.  gRPC is the outside: it numbers the connections
    it makes, remembers for which address and credentials, and which of them were closed; the state
    it reports for a connection and whether it can make one are inputs of each call. *)

From S2P Require Import Prelude Hlc Model Metrics World Store Lattice Lww StoreSpec Checksum EventLog Transport.
Local Open Scope Z_scope.

(** connectivity.State. *)
Inductive connectivity := Idle | Connecting | Ready | TransientFailure | Shutdown.
#[export] Instance connectivity_eq_dec : EqDecision connectivity.
Proof. solve_decision. Defined.

Section Client.
Context {Creds : Type}.

(** Connections made so far, by number: the address and the transport credentials, [None] for
    insecure.NewCredentials(); and those that were closed. *)
Record grpc := mkGrpc { g_made : list (string * option Creds); g_closed : gset nat }.

Record Client := mkClient {
  conns : gmap string nat;
  timeout : Z;
  creds : option Creds
}.

Definition NewClient (t : Z) (c : option Creds) : Client :=
  mkClient ∅ (if t <=? 0 then 5 * 1000000000 else t) c.

Definition close (cc : nat) (g : grpc) : grpc := mkGrpc (g_made g) ({[ cc ]} ∪ g_closed g).
(** [grpc.NewClient]: the error, or the number of the new connection. *)
Definition dial (addr : string) (c : option Creds) (err : option error) (g : grpc) : result nat * grpc :=
  match err with
  | Some e => (Err e, g)
  | None => (Ok (length (g_made g)), mkGrpc (g_made g ++ [(addr, c)]) (g_closed g))
  end.

(** [conn], with the state gRPC reports for a connection and the error of a dial. *)
Definition conn (GetState : nat → connectivity) (dialErr : option error) (addr : string)
    (c : Client) (g : grpc) : result nat * Client * grpc :=
  let fresh (c : Client) (g : grpc) :=
    let '(r, g) := dial addr (creds c) dialErr g in
    match r with
    | Ok cc => (Ok cc, mkClient (<[addr := cc]> (conns c)) (timeout c) (creds c), g)
    | Err e => (Err e, c, g)
    | Panic => (Panic, c, g)
    end in
  match conns c !! addr with
  | Some cc =>
      let state := GetState cc in
      if negb (bool_decide (state = Shutdown)) && negb (bool_decide (state = TransientFailure))
      then (Ok cc, c, g)
      else fresh (mkClient (delete addr (conns c)) (timeout c) (creds c)) (close cc g)
  | None => fresh c g
  end.

(** [Close]: the loop over the map in the order [l] of its entries. *)
Definition Close_entry (closeErr : nat → option error) (st : option error * Client * grpc)
    (e : string * nat) : option error * Client * grpc :=
  let '(first, c, g) := st in
  let '(addr, cc) := e in
  let first := match first, closeErr cc with None, Some err => Some err | _, _ => first end in
  (first, mkClient (delete addr (conns c)) (timeout c) (creds c), close cc g).
Definition Close (closeErr : nat → option error) (l : list (string * nat)) (c : Client) (g : grpc) :
    option error * Client * grpc :=
  foldl (Close_entry closeErr) (None, c, g) l.

(** [Pull]: the call over the connection; gRPC's answer on it is an input. *)
Definition Client_Pull (GetState : nat → connectivity) (dialErr : option error)
    (call : nat → PullRequest → result PullResponse) (addr : string) (watermarks : gmap string HLC)
    (checksums : gmap string Z) (eventWm : HLC) (eventChk : Z) (c : Client) (g : grpc) :
    result PullResponse * Client * grpc :=
  match conn GetState dialErr addr c g with
  | (Ok cc, c, g) => (call cc (pull_request watermarks checksums eventWm eventChk), c, g)
  | (Err e, c, g) => (Err e, c, g)
  | (Panic, c, g) => (Panic, c, g)
  end.

(** ** Runs *)

(** Each method runs under the client's mutex. *)
Inductive client_step : Client * grpc → Client * grpc → Prop :=
| cs_conn GetState dialErr addr c g r c' g' :
    conn GetState dialErr addr c g = (r, c', g') → client_step (c, g) (c', g')
| cs_close closeErr l c g r c' g' :
    l ≡ₚ map_to_list (conns c) → Close closeErr l c g = (r, c', g') →
    client_step (c, g) (c', g').

(** The cache and gRPC agree: a cached connection was made for its address with the client's
    credentials and is open, and every connection made is cached or closed. *)
Record cache_inv (c : Client) (g : grpc) : Prop := {
  ci_cached : ∀ addr cc, conns c !! addr = Some cc →
    g_made g !! cc = Some (addr, creds c) ∧ cc ∉ g_closed g;
  ci_all : ∀ cc addr cr, g_made g !! cc = Some (addr, cr) →
    cr = creds c ∧ (cc ∈ g_closed g ∨ conns c !! addr = Some cc);
  ci_closed : ∀ cc, cc ∈ g_closed g → is_Some (g_made g !! cc)
}.

Lemma drop_inv c g addr cc :
  cache_inv c g → conns c !! addr = Some cc →
  cache_inv (mkClient (delete addr (conns c)) (timeout c) (creds c)) (close cc g).
Proof.
  intros [H1 H2 H3] Hcc. split; cbn.
  - intros a x. rewrite lookup_delete_Some. intros [Hne Hx]. destruct (H1 a x Hx) as [Hm Hn].
    split; [done|]. intros [->%elem_of_singleton|?]%elem_of_union; [|done].
    destruct (H1 addr cc Hcc) as [Hm' _]. congruence.
  - intros x a cr Hm. destruct (H2 x a cr Hm) as [Hcr [?|Hx]]; (split; [done|]); [set_solver|].
    destruct (decide (a = addr)) as [->|Hne]; [left; simplify_eq; set_solver|].
    right. by rewrite lookup_delete_ne.
  - intros x [->%elem_of_singleton|?]%elem_of_union; [|by apply H3].
    destruct (H1 addr cc Hcc) as [-> _]. eauto.
Qed.

Lemma fresh_conn_inv c g addr :
  cache_inv c g → conns c !! addr = None →
  cache_inv (mkClient (<[addr := length (g_made g)]> (conns c)) (timeout c) (creds c))
            (mkGrpc (g_made g ++ [(addr, creds c)]) (g_closed g)).
Proof.
  intros [H1 H2 H3] Hn. split; cbn.
  - intros a x. rewrite lookup_insert_Some. intros [[<- <-]|[Hne Hx]].
    + rewrite lookup_app_r, Nat.sub_diag by lia. split; [done|]. intros Hc.
      destruct (H3 _ Hc) as [y Hy]. apply lookup_lt_Some in Hy. lia.
    + destruct (H1 a x Hx) as [Hm ?]. split; [|done]. rewrite lookup_app_l; [done|].
      by eapply lookup_lt_Some.
  - intros x a cr Hm. apply lookup_app_Some in Hm as [Hm|[Hle Hm]].
    + destruct (H2 x a cr Hm) as [? [?|Hx]]; (split; [done|]); [by left|right].
      rewrite lookup_insert_ne; [done|congruence].
    + apply list_lookup_singleton_Some in Hm as [Hx [= <- <-]]. split; [done|]. right.
      rewrite lookup_insert_eq. f_equal. lia.
  - intros x Hx. destruct (H3 x Hx) as [y Hy]. exists y. by apply lookup_app_l_Some.
Qed.

(** What [conn] returns, and that it keeps the invariant. *)
Lemma conn_inv GetState dialErr addr c g r c' g' :
  cache_inv c g → conn GetState dialErr addr c g = (r, c', g') →
  cache_inv c' g' ∧ creds c' = creds c ∧ timeout c' = timeout c ∧
  match r with
  | Ok cc => conns c' !! addr = Some cc ∧
      (length (g_made g) ≤ cc ∨ GetState cc ≠ Shutdown ∧ GetState cc ≠ TransientFailure)%nat
  | Err e => dialErr = Some e ∧ conns c' !! addr = None
  | Panic => False
  end.
Proof.
  intros Hinv. unfold conn.
  assert (∀ c0 g0, cache_inv c0 g0 → conns c0 !! addr = None → creds c0 = creds c → timeout c0 = timeout c →
    g_made g0 = g_made g →
    (let '(r, g) := dial addr (creds c0) dialErr g0 in
     match r with
     | Ok cc => (Ok cc, mkClient (<[addr := cc]> (conns c0)) (timeout c0) (creds c0), g)
     | Err e => (Err e, c0, g)
     | Panic => (Panic, c0, g)
     end) = (r, c', g') →
    cache_inv c' g' ∧ creds c' = creds c ∧ timeout c' = timeout c ∧
    match r with
    | Ok cc => conns c' !! addr = Some cc ∧
        (length (g_made g) ≤ cc ∨ GetState cc ≠ Shutdown ∧ GetState cc ≠ TransientFailure)%nat
    | Err e => dialErr = Some e ∧ conns c' !! addr = None
    | Panic => False
    end) as Hfresh.
  { intros c0 g0 Hi Hn Hc Ht Hg. unfold dial. destruct dialErr as [e|]; intros [= <- <- <-].
    - by split_and!.
    - cbn. rewrite lookup_insert_eq. split_and!; [by apply fresh_conn_inv|done|done|done|]. left. rewrite Hg. lia. }
  destruct (conns c !! addr) as [cc|] eqn:Hcc; [|by apply Hfresh].
  destruct (negb _ && negb _) eqn:Hs.
  - intros [= <- <- <-]. apply andb_true_iff in Hs as [Hs1 Hs2].
    apply negb_true_iff, bool_decide_eq_false in Hs1, Hs2. split_and!; [done..|]. by right.
  - apply Hfresh; [by apply drop_inv|cbn; by rewrite lookup_delete_eq|done..].
Qed.

Lemma conn_others GetState dialErr addr c g r c' g' :
  conn GetState dialErr addr c g = (r, c', g') → ∀ a, a ≠ addr → conns c' !! a = conns c !! a.
Proof.
  unfold conn, dial. intros H a Ha. destruct (conns c !! addr) as [cc|]; [destruct (negb _ && negb _)|];
    [by injection H as _ <- _|..]; destruct dialErr; injection H as _ <- _; cbn;
    by rewrite ?lookup_insert_ne, ?lookup_delete_ne by done.
Qed.

Lemma Close_loop_inv closeErr (l : list (string * nat)) c g (first : option error) :
  cache_inv c g → (∀ addr cc, (addr, cc) ∈ l → conns c !! addr = Some cc) → NoDup l.*1 →
  let '(r, c', g') := foldl (Close_entry closeErr) (first, c, g) l in
  cache_inv c' g' ∧ creds c' = creds c ∧ timeout c' = timeout c ∧ g_made g' = g_made g ∧
  (∀ addr, conns c' !! addr = if bool_decide (addr ∈ l.*1) then None else conns c !! addr) ∧
  r = match first with Some e => Some e | None => head (omap (λ e : string * nat, closeErr e.2) l) end.
Proof.
  revert c g first. induction l as [|[a x] l IH]; intros c g first Hinv Hl Hnd.
  { simpl. split_and!; [done..|by destruct first]. }
  rewrite fmap_cons in Hnd. apply NoDup_cons in Hnd as [Hna Hnd].
  assert (conns c !! a = Some x) as Ha by (apply Hl; by left).
  pose proof (drop_inv c g a x Hinv Ha) as Hinv'. cbn [foldl Close_entry].
  specialize (IH _ _ (match first, closeErr x with None, Some err => Some err | _, _ => first end) Hinv').
  destruct (foldl _ _ l) as [[r c'] g']. destruct IH as (H1 & H2 & Ht & H3 & H4 & H5).
  - intros b y Hb. cbn. rewrite lookup_delete_ne; [apply Hl; by right|]. intros ->.
    apply Hna. apply list_elem_of_fmap. by exists (b, y).
  - done.
  - split_and!; [done|done|done|done| |].
    + intros b. rewrite H4. cbn [conns]. destruct (decide (b = a)) as [->|Hne].
      * rewrite lookup_delete_eq, (bool_decide_true (a ∈ ((a, x) :: l).*1)) by (rewrite fmap_cons; by left).
        by destruct (bool_decide (a ∈ l.*1)).
      * rewrite lookup_delete_ne by done. rewrite (bool_decide_ext (b ∈ l.*1) (b ∈ ((a, x) :: l).*1)); [done|].
        rewrite fmap_cons, elem_of_cons. simpl. tauto.
    + rewrite H5. simpl. destruct first; [done|]. by destruct (closeErr x).
Qed.

Lemma Close_ok closeErr l c g r c' g' :
  cache_inv c g → l ≡ₚ map_to_list (conns c) → Close closeErr l c g = (r, c', g') →
  cache_inv c' g' ∧ creds c' = creds c ∧ timeout c' = timeout c ∧ g_made g' = g_made g ∧
  conns c' = ∅ ∧ r = head (omap (λ e : string * nat, closeErr e.2) l).
Proof.
  intros Hinv Hl Hcl. pose proof (Close_loop_inv closeErr l c g None Hinv) as H.
  unfold Close in Hcl. rewrite Hcl in H. destruct H as (H1 & H2 & Ht & H3 & H4 & H5).
  - intros addr cc Hin. apply elem_of_map_to_list. by rewrite <-Hl.
  - rewrite Hl. apply NoDup_fst_map_to_list.
  - split_and!; try done. apply map_empty. intros addr. rewrite H4. case_bool_decide as Hin; [done|].
    destruct (conns c !! addr) as [cc|] eqn:Hcc; [|done]. destruct Hin.
    apply list_elem_of_fmap. exists (addr, cc). split; [done|]. rewrite Hl. by apply elem_of_map_to_list.
Qed.

(** C18: The connection cache: over any sequence of [conn] and [Close], failed dials and broken
    connections included, every cached connection was made for its address with the client's
    credentials and is open, and every connection ever made is either cached or closed, so none
    leaks. *)
Theorem client_cache_sound (t : Z) (cr : option Creds) c g :
  rtc client_step (NewClient t cr, mkGrpc [] ∅) (c, g) → cache_inv c g ∧ creds c = cr ∧ 0 < timeout c.
Proof.
  intros Hrun. set (P := λ s : Client * grpc, cache_inv s.1 s.2 ∧ creds s.1 = cr ∧ 0 < timeout s.1).
  assert (∀ s s', client_step s s' → P s → P s') as Hstep.
  { intros s s' Hs (Hinv & Hc & Ht). destruct Hs as [GetState dialErr addr c0 g0 r c1 g1 Hconn
      |closeErr l c0 g0 r c1 g1 Hl Hcl]; unfold P in *; cbn [fst snd] in *.
    - destruct (conn_inv _ _ _ _ _ _ _ _ Hinv Hconn) as (? & ? & ? & _). split_and!; congruence.
    - destruct (Close_ok _ _ _ _ _ _ _ Hinv Hl Hcl) as (? & ? & ? & _). split_and!; congruence. }
  apply (rtc_ind_l (λ s, P s → P (c, g)) (c, g)) in Hrun; [exact Hrun|done|eauto|].
  split_and!; [|done|cbn; destruct (Z.leb_spec t 0); lia].
  split; cbn; [intros addr cc; by rewrite lookup_empty|done|set_solver].
Qed.

(** [Close] empties the cache, closes every connection that was open, whatever the order of the map
    and whichever closes fail, and returns the first error in that order, if any. *)
Theorem Close_closes_all closeErr l c g r c' g' :
  cache_inv c g → l ≡ₚ map_to_list (conns c) → Close closeErr l c g = (r, c', g') →
  conns c' = ∅ ∧ (∀ cc, is_Some (g_made g' !! cc) → cc ∈ g_closed g') ∧ g_made g' = g_made g ∧
  r = head (omap (λ e : string * nat, closeErr e.2) l).
Proof.
  intros Hinv Hl Hcl. destruct (Close_ok _ _ _ _ _ _ _ Hinv Hl Hcl) as (Hinv' & _ & _ & Hm & He & Hr).
  split_and!; [done| |done|done]. intros cc [[addr cr] Hcc].
  destruct (ci_all _ _ Hinv' cc addr cr Hcc) as [_ [?|Hx]]; [done|]. by rewrite He, lookup_empty in Hx.
Qed.

(** C35: A pull goes over one open connection that was made for the peer's address with the client's
    credentials and is not known to be broken, or fails with the dial's error; other addresses keep
    their connections. *)
Theorem Client_Pull_connection GetState dialErr call addr wms chks evWm evChk c g r c' g' :
  cache_inv c g →
  Client_Pull GetState dialErr call addr wms chks evWm evChk c g = (r, c', g') →
  cache_inv c' g' ∧ (∀ a, a ≠ addr → conns c' !! a = conns c !! a) ∧
  ((∃ e, r = Err e ∧ dialErr = Some e) ∨
   ∃ cc, r = call cc (pull_request wms chks evWm evChk) ∧ g_made g' !! cc = Some (addr, creds c) ∧
     cc ∉ g_closed g' ∧
     ((length (g_made g) ≤ cc)%nat ∨ GetState cc ∈ [Idle; Connecting; Ready])).
Proof.
  intros Hinv. unfold Client_Pull. destruct (conn GetState dialErr addr c g) as [[r0 c0] g0] eqn:Hc.
  destruct (conn_inv _ _ _ _ _ _ _ _ Hinv Hc) as (Hinv0 & Hcr & _ & Hr).
  pose proof (conn_others _ _ _ _ _ _ _ _ Hc) as Ho.
  destruct r0 as [cc|e|]; [| |done]; intros [= <- <- <-].
  - destruct Hr as [Hcc Hlive]. destruct (ci_cached _ _ Hinv0 addr cc Hcc) as [Hm Hn].
    rewrite Hcr in Hm. split_and!; [done|done|]. right. exists cc. split_and!; [done..|].
    destruct Hlive as [?|[? ?]]; [by left|right]. destruct (GetState cc); set_solver.
  - split_and!; [done|done|]. left. exists e. naive_solver.
Qed.

End Client.
Arguments grpc : clear implicits.
Arguments Client : clear implicits.

(** ** A client on concrete inputs *)

Definition ex_dial := @conn unit (λ _, Ready) None.
Definition ex_c0 : Client unit * grpc unit := (NewClient 0 None, mkGrpc [] ∅).
Definition ex_c1 : Client unit * grpc unit :=
  let '(_, c, g) := ex_dial "a:1" ex_c0.1 ex_c0.2 in (c, g).
(** The connection to [a:1] has broken: it is closed and replaced. *)
Definition ex_c2 : Client unit * grpc unit :=
  let '(_, c, g) := conn (λ _, TransientFailure) None "a:1" ex_c1.1 ex_c1.2 in (c, g).

Lemma ex_run : rtc client_step ex_c0 (ex_c2.1, ex_c2.2).
Proof.
  apply (rtc_l _ _ ex_c1); [by eapply (cs_conn (λ _, Ready) None "a:1")|].
  apply rtc_once. by eapply (cs_conn (λ _, TransientFailure) None "a:1").
Qed.

Lemma client_cache_sound_witness :
  (cache_inv ex_c2.1 ex_c2.2 ∧ creds ex_c2.1 = None ∧ 0 < timeout ex_c2.1) ∧
  conns ex_c2.1 !! "a:1"%string = Some 1%nat ∧ 0%nat ∈ g_closed ex_c2.2.
Proof.
  split; [exact (client_cache_sound 0 None ex_c2.1 ex_c2.2 ex_run)|].
  split; [vm_compute; reflexivity|apply (bool_decide_unpack _); vm_compute; exact I].
Defined.

Lemma ex_cache_inv : cache_inv ex_c0.1 ex_c0.2.
Proof. split; cbn; [intros addr cc; by rewrite lookup_empty|done|set_solver]. Qed.

Lemma ex_c1_inv : cache_inv ex_c1.1 ex_c1.2.
Proof. exact (proj1 (conn_inv (λ _, Ready) None "a:1" ex_c0.1 ex_c0.2 _ _ _ ex_cache_inv eq_refl)). Qed.

Lemma Close_closes_all_witness :
  conns (Close (λ _, Some ErrJson) [("a:1"%string, 0%nat)] ex_c1.1 ex_c1.2).1.2 = ∅ ∧
  (∀ cc, is_Some (g_made (Close (λ _, Some ErrJson) [("a:1"%string, 0%nat)] ex_c1.1 ex_c1.2).2 !! cc) →
     cc ∈ g_closed (Close (λ _, Some ErrJson) [("a:1"%string, 0%nat)] ex_c1.1 ex_c1.2).2) ∧
  g_made (Close (λ _, Some ErrJson) [("a:1"%string, 0%nat)] ex_c1.1 ex_c1.2).2 = g_made ex_c1.2 ∧
  (Close (λ _, Some ErrJson) [("a:1"%string, 0%nat)] ex_c1.1 ex_c1.2).1.1 = Some ErrJson.
Proof.
  apply (Close_closes_all (λ _, Some ErrJson) [("a:1"%string, 0%nat)] ex_c1.1 ex_c1.2).
  - exact ex_c1_inv.
  - reflexivity.
  - reflexivity.
Defined.

Lemma Client_Pull_connection_witness :
  let '(r, c', g') := Client_Pull (λ _, Ready) None (λ _ _, Err ErrJson) "b:2" ∅ ∅ zeroHLC 0 ex_c1.1 ex_c1.2 in
  cache_inv c' g' ∧ (∀ a, a ≠ "b:2"%string → conns c' !! a = conns ex_c1.1 !! a) ∧
  ((∃ e, r = Err e ∧ None = Some e) ∨
   ∃ cc, r = Err ErrJson ∧ g_made g' !! cc = Some ("b:2"%string, creds ex_c1.1) ∧ cc ∉ g_closed g' ∧
     ((length (g_made ex_c1.2) ≤ cc)%nat ∨ Ready ∈ [Idle; Connecting; Ready])).
Proof.
  exact (Client_Pull_connection (λ _, Ready) None (λ _ _, Err ErrJson) "b:2" ∅ ∅ zeroHLC 0
    ex_c1.1 ex_c1.2 _ _ _ ex_c1_inv eq_refl).
Defined.
