(* ===== verification/Sync.v ===== *)
(** * The anti-entropy engine: internal/engine/sync/sync.go

    One round against a peer ([RoundOnce]), a round against all peers ([roundAll]), tombstone
    collection and the engine's loop.  The RPC is the parameter [rpc]: [transport.Client.Pull]
    from the request on, gRPC and the network included.  It is a computation of the process, so
    it may fail, and other goroutines may change the process's state while it runs. *)

From S2P Require Import Prelude Hlc Model Metrics World Store Transport.
Local Open Scope Z_scope.

(** [New]: the interval between rounds, in nanoseconds; it is positive, so the ticker of [Run] does
    not panic. *)
Definition engine_interval (interval : Z) : Z := if interval <=? 0 then 2 * 1000000000 else interval.

Section Engine.
Context `{E : Env, J : Json}.
Context (rpc : string → PullRequest → M PullResponse).

(** The loop over [store.Kinds] that collects watermarks and checksums. *)
Fixpoint round_kinds (peer : string) (kinds : list string)
    (acc : gmap string HLC * gmap string Z) : M (gmap string HLC * gmap string Z) :=
  match kinds with
  | [] => mret acc
  | kind :: rest =>
      wm ← Watermark peer kind;
      chk ← Checksum kind;
      round_kinds peer rest (<[kind := wm]> acc.1, <[kind := chk]> acc.2)
  end.

Definition row_of_pb (r : pbRow) : Row :=
  mkRow (pr_Kind r) (pr_Key r) (pr_Owner r) (mkHLC (GetTs (pr_Hlc r)) (GetSeq (pr_Hlc r)))
    (pr_Tombstone r) (pr_Payload r).

(** [if h.After(max) { max = h }]. *)
Definition raise (m h : HLC) : HLC := if After h m then h else m.

(** [if len(resp.Rows) > 0 { ... }]. *)
Definition apply_pulled_rows (peer : string) (pbs : list pbRow) : M unit :=
  if bool_decide (0 < length pbs)%nat then
    let rows := row_of_pb <$> pbs in
    let maxHLC := foldl (λ m r, raise m (RHLC r)) zeroHLC rows in
    _ ← ApplyRemote peer rows;
    _ ← on_metrics (add_counter SyncRowsApplied (Z.of_nat (length rows)));
    clock_Update maxHLC
  else mret tt.

(** The event loop: [ev.Hlc.Ts] of an event without HLC is a nil dereference. *)
Fixpoint decode_events (pbs : list pbEvent) (incoming : list Event) (evWm maxEvHLC : HLC) :
    M (list Event * HLC * HLC) :=
  match pbs with
  | [] => mret (incoming, evWm, maxEvHLC)
  | ev :: rest =>
      let pl := if bool_decide (pe_Payload ev = ""%string) then None
                else unmarshal_payload_dropped (pe_Payload ev) in
      match pe_Hlc ev with
      | None => panic
      | Some p =>
          let h := mkHLC (TS p) (Seq p) in
          decode_events rest
            (incoming ++ [mkEvent (pe_Seq ev) (pe_Type ev) (pe_RunnerId ev) pl h])
            (raise evWm h) (raise maxEvHLC h)
      end
  end.

(** [if len(resp.Events) > 0 { ... }]. *)
Definition apply_pulled_events (peer : string) (evWm : HLC) (pbs : list pbEvent) : M unit :=
  if bool_decide (0 < length pbs)%nat then
    d ← decode_events pbs [] evWm zeroHLC;
    let '(incoming, evWm, maxEvHLC) := d in
    _ ← ApplyEvents incoming;
    _ ← on_metrics (add_counter SyncEventsApplied (Z.of_nat (length incoming)));
    _ ← SetWatermark peer KindEvent evWm;
    clock_Update maxEvHLC
  else mret tt.

Definition RoundOnce (peer : string) : M unit :=
  wc ← round_kinds peer Kinds (∅, ∅);
  evWm ← Watermark peer KindEvent;
  evChk ← ChecksumEvents;
  resp ← rpc peer (pull_request wc.1 wc.2 evWm evChk);
  _ ← apply_pulled_rows peer (rs_Rows resp);
  apply_pulled_events peer evWm (rs_Events resp).

(** The goroutines of [roundAll], one per non-empty peer, each run to its end, in the order in
    which they finish; the channel delivers their errors in that order. *)
Fixpoint run_rounds (peers : list string) : M (list (option error)) :=
  match peers with
  | [] => mret []
  | p :: rest =>
      r ← (if bool_decide (p = ""%string) then mret (Ok tt) else attempt (RoundOnce p));
      errs ← run_rounds rest;
      mret (match r with Err e => Some e | _ => None end :: errs)
  end.

(** [if err := <-errCh; err != nil && firstErr == nil { firstErr = err }]. *)
Definition first_error (errs : list (option error)) : option error :=
  foldl (λ firstErr err, match firstErr with None => err | Some _ => firstErr end) None errs.

Definition roundAll (peers : list string) : M unit :=
  _ ← on_metrics (inc_counter SyncRounds);
  r ← attempt (
    if bool_decide (length peers = 0%nat) then mret tt
    else
      n ← next;
      errs ← run_rounds (env_order n peers);
      match first_error errs with
      | Some e => _ ← on_metrics (inc_counter SyncRoundErrors); throw e
      | None => mret tt
      end);
  _ ← observe SyncRoundLatency;
  match r with Err e => throw e | _ => mret tt end.

Definition grace : Z := 1 * 60 * 60 * 1000.

Definition gcTombstones : M unit :=
  now ← clock_Tick;
  let nowTS := TS now in
  let minTS := if nowTS >? grace then nowTS - grace else 0 in
  _ ← attempt (GCTombstones (mkHLC minTS 0));
  mret tt.

(** [Run] through its initial round and one entry of [ticks] per tick before the context ends:
    the peers the provider names at that tick.  Errors are only logged. *)
Fixpoint Run_ticks (ticks : list (list string)) : M unit :=
  match ticks with
  | [] => mret tt
  | peers :: rest =>
      _ ← attempt (roundAll peers);
      _ ← gcTombstones;
      Run_ticks rest
  end.
Definition Run (peers0 : list string) (ticks : list (list string)) : M unit :=
  _ ← attempt (roundAll peers0);
  Run_ticks ticks.

End Engine.
