(* ===== verification/SyncSpec.v ===== *)
(** * What a sync round does

    The request a round sends as a function of the tables, the effect of a response as a ladder
    of states (rows merged, events merged, event watermark advanced), and the rule for
    [RoundOnce] against any behaviour of the RPC. *)

From S2P Require Import Prelude Hlc Model Metrics World Store Lattice Lww StoreSpec StoreProps Checksum EventLog Transport Sync.
Local Open Scope Z_scope.

Implicit Types (t : tables) (peer kind : string) (resp : PullResponse) (w : world).

Definition watermark_of peer kind t : HLC := default zeroHLC (t_watermarks t !! (peer, kind)).

(** The request [RoundOnce] sends to [peer]. *)
Definition round_req peer t : PullRequest :=
  pull_request
    (foldl (λ m k, <[k := watermark_of peer k t]> m) ∅ Kinds)
    (foldl (λ m k, <[k := checksum_of k t]> m) ∅ Kinds)
    (watermark_of peer KindEvent t) (checksum_events_of t).

Lemma hlc_eta (h : HLC) : mkHLC (TS h) (Seq h) = h.
Proof. by destruct h. Qed.

Lemma round_req_watermark peer kind t :
  kind ∈ Kinds → req_watermark (round_req peer t) kind = watermark_of peer kind t.
Proof.
  intros Hk. unfold req_watermark, round_req. cbn [rq_Watermarks pull_request foldl Kinds].
  rewrite lookup_fmap. apply elem_of_cons in Hk as [->|Hk].
  - rewrite lookup_insert_ne by done. rewrite lookup_insert_eq. simpl. apply hlc_eta.
  - apply list_elem_of_singleton in Hk as ->. rewrite lookup_insert_eq. simpl. apply hlc_eta.
Qed.

Lemma round_req_checksum peer kind t :
  kind ∈ Kinds → rq_Checksums (round_req peer t) !! kind = Some (checksum_of kind t).
Proof.
  intros Hk. cbn [rq_Checksums round_req pull_request foldl Kinds].
  apply elem_of_cons in Hk as [->|Hk].
  - rewrite lookup_insert_ne by done. by rewrite lookup_insert_eq.
  - apply list_elem_of_singleton in Hk as ->. by rewrite lookup_insert_eq.
Qed.

(** ** The response *)

Definition resp_rows resp : list Row := row_of_pb <$> rs_Rows resp.

Lemma row_of_pb_of_row (r : Row) : row_of_pb (pb_of_row r) = r.
Proof. by destruct r as [??? []]. Qed.

Lemma foldl_raise_rows (rows : list Row) h :
  foldl (λ m r, raise m (RHLC r)) h rows = foldl maxHLC h (RHLC <$> rows).
Proof. revert h. induction rows as [|r rows IH]; intros h; [done|]. simpl. apply IH. Qed.

Lemma hlc_max_either (P : HLC → Prop) a b : P a → P b → P (hlc_max a b).
Proof. unfold hlc_max. by destruct (After b a). Qed.

Lemma foldl_max_either (P : HLC → Prop) hs h : P h → Forall P hs → P (foldl maxHLC h hs).
Proof.
  intros Hh Hhs. destruct (foldl_max_in hs h) as [->|Hin]; [done|].
  rewrite Forall_forall in Hhs. by apply Hhs.
Qed.

Section Round.
Context `{E : Env, J : Json}.

(** The event a message carries, when it carries an HLC. *)
Definition event_of_pb (ev : pbEvent) : option Event :=
  (λ p, mkEvent (pe_Seq ev) (pe_Type ev) (pe_RunnerId ev)
     (if bool_decide (pe_Payload ev = ""%string) then None
      else unmarshal_payload_dropped (pe_Payload ev)) p) <$> pe_Hlc ev.

Definition top_hlc (h : HLC) (es : list Event) : HLC := foldl raise h (e_HLC <$> es).

Lemma wp_decode_events pbs inc wm mx Q w :
  match mapM event_of_pb pbs with
  | Some es => Q (Ok (inc ++ es, top_hlc wm es, top_hlc mx es)) w
  | None => Q Panic w
  end →
  wp (decode_events pbs inc wm mx) Q w.
Proof.
  revert inc wm mx. induction pbs as [|ev pbs IH]; intros inc wm mx.
  { simpl. by rewrite app_nil_r. }
  cbn [decode_events mapM]. destruct (event_of_pb ev) as [e|] eqn:He; unfold event_of_pb in He;
    destruct (pe_Hlc ev) as [p|]; try discriminate He; [|intros HQ; exact HQ].
  injection He as <-. simpl. rewrite hlc_eta. intros HQ. apply IH.
  revert HQ. destruct (mapM event_of_pb pbs) as [es|]; simpl; [|done].
  rewrite <-app_assoc. done.
Qed.

Lemma apply_remote_nil peer t : apply_remote_spec peer [] t = t.
Proof. by destruct t. Qed.

Lemma wp_apply_pulled_rows peer pbs Q w :
  (∀ m n c, Forall (λ r, RHLC r ⪯ clock_hlc c) (row_of_pb <$> pbs) →
     clock_hlc (w_clock w) ⪯ clock_hlc c →
     (∀ P : HLC → Prop, P (clock_hlc (w_clock w)) → P zeroHLC →
        Forall (λ r, P (RHLC r)) (row_of_pb <$> pbs) → P (clock_hlc c)) →
     Q (Ok tt) (World (apply_remote_spec peer (row_of_pb <$> pbs) (w_db w)) c m n)) →
  (∀ e n, db_error e → Q (Err e) (upd w (w_db w) n)) →
  wp (apply_pulled_rows peer pbs) Q w.
Proof.
  intros Hok Herr. unfold apply_pulled_rows. case_bool_decide as Hlen.
  2:{ wp_step. destruct pbs; [|simpl in Hlen; lia]. simpl in Hok.
      specialize (Hok (w_met w) (w_n w) (w_clock w)). rewrite apply_remote_nil in Hok.
      destruct w. by apply Hok. }
  wp_step. apply wp_ApplyRemote; [|done]. intros n. wp_step. wp_step. apply wp_clock_Update.
  rewrite foldl_raise_rows. apply Hok; rewrite Update_max.
  - apply Forall_forall. intros r Hr. etrans; [|apply hlc_max_ub_r].
    by apply foldl_max_ub, list_elem_of_fmap_2.
  - apply hlc_max_ub_l.
  - intros P H1 H2 H3. apply hlc_max_either; [done|]. by apply foldl_max_either, Forall_fmap.
Qed.

Lemma wp_apply_pulled_events peer evWm pbs Q w :
  (pbs = [] → Q (Ok tt) w) →
  (∀ m n es us c, pbs ≠ [] → mapM event_of_pb pbs = Some es → mapM event_entry es = Some us →
     Forall (λ e, e_HLC e ⪯ clock_hlc c) es → clock_hlc (w_clock w) ⪯ clock_hlc c →
     (∀ P : HLC → Prop, P (clock_hlc (w_clock w)) → P zeroHLC → Forall (λ e, P (e_HLC e)) es →
        P (clock_hlc c)) →
     Q (Ok tt) (World (set_watermark_spec peer KindEvent (top_hlc evWm es)
                  (set_events (put_all us (t_events (w_db w))) (w_db w))) c m n)) →
  (∀ e db m n, db_error e ∨ e = ErrJson ∧ mapM event_of_pb pbs ≫= mapM event_entry = None →
     db = w_db w ∨
     (∃ es us, mapM event_of_pb pbs = Some es ∧ mapM event_entry es = Some us ∧
        db = set_events (put_all us (t_events (w_db w))) (w_db w)) →
     Q (Err e) (World db (w_clock w) m n)) →
  (mapM event_of_pb pbs = None → Q Panic w) →
  wp (apply_pulled_events peer evWm pbs) Q w.
Proof.
  intros Hnil Hok Herr Hpanic. unfold apply_pulled_events. case_bool_decide as Hlen.
  2:{ wp_step. apply Hnil. destruct pbs; [done|simpl in Hlen; lia]. }
  assert (pbs ≠ []) as Hne by (intros ->; simpl in Hlen; lia).
  wp_step. apply wp_decode_events. destruct (mapM event_of_pb pbs) as [es|] eqn:Hes; [|by auto].
  simpl. wp_step. apply wp_ApplyEvents; [|intros n Hn; apply Herr; auto|intros er n ?; apply Herr; auto].
  intros us n Hus. wp_step. wp_step. wp_step.
  apply wp_SetWatermark; cbn [w_db]; [|intros er m ?; apply Herr; eauto 10].
  intros m. apply wp_clock_Update. cbn [w_db w_clock w_met w_n upd].
  apply (Hok _ _ es us); [done|done|done|..]; rewrite Update_max; unfold top_hlc.
  - apply Forall_forall. intros e He. etrans; [|apply hlc_max_ub_r].
    by apply (foldl_max_ub (e_HLC <$> es)), list_elem_of_fmap_2.
  - apply hlc_max_ub_l.
  - intros P H1 H2 H3. apply hlc_max_either; [done|].
    by apply (foldl_max_either P (e_HLC <$> es)), Forall_fmap.
Qed.

(** ** The request *)

Lemma wp_round_request {A} (k : gmap string HLC * gmap string Z → HLC → Z → M A) peer Q w :
  (∀ n, wp (k (foldl (λ m k, <[k := watermark_of peer k (w_db w)]> m) ∅ Kinds,
               foldl (λ m k, <[k := checksum_of k (w_db w)]> m) ∅ Kinds)
              (watermark_of peer KindEvent (w_db w)) (checksum_events_of (w_db w)))
           Q (upd w (w_db w) n)) →
  (∀ e n, db_error e → Q (Err e) (upd w (w_db w) n)) →
  wp (wc ← round_kinds peer Kinds (∅, ∅); evWm ← Watermark peer KindEvent;
      evChk ← ChecksumEvents; k wc evWm evChk) Q w.
Proof.
  intros Hok Herr. cbn [round_kinds Kinds fst snd]. wp_step.
  do 2 (wp_step; apply wp_Watermark; [|by intros; apply Herr]; intros ?; wp_step;
        apply wp_Checksum_of; [|by intros; apply Herr]; intros ?).
  wp_step. wp_step. apply wp_Watermark; [|by intros; apply Herr]. intros ?.
  wp_step. apply wp_ChecksumEvents; [|by intros; apply Herr]. intros ?. apply Hok.
Qed.

(** The rule of [RoundOnce]: the RPC runs with the tables and clock of the start, and what the
    round does with an answer is applied to the state the RPC left. *)
Lemma wp_RoundOnce rpc peer Q w :
  (∀ n, wp (rpc peer (round_req peer (w_db w)))
     (λ r w1, match r with
              | Ok resp => wp (_ ← apply_pulled_rows peer (rs_Rows resp);
                               apply_pulled_events peer (watermark_of peer KindEvent (w_db w))
                                 (rs_Events resp)) Q w1
              | Err e => Q (Err e) w1
              | Panic => Q Panic w1
              end) (upd w (w_db w) n)) →
  (∀ e n, db_error e → Q (Err e) (upd w (w_db w) n)) →
  wp (RoundOnce rpc peer) Q w.
Proof.
  intros Hok Herr. unfold RoundOnce.
  apply (wp_round_request (λ wc evWm evChk, resp ← rpc peer (pull_request wc.1 wc.2 evWm evChk);
    _ ← apply_pulled_rows peer (rs_Rows resp); apply_pulled_events peer evWm (rs_Events resp)));
    [|done].
  intros n. apply wp_bind. exact (Hok n).
Qed.

End Round.
