(* ===== verification/SyncProps.v ===== *)
(** * Properties of the sync engine

    A round against a peer whose tables are [tp]: it merges what the peer served, moves the
    watermarks with it, and brings the clock past everything received.  While the watermarks of
    the peer are sound (every row and event of the peer at or below them is already accounted for),
    a successful round leaves nothing of the peer behind. *)

From S2P Require Import Prelude Hlc Model Metrics World Store Lattice Lww StoreSpec StoreProps Tombstones Checksum EventLog Transport Sync SyncSpec.
Local Open Scope Z_scope.

Implicit Types (t tp : tables) (peer kind : string) (r : Row) (c : rowcols) (kk : string * string)
  (w : world) (h : HLC) (us : list ev_up) (evWm : HLC) (evs es : list Event) (rows : list Row).

(** ** Covering a peer *)

(** Everything [m1] holds under the replicated kinds is accounted for in [m2]. *)
Definition kinds_le (m1 m2 : rows_map) : Prop :=
  ∀ kk c1, kk.1 ∈ Kinds → m1 !! kk = Some c1 →
    ∃ c2, m2 !! kk = Some c2 ∧ stamp_le (cols_stamp c1) (cols_stamp c2).

(** The watermark [t] keeps for [peer] is sound with respect to the peer's tables. *)
Definition watermark_sound peer t tp : Prop :=
  ∀ kk c1, kk.1 ∈ Kinds → t_rows tp !! kk = Some c1 → cols_hlc c1 ⪯ watermark_of peer kk.1 t →
    ∃ c2, t_rows t !! kk = Some c2 ∧ stamp_le (cols_stamp c1) (cols_stamp c2).

(** The rows a peer with tables [tp] serves to a round from tables [t]. *)
Definition served peer t tp (rows : list Row) : Prop :=
  ∀ r, r ∈ rows ↔ Kind r ∈ Kinds ∧ select_row (Kind r) (Key r) tp = Some r ∧
                  served_after (round_req peer t) tp (Kind r) ≺ RHLC r.

Definition rows_applied peer tp t t' : Prop :=
  ∃ rows, served peer t tp rows ∧ t_rows t' = merge_rows rows (t_rows t) ∧
    ∀ pk, pk.2 ∈ Kinds → t_watermarks t' !! pk = watermark_after peer rows pk (t_watermarks t !! pk).

Definition rows_untouched t t' : Prop :=
  t_rows t' = t_rows t ∧ ∀ pk, pk.2 ∈ Kinds → t_watermarks t' !! pk = t_watermarks t !! pk.

Lemma select_row_lookup kk tp r :
  select_row kk.1 kk.2 tp = Some r ↔ ∃ c, t_rows tp !! kk = Some c ∧ r = scanRow (kk, c).
Proof.
  unfold select_row. destruct kk as [k0 k1]. cbn [fst snd].
  destruct (t_rows tp !! (k0, k1)) as [c|]; simpl; naive_solver.
Qed.

(** A peer's row, as it is served. *)
Lemma served_row peer t tp rows kk c :
  served peer t tp rows → kk.1 ∈ Kinds → t_rows tp !! kk = Some c →
  served_after (round_req peer t) tp kk.1 ≺ cols_hlc c → scanRow (kk, c) ∈ rows.
Proof.
  intros Hs Hk Hc Hlt. apply Hs. rewrite scanRow_Kind, scanRow_Key, scanRow_hlc.
  split_and!; [done| |done]. apply select_row_lookup. eauto.
Qed.

Lemma rows_has_scan kk c (m : rows_map) :
  rows_has (scanRow (kk, c)) m ↔
  ∃ c2, m !! kk = Some c2 ∧ stamp_le (cols_stamp c) (cols_stamp c2).
Proof.
  unfold rows_has. rewrite row_stamp_scan, scanRow_Kind, scanRow_Key. by destruct kk.
Qed.

(** Served rows are accounted for once applied. *)
Lemma rows_applied_has peer tp t t' kk c :
  rows_applied peer tp t t' → kk.1 ∈ Kinds → t_rows tp !! kk = Some c →
  served_after (round_req peer t) tp kk.1 ≺ cols_hlc c →
  ∃ c2, t_rows t' !! kk = Some c2 ∧ stamp_le (cols_stamp c) (cols_stamp c2).
Proof.
  intros (rows & Hs & Hm & _) Hk Hc Hlt. rewrite Hm. apply rows_has_scan, merge_rows_has.
  by eapply served_row.
Qed.

Lemma rows_applied_le peer tp t t' : rows_applied peer tp t t' → rows_le (t_rows t) (t_rows t').
Proof. intros (rows & _ & -> & _). apply merge_rows_le. Qed.

(** A peer that has nothing after the requested watermark: every row is at or below it. *)
Lemma reconciles_old peer t tp kk c :
  reconciles (round_req peer t) tp kk.1 = true → kk.1 ∈ Kinds → t_rows tp !! kk = Some c →
  cols_hlc c ⪯ watermark_of peer kk.1 t.
Proof.
  unfold reconciles. rewrite !andb_true_iff. intros [[Hb _] _] Hk Hc.
  apply bool_decide_eq_true in Hb. rewrite round_req_watermark in Hb by done.
  destruct (hlc_le_lt_cases (cols_hlc c) (watermark_of peer kk.1 t)) as [?|Hlt]; [done|].
  destruct (not_elem_of_nil (scanRow (kk, c))). rewrite <-Hb. apply elem_of_select_changes.
  rewrite scanRow_Kind, scanRow_Key, scanRow_hlc. split_and!; [done| |done].
  apply select_row_lookup. eauto.
Qed.

Lemma rows_applied_covers peer tp t t' :
  watermark_sound peer t tp → rows_applied peer tp t t' → kinds_le (t_rows tp) (t_rows t').
Proof.
  intros Hsound Happ kk c Hk Hc.
  assert (cols_hlc c ⪯ watermark_of peer kk.1 t →
    ∃ c2, t_rows t' !! kk = Some c2 ∧ stamp_le (cols_stamp c) (cols_stamp c2)) as Hold.
  { intros Hle. destruct (Hsound kk c Hk Hc Hle) as (c1 & Hc1 & Hle1).
    destruct (rows_applied_le _ _ _ _ Happ _ _ Hc1) as (c2 & Hc2 & Hle2).
    exists c2. split; [done|]. by etrans. }
  destruct (reconciles (round_req peer t) tp kk.1) eqn:Hrec; [by eapply Hold, reconciles_old|].
  destruct (hlc_le_lt_cases (cols_hlc c) (watermark_of peer kk.1 t)) as [Hle|Hlt]; [by apply Hold|].
  eapply rows_applied_has; [done..|]. unfold served_after. rewrite Hrec.
  by rewrite round_req_watermark.
Qed.

(** ** Rounds *)

Section Rounds.
Context `{E : Env, J : Json}.
Context (rpc : string → PullRequest → M PullResponse).

(** The ways a round can fail: a driver error, an event payload that cannot be marshalled, the
    RPC. *)
Definition round_error (e : error) : Prop := db_error e ∨ e = ErrJson ∨ ∃ s, e = ErrRpc s.

(** The RPC to [peer] is answered by [Pull] on the tables [tp], or fails; meanwhile the process's
    own tables and clock stay as they are. *)
Definition answered_by peer nodeID tp : Prop :=
  ∀ req w, wp (rpc peer req) (λ res w', same_state w w' ∧
    match res with
    | Ok resp => pull_answer nodeID req tp resp
    | Err e => ∃ s, e = ErrRpc s
    | Panic => False
    end) w.

Lemma event_of_pb_of_event (e : Event) : ∃ pl, event_of_pb (pb_of_event e) =
  Some (mkEvent (e_Seq e) (e_Type e) (e_RunnerID e) pl (e_HLC e)).
Proof. eexists. unfold event_of_pb. simpl. by rewrite hlc_eta. Qed.

Lemma pulled_events_decode (evs : list Event) :
  ∃ es, mapM event_of_pb (pb_of_event <$> evs) = Some es ∧
    Forall2 (λ e e', e_RunnerID e' = e_RunnerID e ∧ e_Seq e' = e_Seq e ∧ e_HLC e' = e_HLC e ∧
                     e_Type e' = e_Type e) evs es.
Proof.
  induction evs as [|e evs (es & Hes & HF)]; [by exists []|].
  destruct (event_of_pb_of_event e) as [pl Hpl].
  eexists (_ :: es). rewrite fmap_cons. cbn [mapM]. rewrite Hpl, Hes. simpl. split; [done|].
  by constructor.
Qed.

Definition cols_ev_hlc (e : evcols) : HLC := mkHLC (ev_hlc_ts e) (ev_hlc_seq e).

(** The stored event [e'] is the peer's event [e] under its type and HLC. *)
Definition same_event (e e' : evcols) : Prop :=
  ev_type e' = ev_type e ∧ cols_ev_hlc e' = cols_ev_hlc e.

(** The log [t'] holds the event of the peer: as [t] had it, or as the peer has it. *)
Definition event_taken t t' (x : string * Z) (e : evcols) : Prop :=
  ∃ e', t_events t' !! x = Some e' ∧ (t_events t !! x = Some e' ∨ same_event e e').

(** Every event [tp] holds after [evWm] is in the log of [t'], and nothing was lost. *)
Definition events_applied (evWm : HLC) tp t t' : Prop :=
  (∀ x e, t_events t !! x = Some e → t_events t' !! x = Some e) ∧
  (∀ x e, t_events tp !! x = Some e → evWm ≺ cols_ev_hlc e → event_taken t t' x e).

(** The event watermark [t] keeps for [peer] is sound: the log has every event of the peer at or
    below it. *)
Definition event_mark_sound peer t tp : Prop :=
  ∀ x e, t_events tp !! x = Some e → cols_ev_hlc e ⪯ watermark_of peer KindEvent t →
    is_Some (t_events t !! x).

(** Properties of HLCs that every version in the tables has. *)
Definition all_hlcs (P : HLC → Prop) t : Prop :=
  (∀ kk c, t_rows t !! kk = Some c → P (cols_hlc c)) ∧
  (∀ x e, t_events t !! x = Some e → P (mkHLC (ev_hlc_ts e) (ev_hlc_seq e))).

(** What a round does whether or not it succeeds: the clock never goes back and takes no value
    that was not its own, zero, or the peer's; events are never lost; no HLC is invented. *)
Record round_effect tp w w' : Prop := {
  re_clock : clock_hlc (w_clock w) ⪯ clock_hlc (w_clock w');
  re_clock_from : ∀ P : HLC → Prop,
    P (clock_hlc (w_clock w)) → P zeroHLC → all_hlcs P tp → P (clock_hlc (w_clock w'));
  re_events : ∀ x e, t_events (w_db w) !! x = Some e → t_events (w_db w') !! x = Some e;
  re_hlcs : ∀ P : HLC → Prop, all_hlcs P (w_db w) → all_hlcs P tp → all_hlcs P (w_db w')
}.

(** The clock is at or past every row the peer served. *)
Definition clock_past_rows peer tp t (clk : Clock) : Prop :=
  ∀ kk c, kk.1 ∈ Kinds → t_rows tp !! kk = Some c →
    served_after (round_req peer t) tp kk.1 ≺ cols_hlc c → cols_hlc c ⪯ clock_hlc clk.

(** The clock is at or past every event the peer served: those after the watermark, and all of them
    when the logs were reconciled. *)
Definition clock_past_events peer tp t (clk : Clock) : Prop :=
  ∀ x e, t_events tp !! x = Some e →
    watermark_of peer KindEvent t ≺ cols_ev_hlc e ∨
      (reconciles_events (round_req peer t) tp ∧ zeroHLC ≺ cols_ev_hlc e) →
    cols_ev_hlc e ⪯ clock_hlc clk.

Definition clock_past_served peer tp t (clk : Clock) : Prop :=
  clock_past_rows peer tp t clk ∧ clock_past_events peer tp t clk.

Definition round_result peer tp w (res : result unit) w' : Prop :=
  round_effect tp w w' ∧
  match res with
  | Ok _ => rows_applied peer tp (w_db w) (w_db w') ∧
            events_applied (watermark_of peer KindEvent (w_db w)) tp (w_db w) (w_db w') ∧
            clock_past_served peer tp (w_db w) (w_clock w')
  | Err e => round_error e ∧
             (rows_untouched (w_db w) (w_db w') ∨ rows_applied peer tp (w_db w) (w_db w')) ∧
             watermark_of peer KindEvent (w_db w') = watermark_of peer KindEvent (w_db w)
  | Panic => False
  end.

Lemma same_state_effect tp w w' : same_state w w' → round_effect tp w w'.
Proof. intros [Hd Hc]. split; rewrite ?Hd, ?Hc; done || auto. Qed.

Lemma same_state_untouched w w' : same_state w w' → rows_untouched (w_db w) (w_db w').
Proof. intros [Hd _]. by rewrite Hd. Qed.

Lemma served_hlcs (P : HLC → Prop) peer t tp rows :
  served peer t tp rows → all_hlcs P tp → Forall (λ r, P (RHLC r)) rows.
Proof.
  intros Hs [Hr _]. apply Forall_forall. intros r Hin. apply Hs in Hin as (_ & Hsel & _).
  apply (select_row_lookup (Kind r, Key r)) in Hsel as (c & Hc & ->).
  rewrite scanRow_hlc. eauto.
Qed.

Lemma merged_hlcs (P : HLC → Prop) rows t (log : ev_map) (wms : wm_map) :
  Forall (λ r, P (RHLC r)) rows → all_hlcs P t →
  (∀ x e, log !! x = Some e → P (mkHLC (ev_hlc_ts e) (ev_hlc_seq e))) →
  all_hlcs P (mkTables (merge_rows rows (t_rows t)) log wms).
Proof.
  intros Hrows [Hr _] He. split; [|exact He]. cbn [t_rows]. intros kk c Hc.
  apply merge_rows_origin in Hc as [Hc|(r & Hin & _ & ->)]; [by eapply Hr|].
  rewrite Forall_forall in Hrows. apply Hrows in Hin. by destruct r as [??? []].
Qed.

(** The state between the two stages of applying a response. *)
Lemma rows_stage peer tp rows w m n clk :
  served peer (w_db w) tp rows →
  Forall (λ r, RHLC r ⪯ clock_hlc clk) rows → clock_hlc (w_clock w) ⪯ clock_hlc clk →
  (∀ P : HLC → Prop, P (clock_hlc (w_clock w)) → P zeroHLC → Forall (λ r, P (RHLC r)) rows →
     P (clock_hlc clk)) →
  let w' := World (apply_remote_spec peer rows (w_db w)) clk m n in
  round_effect tp w w' ∧ rows_applied peer tp (w_db w) (w_db w') ∧
  clock_past_rows peer tp (w_db w) (w_clock w') ∧
  watermark_of peer KindEvent (w_db w') = watermark_of peer KindEvent (w_db w).
Proof.
  intros Hs Hclk Hle Hfrom w'. split_and!.
  - split; cbn [w_clock w_db w' t_events apply_remote_spec]; [done| |done|].
    + intros P H1 H2 H3. apply Hfrom; [done|done|]. by eapply served_hlcs.
    + intros P H1 H2. apply merged_hlcs; [by eapply served_hlcs|done|apply H1].
  - exists rows. split_and!; [done|done|]. intros pk _. apply apply_remote_watermark.
  - intros kk c Hk Hc Hlt. rewrite Forall_forall in Hclk. rewrite <-(scanRow_hlc kk c).
    apply Hclk. by eapply served_row.
  - unfold watermark_of. cbn [w_db w']. rewrite apply_remote_watermark. unfold watermark_after.
    rewrite bool_decide_true by done. cbn [snd]. destruct (filter _ rows) as [|r rs] eqn:Hf; [done|].
    assert (r ∈ filter (λ r, Kind r = KindEvent) rows) as Hr by (rewrite Hf; by left).
    apply list_elem_of_filter in Hr as [Hk Hr]. apply Hs in Hr as [Hkind _].
    rewrite Hk in Hkind. clear -Hkind. set_solver.
Qed.

(** ** Events of a response *)

Lemma event_entry_fields (e : Event) (u : ev_up) :
  event_entry e = Some u →
  u.1 = (e_RunnerID e, e_Seq e) ∧ cols_ev_hlc u.2 = e_HLC e ∧ ev_type u.2 = e_Type e.
Proof.
  unfold event_entry. destruct (marshal_payload _); [|done]. intros [= <-]. unfold cols_ev_hlc. simpl.
  by rewrite hlc_eta.
Qed.

(** The entries [us] are the peer's events after [evWm], under their own numbers, types and HLCs. *)
Definition entries_of (evWm : HLC) tp (us : list ev_up) : Prop :=
  (∀ u, u ∈ us → ∃ e, t_events tp !! u.1 = Some e ∧ same_event e u.2) ∧
  (∀ x e, t_events tp !! x = Some e → evWm ≺ cols_ev_hlc e → ∃ u, u ∈ us ∧ u.1 = x).

Lemma scan_event_fields x e :
  scan_event x = Some e →
  x.1 = (e_RunnerID e, e_Seq e) ∧ e_HLC e = ev_hlc x ∧ e_Type e = ev_type x.2.
Proof.
  unfold scan_event. destruct x as [[rn sq] c]. simpl.
  destruct (if bool_decide _ then _ else _); [|done]. by intros [= <-].
Qed.

Lemma response_entries evWm tp evs es us :
  events_result evWm tp evs → mapM event_of_pb (pb_of_event <$> evs) = Some es →
  mapM event_entry es = Some us → entries_of evWm tp us.
Proof.
  intros (_ & Hin & Hsc) Hes Hus.
  destruct (pulled_events_decode evs) as (es' & Hes' & HF). rewrite Hes in Hes'.
  injection Hes' as <-. apply mapM_Some_1 in Hus. split.
  - intros u Hu. apply list_elem_of_lookup in Hu as [i Hu].
    destruct (Forall2_lookup_r _ _ _ _ _ Hus Hu) as (e & He & Hent).
    destruct (Forall2_lookup_r _ _ _ _ _ HF He) as (e0 & He0 & Hr & Hs & Hh & Ht).
    apply list_elem_of_lookup_2, Hin in He0 as (x & Hx & Hse & _).
    apply scan_event_fields in Hse as (Hk & Hhx & Htx). apply event_entry_fields in Hent as (Hu1 & Hu2 & Hu3).
    exists x.2. unfold same_event. rewrite Hu1, Hr, Hs, <-Hk, Hu2, Hu3, Hh, Hhx, Ht, Htx. done.
  - intros x c Hx Hlt. destruct (Hsc (x, c) Hx Hlt) as [e0 Hse].
    pose proof (scan_event_fields _ _ Hse) as (Hk & Hhx & _).
    assert (e0 ∈ evs) as He0.
    { apply Hin. exists (x, c). by rewrite Hhx. }
    apply list_elem_of_lookup in He0 as [i He0].
    destruct (Forall2_lookup_l _ _ _ _ _ HF He0) as (e & He & Hr & Hs & _).
    destruct (Forall2_lookup_l _ _ _ _ _ Hus He) as (u & Hu & Hent).
    apply event_entry_fields in Hent as [Hu1 _]. exists u.
    split; [by apply list_elem_of_lookup_2 in Hu|]. by rewrite Hu1, Hr, Hs, <-Hk.
Qed.

Lemma put_events_origin (us : list ev_up) (m : ev_map) x e :
  put_all us m !! x = Some e → m !! x = Some e ∨ (x, e) ∈ us.
Proof.
  revert m. induction us as [|u us IH]; intros m; [auto|]. rewrite put_all_cons.
  intros H. apply IH in H as [H|H]; [|right; by right].
  simpl in H. rewrite ev_put_lookup in H. case_decide as Hd; [|auto].
  destruct (m !! x) eqn:Hm; simpl in H; [by left; rewrite <-H|].
  right. destruct u; simpl in *. simplify_eq. by left.
Qed.

Lemma entries_applied evWm tp us t t' :
  entries_of evWm tp us → t_events t' = put_all us (t_events t) → events_applied evWm tp t t'.
Proof.
  intros [Hus Hall] Ht. split.
  - intros x e. rewrite Ht. apply put_events_keep.
  - intros x e Hx Hlt. destruct (Hall x e Hx Hlt) as (u & Hu & <-).
    destruct (put_all_has (JS := ev_join) us (t_events t) u Hu) as [e' He'].
    exists e'. rewrite Ht. split; [exact He'|].
    apply put_events_origin in He' as [?|Hin]; [by left|right].
    destruct (Hus _ Hin) as (e0 & He0 & Hsame). simpl in He0, Hsame. by simplify_eq.
Qed.

Lemma entries_hlcs (P : HLC → Prop) evWm tp us (m : ev_map) :
  entries_of evWm tp us → all_hlcs P tp →
  (∀ x e, m !! x = Some e → P (mkHLC (ev_hlc_ts e) (ev_hlc_seq e))) →
  ∀ x e, put_all us m !! x = Some e → P (mkHLC (ev_hlc_ts e) (ev_hlc_seq e)).
Proof.
  intros [Hus _] [_ HP] Hm x e He. apply put_events_origin in He as [He|He]; [by eapply Hm|].
  apply Hus in He as (e' & Hx & _ & Heq). unfold cols_ev_hlc in Heq. simpl in Heq. rewrite Heq.
  by eapply HP.
Qed.

(** From the state after the row stage to one whose log has the entries too. *)
Lemma events_stage peer evWm tp us w w1 db clk m n :
  round_effect tp w w1 → rows_applied peer tp (w_db w) (w_db w1) →
  t_events (w_db w1) = t_events (w_db w) →
  entries_of evWm tp us → clock_hlc (w_clock w1) ⪯ clock_hlc clk →
  (∀ P : HLC → Prop, P (clock_hlc (w_clock w1)) → P zeroHLC → all_hlcs P tp → P (clock_hlc clk)) →
  t_rows db = t_rows (w_db w1) → t_events db = put_all us (t_events (w_db w1)) →
  (∀ pk, pk.2 ∈ Kinds → t_watermarks db !! pk = t_watermarks (w_db w1) !! pk) →
  round_effect tp w (World db clk m n) ∧ rows_applied peer tp (w_db w) db ∧
  events_applied evWm tp (w_db w) db.
Proof.
  intros [Rc Rf Re Rh] (rows & Hs & Hm & Hwm) Hev0 Hus Hle Hfrom Hrows Hev Hwms. split_and!.
  - split; cbn [w_clock w_db].
    + by etrans.
    + intros P H1 H2 H3. apply Hfrom; [by apply Rf|done|done].
    + intros x e Hx. rewrite Hev, Hev0. by apply put_events_keep.
    + intros P H1 H2. destruct (Rh P H1 H2) as [Hr1 He1]. split; [by rewrite Hrows|].
      rewrite Hev. by eapply entries_hlcs.
  - exists rows. split_and!; [done|by rewrite Hrows|]. intros pk Hpk. rewrite Hwms by done. auto.
  - eapply entries_applied; [done|]. by rewrite Hev, Hev0.
Qed.

(** ** A round against a peer *)

Lemma event_mark_other peer h t pk :
  pk.2 ∈ Kinds → t_watermarks (set_watermark_spec peer KindEvent h t) !! pk = t_watermarks t !! pk.
Proof.
  clear rpc. intros Hk. unfold set_watermark_spec. destruct (After h _); [|done]. simpl.
  rewrite lookup_insert_ne; [done|]. intros <-. simpl in Hk. set_solver.
Qed.
Lemma event_mark_rows peer h t : t_rows (set_watermark_spec peer KindEvent h t) = t_rows t.
Proof. unfold set_watermark_spec. by destruct (After h _). Qed.
Lemma event_mark_events peer h t : t_events (set_watermark_spec peer KindEvent h t) = t_events t.
Proof. unfold set_watermark_spec. by destruct (After h _). Qed.

Lemma answer_rows nodeID peer t tp resp :
  pull_answer nodeID (round_req peer t) tp resp → served peer t tp (resp_rows resp).
Proof.
  intros [_ _ (rows & Hrs & Hrows) _ _]. unfold resp_rows. rewrite Hrs, <-list_fmap_compose.
  replace ((row_of_pb ∘ pb_of_row) <$> rows) with rows; [done|].
  rewrite <-(list_fmap_id rows) at 1. apply list_fmap_ext. intros i r _. simpl.
  by rewrite row_of_pb_of_row.
Qed.

(** Entries served from the zero HLC were asked for because nothing is after the watermark. *)
Lemma entries_of_answer peer t tp evWm us :
  (evWm = zeroHLC ∧ reconciles_events (round_req peer t) tp) ∨
  (evWm = default zeroHLC (rq_EventWatermark (round_req peer t)) ∧
     ¬ reconciles_events (round_req peer t) tp) →
  entries_of evWm tp us → entries_of (watermark_of peer KindEvent t) tp us.
Proof.
  intros [[-> [Hrec _]]|[-> _]] [H1 H2]; cbn [rq_EventWatermark round_req pull_request default] in *;
    rewrite hlc_eta in *; [|done].
  split; [done|]. intros x e Hx Hlt. specialize (Hrec (x, e)).
  apply hlc_lt_not_le in Hlt. destruct Hlt. apply Hrec. by apply elem_of_map_to_list.
Qed.

Lemma decoded_hlcs (P : HLC → Prop) evWm tp evs es :
  events_result evWm tp evs → mapM event_of_pb (pb_of_event <$> evs) = Some es →
  all_hlcs P tp → Forall (λ e, P (e_HLC e)) es.
Proof.
  intros (_ & Hin & _) Hes [_ HP].
  destruct (pulled_events_decode evs) as (es' & Hes' & HF). rewrite Hes in Hes'.
  injection Hes' as <-. apply Forall_forall. intros e He.
  apply list_elem_of_lookup in He as [i He].
  destruct (Forall2_lookup_r _ _ _ _ _ HF He) as (e0 & He0 & _ & _ & -> & _).
  apply list_elem_of_lookup_2, Hin in He0 as (x & Hx & Hse & _).
  apply scan_event_fields in Hse as (_ & -> & _). by eapply HP.
Qed.

(** An event the peer has after the bound it served from is among the decoded ones. *)
Lemma decoded_has evWm tp evs es x e :
  events_result evWm tp evs → mapM event_of_pb (pb_of_event <$> evs) = Some es →
  t_events tp !! x = Some e → evWm ≺ cols_ev_hlc e → ∃ ev, ev ∈ es ∧ e_HLC ev = cols_ev_hlc e.
Proof.
  intros (_ & Hin & Hsc) Hes Hx Hlt. destruct (Hsc (x, e) Hx Hlt) as [e0 Hse].
  pose proof (scan_event_fields _ _ Hse) as (_ & Hh & _).
  assert (e0 ∈ evs) as He0 by (apply Hin; exists (x, e); by rewrite Hh).
  destruct (pulled_events_decode evs) as (es' & Hes' & HF). rewrite Hes in Hes'.
  injection Hes' as <-. apply list_elem_of_lookup in He0 as [i He0].
  destruct (Forall2_lookup_l _ _ _ _ _ HF He0) as (ev & Hev & _ & _ & Hh' & _).
  exists ev. split; [by eapply list_elem_of_lookup_2|]. by rewrite Hh', Hh.
Qed.

(** What a round asks the log of the peer for. *)
Lemma event_bound_served peer t tp evWm (h : HLC) :
  (evWm = zeroHLC ∧ reconciles_events (round_req peer t) tp) ∨
  (evWm = default zeroHLC (rq_EventWatermark (round_req peer t)) ∧
     ¬ reconciles_events (round_req peer t) tp) →
  (∃ x e, t_events tp !! x = Some e ∧ cols_ev_hlc e = h) →
  watermark_of peer KindEvent t ≺ h ∨ (reconciles_events (round_req peer t) tp ∧ zeroHLC ≺ h) →
  evWm ≺ h.
Proof.
  intros [[-> Hrec]|[-> Hno]] (x & e & Hx & <-) [Hlt|[? Hlt]]; [|done| |done]; cycle 1.
  { cbn [rq_EventWatermark round_req pull_request default]. by rewrite hlc_eta. }
  exfalso. destruct Hrec as [Hrec _]. cbn [rq_EventWatermark round_req pull_request default] in Hrec.
  rewrite hlc_eta in Hrec. specialize (Hrec (x, e)). apply hlc_lt_not_le in Hlt. destruct Hlt.
  apply Hrec. by apply elem_of_map_to_list.
Qed.

Lemma event_clock peer t tp evWm evs es (clk : Clock) :
  (evWm = zeroHLC ∧ reconciles_events (round_req peer t) tp) ∨
  (evWm = default zeroHLC (rq_EventWatermark (round_req peer t)) ∧
     ¬ reconciles_events (round_req peer t) tp) →
  events_result evWm tp evs → mapM event_of_pb (pb_of_event <$> evs) = Some es →
  Forall (λ e, e_HLC e ⪯ clock_hlc clk) es → clock_past_events peer tp t clk.
Proof.
  intros Hcase Hevs Hes Hall x e Hx Hserved.
  destruct (decoded_has _ _ _ _ x e Hevs Hes Hx) as (ev & Hev & <-).
  - eapply event_bound_served; [done|eauto|done].
  - rewrite Forall_forall in Hall. by apply Hall.
Qed.

(** A peer without events after the watermark asks nothing more of the log. *)
Lemma no_entries evWm tp : events_result evWm tp [] → entries_of evWm tp [].
Proof.
  intros (_ & Hin & Hsc). split; [by intros u Hu%not_elem_of_nil|].
  intros x e Hx Hlt. destruct (Hsc (x, e) Hx Hlt) as [e0 Hse].
  destruct (not_elem_of_nil e0). apply Hin. exists (x, e).
  apply scan_event_fields in Hse as Hf. destruct Hf as (_ & Hf & _). by rewrite Hf.
Qed.

Lemma watermark_of_same peer kind t t' :
  t_watermarks t' !! (peer, kind) = t_watermarks t !! (peer, kind) →
  watermark_of peer kind t' = watermark_of peer kind t.
Proof. unfold watermark_of. by intros ->. Qed.

Lemma same_state_failed peer tp w w' e :
  same_state w w' → round_error e → round_result peer tp w (Err e) w'.
Proof.
  intros Hs He. split; [by apply same_state_effect|]. split_and!; [done|left; by apply same_state_untouched|].
  by destruct Hs as [-> _].
Qed.

Lemma wp_round_against peer nodeID tp w :
  answered_by peer nodeID tp →
  wp (RoundOnce rpc peer) (round_result peer tp w) w.
Proof.
  intros Hrpc. apply wp_RoundOnce; cycle 1.
  { intros e n ?. apply same_state_failed; [done|by left]. }
  intros n. eapply wp_mono; [apply Hrpc|]. simpl. intros [resp|e|] w1 [Hsame Hans]; [| |done].
  2:{ apply same_state_failed; [by destruct Hsame|right; by right]. }
  destruct Hsame as [Hdb Hclk]. cbn [w_db w_clock upd] in Hdb, Hclk.
  pose proof (answer_rows _ _ _ _ _ Hans) as Hserved.
  destruct Hans as [_ _ _ (evs & evWm & Hrs & Hevs & HevWm) _].
  cbn [w_db upd] in *. wp_step. rewrite Hrs.
  apply wp_apply_pulled_rows; rewrite Hdb, ?Hclk.
  2:{ intros er n' ?. apply same_state_failed; [done|by left]. }
  intros m n1 clk Hall Hle Hfrom. fold (resp_rows resp) in *.
  destruct (rows_stage peer tp _ w m n1 clk Hserved Hall Hle Hfrom) as (Heff & Happ & Hpast & Hmark).
  set (w2 := World (apply_remote_spec peer (resp_rows resp) (w_db w)) clk m n1) in *.
  apply wp_apply_pulled_events.
  - intros Hnil. apply fmap_nil_inv in Hnil as ->. split; [done|]. split_and!; [done| |split; [done|]].
    + apply (entries_applied _ _ []); [|done]. eapply entries_of_answer; [done|]. by apply no_entries.
    + by eapply (event_clock _ _ _ _ [] []).
  - intros m' n2 es us clk' _ Hes Hus Hall' Hle' Hfrom'.
    pose proof (response_entries _ _ _ _ _ Hevs Hes Hus) as Hent.
    apply (entries_of_answer _ _ _ _ _ HevWm) in Hent.
    destruct (events_stage peer _ tp us w w2
      (set_watermark_spec peer KindEvent
         (top_hlc (watermark_of peer KindEvent (w_db w)) es)
         (set_events (put_all us (t_events (w_db w2))) (w_db w2))) clk' m' n2 Heff Happ eq_refl Hent)
      as (He' & Ha' & Hv'); [exact Hle'| | | | |].
    + intros P H1 H2 H3. apply Hfrom'; [done|done|]. by eapply decoded_hlcs.
    + by rewrite event_mark_rows.
    + by rewrite event_mark_events.
    + intros pk Hpk. by rewrite event_mark_other.
    + split; [done|]. split_and!; [done|done|split].
      * intros kk c Hk Hc Hlt. etrans; [by eapply Hpast|done].
      * by eapply event_clock.
  - intros er db m' n2 Her [->|(es & us & Hes & Hus & ->)].
    + split; [by destruct Heff; split|]. split_and!; [unfold round_error; tauto|by right|done].
    + pose proof (response_entries _ _ _ _ _ Hevs Hes Hus) as Hent.
      edestruct (events_stage peer _ tp us w w2
        (set_events (put_all us (t_events (w_db w2))) (w_db w2)) clk m' n2 Heff Happ eq_refl Hent)
        as (He' & Ha' & Hv'); [done|done|done|done|done|].
      split; [exact He'|]. split_and!; [unfold round_error; tauto|by right|exact Hmark].
  - intros Hnone. destruct (pulled_events_decode evs) as (es & Hes & _). congruence.
Qed.

Lemma covered_sound peer t tp : kinds_le (t_rows tp) (t_rows t) → watermark_sound peer t tp.
Proof. intros Hle kk c Hk Hc _. by apply Hle. Qed.

Lemma untouched_sound peer t t' tp :
  watermark_sound peer t tp → rows_untouched t t' → watermark_sound peer t' tp.
Proof.
  intros Hs [Hr Hw] kk c Hk Hc Hle. rewrite Hr. apply Hs; [done|done|].
  rewrite <-(watermark_of_same peer kk.1 t t'); [done|]. by apply (Hw (peer, kk.1)).
Qed.

(** Once every event of the peer is in the log, any watermark is sound. *)
Lemma events_all_sound peer t tp :
  (∀ x e, t_events tp !! x = Some e → is_Some (t_events t !! x)) → event_mark_sound peer t tp.
Proof. intros Hall x e Hx _. by eapply Hall. Qed.

Lemma events_applied_all peer tp t t' x e :
  event_mark_sound peer t tp → events_applied (watermark_of peer KindEvent t) tp t t' →
  t_events tp !! x = Some e → event_taken t t' x e.
Proof.
  intros Hs [Hkept Hnew] Hx.
  destruct (hlc_le_lt_cases (cols_ev_hlc e) (watermark_of peer KindEvent t)) as [Hle|Hlt];
    [|by apply Hnew].
  destruct (Hs x e Hx Hle) as [e' He']. exists e'. split; [by apply Hkept|by left].
Qed.

(** C6: Anti-entropy catches up.  While the watermarks kept for a peer are sound (every replicated row
    and every event of the peer at or below them is accounted for locally), a successful round
    leaves every row of the peer accounted for, every event of the peer in the log (as it was
    there, or under the peer's type and HLC), and the clock at or past every row and every event
    the peer served.  The watermarks stay sound, no row goes back and no event is lost even when
    the round fails half way. *)
Theorem RoundOnce_catches_up peer nodeID tp w :
  answered_by peer nodeID tp → watermark_sound peer (w_db w) tp → event_mark_sound peer (w_db w) tp →
  wp (RoundOnce rpc peer) (λ res w',
    watermark_sound peer (w_db w') tp ∧ event_mark_sound peer (w_db w') tp ∧
    rows_le (t_rows (w_db w)) (t_rows (w_db w')) ∧
    (∀ x e, t_events (w_db w) !! x = Some e → t_events (w_db w') !! x = Some e) ∧
    match res with
    | Ok _ => kinds_le (t_rows tp) (t_rows (w_db w')) ∧
              (∀ x e, t_events tp !! x = Some e → event_taken (w_db w) (w_db w') x e) ∧
              clock_past_served peer tp (w_db w) (w_clock w')
    | Err e => round_error e
    | Panic => False
    end) w.
Proof.
  intros Hrpc Hs Hes. eapply wp_mono; [by eapply wp_round_against|].
  intros [[]|e|] w' [Heff Hres]; [| |done].
  - destruct Hres as (Happ & Hev & Hclk).
    pose proof (rows_applied_covers _ _ _ _ Hs Happ) as Hcov.
    pose proof (λ x e, events_applied_all _ _ _ _ x e Hes Hev) as Hall.
    split_and!; [by apply covered_sound| |by eapply rows_applied_le|apply Heff|done..].
    apply events_all_sound. intros x e Hx. destruct (Hall x e Hx) as (e' & ? & _). by exists e'.
  - destruct Hres as (Hre & Hrows & Hmark). split_and!; [| | |apply Heff|done].
    + destruct Hrows as [Hun|Happ]; [by eapply untouched_sound|by eapply covered_sound, rows_applied_covers].
    + intros x e' Hx Hle. rewrite Hmark in Hle. destruct (Hes x e' Hx Hle) as [e0 He0].
      exists e0. by apply (re_events _ _ _ Heff).
    + destruct Hrows as [[-> _]|Happ]; [done|by eapply rows_applied_le].
Qed.

(** C9: Reconciliation: when the peer has no row of a kind after the watermark while the local
    checksum of that kind is not zero and differs from the peer's, a successful round accounts for
    every row of that kind the peer holds with a positive HLC, sound watermark or not. *)
Theorem RoundOnce_reconciles peer nodeID tp w kk c :
  answered_by peer nodeID tp → kk.1 ∈ Kinds → t_rows tp !! kk = Some c → zeroHLC ≺ cols_hlc c →
  select_changes kk.1 (watermark_of peer kk.1 (w_db w)) tp = [] →
  checksum_of kk.1 (w_db w) ≠ 0 → checksum_of kk.1 (w_db w) ≠ checksum_of kk.1 tp →
  wp (RoundOnce rpc peer) (λ res w',
    match res with
    | Ok _ => ∃ c2, t_rows (w_db w') !! kk = Some c2 ∧ stamp_le (cols_stamp c) (cols_stamp c2)
    | Err e => round_error e
    | Panic => False
    end) w.
Proof.
  intros Hrpc Hk Hc Hpos Hnone H0 Hne. eapply wp_mono; [by eapply wp_round_against|].
  intros [[]|e|] w' [Heff Hres]; [|by destruct Hres|done]. destruct Hres as (Happ & _).
  eapply rows_applied_has; [done..|]. unfold served_after.
  replace (reconciles (round_req peer (w_db w)) tp kk.1) with true; [done|].
  symmetry. unfold reconciles. rewrite round_req_watermark, round_req_checksum by done. simpl.
  apply Z.eqb_neq in H0, Hne. by rewrite bool_decide_true, H0, Hne.
Qed.

(** ** Any answer at all *)

(** The watermark table only moves forward under [SetWatermark]. *)
Lemma set_watermark_le peer kind h t : wm_le (t_watermarks t) (t_watermarks (set_watermark_spec peer kind h t)).
Proof.
  unfold set_watermark_spec. destruct (After h _) eqn:Ha; [|done]. simpl.
  intros pk h1 H1. destruct (decide ((peer, kind) = pk)) as [<-|Hne].
  - rewrite lookup_insert_eq. eexists. split; [done|]. rewrite H1 in Ha. simpl in Ha.
    apply hlc_lt_le. by apply After_spec.
  - rewrite lookup_insert_ne by done. by exists h1.
Qed.

(** Tables and clock of [w'] are at or above those of [w]. *)
Definition state_le w w' : Prop :=
  rows_le (t_rows (w_db w)) (t_rows (w_db w')) ∧
  (∀ x e, t_events (w_db w) !! x = Some e → t_events (w_db w') !! x = Some e) ∧
  wm_le (t_watermarks (w_db w)) (t_watermarks (w_db w')) ∧
  clock_hlc (w_clock w) ⪯ clock_hlc (w_clock w').

Lemma state_le_events w w1 (us : list ev_up) db (clk : Clock) m n :
  state_le w w1 → t_rows db = t_rows (w_db w1) → t_events db = put_all us (t_events (w_db w1)) →
  wm_le (t_watermarks (w_db w1)) (t_watermarks db) → clock_hlc (w_clock w1) ⪯ clock_hlc clk →
  state_le w (World db clk m n).
Proof.
  intros (H1 & H2 & H3 & H4) Hr He Hw Hc. split_and!; cbn [w_db w_clock].
  - by rewrite Hr.
  - intros x e Hx. rewrite He. by apply put_events_keep, H2.
  - by etrans.
  - by etrans.
Qed.

(** C7: Whatever a peer answers, a round can only add: no stored version is replaced by an older one,
    no event is lost or changed, no watermark and no clock goes back.  The only answer that makes
    it panic is one with an event that carries no HLC. *)
Theorem RoundOnce_only_adds peer resp w :
  (∀ req w1, wp (rpc peer req) (λ res w2, same_state w1 w2 ∧ (∃ e, res = Err e) ∨
                                        same_state w1 w2 ∧ res = Ok resp) w1) →
  wp (RoundOnce rpc peer) (λ res w', state_le w w' ∧
    (res = Panic → Exists (λ ev, pe_Hlc ev = None) (rs_Events resp))) w.
Proof.
  intros Hrpc.
  assert (∀ w', same_state w w' → state_le w w') as Hsame.
  { intros w' [Hd Hc]. unfold state_le. rewrite Hd, Hc. by split_and!. }
  apply wp_RoundOnce; [|intros e n _; split; [by apply Hsame|done]].
  intros n. eapply wp_mono; [apply Hrpc|]. simpl.
  intros res w1 [[Hs [e ->]]|[Hs ->]]; [split; [by apply Hsame; destruct Hs|done]|].
  destruct Hs as [Hd Hc]. cbn [w_db w_clock upd] in Hd, Hc. wp_step.
  apply wp_apply_pulled_rows; rewrite Hd, ?Hc.
  2:{ intros e n' _. split; [by apply Hsame|done]. }
  intros m n1 clk _ Hle _.
  set (w2 := World (apply_remote_spec peer (row_of_pb <$> rs_Rows resp) (w_db w)) clk m n1).
  assert (state_le w w2) as H2.
  { split_and!; [apply merge_rows_le|done|apply (put_all_le (JS := wm_join))|done]. }
  apply wp_apply_pulled_events.
  - done.
  - intros m' n2 es us c _ _ _ _ Hle' _. split; [|done].
    eapply state_le_events; [done|by rewrite event_mark_rows|by rewrite event_mark_events| |done].
    exact (set_watermark_le _ _ _ (set_events (put_all us (t_events (w_db w2))) (w_db w2))).
  - intros e db m' n2 _ [->|(es & us & _ & _ & ->)]; (split; [|done]).
    + by destruct H2 as (?&?&?&?).
    + by eapply state_le_events.
  - intros Hnone. split; [done|]. intros _. apply mapM_None_1 in Hnone.
    eapply Exists_impl; [exact Hnone|]. intros ev. unfold event_of_pb. by destruct (pe_Hlc ev).
Qed.

(** ** Rounds against all peers *)

Lemma watermark_after_other peer rows pk old : pk.1 ≠ peer → watermark_after peer rows pk old = old.
Proof. intros. unfold watermark_after. by rewrite bool_decide_false. Qed.

Lemma kinds_le_trans_rows (m1 m2 m3 : rows_map) : kinds_le m1 m2 → rows_le m2 m3 → kinds_le m1 m3.
Proof.
  intros H12 H23 kk c1 Hk H1. destruct (H12 kk c1 Hk H1) as (c2 & H2 & ?).
  destruct (H23 _ _ H2) as (c3 & ? & ?). exists c3. split; [done|]. by etrans.
Qed.

(** A round against one peer leaves the watermarks of the others sound. *)
Lemma round_keeps_sound p tp q tq w res w' :
  round_result p tp w res w' → watermark_sound p (w_db w) tp →
  q ≠ p → watermark_sound q (w_db w) tq → watermark_sound q (w_db w') tq.
Proof.
  intros [_ Hres] Hp Hne Hq.
  assert (rows_untouched (w_db w) (w_db w') ∨ rows_applied p tp (w_db w) (w_db w')) as [Hun|Happ].
  { destruct res; tauto. }
  - by eapply untouched_sound.
  - intros kk c Hk Hc Hle. destruct (Hq kk c Hk Hc) as (c1 & Hc1 & Hle1).
    + etrans; [exact Hle|]. destruct Happ as (rows & _ & _ & Hw).
      rewrite (watermark_of_same q kk.1 (w_db w) (w_db w')); [done|].
      rewrite Hw by done. by apply watermark_after_other.
    + destruct (rows_applied_le _ _ _ _ Happ _ _ Hc1) as (c2 & Hc2 & ?).
      exists c2. split; [done|]. by etrans.
Qed.

(** The first error that arrives. *)
Lemma first_error_cases (errs : list (option error)) :
  (first_error errs = None ∧ Forall (λ e, e = None) errs) ∨
  ∃ e before after, first_error errs = Some e ∧ errs = before ++ Some e :: after ∧
    Forall (λ e, e = None) before.
Proof.
  unfold first_error. set (f := λ (first err : option error), match first with None => err | Some _ => first end).
  assert (∀ e l, foldl f (Some e) l = Some e) as Hsome by (intros e; induction l as [|x l IH]; [done|exact IH]).
  induction errs as [|[e|] errs IH]; [by left| |].
  - right. exists e, [], errs. split_and!; [exact (Hsome e errs)|done|constructor].
  - destruct IH as [[Hn HF]|(e & before & after & Hf & -> & HF)]; [left|right].
    + split; [exact Hn|by constructor].
    + exists e, (None :: before), after. split_and!; [exact Hf|done|by constructor].
Qed.

(** The rounds against [ps], one after the other: each non-empty peer's [RoundOnce] runs on the state
    the ones before it left, whatever their outcome; an empty peer is skipped. *)
Inductive rounds_run : world → list string → list (option error) → world → Prop :=
| rr_nil w : rounds_run w [] [] w
| rr_skip w ps errs w' :
    rounds_run w ps errs w' → rounds_run w (""%string :: ps) (None :: errs) w'
| rr_ok w p w1 ps errs w' :
    p ≠ ""%string → RoundOnce rpc p w = (Ok tt, w1) → rounds_run w1 ps errs w' →
    rounds_run w (p :: ps) (None :: errs) w'
| rr_failed w p e w1 ps errs w' :
    p ≠ ""%string → RoundOnce rpc p w = (Err e, w1) → rounds_run w1 ps errs w' →
    rounds_run w (p :: ps) (Some e :: errs) w'.

Lemma run_rounds_run ps w :
  (∀ p w1, p ∈ ps → p ≠ ""%string → (RoundOnce rpc p w1).1 ≠ Panic) →
  ∃ errs w', run_rounds rpc ps w = (Ok errs, w') ∧ rounds_run w ps errs w'.
Proof.
  revert w. induction ps as [|p ps IH]; intros w Hnp; [eexists _, _; by split; [|constructor]|].
  assert (∀ w1, ∃ errs w', run_rounds rpc ps w1 = (Ok errs, w') ∧ rounds_run w1 ps errs w') as IH'.
  { intros w1. apply IH. intros q w2 Hq. apply Hnp. by right. }
  cbn [run_rounds]. unfold mbind, M_bind, mret, M_ret, attempt. case_bool_decide as Hp.
  - subst p. destruct (IH' w) as (errs & w' & -> & Hr). eexists _, _. split; [done|by constructor].
  - specialize (Hnp p w (list_elem_of_here _ _) Hp).
    destruct (RoundOnce rpc p w) as [[[]|e|] w1] eqn:Hround; [..|done];
      destruct (IH' w1) as (errs & w' & -> & Hr); eexists _, _; (split; [done|]).
    + by eapply rr_ok.
    + by eapply rr_failed.
Qed.

(** The state of a round against all peers: sound for every peer, nothing lost. *)
Definition rounds_inv (tps : string → tables) (peers : list string) w w1 : Prop :=
  (∀ p, p ∈ peers → p ≠ ""%string → watermark_sound p (w_db w1) (tps p)) ∧
  rows_le (t_rows (w_db w)) (t_rows (w_db w1)).

Lemma rounds_inv_step tps peers p w w1 res w2 :
  round_result p (tps p) w1 res w2 → p ∈ peers → p ≠ ""%string →
  rounds_inv tps peers w w1 →
  rounds_inv tps peers w w2 ∧ rows_le (t_rows (w_db w1)) (t_rows (w_db w2)) ∧
  (res = Ok tt → kinds_le (t_rows (tps p)) (t_rows (w_db w2))).
Proof.
  intros Hres Hp Hne [Hs Hle]. pose proof (Hs p Hp Hne) as Hsp.
  assert (rows_le (t_rows (w_db w1)) (t_rows (w_db w2)) ∧ watermark_sound p (w_db w2) (tps p) ∧
    (res = Ok tt → kinds_le (t_rows (tps p)) (t_rows (w_db w2)))) as (Hle2 & Hsp2 & Hok).
  { destruct Hres as [_ Hres]. destruct res as [[]|e|]; [| |done].
    - destruct Hres as (Happ & _). pose proof (rows_applied_covers _ _ _ _ Hsp Happ).
      split_and!; [by eapply rows_applied_le|by apply covered_sound|done].
    - destruct Hres as (_ & [Hun|Happ] & _); split_and!; try done.
      + by destruct Hun as [-> _].
      + by eapply untouched_sound.
      + by eapply rows_applied_le.
      + by eapply covered_sound, rows_applied_covers. }
  split_and!; [|done|done]. split; [|by etrans]. intros q Hq Hqne.
  destruct (decide (q = p)) as [->|Hqp]; [done|].
  eapply round_keeps_sound; [done|done|done|by apply Hs].
Qed.

(** Every peer whose round succeeded is accounted for at the end. *)
Definition succeeded_caught_up (tps : string → tables) (ps : list string) (errs : list (option error)) w' : Prop :=
  ∀ k p, ps !! k = Some p → errs !! k = Some None → p ≠ ""%string →
    kinds_le (t_rows (tps p)) (t_rows (w_db w')).

Lemma succeeded_cons tps p ps e errs w' :
  (e = None → p ≠ ""%string → kinds_le (t_rows (tps p)) (t_rows (w_db w'))) →
  succeeded_caught_up tps ps errs w' → succeeded_caught_up tps (p :: ps) (e :: errs) w'.
Proof. intros Hp Hps [|k] q Hq He Hne; simpl in *; [simplify_eq; auto|by eapply Hps]. Qed.

Lemma rounds_run_inv tps peers ps errs w w1 w2 :
  (∀ p, p ∈ peers → p ≠ ""%string → ∃ nodeID, answered_by p nodeID (tps p)) →
  (∀ p, p ∈ ps → p ∈ peers) → rounds_inv tps peers w w1 → rounds_run w1 ps errs w2 →
  rounds_inv tps peers w w2 ∧ rows_le (t_rows (w_db w1)) (t_rows (w_db w2)) ∧
  (∀ e, Some e ∈ errs → round_error e) ∧ succeeded_caught_up tps ps errs w2.
Proof.
  intros Hans Hps Hinv Hrun. revert Hps Hinv.
  assert (∀ p, p ∈ peers → p ≠ ""%string → ∀ w1 (res : result unit) w2, RoundOnce rpc p w1 = (res, w2) →
    round_result p (tps p) w1 res w2) as Hround.
  { intros p Hp Hne w3 r w4. destruct (Hans p Hp Hne) as [nodeID Ha].
    apply (wp_run _ (round_result p (tps p) w3)). by eapply wp_round_against. }
  induction Hrun as [w1|w1 ps errs w2 _ IH|w1 p w3 ps errs w2 Hp H1 _ IH|w1 p e w3 ps errs w2 Hp H1 _ IH];
    intros Hps Hinv.
  - split_and!; [done|done|set_solver|by intros k p].
  - destruct IH as (Hi & Hle & He & Hs); [set_solver|done|]. split_and!; [done|done|set_solver|].
    by apply succeeded_cons.
  - destruct (rounds_inv_step tps peers p w w1 (Ok tt) w3) as (Hi3 & Hle3 & Hok);
      [apply Hround; set_solver|set_solver|done|done|].
    destruct IH as (Hi & Hle & He & Hs); [set_solver|done|]. split_and!; [done|by etrans|set_solver|].
    apply succeeded_cons; [|done]. intros _ _. eapply kinds_le_trans_rows; [by apply Hok|done].
  - pose proof (Hround p (Hps p (list_elem_of_here _ _)) Hp _ _ _ H1) as Hres.
    destruct (rounds_inv_step tps peers p w w1 (Err e) w3) as (Hi3 & Hle3 & _);
      [done|set_solver|done|done|].
    destruct IH as (Hi & Hle & He & Hs); [set_solver|done|]. split_and!; [done|by etrans| |by apply succeeded_cons].
    destruct Hres as [_ [Hre _]]. intros e' [He'|He']%elem_of_cons; [by simplify_eq|by apply He].
Qed.

(** C19: A round against all peers runs the round of every non-empty peer, in some order and whatever
    the others' outcome (the goroutines are taken one after the other, in the order in which they
    finish).  It returns no error exactly when no round failed, otherwise the first error that
    arrived.  Every peer whose round succeeded has all its rows accounted for at the end, also when
    another failed; no local version went back, and every row watermark is still sound. *)
Theorem roundAll_catches_up tps peers w :
  (∀ p, p ∈ peers → p ≠ ""%string → ∃ nodeID, answered_by p nodeID (tps p)) →
  (∀ p, p ∈ peers → p ≠ ""%string → watermark_sound p (w_db w) (tps p)) →
  wp (roundAll rpc peers) (λ res w', ∃ order errs w1 w2,
    order ≡ₚ peers ∧ same_state w w1 ∧ rounds_run w1 order errs w2 ∧ same_state w2 w' ∧
    rounds_inv tps peers w w' ∧ succeeded_caught_up tps order errs w' ∧
    match res with
    | Ok _ => Forall (λ e, e = None) errs
    | Err e => round_error e ∧ ∃ before after, errs = before ++ Some e :: after ∧
                                          Forall (λ e, e = None) before
    | Panic => False
    end) w.
Proof.
  intros Hans Hs. unfold roundAll. wp_step. wp_step. wp_step. wp_step.
  assert (rounds_inv tps peers w w) as Hi0 by by split.
  case_bool_decide as Hlen.
  { apply nil_length_inv in Hlen as ->. wp_step. wp_step. unfold observe. wp_step. wp_step. wp_step. wp_step.
    eexists [], [], w, w. split_and!; try done; constructor. }
  wp_step. wp_step. wp_step.
  set (w1 := upd _ _ _). set (order := env_order _ peers).
  assert (order ≡ₚ peers) as Hperm by apply env_order_perm.
  assert (∀ p, p ∈ order → p ∈ peers) as Hin by (intros p; by rewrite Hperm).
  destruct (run_rounds_run order w1) as (errs & w2 & Hrun & Hrounds).
  { intros p w3 Hp Hne. destruct (Hans p (Hin p Hp) Hne) as [nodeID Ha].
    pose proof (wp_round_against p nodeID (tps p) w3 Ha) as Hw. unfold wp in Hw.
    destruct (RoundOnce rpc p w3) as [[[]|e|] w4]; try done. by destruct Hw. }
  destruct (rounds_run_inv tps peers order errs w w1 w2 Hans Hin Hi0 Hrounds) as (Hi & _ & Herr & Hcatch).
  assert (∀ Q : result (list (option error)) → world → Prop, Q (Ok errs) w2 → wp (run_rounds rpc order) Q w1)
    as Hw by (intros Q HQ; unfold wp; by rewrite Hrun).
  apply Hw.
  destruct (first_error_cases errs) as [[-> HF]|(e & before & after & -> & Heq & HF)].
  - wp_step. wp_step. unfold observe. wp_step. wp_step. wp_step. wp_step.
    exists order, errs, w1, w2. by split_and!.
  - wp_step. wp_step. wp_step. wp_step. unfold observe. wp_step. wp_step. wp_step. wp_step.
    exists order, errs, w1, w2. split_and!; try done; [|eauto].
    apply Herr. rewrite Heq. set_solver.
Qed.

(** ** What a round does not bring, and what it brings back *)

(** A peer with rows of the kind after the watermark serves exactly those. *)
Lemma served_after_mark peer t tp kk c :
  kk.1 ∈ Kinds → t_rows tp !! kk = Some c → watermark_of peer kk.1 t ≺ cols_hlc c →
  served_after (round_req peer t) tp kk.1 = watermark_of peer kk.1 t.
Proof.
  intros Hk Hc Hlt. unfold served_after. destruct (reconciles _ _ _) eqn:Hrec.
  - pose proof (reconciles_old _ _ _ _ _ Hrec Hk Hc) as Hle. by apply hlc_lt_not_le in Hlt.
  - by apply round_req_watermark.
Qed.

Lemma watermark_after_le peer rows pk old :
  default zeroHLC old ⪯ default zeroHLC (watermark_after peer rows pk old).
Proof.
  unfold watermark_after. destruct (bool_decide _); [|done]. destruct (filter _ rows) as [|r rs]; [done|].
  destruct old as [h|]; cbn [default]; [apply hlc_max_ub_l|apply foldl_max_ge].
Qed.

(** The rows of a round result, whatever its outcome. *)
Lemma round_result_rows peer tp w res w' :
  round_result peer tp w res w' →
  rows_untouched (w_db w) (w_db w') ∨ rows_applied peer tp (w_db w) (w_db w').
Proof. intros [_ Hres]. destruct res; tauto. Qed.

(** C38: A row stored below a watermark stays behind: when a peer holds a row at or below the
    watermark kept for it (for instance because the row's clock reading was taken before, and its
    write came after, a write that has been pulled) and also a row of the same kind after the
    watermark, then no round against it, successful or not, changes the first row locally, although
    a successful one accounts for the second; and the watermark does not go back, so this holds
    again as long as the peer has newer rows of the kind. *)
Theorem RoundOnce_leaves_behind peer nodeID tp w kk c kk' c' :
  answered_by peer nodeID tp → kk.1 ∈ Kinds →
  t_rows tp !! kk = Some c → cols_hlc c ⪯ watermark_of peer kk.1 (w_db w) →
  kk'.1 = kk.1 → t_rows tp !! kk' = Some c' → watermark_of peer kk.1 (w_db w) ≺ cols_hlc c' →
  wp (RoundOnce rpc peer) (λ res w',
    t_rows (w_db w') !! kk = t_rows (w_db w) !! kk ∧
    watermark_of peer kk.1 (w_db w) ⪯ watermark_of peer kk.1 (w_db w') ∧
    match res with
    | Ok _ => ∃ c2, t_rows (w_db w') !! kk' = Some c2 ∧ stamp_le (cols_stamp c') (cols_stamp c2)
    | Err e => round_error e
    | Panic => False
    end) w.
Proof.
  intros Hrpc Hk Hc Hle Hkk Hc' Hlt. eapply wp_mono; [by eapply wp_round_against|]. intros res w' Hres.
  rewrite <-Hkk in Hk, Hlt. pose proof (served_after_mark _ _ _ _ _ Hk Hc' Hlt) as Hsa.
  rewrite Hkk in Hk, Hlt, Hsa. split_and!.
  - destruct (round_result_rows _ _ _ _ _ Hres) as [[-> _]|(rows & Hs & -> & _)]; [done|].
    apply merge_rows_other. intros r Hr <-. apply Hs in Hr as (_ & Hsel & Hlt'). cbn [fst] in *.
    rewrite Hsa in Hlt'. apply (select_row_lookup (Kind r, Key r)) in Hsel as (c0 & Hc0 & Heq).
    simplify_eq. rewrite Heq, scanRow_hlc in Hlt'. by apply hlc_lt_not_le in Hlt'.
  - unfold watermark_of.
    destruct (round_result_rows _ _ _ _ _ Hres) as [[_ Hw]|(rows & _ & _ & Hw)];
      rewrite (Hw (peer, kk.1)) by done; [done|apply watermark_after_le].
  - destruct Hres as [_ Hres]. destruct res as [[]|e|]; [|by destruct Hres|done].
    destruct Hres as (Happ & _). eapply rows_applied_has; rewrite ?Hkk; [done..|by rewrite Hsa].
Qed.

(** A row that is missing locally comes in with exactly the contents the peer has. *)
Lemma rows_applied_new peer tp t t' kk c :
  rows_applied peer tp t t' → kk.1 ∈ Kinds → t_rows tp !! kk = Some c → flag_ok c →
  served_after (round_req peer t) tp kk.1 ≺ cols_hlc c → t_rows t !! kk = None →
  t_rows t' !! kk = Some c.
Proof.
  intros Happ Hk Hc Hf Hlt Hnone. destruct (rows_applied_has _ _ _ _ _ _ Happ Hk Hc Hlt) as (c2 & Hc2 & _).
  rewrite Hc2. destruct Happ as (rows & Hs & Hm & _). rewrite Hm in Hc2.
  apply merge_rows_origin in Hc2 as [?|(r & Hr & -> & ->)]; [congruence|].
  apply Hs in Hr as (_ & Hsel & _). apply (select_row_lookup (Kind r, Key r)) in Hsel as (c0 & Hc0 & Heq).
  cbn [fst] in *. rewrite Hc in Hc0. injection Hc0 as <-. f_equal. rewrite Heq. by apply cols_of_scan.
Qed.

End Rounds.

(** ** Tombstone collection by the engine *)

Section Collection.
Context `{E : Env, J : Json}.

(** C20: The engine's collection never fails and removes only tombstones that are more than an hour
    older than its clock: every live row and every younger tombstone survives, and unless the
    driver fails every older one is gone. *)
Theorem gcTombstones_grace w :
  wp gcTombstones (λ res w', res = Ok tt ∧
    let hour_ms := 3600000 in
    let bound := mkHLC (Z.max 0 (c_ts (w_clock w') - hour_ms)) 0 in
    (∀ kk c, t_rows (w_db w) !! kk = Some c →
       t_rows (w_db w') !! kk = Some c ∨ (col_tombstone c = 1 ∧ cols_hlc c ≺ bound)) ∧
    (∀ kk c, t_rows (w_db w') !! kk = Some c → t_rows (w_db w) !! kk = Some c) ∧
    (fault_free → ∀ kk c, t_rows (w_db w') !! kk = Some c → col_tombstone c = 1 →
       bound ⪯ cols_hlc c)) w.
Proof.
  cbv zeta. change 3600000 with grace. unfold gcTombstones. wp_step. apply wp_clock_Tick. intros n n'.
  pose proof (Tick_clock (env_now n) (w_clock w)) as Htick.
  destruct (Tick (env_now n) (w_clock w)) as [now clk]. simpl in Htick. subst now. wp_step. wp_step.
  replace (if TS (clock_hlc clk) >? grace then TS (clock_hlc clk) - grace else 0)
    with (Z.max 0 (c_ts clk - grace)).
  2:{ unfold clock_hlc. simpl. unfold grace. zcases; lia. }
  apply wp_GCTombstones; cbn [w_db w_clock].
  - intros m. wp_step. split; [done|]. cbn [w_db w_clock upd t_rows set_rows]. split_and!.
    + intros kk c Hc. rewrite gc_rows_lookup, Hc. destruct (gc_matches _ c) eqn:Hg; [|by left].
      right. by apply gc_matches_spec.
    + intros kk c. rewrite gc_rows_lookup. destruct (t_rows (w_db w) !! kk); [|done].
      by case_match.
    + intros _ kk c. rewrite gc_rows_lookup. destruct (t_rows (w_db w) !! kk) as [c'|]; [|done].
      destruct (gc_matches _ c') eqn:Hg; [done|]. intros [= ->] Ht.
      apply not_true_iff_false in Hg. destruct (hlc_le_lt_cases (mkHLC (0 `max` (c_ts clk - grace)) 0) (cols_hlc c)); [done|].
      destruct Hg. by apply gc_matches_spec.
  - intros e m He. wp_step. split; [done|]. cbn [w_db upd]. split_and!; [auto|auto|].
    intros Hf. by apply fault_free_no_error in He.
Qed.

Lemma wp_gcTombstones_gone kk cd w :
  fault_free → clock_ok (w_clock w) → tick_wraps (env_now (w_n w)) (w_clock w) = false →
  t_rows (w_db w) !! kk = Some cd → col_tombstone cd = 1 → col_hlc_ts cd + 3600000 < c_ts (w_clock w) →
  wp gcTombstones (λ res w', res = Ok tt ∧ t_rows (w_db w') !! kk = None ∧
    t_watermarks (w_db w') = t_watermarks (w_db w)) w.
Proof.
  intros Hff Hok Hw Hc Ht Hage. unfold gcTombstones. apply wp_tick. cbv zeta.
  pose proof (Tick_after _ _ Hok Hw) as Hlt. rewrite Tick_clock in Hlt.
  destruct (Tick (env_now (w_n w)) (w_clock w)) as [h clk]. cbn [snd] in *.
  assert (c_ts (w_clock w) ≤ c_ts clk) as Hts by (clear -Hlt; unfold clock_hlc, hlc_lt in Hlt; simpl in Hlt; lia).
  change grace with 3600000. wp_step. wp_step. apply wp_GCTombstones; cbn [w_db].
  2:{ intros e m He. by apply fault_free_no_error in He. }
  intros m. wp_step. split; [done|]. cbn [w_db upd t_rows set_rows t_watermarks]. split; [|done].
  rewrite gc_rows_lookup, Hc. replace (gc_matches _ cd) with true; [done|]. symmetry.
  apply gc_matches_spec. split; [done|]. left. unfold cols_hlc, clock_hlc. cbn [TS]. zcases; lia.
Qed.

(** C39: A collected deletion can be undone.  Let a node hold the tombstone of a row, more than an
    hour older than its clock, the deletion being newer than the versions others hold or not.  When no
    driver call fails, the engine's collection removes it, and the next successful round against a
    peer that still holds the row live, after the watermark kept for it, stores the row again as
    that live row. *)
Theorem collected_tombstone_undone (rpc : string → PullRequest → M PullResponse) peer nodeID tp w kk cd c :
  fault_free → answered_by rpc peer nodeID tp →
  clock_ok (w_clock w) → tick_wraps (env_now (w_n w)) (w_clock w) = false →
  t_rows (w_db w) !! kk = Some cd → col_tombstone cd = 1 → col_hlc_ts cd + 3600000 < c_ts (w_clock w) →
  kk.1 ∈ Kinds → t_rows tp !! kk = Some c → col_tombstone c = 0 →
  watermark_of peer kk.1 (w_db w) ≺ cols_hlc c →
  wp (_ ← gcTombstones; RoundOnce rpc peer) (λ res w',
    match res with
    | Ok _ => t_rows (w_db w') !! kk = Some c
    | Err e => round_error e
    | Panic => False
    end) w.
Proof.
  intros Hff Hrpc Hok Hw Hc Ht Hage Hk Htp Hlive Hlt. wp_step.
  eapply wp_mono; [by eapply wp_gcTombstones_gone|]. intros res w1 (-> & Hnone & Hmarks).
  assert (watermark_of peer kk.1 (w_db w1) ≺ cols_hlc c) as Hlt1 by (unfold watermark_of; by rewrite Hmarks).
  eapply wp_mono; [by eapply wp_round_against|]. intros [[]|e|] w2 [_ Hres]; [|by destruct Hres|done].
  destruct Hres as (Happ & _). eapply rows_applied_new; [done..|by left| |done].
  by rewrite (served_after_mark _ _ _ _ _ Hk Htp Hlt1).
Qed.

End Collection.
