(* ===== verification/Cluster.v ===== *)
(** * What a node does besides its rounds

    The writes of the program in the two parts the code has them: a goroutine reads the clock
    ([clock.Tick]), and a statement or transaction later stores what carries that reading.  The two
    parts are separate here; what happens between them is the business of the mesh.  Also the RPC
    to a peer in a given state, and what it means for two tables to hold the same versions. *)

From S2P Require Import Prelude Hlc Model Metrics World Store Lattice Lww StoreSpec StoreProps Tombstones Checksum EventLog JsonCodec Transport Sync SyncSpec SyncProps.
Local Open Scope Z_scope.

Implicit Types (t tp : tables) (kind key owner : string) (c : rowcols) (kk : string * string)
  (w : world) (h : HLC).

(** ** The RPC *)

(** The RPC to a peer in state [wp]: lost with an error, or the peer's [Pull]. *)
Definition call_peer `{J : Json} (EP : Env) (nodeID : string) (lost : option string) (wpeer : world) :
    string → PullRequest → M PullResponse :=
  λ _ req w,
    match lost with
    | Some e => (Err (ErrRpc e), w)
    | None => match (Server_Pull (E := EP) nodeID req wpeer).1 with
              | Ok resp => (Ok resp, w)
              | _ => (Err (ErrRpc "handler"), w)
              end
    end.

Lemma call_peer_answers `{J : Json} (EP : Env) nodeID lost wpeer peer :
  answered_by (call_peer EP nodeID lost wpeer) peer nodeID (w_db wpeer).
Proof.
  intros req w. unfold wp, call_peer. destruct lost as [e|]; [split; [done|by exists e]|].
  pose proof (wp_Server_Pull (E := EP) nodeID req
    (λ res _, match res with
              | Ok resp => pull_answer nodeID req (w_db wpeer) resp
              | _ => True end) wpeer) as Hpull.
  unfold wp in Hpull. destruct (Server_Pull nodeID req wpeer) as [[resp|e|] w2]; simpl in *;
    (split; [done|]); [by apply Hpull|by eexists|by eexists].
Qed.

(** ** Writes *)

Inductive write_op :=
| WPut (kind key owner : string) (tombstone : bool) (payload : string)
| WDelete (kind key owner : string)
| WDeparture (nodeID : string)
| WEvent (type runner : string) (payload : payload).

(** The second part of a write: what reaches the database under the reading [h] that the first
    part, [clock_Tick], returned. *)
Definition perform `{E : Env, J : Json} (h : HLC) (op : write_op) : M unit :=
  match op with
  | WPut kind key owner tomb payload => Put (mkRow kind key owner h tomb payload)
  | WDelete kind key owner => Delete kind key owner h
  | WDeparture nodeID => DeleteByNode nodeID h
  | WEvent type runner payload => AppendEvent (mkEvent 0 type runner payload h)
  end.

Definition hlc_ok (h : HLC) : Prop := in_i64 (TS h) ∧ in_i64 (Seq h).

Lemma hlc_ok_clock (clk : Clock) : hlc_ok (clock_hlc clk) ↔ clock_ok clk.
Proof. done. Qed.

(** The first part: the reading is past everything the clock showed before. *)
Lemma tick_effect `{E1 : Env} w r w' :
  clock_ok (w_clock w) → tick_wraps (env_now (w_n w)) (w_clock w) = false →
  clock_Tick w = (r, w') →
  w_db w' = w_db w ∧ clock_ok (w_clock w') ∧ r = Ok (clock_hlc (w_clock w')) ∧
  clock_hlc (w_clock w) ≺ clock_hlc (w_clock w').
Proof.
  intros Hok Hw. pose proof (Tick_after _ _ Hok Hw) as Hlt.
  pose proof (Tick_ok _ _ (env_now_i64 (w_n w)) Hok) as Hclk. pose proof (Tick_clock (env_now (w_n w)) (w_clock w)) as Hh.
  unfold clock_Tick, next, get, set_clock, mbind, M_bind, mret, M_ret.
  cbn [w_n w_clock w_db w_met upd]. destruct (Tick (env_now (w_n w)) (w_clock w)) as [h clk].
  cbn [fst snd] in *. subst h. intros [= <- <-]. by split_and!.
Qed.

Lemma clock_Tick_db `{E1 : Env} w r w' : clock_Tick w = (r, w') → w_db w' = w_db w.
Proof.
  unfold clock_Tick, next, get, set_clock, mbind, M_bind, mret, M_ret. cbn [w_n w_clock w_db w_met upd].
  destruct (Tick _ _). by intros [= _ <-].
Qed.

(** The second part: every version it put there carries the reading; nothing else moved. *)
Record put_effect h w w' : Prop := {
  pe_clock : w_clock w' = w_clock w;
  pe_marks : t_watermarks (w_db w') = t_watermarks (w_db w);
  pe_rows : ∀ kk c, t_rows (w_db w') !! kk = Some c →
    t_rows (w_db w) !! kk = Some c ∨ (cols_hlc c = h ∧ flag_ok c);
  pe_kept : ∀ kk c, t_rows (w_db w) !! kk = Some c → is_Some (t_rows (w_db w') !! kk);
  pe_events : ∀ x e, t_events (w_db w') !! x = Some e →
    t_events (w_db w) !! x = Some e ∨ mkHLC (ev_hlc_ts e) (ev_hlc_seq e) = h
}.

Lemma upsert_effect w n r : put_effect (RHLC r) w (upd w (upsertRowSQL r (w_db w)) n).
Proof.
  split; cbn [w_clock w_db upd upsertRowSQL set_rows t_rows t_events t_watermarks];
    [done|done| | |by left].
  - intros kk c. destruct (decide ((Kind r, Key r) = kk)) as [<-|Hne].
    + rewrite lookup_insert_eq. intros [= <-]. right. split; [by destruct r as [??? []]|apply flag_ok_of].
    + rewrite lookup_insert_ne by done. by left.
  - intros kk c Hc. destruct (decide ((Kind r, Key r) = kk)) as [<-|Hne].
    + rewrite lookup_insert_eq. eauto.
    + rewrite lookup_insert_ne by done. eauto.
Qed.

Lemma bury_effect w n h prefix :
  put_effect h w (upd w (set_rows (bury h prefix <$> t_rows (w_db w)) (w_db w)) n).
Proof.
  split; cbn [w_clock w_db upd set_rows t_rows t_events t_watermarks];
    [done|done| | |by left]; intros kk c; rewrite lookup_fmap.
  - destruct (t_rows (w_db w) !! kk) as [c0|]; [|done]. simpl. intros [= <-]. unfold bury.
    destruct (_ && _); [right|by left]. split; [by destruct h|by right].
  - intros ->. eauto.
Qed.

Lemma idle_effect w n h : put_effect h w (upd w (w_db w) n).
Proof. split; cbn; eauto. Qed.

Lemma event_effect w n h x e :
  mkHLC (ev_hlc_ts e) (ev_hlc_seq e) = h →
  put_effect h w (upd w (set_events (<[x := e]> (t_events (w_db w))) (w_db w)) n).
Proof.
  intros He. split; cbn [w_clock w_db upd set_events t_rows t_events t_watermarks]; eauto.
  intros y e'. destruct (decide (x = y)) as [<-|Hne].
  - rewrite lookup_insert_eq. intros [= <-]. by right.
  - rewrite lookup_insert_ne by done. by left.
Qed.

Lemma wp_AppendEvent_any `{Env, Json} e Q w :
  (∀ n x pl, marshal_payload (e_Payload e) = Some pl →
     Q (Ok tt) (upd w (set_events (<[x := event_cols e pl]> (t_events (w_db w))) (w_db w)) n)) →
  (∀ er n, Q (Err er) (upd w (w_db w) n)) →
  wp (AppendEvent e) Q w.
Proof.
  intros Hok Herr. unfold AppendEvent. destruct (marshal_payload _) as [pl|] eqn:Hpl.
  2:{ wp_step. specialize (Herr ErrJson (w_n w)). by destruct w. }
  apply wp_with_tx; [auto|]. intros n0. wp_step. wp_step; [|eauto 10]. wp_step.
  wp_step; [|eauto 10]. destruct (t_events (w_db w) !! _).
  - eexists _, _. split; [done|]. intros ?. apply Herr.
  - wp_step. eexists _, _. split; [done|]. intros ?. by apply Hok.
Qed.

Lemma wp_perform `{E1 : Env, J : Json} h op w : wp (perform h op) (λ _ w', put_effect h w w') w.
Proof.
  destruct op.
  - apply wp_Put; intros; [by apply (upsert_effect _ _ (mkRow _ _ _ h _ _))|apply idle_effect].
  - apply wp_Delete; intros; [|apply idle_effect].
    exact (upsert_effect w _ (delete_row kind key owner h (w_db w))).
  - apply wp_DeleteByNode; intros; [apply bury_effect|apply idle_effect].
  - apply wp_AppendEvent_any; intros; [|apply idle_effect]. apply event_effect. by destruct h.
Qed.

(** A write whose reading is past the stored rows replaces versions by newer ones only. *)
Lemma put_rows_le h w w' :
  (∀ kk c, t_rows (w_db w) !! kk = Some c → cols_hlc c ≺ h) →
  put_effect h w w' → rows_le (t_rows (w_db w)) (t_rows (w_db w')).
Proof.
  intros Hrows [_ _ Hr Hk _] kk c Hc. destruct (Hk kk c Hc) as [c' Hc'].
  exists c'. split; [done|]. destruct (Hr kk c' Hc') as [H|[H _]]; [simplify_eq; done|].
  left. unfold cols_stamp. simpl. rewrite H. by eapply Hrows.
Qed.

(** ** The same versions *)

(** Same replicated keys, and the same (HLC, owner) stamp under each.  The stamp does not determine
    the rest of a row: [DeleteByNode] keeps the owner, so a live row and a tombstone can carry the
    same stamp. *)
Definition same_stamps (m1 m2 : rows_map) : Prop :=
  ∀ kk, kk.1 ∈ Kinds → cols_stamp <$> m1 !! kk = cols_stamp <$> m2 !! kk.

Lemma kinds_le_same (m1 m2 : rows_map) : kinds_le m1 m2 → kinds_le m2 m1 → same_stamps m1 m2.
Proof.
  intros H12 H21 kk Hk. destruct (m1 !! kk) as [c1|] eqn:H1.
  - destruct (H12 kk c1 Hk H1) as (c2 & H2 & Hle). destruct (H21 kk c2 Hk H2) as (c1' & H1' & Hge).
    rewrite H2. simplify_eq. simpl. f_equal. by apply (anti_symm stamp_le).
  - destruct (m2 !! kk) as [c2|] eqn:H2; [|done].
    destruct (H21 kk c2 Hk H2) as (c1' & ? & _). congruence.
Qed.
