(* ===== verification/ClusterExamples.v ===== *)
(** * Runs of the model on concrete nodes

    Witnesses of the theorems about rounds, and the runs that show where replication stops short: a
    row relayed by a peer below its watermark, an event message without HLC. *)

From S2P Require Import Prelude Hlc Model Metrics World Store Lattice Lww StoreSpec StoreProps Tombstones Checksum EventLog JsonCodec Transport Sync SyncSpec SyncProps Cluster.
Local Open Scope Z_scope.

#[local] Existing Instance calm_env.
#[local] Existing Instance codec.

(** A world with the given rows, watermarks and clock. *)
Definition node_with (rows : list Row) (marks : list mark) (clk : Clock) : world :=
  World (mkTables (list_to_map ((λ r, ((Kind r, Key r), cols_of r)) <$> rows)) ∅ (list_to_map marks))
    clk zero_metrics 0.

(** The RPC to a reachable peer in state [w]. *)
Definition dial (nodeID : string) (w : world) : string → PullRequest → M PullResponse :=
  call_peer calm_env nodeID None w.

Definition ex_row (key owner : string) (ts : Z) (tomb : bool) : Row :=
  mkRow KindMeta key owner (mkHLC ts 0) tomb "p".

(** ** Rounds *)

Definition ex_peer : world := node_with [ex_row "x" "api/p" 7 false] [] (mkClock 7 0).
Definition ex_local : world := node_with [ex_row "y" "api/a" 5 false] [] (mkClock 5 0).

Lemma ex_no_mark_sound peer t tp :
  t_watermarks t = ∅ → (∀ kk c, t_rows tp !! kk = Some c → zeroHLC ≺ cols_hlc c) →
  watermark_sound peer t tp.
Proof.
  intros Hw Hpos kk c Hk Hc Hle. unfold watermark_of in Hle. rewrite Hw, lookup_empty in Hle.
  apply Hpos, hlc_lt_not_le in Hc. done.
Qed.

Lemma ex_peer_positive kk c : t_rows (w_db ex_peer) !! kk = Some c → zeroHLC ≺ cols_hlc c.
Proof.
  unfold ex_peer, node_with. simpl. intros [[_ <-]|[_ Hc]]%lookup_insert_Some; [|done].
  by left.
Qed.

(** The peer of the example with an event in its log as well. *)
Definition ex_peer_ev : world :=
  World (set_events {[("p"%string, 1) := mkEv EventRunnerJoined "null" 8 2]} (w_db ex_peer))
    (mkClock 8 2) zero_metrics 0.

Lemma RoundOnce_catches_up_witness :
  wp (RoundOnce (dial "p" ex_peer_ev) "p:1") (λ res w',
    watermark_sound "p:1" (w_db w') (w_db ex_peer_ev) ∧ event_mark_sound "p:1" (w_db w') (w_db ex_peer_ev) ∧
    rows_le (t_rows (w_db ex_local)) (t_rows (w_db w')) ∧
    (∀ x e, t_events (w_db ex_local) !! x = Some e → t_events (w_db w') !! x = Some e) ∧
    match res with
    | Ok _ => kinds_le (t_rows (w_db ex_peer_ev)) (t_rows (w_db w')) ∧
              (∀ x e, t_events (w_db ex_peer_ev) !! x = Some e → event_taken (w_db ex_local) (w_db w') x e) ∧
              clock_past_served "p:1" (w_db ex_peer_ev) (w_db ex_local) (w_clock w')
    | Err e => round_error e
    | Panic => False
    end) ex_local ∧
  (RoundOnce (dial "p" ex_peer_ev) "p:1" ex_local).1 = Ok tt ∧
  clock_hlc (w_clock (RoundOnce (dial "p" ex_peer_ev) "p:1" ex_local).2) = mkHLC 8 2.
Proof.
  split; [|split; vm_compute; reflexivity].
  apply (RoundOnce_catches_up (dial "p" ex_peer_ev) "p:1" "p" (w_db ex_peer_ev) ex_local).
  - apply call_peer_answers.
  - apply ex_no_mark_sound; [reflexivity|]. exact ex_peer_positive.
  - intros x e Hx. cbn [w_db ex_peer_ev t_events set_events] in Hx.
    apply lookup_singleton_Some in Hx as [_ <-]. vm_compute. intros [?|[? _]]; discriminate.
Defined.

(** The local watermark is past the peer's row, which is missing locally. *)
Definition ex_gap : world :=
  node_with [ex_row "y" "api/a" 5 false] [(("p:1"%string, KindMeta), mkHLC 9 0)] (mkClock 9 0).

Lemma RoundOnce_reconciles_witness :
  wp (RoundOnce (dial "p" ex_peer) "p:1") (λ res w',
    match res with
    | Ok _ => ∃ c2, t_rows (w_db w') !! (KindMeta, "x"%string) = Some c2 ∧
                stamp_le (mkHLC 7 0, "api/p"%string) (cols_stamp c2)
    | Err e => round_error e
    | Panic => False
    end) ex_gap ∧
  (RoundOnce (dial "p" ex_peer) "p:1" ex_gap).1 = Ok tt.
Proof.
  split; [|vm_compute; reflexivity].
  apply (RoundOnce_reconciles (dial "p" ex_peer) "p:1" "p" (w_db ex_peer) ex_gap
           (KindMeta, "x"%string) (mkCols "api/p" 7 0 0 "p")).
  - apply call_peer_answers.
  - right. by left.
  - vm_compute. reflexivity.
  - by left.
  - vm_compute. reflexivity.
  - vm_compute. congruence.
  - vm_compute. congruence.
Defined.

(** An answer with one row and one event that carries no HLC. *)
Definition ex_bad_resp : PullResponse :=
  mkPullResponse "p" [pb_of_row (ex_row "x" "api/p" 7 false)] ∅
    [mkPbEvent "p" 1 EventRunnerJoined "null" None] 0.

Lemma RoundOnce_only_adds_witness :
  wp (RoundOnce (λ _ _ w, (Ok ex_bad_resp, w)) "p:1") (λ res w', state_le ex_local w' ∧
    (res = Panic → Exists (λ ev, pe_Hlc ev = None) (rs_Events ex_bad_resp))) ex_local.
Proof.
  apply (RoundOnce_only_adds (λ _ _ w, (Ok ex_bad_resp, w)) "p:1" ex_bad_resp ex_local).
  intros req w. right. by split.
Defined.

(** Two peers, of which the second is unreachable. *)
Definition dial_one : string → PullRequest → M PullResponse :=
  λ p req, if bool_decide (p = "p:1"%string) then dial "p" ex_peer p req else throw (ErrRpc "down").

Lemma dial_one_answers p : answered_by dial_one p "p" (w_db ex_peer).
Proof.
  intros req w. unfold dial_one. case_bool_decide.
  - by apply (call_peer_answers calm_env "p" None ex_peer p req w).
  - split; [done|]. by eexists.
Qed.

Lemma roundAll_catches_up_witness :
  wp (roundAll dial_one ["q:1"; ""; "p:1"]%string) (λ res w', ∃ order errs w1 w2,
    order ≡ₚ ["q:1"; ""; "p:1"]%string ∧ same_state ex_local w1 ∧ rounds_run dial_one w1 order errs w2 ∧
    same_state w2 w' ∧ rounds_inv (λ _, w_db ex_peer) ["q:1"; ""; "p:1"]%string ex_local w' ∧
    succeeded_caught_up (λ _, w_db ex_peer) order errs w' ∧
    match res with
    | Ok _ => Forall (λ e, e = None) errs
    | Err e => round_error e ∧ ∃ before after, errs = before ++ Some e :: after ∧
                                          Forall (λ e, e = None) before
    | Panic => False
    end) ex_local ∧
  (roundAll dial_one ["q:1"; ""; "p:1"]%string ex_local).1 = Err (ErrRpc "down") ∧
  t_rows (w_db (roundAll dial_one ["q:1"; ""; "p:1"]%string ex_local).2) !! (KindMeta, "x"%string)
    = Some (mkCols "api/p" 7 0 0 "p").
Proof.
  split; [|split; vm_compute; reflexivity].
  apply (roundAll_catches_up dial_one (λ _, w_db ex_peer) ["q:1"; ""; "p:1"]%string ex_local).
  - intros p _ _. exists "p"%string. apply dial_one_answers.
  - intros p _ _. apply ex_no_mark_sound; [reflexivity|]. exact ex_peer_positive.
Defined.

(** A peer whose row "late" is below the watermark and whose row "new" is after it. *)
Definition ex_late : world :=
  node_with [ex_row "late" "api/p" 7 false; ex_row "new" "api/p" 12 false] [] (mkClock 12 0).

Lemma RoundOnce_leaves_behind_witness :
  wp (RoundOnce (dial "p" ex_late) "p:1") (λ res w',
    t_rows (w_db w') !! (KindMeta, "late"%string) = None ∧
    watermark_of "p:1" KindMeta (w_db ex_gap) ⪯ watermark_of "p:1" KindMeta (w_db w') ∧
    match res with
    | Ok _ => ∃ c2, t_rows (w_db w') !! (KindMeta, "new"%string) = Some c2 ∧
                stamp_le (mkHLC 12 0, "api/p"%string) (cols_stamp c2)
    | Err e => round_error e
    | Panic => False
    end) ex_gap ∧
  (RoundOnce (dial "p" ex_late) "p:1" ex_gap).1 = Ok tt.
Proof.
  split; [|vm_compute; reflexivity].
  apply (RoundOnce_leaves_behind (dial "p" ex_late) "p:1" "p" (w_db ex_late) ex_gap
           (KindMeta, "late"%string) (mkCols "api/p" 7 0 0 "p") (KindMeta, "new"%string) (mkCols "api/p" 12 0 0 "p")).
  - apply call_peer_answers.
  - right. by left.
  - vm_compute. reflexivity.
  - by left.
  - reflexivity.
  - vm_compute. reflexivity.
  - by left.
Defined.

(** A label deleted at 9 on a node whose clock has moved on by two hours; the peer, away meanwhile,
    still has the live label of time 7. *)
Definition ex_deleted : world :=
  node_with [ex_row "x" "api/a" 9 true; ex_row "y" "api/a" 5 false] [] (mkClock 7200000 0).

Lemma collected_tombstone_undone_witness :
  wp (_ ← gcTombstones; RoundOnce (dial "p" ex_peer) "p:1") (λ res w',
    match res with
    | Ok _ => t_rows (w_db w') !! (KindMeta, "x"%string) = Some (mkCols "api/p" 7 0 0 "p")
    | Err e => round_error e
    | Panic => False
    end) ex_deleted ∧
  (RoundOnce (dial "p" ex_peer) "p:1" (gcTombstones ex_deleted).2).1 = Ok tt.
Proof.
  split; [|vm_compute; reflexivity].
  apply (collected_tombstone_undone (dial "p" ex_peer) "p:1" "p" (w_db ex_peer) ex_deleted
           (KindMeta, "x"%string) (mkCols "api/a" 9 0 1 "p") (mkCols "api/p" 7 0 0 "p")).
  - intros n. reflexivity.
  - apply call_peer_answers.
  - vm_compute. split; split; discriminate.
  - vm_compute. reflexivity.
  - vm_compute. reflexivity.
  - reflexivity.
  - vm_compute. reflexivity.
  - right. by left.
  - vm_compute. reflexivity.
  - reflexivity.
  - by left.
Defined.

(** ** Where replication stops short *)

(** A peer's event that carries no HLC crashes the process: the row part of the same answer has
    been applied when the nil dereference panics. *)
Theorem RoundOnce_nil_hlc_panics :
  let run := RoundOnce (λ _ _ w, (Ok ex_bad_resp, w)) "p:1" ex_local in
  run.1 = Panic ∧
  t_rows (w_db run.2) !! (KindMeta, "x"%string) = Some (mkCols "api/p" 7 0 0 "p").
Proof. split; vm_compute; reflexivity. Qed.

(** A relayed row can stay behind for good: node b has a label tombstone of time 10, which a has
    pulled; then b learns from c of a live label of time 5.  Every further round of a against b
    succeeds without bringing the label, although the label checksums of a and b differ: the row
    is below a's watermark for b, and a's own checksum is 0, for which the server never
    reconciles. *)
Theorem relay_gap :
  let c := node_with [ex_row "y" "api/c" 5 false] [] (mkClock 5 0) in
  let b0 := node_with [ex_row "x" "api/b" 10 true] [] (mkClock 10 0) in
  let a0 := node_with [] [] NewClock in
  let a1 := (RoundOnce (dial "b" b0) "b:1" a0).2 in
  let b1 := (RoundOnce (dial "c" c) "c:1" b0).2 in
  let a2 := (RoundOnce (dial "b" b1) "b:1" a1).2 in
  (RoundOnce (dial "b" b1) "b:1" a1).1 = Ok tt ∧ w_db a2 = w_db a1 ∧
  t_rows (w_db b1) !! (KindMeta, "y"%string) = Some (mkCols "api/c" 5 0 0 "p") ∧
  t_rows (w_db a2) !! (KindMeta, "y"%string) = None ∧
  checksum_of KindMeta (w_db a2) ≠ checksum_of KindMeta (w_db b1).
Proof.
  cbv zeta. split_and!; [vm_compute; reflexivity..|]. vm_compute. discriminate.
Qed.

(** ** Store operations *)

Lemma Delete_replicates_witness :
  wp (_ ← Delete KindMeta "y" "api/a" (mkHLC 9 0); live ← List_ KindMeta (-1) 0 ∅ collect [];
      out ← ChangesSince KindMeta (mkHLC 8 3); mret (live, out))
     (returns (λ lo w', Forall (λ r, Key r ≠ "y"%string) lo.1 ∧
        delete_row KindMeta "y" "api/a" (mkHLC 9 0) (w_db ex_local) ∈ lo.2)) ex_local.
Proof.
  apply (Delete_replicates KindMeta "y" "api/a" (mkHLC 9 0) (mkHLC 8 3) ex_local).
  left. simpl. lia.
Defined.

Lemma AppendEvent_contiguous_witness :
  let e := mkEvent 0 EventRunnerJoined "a" None (mkHLC 9 0) in
  wp (AppendEvent e) (λ res w',
    match res with
    | Ok _ => w_db w' = set_events (<[("a"%string, 0 + 1) := event_cols e "null"]>
                                      (t_events (w_db ex_local))) (w_db ex_local) ∧
              log_contiguous "a" (0 + 1) (w_db w')
    | Err er => db_error er ∧ w_db w' = w_db ex_local
    | Panic => False
    end) ex_local ∧
  (AppendEvent e ex_local).1 = Ok tt.
Proof.
  intros e. split; [|vm_compute; reflexivity].
  apply (AppendEvent_contiguous e "null" 0 ex_local).
  - reflexivity.
  - unfold max_i64. lia.
  - intros s. split; [by intros [? ?]|]. simpl. lia.
Defined.
