(* ===== verification/Mesh.v ===== *)
(** * Any number of nodes, with writes and rounds in progress

    The cluster as a transition system in which neither a write nor a sync round is one step.  A
    goroutine reads the clock and stores the row later, under that reading; a node builds its
    request, the peer answers it in whatever state it is by then, the node applies the answer later
    still; meanwhile every node goes on, other writes and rounds start, and messages are lost.  A
    row reaches a node through any chain of peers.  The labels of a run record the readings taken
    and the versions every write put into its node's table.

    A watermark then does not cover everything a peer holds (a peer can relay an old row of a third
    node after its watermark has passed it), but it covers everything the peer has written itself,
    as long as no database of a node changes between the reading and the storing of one of its
    writes ([on_time]).  That is the invariant, and it is enough: once the writes stop, a round
    between every pair makes all nodes agree.  What happens otherwise is in [SyncProps] (a row
    stored below a watermark) and [MeshExamples]. *)

From S2P Require Import Prelude Hlc Model Metrics World Store Lattice Lww StoreSpec StoreProps Tombstones Checksum EventLog JsonCodec Transport Sync SyncSpec SyncProps Cluster.
Local Open Scope Z_scope.

Implicit Types (t tp : tables) (kind key : string) (c : rowcols) (kk : string * string)
  (w : world) (h : HLC) (st : stamp) (rows : list Row).

(** ** A round in its three parts *)

Section Parts.
Context `{E : Env, J : Json}.

(** [RoundOnce] up to the call of [Pull]: the request, and the event watermark it keeps. *)
Definition round_begin (peer : string) : M (PullRequest * HLC) :=
  wc ← round_kinds peer Kinds (∅, ∅);
  evWm ← Watermark peer KindEvent;
  evChk ← ChecksumEvents;
  mret (pull_request wc.1 wc.2 evWm evChk, evWm).

(** [RoundOnce] from the response on. *)
Definition round_finish (peer : string) (evWm : HLC) (resp : PullResponse) : M unit :=
  _ ← apply_pulled_rows peer (rs_Rows resp);
  apply_pulled_events peer evWm (rs_Events resp).

Lemma RoundOnce_parts rpc peer w :
  RoundOnce rpc peer w =
  (x ← round_begin peer; resp ← rpc peer x.1; round_finish peer x.2 resp) w.
Proof.
  unfold RoundOnce, round_begin, round_finish, mbind, M_bind, mret, M_ret.
  destruct (round_kinds _ _ _ w) as [[wc|e|] w1]; [|done..].
  destruct (Watermark _ _ w1) as [[evWm|e|] w2]; [|done..].
  by destruct (ChecksumEvents w2) as [[chk|e|] w3].
Qed.

Lemma wp_round_begin peer Q w :
  (∀ n, Q (Ok (round_req peer (w_db w), watermark_of peer KindEvent (w_db w))) (upd w (w_db w) n)) →
  (∀ e n, Q (Err e) (upd w (w_db w) n)) →
  wp (round_begin peer) Q w.
Proof.
  intros Hok Herr. unfold round_begin.
  apply (wp_round_request (λ wc evWm evChk, mret (pull_request wc.1 wc.2 evWm evChk, evWm)));
    [|by intros; apply Herr].
  intros n. apply wp_ret, Hok.
Qed.

(** What applying an answer does to the rows, their watermarks and the clock, as long as every HLC
    involved is well formed. *)
Record finish_effect (peer : string) rows w w' : Prop := {
  fe_rows : t_rows (w_db w') = merge_rows rows (t_rows (w_db w));
  fe_marks : ∀ pk, pk.2 ∈ Kinds →
    t_watermarks (w_db w') !! pk = watermark_after peer rows pk (t_watermarks (w_db w) !! pk);
  fe_clock : clock_hlc (w_clock w) ⪯ clock_hlc (w_clock w');
  fe_past : Forall (λ r, RHLC r ⪯ clock_hlc (w_clock w')) rows;
  fe_hlcs : all_hlcs hlc_ok (w_db w');
  fe_clock_ok : clock_ok (w_clock w')
}.

Definition events_ok (resp : PullResponse) : Prop :=
  ∀ es, mapM event_of_pb (rs_Events resp) = Some es → Forall (λ e, hlc_ok (e_HLC e)) es.

Lemma put_entries_ok (es : list Event) (us : list ev_up) (log : ev_map) :
  mapM event_entry es = Some us → Forall (λ e, hlc_ok (e_HLC e)) es →
  (∀ x e, log !! x = Some e → hlc_ok (mkHLC (ev_hlc_ts e) (ev_hlc_seq e))) →
  ∀ x e, put_all us log !! x = Some e → hlc_ok (mkHLC (ev_hlc_ts e) (ev_hlc_seq e)).
Proof.
  intros Hus Hes Hlog x e He. apply put_events_origin in He as [?|Hu]; [by eapply Hlog|].
  apply mapM_Some_1 in Hus. apply list_elem_of_lookup in Hu as [k Hu].
  destruct (Forall2_lookup_r _ _ _ _ _ Hus Hu) as (e0 & He0 & Hent).
  apply event_entry_fields in Hent as (_ & Heq & _). unfold cols_ev_hlc in Heq. simpl in Heq. rewrite Heq.
  by apply (Forall_lookup_1 _ _ _ _ Hes He0).
Qed.

(** The row stage of [round_finish]. *)
Lemma finish_rows peer rows w clk m n :
  Forall (λ r, hlc_ok (RHLC r)) rows → all_hlcs hlc_ok (w_db w) → clock_ok (w_clock w) →
  Forall (λ r, RHLC r ⪯ clock_hlc clk) rows → clock_hlc (w_clock w) ⪯ clock_hlc clk →
  (∀ P : HLC → Prop, P (clock_hlc (w_clock w)) → P zeroHLC → Forall (λ r, P (RHLC r)) rows →
     P (clock_hlc clk)) →
  finish_effect peer rows w (World (apply_remote_spec peer rows (w_db w)) clk m n).
Proof.
  intros Hrows Hdb Hok Hpast Hle Hfrom. split; cbn [w_db w_clock].
  - done.
  - intros pk _. apply apply_remote_watermark.
  - done.
  - done.
  - apply merged_hlcs; [done|done|apply Hdb].
  - by apply hlc_ok_clock, (Hfrom hlc_ok), Hrows.
Qed.

(** The event stage touches neither the rows nor their watermarks. *)
Lemma finish_events peer rows w w1 db clk m n (us : list ev_up) (es : list Event) :
  finish_effect peer rows w w1 → t_rows db = t_rows (w_db w1) →
  (∀ pk, pk.2 ∈ Kinds → t_watermarks db !! pk = t_watermarks (w_db w1) !! pk) →
  t_events db = put_all us (t_events (w_db w1)) → mapM event_entry es = Some us →
  Forall (λ e, hlc_ok (e_HLC e)) es → clock_hlc (w_clock w1) ⪯ clock_hlc clk → clock_ok clk →
  finish_effect peer rows w (World db clk m n).
Proof.
  intros [F1 F2 F3 F4 F5 F6] Hr Hm He Hus Hes Hle Hok. split; cbn [w_db w_clock].
  - by rewrite Hr.
  - intros pk Hpk. rewrite Hm by done. auto.
  - by etrans.
  - eapply Forall_impl; [exact F4|]. intros r Hr1. simpl in *. by etrans.
  - destruct F5 as [F5 F5']. split; [by rewrite Hr|]. rewrite He. by eapply put_entries_ok.
  - done.
Qed.

Lemma wp_round_finish peer evWm resp w :
  Forall (λ r, hlc_ok (RHLC r)) (resp_rows resp) → events_ok resp →
  all_hlcs hlc_ok (w_db w) → clock_ok (w_clock w) →
  wp (round_finish peer evWm resp) (λ res w',
    finish_effect peer (resp_rows resp) w w' ∨ same_state w w' ∧ res ≠ Ok tt) w.
Proof.
  intros Hrows Hevs Hdb Hok. unfold round_finish. wp_step. apply wp_apply_pulled_rows.
  2:{ intros e n _. by right. }
  intros m n clk Hpast Hle Hfrom. fold (resp_rows resp) in *.
  pose proof (finish_rows peer _ w clk m n Hrows Hdb Hok Hpast Hle Hfrom) as Heff.
  set (w1 := World (apply_remote_spec peer (resp_rows resp) (w_db w)) clk m n) in *.
  apply wp_apply_pulled_events.
  - by left.
  - intros m' n' es us clk' _ Hes Hus _ Hle' Hfrom'. left.
    eapply (finish_events peer _ w w1 _ clk' m' n' us es Heff).
    + by rewrite event_mark_rows.
    + intros pk Hpk. by rewrite (event_mark_other _ _ _ pk Hpk).
    + by rewrite event_mark_events.
    + done.
    + by apply Hevs.
    + exact Hle'.
    + apply hlc_ok_clock, (Hfrom' hlc_ok); [apply (fe_clock_ok _ _ _ _ Heff)|done|by apply Hevs].
  - intros e db m' n' _ [->|(es & us & Hes & Hus & ->)]; left.
    + by destruct Heff.
    + eapply (finish_events peer _ w w1 _ clk m' n' us es Heff); [done..|by apply Hevs|done|].
      apply (fe_clock_ok _ _ _ _ Heff).
  - intros _. by left.
Qed.

End Parts.

(** ** The system *)

(** The rows of [new] that [old] does not have: what a statement has put there. *)
Definition changed (old new : rows_map) : list ((string * string) * rowcols) :=
  filter (λ p, old !! p.1 ≠ Some p.2) (map_to_list new).

Lemma elem_of_changed (old new : rows_map) kk c :
  (kk, c) ∈ changed old new ↔ new !! kk = Some c ∧ old !! kk ≠ Some c.
Proof. unfold changed. rewrite list_elem_of_filter, elem_of_map_to_list. simpl. tauto. Qed.

Section System.
Context `{J : Json} {I : Type} `{EqDecision I}.
Context (E : I → Env) (addr : I → string).

(** A round between its parts: [i] has asked [j], or [j] has answered. *)
Inductive flight :=
| Asked (i j : I) (req : PullRequest) (evWm : HLC)
| Answered (i j : I) (evWm : HLC) (resp : PullResponse).

(** The nodes, the clock readings whose writes are still to come, the rounds in flight. *)
Record mesh := mkMesh { nodes : I → world; pending : I → list HLC; flights : list flight }.

Inductive label :=
| LTick (i : I) (h : HLC)
| LPut (i : I) (h : HLC) (vs : list ((string * string) * rowcols))
| LBegin (i j : I) | LServe (j : I) | LDone (i j : I) (ok : bool) | LLost | LIdle (i : I).

#[export] Instance label_eq_dec : EqDecision label.
Proof. solve_decision. Defined.

Inductive mstep : mesh → label → mesh → Prop :=
| ms_tick i h s pd fl w' :
    tick_wraps (env_now (Env := E i) (w_n (s i))) (w_clock (s i)) = false →
    clock_Tick (E := E i) (s i) = (Ok h, w') →
    mstep (mkMesh s pd fl) (LTick i h) (mkMesh (<[i := w']> s) (<[i := h :: pd i]> pd) fl)
| ms_put i h op s pd p1 p2 fl r w' :
    pd i = p1 ++ h :: p2 →
    perform (E := E i) h op (s i) = (r, w') →
    mstep (mkMesh s pd fl) (LPut i h (changed (t_rows (w_db (s i))) (t_rows (w_db w'))))
          (mkMesh (<[i := w']> s) (<[i := p1 ++ p2]> pd) fl)
| ms_begin i j s pd fl req evWm w' :
    i ≠ j → round_begin (E := E i) (addr j) (s i) = (Ok (req, evWm), w') →
    mstep (mkMesh s pd fl) (LBegin i j) (mkMesh (<[i := w']> s) pd (Asked i j req evWm :: fl))
| ms_serve i j req evWm s pd fl1 fl2 resp w' :
    Server_Pull (E := E j) (addr j) req (s j) = (Ok resp, w') →
    mstep (mkMesh s pd (fl1 ++ Asked i j req evWm :: fl2)) (LServe j)
          (mkMesh (<[j := w']> s) pd (fl1 ++ Answered i j evWm resp :: fl2))
| ms_finish i j evWm resp s pd fl1 fl2 r w' :
    round_finish (E := E i) (addr j) evWm resp (s i) = (r, w') →
    mstep (mkMesh s pd (fl1 ++ Answered i j evWm resp :: fl2)) (LDone i j (is_ok r))
          (mkMesh (<[i := w']> s) pd (fl1 ++ fl2))
| ms_lost f s pd fl1 fl2 :
    mstep (mkMesh s pd (fl1 ++ f :: fl2)) LLost (mkMesh s pd (fl1 ++ fl2))
| ms_idle i s pd fl w' :
    same_state (s i) w' → mstep (mkMesh s pd fl) (LIdle i) (mkMesh (<[i := w']> s) pd fl).

(** Runs with their labels. *)
Inductive mrun : mesh → list label → mesh → Prop :=
| mrun_nil s : mrun s [] s
| mrun_cons s l s' ls s'' : mstep s l s' → mrun s' ls s'' → mrun s (l :: ls) s''.

Definition mesh_fresh : mesh :=
  mkMesh (λ _, World empty_tables NewClock zero_metrics 0) (λ _, []) [].

(** No write reaches a database; clocks may still be read. *)
Definition quiet (l : label) : Prop := match l with LPut _ _ _ => False | _ => True end.

#[export] Instance quiet_dec l : Decision (quiet l).
Proof. destruct l; apply _. Defined.

(** Node [j] put the version [c] of the row [kk] into its table. *)
Definition wrote (ls : list label) (j : I) kk c : Prop :=
  ∃ h vs, LPut j h vs ∈ ls ∧ (kk, c) ∈ vs.

(** The step changes the database of [i]: a write or an answer reaches it. *)
Definition touches (i : I) (l : label) : bool :=
  match l with LPut j _ _ | LDone j _ _ => bool_decide (i = j) | _ => false end.

(** In the steps so far, the newest first: node [i] has read [h] and its database has not changed
    since. *)
Fixpoint ready (past : list label) (i : I) (h : HLC) : bool :=
  match past with
  | [] => false
  | l :: past =>
      bool_decide (l = LTick i h) || (negb (touches i l) && ready past i h)
  end.

(** Every write of the run reaches a database that has not changed since the write's reading of
    the clock. *)
Fixpoint on_time (past ls : list label) : bool :=
  match ls with
  | [] => true
  | l :: ls =>
      match l with LPut i h _ => ready past i h | _ => true end && on_time (l :: past) ls
  end.

(** No two nodes gave one version of the row, the same (HLC, owner), different contents. *)
Definition unambiguous (ls : list label) kk : Prop :=
  ∀ i j c1 c2, i ≠ j → wrote ls i kk c1 → wrote ls j kk c2 → cols_stamp c1 = cols_stamp c2 → c1 = c2.

(** ** The invariant *)

(** [W j kk c]: node [j] has written the version [c] of the row [kk]. *)
Implicit Types (W : I → string * string → rowcols → Prop) (s : I → world) (pd : I → list HLC)
  (ls past : list label).

(** The node accounts for a version: it holds that one or a newer one. *)
Definition acc w kk st : Prop :=
  ∃ c, t_rows (w_db w) !! kk = Some c ∧ stamp_le st (cols_stamp c).

Record node_ok w : Prop := {
  no_clock : clock_ok (w_clock w);
  no_zero : zeroHLC ⪯ clock_hlc (w_clock w);
  no_hlcs : all_hlcs hlc_ok (w_db w);
  no_rows : ∀ kk c, t_rows (w_db w) !! kk = Some c → cols_hlc c ⪯ clock_hlc (w_clock w);
  no_flags : ∀ kk c, t_rows (w_db w) !! kk = Some c → flag_ok c
}.

(** A reading past everything stored on the node. *)
Definition past_rows w h : Prop :=
  zeroHLC ≺ h ∧ ∀ kk c, t_rows (w_db w) !! kk = Some c → cols_hlc c ≺ h.

(** An HLC that some stored row of the node has reached. *)
Definition reached w h : Prop :=
  h ⪯ zeroHLC ∨ ∃ kk c, t_rows (w_db w) !! kk = Some c ∧ h ⪯ cols_hlc c.

(** Up to [bound] (one HLC per kind), node [i] accounts for everything [j] has written, and [j] has
    rows as new as that. *)
Definition covers W s (i j : I) (bound : string → HLC) : Prop :=
  ∀ kind, kind ∈ Kinds → reached (s j) (bound kind) ∧
    ∀ kk c, kk.1 = kind → W j kk c → cols_hlc c ⪯ bound kind → acc (s i) kk (cols_stamp c).

Definition in_answer (resp : PullResponse) kk st : Prop :=
  ∃ r, r ∈ resp_rows resp ∧ (Kind r, Key r) = kk ∧ stamp_le st (row_stamp r).

Record answer_ok W s (i j : I) (resp : PullResponse) : Prop := {
  ao_rows : ∀ r, r ∈ resp_rows resp → Kind r ∈ Kinds ∧ hlc_ok (RHLC r) ∧
    reached (s j) (RHLC r) ∧ ∃ k, W k (Kind r, Key r) (cols_of r);
  ao_events : events_ok resp;
  ao_cover : ∀ kk c r, W j kk c → r ∈ resp_rows resp → Kind r = kk.1 → cols_hlc c ⪯ RHLC r →
    acc (s i) kk (cols_stamp c) ∨ in_answer resp kk (cols_stamp c)
}.

Definition flight_ok W s (f : flight) : Prop :=
  match f with
  | Asked i j req _ => i ≠ j ∧ covers W s i j (req_watermark req)
  | Answered i j _ resp => i ≠ j ∧ answer_ok W s i j resp
  end.

Definition marks s (i j : I) (kind : string) : HLC := watermark_of (addr j) kind (w_db (s i)).

Record mesh_inv W (m : mesh) : Prop := {
  mi_node : ∀ i, node_ok (nodes m i);
  mi_from : ∀ i kk c, t_rows (w_db (nodes m i)) !! kk = Some c → ∃ j, W j kk c;
  mi_own : ∀ j kk c, W j kk c → zeroHLC ≺ cols_hlc c ∧ acc (nodes m j) kk (cols_stamp c);
  mi_once : ∀ j kk c1 c2, W j kk c1 → W j kk c2 → cols_hlc c1 = cols_hlc c2 → c1 = c2;
  mi_marks : ∀ i j, i ≠ j → covers W (nodes m) i j (marks (nodes m) i j);
  mi_flights : Forall (flight_ok W (nodes m)) (flights m)
}.

(** The readings whose writes may still come in time. *)
Definition readings_ok past (m : mesh) : Prop :=
  ∀ i h, ready past i h = true →
    past_rows (nodes m i) h ∧ h ⪯ clock_hlc (w_clock (nodes m i)) ∧ hlc_ok h.

(** ** Growth *)

(** The nodes moved on, and what was written since is past the rows of before. *)
Record grows W s W' s' : Prop := {
  gr_rows : ∀ i, rows_le (t_rows (w_db (s i))) (t_rows (w_db (s' i)));
  gr_old : ∀ j kk c, W j kk c → W' j kk c;
  gr_new : ∀ j kk c, W' j kk c → W j kk c ∨ past_rows (s j) (cols_hlc c)
}.

Lemma acc_mono w w' kk st :
  acc w kk st → rows_le (t_rows (w_db w)) (t_rows (w_db w')) → acc w' kk st.
Proof.
  intros (c & Hc & Hst) Hle. destruct (Hle kk c Hc) as (c' & Hc' & ?).
  exists c'. split; [done|]. by etrans.
Qed.

Lemma stamp_le_hlc (st1 st2 : stamp) : stamp_le st1 st2 → st1.1 ⪯ st2.1.
Proof. intros [H|[H _]]; [by apply hlc_lt_le|by rewrite H]. Qed.

Lemma reached_mono w w' h :
  reached w h → rows_le (t_rows (w_db w)) (t_rows (w_db w')) → reached w' h.
Proof.
  intros [?|(kk & c & Hc & Hh)] Hle; [by left|]. destruct (Hle kk c Hc) as (c' & Hc' & Hst).
  right. exists kk, c'. split; [done|]. etrans; [exact Hh|exact (stamp_le_hlc _ _ Hst)].
Qed.

(** A reading past the rows is past what they have reached. *)
Lemma reached_past w b h : reached w b → past_rows w h → ¬ h ⪯ b.
Proof.
  intros Hb [Hz Hrows] Hle. apply (hlc_lt_irrefl h). eapply hlc_le_lt_trans; [exact Hle|].
  destruct Hb as [Hb|(kk & c & Hc & Hb)]; (eapply hlc_le_lt_trans; [exact Hb|]); [done|by eapply Hrows].
Qed.

Lemma reached_clock w h : node_ok w → reached w h → h ⪯ clock_hlc (w_clock w).
Proof.
  intros Hw [?|(kk & c & Hc & ?)]; [etrans; [done|apply Hw]|].
  etrans; [done|]. by eapply (no_rows _ Hw).
Qed.

Lemma covers_grows W s W' s' i j bound :
  grows W s W' s' → covers W s i j bound → covers W' s' i j bound.
Proof.
  intros [Hr Ho Hn] Hcov kind Hk. destruct (Hcov kind Hk) as [Hb Hacc].
  split; [by eapply reached_mono|]. intros kk c Hkk HW Hle. destruct (Hn j kk c HW) as [HW0|Hlt].
  - eapply acc_mono; [by eapply Hacc|done].
  - by destruct (reached_past _ _ _ Hb Hlt).
Qed.

Lemma answer_grows W s W' s' i j resp :
  grows W s W' s' → answer_ok W s i j resp → answer_ok W' s' i j resp.
Proof.
  intros [Hr Ho Hn] [Ar Ae Ac]. split.
  - intros r Hin. destruct (Ar r Hin) as (? & ? & ? & k & ?).
    split_and!; [done|done|by eapply reached_mono|eauto].
  - done.
  - intros kk c r HW Hin Hk Hle. destruct (Hn j kk c HW) as [HW0|Hlt].
    + destruct (Ac kk c r HW0 Hin Hk Hle) as [Ha|?]; [left|by right]. by eapply acc_mono.
    + destruct (Ar r Hin) as (_ & _ & Hrc & _). by destruct (reached_past _ _ _ Hrc Hlt).
Qed.

Lemma flight_grows W s W' s' f : grows W s W' s' → flight_ok W s f → flight_ok W' s' f.
Proof.
  intros Hg. destruct f; intros [??]; split; [done|by eapply covers_grows|done|by eapply answer_grows].
Qed.

Lemma same_grows W s s' : (∀ i, w_db (s' i) = w_db (s i)) → grows W s W s'.
Proof. intros Hs. split; [intros i; by rewrite Hs|auto|auto]. Qed.

Lemma insert_cases (s : I → world) i w' (P : I → world → world → Prop) :
  P i (s i) w' → (∀ j, j ≠ i → P j (s j) (s j)) → ∀ j, P j (s j) ((<[i := w']> s) j).
Proof.
  intros Hi Hj j. destruct (decide (i = j)) as [<-|Hne].
  - by rewrite fn_lookup_insert.
  - rewrite fn_lookup_insert_ne by done. by apply Hj.
Qed.

(** The tables stay, a clock may advance. *)
Definition moves w w' : Prop :=
  w_db w' = w_db w ∧ clock_ok (w_clock w') ∧ clock_hlc (w_clock w) ⪯ clock_hlc (w_clock w').

Lemma same_moves w w' : node_ok w → same_state w w' → moves w w'.
Proof. intros [? _ _ _ _] [Hd Hc]. unfold moves. by rewrite Hc, Hd. Qed.

Lemma moves_refl w : node_ok w → moves w w.
Proof. intros [? _ _ _ _]. by split_and!. Qed.

Lemma moves_insert W m i w' :
  mesh_inv W m → moves (nodes m i) w' → ∀ j, moves (nodes m j) ((<[i := w']> (nodes m)) j).
Proof.
  intros Hinv Hm. apply (insert_cases (nodes m) i w' (λ _, moves)); [done|].
  intros j _. apply moves_refl, Hinv.
Qed.

Lemma moves_node_ok w w' : moves w w' → node_ok w → node_ok w'.
Proof.
  intros (Hd & Hc & Hle) [C Z H R F]. split; rewrite ?Hd; [done|by etrans|done| |done].
  intros kk c Hkc. etrans; [by eapply R|done].
Qed.

(** A step that changes no table. *)
Lemma moves_inv W m s' pd' fl' :
  mesh_inv W m → (∀ i, moves (nodes m i) (s' i)) →
  Forall (flight_ok W (nodes m)) fl' →
  mesh_inv W (mkMesh s' pd' fl') ∧ grows W (nodes m) W s'.
Proof.
  intros [Mn Mf Mo M1 Mm Mfl] Hs Hfl.
  assert (∀ i, w_db (s' i) = w_db (nodes m i)) as Hd by (intros i; apply Hs).
  pose proof (same_grows W _ _ Hd) as Hg. split; [|done]. split; cbn [nodes flights].
  - intros i. by eapply moves_node_ok.
  - intros i. rewrite Hd. apply Mf.
  - intros j kk c HW. destruct (Mo j kk c HW) as [? Ha]. split; [done|].
    eapply acc_mono; [done|apply Hg].
  - done.
  - intros i j Hne. unfold marks. rewrite Hd. by eapply covers_grows, Mm.
  - eapply Forall_impl; [exact Hfl|]. intros f. by apply flight_grows.
Qed.

(** ** Writes *)

(** The history once [i] has gone from [w] to [w']. *)
Definition written W (i : I) w w' : I → string * string → rowcols → Prop := λ j kk c,
  W j kk c ∨ (j = i ∧ (kk, c) ∈ changed (t_rows (w_db w)) (t_rows (w_db w'))).

Lemma changed_hlc h w w' kk c :
  put_effect h w w' → (kk, c) ∈ changed (t_rows (w_db w)) (t_rows (w_db w')) →
  t_rows (w_db w') !! kk = Some c ∧ cols_hlc c = h.
Proof.
  intros Pe [Hc Hne]%elem_of_changed. split; [done|].
  by destruct (pe_rows _ _ _ Pe kk c Hc) as [?|[? _]].
Qed.

Lemma put_grows W s i h w' :
  past_rows (s i) h → put_effect h (s i) w' → grows W s (written W i (s i) w') (<[i := w']> s).
Proof.
  intros Hpast Pe. split.
  - apply (insert_cases s i w' (λ _ w w', rows_le (t_rows (w_db w)) (t_rows (w_db w')))); [|done].
    by eapply put_rows_le, Pe; apply Hpast.
  - by left.
  - intros j kk c [?|[-> Hc]]; [by left|right].
    by destruct (changed_hlc _ _ _ _ _ Pe Hc) as [_ ->].
Qed.

Lemma put_node_ok h w w' :
  node_ok w → h ⪯ clock_hlc (w_clock w) → hlc_ok h → put_effect h w w' → node_ok w'.
Proof.
  intros [C Z H R F] Hle Hok [Hc Hm Hr Hk He]. split; rewrite ?Hc; [done|done| | |].
  - split.
    + intros kk c Hkc. destruct (Hr kk c Hkc) as [?|[-> _]]; [by eapply H|done].
    + intros x e Hx. destruct (He x e Hx) as [?| ->]; [by eapply H|done].
  - intros kk c Hkc. destruct (Hr kk c Hkc) as [?|[-> _]]; [by eapply R|done].
  - intros kk c Hkc. destruct (Hr kk c Hkc) as [?|[_ ?]]; [by eapply F|done].
Qed.

(** What the node had written before is older. *)
Lemma own_older W m i h kk c :
  mesh_inv W m → past_rows (nodes m i) h → W i kk c → cols_hlc c ≺ h.
Proof.
  intros Hinv [_ Hpast] HW. destruct (mi_own _ _ Hinv i kk c HW) as [_ (c' & Hc' & Hst)].
  eapply hlc_le_lt_trans; [exact (stamp_le_hlc _ _ Hst)|]. by eapply Hpast.
Qed.

Lemma put_once W m i h w' j kk c1 c2 :
  mesh_inv W m → past_rows (nodes m i) h → put_effect h (nodes m i) w' →
  written W i (nodes m i) w' j kk c1 → written W i (nodes m i) w' j kk c2 →
  cols_hlc c1 = cols_hlc c2 → c1 = c2.
Proof.
  intros Hinv Hpast Pe H1 H2 Heq.
  destruct H1 as [H1|[-> H1]], H2 as [H2|[Hj H2]]; subst.
  - by eapply (mi_once _ _ Hinv).
  - destruct (changed_hlc _ _ _ _ _ Pe H2) as [_ Hh]. pose proof (own_older _ _ _ _ _ _ Hinv Hpast H1) as Hlt.
    rewrite Heq, Hh in Hlt. by apply hlc_lt_irrefl in Hlt.
  - destruct (changed_hlc _ _ _ _ _ Pe H1) as [_ Hh]. pose proof (own_older _ _ _ _ _ _ Hinv Hpast H2) as Hlt.
    rewrite <-Heq, Hh in Hlt. by apply hlc_lt_irrefl in Hlt.
  - destruct (changed_hlc _ _ _ _ _ Pe H1) as [E1 _], (changed_hlc _ _ _ _ _ Pe H2) as [E2 _].
    congruence.
Qed.

Lemma put_inv W s pd pd' fl i h w' :
  mesh_inv W (mkMesh s pd fl) → past_rows (s i) h → h ⪯ clock_hlc (w_clock (s i)) → hlc_ok h →
  put_effect h (s i) w' →
  mesh_inv (written W i (s i) w') (mkMesh (<[i := w']> s) pd' fl).
Proof.
  intros Hinv Hpast Hle Hok Pe. pose proof (put_grows W s i h w' Hpast Pe) as Hg.
  pose proof (λ j kk c1 c2, put_once W (mkMesh s pd fl) i h w' j kk c1 c2 Hinv Hpast Pe) as Honce.
  destruct Hinv as [Mn Mf Mo M1 Mm Mfl]. cbn [nodes flights] in *. split; cbn [nodes flights].
  - apply (insert_cases s i w' (λ _ _ w', node_ok w')); [by eapply put_node_ok, Pe|done].
  - intros j kk c. destruct (decide (i = j)) as [<-|Hne];
      [rewrite fn_lookup_insert|rewrite fn_lookup_insert_ne by done].
    + intros Hc. destruct (decide (t_rows (w_db (s i)) !! kk = Some c)) as [Hc0|Hc0].
      * destruct (Mf i kk c Hc0) as [k ?]. exists k. by left.
      * exists i. right. split; [done|]. by apply elem_of_changed.
    + intros Hc. destruct (Mf j kk c Hc) as [k ?]. exists k. by left.
  - intros j kk c [HW|[-> Hc]].
    + destruct (Mo j kk c HW) as [? Ha]. split; [done|]. eapply acc_mono; [exact Ha|apply Hg].
    + destruct (changed_hlc _ _ _ _ _ Pe Hc) as [Hc' Hh]. rewrite Hh. split; [apply Hpast|].
      rewrite fn_lookup_insert. by exists c.
  - exact Honce.
  - intros j k Hne.
    assert (marks (<[i := w']> s) j k = marks s j k) as ->; [|by eapply covers_grows, Mm].
    unfold marks, watermark_of. destruct (decide (i = j)) as [<-|?].
    + by rewrite fn_lookup_insert, (pe_marks _ _ _ Pe).
    + by rewrite fn_lookup_insert_ne.
  - eapply Forall_impl; [exact Mfl|]. intros f. by apply flight_grows.
Qed.

(** ** Answers *)

(** An answer to a request that covers leaves nothing of what the server has written behind. *)
Lemma serve_covers W s i j req resp nodeID kk c :
  covers W s i j (req_watermark req) → pull_answer nodeID req (w_db (s j)) resp →
  W j kk c → kk.1 ∈ Kinds → acc (s j) kk (cols_stamp c) →
  acc (s i) kk (cols_stamp c) ∨ in_answer resp kk (cols_stamp c).
Proof.
  intros Hcov [_ _ (rows & Hrs & Hin) _ _] HW Hk (c' & Hc & Hst).
  destruct (Hcov kk.1 Hk) as [_ Hacc].
  destruct (hlc_le_lt_cases (cols_hlc c) (req_watermark req kk.1)) as [?|Hlt]; [left; by eapply Hacc|].
  assert (req_watermark req kk.1 ≺ cols_hlc c') as Hlt'.
  { eapply hlc_lt_le_trans; [exact Hlt|exact (stamp_le_hlc _ _ Hst)]. }
  right. exists (scanRow (kk, c')). rewrite row_stamp_scan, scanRow_Kind, scanRow_Key.
  split_and!; [|by destruct kk|done]. unfold resp_rows. rewrite Hrs, <-list_fmap_compose.
  apply list_elem_of_fmap. exists (scanRow (kk, c')). split; [symmetry; apply row_of_pb_of_row|].
  apply Hin. rewrite scanRow_Kind, scanRow_Key, scanRow_hlc. split_and!; [done| |].
  - apply select_row_lookup. eauto.
  - unfold served_after. destruct (reconciles _ _ _) eqn:Hrec; [|done].
    exfalso. unfold reconciles in Hrec. rewrite !andb_true_iff, bool_decide_eq_true in Hrec.
    destruct Hrec as [[Hnil _] _]. destruct (not_elem_of_nil (scanRow (kk, c'))). rewrite <-Hnil.
    apply elem_of_select_changes. rewrite scanRow_Kind, scanRow_Key, scanRow_hlc.
    split_and!; [done|apply select_row_lookup; eauto|done].
Qed.

Lemma answer_events_ok nodeID req tp resp :
  pull_answer nodeID req tp resp → all_hlcs hlc_ok tp → events_ok resp.
Proof.
  intros [_ _ _ (evs & evWm & Hrs & Hevs & _) _] Hok es Hes. rewrite Hrs in Hes.
  by eapply decoded_hlcs.
Qed.

(** The rows of an answer are versions the server holds. *)
Lemma answer_row nodeID req tp resp r :
  pull_answer nodeID req tp resp → r ∈ resp_rows resp →
  ∃ c, Kind r ∈ Kinds ∧ t_rows tp !! (Kind r, Key r) = Some c ∧ r = scanRow ((Kind r, Key r), c).
Proof.
  intros [_ _ (rows & Hrs & Hin) _ _] Hr. unfold resp_rows in Hr.
  rewrite Hrs, <-list_fmap_compose in Hr.
  apply list_elem_of_fmap in Hr as (r' & -> & Hr'). simpl. rewrite row_of_pb_of_row.
  apply Hin in Hr' as (Hk & Hsel & _).
  apply (select_row_lookup (Kind r', Key r')) in Hsel as (c & Hc & Heq). exists c. by split_and!.
Qed.

Lemma serve_answer W m i j req resp nodeID :
  mesh_inv W m → covers W (nodes m) i j (req_watermark req) →
  pull_answer nodeID req (w_db (nodes m j)) resp → answer_ok W (nodes m) i j resp.
Proof.
  intros [Mn Mf Mo _ Mm Mfl] Hcov Hans. split.
  - intros r Hr. destruct (answer_row _ _ _ _ _ Hans Hr) as (c & Hk & Hc & Heq).
    assert (RHLC r = cols_hlc c) as Hh by by rewrite Heq, scanRow_hlc.
    assert (cols_of r = c) as Hcols by (rewrite Heq; by eapply cols_of_scan, (no_flags _ (Mn j))).
    rewrite Hh, Hcols. split_and!; [done|by eapply (no_hlcs _ (Mn j))|by right; eexists _, c|by eapply Mf].
  - eapply answer_events_ok; [done|apply (no_hlcs _ (Mn j))].
  - intros kk c r HW Hr Hk _. destruct (Mo j kk c HW) as [_ ?]. eapply serve_covers; [done..| |done].
    rewrite <-Hk. by destruct (answer_row _ _ _ _ _ Hans Hr) as (_ & ? & _).
Qed.

(** ** Applying an answer *)

(** The watermark after a batch: an HLC it reaches was reached before, or is at most that of a row
    of the batch. *)
Lemma mark_after_reach peer rows kind t t' h :
  t_watermarks t' !! (peer, kind) = watermark_after peer rows (peer, kind) (t_watermarks t !! (peer, kind)) →
  zeroHLC ≺ h → h ⪯ watermark_of peer kind t' →
  h ⪯ watermark_of peer kind t ∨ ∃ r, r ∈ rows ∧ Kind r = kind ∧ h ⪯ RHLC r.
Proof.
  unfold watermark_of. intros -> Hz. unfold watermark_after. rewrite bool_decide_true by done.
  cbn [snd]. destruct (filter _ rows) as [|r0 rs] eqn:Hf; [by left|].
  assert (h ⪯ foldl maxHLC zeroHLC (RHLC <$> (r0 :: rs)) →
          ∃ r, r ∈ rows ∧ Kind r = kind ∧ h ⪯ RHLC r) as Htop.
  { intros Hle. destruct (foldl_max_in (RHLC <$> (r0 :: rs)) zeroHLC) as [Heq|Hin].
    - rewrite Heq in Hle. by apply hlc_lt_not_le in Hz.
    - apply list_elem_of_fmap in Hin as (r & Hr & Hin). rewrite <-Hf in Hin.
      apply list_elem_of_filter in Hin as [??]. exists r. by rewrite <-Hr. }
  destruct (t_watermarks t !! (peer, kind)) as [h0|]; simpl; [|by right; apply Htop].
  unfold hlc_max. destruct (After _ h0); [by right; apply Htop|by left].
Qed.

(** The watermark after a batch is the old one, zero, or that of a row of the batch. *)
Lemma mark_after_either (P : HLC → Prop) peer rows kind t t' :
  t_watermarks t' !! (peer, kind) = watermark_after peer rows (peer, kind) (t_watermarks t !! (peer, kind)) →
  P zeroHLC → P (watermark_of peer kind t) → Forall (λ r, P (RHLC r)) rows →
  P (watermark_of peer kind t').
Proof.
  unfold watermark_of. intros -> Hz Hold Hrows. unfold watermark_after.
  rewrite bool_decide_true by done. cbn [snd].
  destruct (filter _ rows) as [|r0 rs] eqn:Hf; [done|].
  assert (P (foldl maxHLC zeroHLC (RHLC <$> (r0 :: rs)))) as Htop.
  { apply foldl_max_either; [done|]. apply Forall_fmap, Forall_forall.
    intros r Hr. rewrite <-Hf in Hr. apply list_elem_of_filter in Hr as [_ Hr].
    by eapply Forall_forall in Hrows. }
  destruct (t_watermarks t !! (peer, kind)); simpl; [by apply hlc_max_either|done].
Qed.

Lemma finish_grows W s i w' peer rows :
  finish_effect peer rows (s i) w' → grows W s W (<[i := w']> s).
Proof.
  intros Fe. split; [|auto|auto].
  apply (insert_cases s i w' (λ _ w w', rows_le (t_rows (w_db w)) (t_rows (w_db w')))); [|done].
  rewrite (fe_rows _ _ _ _ Fe). apply merge_rows_le.
Qed.

Lemma finish_node_ok w w' peer rows : node_ok w → finish_effect peer rows w w' → node_ok w'.
Proof.
  intros [C Z H R F] [Fr Fm Fc Fp Fh Fo]. split; [done|by etrans|done|..];
    intros kk c; rewrite Fr; intros [Hc|(r & Hr & -> & ->)]%merge_rows_origin.
  - etrans; [by eapply R|done].
  - rewrite Forall_forall in Fp. specialize (Fp r Hr). by destruct r as [??? []].
  - by eapply F.
  - apply flag_ok_of.
Qed.

Lemma in_answer_acc s i resp w' peer kk st :
  finish_effect peer (resp_rows resp) (s i) w' →
  acc (s i) kk st ∨ in_answer resp kk st → acc w' kk st.
Proof.
  intros Fe [Ha|(r & Hr & <- & Hst)].
  - eapply acc_mono; [done|]. rewrite (fe_rows _ _ _ _ Fe). apply merge_rows_le.
  - unfold acc. rewrite (fe_rows _ _ _ _ Fe).
    destruct (merge_rows_has _ (t_rows (w_db (s i))) r Hr) as (c & Hc & Hle).
    exists c. split; [done|]. by etrans.
Qed.

Context `{!Inj (=) (=) addr}.

(** The watermark of the peer that answered. *)
Lemma finish_marks W s i j resp w' :
  covers W s i j (marks s i j) → answer_ok W s i j resp → i ≠ j →
  finish_effect (addr j) (resp_rows resp) (s i) w' →
  (∀ kk c, W j kk c → zeroHLC ≺ cols_hlc c) →
  covers W (<[i := w']> s) i j (marks (<[i := w']> s) i j).
Proof.
  intros Hcov Ha Hne Fe HWz kind Hk. unfold marks in *. rewrite fn_lookup_insert.
  rewrite fn_lookup_insert_ne by done. destruct (Hcov kind Hk) as [Hb Hacc].
  pose proof (fe_marks _ _ _ _ Fe (addr j, kind) Hk) as Hm. split.
  - eapply (mark_after_either (reached (s j))); [done|by left|done|].
    apply Forall_forall. intros r Hr. by apply (ao_rows _ _ _ _ _ Ha).
  - intros kk c <- HW Hle. eapply in_answer_acc; [done|].
    eapply mark_after_reach in Hle as [?|(r & Hr & Hkr & Hle)]; [left; by eapply Hacc| |done|by eapply HWz].
    by eapply (ao_cover _ _ _ _ _ Ha).
Qed.

Lemma finish_inv W s pd fl i j resp w' :
  mesh_inv W (mkMesh s pd fl) → i ≠ j → answer_ok W s i j resp →
  finish_effect (addr j) (resp_rows resp) (s i) w' →
  mesh_inv W (mkMesh (<[i := w']> s) pd fl).
Proof.
  intros [Mn Mf Mo M1 Mm Mfl] Hne Ha Fe. cbn [nodes flights] in *.
  pose proof (finish_grows W s i w' _ _ Fe) as Hg. split; cbn [nodes flights].
  - apply (insert_cases s i w' (λ _ _ w', node_ok w')); [by eapply finish_node_ok, Fe|done].
  - apply (insert_cases s i w' (λ _ _ w', ∀ kk c, t_rows (w_db w') !! kk = Some c → ∃ j, W j kk c));
      [|by intros; eapply Mf].
    intros kk c. rewrite (fe_rows _ _ _ _ Fe). intros [Hc|(r & Hr & -> & ->)]%merge_rows_origin.
    + by eapply Mf.
    + by apply (ao_rows _ _ _ _ _ Ha).
  - intros k kk c HW. destruct (Mo k kk c HW) as [? ?]. split; [done|].
    eapply acc_mono; [done|apply Hg].
  - done.
  - intros a b Hab. destruct (decide (a = i)) as [->|Hai]; [destruct (decide (b = j)) as [->|Hbj]|].
    + eapply finish_marks; [by apply Mm|done|done|done|]. intros kk c HW. by apply (Mo j kk c).
    + apply (covers_grows _ _ _ _ _ _ _ Hg). intros kind Hk. unfold marks. rewrite fn_lookup_insert.
      rewrite (watermark_of_same (addr b) kind (w_db (s i))); [by apply Mm|].
      rewrite (fe_marks _ _ _ _ Fe) by done. unfold watermark_after. cbn [fst].
      rewrite bool_decide_false; [done|]. intros Heq. by apply Hbj, (inj addr).
    + apply (covers_grows _ _ _ _ _ _ _ Hg). unfold marks. rewrite fn_lookup_insert_ne by done.
      by apply Mm.
  - eapply Forall_impl; [exact Mfl|]. intros f. by apply flight_grows.
Qed.

(** ** Steps and runs *)

Lemma serve_result (EP : Env) nodeID req w r w' :
  Server_Pull (E := EP) nodeID req w = (r, w') →
  same_state w w' ∧ ∀ resp, r = Ok resp → pull_answer nodeID req (w_db w) resp.
Proof.
  apply (wp_run _ (λ r w', same_state w w' ∧ ∀ resp, r = Ok resp → pull_answer nodeID req (w_db w) resp)).
  apply wp_Server_Pull; [|done]. intros resp w1 Hs Ha. split; [done|]. by intros ? [= <-].
Qed.

Lemma begin_result (EP : Env) peer w r w' :
  round_begin (E := EP) peer w = (r, w') →
  same_state w w' ∧ ∀ x, r = Ok x → x.1 = round_req peer (w_db w).
Proof.
  apply (wp_run _ (λ r w', same_state w w' ∧ ∀ x, r = Ok x → x.1 = round_req peer (w_db w))).
  apply wp_round_begin; [|done]. intros n. split; [done|]. by intros ? [= <-].
Qed.

Lemma finish_result W s i j evWm resp r w' :
  node_ok (s i) → answer_ok W s i j resp →
  round_finish (E := E i) (addr j) evWm resp (s i) = (r, w') →
  finish_effect (addr j) (resp_rows resp) (s i) w' ∨ same_state (s i) w' ∧ r ≠ Ok tt.
Proof.
  intros Hi Ha. apply (wp_run _ (λ r w', finish_effect _ _ (s i) w' ∨ same_state (s i) w' ∧ r ≠ Ok tt)).
  apply wp_round_finish; [|apply Ha|apply (no_hlcs _ Hi)|apply (no_clock _ Hi)].
  apply Forall_forall. intros q Hq. by apply (ao_rows _ _ _ _ _ Ha).
Qed.

Lemma tick_moves i h w w' :
  node_ok w → tick_wraps (env_now (Env := E i) (w_n w)) (w_clock w) = false →
  clock_Tick (E := E i) w = (Ok h, w') → moves w w' ∧ past_rows w' h ∧ h = clock_hlc (w_clock w').
Proof.
  intros Hw Hn Ht. destruct (tick_effect (E1 := E i) _ _ _ (no_clock _ Hw) Hn Ht) as (Hd & Hok & [= ->] & Hlt).
  split_and!; [split_and!; [done|done|by apply hlc_lt_le]| |done]. split.
  - eapply hlc_le_lt_trans; [apply Hw|done].
  - intros kk c. rewrite Hd. intros Hc. eapply hlc_le_lt_trans; [by eapply (no_rows _ Hw)|done].
Qed.

Lemma asked_ok W m i j :
  mesh_inv W m → i ≠ j → covers W (nodes m) i j (req_watermark (round_req (addr j) (w_db (nodes m i)))).
Proof.
  intros Hinv Hne kind Hk. rewrite round_req_watermark by done. by apply (mi_marks _ _ Hinv i j Hne).
Qed.

(** Every step but a write: the invariant holds for the same history. *)
Lemma quiet_inv W m l m' :
  mstep m l m' → quiet l → mesh_inv W m → mesh_inv W m' ∧ grows W (nodes m) W (nodes m').
Proof.
  intros Hstep Hq Hinv. pose proof (mi_flights _ _ Hinv) as Hfl.
  destruct Hstep as [i h s pd fl w' Hn Ht | | i j s pd fl req evWm w' Hne Hb
    | i j req evWm s pd fl1 fl2 resp w' Hs | i j evWm resp s pd fl1 fl2 r w' Hf | f s pd fl1 fl2
    | i s pd fl w' Hs]; try done; cbn [nodes flights] in *;
    pose proof (λ i w' Hm, moves_insert W _ i w' Hinv Hm) as Hins; cbn [nodes] in Hins;
    pose proof (λ i w', same_moves _ w' (mi_node _ _ Hinv i)) as Hsm; cbn [nodes] in Hsm.
  - apply (moves_inv W _ _ _ _ Hinv); [|done].
    apply Hins, (tick_moves i h); [apply (mi_node _ _ Hinv i)|done|done].
  - apply begin_result in Hb as [Hs Hreq]. specialize (Hreq _ eq_refl). simpl in Hreq. subst req.
    apply (moves_inv W _ _ _ _ Hinv); [by apply Hins, Hsm|].
    constructor; [|done]. split; [done|]. by apply (asked_ok W _ i j Hinv).
  - apply serve_result in Hs as [Hs Hans]. specialize (Hans _ eq_refl).
    apply Forall_app in Hfl as [Hf1 [[Hne Hcov] Hf2]%Forall_cons].
    apply (moves_inv W _ _ _ _ Hinv); [by apply Hins, Hsm|].
    apply Forall_app. split; [done|]. constructor; [|done].
    split; [done|]. by eapply (serve_answer W (mkMesh s pd _)).
  - apply Forall_app in Hfl as [Hf1 [[Hne Ha] Hf2]%Forall_cons].
    assert (Forall (flight_ok W s) (fl1 ++ fl2)) as Hfl' by by apply Forall_app.
    apply (finish_result W) in Hf as [Fe|[Hs _]]; [..|apply (mi_node _ _ Hinv)|done].
    + split; [|by eapply finish_grows]. eapply finish_inv; [|done..].
      by apply (moves_inv W _ s pd _ Hinv); [intros k; apply moves_refl, (mi_node _ _ Hinv)|].
    + apply (moves_inv W _ _ _ _ Hinv); [by apply Hins, Hsm|done].
  - apply Forall_app in Hfl as [Hf1 [_ Hf2]%Forall_cons].
    apply (moves_inv W _ _ _ _ Hinv); [intros k; apply moves_refl, (mi_node _ _ Hinv)|by apply Forall_app].
  - apply (moves_inv W _ _ _ _ Hinv); [by apply Hins, Hsm|done].
Qed.

(** A step that does not touch the database of [i] leaves its tables and does not set its clock back. *)
Lemma untouched_moves W m l m' i :
  mstep m l m' → mesh_inv W m → touches i l = false → moves (nodes m i) (nodes m' i).
Proof.
  intros Hstep Hinv. pose proof (mi_node _ _ Hinv) as Mn.
  assert (∀ (s : I → world) k w', (∀ j, node_ok (s j)) → moves (s k) w' → moves (s i) ((<[k := w']> s) i)) as Hins.
  { intros s k w' Hok Hm. apply (insert_cases s k w' (λ _, moves)); [done|]. intros j _. by apply moves_refl. }
  destruct Hstep as [k h s pd fl w' Hn Ht | k h op s pd p1 p2 fl r w' Hp Hrun | k j s pd fl req evWm w' Hne Hb
    | k j req evWm s pd fl1 fl2 resp w' Hs | k j evWm resp s pd fl1 fl2 r w' Hf | f s pd fl1 fl2
    | k s pd fl w' Hs]; cbn [nodes touches] in *; intros Ht'.
  - apply Hins; [done|]. by apply (tick_moves k h).
  - apply bool_decide_eq_false in Ht'. rewrite fn_lookup_insert_ne by done. by apply moves_refl.
  - apply begin_result in Hb as [Hs _]. apply Hins; [done|]. by apply same_moves.
  - apply serve_result in Hs as [Hs _]. apply Hins; [done|]. by apply same_moves.
  - apply bool_decide_eq_false in Ht'. rewrite fn_lookup_insert_ne by done. by apply moves_refl.
  - by apply moves_refl.
  - apply Hins; [done|]. by apply same_moves.
Qed.

Lemma ready_cons l past i h :
  ready (l :: past) i h = true → l = LTick i h ∨ touches i l = false ∧ ready past i h = true.
Proof.
  cbn [ready]. rewrite orb_true_iff, andb_true_iff, negb_true_iff, bool_decide_eq_true. tauto.
Qed.

Lemma readings_step W past m l m' :
  mstep m l m' → mesh_inv W m → readings_ok past m → readings_ok (l :: past) m'.
Proof.
  intros Hstep Hinv Hr i h [->|[Ht Hready]]%ready_cons.
  - inversion Hstep as [i' h' s pd fl w' Hn Ht | | | | | |]; subst. cbn [nodes].
    rewrite fn_lookup_insert. pose proof (mi_node _ _ Hinv i) as Hi. cbn [nodes] in Hi.
    destruct (tick_moves i h _ _ Hi Hn Ht) as (Hm & Hp & ->). split_and!; [done|done|].
    apply hlc_ok_clock, Hm.
  - destruct (Hr i h Hready) as ([Hz Hp] & Hle & Hok).
    destruct (untouched_moves _ _ _ _ _ Hstep Hinv Ht) as (Hd & _ & Hc).
    split_and!; [split; [done|by rewrite Hd]|by etrans|done].
Qed.

Lemma written_equiv W W' m :
  (∀ j kk c, W j kk c ↔ W' j kk c) → mesh_inv W m → mesh_inv W' m.
Proof.
  intros Hiff [Mn Mf Mo M1 Mm Mfl].
  assert (grows W (nodes m) W' (nodes m)) as Hg.
  { split; [done|by intros; apply Hiff|]. intros j kk c HW. left. by apply Hiff. }
  split; [done|..].
  - intros i kk c Hc. destruct (Mf i kk c Hc) as [j ?]. exists j. by apply Hiff.
  - intros j kk c HW. by apply Mo, Hiff.
  - intros j kk c1 c2 H1 H2. eapply M1; by apply Hiff.
  - intros i j Hne. by eapply covers_grows, Mm.
  - eapply Forall_impl; [exact Mfl|]. intros f. by apply flight_grows.
Qed.

(** One step, with the history read off the labels. *)
Lemma mstep_inv W past m l m' :
  mstep m l m' → mesh_inv W m → readings_ok past m → on_time past [l] = true →
  mesh_inv (λ j kk c, W j kk c ∨ wrote [l] j kk c) m'.
Proof.
  intros Hstep Hinv Hr Ht. destruct (decide (quiet l)) as [Hq|Hq].
  - eapply written_equiv, (quiet_inv W _ _ _ Hstep Hq Hinv).
    intros j kk c. split; [by left|]. intros [?|(h & vs & Hin & _)]; [done|].
    apply list_elem_of_singleton in Hin. by subst l.
  - destruct l as [|i h vs| | | | |]; try done. cbn [on_time] in Ht. rewrite andb_true_r in Ht.
    destruct (Hr i h Ht) as (Hp & Hle & Hok).
    inversion Hstep as [|i' h' op s pd p1 p2 fl r w' Hpd Hrun | | | | |]; subst. cbn [nodes] in *.
    pose proof (wp_run _ _ _ _ _ (wp_perform (E1 := E i) h op (s i)) Hrun) as Pe. simpl in Pe.
    eapply written_equiv, put_inv; [|done..]. intros j kk c. unfold written.
    split; (intros [?|Hc]; [by left|right]).
    + destruct Hc as [-> Hc]. eexists _, _. by split; [apply list_elem_of_singleton|].
    + destruct Hc as (h' & vs & [= -> -> ->]%list_elem_of_singleton & Hc). done.
Qed.

Lemma mrun_inv W past m ls m' :
  mrun m ls m' → mesh_inv W m → readings_ok past m → on_time past ls = true →
  mesh_inv (λ j kk c, W j kk c ∨ wrote ls j kk c) m'.
Proof.
  intros Hrun. revert W past. induction Hrun as [m|m l m1 ls m2 Hstep _ IH]; intros W past Hinv Hr Ht.
  - eapply written_equiv, Hinv. intros j kk c. split; [by left|].
    intros [?|(h & vs & Hin & _)]; [done|]. by apply not_elem_of_nil in Hin.
  - cbn [on_time] in Ht. apply andb_true_iff in Ht as [Ht Hts].
    eapply written_equiv, (IH (λ j kk c, W j kk c ∨ wrote [l] j kk c) (l :: past)).
    + intros j kk c. unfold wrote. set_solver.
    + eapply mstep_inv; [done|done|done|]. cbn [on_time]. by rewrite Ht.
    + by eapply readings_step.
    + done.
Qed.

Lemma fresh_inv : mesh_inv (λ _ _ _, False) mesh_fresh.
Proof. split; [by split|done|done|done| |done]. intros i j _ kind _. split; [by left|done]. Qed.

Lemma reachable_inv ls m :
  mrun mesh_fresh ls m → on_time [] ls = true → mesh_inv (wrote ls) m.
Proof.
  intros Hrun Ht. eapply written_equiv, (mrun_inv (λ _ _ _, False) [] _ _ _ Hrun); [|exact fresh_inv|done|done].
  intros j kk c. tauto.
Qed.

(** ** Agreement *)

(** A round answered after the last write misses nothing its peer has written. *)
Definition complete W s (f : flight) : Prop :=
  match f with
  | Asked _ _ _ _ => True
  | Answered i j _ resp => ∀ kk c, kk.1 ∈ Kinds → W j kk c →
      acc (s i) kk (cols_stamp c) ∨ in_answer resp kk (cols_stamp c)
  end.

Lemma complete_grows W s s' f : grows W s W s' → complete W s f → complete W s' f.
Proof.
  intros Hg. destruct f as [|i j evWm resp]; [done|]. intros Hc kk c Hk HW.
  destruct (Hc kk c Hk HW) as [?|?]; [left|by right]. eapply acc_mono; [done|apply Hg].
Qed.

(** Node [i] has caught up with the writes of [j]. *)
Definition caught_up W s (i j : I) : Prop :=
  ∀ kk c, kk.1 ∈ Kinds → W j kk c → acc (s i) kk (cols_stamp c).

Lemma quiet_complete W m l m' :
  mstep m l m' → quiet l → mesh_inv W m → Forall (complete W (nodes m)) (flights m) →
  Forall (complete W (nodes m')) (flights m') ∧
  ∀ i j, l = LDone i j true → caught_up W (nodes m') i j.
Proof.
  intros Hstep Hq Hinv Hc. destruct (quiet_inv _ _ _ _ Hstep Hq Hinv) as [_ Hg].
  assert (Forall (complete W (nodes m')) (flights m)) as Hc'.
  { eapply Forall_impl; [exact Hc|]. intros f. by apply complete_grows. }
  pose proof (mi_flights _ _ Hinv) as Hfl.
  destruct Hstep as [| | i j s pd fl req evWm w' Hne Hb | i j req evWm s pd fl1 fl2 resp w' Hs
    | i j evWm resp s pd fl1 fl2 r w' Hf | f s pd fl1 fl2 | i s pd fl w' Hs]; try done;
    cbn [nodes flights] in *.
  - split; [|done]. by constructor.
  - split; [|done]. apply Forall_app in Hc' as [H1 [_ H2]%Forall_cons].
    apply Forall_app in Hfl as [_ [[_ Hcov] _]%Forall_cons].
    apply Forall_app. split; [done|]. constructor; [|done]. intros kk c Hk HW.
    apply serve_result in Hs as [Hsame Hans]. specialize (Hans _ eq_refl).
    destruct (mi_own _ _ Hinv j kk c HW) as [_ Hown].
    destruct (serve_covers _ _ _ _ _ _ _ _ _ Hcov Hans HW Hk Hown) as [Ha|?]; [left|by right].
    eapply acc_mono; [exact Ha|apply Hg].
  - apply Forall_app in Hc' as [H1 [_ H2]%Forall_cons]. split; [by apply Forall_app|].
    intros i' j' [= <- <- Hr] kk c Hk HW. rewrite fn_lookup_insert.
    apply Forall_app in Hfl as [_ [[_ Ha] _]%Forall_cons].
    apply Forall_app in Hc as [_ [Hfin _]%Forall_cons].
    apply (finish_result W) in Hf as [Fe|[_ Hbad]]; [..|apply (mi_node _ _ Hinv)|done].
    + eapply in_answer_acc; [done|]. by apply Hfin.
    + destruct r as [[]| |]; [done|discriminate Hr..].
  - apply Forall_app in Hc' as [H1 [_ H2]%Forall_cons]. split; [by apply Forall_app|done].
Qed.

Lemma quiet_run W m ls m' :
  mrun m ls m' → Forall quiet ls → mesh_inv W m → Forall (complete W (nodes m)) (flights m) →
  mesh_inv W m' ∧ (∀ i, rows_le (t_rows (w_db (nodes m i))) (t_rows (w_db (nodes m' i)))) ∧
  ∀ i j, LDone i j true ∈ ls → caught_up W (nodes m') i j.
Proof.
  induction 1 as [m|m l m1 ls m2 Hstep _ IH]; intros Hq Hinv Hc; [split_and!; [done|done|set_solver]|].
  apply Forall_cons in Hq as [Hql Hq].
  destruct (quiet_inv _ _ _ _ Hstep Hql Hinv) as [Hinv1 Hg].
  destruct (quiet_complete _ _ _ _ Hstep Hql Hinv Hc) as [Hc1 Hdone].
  destruct (IH Hq Hinv1 Hc1) as (Hinv2 & Hle & Hdone2). split_and!; [done| |].
  - intros i. etrans; [apply Hg|apply Hle].
  - intros i j [Hl|Hin]%elem_of_cons kk c Hk HW; [|by eapply Hdone2].
    eapply acc_mono; [by eapply Hdone|apply Hle].
Qed.

(** Versions with one stamp are one version, unless two nodes wrote it differently. *)
Lemma stamps_rows ls m kk i j :
  mesh_inv (wrote ls) m → kk.1 ∈ Kinds → unambiguous ls kk →
  same_stamps (t_rows (w_db (nodes m i))) (t_rows (w_db (nodes m j))) →
  t_rows (w_db (nodes m i)) !! kk = t_rows (w_db (nodes m j)) !! kk.
Proof.
  intros Hinv Hk Hun Hst. specialize (Hst kk Hk).
  destruct (t_rows (w_db (nodes m i)) !! kk) as [c1|] eqn:H1,
    (t_rows (w_db (nodes m j)) !! kk) as [c2|] eqn:H2; try done. apply (inj Some) in Hst.
  destruct (mi_from _ _ Hinv i kk c1 H1) as [k1 W1], (mi_from _ _ Hinv j kk c2 H2) as [k2 W2].
  f_equal. destruct (decide (k1 = k2)) as [->|Hne].
  - eapply (mi_once _ _ Hinv k2 kk); [done|done|exact (f_equal fst Hst)].
  - by eapply (Hun k1 k2).
Qed.

(** All nodes hold the same versions of the replicated rows, and the same rows wherever the writes
    of the run were unambiguous. *)
Definition agreement ls s : Prop := ∀ i j,
  same_stamps (t_rows (w_db (s i))) (t_rows (w_db (s j))) ∧
  ∀ kk, kk.1 ∈ Kinds → unambiguous ls kk → t_rows (w_db (s i)) !! kk = t_rows (w_db (s j)) !! kk.

Lemma quiet_agreement ls0 m ls m' :
  mrun mesh_fresh ls0 m → on_time [] ls0 = true → flights m = [] →
  mrun m ls m' → Forall quiet ls → (∀ i j, i ≠ j → LDone i j true ∈ ls) →
  agreement ls0 (nodes m') ∧
  (∀ i j, kinds_le (t_rows (w_db (nodes m i))) (t_rows (w_db (nodes m' j)))).
Proof.
  intros Hrun0 Ht Hnil Hrun Hq Hall. pose proof (reachable_inv _ _ Hrun0 Ht) as Hinv.
  destruct (quiet_run _ _ _ _ Hrun Hq Hinv) as (Hinv' & Hle & Hdone); [by rewrite Hnil|].
  assert (∀ i j, kinds_le (t_rows (w_db (nodes m' i))) (t_rows (w_db (nodes m' j)))) as Hk.
  { intros i j kk c Hk Hc. destruct (mi_from _ _ Hinv' i kk c Hc) as [k HW].
    destruct (decide (j = k)) as [->|Hne].
    - by destruct (mi_own _ _ Hinv' k kk _ HW).
    - by apply (Hdone j k (Hall j k Hne)). }
  assert (∀ i j, same_stamps (t_rows (w_db (nodes m' i))) (t_rows (w_db (nodes m' j)))) as Hsame
    by (intros i j; by apply kinds_le_same).
  split; [intros i j; split; [done|]; intros kk Hkk Hun; by apply (stamps_rows ls0)|].
  intros i j kk c Hkk Hc. destruct (Hle i kk c Hc) as (c1 & Hc1 & Hst).
  destruct (Hk i j kk c1 Hkk Hc1) as (c2 & Hc2 & ?). exists c2. split; [done|]. by etrans.
Qed.



End System.
