(* ===== verification/MeshLive.v ===== *)
(** * Rounds complete

    When no driver call fails and no message is lost, a round between any two nodes of a reachable
    cluster returns without error, so a sweep of rounds over all pairs brings the nodes to
    agreement: nothing has to be assumed about the outcome of the rounds.  The only thing in the way
    would be an event payload that cannot be read back; the log invariant excludes it. *)

From S2P Require Import Prelude Hlc Model Metrics World Store Lattice Lww StoreSpec StoreProps Tombstones Checksum EventLog JsonCodec Transport Sync SyncSpec SyncProps Cluster Mesh.
Local Open Scope Z_scope.

Implicit Types (t : tables) (w : world) (e : evcols) (ev : Event) (evs es : list Event) (pl : payload).

(** encoding/json reads back what it wrote, and can write what it has read. *)
Definition payloads_read_back `{J : Json} : Prop :=
  ∀ pl s, marshal_payload pl = Some s →
    ∃ pl', unmarshal_payload s = Some pl' ∧ is_Some (marshal_payload pl').

Section Logs.
Context `{J : Json} (Hjson : payloads_read_back).

(** Every stored payload is one that encoding/json wrote. *)
Definition log_ok t : Prop :=
  ∀ x e, t_events t !! x = Some e → ∃ pl, marshal_payload pl = Some (ev_payload e).

Definition writable ev : Prop := is_Some (marshal_payload (e_Payload ev)).

Lemma scan_log_ok t x :
  log_ok t → t_events t !! x.1 = Some x.2 → ∃ ev, scan_event x = Some ev ∧ writable ev.
Proof.
  intros Hlog Hx. destruct (Hlog _ _ Hx) as [pl Hpl]. destruct x as [[rn sq] c]. simpl in *.
  unfold scan_event. simpl. case_bool_decide as Hp.
  - eexists. split; [done|]. unfold writable. simpl. rewrite marshal_payload_nil. eauto.
  - destruct (Hjson _ _ Hpl) as (pl' & -> & Hw). by eexists.
Qed.

Lemma log_ok_decodes t : log_ok t → ¬ undecodable t.
Proof. intros Hlog (x & Hx & Hn). destruct (scan_log_ok t x Hlog Hx) as (ev & Hev & _). congruence. Qed.

(** What a message carries of a writable event can be stored again. *)
Lemma message_entry ev :
  writable ev → ∃ ev' u, event_of_pb (pb_of_event ev) = Some ev' ∧ event_entry ev' = Some u.
Proof.
  intros [s Hs]. unfold event_of_pb, pb_of_event. simpl. rewrite Hs. simpl.
  assert (is_Some (marshal_payload (if bool_decide (s = ""%string) then None
                                    else unmarshal_payload_dropped s))) as [s' Hs'].
  { case_bool_decide; [rewrite marshal_payload_nil; eauto|].
    destruct (Hjson _ _ Hs) as (pl' & Hpl & ?). by rewrite (unmarshal_payload_dropped_ok _ _ Hpl). }
  eexists _, _. split; [done|]. unfold event_entry. simpl. by rewrite Hs'.
Qed.

Definition answer_storable (resp : PullResponse) : Prop :=
  is_Some (mapM event_of_pb (rs_Events resp) ≫= mapM event_entry).

Lemma messages_storable evs :
  Forall writable evs → is_Some (mapM event_of_pb (pb_of_event <$> evs) ≫= mapM event_entry).
Proof.
  induction 1 as [|ev evs Hev _ IH]; [by eexists|].
  destruct (message_entry ev Hev) as (ev' & u & He & Hu). destruct IH as [us Hus].
  rewrite fmap_cons. cbn [mapM]. rewrite He. simpl.
  destruct (mapM event_of_pb (pb_of_event <$> evs)) as [es|]; [|done]. simpl in *.
  rewrite Hu. simpl. rewrite Hus. by eexists.
Qed.

Lemma answer_log nodeID req t resp :
  log_ok t → pull_answer nodeID req t resp → answer_storable resp.
Proof.
  intros Hlog [_ _ _ (evs & evWm & Hrs & (_ & Hin & _) & _) _]. unfold answer_storable. rewrite Hrs.
  apply messages_storable, Forall_forall. intros ev Hev.
  apply Hin in Hev as (x & Hx & Hsc & _). destruct (scan_log_ok t x Hlog Hx) as (ev' & ? & ?).
  by simplify_eq.
Qed.

(** ** The log invariant under the operations *)

Lemma entries_log_ok es (us : list ev_up) (log : ev_map) t :
  mapM event_entry es = Some us → log_ok t → t_events t = log →
  ∀ x e, put_all us log !! x = Some e → ∃ pl, marshal_payload pl = Some (ev_payload e).
Proof.
  intros Hus Hlog <- x e He. apply put_events_origin in He as [He|Hu]; [by eapply Hlog|].
  apply mapM_Some_1 in Hus. apply list_elem_of_lookup in Hu as [k Hu].
  destruct (Forall2_lookup_r _ _ _ _ _ Hus Hu) as (ev & _ & Hent).
  unfold event_entry in Hent. destruct (marshal_payload _) as [s|] eqn:Hs; [|done].
  injection Hent as _ <-. eauto.
Qed.

Lemma wp_perform_log `{E : Env} h op w :
  log_ok (w_db w) → wp (perform h op) (λ _ w', log_ok (w_db w')) w.
Proof.
  intros Hlog. destruct op.
  - by apply wp_Put.
  - by apply wp_Delete.
  - by apply wp_DeleteByNode.
  - apply wp_AppendEvent_any; [|done]. intros n x s Hs y e. cbn [w_db upd t_events set_events].
    destruct (decide (x = y)) as [<-|Hne].
    + rewrite lookup_insert_eq. intros [= <-]. eauto.
    + rewrite lookup_insert_ne by done. apply Hlog.
Qed.

Lemma wp_round_finish_log `{E : Env} peer evWm resp w :
  log_ok (w_db w) → wp (round_finish peer evWm resp) (λ _ w', log_ok (w_db w')) w.
Proof.
  intros Hlog. unfold round_finish. wp_step. apply wp_apply_pulled_rows; [|done].
  intros m n clk _ _ _. apply wp_apply_pulled_events; [done| | |done].
  - intros m' n' es us clk' _ _ Hus _ _ _ x e. cbn [w_db]. rewrite event_mark_events.
    by eapply entries_log_ok.
  - intros er db m' n' _ [->|(es & us & _ & Hus & ->)]; [done|]. intros x e. cbn [w_db].
    by eapply entries_log_ok.
Qed.

(** ** Without faults every part of a round succeeds *)

Section Progress.
Context `{E : Env} (Hff : fault_free).

Lemma round_begin_ok peer w : ∃ x w', round_begin peer w = (Ok x, w').
Proof.
  pose proof (wp_round_request
    (λ wc evWm evChk, mret (pull_request wc.1 wc.2 evWm evChk, evWm)) peer
    (λ r _, ∃ x, r = Ok x) w) as H. unfold wp in H. fold (round_begin peer) in H.
  destruct (round_begin peer w) as [r w']. destruct H as [x Hx].
  - intros n. simpl. eauto.
  - intros e n He. by apply fault_free_no_error in He.
  - simpl in Hx. subst. eauto.
Qed.

Lemma Server_Pull_ok nodeID req w :
  log_ok (w_db w) → ∃ resp w', Server_Pull nodeID req w = (Ok resp, w').
Proof.
  intros Hlog. pose proof (wp_Server_Pull nodeID req (λ r _, ∃ x, r = Ok x) w) as H. unfold wp in H.
  destruct (Server_Pull nodeID req w) as [r w']. destruct H as [x Hx].
  - eauto.
  - intros e w1 _ [He|[_ Hu]]; [by apply fault_free_no_error in He|by apply log_ok_decodes in Hu].
  - simpl in Hx. subst. eauto.
Qed.

Lemma round_finish_ok peer evWm resp w :
  answer_storable resp → ∃ w', round_finish peer evWm resp w = (Ok tt, w').
Proof.
  intros [us Hus]. assert (wp (round_finish peer evWm resp) (λ r _, r = Ok tt) w) as H.
  { unfold round_finish. wp_step. apply wp_apply_pulled_rows.
    2:{ intros e n He. by apply fault_free_no_error in He. }
    intros m n clk _ _ _. apply wp_apply_pulled_events; [done|done| |].
    - intros e db m' n' [He|[_ Hnone]] _; [by apply fault_free_no_error in He|congruence].
    - intros Hnone. rewrite Hnone in Hus. discriminate Hus. }
  unfold wp in H. destruct (round_finish peer evWm resp w) as [r w']. simpl in H. subst. eauto.
Qed.

End Progress.
End Logs.

(** ** Sweeps *)

Section Sweep.
Context `{J : Json} {I : Type} `{EqDecision I}.
Context (E : I → Env) (addr : I → string) `{!Inj (=) (=) addr}.

(** One round of [i] with [j], its three parts one after the other. *)
Definition sync_round (i j : I) (s : I → world) : option (I → world) :=
  match round_begin (E := E i) (addr j) (s i) with
  | (Ok (req, evWm), w1) =>
      let s1 := <[i := w1]> s in
      match Server_Pull (E := E j) (addr j) req (s1 j) with
      | (Ok resp, w2) =>
          let s2 := <[j := w2]> s1 in
          match round_finish (E := E i) (addr j) evWm resp (s2 i) with
          | (Ok _, w3) => Some (<[i := w3]> s2)
          | _ => None
          end
      | _ => None
      end
  | _ => None
  end.

Definition sweep (pairs : list (I * I)) (s : I → world) : option (I → world) :=
  foldl (λ o p, s ← o; sync_round p.1 p.2 s) (Some s) pairs.

(** It is [RoundOnce] against the peer as it stands. *)
Lemma sync_round_RoundOnce i j s s' :
  i ≠ j → sync_round i j s = Some s' →
  RoundOnce (E := E i) (call_peer (E j) (addr j) None (s j)) (addr j) (s i) = (Ok tt, s' i).
Proof.
  intros Hne. rewrite RoundOnce_parts. unfold sync_round, mbind, M_bind.
  destruct (round_begin _ _) as [[[req evWm]|e|] w1]; [|done..]. cbn [fst snd].
  unfold call_peer. rewrite fn_lookup_insert_ne by done.
  destruct (Server_Pull _ _ (s j)) as [[resp|e|] w2]; [|done..]. cbn [fst].
  rewrite fn_lookup_insert_ne, fn_lookup_insert by done.
  destruct (round_finish _ _ _ w1) as [[[]|e|] w3]; [|done..]. intros [= <-].
  by rewrite fn_lookup_insert.
Qed.

Definition round_labels (p : I * I) : list label := [LBegin p.1 p.2; LServe p.2; LDone p.1 p.2 true].

Lemma sync_round_run i j s s' pd :
  i ≠ j → sync_round i j s = Some s' →
  mrun E addr (mkMesh s pd []) (round_labels (i, j)) (mkMesh s' pd []).
Proof.
  intros Hne. unfold sync_round.
  destruct (round_begin _ _) as [[[req evWm]|e|] w1] eqn:Hb; [|done..].
  destruct (Server_Pull _ _ _) as [[resp|e|] w2] eqn:Hs; [|done..].
  destruct (round_finish _ _ _ _) as [[[]|e|] w3] eqn:Hf; [|done..]. intros [= <-].
  econstructor; [by apply ms_begin|]. econstructor; [by apply (ms_serve E addr i j req evWm _ _ [] [])|].
  econstructor; [|constructor]. apply (ms_finish E addr i j evWm resp _ _ [] [] _ _ Hf).
Qed.

Lemma mrun_app m ls m1 ls' m2 : mrun E addr m ls m1 → mrun E addr m1 ls' m2 → mrun E addr m (ls ++ ls') m2.
Proof. induction 1 as [|m l m' ls m1 Hstep _ IH]; [done|]. intros. econstructor; [done|auto]. Qed.

Lemma sweep_cons p pairs s : sweep (p :: pairs) s = sync_round p.1 p.2 s ≫= sweep pairs.
Proof.
  unfold sweep. simpl. destruct (sync_round p.1 p.2 s) as [s1|]; simpl; [done|].
  induction pairs as [|q pairs IH]; [done|]. exact IH.
Qed.

Lemma sweep_run pairs s s' pd :
  (∀ p, p ∈ pairs → p.1 ≠ p.2) → sweep pairs s = Some s' →
  mrun E addr (mkMesh s pd []) (pairs ≫= round_labels) (mkMesh s' pd []).
Proof.
  revert s. induction pairs as [|[i j] pairs IH]; intros s Hp.
  { intros [= <-]. constructor. }
  rewrite sweep_cons. cbn [fst snd]. destruct (sync_round i j s) as [s1|] eqn:H1; [|done].
  simpl. intros H2. apply (mrun_app _ (round_labels (i, j)) (mkMesh s1 pd [])).
  - apply sync_round_run; [|done]. by apply (Hp (i, j)), elem_of_cons; left.
  - apply IH; [|done]. intros p Hin. apply Hp. by right.
Qed.

(** ** The log invariant on the mesh *)

Context (Hjson : payloads_read_back).

Lemma mstep_log m l m' :
  mstep E addr m l m' → (∀ i, log_ok (w_db (nodes m i))) → ∀ i, log_ok (w_db (nodes m' i)).
Proof.
  intros Hstep Hlog.
  assert (∀ s i w', (∀ i, log_ok (w_db (s i))) → log_ok (w_db w') →
            ∀ k, log_ok (w_db ((<[i := w']> s : I → world) k))) as Hins.
  { intros s i w' Hs Hw'. apply (insert_cases s i w' (λ _ _ w', log_ok (w_db w'))); auto. }
  destruct Hstep as [i h s pd fl w' Hn Ht | i h op s pd p1 p2 fl r w' Hp Hrun
    | i j s pd fl req evWm w' Hne Hb | i j req evWm s pd fl1 fl2 resp w' Hs
    | i j evWm resp s pd fl1 fl2 r w' Hf | f s pd fl1 fl2
    | i s pd fl w' Hs]; cbn [nodes] in *; try done; apply Hins; try done.
  - apply (clock_Tick_db (E1 := E i)) in Ht as ->. done.
  - apply (wp_run _ _ _ _ _ (wp_perform_log (E := E i) h op (s i) (Hlog i)) Hrun).
  - apply begin_result in Hb as [[-> _] _]. done.
  - apply serve_result in Hs as [[-> _] _]. done.
  - apply (wp_run _ _ _ _ _ (wp_round_finish_log (E := E i) _ _ _ (s i) (Hlog i)) Hf).
  - by destruct Hs as [-> _].
Qed.

Lemma mrun_log m ls m' :
  mrun E addr m ls m' → (∀ i, log_ok (w_db (nodes m i))) → ∀ i, log_ok (w_db (nodes m' i)).
Proof. induction 1 as [|m l m1 ls m2 Hstep _ IH]; [done|]. intros Hlog. eapply IH, mstep_log; done. Qed.

Context (Hff : ∀ i, fault_free (E := E i)).

Lemma sync_round_ok i j s : (∀ k, log_ok (w_db (s k))) → i ≠ j → is_Some (sync_round i j s).
Proof.
  intros Hlog Hne. unfold sync_round.
  destruct (round_begin_ok (E := E i) (Hff i) (addr j) (s i)) as ([req evWm] & w1 & ->).
  rewrite fn_lookup_insert_ne by done.
  destruct (Server_Pull_ok Hjson (E := E j) (Hff j) (addr j) req (s j) (Hlog j)) as (resp & w2 & Hs).
  rewrite Hs. pose proof (serve_result _ _ _ _ _ _ Hs) as [_ Ha]. specialize (Ha _ eq_refl).
  destruct (round_finish_ok (E := E i) (Hff i) (addr j) evWm resp ((<[j:=w2]> (<[i:=w1]> s)) i))
    as [w3 ->]; [by eapply answer_log|]. by eexists.
Qed.

Lemma sweep_ok pairs s :
  (∀ k, log_ok (w_db (s k))) → (∀ p, p ∈ pairs → p.1 ≠ p.2) → is_Some (sweep pairs s).
Proof.
  revert s. induction pairs as [|[i j] pairs IH]; intros s Hlog Hp; [by eexists|].
  rewrite sweep_cons. cbn [fst snd]. assert (i ≠ j) as Hne by by apply (Hp (i, j)), elem_of_cons; left.
  destruct (sync_round_ok i j s Hlog Hne) as [s1 H1]. rewrite H1. simpl. apply IH.
  - pose proof (mrun_log _ _ _ (sync_round_run _ _ _ _ (λ _, []) Hne H1) Hlog) as Hlog1. exact Hlog1.
  - intros p Hin. apply Hp. by right.
Qed.


End Sweep.
