(* ===== verification/MeshExamples.v ===== *)
(** * Three nodes on concrete inputs

    Runs of the mesh produced by an executable scheduler, as witnesses of its theorems, and the two
    runs that show their side conditions are needed: two nodes that write one version differently,
    and a write that reaches its database after a newer one. *)

From S2P Require Import Prelude Hlc Model Metrics World Store Lattice Lww StoreSpec StoreProps Tombstones Checksum EventLog JsonCodec Transport Sync SyncSpec SyncProps Cluster ClusterExamples Mesh MeshLive.
Local Open Scope Z_scope.

#[local] Existing Instance calm_env.
#[local] Existing Instance codec.

Inductive node3 := NA | NB | NC.
#[export] Instance node3_eq_dec : EqDecision node3.
Proof. solve_decision. Defined.

Definition addr3 (i : node3) : string :=
  match i with NA => "a:9000" | NB => "b:9000" | NC => "c:9000" end.
#[export] Instance addr3_inj : Inj (=) (=) addr3.
Proof. by intros [] []. Qed.

Definition env3 (i : node3) : Env := calm_env.
Definition pairs3 : list (node3 * node3) := [(NA, NB); (NA, NC); (NB, NA); (NB, NC); (NC, NA); (NC, NB)].

Lemma pairs3_all (i j : node3) : i ≠ j ↔ (i, j) ∈ pairs3.
Proof. destruct i, j; unfold pairs3; set_solver. Qed.

(** ** A scheduler *)

Inductive cmd := CTick (i : node3) | CPut (i : node3) (n : nat) (op : write_op) | CRound (i j : node3).

(** The next command: read a clock, perform a write under the [n]th newest pending reading of a
    node, or run a round. *)
Definition exec1 (c : cmd) (m : mesh) : option (list (label (I := node3)) * mesh) :=
  let '(mkMesh s pd fl) := m in
  match c with
  | CTick i =>
      match clock_Tick (s i) with
      | (Ok h, w') =>
          if tick_wraps (env_now (w_n (s i))) (w_clock (s i)) then None
          else Some ([LTick i h], mkMesh (<[i := w']> s) (<[i := h :: pd i]> pd) fl)
      | _ => None
      end
  | CPut i n op =>
      match pd i !! n with
      | Some h =>
          let w' := (perform h op (s i)).2 in
          Some ([LPut i h (changed (t_rows (w_db (s i))) (t_rows (w_db w')))],
                mkMesh (<[i := w']> s) (<[i := take n (pd i) ++ drop (S n) (pd i)]> pd) fl)
      | None => None
      end
  | CRound i j =>
      match fl with
      | [] => (λ s', (round_labels (i, j), mkMesh s' pd [])) <$> sync_round env3 addr3 i j s
      | _ => None
      end
  end.

Fixpoint exec (cs : list cmd) (m : mesh) : option (list (label (I := node3)) * mesh) :=
  match cs with
  | [] => Some ([], m)
  | c :: cs => '(ls, m1) ← exec1 c m; '(ls', m2) ← exec cs m1; Some (ls ++ ls', m2)
  end.

Definition distinct (c : cmd) : Prop := match c with CRound i j => i ≠ j | _ => True end.

Lemma exec1_run c m ls m' : distinct c → exec1 c m = Some (ls, m') → mrun env3 addr3 m ls m'.
Proof.
  intros Hd. destruct m as [s pd fl], c as [i|i n op|i j]; cbn [exec1].
  - destruct (clock_Tick (s i)) as [[h|e|] w'] eqn:Ht; [|done..].
    destruct (tick_wraps _ _) eqn:Hw; [done|]. intros [= <- <-].
    eapply mrun_cons; [|apply mrun_nil]. by apply ms_tick.
  - destruct (pd i !! n) as [h|] eqn:Hl; [|done]. intros [= <- <-].
    eapply mrun_cons; [|apply mrun_nil].
    eapply (ms_put env3 addr3 i h op); [by rewrite (take_drop_middle _ _ _ Hl)|apply surjective_pairing].
  - destruct fl; [|done]. destruct (sync_round env3 addr3 i j s) as [s'|] eqn:Hs; [|done].
    intros [= <- <-]. by apply sync_round_run.
Qed.

Lemma exec_run cs m ls m' : Forall distinct cs → exec cs m = Some (ls, m') → mrun env3 addr3 m ls m'.
Proof.
  intros Hd. revert m ls m'. induction Hd as [|c cs Hc _ IH]; intros m ls m'; cbn [exec].
  { intros [= <- <-]. apply mrun_nil. }
  destruct (exec1 c m) as [[ls1 m1]|] eqn:H1; [|done]. simpl.
  destruct (exec cs m1) as [[ls2 m2]|] eqn:H2; [|done]. simpl. intros [= <- <-].
  eapply mrun_app; [by eapply exec1_run|by apply IH].
Qed.

Definition run3 (cs : list cmd) : list (label (I := node3)) * mesh :=
  default ([], mesh_fresh) (exec cs mesh_fresh).

Lemma run3_mrun cs :
  Forall distinct cs → bool_decide (is_Some (exec cs mesh_fresh)) = true →
  mrun env3 addr3 mesh_fresh (run3 cs).1 (run3 cs).2.
Proof.
  intros Hd [[ls m] Hs]%bool_decide_eq_true. unfold run3. rewrite Hs. by eapply exec_run.
Qed.

(** ** Witnesses *)

(** Writes that overlap across nodes: A and B read their clocks before either stores its row, C
    deletes what it has pulled from B while A pulls too. *)
Definition cmds3 : list cmd :=
  [CTick NA; CTick NB; CPut NB 0 (WPut KindRunner "b" "b/1" false "pb");
   CPut NA 0 (WPut KindRunner "a" "a/1" false "pa"); CRound NC NB; CTick NC;
   CPut NC 0 (WDelete KindRunner "b" "c/1"); CTick NA; CRound NB NA;
   CPut NA 0 (WPut KindRunner "a" "a/1" false "pa2")].

Definition ex3 : mesh := (run3 cmds3).2.
Definition ex3_labels : list (label (I := node3)) := (run3 cmds3).1.

Lemma ex3_reachable : mrun env3 addr3 mesh_fresh ex3_labels ex3.
Proof. apply run3_mrun; [repeat constructor; done|vm_compute; reflexivity]. Qed.

Lemma ex3_on_time : on_time [] ex3_labels = true.
Proof. vm_compute. reflexivity. Qed.

Lemma ex3_flights : flights ex3 = [].
Proof. vm_compute. reflexivity. Qed.


Definition sweep3 (m : mesh) : node3 → world := default (nodes m) (sweep env3 addr3 pairs3 (nodes m)).
Definition ex3_final : node3 → world := sweep3 ex3.

Lemma sweep3_some m :
  bool_decide (is_Some (sweep env3 addr3 pairs3 (nodes m))) = true →
  sweep env3 addr3 pairs3 (nodes m) = Some (sweep3 m).
Proof. intros [s' Hs]%bool_decide_eq_true. unfold sweep3. by rewrite Hs. Qed.

Lemma sweep3_quiet : Forall (quiet (I := node3)) (pairs3 ≫= round_labels).
Proof. repeat constructor. Qed.

Lemma sweep3_all_done (i j : node3) : i ≠ j → LDone i j true ∈ pairs3 ≫= round_labels.
Proof.
  intros Hne. apply list_elem_of_bind. exists (i, j). split; [|by apply pairs3_all].
  unfold round_labels. set_solver.
Qed.

Lemma pairs3_ne (p : node3 * node3) : p ∈ pairs3 → p.1 ≠ p.2.
Proof. destruct p as [i j]. by intros ?%pairs3_all. Qed.

Lemma ex3_sweep : mrun env3 addr3 ex3 (pairs3 ≫= round_labels) (mkMesh ex3_final (pending ex3) []).
Proof.
  assert (ex3 = mkMesh (nodes ex3) (pending ex3) []) as Heq.
  { pose proof ex3_flights as Hfl. destruct ex3 as [s pd fl]. simpl in *. by subst. }
  rewrite Heq at 1. apply sweep_run; [exact pairs3_ne|]. apply (sweep3_some ex3).
  vm_compute. reflexivity.
Qed.


Lemma codec_reads_back : payloads_read_back (J := codec).
Proof. intros [m|] s [= <-]; eexists; (split; [vm_compute; reflexivity|by eexists]). Qed.


(** ** The side conditions are needed *)

(** A puts its row and B pulls it; then A puts the row again while B buries the rows of A.  Both
    writes carry the same reading, and [DeleteByNode] keeps the owner, so one stamp names a live
    row and a tombstone. *)
Definition cmds_collide : list cmd :=
  [CTick NA; CPut NA 0 (WPut KindRunner "a" "a/1" false "p1"); CRound NB NA;
   CTick NA; CTick NB; CPut NA 0 (WPut KindRunner "a" "a/1" false "p2"); CPut NB 0 (WDeparture "a")].

(** The collision survives error-free sweeps: A and C keep the live row, B the tombstone, under one
    stamp, and no later round changes it. *)
Theorem stamp_collision :
  on_time [] (run3 cmds_collide).1 = true ∧
  let s := sweep3 (mkMesh (sweep3 (run3 cmds_collide).2) (λ _, []) []) in
  t_rows (w_db (s NA)) !! (KindRunner, "a"%string) = Some (mkCols "a/1" 1700000000000 1 0 "p2") ∧
  t_rows (w_db (s NC)) !! (KindRunner, "a"%string) = Some (mkCols "a/1" 1700000000000 1 0 "p2") ∧
  t_rows (w_db (s NB)) !! (KindRunner, "a"%string) = Some (mkCols "a/1" 1700000000000 1 1 "p1").
Proof. cbv zeta. split_and!; vm_compute; reflexivity. Qed.

(** Two goroutines of A: one reads the clock, the other reads it later and stores its row, B pulls,
    only then the first stores its own row; a third write follows. *)
Definition cmds_race : list cmd :=
  [CTick NA; CTick NA; CPut NA 0 (WPut KindMeta "second" "api/a" false "2"); CRound NB NA;
   CPut NA 0 (WPut KindMeta "first" "api/a" false "1");
   CTick NA; CPut NA 0 (WPut KindMeta "third" "api/a" false "3")].

(** The first row is below B's watermark: a sweep in which every round succeeds brings B the third
    row and not the first. *)
Theorem late_write_left_behind :
  on_time [] (run3 cmds_race).1 = false ∧
  bool_decide (is_Some (sweep env3 addr3 pairs3 (nodes (run3 cmds_race).2))) = true ∧
  let s := sweep3 (run3 cmds_race).2 in
  col_payload <$> t_rows (w_db (s NA)) !! (KindMeta, "first"%string) = Some "1"%string ∧
  col_payload <$> t_rows (w_db (s NB)) !! (KindMeta, "third"%string) = Some "3"%string ∧
  t_rows (w_db (s NB)) !! (KindMeta, "first"%string) = None.
Proof. cbv zeta. split_and!; vm_compute; reflexivity. Qed.
