(* ===== verification/Agent.v ===== *)
(** * The agent: internal/agent/agent.go, with internal/membership events and internal/backend/stub

    The agent publishes its runner under a fresh clock reading at every step, decides whether the
    runner drains, and turns membership changes into events and tombstones.  [Backend] is the
    source's interface; [Stub] is its implementation, over the sensor readings of gopsutil. *)

From S2P Require Import Prelude Hlc Model Metrics World Store.
Local Open Scope Z_scope.

(** ** Backends *)

(** [Backend]: a snapshot may read sensors, so it depends on when it is taken. *)
Class Backend (B : Type) := {
  Snapshot : B → nat → Runner;
  Backend_Step : B → B
}.

Module Stub.

Record Config := mkConfig {
  NodeID : string;
  Hostname : string;
  IP : string;
  Region : string;
  Version : string;
  Capacity : Z
}.

(** What one snapshot reads: memory and cpu percentages, free disk bytes (each absent on error),
    and the Unix time. *)
Record sensors := mkSensors {
  mem_used_percent : option float64;
  cpu_percent : option (list float64);
  disk_free : option Z;
  unix_now : Z
}.

Definition f64_100 : float64 := f64_of_Z 100.

Definition Stub_Snapshot (config : Config) (s : sensors) : Runner :=
  let memUtil := match mem_used_percent s with Some v => f64_div v f64_100 | None => S754_zero false end in
  let cpuUtil := match cpu_percent s with
                 | Some (c :: _) => f64_div c f64_100
                 | _ => S754_zero false
                 end in
  let freeDiskMB := match disk_free s with Some free => wrap_i64 (free / 1024 / 1024) | None => 0 end in
  mkRunner (NodeID config) (Hostname config) (IP config) (Region config) (Version config) RunnerActive
    (unix_now s) cpuUtil memUtil freeDiskMB (Capacity config) (Capacity config) (Some ∅).

(** The implementation of the interface, given what the sensors read at each call. *)
#[export] Instance stub_backend (read : nat → sensors) : Backend Config := {
  Snapshot config n := Stub_Snapshot config (read n);
  Backend_Step config := config
}.

End Stub.

(** ** Membership events *)

(** [membership.EventType] is an int. *)
Definition EventJoin : Z := 0.
Definition EventLeave : Z := 1.
Definition EventUpdate : Z := 2.

Record MemberEvent := mkMemberEvent { me_Type : Z; me_NodeID : string; me_IP : string }.

(** ** The agent *)

Record Agent (B : Type) := mkAgent {
  nodeID : string;
  epoch : string;
  backend : B;
  highMetricsCount : Z;
  normalMetricsCount : Z;
  isDraining : bool
}.
Arguments mkAgent {B}.
Arguments nodeID {B}.
Arguments epoch {B}.
Arguments backend {B}.
Arguments highMetricsCount {B}.
Arguments normalMetricsCount {B}.
Arguments isDraining {B}.

(** [New], with the random epoch as an argument. *)
Definition New {B} (nodeID epoch : string) (b : B) : Agent B := mkAgent nodeID epoch b 0 0 false.

Definition owner {B} (a : Agent B) : string := nodeID a +:+ "/" +:+ epoch a.

Definition isHot (r : Runner) : bool :=
  f64_geb (r_CPUUtil r) f64_0_90 || f64_geb (r_MemUtil r) f64_0_90 || (r_FreeDiskMB r <? 2000).

(** The counters and the draining flag of [Step]. *)
Definition count_metrics {B} (hot : bool) (a : Agent B) : Agent B :=
  let high := if hot then wrap_i64 (highMetricsCount a + 1) else 0 in
  let normal := if hot then 0 else wrap_i64 (normalMetricsCount a + 1) in
  let draining := if high >=? 5 then true else if normal >=? 5 then false else isDraining a in
  mkAgent (nodeID a) (epoch a) (backend a) high normal draining.

Section Agent.
Context `{E : Env, J : Json} {B : Type} `{BK : Backend B}.

Definition putRow (a : Agent B) (kind key : string) (v : Runner) (hlc : HLC) : M unit :=
  match Encode v with
  | None => throw ErrJson
  | Some payload => Put (mkRow kind key (owner a) hlc false payload)
  end.

Definition emit (a : Agent B) (t : string) (pl : payload) (hlc : HLC) : M unit :=
  AppendEvent (mkEvent 0 t (nodeID a) pl hlc).

Definition Start (a : Agent B) : M unit :=
  hlc ← clock_Tick;
  n ← next;
  let runner := set_Status RunnerActive (Snapshot (backend a) n) in
  _ ← putRow a KindRunner (Runner_Key runner) runner hlc;
  emit a EventRunnerJoined None hlc.

(** [Step]: the agent's fields change before the row is written, so they keep their new values
    when the write fails; the error is part of the result. *)
Definition Step (a : Agent B) : M (Agent B * result unit) :=
  let a := mkAgent (nodeID a) (epoch a) (Backend_Step (backend a))
             (highMetricsCount a) (normalMetricsCount a) (isDraining a) in
  hlc ← clock_Tick;
  n ← next;
  let runner := Snapshot (backend a) n in
  let a := count_metrics (isHot runner) a in
  let runner := set_Status (if isDraining a then RunnerDraining else RunnerActive) runner in
  err ← attempt (putRow a KindRunner (Runner_Key runner) runner hlc);
  mret (a, err).

(** One iteration of [handleMembershipEvents]: errors are only logged. *)
Definition handle_member_event (a : Agent B) (ev : MemberEvent) : M unit :=
  hlc ← clock_Tick;
  let report (eventType : string) : M unit :=
    _ ← attempt (emit a eventType
          (Some {[ "node_id" := AnyStr (me_NodeID ev); "ip" := AnyStr (me_IP ev) ]}) hlc);
    mret tt in
  if me_Type ev =? EventJoin then report EventRunnerJoined
  else if me_Type ev =? EventLeave then
    _ ← attempt (DeleteByNode (me_NodeID ev) hlc);
    report EventRunnerLeft
  else mret tt.

(** [Run] until the context ends: [Start], then one step per tick; step errors are logged.
    [time.NewTicker] panics on an interval that is not positive. *)
Fixpoint Run_steps (n : nat) (a : Agent B) : M (Agent B) :=
  match n with
  | O => mret a
  | S n => ar ← Step a; Run_steps n ar.1
  end.
Definition Agent_Run (interval : Z) (ticks : nat) (a : Agent B) : M (Agent B) :=
  _ ← Start a;
  if interval <=? 0 then panic else Run_steps ticks a.

End Agent.
