(* ===== verification/AgentProps.v ===== *)
(** * Properties of the agent

    The drain decision as a function of the history of readings; what a step publishes; what a
    node's departure does to the store. *)

From S2P Require Import Prelude Hlc Model Metrics World Store Lattice Lww StoreSpec StoreProps Tombstones EventLog JsonCodec Cluster Agent.
Local Open Scope Z_scope.

Implicit Types (w : world) (hs : list bool) (kk : string * string) (c : rowcols).

(** ** Draining *)

(** The number of newest readings equal to [b]. *)
Fixpoint streak (b : bool) (past : list bool) : nat :=
  match past with
  | h :: rest => if Bool.eqb h b then S (streak b rest) else O
  | [] => O
  end.

(** Reference definition, on the readings newest first: the newest run of five equal readings
    decides; before the first such run the runner does not drain. *)
Fixpoint drains (past : list bool) : bool :=
  match past with
  | [] => false
  | _ :: rest =>
      if bool_decide (5 ≤ streak true past)%nat then true
      else if bool_decide (5 ≤ streak false past)%nat then false
      else drains rest
  end.

Lemma streak_le b past : (streak b past ≤ length past)%nat.
Proof. induction past as [|h past IH]; simpl; [done|]. destruct (Bool.eqb h b); lia. Qed.

Lemma count_metrics_streak {B} (a : Agent B) hot past :
  Z.of_nat (length past) < max_i64 →
  highMetricsCount a = Z.of_nat (streak true past) →
  normalMetricsCount a = Z.of_nat (streak false past) → isDraining a = drains past →
  highMetricsCount (count_metrics hot a) = Z.of_nat (streak true (hot :: past)) ∧
  normalMetricsCount (count_metrics hot a) = Z.of_nat (streak false (hot :: past)) ∧
  isDraining (count_metrics hot a) = drains (hot :: past).
Proof.
  intros Hlen Hh Hn Hd. unfold max_i64 in Hlen.
  pose proof (streak_le true past). pose proof (streak_le false past).
  assert (∀ k, (k ≤ length past)%nat → wrap_i64 (Z.of_nat k + 1) = Z.of_nat (S k)) as Hw.
  { intros k Hk. rewrite wrap_i64_id; [lia|]. unfold in_i64, min_i64, max_i64. lia. }
  unfold count_metrics. cbn [highMetricsCount normalMetricsCount isDraining].
  rewrite Hh, Hn, Hd, !Hw by done. destruct hot; cbn [streak drains Bool.eqb]; split_and!; try done.
  - rewrite Z.geb_leb. destruct (Z.leb_spec 5 (Z.of_nat (S (streak true past)))).
    + by rewrite bool_decide_true by lia.
    + by rewrite bool_decide_false by lia.
  - change (0 >=? 5) with false. rewrite (bool_decide_false (5 ≤ 0)%nat) by lia.
    rewrite Z.geb_leb. destruct (Z.leb_spec 5 (Z.of_nat (S (streak false past)))).
    + by rewrite bool_decide_true by lia.
    + by rewrite bool_decide_false by lia.
Qed.

Section Agents.
Context `{E : Env, J : Json} {B : Type} `{BK : Backend B}.
Implicit Types (a : Agent B).

(** The row a step writes. *)
Definition published a (runner : Runner) (payload : string) (h : HLC) : Row :=
  mkRow KindRunner (r_RunnerID runner) (owner a) h false payload.

(** The agent after a reading, and the runner it publishes. *)
Definition after_reading a (r : Runner) : Agent B :=
  count_metrics (isHot r) (mkAgent (nodeID a) (epoch a) (Backend_Step (backend a))
    (highMetricsCount a) (normalMetricsCount a) (isDraining a)).
Definition published_runner a (r : Runner) : Runner :=
  set_Status (if isDraining (after_reading a r) then RunnerDraining else RunnerActive) r.

(** What the backend reports to a step taken in [w]: the call after the clock's. *)
Definition reading a w : Runner := Snapshot (Backend_Step (backend a)) (S (w_n w)).

Lemma wp_Step a Q w :
  (let clk := (Tick (env_now (w_n w)) (w_clock w)).2 in
     let r := reading a w in
     ∀ err db n', match err with
       | Ok _ => ∃ pl, Encode (published_runner a r) = Some pl ∧
                   db = upsertRowSQL (published a r pl (clock_hlc clk)) (w_db w)
       | Err e => db = w_db w ∧
           (db_error e ∨ e = ErrJson ∧ Encode (published_runner a r) = None)
       | Panic => False
       end → Q (Ok (after_reading a r, err)) (World db clk (w_met w) n')) →
  wp (Step a) Q w.
Proof.
  intros HQ. unfold Step. apply wp_tick. cbv zeta in HQ |- *. wp_step. apply wp_next_at.
  wp_step. wp_step. unfold putRow. cbn [backend w_n].
  change (Snapshot (Backend_Step (backend a)) (S (w_n w))) with (reading a w).
  change (count_metrics (isHot (reading a w)) _) with (after_reading a (reading a w)).
  set (r := reading a w) in *.
  change (set_Status _ r) with (published_runner a r).
  destruct (Encode (published_runner a r)) as [pl|] eqn:Hm.
  - apply wp_Put; intros; wp_step; apply HQ; cbn [w_db]; [by exists pl|split; auto].
  - wp_step. wp_step. apply HQ. auto.
Qed.

(** C23: A step publishes the runner the backend reports: after a successful write the agent's row is
    live, owned by nodeID/epoch, stamped with the clock's new reading, which is later than every
    earlier reading, and decodes to the reported runner with the status the drain decision gives;
    every other row is as before.  A failed write leaves the tables as they were, but the agent has
    counted the reading. *)
Theorem Step_publishes a w :
  clock_ok (w_clock w) → tick_wraps (env_now (w_n w)) (w_clock w) = false →
  let r := reading a w in
  wp (Step a) (λ res w', ∃ a' err, res = Ok (a', err) ∧ a' = after_reading a r ∧
    clock_hlc (w_clock w) ≺ clock_hlc (w_clock w') ∧
    (isDraining a' = true → r_Status (published_runner a r) = RunnerDraining) ∧
    (isDraining a' = false → r_Status (published_runner a r) = RunnerActive) ∧
    match err with
    | Ok _ => ∃ pl,
        select_row KindRunner (r_RunnerID r) (w_db w') =
          Some (mkRow KindRunner (r_RunnerID r) (nodeID a +:+ "/" +:+ epoch a)
                  (clock_hlc (w_clock w')) false pl) ∧
        (runner_json_ok (published_runner a r) = true →
           Decode pl = Some (norm_runner (published_runner a r))) ∧
        (∀ kk, kk ≠ (KindRunner, r_RunnerID r) →
           t_rows (w_db w') !! kk = t_rows (w_db w) !! kk)
    | Err e => w_db w' = w_db w ∧ (db_error e ∨ e = ErrJson)
    | Panic => False
    end) w.
Proof.
  intros Hok Hw r. apply wp_Step. cbv zeta. intros err db n' Herr.
  pose proof (Tick_after _ _ Hok Hw) as Hlt. rewrite Tick_clock in Hlt.
  destruct (Tick (env_now (w_n w)) (w_clock w)) as [h clk]. cbn [snd] in *.
  fold r in Herr |- *. exists (after_reading a r), err. cbn [w_db w_clock]. split_and!; [done|done|done| | |].
  1-2: unfold published_runner; by intros ->.
  destruct err as [[]|e|]; [|tauto|done].
  destruct Herr as (pl & Hm & ->). exists pl. split_and!.
  - exact (select_row_upsert_eq (published a r pl (clock_hlc clk)) (w_db w)).
  - intros Hj. destruct (Decode_Encode _ Hj) as (s & Hs & Hu). congruence.
  - intros kk Hne. simpl. by rewrite lookup_insert_ne by done.
Qed.

(** The readings of the next [k] steps, oldest first. *)
Fixpoint readings (k : nat) a w : list Runner :=
  match k with
  | O => []
  | S k =>
      reading a w :: match Step a w with
                     | (Ok (a', _), w') => readings k a' w'
                     | _ => []
                     end
  end.

Lemma wp_Run_steps k a w past :
  Z.of_nat (k + length past) < max_i64 →
  highMetricsCount a = Z.of_nat (streak true past) →
  normalMetricsCount a = Z.of_nat (streak false past) → isDraining a = drains past →
  wp (Run_steps k a) (λ res w', ∃ a', res = Ok a' ∧
    isDraining a' = drains (reverse (isHot <$> readings k a w) ++ past)) w.
Proof.
  revert a w past. induction k as [|k IH]; intros a w past Hk Hh Hn Hd.
  { apply wp_ret. by exists a. }
  cbn [Run_steps readings]. wp_step.
  assert (wp (Step a) (λ res w', ∃ err, res = Ok (after_reading a (reading a w), err)) w) as Hstep.
  { apply wp_Step. cbv zeta. intros err db n' _. by exists err. }
  unfold wp at 1. unfold wp in Hstep. destruct (Step a w) as [res w'].
  cbn [fst] in Hstep. destruct Hstep as [err ->]. cbn [fst snd].
  destruct (count_metrics_streak (mkAgent (nodeID a) (epoch a) (Backend_Step (backend a))
    (highMetricsCount a) (normalMetricsCount a) (isDraining a)) (isHot (reading a w)) past)
    as (H1 & H2 & H3); [lia|done..|].
  eapply wp_mono; [apply (IH _ _ (isHot (reading a w) :: past)); [simpl; lia|done..]|].
  intros r2 w2 (a' & -> & Ha'). exists a'. split; [done|].
  rewrite Ha', fmap_cons, reverse_cons, <-app_assoc. done.
Qed.

(** C15: Drain hysteresis: after any number of steps of a fresh agent, failed writes included, the
    runner drains exactly if the newest run of five equal readings was hot: five hot readings in a
    row start the drain, five normal ones end it, and anything shorter changes nothing. *)
Theorem drain_hysteresis id ep (b : B) k w :
  Z.of_nat k < max_i64 →
  wp (Run_steps k (New id ep b)) (λ res w', ∃ a', res = Ok a' ∧
    isDraining a' = drains (reverse (isHot <$> readings k (New id ep b) w))) w.
Proof.
  intros Hk. rewrite <-(app_nil_r (reverse _)). apply wp_Run_steps; [simpl; lia|done..].
Qed.

(** The event a membership change is logged with, under this agent's id. *)
Definition member_payload (ev : MemberEvent) : payload :=
  Some {[ "node_id" := AnyStr (me_NodeID ev); "ip" := AnyStr (me_IP ev) ]}.

Lemma wp_emit_next a t pl p n h (Q : result unit → world → Prop) w :
  fault_free → marshal_payload p = Some pl → 0 ≤ n < max_i64 → log_contiguous (nodeID a) n (w_db w) →
  (∀ m, Q (Ok tt) (upd w (set_events (<[(nodeID a, n + 1) := mkEv t pl (TS h) (Seq h)]> (t_events (w_db w)))
                            (w_db w)) m)) →
  wp (emit a t p h) Q w.
Proof.
  intros Hff Hpl Hn Hc HQ. unfold emit.
  apply (wp_AppendEvent_next (mkEvent 0 t (nodeID a) p h) pl n); [done..|].
  intros er m He. by apply fault_free_no_error in He.
Qed.

Lemma wp_emit_frame a t p h (Q : result unit → world → Prop) w :
  (∀ r w', r ≠ Panic → t_rows (w_db w') = t_rows (w_db w) → t_watermarks (w_db w') = t_watermarks (w_db w) →
     w_clock w' = w_clock w → Q r w') →
  wp (emit a t p h) Q w.
Proof. intros HQ. unfold emit. apply wp_AppendEvent_any; intros; by apply HQ. Qed.

Lemma wp_DeleteByNode_frame node h (Q : result unit → world → Prop) w :
  (∀ r w', r ≠ Panic → t_watermarks (w_db w') = t_watermarks (w_db w) → w_clock w' = w_clock w → Q r w') →
  wp (DeleteByNode node h) Q w.
Proof. intros HQ. apply wp_DeleteByNode; intros; by apply HQ. Qed.

(** C33: Handling a membership event never fails, whatever the driver does; it moves the clock
    forward and no watermark; only the departure of a node changes rows, and anything but an
    arrival or a departure changes nothing.  When no driver call fails and the node id has no LIKE
    wildcards, a departure buries, under the new clock reading, exactly the live rows whose owner
    consists of an id equal to the node's up to ASCII case, a slash, and anything; and the arrival
    or departure is logged under this agent's id, as the next number of its log, with the node's id
    and address and the new clock reading. *)
Theorem member_leave_buries a ev w :
  clock_ok (w_clock w) → tick_wraps (env_now (w_n w)) (w_clock w) = false →
  wp (handle_member_event a ev) (λ res w', res = Ok tt ∧
    clock_hlc (w_clock w) ≺ clock_hlc (w_clock w') ∧
    t_watermarks (w_db w') = t_watermarks (w_db w) ∧
    (me_Type ev ≠ EventLeave → t_rows (w_db w') = t_rows (w_db w)) ∧
    (me_Type ev ≠ EventLeave → me_Type ev ≠ EventJoin → w_db w' = w_db w)) w ∧
  (fault_free → no_wildcards (me_NodeID ev) = true → me_Type ev = EventLeave →
   wp (handle_member_event a ev) (λ _ w',
     (∀ kk, is_Some (t_rows (w_db w') !! kk) ↔ is_Some (t_rows (w_db w) !! kk)) ∧
     ∀ kk c, t_rows (w_db w) !! kk = Some c →
       (selects_owner (me_NodeID ev) (col_owner c) ∧ col_tombstone c = 0 →
        t_rows (w_db w') !! kk = Some (mkCols (col_owner c) (c_ts (w_clock w')) (c_seq (w_clock w'))
                                         1 (col_payload c))) ∧
       (¬ selects_owner (me_NodeID ev) (col_owner c) ∨ col_tombstone c ≠ 0 →
        t_rows (w_db w') !! kk = Some c)) w) ∧
  (fault_free → ∀ n pl, 0 ≤ n < max_i64 → log_contiguous (nodeID a) n (w_db w) →
   marshal_payload (member_payload ev) = Some pl → me_Type ev = EventJoin ∨ me_Type ev = EventLeave →
   wp (handle_member_event a ev) (λ _ w',
     t_events (w_db w') =
       <[(nodeID a, n + 1) := mkEv (if me_Type ev =? EventJoin then "RunnerJoined" else "RunnerLeft")
           pl (c_ts (w_clock w')) (c_seq (w_clock w'))]> (t_events (w_db w))) w).
Proof.
  intros Hok Hw. pose proof (Tick_after _ _ Hok Hw) as Hlt. rewrite Tick_clock in Hlt.
  unfold handle_member_event. fold (member_payload ev).
  split_and!; [|intros Hf Hn Hl|intros Hf n pl Hn Hc Hpl Hty]; apply wp_tick; cbv zeta;
    destruct (Tick (env_now (w_n w)) (w_clock w)) as [h clk]; cbn [snd] in *; unfold EventJoin, EventLeave in *.
  - destruct (Z.eqb_spec (me_Type ev) 0) as [H0|H0].
    { wp_step. wp_step. apply wp_emit_frame. intros r w' Hr Hrows Hm Hclk. destruct r; [| |done];
        wp_step; rewrite Hclk; (split_and!; [done|done|done|done|done]). }
    destruct (Z.eqb_spec (me_Type ev) 1) as [H1|H1]; [|wp_step; by split_and!].
    wp_step. wp_step. apply wp_DeleteByNode_frame. intros r1 w1 Hr1 Hm1 Hc1. destruct r1; [| |done];
      wp_step; wp_step; apply wp_emit_frame; intros r w' Hr Hrows Hm Hclk; (destruct r; [| |done]);
      wp_step; rewrite Hclk, Hc1, Hm; (split_and!; [done|done|done|done|done]).
  - rewrite Hl. change (1 =? 0) with false. change (1 =? 1) with true. cbv iota.
    wp_step. wp_step. apply wp_DeleteByNode; cbn [w_db w_clock].
    2:{ intros e n He. by destruct (fault_free_no_error e Hf). }
    intros n. wp_step. wp_step. apply wp_emit_frame. intros r w' Hr Hrows _ Hclk. cbn [w_db w_clock upd] in *.
    assert ((∀ kk, is_Some (t_rows (w_db w') !! kk) ↔ is_Some (t_rows (w_db w) !! kk)) ∧
      ∀ kk c, t_rows (w_db w) !! kk = Some c →
        (selects_owner (me_NodeID ev) (col_owner c) ∧ col_tombstone c = 0 →
         t_rows (w_db w') !! kk = Some (mkCols (col_owner c) (c_ts (w_clock w')) (c_seq (w_clock w'))
                                          1 (col_payload c))) ∧
        (¬ selects_owner (me_NodeID ev) (col_owner c) ∨ col_tombstone c ≠ 0 →
         t_rows (w_db w') !! kk = Some c)) as Hrel; [|destruct r; [wp_step; exact Hrel..|done]].
    rewrite Hclk, Hrows. cbn [t_rows set_rows]. split.
    + intros kk. rewrite lookup_fmap. apply fmap_is_Some.
    + intros kk c Hkc. rewrite lookup_fmap, Hkc. simpl. unfold bury.
      pose proof (like_owner (me_NodeID ev) (col_owner c) Hn) as Hlike.
      destruct (sql_like _ _), (Z.eqb_spec (col_tombstone c) 0); simpl; naive_solver.
  - destruct (Z.eqb_spec (me_Type ev) 0) as [H0|H0].
    { wp_step. wp_step. apply (wp_emit_next a _ pl _ n); [done..|]. intros m. by wp_step. }
    destruct (Z.eqb_spec (me_Type ev) 1) as [H1|H1]; [|by destruct Hty].
    wp_step. wp_step. apply wp_DeleteByNode; cbn [w_db w_clock].
    2:{ intros e m He. by destruct (fault_free_no_error e Hf). }
    intros m. wp_step. wp_step. apply (wp_emit_next a _ pl _ n); [done..|]. intros m'. by wp_step.
Qed.

End Agents.

(** ** Concrete agents *)

#[local] Existing Instance calm_env.
#[local] Existing Instance codec.

(** A backend whose cpu is at 95% in the calls from the [from]-th on. *)
Definition ex_sensors (from n : nat) : Stub.sensors :=
  Stub.mkSensors (Some (f64_of_Z 10)) (Some [f64_of_Z (if (from <=? n)%nat then 95 else 10)])
    (Some (50000 * 1024 * 1024)) 1700000000.
Definition ex_config : Stub.Config := Stub.mkConfig "n1" "host" "10.0.0.1" "eu" "1.0" 4.
#[local] Instance ex_backend : Backend Stub.Config := Stub.stub_backend (ex_sensors 0).
Definition ex_fresh : world := World empty_tables NewClock zero_metrics 0.

Lemma Step_publishes_witness :
  let a := New "n1" "e1" ex_config in
  let r := reading a ex_fresh in
  wp (Step a) (λ res w', ∃ a' err, res = Ok (a', err) ∧ a' = after_reading a r ∧
    clock_hlc (w_clock ex_fresh) ≺ clock_hlc (w_clock w') ∧
    (isDraining a' = true → r_Status (published_runner a r) = RunnerDraining) ∧
    (isDraining a' = false → r_Status (published_runner a r) = RunnerActive) ∧
    match err with
    | Ok _ => ∃ pl,
        select_row KindRunner (r_RunnerID r) (w_db w') =
          Some (mkRow KindRunner (r_RunnerID r) "n1/e1" (clock_hlc (w_clock w')) false pl) ∧
        (runner_json_ok (published_runner a r) = true →
           Decode pl = Some (norm_runner (published_runner a r))) ∧
        (∀ kk, kk ≠ (KindRunner, r_RunnerID r) →
           t_rows (w_db w') !! kk = t_rows (w_db ex_fresh) !! kk)
    | Err e => w_db w' = w_db ex_fresh ∧ (db_error e ∨ e = ErrJson)
    | Panic => False
    end) ex_fresh.
Proof.
  apply (Step_publishes (New "n1" "e1" ex_config) ex_fresh).
  - unfold clock_ok, in_i64, min_i64, max_i64. simpl. lia.
  - vm_compute. reflexivity.
Defined.

(** Five hot readings: the run ends draining, and the row says so. *)
Lemma drain_hysteresis_witness :
  wp (Run_steps 5 (New "n1" "e1" ex_config)) (λ res w', ∃ a', res = Ok a' ∧
    isDraining a' = drains (reverse (isHot <$> readings 5 (New "n1" "e1" ex_config) ex_fresh)))
    ex_fresh ∧
  drains (reverse (isHot <$> readings 5 (New "n1" "e1" ex_config) ex_fresh)) = true ∧
  drains (reverse (isHot <$> readings 4 (New "n1" "e1" ex_config) ex_fresh)) = false.
Proof.
  split; [|split; vm_compute; reflexivity].
  apply (drain_hysteresis "n1" "e1" ex_config 5 ex_fresh). unfold max_i64. simpl. lia.
Defined.

Lemma member_leave_buries_witness :
  let c := mkCols "n2/e7" 5 0 0 "p" in
  let w := World (mkTables {[("runner", "n2")%string := c]} ∅ ∅) NewClock zero_metrics 0 in
  let ev := mkMemberEvent EventLeave "n2" "10.0.0.2" in
  let a := New "n1" "e1" ex_config in
  wp (handle_member_event a ev) (λ _ w',
    (∀ kk, is_Some (t_rows (w_db w') !! kk) ↔ is_Some (t_rows (w_db w) !! kk)) ∧
    ∀ kk c, t_rows (w_db w) !! kk = Some c →
      (selects_owner (me_NodeID ev) (col_owner c) ∧ col_tombstone c = 0 →
       t_rows (w_db w') !! kk = Some (mkCols (col_owner c) (c_ts (w_clock w')) (c_seq (w_clock w'))
                                        1 (col_payload c))) ∧
      (¬ selects_owner (me_NodeID ev) (col_owner c) ∨ col_tombstone c ≠ 0 →
       t_rows (w_db w') !! kk = Some c)) w ∧
  col_tombstone <$> t_rows (w_db (handle_member_event a ev w).2) !! ("runner", "n2")%string = Some 1 ∧
  ev_type <$> t_events (w_db (handle_member_event a ev w).2) !! ("n1"%string, 1) = Some "RunnerLeft"%string.
Proof.
  intros c w ev a. split; [|split; vm_compute; reflexivity].
  apply (member_leave_buries a ev w).
  - unfold clock_ok, in_i64, min_i64, max_i64. simpl. lia.
  - vm_compute. reflexivity.
  - intros n. reflexivity.
  - vm_compute. reflexivity.
  - reflexivity.
Defined.

(** A restarted process starts from a zero clock, not from what its store has seen: when the
    stored row of the runner is stamped ahead of the wall clock, the first write of the new
    process carries an older timestamp than the version its peers hold, so a peer that applies
    it keeps the old version. *)
Theorem restart_goes_back :
  let ahead := mkRow KindRunner "n1" "n1/e0" (mkHLC 1700000005000 0) false "old" in
  let w := World (upsertRowSQL ahead empty_tables) NewClock zero_metrics 0 in
  let w' := (Start (New "n1" "e1" ex_config) w).2 in
  (Start (New "n1" "e1" ex_config) w).1 = Ok tt ∧
  RHLC <$> select_row KindRunner "n1" (w_db w') = Some (mkHLC 1700000000000 0) ∧
  ∀ r, select_row KindRunner "n1" (w_db w') = Some r →
    newer r ahead = false ∧ merge_row r (t_rows (w_db w)) = t_rows (w_db w).
Proof.
  cbv zeta. split; [vm_compute; reflexivity|]. split; [vm_compute; reflexivity|].
  set (w' := (Start _ _).2).
  assert (RHLC <$> select_row KindRunner "n1" (w_db w') = Some (mkHLC 1700000000000 0)) as Hh
    by (vm_compute; reflexivity).
  intros r Hr. rewrite Hr in Hh. injection Hh as Hh. clearbody w'.
  assert (newer r (mkRow KindRunner "n1" "n1/e0" (mkHLC 1700000005000 0) false "old") = false) as Hn.
  { unfold newer. rewrite Hh. reflexivity. }
  split; [exact Hn|]. apply merge_row_absorb. apply newer_false in Hn.
  unfold select_row in Hr. destruct (t_rows (w_db w') !! _); [|done]. injection Hr as <-.
  eexists. split; [apply lookup_insert_eq|]. exact Hn.
Qed.
