(* ===== verification/Api.v ===== *)
(** * The HTTP API: internal/api/api.go

    Every handler as a computation of the process that ends in a response: the status and the value
    passed to [writeJSON].  Routing, headers and the text of the JSON are net/http and
    encoding/json. *)

From Stdlib Require Import Ascii.
From S2P Require Import Prelude Hlc Model Metrics World Store.
Local Open Scope Z_scope.

(** ** Requests and responses *)

Record Request := mkRequest {
  req_id : string;                          (* r.PathValue("id") *)
  req_query : gmap string (list string);    (* r.URL.Query() *)
  req_header : gmap string string;          (* r.Header, canonical names *)
  req_body : string
}.

(** [r.URL.Query().Get(k)] and [r.Header.Get(k)]. *)
Definition Query_Get (r : Request) (k : string) : string :=
  match req_query r !! k with Some (v :: _) => v | _ => ""%string end.
Definition Header_Get (r : Request) (k : string) : string := default ""%string (req_header r !! k).

Record ScoredRunner := mkScored { sr_Runner : Runner; sr_Score : float64 }.

Record ClusterStats := mkStats {
  active_runners : Z;
  worker_capacity : Z;
  available_workers : Z;
  avg_cpu_util : float64;
  avg_mem_util : float64
}.

(** The lines of the metrics text: comments, and samples with at most a status label. *)
Inductive metric_value := MInt (n : Z) | MFloat (f : float64).
Inductive metric_line :=
| Comment (text : string)
| Sample (name : string) (status : option Z) (v : metric_value).

Inductive body :=
| BHealth (node : string)
| BRunners (l : list Runner)
| BRunner (r : Runner)
| BLabels (m : gmap string string)
| BEvents (l : list Event)
| BSummary (node : string) (l : list Runner)
| BCluster (s : ClusterStats)
| BScored (l : list ScoredRunner)
| BMessage (error : string)
| BError (e : error)
| BMetrics (l : list metric_line)
| BText (s : string)
| BRedirect (path rawQuery : string)
| BEmpty.

Record Response := mkResponse { rp_status : Z; rp_body : body }.

Definition StatusOK : Z := 200.
Definition StatusNoContent : Z := 204.
Definition StatusBadRequest : Z := 400.
Definition StatusUnauthorized : Z := 401.
Definition StatusNotFound : Z := 404.
Definition StatusInternalServerError : Z := 500.

Definition writeJSON (status : Z) (v : body) : M Response := mret (mkResponse status v).
Definition writeError (e : error) : M Response := writeJSON StatusInternalServerError (BError e).

(** The double quote, for the texts that contain it. *)
Definition dq : string := String (ascii_of_nat 34) EmptyString.
Definition invalid_json : string :=
  "invalid json: expected {" +:+ dq +:+ "key" +:+ dq +:+ ": " +:+ dq +:+ "value" +:+ dq +:+ ", ...}".

(** ** Parameters *)

Definition digit (c : ascii) : option Z :=
  if byte_in 48 57 c then Some (Z.of_N (N_of_ascii c) - 48) else None.

Fixpoint digits (s : string) (acc : Z) : option Z :=
  match s with
  | EmptyString => Some acc
  | String c s' => match digit c with Some d => digits s' (10 * acc + d) | None => None end
  end.

(** strconv.Atoi: an optional sign and decimal digits, in the range of int. *)
Definition Atoi (s : string) : option Z :=
  let parse (neg : bool) (ds : string) : option Z :=
    match ds with
    | EmptyString => None
    | _ => match digits ds 0 with
           | Some n => let v := if neg then - n else n in
                       if (min_i64 <=? v) && (v <=? max_i64) then Some v else None
           | None => None
           end
    end in
  match s with
  | String c s' => if Ascii.eqb c "-"%char then parse true s'
                   else if Ascii.eqb c "+"%char then parse false s' else parse false s
  | EmptyString => None
  end.

Definition parsePagination (r : Request) : Z * Z :=
  let limit :=
    let v := Query_Get r "limit" in
    if bool_decide (v = ""%string) then -1
    else match Atoi v with Some l => if l >? 0 then l else -1 | None => -1 end in
  let offset :=
    let v := Query_Get r "offset" in
    if bool_decide (v = ""%string) then 0
    else match Atoi v with Some o => if o >=? 0 then o else 0 | None => 0 end in
  (limit, offset).

(** strings.SplitN(s, ":", 2). *)
Fixpoint split_colon (s : string) : option (string * string) :=
  match s with
  | EmptyString => None
  | String c s' =>
      if Ascii.eqb c ":"%char then Some (EmptyString, s')
      else match split_colon s' with Some (a, b) => Some (String c a, b) | None => None end
  end.

(** strings.TrimPrefix. *)
Fixpoint TrimPrefix_loop (s p : string) : option string :=
  match p, s with
  | EmptyString, _ => Some s
  | String a p', String b s' => if Ascii.eqb a b then TrimPrefix_loop s' p' else None
  | _, EmptyString => None
  end.
Definition TrimPrefix (s p : string) : string := default s (TrimPrefix_loop s p).

(** [filtered := evs[:0]; for _, e := range evs { if ... { filtered = append(filtered, e) } }]:
    the appends write into the array being read. *)
Fixpoint filter_in_place {A} (keep : A → bool) (fuel i k : nat) (arr : list A) : list A :=
  match fuel with
  | O => take k arr
  | S fuel =>
      match arr !! i with
      | Some e => if keep e then filter_in_place keep fuel (S i) (S k) (<[k := e]> arr)
                  else filter_in_place keep fuel (S i) k arr
      | None => take k arr
      end
  end.

(** ** Placement *)

Definition f64_10 : float64 := f64_of_Z 10.

(** [scoreRunner] with the random number [rnd]. *)
Definition scoreRunner (rnd : float64) (r : Runner) : float64 :=
  let base := f64_add (f64_sub (f64_sub (f64_mul (f64_of_Z (r_AvailableWorkers r)) f64_10)
                                        (f64_mul (r_CPUUtil r) (f64_of_Z 50)))
                               (f64_mul (r_MemUtil r) (f64_of_Z 30)))
                      (f64_div (f64_of_Z (r_FreeDiskMB r)) (f64_of_Z 1000)) in
  let jitter := f64_sub (f64_mul rnd f64_10) (f64_of_Z 5) in
  f64_add base jitter.

(** [rn.Labels[k]]: the zero value for a missing key or a nil map. *)
Definition label_value (rn : Runner) (k : string) : string :=
  match r_Labels rn with Some m => default ""%string (m !! k) | None => ""%string end.

Definition match_labels (queried : list string) (rn : Runner) : bool :=
  forallb (λ lbl, match split_colon lbl with
                  | Some (k, v) => bool_decide (label_value rn k = v)
                  | None => true
                  end) queried.

(** The loop over the runners: active, with a worker available, with the labels. *)
Definition eligible (queried : list string) (rn : Runner) : bool :=
  bool_decide (r_Status rn = RunnerActive) && negb (r_AvailableWorkers rn =? 0) &&
  match_labels queried rn.

(** The comparator of [sort.Slice], as the order it sorts by: [a] may precede [b] unless [b]
    scores higher. *)
Definition score_le (a b : ScoredRunner) : Prop := f64_gtb (sr_Score b) (sr_Score a) = false.
#[export] Instance score_le_dec : RelDecision score_le.
Proof. intros a b. unfold score_le. apply _. Defined.

(** ** Handlers *)

Section Server.
Context `{E : Env, J : Json}.
Context (nodeID adminToken : string).

Definition handleHealth : M Response := writeJSON StatusOK (BHealth nodeID).

(** The callback of [listRunners]: a payload that does not decode is skipped. *)
Definition collect_runner (out : list Runner) (r : Row) : list Runner * bool :=
  match Decode (Payload r) with
  | None => (out, true)
  | Some item => (out ++ [item], true)
  end.
Definition listRunners (limit offset : Z) : M (list Runner) :=
  List_ KindRunner limit offset ∅ collect_runner [].

Definition mergeMetaLabelsOne (runner : Runner) : M Runner :=
  got ← attempt (Get KindMeta (r_RunnerID runner));
  match got with
  | Ok (Some row) =>
      if Tombstone row then mret runner
      else match unmarshal_labels (Payload row) with
           | None => mret runner
           | Some extra =>
               mret (set_Labels (Some (default ∅ extra ∪ default ∅ (r_Labels runner))) runner)
           end
  | _ => mret runner
  end.

Fixpoint mergeMetaLabels (runners : list Runner) : M (list Runner) :=
  match runners with
  | [] => mret []
  | r :: rest => r' ← mergeMetaLabelsOne r; rest' ← mergeMetaLabels rest; mret (r' :: rest')
  end.

Definition handleRunners (r : Request) : M Response :=
  let '(limit, offset) := parsePagination r in
  items ← attempt (listRunners limit offset);
  match items with
  | Ok items => items ← mergeMetaLabels items; writeJSON StatusOK (BRunners items)
  | Err e => writeError e
  | Panic => panic
  end.

Definition not_found : M Response := writeJSON StatusNotFound (BMessage "runner not found").

(** [row, ok, err := s.store.Get(store.KindRunner, id)] with its two early returns. *)
Definition with_runner (id : string) (k : Row → M Response) : M Response :=
  got ← attempt (Get KindRunner id);
  match got with
  | Ok (Some row) => if Tombstone row then not_found else k row
  | Ok None => not_found
  | Err e => writeError e
  | Panic => panic
  end.

Definition handleRunner (r : Request) : M Response :=
  with_runner (req_id r) (λ row,
    match Decode (Payload row) with
    | None => writeError ErrJson
    | Some item => item ← mergeMetaLabelsOne item; writeJSON StatusOK (BRunner item)
    end).

Definition handleGetLabels (r : Request) : M Response :=
  with_runner (req_id r) (λ runnerRow,
    let labels := match Decode (Payload runnerRow) with
                  | Some runner => default ∅ (r_Labels runner)
                  | None => ∅
                  end in
    got ← attempt (Get KindMeta (req_id r));
    match got with
    | Err e => writeError e
    | Panic => panic
    | Ok (Some metaRow) =>
        if Tombstone metaRow then writeJSON StatusOK (BLabels labels)
        else match unmarshal_labels (Payload metaRow) with
             | Some extra => writeJSON StatusOK (BLabels (default ∅ extra ∪ labels))
             | None => writeJSON StatusOK (BLabels labels)
             end
    | Ok None => writeJSON StatusOK (BLabels labels)
    end).

(** The labels [handleUpdateLabels] merges into: [existing] after the dropped [Unmarshal]. *)
Definition existing_labels (got : option Row) : labels :=
  match got with
  | Some metaRow => if Tombstone metaRow then Some ∅ else unmarshal_labels_dropped (Payload metaRow)
  | None => Some ∅
  end.

(** [for k, v := range incoming { existing[k] = v }]: a write to a nil map panics. *)
Definition assign_labels (existing incoming : labels) : option labels :=
  match existing with
  | Some m => Some (Some (default ∅ incoming ∪ m))
  | None => if bool_decide (default ∅ incoming = ∅) then Some None else None
  end.

(** [payload, _ := json.Marshal(existing)]: the nil map is null. *)
Definition labels_payload (l : labels) : string :=
  match l with Some m => marshal_labels m | None => "null" end.

(** [handleUpdateLabels] from the label row it has read on: merge, tick, put, answer. *)
Definition update_labels (r : Request) (incoming : labels) (got : option Row) : M Response :=
  match assign_labels (existing_labels got) incoming with
  | None => panic
  | Some existing =>
      hlc ← clock_Tick;
      put ← attempt (Put (mkRow KindMeta (req_id r) ("api/" +:+ nodeID) hlc false
                            (labels_payload existing)));
      match put with
      | Err e => writeError e
      | Panic => panic
      | Ok _ => writeJSON StatusOK (BLabels (default ∅ existing))
      end
  end.

Definition handleUpdateLabels (r : Request) : M Response :=
  with_runner (req_id r) (λ _,
    match decode_labels (req_body r) with
    | None => writeJSON StatusBadRequest (BMessage invalid_json)
    | Some incoming =>
        got ← attempt (Get KindMeta (req_id r));
        match got with
        | Err e => writeError e
        | Panic => panic
        | Ok got => update_labels r incoming got
        end
    end).

Definition handleDeleteLabels (r : Request) : M Response :=
  hlc ← clock_Tick;
  res ← attempt (Delete KindMeta (req_id r) ("api/" +:+ nodeID) hlc);
  match res with
  | Err e => writeError e
  | Panic => panic
  | Ok _ => mret (mkResponse StatusNoContent BEmpty)
  end.

Definition events_limit (r : Request) : Z :=
  let limit :=
    let v := Query_Get r "limit" in
    if bool_decide (v = ""%string) then 100 else default 100 (Atoi v) in
  let limit := if limit <? 1 then 1 else limit in
  if limit >? 1000 then 1000 else limit.

Definition handleEvents (r : Request) : M Response :=
  evs ← attempt (Events (events_limit r));
  match evs with
  | Err e => writeError e
  | Panic => panic
  | Ok evs =>
      let runner := Query_Get r "runner" in
      let evs := if bool_decide (runner = ""%string) then evs
                 else filter_in_place (λ e, bool_decide (e_RunnerID e = runner)) (length evs) 0 0 evs in
      writeJSON StatusOK (BEvents evs)
  end.

Definition handleSummary : M Response :=
  items ← attempt (listRunners (-1) 0);
  match items with
  | Err e => writeError e
  | Panic => panic
  | Ok items => items ← mergeMetaLabels items; writeJSON StatusOK (BSummary nodeID items)
  end.

(** The accumulation loop of [handleCluster]; the counters are Go ints. *)
Definition add_stats (s : ClusterStats) (r : Runner) : ClusterStats :=
  if bool_decide (r_Status r = RunnerActive) then
    mkStats (wrap_i64 (active_runners s + 1)) (wrap_i64 (worker_capacity s + r_WorkerCapacity r))
      (wrap_i64 (available_workers s + r_AvailableWorkers r))
      (f64_add (avg_cpu_util s) (r_CPUUtil r)) (f64_add (avg_mem_util s) (r_MemUtil r))
  else s.
Definition zero_stats : ClusterStats := mkStats 0 0 0 (S754_zero false) (S754_zero false).
Definition cluster_stats (runners : list Runner) : ClusterStats :=
  let s := foldl add_stats zero_stats runners in
  if active_runners s >? 0 then
    mkStats (active_runners s) (worker_capacity s) (available_workers s)
      (f64_div (avg_cpu_util s) (f64_of_Z (active_runners s)))
      (f64_div (avg_mem_util s) (f64_of_Z (active_runners s)))
  else s.

Definition handleCluster : M Response :=
  runners ← attempt (listRunners (-1) 0);
  match runners with
  | Err e => writeError e
  | Panic => panic
  | Ok runners => writeJSON StatusOK (BCluster (cluster_stats runners))
  end.

(** The scoring loop: one random number per runner. *)
Fixpoint score_all (applyPenalty : bool) (runners : list Runner) : M (list ScoredRunner) :=
  match runners with
  | [] => mret []
  | rn :: rest =>
      n ← next;
      let sc := scoreRunner (env_rand n) rn in
      let sc := if applyPenalty then f64_sub sc (f64_of_Z 1000) else sc in
      scored ← score_all applyPenalty rest;
      mret (mkScored rn sc :: scored)
  end.

(** Which runners are placed: those of the region, or all with a penalty when it has none. *)
Definition final_eligible (region : string) (queried : list string) (runners : list Runner) :
    list Runner * bool :=
  let allEligible := filter (λ rn, eligible queried rn = true) runners in
  let regionEligible :=
    filter (λ rn, region = ""%string ∨ r_Region rn = region) allEligible in
  match regionEligible, allEligible with
  | _ :: _, _ => (regionEligible, false)
  | [], _ :: _ => (allEligible, true)
  | [], [] => ([], false)
  end.

Definition best_runner_body (r : Request) : M Response :=
  runners ← attempt (listRunners (-1) 0);
  match runners with
  | Err e => _ ← on_metrics (inc_counter PlacementErrors); writeError e
  | Panic => panic
  | Ok runners =>
      runners ← mergeMetaLabels runners;
      let '(finalEligible, applyPenalty) :=
        final_eligible (Query_Get r "region") (default [] (req_query r !! "label"%string)) runners in
      if bool_decide (length finalEligible = 0%nat) then
        _ ← on_metrics (inc_counter PlacementErrors);
        writeJSON StatusNotFound (BMessage "no available runners")
      else
        scored ← score_all applyPenalty finalEligible;
        n ← next;
        writeJSON StatusOK (BScored (merge_sort score_le (env_order n scored)))
  end.

Definition handleBestRunner (r : Request) : M Response :=
  _ ← on_metrics (inc_counter PlacementRequests);
  resp ← best_runner_body r;
  _ ← observe PlacementLatency;
  mret resp.

(** ** Middleware *)

(** [observeHTTP]: the status the handler wrote is counted. *)
Definition observeHTTP {R} (next : R → M Response) (r : R) : M Response :=
  resp ← next r;
  let status := if rp_status resp =? 0 then StatusOK else rp_status resp in
  _ ← on_metrics (inc_status status);
  mret resp.

Definition authorized (r : Request) : bool :=
  if bool_decide (adminToken = ""%string) then false
  else
    let got := Header_Get r "X-Takl-Admin-Token" in
    let got := if bool_decide (got = ""%string) then TrimPrefix (Header_Get r "Authorization") "Bearer "
               else got in
    String.eqb got adminToken.

Definition adminOnly (next : Request → M Response) (r : Request) : M Response :=
  if authorized r then next r
  else writeJSON StatusUnauthorized (BMessage "admin token required").

End Server.
