(* ===== verification/ApiProps.v ===== *)
(** * Properties of the HTTP API

    What the handlers answer, as functions of the tables: listings with the labels merged in,
    placement, the label operations, the event log. *)

From Stdlib Require Import Ascii.
From S2P Require Import Prelude Hlc Model Metrics World Store Lattice Lww StoreSpec StoreProps EventLog JsonCodec Api.
Local Open Scope Z_scope.

Implicit Types (t : tables) (w : world) (r : Request) (rn : Runner).

(** ** Listings *)

Section Listing.
Context `{E : Env, J : Json}.

(** The runners a listing shows: the live rows that decode, in key order. *)
Definition runners_of (limit offset : Z) t : list Runner :=
  omap (λ row, Decode (Payload row)) (window limit offset (live_rows KindRunner t)).

Lemma each_row_runner rows out :
  each_row collect_runner out rows = out ++ omap (λ row, Decode (Payload row)) rows.
Proof.
  revert out. induction rows as [|row rows IH]; intros out; simpl; [by rewrite app_nil_r|].
  unfold collect_runner at 1. destruct (Decode (Payload row)); simpl; [|apply IH].
  by rewrite IH, <-app_assoc.
Qed.

Lemma wp_listRunners limit offset Q w :
  (∀ n, Q (Ok (runners_of limit offset (w_db w))) (upd w (w_db w) n)) →
  (∀ e n, db_error e → Q (Err e) (upd w (w_db w) n)) →
  wp (listRunners limit offset) Q w.
Proof.
  intros Hok Herr. apply wp_List_nil; [|done]. intros n. rewrite each_row_runner. apply Hok.
Qed.

(** The labels written through the API, when there are any to merge. *)
Definition meta_labels t (id : string) : option (gmap string string) :=
  match select_row KindMeta id t with
  | Some row => if Tombstone row then None
                else default ∅ <$> unmarshal_labels (Payload row)
  | None => None
  end.

(** Reference definition of [mergeMetaLabelsOne]. *)
Definition with_labels t rn : Runner :=
  match meta_labels t (r_RunnerID rn) with
  | Some extra => set_Labels (Some (extra ∪ default ∅ (r_Labels rn))) rn
  | None => rn
  end.

(** Every runner merged, except where the driver failed on reading its labels. *)
Definition merged t rn rn' : Prop := rn' = with_labels t rn ∨ (rn' = rn ∧ ∃ e, db_error e).

Lemma wp_mergeMetaLabelsOne rn Q w :
  (∀ rn' n, merged (w_db w) rn rn' → Q (Ok rn') (upd w (w_db w) n)) →
  wp (mergeMetaLabelsOne rn) Q w.
Proof.
  intros HQ. unfold mergeMetaLabelsOne. wp_step. wp_step. apply wp_Get.
  2:{ intros e n He. wp_step. apply HQ. right. eauto. }
  intros n.
  assert (∀ rn', rn' = with_labels (w_db w) rn → Q (Ok rn') (upd w (w_db w) n)) as HQ'.
  { intros rn' ->. apply HQ. by left. }
  unfold with_labels, meta_labels in HQ'.
  destruct (select_row _ _ _) as [row|]; [|wp_step; by apply HQ'].
  destruct (Tombstone row); [wp_step; by apply HQ'|].
  destruct (unmarshal_labels (Payload row)); wp_step; by apply HQ'.
Qed.

Lemma wp_mergeMetaLabels rns Q w :
  (∀ rns' n, Forall2 (merged (w_db w)) rns rns' → Q (Ok rns') (upd w (w_db w) n)) →
  wp (mergeMetaLabels rns) Q w.
Proof.
  revert Q w. induction rns as [|rn rns IH]; intros Q w HQ.
  { cbn [mergeMetaLabels]. wp_step. specialize (HQ [] (w_n w)). destruct w. by apply HQ. }
  cbn [mergeMetaLabels]. wp_step. apply wp_mergeMetaLabelsOne. intros rn' n Hrn.
  wp_step. apply IH. cbn [w_db upd]. intros rns' n' Hrns. wp_step. apply HQ. by constructor.
Qed.

Lemma merged_fault_free t rns rns' :
  fault_free → Forall2 (merged t) rns rns' → rns' = with_labels t <$> rns.
Proof.
  intros Hf. induction 1 as [|rn rn' rns rns' [->|(_ & e & He)] _ ->]; [done|done|].
  by destruct (fault_free_no_error e Hf).
Qed.

End Listing.

(** ** Placement *)

(** A label key as a query can name it: up to the first colon. *)
Definition no_colon (k : string) : bool := all_chars (λ a, negb (Ascii.eqb a ":"%char)) k.

(** What the query asks of a runner: that it is active, has an available worker, and carries every
    label the query names as key:value. *)
Definition placeable (queried : list string) rn : Prop :=
  r_Status rn = RunnerActive ∧ r_AvailableWorkers rn ≠ 0 ∧
  ∀ lbl k v, lbl ∈ queried → lbl = k +:+ ":" +:+ v → no_colon k = true → label_value rn k = v.

Lemma split_colon_spec (s : string) :
  match split_colon s with
  | Some (k, v) => s = k +:+ ":" +:+ v ∧ no_colon k = true
  | None => ∀ k v, s ≠ k +:+ ":" +:+ v
  end.
Proof.
  induction s as [|c s IH]; [by intros [|??] ?|]. cbn [split_colon].
  destruct (Ascii.eqb_spec c ":"%char) as [Hc|Hc]; [by subst c|].
  destruct (split_colon s) as [[k v]|].
  - destruct IH as [-> Hk]. split; [done|]. unfold no_colon. cbn [all_chars].
    apply Ascii.eqb_neq in Hc. by rewrite Hc.
  - intros [|d k] v Hs; injection Hs as Hd Hs; [done|]. by apply (IH k v).
Qed.

Lemma no_colon_unique (k k' v v' : string) :
  no_colon k = true → no_colon k' = true → k +:+ ":" +:+ v = k' +:+ ":" +:+ v' → k = k' ∧ v = v'.
Proof.
  revert k'. induction k as [|c k IH]; intros [|c' k'] Hk Hk' Heq; unfold no_colon in *; simpl in *.
  - by injection Heq.
  - injection Heq as <- _. by simpl in Hk'.
  - injection Heq as -> _. by simpl in Hk.
  - injection Heq as -> Heq. apply andb_true_iff in Hk as [_ Hk], Hk' as [_ Hk'].
    destruct (IH k' Hk Hk' Heq) as [-> ->]. done.
Qed.

Lemma eligible_spec queried rn : eligible queried rn = true ↔ placeable queried rn.
Proof.
  unfold eligible, placeable, match_labels.
  rewrite !andb_true_iff, bool_decide_eq_true, negb_true_iff, Z.eqb_neq, forallb_forall.
  split; [intros [[Hs Hw] Hl]|intros (Hs & Hw & Hl)]; (split_and!; [done|done|]).
  - intros lbl k v Hin -> Hk. apply list_elem_of_In, Hl in Hin.
    pose proof (split_colon_spec (k +:+ ":" +:+ v)) as Hsp.
    destruct (split_colon _) as [[k' v']|]; [|by destruct (Hsp k v)].
    destruct Hsp as [Heq Hk']. apply bool_decide_eq_true in Hin.
    by destruct (no_colon_unique _ _ _ _ Hk Hk' Heq) as [-> ->].
  - intros lbl Hin. apply list_elem_of_In in Hin. pose proof (split_colon_spec lbl) as Hsp.
    destruct (split_colon lbl) as [[k v]|]; [|done]. destruct Hsp as [Heq Hk].
    apply bool_decide_eq_true. by eapply Hl.
Qed.

#[export] Instance placeable_dec queried rn : Decision (placeable queried rn).
Proof.
  destruct (eligible queried rn) eqn:He; [left; by apply eligible_spec|right].
  by rewrite <-eligible_spec, He.
Defined.

(** The runner is where the query wants it. *)
Definition in_region (region : string) rn : Prop := region = ""%string ∨ r_Region rn = region.

(** The candidates: the placeable runners, and those of them in the region. *)
Definition candidates queried (rns : list Runner) : list Runner := filter (placeable queried) rns.
Definition regional region queried (rns : list Runner) : list Runner :=
  filter (λ rn, placeable queried rn ∧ in_region region rn) rns.

Lemma final_eligible_spec region queried rns :
  final_eligible region queried rns =
    match regional region queried rns, candidates queried rns with
    | _ :: _, _ => (regional region queried rns, false)
    | [], _ :: _ => (candidates queried rns, true)
    | [], [] => ([], false)
    end.
Proof.
  unfold final_eligible.
  assert (filter (λ rn, eligible queried rn = true) rns = candidates queried rns) as ->.
  { apply list_filter_iff. intros rn. apply eligible_spec. }
  assert (filter (λ rn, region = ""%string ∨ r_Region rn = region) (candidates queried rns) =
          regional region queried rns) as ->; [|done].
  unfold candidates, regional. rewrite list_filter_filter. apply list_filter_iff.
  intros rn. unfold in_region. tauto.
Qed.

(** Non-NaN floats are compared like triples of integers. *)
Definition float_key (f : float64) : Z * Z * Z :=
  match f with
  | S754_zero _ => (0, 0, 0)
  | S754_infinity s => (if s then -2 else 2, 0, 0)
  | S754_nan => (0, 0, 0)
  | S754_finite s m e => if s then (-1, - e, - Zpos m) else (1, e, Zpos m)
  end.
Definition key_lt (a b : Z * Z * Z) : Prop :=
  a.1.1 < b.1.1 ∨ (a.1.1 = b.1.1 ∧ (a.1.2 < b.1.2 ∨ (a.1.2 = b.1.2 ∧ a.2 < b.2))).

Lemma f64_gtb_key a b :
  f64_is_nan a = false → f64_is_nan b = false →
  f64_gtb a b = true ↔ key_lt (float_key b) (float_key a).
Proof.
  unfold f64_gtb, SFltb, key_lt. intros Ha Hb.
  destruct a as [sa|sa| |sa ma ea], b as [sb|sb| |sb mb eb]; try discriminate Ha; try discriminate Hb;
    destruct sa, sb; simpl; try (split; [done|intros; lia]); try (split; [intros; lia|done]).
  - destruct (Z.compare_spec eb ea) as [He|He|He].
    + change (Pos.compare_cont Eq mb ma) with (mb ?= ma)%positive.
      destruct (Pos.compare_spec mb ma); simpl; split; try done; lia.
    + split; [done|lia].
    + split; [lia|done].
  - destruct (Z.compare_spec eb ea) as [He|He|He].
    + change (Pos.compare_cont Eq mb ma) with (mb ?= ma)%positive.
      destruct (Pos.compare_spec mb ma); simpl; split; try done; lia.
    + split; [lia|done].
    + split; [done|lia].
Qed.

(** Highest score first, over all pairs, when no score is NaN. *)
Definition best_first (l : list ScoredRunner) : Prop := StronglySorted score_le l.

#[export] Instance score_le_total : Total score_le.
Proof.
  intros a b. unfold score_le, f64_gtb, SFltb.
  destruct (sr_Score a) as [sa|sa| |sa ma ea], (sr_Score b) as [sb|sb| |sb mb eb]; simpl; auto;
    destruct sa, sb; simpl; auto; rewrite (Z.compare_antisym ea eb);
    destruct (ea ?= eb); simpl; auto;
    change (Pos.compare_cont Eq ma mb) with (ma ?= mb)%positive;
    change (Pos.compare_cont Eq mb ma) with (mb ?= ma)%positive;
    rewrite (Pos.compare_antisym ma mb); destruct (ma ?= mb)%positive; auto.
Qed.

Lemma score_le_trans a b c :
  f64_is_nan (sr_Score a) = false → f64_is_nan (sr_Score b) = false →
  f64_is_nan (sr_Score c) = false → score_le a b → score_le b c → score_le a c.
Proof.
  unfold score_le. intros Ha Hb Hc. rewrite <-!not_true_iff_false.
  rewrite !f64_gtb_key by done. unfold key_lt. lia.
Qed.

Lemma Sorted_best_first l :
  Forall (λ s, f64_is_nan (sr_Score s) = false) l → Sorted score_le l → best_first l.
Proof.
  intros Hnan. induction 1 as [|x l Hs IH Hhd]; [constructor|].
  apply Forall_cons in Hnan as [Hx Hl]. specialize (IH Hl). constructor; [done|].
  destruct Hhd as [|y l Hxy]; [constructor|]. apply StronglySorted_cons in IH as [Hy _].
  constructor; [done|]. apply Forall_cons in Hl as [Hny Hl].
  rewrite Forall_forall in Hy, Hl |- *. intros z Hz. apply (score_le_trans x y z); auto.
Qed.

Section Placement.
Context `{E : Env, J : Json}.

(** The score as the README states it: available workers × 10 − CPU × 50 − memory × 30 + free disk in
    MB / 1000, with a jitter of ±5 drawn as [rnd] from [0, 1); in float64. *)
Definition readme_score (rnd : float64) rn : float64 :=
  let workers := f64_mul (f64_of_Z (r_AvailableWorkers rn)) (f64_of_Z 10) in
  let cpu := f64_mul (r_CPUUtil rn) (f64_of_Z 50) in
  let mem := f64_mul (r_MemUtil rn) (f64_of_Z 30) in
  let disk := f64_div (f64_of_Z (r_FreeDiskMB rn)) (f64_of_Z 1000) in
  f64_add (f64_add (f64_sub (f64_sub workers cpu) mem) disk)
          (f64_sub (f64_mul rnd (f64_of_Z 10)) (f64_of_Z 5)).

(** A score a runner can get: with some draw from [0, 1), less 1000 outside of the region. *)
Definition scored_as (penalty : bool) rn (s : ScoredRunner) : Prop :=
  sr_Runner s = rn ∧ ∃ rnd, SFleb (S754_zero false) rnd = true ∧ SFltb rnd (f64_of_Z 1) = true ∧
    sr_Score s = if penalty then f64_sub (readme_score rnd rn) (f64_of_Z 1000) else readme_score rnd rn.

Lemma wp_score_all penalty rns Q w :
  (∀ l n, Forall2 (scored_as penalty) rns l → Q (Ok l) (upd w (w_db w) n)) →
  wp (score_all penalty rns) Q w.
Proof.
  revert Q w. induction rns as [|rn rns IH]; intros Q w HQ.
  { cbn [score_all]. wp_step. specialize (HQ [] (w_n w)). destruct w. by apply HQ. }
  cbn [score_all]. wp_step. wp_step. wp_step. apply IH. cbn [w_db upd]. intros l n2 Hl. wp_step.
  apply HQ. constructor; [|done]. split; [done|]. exists (env_rand n).
  destruct (env_rand_range n). by split_and!.
Qed.

(** The counters of the placement endpoint after a request: one request more, one error more if it
    failed. *)
Definition placement_counted (failed : bool) (m m' : Metrics) : Prop :=
  m_counter m' PlacementRequests = Counter_Inc (m_counter m PlacementRequests) ∧
  m_counter m' PlacementErrors =
    if failed then Counter_Inc (m_counter m PlacementErrors) else m_counter m PlacementErrors.

Lemma wp_best_runner_body r Q w :
  (∀ rns' n, Forall2 (merged (w_db w)) (runners_of (-1) 0 (w_db w)) rns' →
     let '(fin, penalty) := final_eligible (Query_Get r "region")
                              (default [] (req_query r !! "label"%string)) rns' in
     (fin = [] → Q (Ok (mkResponse StatusNotFound (BMessage "no available runners")))
                   (World (w_db w) (w_clock w) (inc_counter PlacementErrors (w_met w)) n)) ∧
     (∀ l l', fin ≠ [] → Forall2 (scored_as penalty) fin l' → l ≡ₚ l' → Sorted score_le l →
        Q (Ok (mkResponse StatusOK (BScored l))) (upd w (w_db w) n))) →
  (∀ e n, db_error e → Q (Ok (mkResponse StatusInternalServerError (BError e)))
     (World (w_db w) (w_clock w) (inc_counter PlacementErrors (w_met w)) n)) →
  wp (best_runner_body r) Q w.
Proof.
  intros Hok Herr. unfold best_runner_body, writeError, writeJSON. wp_step. wp_step. apply wp_listRunners.
  2:{ intros e n He. wp_step. wp_step. wp_step. by apply Herr. }
  intros n. wp_step. apply wp_mergeMetaLabels. cbn [w_db upd]. intros rns' n1 Hrns.
  pose proof (λ n, Hok rns' n Hrns) as Hok'. clear Hok.
  destruct (final_eligible _ _ rns') as [fin penalty]. case_bool_decide as Hfin.
  - apply nil_length_inv in Hfin. wp_step. wp_step. wp_step. by apply Hok'.
  - assert (fin ≠ []) by by intros ->. wp_step. apply wp_score_all. cbn [w_db upd]. intros l' n2 Hl'.
    wp_step. wp_step. wp_step. eapply Hok'; [done|exact Hl'| |apply Sorted_merge_sort; apply _].
    by rewrite merge_sort_Permutation, env_order_perm.
Qed.

Lemma scored_runners penalty rns l :
  Forall2 (scored_as penalty) rns l → sr_Runner <$> l = rns.
Proof. induction 1 as [|rn s rns l [Hs _] _ IH]; [done|]. by rewrite fmap_cons, Hs, IH. Qed.

Lemma scored_scores penalty rns l s :
  Forall2 (scored_as penalty) rns l → s ∈ l → scored_as penalty (sr_Runner s) s.
Proof.
  intros HF Hs. apply list_elem_of_lookup in Hs as [i Hs].
  destruct (Forall2_lookup_r _ _ _ _ _ HF Hs) as (rn & _ & [Hr Hsc]). split; [done|]. by rewrite Hr.
Qed.

(** What is answered for a non-empty choice of runners. *)
Definition ranking (penalty : bool) (chosen : list Runner) (l : list ScoredRunner) : Prop :=
  sr_Runner <$> l ≡ₚ chosen ∧ (∀ s, s ∈ l → scored_as penalty (sr_Runner s) s) ∧
  (Forall (λ s, f64_is_nan (sr_Score s) = false) l → best_first l).


End Placement.

(** ** Labels *)

Section Labels.
Context `{E : Env, J : Json}.
Context (node : string).

(** The runner exists: a live row. *)
Definition runner_row t (id : string) (row : Row) : Prop :=
  select_row KindRunner id t = Some row ∧ Tombstone row = false.

(** The labels the runner itself reports. *)
Definition own_labels (row : Row) : gmap string string :=
  match Decode (Payload row) with Some rn => default ∅ (r_Labels rn) | None => ∅ end.

Lemma wp_with_runner id row (k : Row → M Response) Q w :
  runner_row (w_db w) id row →
  (∀ n, wp (k row) Q (upd w (w_db w) n)) →
  (∀ e n, db_error e → Q (Ok (mkResponse StatusInternalServerError (BError e))) (upd w (w_db w) n)) →
  wp (with_runner id k) Q w.
Proof.
  intros [Hrow Ht] Hk Herr. unfold with_runner, writeError, writeJSON. wp_step. wp_step.
  apply wp_Get; [|intros e n He; wp_step; by apply Herr].
  intros n. rewrite Hrow, Ht. apply Hk.
Qed.

Lemma wp_handleGetLabels r row Q w :
  runner_row (w_db w) (req_id r) row →
  (∀ n, Q (Ok (mkResponse StatusOK (BLabels
            (default ∅ (meta_labels (w_db w) (req_id r)) ∪ own_labels row)))) (upd w (w_db w) n)) →
  (∀ e n, db_error e → Q (Ok (mkResponse StatusInternalServerError (BError e))) (upd w (w_db w) n)) →
  wp (handleGetLabels r) Q w.
Proof.
  intros Hrow Hok Herr. unfold handleGetLabels, writeError, writeJSON. eapply wp_with_runner; [done| |done].
  intros n. fold (own_labels row). wp_step. wp_step.
  apply wp_Get; [|intros e m He; wp_step; by apply Herr].
  intros m. cbn [w_db upd]. unfold meta_labels in Hok.
  destruct (select_row KindMeta (req_id r) (w_db w)) as [row'|].
  2:{ wp_step. specialize (Hok m). simpl in Hok. by rewrite map_empty_union in Hok. }
  destruct (Tombstone row').
  { wp_step. specialize (Hok m). simpl in Hok. by rewrite map_empty_union in Hok. }
  destruct (unmarshal_labels (Payload row')); wp_step; specialize (Hok m); simpl in Hok; [done|].
  by rewrite map_empty_union in Hok.
Qed.

(** The row a label update writes. *)
Definition label_row (id : string) (h : HLC) (m : gmap string string) : Row :=
  mkRow KindMeta id ("api/" +:+ node) h false (marshal_labels m).

Lemma wp_update_labels r incoming got m Q w :
  existing_labels got = Some m →
  (∀ clk n, Q (Ok (mkResponse StatusOK (BLabels (default ∅ incoming ∪ m))))
     (World (upsertRowSQL (label_row (req_id r) (clock_hlc clk) (default ∅ incoming ∪ m)) (w_db w))
        clk (w_met w) n)) →
  (∀ e clk n, db_error e → Q (Ok (mkResponse StatusInternalServerError (BError e)))
     (World (w_db w) clk (w_met w) n)) →
  wp (update_labels node r incoming got) Q w.
Proof.
  intros Hm Hok Herr. unfold update_labels, writeError, writeJSON. rewrite Hm.
  cbn [assign_labels labels_payload default].
  apply wp_tick. cbv zeta. wp_step. wp_step.
  apply wp_Put; cbn [w_db].
  - intros n. wp_step. apply (Hok (Tick _ _).2).
  - intros e n He. wp_step. by apply (Herr e (Tick _ _).2).
Qed.

Lemma select_meta_put id h m t :
  labels_utf8 m = true →
  meta_labels (upsertRowSQL (label_row id h m) t) id = Some m ∧
  ∀ row, runner_row t id row → runner_row (upsertRowSQL (label_row id h m) t) id row.
Proof.
  intros Hu. split.
  - unfold meta_labels.
    change (select_row KindMeta id (upsertRowSQL (label_row id h m) t)) with
      (select_row (Kind (label_row id h m)) (Key (label_row id h m)) (upsertRowSQL (label_row id h m) t)).
    rewrite select_row_upsert_eq. simpl. by rewrite unmarshal_marshal_labels.
  - intros row [Hr Ht]. split; [|done]. by rewrite select_row_upsert_ne.
Qed.

(** The labels set through the API so far: those of the live label row, none without one.  A label
    row that does not decode to a map has no such labels. *)
Definition set_before t (id : string) (m : gmap string string) : Prop :=
  match select_row KindMeta id t with
  | Some row => if Tombstone row then m = ∅ else unmarshal_labels (Payload row) = Some (Some m)
  | None => m = ∅
  end.

Lemma existing_set_before t id m :
  set_before t id m → existing_labels (select_row KindMeta id t) = Some m.
Proof.
  unfold set_before, existing_labels. destruct (select_row KindMeta id t) as [row|]; [|by intros ->].
  destruct (Tombstone row); [by intros ->|]. by apply unmarshal_labels_dropped_ok.
Qed.

(** C24: Labels read back.  Let a runner exist, let [m] be the labels set through the API before (none
    without a live label row, otherwise what that row decodes to), and let all labels be valid
    UTF-8.  After a label update answers 200, its answer is the submitted labels over [m], and
    reading the labels gives exactly these over the runner's own; an update or a read fails only
    with 500 on a driver error. *)
Theorem UpdateLabels_read_back r incoming row m w :
  runner_row (w_db w) (req_id r) row → decode_labels (req_body r) = Some incoming →
  set_before (w_db w) (req_id r) m → labels_utf8 (default ∅ incoming ∪ m) = true →
  wp (put ← handleUpdateLabels node r; got ← handleGetLabels r; mret (put, got))
     (λ res w', ∃ put got, res = Ok (put, got) ∧
        (put = mkResponse StatusOK (BLabels (default ∅ incoming ∪ m)) ∧
         got = mkResponse StatusOK (BLabels ((default ∅ incoming ∪ m) ∪ own_labels row)) ∨
         ∃ e, db_error e ∧ (put = mkResponse StatusInternalServerError (BError e) ∨
                            got = mkResponse StatusInternalServerError (BError e)))) w.
Proof.
  intros Hrow Hdec Hm%existing_set_before Hutf.
  assert (∀ (put : Response) w1, (∃ row', runner_row (w_db w1) (req_id r) row') →
    (∃ e, db_error e ∧ put = mkResponse StatusInternalServerError (BError e)) →
    wp (got ← handleGetLabels r; mret (put, got)) (λ res w', ∃ put got, res = Ok (put, got) ∧
      (put = mkResponse StatusOK (BLabels (default ∅ incoming ∪ m)) ∧
       got = mkResponse StatusOK (BLabels ((default ∅ incoming ∪ m) ∪ own_labels row)) ∨
       ∃ e, db_error e ∧ (put = mkResponse StatusInternalServerError (BError e) ∨
                          got = mkResponse StatusInternalServerError (BError e)))) w1) as Hfail.
  { intros put w1 [row' Hrow'] (e & He & ->). wp_step.
    eapply wp_handleGetLabels; [done|..]; intros; wp_step; eauto 10. }
  wp_step. unfold handleUpdateLabels, writeError, writeJSON.
  eapply wp_with_runner; [done| |intros e n He; apply Hfail; eauto].
  intros n. rewrite Hdec. wp_step. wp_step.
  apply wp_Get; [|intros e n1 He; wp_step; apply Hfail; eauto].
  intros n1. cbn [w_db upd]. eapply wp_update_labels; [done|..]; cbn [w_db upd].
  2:{ intros e clk n2 He. apply Hfail; eauto. }
  intros clk n2. wp_step.
  destruct (select_meta_put (req_id r) (clock_hlc clk) _ (w_db w) Hutf) as [Hmeta Hrun].
  eapply wp_handleGetLabels; cbn [w_db].
  - by apply Hrun.
  - intros n3. wp_step. rewrite Hmeta. eauto 10.
  - intros e n3 He. wp_step. eauto 10.
Qed.

(** *** Two updates at once *)

(** [handleUpdateLabels] up to and including its read of the label row: an early answer, or the
    submitted labels and the row it read. *)
Definition read_for_update (r : Request) : M (Response + labels * option Row) :=
  got ← attempt (Get KindRunner (req_id r));
  match got with
  | Ok (Some row) =>
      if Tombstone row then resp ← not_found; mret (inl resp)
      else match decode_labels (req_body r) with
           | None => resp ← writeJSON StatusBadRequest (BMessage invalid_json); mret (inl resp)
           | Some incoming =>
               got ← attempt (Get KindMeta (req_id r));
               match got with
               | Err e => resp ← writeError e; mret (inl resp)
               | Panic => panic
               | Ok got => mret (inr (incoming, got))
               end
           end
  | Ok None => resp ← not_found; mret (inl resp)
  | Err e => resp ← writeError e; mret (inl resp)
  | Panic => panic
  end.

Definition write_update (r : Request) (x : Response + labels * option Row) : M Response :=
  match x with inl resp => mret resp | inr (incoming, got) => update_labels node r incoming got end.

(** The handler is its read followed by its write. *)
Lemma handleUpdateLabels_parts r w :
  handleUpdateLabels node r w = (x ← read_for_update r; write_update r x) w.
Proof.
  unfold handleUpdateLabels, with_runner, read_for_update, not_found, writeError, writeJSON, panic, mbind, M_bind,
    mret, M_ret.
  destruct (attempt (Get KindRunner (req_id r)) w) as [[[[row|]|e|]|e|] w1]; try done.
  destruct (Tombstone row); [done|]. destruct (decode_labels (req_body r)) as [incoming|]; [|done].
  by destruct (attempt (Get KindMeta (req_id r)) w1) as [[[got|e|]|e|] w2].
Qed.

Lemma wp_read_for_update r incoming row Q w :
  fault_free → runner_row (w_db w) (req_id r) row → decode_labels (req_body r) = Some incoming →
  (∀ n, Q (Ok (inr (incoming, select_row KindMeta (req_id r) (w_db w)))) (upd w (w_db w) n)) →
  wp (read_for_update r) Q w.
Proof.
  intros Hf [Hrow Ht] Hdec HQ. unfold read_for_update. wp_step. wp_step.
  apply wp_Get; [|intros e n He; by destruct (fault_free_no_error e Hf)].
  intros n. rewrite Hrow, Ht, Hdec. wp_step. wp_step.
  apply wp_Get; [|intros e n' He; by destruct (fault_free_no_error e Hf)].
  intros n'. wp_step. apply HQ.
Qed.

(** C40: Two label updates of one runner, with no driver call failing: when the whole of the second
    runs between the first one's read of the label row and its write, both answer 200, each with its
    labels over those set before, but what is stored afterwards are the first one's labels over
    those set before: the second update is lost. *)
Theorem label_update_lost r1 r2 inc1 inc2 row m w :
  fault_free → req_id r2 = req_id r1 → runner_row (w_db w) (req_id r1) row →
  decode_labels (req_body r1) = Some inc1 → decode_labels (req_body r2) = Some inc2 →
  set_before (w_db w) (req_id r1) m →
  labels_utf8 (default ∅ inc1 ∪ m) = true → labels_utf8 (default ∅ inc2 ∪ m) = true →
  (∀ w0, handleUpdateLabels node r1 w0 = (x ← read_for_update r1; write_update r1 x) w0) ∧
  wp (x ← read_for_update r1; resp2 ← handleUpdateLabels node r2; resp1 ← write_update r1 x;
      mret (resp1, resp2))
     (λ res w', res = Ok (mkResponse StatusOK (BLabels (default ∅ inc1 ∪ m)),
                          mkResponse StatusOK (BLabels (default ∅ inc2 ∪ m))) ∧
        meta_labels (w_db w') (req_id r1) = Some (default ∅ inc1 ∪ m)) w.
Proof.
  intros Hf Hid Hrow Hd1 Hd2 Hm%existing_set_before Hu1 Hu2. split; [intros w0; apply handleUpdateLabels_parts|].
  wp_step. eapply wp_read_for_update; [done..|]. intros n. wp_step.
  unfold handleUpdateLabels. rewrite Hid.
  eapply wp_with_runner; [done| |intros e k He; by destruct (fault_free_no_error e Hf)].
  intros n1. rewrite Hd2. wp_step. wp_step.
  apply wp_Get; [|intros e k He; by destruct (fault_free_no_error e Hf)].
  intros n2. cbn [w_db upd]. eapply (wp_update_labels r2); [exact Hm| |intros e clk k He; by destruct (fault_free_no_error e Hf)].
  intros clk n3. cbn [write_update]. wp_step.
  eapply (wp_update_labels r1); [exact Hm| |intros e clk' k He; by destruct (fault_free_no_error e Hf)].
  intros clk' n4. wp_step. split; [done|]. cbn [w_db]. by apply select_meta_put.
Qed.

End Labels.

(** ** Events *)

(** The in-place filter never overwrites an element it has yet to read. *)
Lemma filter_in_place_filter {A} (keep : A → bool) (l : list A) :
  filter_in_place keep (length l) 0 0 l = filter (λ x, keep x = true) l.
Proof.
  enough (∀ done rest junk, filter_in_place keep (length rest) (length done + length junk) (length done)
            (done ++ junk ++ rest) = done ++ filter (λ x, keep x = true) rest) as H.
  { exact (H [] l []). }
  intros done rest. revert done. induction rest as [|x rest IH]; intros done junk.
  { simpl. by rewrite take_app_length, app_nil_r. }
  cbn [length filter_in_place].
  assert ((done ++ junk ++ x :: rest) !! (length done + length junk)%nat = Some x) as ->.
  { rewrite app_assoc, <-length_app. apply list_lookup_middle. done. }
  rewrite filter_cons. destruct (keep x) eqn:Hk.
  - rewrite decide_True by done.
    assert (∃ junk', <[length done := x]> (done ++ junk ++ x :: rest) = (done ++ [x]) ++ junk' ++ rest ∧
              length junk' = length junk) as (junk' & -> & Hj).
    { rewrite insert_app_r_alt by lia. rewrite Nat.sub_diag.
      destruct junk as [|y junk]; simpl.
      - exists []. by rewrite <-app_assoc.
      - exists (junk ++ [x]). rewrite length_app. simpl. split; [|lia].
        by rewrite <-!app_assoc. }
    replace (S (length done)) with (length (done ++ [x])) by (rewrite length_app; simpl; lia).
    replace (S (length done + length junk)) with (length (done ++ [x]) + length junk')%nat
      by (rewrite length_app; simpl; lia).
    rewrite IH. by rewrite <-app_assoc.
  - rewrite decide_False by done.
    replace (done ++ junk ++ x :: rest) with (done ++ (junk ++ [x]) ++ rest)
      by (by rewrite <-!app_assoc).
    replace (S (length done + length junk)) with (length done + length (junk ++ [x]))%nat
      by (rewrite length_app; simpl; lia).
    apply IH.
Qed.

Section EventsApi.
Context `{E : Env, J : Json}.

(** C36: The event endpoint answers with the newest events, as many as the limit clamped to 1..1000
    (100 by default) allows, oldest first, and with a runner filter with exactly those of them that
    are of that runner, in the same order: the filter that reuses the array loses none.  It answers
    500 on a driver error or a stored payload that does not decode. *)
Theorem handleEvents_newest r w :
  (Query_Get r "limit" = ""%string → events_limit r = 100) ∧
  (∀ n, Query_Get r "limit" ≠ ""%string → Atoi (Query_Get r "limit") = Some n →
     events_limit r = Z.max 1 (Z.min 1000 n)) ∧
  wp (handleEvents r) (λ res w', w_db w' = w_db w ∧ 1 ≤ events_limit r ≤ 1000 ∧
    ((∃ evs, newest_events (events_limit r) (w_db w) evs ∧
        res = Ok (mkResponse StatusOK (BEvents
                (filter (λ e, Query_Get r "runner" = ""%string ∨ e_RunnerID e = Query_Get r "runner") evs)))) ∨
     (∃ e, res = Ok (mkResponse StatusInternalServerError (BError e)) ∧
        (db_error e ∨ e = ErrJson ∧ undecodable (w_db w))))) w.
Proof.
  assert (1 ≤ events_limit r ≤ 1000) as Hlim by (unfold events_limit; zcases; lia).
  split; [unfold events_limit; by intros ->|]. split.
  { intros n Hne Hn. unfold events_limit. rewrite bool_decide_false, Hn by done. simpl. zcases; lia. }
  unfold handleEvents, writeError, writeJSON. wp_step. wp_step.
  apply wp_Events; intros; wp_step; (split_and!; [done|lia|lia|]); [left|right; eauto..].
  exists out. split.
  - by destruct (Z.leb_spec (events_limit r) 0); [lia|].
  - do 3 f_equal. case_bool_decide as Hr.
    + rewrite Hr. symmetry. apply filter_all. by left.
    + rewrite filter_in_place_filter. apply list_filter_iff. intros e.
      rewrite bool_decide_eq_true. naive_solver.
Qed.

End EventsApi.

(** ** Access *)

(** What [TrimPrefix] does: the rest after the prefix, or the string unchanged. *)
Lemma TrimPrefix_spec (s p : string) :
  (∃ rest, s = p +:+ rest ∧ TrimPrefix s p = rest) ∨
  ((∀ rest, s ≠ p +:+ rest) ∧ TrimPrefix s p = s).
Proof.
  unfold TrimPrefix.
  assert (match TrimPrefix_loop s p with
          | Some rest => s = p +:+ rest
          | None => ∀ rest, s ≠ p +:+ rest
          end) as H.
  { revert s. induction p as [|a p IH]; intros s; [by destruct s|].
    destruct s as [|b s]; [done|]. simpl. destruct (Ascii.eqb_spec a b) as [->|Hab].
    - specialize (IH s). destruct (TrimPrefix_loop s p); [by rewrite IH|].
      intros rest [= Hs]. by apply (IH rest).
    - intros rest [= Hs _]. congruence. }
  destruct (TrimPrefix_loop s p) as [rest|]; simpl; [left; eauto|by right].
Qed.

Section Access.
Context `{E : Env, J : Json}.

(** The token as a request may carry it. *)
Definition carries (token : string) (r : Request) : Prop :=
  Header_Get r "X-Takl-Admin-Token" = token ∨
  Header_Get r "X-Takl-Admin-Token" = ""%string ∧
  (Header_Get r "Authorization" = "Bearer " +:+ token ∨
   Header_Get r "Authorization" = token ∧ ∀ rest, token ≠ "Bearer " +:+ rest).

(** [authorized]: an admin token is configured and the request carries exactly that token, in
    X-Takl-Admin-Token or else as the Authorization header, with or without the Bearer scheme. *)
Lemma authorized_spec token r : authorized token r = true ↔ token ≠ ""%string ∧ carries token r.
Proof.
  unfold carries.
  unfold authorized. case_bool_decide as Ht; [naive_solver|]. rewrite String.eqb_eq.
  case_bool_decide as Hx.
  2:{ naive_solver. }
  rewrite Hx. destruct (TrimPrefix_spec (Header_Get r "Authorization") "Bearer ")
    as [(rest & Hs & ->)|[Hno ->]].
  - rewrite Hs. split.
    + intros ->. split; [done|]. right. split; [done|]. by left.
    + intros [_ [?|(_ & [Heq|[Heq Hn]])]]; [congruence| |].
      * by injection Heq.
      * by destruct (Hn rest).
  - split.
    + intros Heq. split; [done|]. right. split; [done|]. right. split; [done|]. by rewrite <-Heq.
    + intros [_ [?|(_ & [Heq|[Heq Hn]])]]; [congruence| |done]. by destruct (Hno token).
Qed.

(** A handler behind [adminOnly] runs only for an authorized request; every other one is answered
    401 without any effect. *)
Lemma adminOnly_gate token (h : Request → M Response) r w :
  adminOnly token h r w =
    if authorized token r then h r w
    else (Ok (mkResponse StatusUnauthorized (BMessage "admin token required")), w).
Proof. unfold adminOnly. by destruct (authorized token r). Qed.

End Access.

(** ** Runs *)

#[local] Existing Instance calm_env.
#[local] Existing Instance codec.

Definition ex_runner (id region : string) (workers : Z) (l : labels) : Runner :=
  mkRunner id "h" "10.0.0.1" region "1.0" RunnerActive 1700000000 (S754_zero false) (S754_zero false)
    50000 4 workers l.
Definition ex_runner_row (rn : Runner) : Row :=
  mkRow KindRunner (r_RunnerID rn) (r_RunnerID rn +:+ "/1") (mkHLC 5 0) false
    (default ""%string (Encode rn)).
Definition ex_world : world :=
  World (upsertRowSQL (ex_runner_row (ex_runner "n1" "eu" 3 (Some {["gpu" := "a100"]})))
          (upsertRowSQL (ex_runner_row (ex_runner "n2" "us" 0 None)) empty_tables))
    NewClock zero_metrics 0.
Definition ex_put (id : string) (m : gmap string string) : Request :=
  mkRequest id ∅ ∅ (encode_text m).


(** A runner with labels of its own and one set through the API. *)
Definition ex_labelled : world :=
  World (upsertRowSQL (label_row "n1" "n1" (mkHLC 6 0) {["zone" := "a"; "tier" := "tin"]}) (w_db ex_world))
    NewClock zero_metrics 0.

Lemma ex_set_before : set_before (w_db ex_labelled) "n1" {["zone" := "a"; "tier" := "tin"]}.
Proof. vm_compute. reflexivity. Qed.

Lemma UpdateLabels_read_back_witness :
  let r := ex_put "n1" {["tier" := "gold"]} in
  let row := ex_runner_row (ex_runner "n1" "eu" 3 (Some {["gpu" := "a100"]})) in
  let m : gmap string string := {["zone" := "a"; "tier" := "tin"]} in
  wp (put ← handleUpdateLabels "n1" r; got ← handleGetLabels r; mret (put, got))
     (λ res w', ∃ put got, res = Ok (put, got) ∧
        (put = mkResponse StatusOK (BLabels ({["tier" := "gold"]} ∪ m)) ∧
         got = mkResponse StatusOK (BLabels (({["tier" := "gold"]} ∪ m) ∪ own_labels row)) ∨
         ∃ e, db_error e ∧ (put = mkResponse StatusInternalServerError (BError e) ∨
                            got = mkResponse StatusInternalServerError (BError e)))) ex_labelled ∧
  (({["tier" := "gold"]} ∪ m) ∪ own_labels row) =
    {["tier" := "gold"; "zone" := "a"; "gpu" := "a100"]}.
Proof.
  intros r row m. split; [|vm_compute; reflexivity].
  refine (UpdateLabels_read_back "n1" r (Some {["tier" := "gold"]}) row m ex_labelled _ _ _ _).
  - split; vm_compute; reflexivity.
  - vm_compute. reflexivity.
  - exact ex_set_before.
  - vm_compute. reflexivity.
Defined.

Lemma label_update_lost_witness :
  let r1 := ex_put "n1" {["tier" := "gold"]} in
  let r2 := ex_put "n1" {["zone" := "b"]} in
  let m : gmap string string := {["zone" := "a"; "tier" := "tin"]} in
  ((∀ w0, handleUpdateLabels "n1" r1 w0 = (x ← read_for_update r1; write_update "n1" r1 x) w0) ∧
   wp (x ← read_for_update r1; resp2 ← handleUpdateLabels "n1" r2; resp1 ← write_update "n1" r1 x;
       mret (resp1, resp2))
      (λ res w', res = Ok (mkResponse StatusOK (BLabels ({["tier" := "gold"]} ∪ m)),
                           mkResponse StatusOK (BLabels ({["zone" := "b"]} ∪ m))) ∧
         meta_labels (w_db w') "n1" = Some ({["tier" := "gold"]} ∪ m)) ex_labelled) ∧
  (({["tier" := "gold"]} ∪ m) : gmap string string) !! "zone"%string = Some "a"%string.
Proof.
  intros r1 r2 m. split; [|vm_compute; reflexivity].
  refine (label_update_lost "n1" r1 r2 (Some {["tier" := "gold"]}) (Some {["zone" := "b"]})
           (ex_runner_row (ex_runner "n1" "eu" 3 (Some {["gpu" := "a100"]}))) m ex_labelled _ _ _ _ _ _ _ _).
  - intros n. reflexivity.
  - reflexivity.
  - split; vm_compute; reflexivity.
  - vm_compute. reflexivity.
  - vm_compute. reflexivity.
  - exact ex_set_before.
  - vm_compute. reflexivity.
  - vm_compute. reflexivity.
Defined.
