(* ===== verification/Route.v ===== *)
(** * Serving HTTP: api.Server's Handler, handleMetrics and the multiplexer it is built on

    [http.ServeMux] as [Handler] uses it: cleaning the path, matching it against the registered
    patterns, redirects, 404 and 405; [url.ParseQuery]; the metrics text as its lines.  The
    profiler's handlers (net/http/pprof) are a parameter. *)

From Stdlib Require Import Ascii.
From S2P Require Import Prelude GoText Hlc Model Metrics World Store Api.
Local Open Scope Z_scope.

(** ** net/url *)

Definition unhex (c : ascii) : option N :=
  let n := N_of_ascii c in
  if byte_in 48 57 c then Some (n - 48)%N
  else if byte_in 97 102 c then Some (n - 87)%N
  else if byte_in 65 70 c then Some (n - 55)%N else None.

(** [url.unescape]: percent escapes, and in a query plus signs; [None] is an error. *)
Fixpoint unescape (plus : bool) (s : string) : option string :=
  match s with
  | EmptyString => Some EmptyString
  | String c s1 =>
      if Ascii.eqb c "%" then
        match s1 with
        | String a (String b rest) =>
            match unhex a, unhex b with
            | Some x, Some y => String (ascii_of_N (16 * x + y)) <$> unescape plus rest
            | _, _ => None
            end
        | _ => None
        end
      else String (if plus && Ascii.eqb c "+" then " "%char else c) <$> unescape plus s1
  end.

(** [url.ParseQuery], its error dropped: a pair that cannot be read is left out. *)
Definition query_pair (part : string) : option (string * string) :=
  if has ";" part || bool_decide (part = ""%string) then None
  else
    let '(key, value) := default (part, ""%string) (cut "=" part) in
    match unescape true key, unescape true value with
    | Some k, Some v => Some (k, v)
    | _, _ => None
    end.
Definition ParseQuery (query : string) : gmap string (list string) :=
  foldl (λ m part, match query_pair part with
                   | Some (k, v) => <[k := default [] (m !! k) ++ [v]]> m
                   | None => m
                   end) ∅ (Split "&" query).

(** ** http.ServeMux *)

(** The segments of a pattern: a literal, a wildcard, and the trailing slash that matches any rest. *)
Inductive pseg := Lit (s : string) | Wild | Multi.

Inductive route :=
| RHealth | RMetrics | RBestRunner | RRunners | RRunner | RGetLabels | RUpdateLabels | RDeleteLabels
| REvents | RSummary | RCluster | RPprof (name : string).

Record pattern := mkPattern { p_Method : string; p_segs : list pseg; p_route : route }.

#[export] Instance pseg_eq_dec : EqDecision pseg.
Proof. solve_decision. Defined.
#[export] Instance route_eq_dec : EqDecision route.
Proof. solve_decision. Defined.

(** A node of the routing tree: the patterns whose consumed prefix matched, with what remains. *)
Definition node := list (list pseg * pattern).

Definition pseg_eqb (a b : pseg) : bool :=
  match a, b with Lit x, Lit y => String.eqb x y | Wild, Wild | Multi, Multi => true | _, _ => false end.

Definition child (seg : pseg) (n : node) : node :=
  omap (λ x, match x.1 with s :: rest => if pseg_eqb s seg then Some (rest, x.2) else None
                     | [] => None end) n.

Definition at_end (n : node) : option pattern :=
  head (omap (λ x, match x.1 with [] => Some x.2 | _ => None end) n).

(** [routingNode.matchPath]: a literal before a wildcard before a trailing slash, with backtracking;
    the final slash of a path is the segment "/". *)
Fixpoint matchPath (n : node) (segs matches : list string) : option (pattern * list string) :=
  match segs with
  | [] => (λ p, (p, matches)) <$> at_end n
  | seg :: rest =>
      match matchPath (child (Lit seg) n) rest matches with
      | Some r => Some r
      | None =>
          match (if String.eqb seg "/" then None
                 else matchPath (child Wild n) rest (matches ++ [seg])) with
          | Some r => Some r
          | None => (λ p, (p, matches)) <$> at_end (child Multi n)
          end
      end
  end.

(** The patterns of a method; a HEAD request falls back to GET. *)
Definition method_node (ps : list pattern) (method : string) : node :=
  (λ p, (p_segs p, p)) <$> filter (λ p, p_Method p = method) ps.
Definition tree_match (ps : list pattern) (method : string) (segs : list string) :
    option (pattern * list string) :=
  match matchPath (method_node ps method) segs [] with
  | Some r => Some r
  | None => if bool_decide (method = "HEAD"%string) then matchPath (method_node ps "GET") segs [] else None
  end.

Definition ends_in_slash (p : string) : bool :=
  match string_rev p with String c _ => Ascii.eqb c "/" | EmptyString => false end.

Definition cleanPath (p : string) : string :=
  if bool_decide (p = ""%string) then "/"%string
  else
    let p := match p with
             | String c _ => if Ascii.eqb c "/" then p else String "/" p
             | EmptyString => p
             end in
    let np := Clean p in
    if ends_in_slash p && negb (bool_decide (np = "/"%string)) then np +:+ "/" else np.

(** [firstSegment] along a path: the segments after its first slash, unescaped where they can be. *)
Fixpoint path_segs (parts : list string) : list string :=
  match parts with
  | [] => []
  | [p] => [if bool_decide (p = ""%string) then "/"%string else default p (unescape false p)]
  | p :: parts => default p (unescape false p) :: path_segs parts
  end.
Definition segments (path : string) : list string := path_segs (tail (Split "/" path)).

(** [exactMatch]. *)
Definition exactMatch (m : option (pattern * list string)) (path : string) : bool :=
  match m with
  | None => false
  | Some (p, _) =>
      if bool_decide (last (p_segs p) = Some Multi)
      then ends_in_slash path && bool_decide (length (p_segs p) = length (segments path))
      else true
  end.

(** The methods some pattern has for the path, with or without a final slash. *)
Definition allowed (ps : list pattern) (path : string) : bool :=
  existsb (λ m, bool_decide (is_Some (tree_match ps m (segments path))) ||
                (negb (ends_in_slash path) && bool_decide (is_Some (tree_match ps m (segments (path +:+ "/"))))))
    (p_Method <$> ps).

(** A request as net/http hands it over; [hr_EscapedPath] is [r.URL.EscapedPath()]. *)
Record HttpRequest := mkHttp {
  hr_Method : string;
  hr_RequestURI : string;
  hr_Path : string;
  hr_EscapedPath : string;
  hr_RawQuery : string;
  hr_header : gmap string string;
  hr_body : string
}.

Inductive mux_answer :=
| Serve (r : route) (matches : list string)
| Redirect (path rawQuery : string)
| NotFound
| MethodNotAllowed
| BadRequest.

Definition unmatched (ps : list pattern) (path : string) : mux_answer :=
  if allowed ps path then MethodNotAllowed else NotFound.

(** [ServeMux.findHandler], with the check of [ServeHTTP] before it. *)
Definition findHandler (ps : list pattern) (r : HttpRequest) : mux_answer :=
  if bool_decide (hr_RequestURI r = "*"%string) then BadRequest
  else if bool_decide (hr_Method r = "CONNECT"%string) then
    match tree_match ps (hr_Method r) (segments (hr_EscapedPath r)) with
    | Some (p, ms) => Serve (p_route p) ms
    | None => unmatched ps (hr_EscapedPath r)
    end
  else
    let path := cleanPath (hr_EscapedPath r) in
    let n := tree_match ps (hr_Method r) (segments path) in
    if negb (exactMatch n path) && negb (ends_in_slash path) &&
       exactMatch (tree_match ps (hr_Method r) (segments (path +:+ "/"))) (path +:+ "/")
    then Redirect (cleanPath (hr_Path r) +:+ "/") (hr_RawQuery r)
    else if negb (bool_decide (path = hr_EscapedPath r)) then Redirect path (hr_RawQuery r)
    else match n with
         | Some (p, ms) => Serve (p_route p) ms
         | None => unmatched ps path
         end.

(** ** The handlers *)

Definition Timer_Count (t : Timer) : Z := tm_count t.
(** [float64(t.total.Load()) / float64(time.Second)]. *)
Definition Timer_Seconds (t : Timer) : float64 := f64_div (f64_of_Z (tm_total t)) (f64_of_Z 1000000000).

Record Options := mkOptions { AdminToken : string; EnablePprof : bool }.

(** The server's own fields; the store and the clock are the process's. *)
Record Server := mkServer { s_nodeID : string; s_adminToken : string; s_enablePprof : bool }.

(** [New]: the first of the variadic options, or the zero value. *)
Definition New (nodeID : string) (opts : list Options) : Server :=
  let opt := default (mkOptions "" false) (head opts) in
  mkServer nodeID (AdminToken opt) (EnablePprof opt).

Section Handler.
Context `{E : Env, J : Json}.

(** [StatusCounters.Write]: one sample per status, in the order of the map's iteration. *)
Definition StatusCounters_Write (name : string) : M (list metric_line) :=
  n ← next;
  w ← get;
  mret ((λ kv, Sample name (Some kv.1) (MInt kv.2)) <$> env_order n (map_to_list (HTTPRequests (w_met w)))).

Definition counter_lines (m : Metrics) : list metric_line := [
    Comment "# HELP takl_placement_requests_total Total placement query requests.";
    Comment "# TYPE takl_placement_requests_total counter";
    Sample "takl_placement_requests_total" None (MInt (m_counter m PlacementRequests));
    Comment "# HELP takl_placement_errors_total Total placement query errors.";
    Comment "# TYPE takl_placement_errors_total counter";
    Sample "takl_placement_errors_total" None (MInt (m_counter m PlacementErrors));
    Comment "# HELP takl_placement_latency_seconds Placement query latency.";
    Comment "# TYPE takl_placement_latency_seconds summary";
    Sample "takl_placement_latency_seconds_count" None (MInt (Timer_Count (m_timer m PlacementLatency)));
    Sample "takl_placement_latency_seconds_sum" None (MFloat (Timer_Seconds (m_timer m PlacementLatency)));
    Comment "# HELP takl_sync_rounds_total Total sync rounds.";
    Comment "# TYPE takl_sync_rounds_total counter";
    Sample "takl_sync_rounds_total" None (MInt (m_counter m SyncRounds));
    Comment "# HELP takl_sync_round_errors_total Total failed sync rounds.";
    Comment "# TYPE takl_sync_round_errors_total counter";
    Sample "takl_sync_round_errors_total" None (MInt (m_counter m SyncRoundErrors));
    Comment "# HELP takl_sync_round_latency_seconds Sync round latency.";
    Comment "# TYPE takl_sync_round_latency_seconds summary";
    Sample "takl_sync_round_latency_seconds_count" None (MInt (Timer_Count (m_timer m SyncRoundLatency)));
    Sample "takl_sync_round_latency_seconds_sum" None (MFloat (Timer_Seconds (m_timer m SyncRoundLatency)));
    Comment "# HELP takl_sync_rows_applied_total Total replicated rows applied by sync.";
    Comment "# TYPE takl_sync_rows_applied_total counter";
    Sample "takl_sync_rows_applied_total" None (MInt (m_counter m SyncRowsApplied));
    Comment "# HELP takl_sync_events_applied_total Total replicated events applied by sync.";
    Comment "# TYPE takl_sync_events_applied_total counter";
    Sample "takl_sync_events_applied_total" None (MInt (m_counter m SyncEventsApplied));
    Comment "# HELP takl_sync_checksum_mismatches_total Total row checksum mismatches requiring reconciliation.";
    Comment "# TYPE takl_sync_checksum_mismatches_total counter";
    Sample "takl_sync_checksum_mismatches_total" None (MInt (m_counter m SyncChecksumMismatches));
    Comment "# HELP takl_sync_event_checksum_mismatches_total Total event checksum mismatches requiring reconciliation.";
    Comment "# TYPE takl_sync_event_checksum_mismatches_total counter";
    Sample "takl_sync_event_checksum_mismatches_total" None (MInt (m_counter m SyncEventChecksumMismatches)) ]%string.

(** [active], [capacity] and [available], Go ints. *)
Definition gauge_step (g : Z * Z * Z) (r : Runner) : Z * Z * Z :=
  let '(active, capacity, available) := g in
  if bool_decide (r_Status r = RunnerActive)
  then (wrap_i64 (active + 1), wrap_i64 (capacity + r_WorkerCapacity r),
        wrap_i64 (available + r_AvailableWorkers r))
  else g.

Definition gauge_lines (runners : list Runner) : list metric_line :=
  let '(active, capacity, available) := foldl gauge_step (0, 0, 0) runners in [
    Comment "# HELP takl_runners_total Total known non-tombstoned runners.";
    Comment "# TYPE takl_runners_total gauge";
    Sample "takl_runners_total" None (MInt (Z.of_nat (length runners)));
    Comment "# HELP takl_active_runners Total active runners.";
    Comment "# TYPE takl_active_runners gauge";
    Sample "takl_active_runners" None (MInt active);
    Comment "# HELP takl_worker_capacity Total active worker capacity.";
    Comment "# TYPE takl_worker_capacity gauge";
    Sample "takl_worker_capacity" None (MInt capacity);
    Comment "# HELP takl_available_workers Total active available workers.";
    Comment "# TYPE takl_available_workers gauge";
    Sample "takl_available_workers" None (MInt available) ]%string.

Definition handleMetrics : M Response :=
  statuses ← StatusCounters_Write "takl_http_requests_total";
  w ← get;
  let lines := [Comment "# HELP takl_http_requests_total Total HTTP requests by status code.";
                Comment "# TYPE takl_http_requests_total counter" ]%string ++ statuses ++
               counter_lines (w_met w) in
  runners ← attempt (listRunners (-1) 0);
  match runners with
  | Ok runners => writeJSON StatusOK (BMetrics (lines ++ gauge_lines runners))
  | Err _ => writeJSON StatusOK (BMetrics (lines ++ [Sample "takl_metrics_store_error" None (MInt 1)]))
  | Panic => panic
  end.

(** ** Handler *)

Definition api (rest : list string) : list pseg := Lit <$> (["api"; "v1"]%string ++ rest).
Definition runner_segs (rest : list pseg) : list pseg := api ["runners"%string] ++ (Wild :: rest).

Definition base_patterns : list pattern := [
  mkPattern "GET" [Lit "healthz"] RHealth;
  mkPattern "GET" [Lit "metrics"] RMetrics;
  mkPattern "GET" (api ["runners"; "best"]) RBestRunner;
  mkPattern "GET" (api ["runners"]) RRunners;
  mkPattern "GET" (runner_segs []) RRunner;
  mkPattern "GET" (runner_segs [Lit "labels"]) RGetLabels;
  mkPattern "PUT" (runner_segs [Lit "labels"]) RUpdateLabels;
  mkPattern "DELETE" (runner_segs [Lit "labels"]) RDeleteLabels;
  mkPattern "GET" (api ["events"]) REvents;
  mkPattern "GET" (api ["summary"]) RSummary;
  mkPattern "GET" (api ["cluster"]) RCluster ]%string.

Definition pprof_pattern (method name : string) : pattern :=
  mkPattern method [Lit "debug"; Lit "pprof"; Lit name] (RPprof name).
Definition pprof_patterns : list pattern := [
  mkPattern "GET" [Lit "debug"; Lit "pprof"; Multi] (RPprof "");
  pprof_pattern "GET" "cmdline";
  pprof_pattern "GET" "profile";
  pprof_pattern "GET" "symbol";
  pprof_pattern "POST" "symbol";
  pprof_pattern "GET" "trace" ]%string.

Definition patterns (s : Server) : list pattern :=
  base_patterns ++ (if s_enablePprof s then pprof_patterns else []).

Context (pprof : string → Request → M Response).

Definition handler_of (s : Server) (rt : route) (r : Request) : M Response :=
  match rt with
  | RHealth => handleHealth (s_nodeID s)
  | RMetrics => handleMetrics
  | RBestRunner => handleBestRunner r
  | RRunners => handleRunners r
  | RRunner => handleRunner r
  | RGetLabels => handleGetLabels r
  | RUpdateLabels => handleUpdateLabels (s_nodeID s) r
  | RDeleteLabels => handleDeleteLabels (s_nodeID s) r
  | REvents => handleEvents r
  | RSummary => handleSummary (s_nodeID s)
  | RCluster => handleCluster
  | RPprof name => adminOnly (s_adminToken s) (pprof name) r
  end.

(** What a handler reads of the request. *)
Definition request_of (r : HttpRequest) (matches : list string) : Request :=
  mkRequest (default ""%string (head matches)) (ParseQuery (hr_RawQuery r)) (hr_header r) (hr_body r).

Definition mux_ServeHTTP (s : Server) (r : HttpRequest) : M Response :=
  match findHandler (patterns s) r with
  | Serve rt ms => handler_of s rt (request_of r ms)
  | Redirect path query => mret (mkResponse 301 (BRedirect path query))
  | NotFound => mret (mkResponse StatusNotFound (BText "404 page not found"))
  | MethodNotAllowed => mret (mkResponse 405 (BText "Method Not Allowed"))
  | BadRequest => mret (mkResponse StatusBadRequest BEmpty)
  end.

Definition Handler (s : Server) : HttpRequest → M Response := observeHTTP (mux_ServeHTTP s).

End Handler.
