(* ===== verification/RouteProps.v ===== *)
(** * Serving HTTP: what reaches which handler

    The routing tree against a table, the profiler behind the admin token, the counting of requests
    and the metrics text. *)

From Stdlib Require Import Ascii.
From S2P Require Import Prelude GoText Hlc Model Metrics World Store StoreSpec StoreProps Api ApiProps Route.
Local Open Scope Z_scope.

(** ** The table *)

(** The endpoints, by method and segments: the path of the profiler ... *)
Local Infix "=s" := String.eqb (at level 70).
Definition pprof_table (get : bool) (method : string) (rest : list string) : option (route * list string) :=
  let on (m : bool) (name : string) := if m then Some (RPprof name, []) else None in
  match rest with
  | [] => None
  | [c] => if (c =s "cmdline") || (c =s "profile") || (c =s "trace") then on get c
           else if c =s "symbol" then on (get || (method =s "POST")) c
           else on get ""%string
  | _ => on get ""%string
  end.

(** ... and all of them. *)
Definition route_table (pprof : bool) (method : string) (segs : list string) :
    option (route * list string) :=
  let get := (method =s "GET") || (method =s "HEAD") in
  let on (m : bool) (r : route) (ms : list string) := if m then Some (r, ms) else None in
  match segs with
  | a :: b :: rest =>
      if (a =s "debug") && (b =s "pprof") && pprof then pprof_table get method rest
      else if (a =s "api") && (b =s "v1") then
        match rest with
        | [c] => if c =s "runners" then on get RRunners []
                 else if c =s "events" then on get REvents []
                 else if c =s "summary" then on get RSummary []
                 else if c =s "cluster" then on get RCluster [] else None
        | [c; id] => if negb (c =s "runners") || (id =s "/") then None
                     else if id =s "best" then on get RBestRunner [] else on get RRunner [id]
        | [c; id; l] => if negb (c =s "runners") || (id =s "/") || negb (l =s "labels") then None
                        else if get then Some (RGetLabels, [id])
                        else if method =s "PUT" then Some (RUpdateLabels, [id])
                        else if method =s "DELETE" then Some (RDeleteLabels, [id]) else None
        | _ => None
        end
      else None
  | [a] => if a =s "healthz" then on get RHealth [] else if a =s "metrics" then on get RMetrics [] else None
  | [] => None
  end.

Definition served (m : option (pattern * list string)) : option (route * list string) :=
  (λ x, (p_route x.1, x.2)) <$> m.

Lemma matchPath_nil segs ms : matchPath [] segs ms = None.
Proof.
  revert ms. induction segs as [|seg segs IH]; intros ms; [done|]. cbn. rewrite IH.
  destruct (seg =s "/"); by rewrite ?IH.
Qed.

(** The node of a method only depends on which method it is. *)
Definition methods : list string := ["GET"; "PUT"; "DELETE"; "POST"]%string.
Lemma method_node_other ps m : Forall (λ p, p_Method p ≠ m) ps → method_node ps m = [].
Proof.
  intros H. unfold method_node. induction H as [|p ps Hp _ IH]; [done|]. by rewrite filter_cons_False.
Qed.

Lemma patterns_methods s : Forall (λ p, p_Method p ∈ methods) (patterns s).
Proof.
  unfold patterns. destruct (s_enablePprof s); apply (bool_decide_unpack _); by vm_compute.
Qed.

Lemma method_node_none s m : m ∉ methods → method_node (patterns s) m = [].
Proof.
  intros Hm. apply method_node_other. eapply Forall_impl; [apply patterns_methods|].
  simpl. intros p Hp <-. by apply Hm.
Qed.

(** One step down the tree. *)
Lemma matchPath_cons n seg rest ms :
  matchPath n (seg :: rest) ms =
  match matchPath (child (Lit seg) n) rest ms with
  | Some r => Some r
  | None =>
      match (if seg =s "/" then None else matchPath (child Wild n) rest (ms ++ [seg])) with
      | Some r => Some r
      | None => (λ p, (p, ms)) <$> at_end (child Multi n)
      end
  end.
Proof. done. Qed.
Lemma matchPath_end n ms : matchPath n [] ms = (λ p, (p, ms)) <$> at_end n.
Proof. done. Qed.

(** The literals a node continues with; any other segment has no literal child. *)
Definition literals (n : node) : list string :=
  omap (λ x : list pseg * pattern, match x.1 with Lit s :: _ => Some s | _ => None end) n.

Lemma child_other a n : a ∉ literals n → child (Lit a) n = [].
Proof.
  induction n as [|[[|[l| |] ps] p] n IH]; [done|..]; simpl; try exact IH.
  intros [Ha Hn]%not_elem_of_cons. destruct (String.eqb_spec l a); [congruence|]. by apply IH.
Qed.

(** Following a path through the tree: a segment is one of the literals the node continues with, or
    another one. *)
Ltac eval_in t := let v := eval vm_compute in t in change t with v.
Ltac split_on a ls :=
  lazymatch ls with
  | ?l :: ?ls => destruct (String.eqb_spec a l); [subst a|split_on a ls]
  | [] => idtac
  end.
Ltac other_child a n :=
  rewrite (child_other a n) by (let L := eval vm_compute in (literals n) in change (a ∉ L);
    rewrite !not_elem_of_cons; split_and!; [done..|apply not_elem_of_nil]).
Ltac eqb_known :=
  match goal with
  | |- context [String.eqb ?x ?y] =>
      first [ is_var x; rewrite (proj2 (String.eqb_neq x y)) by done | is_var y; rewrite (proj2 (String.eqb_neq x y)) by done
            | tryif first [is_var x | is_var y] then fail else eval_in (String.eqb x y) ]
  end.
Ltac down :=
  match goal with
  | |- context [matchPath [] _ _] => rewrite !matchPath_nil
  | |- context [matchPath ?n [] _] => rewrite matchPath_end; eval_in (at_end n)
  | |- context [matchPath ?n (?a :: _) _] =>
      rewrite matchPath_cons; eval_in (child Wild n); eval_in (at_end (child Multi n));
      first [ is_var a;
              (let L := eval vm_compute in (remove_dups (literals n ++ ["/"%string])) in split_on a L);
              first [ is_var a; other_child a n | match goal with |- context [child ?l n] => eval_in (child l n) end ]
            | eval_in (child (Lit a) n) ]
  end.
Ltac walk := repeat first [done | down; cbn [served fmap option_fmap option_map p_route fst snd app] | eqb_known; cbn
                         | match goal with |- context [String.eqb ?x ?y] => destruct (String.eqb x y); cbn end ].
#[local] Arguments matchPath : simpl never.
#[local] Arguments String.eqb : simpl never.
#[local] Arguments child : simpl never.
#[local] Arguments at_end : simpl never.

Ltac compute_node :=
  match goal with |- context [method_node ?ps ?m] => eval_in (method_node ps m) end.

Ltac routes :=
  unfold patterns; match goal with s : Server |- _ => destruct (s_enablePprof s) end; compute_node;
  match goal with segs : list string |- _ => destruct segs as [|? [|? [|? [|? [|? [|? ?]]]]]] end;
  unfold route_table, pprof_table; walk.

Lemma matchPath_GET (s : Server) segs :
  served (matchPath (method_node (patterns s) "GET") segs []) = route_table (s_enablePprof s) "GET" segs.
Proof. routes. Qed.
Lemma matchPath_PUT (s : Server) segs :
  served (matchPath (method_node (patterns s) "PUT") segs []) = route_table (s_enablePprof s) "PUT" segs.
Proof. routes. Qed.
Lemma matchPath_DELETE (s : Server) segs :
  served (matchPath (method_node (patterns s) "DELETE") segs []) = route_table (s_enablePprof s) "DELETE" segs.
Proof. routes. Qed.
Lemma matchPath_POST (s : Server) segs :
  served (matchPath (method_node (patterns s) "POST") segs []) = route_table (s_enablePprof s) "POST" segs.
Proof. routes. Qed.

Lemma route_table_HEAD pprof segs : route_table pprof "HEAD" segs = route_table pprof "GET" segs.
Proof. by destruct segs as [|? [|? [|? [|? [|? ?]]]]]. Qed.

Lemma route_table_other pprof m segs :
  m ≠ "HEAD"%string → m ∉ methods → route_table pprof m segs = None.
Proof.
  unfold methods. rewrite !not_elem_of_cons. intros Hh (Hg & Hp & Hd & Hpo & _).
  apply String.eqb_neq in Hh, Hg, Hp, Hd, Hpo.
  unfold route_table, pprof_table. rewrite Hh, Hg, Hp, Hd, Hpo. cbn. by repeat case_match.
Qed.

(** C12: the routing tree that [Handler] builds serves exactly the endpoints of the table, for every
    method and every path: a literal segment wins over the wildcard (so a runner called best has no
    page of its own), HEAD is served where GET is, and the profiler's paths exist only when it is
    enabled. *)
Theorem routes_exact (s : Server) m segs :
  served (tree_match (patterns s) m segs) = route_table (s_enablePprof s) m segs.
Proof.
  unfold tree_match.
  destruct (decide (m = "HEAD"%string)) as [->|Hh].
  { rewrite (method_node_none s "HEAD"), matchPath_nil by (vm_compute; set_solver).
    rewrite bool_decide_eq_true_2 by done. rewrite matchPath_GET. by rewrite route_table_HEAD. }
  rewrite (bool_decide_eq_false_2 _ Hh).
  assert (∀ o : option (pattern * list string), match o with Some r => Some r | None => None end = o) as ->
    by by intros [].
  destruct (decide (m ∈ methods)) as [Hm|Hm].
  2:{ by rewrite method_node_none, matchPath_nil, route_table_other. }
  unfold methods in Hm. rewrite !elem_of_cons, elem_of_nil in Hm.
  destruct Hm as [->|[->|[->|[->|[]]]]];
    [apply matchPath_GET|apply matchPath_PUT|apply matchPath_DELETE|apply matchPath_POST].
Qed.
