(* ===== verification/ServeProps.v ===== *)
(** * Serving HTTP: the profiler's guard, the counters and the metrics text *)

From Stdlib Require Import Ascii.
From S2P Require Import Prelude GoText Hlc Model Metrics World Store StoreSpec StoreProps JsonCodec Api ApiProps Route.
Local Open Scope Z_scope.

(** ** Routing answers with a registered pattern *)

Lemma elem_of_child seg n rest p : (rest, p) ∈ child seg n → ∃ rest', (rest', p) ∈ n.
Proof.
  unfold child. rewrite list_elem_of_omap. intros ([ps q] & Hin & H). simpl in H.
  destruct ps as [|s ps]; [done|]. destruct (pseg_eqb s seg); [|done]. injection H as -> ->. eauto.
Qed.

Lemma at_end_elem n p : at_end n = Some p → ∃ rest, (rest, p) ∈ n.
Proof.
  unfold at_end. intros H. apply head_Some_elem_of, list_elem_of_omap in H as ([ps q] & Hin & H).
  simpl in H. destruct ps; [|done]. injection H as ->. eauto.
Qed.

Lemma matchPath_elem n segs ms p ms' : matchPath n segs ms = Some (p, ms') → ∃ rest, (rest, p) ∈ n.
Proof.
  revert n ms. induction segs as [|seg segs IH]; intros n ms; simpl.
  { intros (q & Hq & [= -> _])%fmap_Some. by apply at_end_elem in Hq. }
  destruct (matchPath (child (Lit seg) n) segs ms) as [r|] eqn:Hl.
  { intros [= ->]. apply IH in Hl as (? & Hl). by apply elem_of_child in Hl. }
  destruct (if String.eqb seg "/" then None else _) as [r|] eqn:Hw.
  { intros [= ->]. destruct (String.eqb seg "/"); [done|]. apply IH in Hw as (? & Hw).
    by apply elem_of_child in Hw. }
  intros (q & Hq & [= -> _])%fmap_Some. apply at_end_elem in Hq as (? & Hq). by apply elem_of_child in Hq.
Qed.

(** The method of a request and of the pattern it is served by. *)
Definition method_fits (m pm : string) : Prop := pm = m ∨ (m = "HEAD" ∧ pm = "GET")%string.

Lemma tree_match_elem ps m segs p ms :
  tree_match ps m segs = Some (p, ms) → p ∈ ps ∧ method_fits m (p_Method p).
Proof.
  assert (∀ m, matchPath (method_node ps m) segs [] = Some (p, ms) → p ∈ ps ∧ p_Method p = m) as H.
  { intros m' Hm. apply matchPath_elem in Hm as (rest & Hin). unfold method_node in Hin.
    apply list_elem_of_fmap in Hin as (q & [= _ ->] & Hq). by apply list_elem_of_filter in Hq as [? ?]. }
  unfold method_fits, tree_match. destruct (matchPath (method_node ps m) segs []) as [r|] eqn:Hm.
  - intros [= ->]. apply H in Hm as [? ->]. auto.
  - case_bool_decide; [|done]. intros [? ->]%H. auto.
Qed.

Lemma findHandler_Serve ps r rt ms : findHandler ps r = Serve rt ms →
  ∃ p, p ∈ ps ∧ p_route p = rt ∧ method_fits (hr_Method r) (p_Method p).
Proof.
  unfold findHandler, unmatched. intros H. repeat case_match; simplify_eq/=;
    match goal with H : tree_match _ _ _ = Some _ |- _ => apply tree_match_elem in H as [? ?] end; eauto.
Qed.

Create HintDb keeps.

Section Serve.
Context `{E : Env, J : Json}.

(** ** The profiler *)

Lemma base_no_pprof p name : p ∈ base_patterns → p_route p ≠ RPprof name.
Proof.
  assert (Forall (λ p, match p_route p with RPprof _ => False | _ => True end) base_patterns) as H
    by by repeat constructor.
  intros Hp Heq. rewrite Forall_forall in H. specialize (H p Hp). by rewrite Heq in H.
Qed.

(** C13: the profiler runs only when it is enabled and the request carries the configured, non-empty
    admin token: for every other request, over every method and path, the server does the same
    whatever the profiler's handlers would do. *)
Theorem pprof_guarded (pprof pprof' : string → Request → M Response) (s : Server) (r : HttpRequest) w :
  ¬ (s_enablePprof s = true ∧ s_adminToken s ≠ ""%string ∧ carries (s_adminToken s) (request_of r [])) →
  Handler pprof s r w = Handler pprof' s r w.
Proof.
  intros Hno. unfold Handler, observeHTTP, mbind, M_bind.
  enough (mux_ServeHTTP pprof s r w = mux_ServeHTTP pprof' s r w) as -> by done.
  unfold mux_ServeHTTP. destruct (findHandler (patterns s) r) as [rt ms| | | |] eqn:Hf; try done.
  destruct rt as [| | | | | | | | | | |name]; try done. cbn [handler_of]. rewrite !adminOnly_gate.
  destruct (authorized (s_adminToken s) (request_of r ms)) eqn:Ha; [|done].
  apply authorized_spec in Ha as [Ht Hc]. destruct Hno. split_and!; [|done|exact Hc].
  apply findHandler_Serve in Hf as (p & Hp & Hrt & _). unfold patterns in Hp.
  destruct (s_enablePprof s); [done|]. rewrite app_nil_r in Hp. by apply base_no_pprof with (name := name) in Hp.
Qed.

(** ** What a request changes *)

(** [m] keeps the counters by status and relates the tables before and after by [P]. *)
Definition keeps {A} (P : relation tables) (m : M A) : Prop :=
  ∀ w, HTTPRequests (w_met (m w).2) = HTTPRequests (w_met w) ∧ P (w_db w) (w_db (m w).2).

Section Keeps.
Context (P : relation tables) `{!PreOrder P}.

Lemma keeps_ret {A} (a : A) : keeps P (mret a).
Proof. done. Qed.
Lemma keeps_throw {A} e : keeps P (@throw A e).
Proof. done. Qed.
Lemma keeps_panic {A} : keeps P (@panic A).
Proof. done. Qed.
Lemma keeps_get : keeps P get.
Proof. done. Qed.
Lemma keeps_next : keeps P next.
Proof. done. Qed.
Lemma keeps_set_clock c : keeps P (set_clock c).
Proof. done. Qed.
Lemma keeps_on_metrics f : (∀ m, HTTPRequests (f m) = HTTPRequests m) → keeps P (on_metrics f).
Proof. intros Hf w. split; [apply Hf|done]. Qed.
Lemma keeps_bind {A B} (m : M A) (k : A → M B) : keeps P m → (∀ a, keeps P (k a)) → keeps P (m ≫= k).
Proof.
  intros Hm Hk w. unfold mbind, M_bind. specialize (Hm w) as [Hh Hp].
  destruct (m w) as [[a|e|] w1]; simpl in *; [|by split..].
  destruct (Hk a w1) as [Hh' Hp']. split; [congruence|by etrans].
Qed.
Lemma keeps_attempt {A} (m : M A) : keeps P m → keeps P (attempt m).
Proof. intros Hm w. unfold attempt. specialize (Hm w). by destruct (m w) as [[a|e|] w1]. Qed.
Lemma keeps_driver : keeps P driver.
Proof. intros w. unfold driver, mbind, M_bind. simpl. by destruct (env_fault _). Qed.
Lemma keeps_query {A} (f : tables → list A) : keeps P (query f).
Proof. apply keeps_bind; [apply keeps_driver|]. done. Qed.
Lemma keeps_query_row {A} (f : tables → option A) : keeps P (query_row f).
Proof. apply keeps_bind; [apply keeps_driver|]. done. Qed.
Lemma keeps_exec f : (∀ t, P t (f t)) → keeps P (exec f).
Proof. intros Hf. apply keeps_bind; [apply keeps_driver|]. intros _ w. split; [done|apply Hf]. Qed.
End Keeps.

#[local] Hint Resolve keeps_ret keeps_throw keeps_panic keeps_get keeps_next keeps_set_clock keeps_driver
  keeps_query keeps_query_row : keeps.
#[local] Hint Extern 1 (keeps _ (on_metrics _)) => apply keeps_on_metrics; [apply _|done] : keeps.

Ltac keep :=
  repeat first [ solve [eauto with keeps typeclass_instances]
               | progress intros
               | apply keeps_attempt | apply keeps_bind | case_match ].

(** Requests that only read. *)
Lemma keeps_listRunners P `{!PreOrder P} limit offset : keeps P (listRunners limit offset).
Proof.
  unfold listRunners, List_, range_map. apply keeps_bind; [done|keep|]. intros fs.
  apply keeps_bind; [done|induction fs as [|[k v] fs IH]; simpl; keep|keep].
Qed.
#[local] Hint Resolve keeps_listRunners : keeps.

Lemma keeps_mergeMetaLabelsOne P `{!PreOrder P} rn : keeps P (mergeMetaLabelsOne rn).
Proof. unfold mergeMetaLabelsOne, Get. keep. Qed.
#[local] Hint Resolve keeps_mergeMetaLabelsOne : keeps.

Lemma keeps_mergeMetaLabels P `{!PreOrder P} rns : keeps P (mergeMetaLabels rns).
Proof. induction rns as [|rn rns IH]; simpl; keep. Qed.
#[local] Hint Resolve keeps_mergeMetaLabels : keeps.

Lemma keeps_score_all P `{!PreOrder P} penalty rns : keeps P (score_all penalty rns).
Proof. induction rns as [|rn rns IH]; simpl; keep. Qed.
#[local] Hint Resolve keeps_score_all : keeps.

Lemma keeps_clock_Tick P `{!PreOrder P} : keeps P clock_Tick.
Proof. unfold clock_Tick. keep. Qed.
#[local] Hint Resolve keeps_clock_Tick : keeps.

(** The tables but for the labels of one runner. *)
Definition labels_only (id : string) (t t' : tables) : Prop :=
  t_events t' = t_events t ∧ t_watermarks t' = t_watermarks t ∧
  ∀ k, k ≠ (KindMeta, id) → t_rows t' !! k = t_rows t !! k.
#[local] Instance labels_only_preorder id : PreOrder (labels_only id).
Proof.
  split; [done|]. intros t1 t2 t3 (He & Hw & Hr) (He' & Hw' & Hr').
  split_and!; [congruence..|]. intros k Hk. by rewrite Hr', Hr.
Qed.

Lemma keeps_Put_labels id owner h tomb payload : keeps (labels_only id) (Put (mkRow KindMeta id owner h tomb payload)).
Proof.
  apply keeps_exec; [apply _|]. intros t. split_and!; [done..|]. intros k Hk. simpl.
  by rewrite lookup_insert_ne.
Qed.
#[local] Hint Resolve keeps_Put_labels : keeps.

Lemma keeps_scan_events P `{!PreOrder P} l : keeps P (scan_events l).
Proof. induction l as [|x l IH]; simpl; keep. Qed.
#[local] Hint Resolve keeps_scan_events : keeps.

Lemma keeps_update_labels node r incoming got :
  keeps (labels_only (req_id r)) (update_labels node r incoming got).
Proof. unfold update_labels, writeError, writeJSON. keep. Qed.
#[local] Hint Resolve keeps_update_labels : keeps.

Definition frame_of (rt : route) (ms : list string) : relation tables :=
  match rt with
  | RUpdateLabels | RDeleteLabels => labels_only (default ""%string (head ms))
  | _ => eq
  end.

Lemma keeps_handler pprof s rt ms (r : HttpRequest) :
  (∀ name q, keeps eq (pprof name q)) →
  keeps (frame_of rt ms) (handler_of pprof s rt (request_of r ms)).
Proof.
  intros Hp.
  destruct rt; simpl; keep. unfold adminOnly. keep.
Qed.

Lemma label_routes s p :
  p ∈ patterns s → (p_route p = RUpdateLabels → p_Method p = "PUT"%string) ∧
                   (p_route p = RDeleteLabels → p_Method p = "DELETE"%string).
Proof.
  assert (∀ b, Forall (λ p, (p_route p = RUpdateLabels → p_Method p = "PUT"%string) ∧
    (p_route p = RDeleteLabels → p_Method p = "DELETE"%string)) (base_patterns ++ if b : bool then pprof_patterns else []))
    as H by (intros []; repeat constructor; done).
  intros Hp. unfold patterns in Hp. by apply (proj1 (Forall_forall _ _) (H _)) in Hp.
Qed.

(** The status a response is counted under. *)
Definition counted_as (resp : Response) : Z := if rp_status resp =? 0 then StatusOK else rp_status resp.

(** C11: what the HTTP API changes, over every method and path.  No request touches an event, a
    watermark or a runner's row; rows change only in the labels of the runner a PUT or DELETE of
    labels names; every other request, whatever it asks for, leaves the tables as they were; and
    every answered request adds one to the counter of its status and to no other. *)
Theorem Handler_frame (pprof : string → Request → M Response) (s : Server) (r : HttpRequest) w :
  (∀ name q, keeps eq (pprof name q)) →
  wp (Handler pprof s r) (λ res w',
    match findHandler (patterns s) r with
    | Serve rt ms => frame_of rt ms (w_db w) (w_db w')
    | _ => w_db w' = w_db w
    end ∧
    (hr_Method r ≠ "PUT"%string → hr_Method r ≠ "DELETE"%string → w_db w' = w_db w) ∧
    ∀ resp, res = Ok resp →
      HTTPRequests (w_met w') = StatusCounters_Inc (counted_as resp) (HTTPRequests (w_met w))) w.
Proof.
  intros Hp.
  set (P := match findHandler (patterns s) r with Serve rt ms => frame_of rt ms | _ => eq end).
  assert (keeps P (mux_ServeHTTP pprof s r)) as Hk.
  { unfold P, mux_ServeHTTP. destruct (findHandler (patterns s) r); [by apply keeps_handler|done..]. }
  assert (∀ t t', P t t' → hr_Method r ≠ "PUT"%string → hr_Method r ≠ "DELETE"%string → t' = t) as Hread.
  { intros t t' HP Hput Hdel. unfold P in HP. destruct (findHandler (patterns s) r) as [rt ms| | | |] eqn:Hf; try done.
    apply findHandler_Serve in Hf as (p & Hin & Hrt & Hm). apply label_routes in Hin as [Hu Hd].
    unfold method_fits in Hm. destruct rt; try done;
      [specialize (Hu Hrt)|specialize (Hd Hrt)]; destruct Hm as [|[_ ?]]; congruence. }
  unfold wp, Handler, observeHTTP, mbind, M_bind. specialize (Hk w) as [Hh HP].
  assert (match findHandler (patterns s) r with
          | Serve rt ms => frame_of rt ms (w_db w) (w_db (mux_ServeHTTP pprof s r w).2)
          | _ => w_db (mux_ServeHTTP pprof s r w).2 = w_db w end) as HP'.
  { unfold P in HP. by destruct (findHandler (patterns s) r). }
  destruct (mux_ServeHTTP pprof s r w) as [[resp|e|] w1]; simpl in *; split_and!; eauto.
  all: intros resp' Hr; simplify_eq; by rewrite Hh.
Qed.

(** ** The metrics text *)

(** The samples of a name without a label, and those by status. *)
Definition samples (name : string) (l : list metric_line) : list metric_value :=
  omap (λ x, match x with Sample n None v => if String.eqb n name then Some v else None | _ => None end) l.
Definition status_samples (name : string) (l : list metric_line) : list (Z * metric_value) :=
  omap (λ x, match x with Sample n (Some st) v => if String.eqb n name then Some (st, v) else None
                     | _ => None end) l.

Definition counter_name (c : counter) : string :=
  match c with
  | PlacementRequests => "takl_placement_requests_total"
  | PlacementErrors => "takl_placement_errors_total"
  | SyncRounds => "takl_sync_rounds_total"
  | SyncRoundErrors => "takl_sync_round_errors_total"
  | SyncRowsApplied => "takl_sync_rows_applied_total"
  | SyncEventsApplied => "takl_sync_events_applied_total"
  | SyncChecksumMismatches => "takl_sync_checksum_mismatches_total"
  | SyncEventChecksumMismatches => "takl_sync_event_checksum_mismatches_total"
  end.

(** The exact sums over the active runners. *)
Definition active_list (rns : list Runner) : list Runner := filter (λ rn, r_Status rn = RunnerActive) rns.
Definition total (f : Runner → Z) (rns : list Runner) : Z := foldr (λ rn acc, f rn + acc) 0 rns.

Lemma wrap_i64_add_l a b : wrap_i64 (wrap_i64 a + b) = wrap_i64 (a + b).
Proof.
  unfold wrap_i64. f_equal.
  replace ((a + 2 ^ 63) `mod` 2 ^ 64 - 2 ^ 63 + b + 2 ^ 63) with ((a + 2 ^ 63) `mod` 2 ^ 64 + b) by lia.
  rewrite Zplus_mod_idemp_l. f_equal. lia.
Qed.

(** The gauges are the exact sums, as far as int64 goes. *)
Lemma gauge_fold rns a c v :
  in_i64 a → in_i64 c → in_i64 v →
  foldl gauge_step (a, c, v) rns =
    (wrap_i64 (a + Z.of_nat (length (active_list rns))),
     wrap_i64 (c + total r_WorkerCapacity (active_list rns)),
     wrap_i64 (v + total r_AvailableWorkers (active_list rns))).
Proof.
  revert a c v. induction rns as [|rn rns IH]; intros a c v Ha Hc Hv; simpl.
  { rewrite !Z.add_0_r, !wrap_i64_id by done. done. }
  unfold active_list. rewrite filter_cons. fold (active_list rns).
  case_bool_decide as Hs; destruct (decide (r_Status rn = RunnerActive)) as [Hd|Hd]; try done;
    [|by apply IH].
  rewrite IH by apply wrap_i64_range. rewrite !wrap_i64_add_l.
  repeat apply (f_equal2 pair); apply (f_equal wrap_i64); unfold total; simpl; lia.
Qed.

Lemma samples_app name l1 l2 : samples name (l1 ++ l2) = samples name l1 ++ samples name l2.
Proof. apply omap_app. Qed.
Lemma status_samples_app name l1 l2 :
  status_samples name (l1 ++ l2) = status_samples name l1 ++ status_samples name l2.
Proof. apply omap_app. Qed.

(** The lines [StatusCounters.Write] prints. *)
Lemma samples_statuses name name' (l : list (Z * Counter)) :
  samples name ((λ kv, Sample name' (Some kv.1) (MInt kv.2)) <$> l) = [].
Proof. induction l as [|kv l IH]; [done|]. apply IH. Qed.
Lemma status_samples_statuses name (l : list (Z * Counter)) :
  status_samples name ((λ kv, Sample name (Some kv.1) (MInt kv.2)) <$> l) = (λ kv, (kv.1, MInt kv.2)) <$> l.
Proof.
  induction l as [|kv l IH]; [done|]. unfold status_samples in *. simpl.
  rewrite String.eqb_refl. f_equal. exact IH.
Qed.

Lemma counter_samples m c :
  samples (counter_name c) (counter_lines m) = [MInt (m_counter m c)].
Proof. by destruct c. Qed.

(** The text before the gauges, for the statuses in any order. *)
Definition preamble (m : Metrics) (statuses : list (Z * Counter)) : list metric_line :=
  [Comment "# HELP takl_http_requests_total Total HTTP requests by status code.";
   Comment "# TYPE takl_http_requests_total counter"] ++
  ((λ kv, Sample "takl_http_requests_total" (Some kv.1) (MInt kv.2)) <$> statuses) ++ counter_lines m.

Lemma text_statuses m statuses rest :
  statuses ≡ₚ map_to_list (HTTPRequests m) → status_samples "takl_http_requests_total" rest = [] →
  status_samples "takl_http_requests_total" (preamble m statuses ++ rest) ≡ₚ
    (λ kv, (kv.1, MInt kv.2)) <$> map_to_list (HTTPRequests m).
Proof.
  intros Hp Hr. unfold preamble. rewrite !status_samples_app, Hr, status_samples_statuses, !app_nil_r.
  by rewrite <-Hp.
Qed.

Lemma text_samples name m statuses rest :
  samples name (preamble m statuses ++ rest) = samples name (counter_lines m) ++ samples name rest.
Proof. unfold preamble. by rewrite !samples_app, samples_statuses. Qed.

Lemma gauge_no_status name rns : status_samples name (gauge_lines rns) = [].
Proof. unfold gauge_lines. by destruct (foldl gauge_step _ rns) as [[??]?]. Qed.

Lemma gauge_no_counter c rns : samples (counter_name c) (gauge_lines rns) = [].
Proof. unfold gauge_lines. destruct (foldl gauge_step _ rns) as [[??]?]. by destruct c. Qed.

(** C34: the metrics text.  It holds exactly one sample per counted HTTP status, one per counter, with
    the counters' values; when the store answers, one sample per gauge: the decodable live runners,
    and over the active ones their number, capacity and available workers, summed in int64; when it
    does not, the error sample instead of the gauges.  Nothing is changed by asking. *)
Theorem handleMetrics_reports w :
  wp handleMetrics (λ res w', w_db w' = w_db w ∧ w_met w' = w_met w ∧
    ∃ l, res = Ok (mkResponse StatusOK (BMetrics l)) ∧
      status_samples "takl_http_requests_total" l ≡ₚ
        (λ kv, (kv.1, MInt kv.2)) <$> map_to_list (HTTPRequests (w_met w)) ∧
      (∀ c, samples (counter_name c) l = [MInt (m_counter (w_met w) c)]) ∧
      let rns := runners_of (-1) 0 (w_db w) in
      (samples "takl_metrics_store_error" l = [] ∧
       samples "takl_runners_total" l = [MInt (Z.of_nat (length rns))] ∧
       samples "takl_active_runners" l = [MInt (wrap_i64 (Z.of_nat (length (active_list rns))))] ∧
       samples "takl_worker_capacity" l = [MInt (wrap_i64 (total r_WorkerCapacity (active_list rns)))] ∧
       samples "takl_available_workers" l = [MInt (wrap_i64 (total r_AvailableWorkers (active_list rns)))] ∨
       samples "takl_metrics_store_error" l = [MInt 1] ∧ samples "takl_runners_total" l = [] ∧
       ∃ e, db_error e)) w.
Proof.
  unfold handleMetrics, StatusCounters_Write, writeJSON. repeat wp_step. cbn [w_met upd].
  set (sts := env_order n _). assert (sts ≡ₚ map_to_list (HTTPRequests (w_met w))) as Hp by apply env_order_perm.
  apply wp_listRunners; cbn [w_db upd].
  - intros n1. wp_step. split_and!; [done..|]. exists (preamble (w_met w) sts ++ gauge_lines (runners_of (-1) 0 (w_db w))). split; [done|].
    split; [by apply text_statuses; [|apply gauge_no_status]|].
    split; [intros c; by rewrite text_samples, counter_samples, gauge_no_counter|].
    left. rewrite !text_samples by done. unfold gauge_lines.
    by rewrite gauge_fold by (unfold in_i64, min_i64, max_i64; lia).
  - intros e n1 He. wp_step. split_and!; [done..|].
    exists (preamble (w_met w) sts ++ [Sample "takl_metrics_store_error" None (MInt 1)]). split; [done|].
    split; [by apply text_statuses|].
    split; [intros c; rewrite text_samples, counter_samples; by destruct c|].
    right. rewrite !text_samples by done. eauto.
Qed.
End Serve.

(** ** Concrete requests *)
Module ServeExamples.

Definition http (method path : string) : HttpRequest := mkHttp method path path path "" ∅ "".
Definition server : Server := New "n1" [mkOptions "secret" true].
Definition start : world := World empty_tables (mkClock 0 0) zero_metrics 0.
Definition no_pprof (name : string) (r : Request) : M Response := mret (mkResponse StatusOK BEmpty).
Definition panicking (name : string) (r : Request) : M Response := panic.

Lemma pprof_guarded_witness :
  let h := @Handler calm_env codec in
  h panicking server (http "GET" "/debug/pprof/heap") start = h no_pprof server (http "GET" "/debug/pprof/heap") start ∧
  ((h panicking server (http "GET" "/debug/pprof/heap") start).1 =
     Ok (mkResponse StatusUnauthorized (BMessage "admin token required"))).
Proof.
  split; [|by vm_compute]. apply pprof_guarded. intros (_ & _ & [H|(_ & [H|[H _]])]); by vm_compute in H.
Defined.

Lemma Handler_frame_witness :
  let w' := (@Handler calm_env codec no_pprof server (http "GET" "/api/v1/runners/r1") start).2 in
  w_db w' = w_db start ∧ HTTPRequests (w_met w') = {[ StatusNotFound := 1 ]}.
Proof.
  destruct (@Handler_frame calm_env codec no_pprof server (http "GET" "/api/v1/runners/r1") start)
    as (_ & Hdb & Hc); [done|].
  split; [by apply Hdb|]. rewrite (Hc (mkResponse StatusNotFound (BMessage "runner not found"))); by vm_compute.
Defined.
End ServeExamples.
