(* ===== verification/Membership.v ===== *)
(** * Membership: internal/membership/cluster.go, delegate.go; taklctl keygen

    The gossip key (base64 or raw), the configuration handed to memberlist, the bounded channel
    between memberlist's callbacks and the agent, and the members offered to the sync engine.
    memberlist itself is a parameter. *)

From Stdlib Require Import Ascii.
From S2P Require Import Prelude GoText Hlc Model Metrics World Store Agent.
Local Open Scope N_scope.

(** ** encoding/base64, StdEncoding *)

Definition b64_char (n : N) : ascii :=
  ascii_of_N (if n <? 26 then 65 + n else if n <? 52 then 71 + n
              else if n <? 62 then n - 4 else if n =? 62 then 43 else 47).

Definition b64_val (c : ascii) : option N :=
  let n := N_of_ascii c in
  if (65 <=? n) && (n <=? 90) then Some (n - 65)
  else if (97 <=? n) && (n <=? 122) then Some (n - 71)
  else if (48 <=? n) && (n <=? 57) then Some (n + 4)
  else if n =? 43 then Some 62 else if n =? 47 then Some 63 else None.

Definition pad : ascii := "="%char.

(** EncodeToString. *)
Fixpoint b64_encode (s : string) : string :=
  match s with
  | String a (String b (String c rest)) =>
      let '(x, y, z) := (N_of_ascii a, N_of_ascii b, N_of_ascii c) in
      String (b64_char (x / 4)) (String (b64_char (x mod 4 * 16 + y / 16))
        (String (b64_char (y mod 16 * 4 + z / 64)) (String (b64_char (z mod 64)) (b64_encode rest))))
  | String a (String b EmptyString) =>
      let '(x, y) := (N_of_ascii a, N_of_ascii b) in
      String (b64_char (x / 4)) (String (b64_char (x mod 4 * 16 + y / 16))
        (String (b64_char (y mod 16 * 4)) (String pad EmptyString)))
  | String a EmptyString =>
      let x := N_of_ascii a in
      String (b64_char (x / 4)) (String (b64_char (x mod 4 * 16)) (String pad (String pad EmptyString)))
  | EmptyString => EmptyString
  end.

(** The decoder skips line breaks wherever they are. *)
Fixpoint strip_newlines (s : string) : string :=
  match s with
  | EmptyString => EmptyString
  | String c s' => if Ascii.eqb c "010"%char || Ascii.eqb c "013"%char then strip_newlines s'
                   else String c (strip_newlines s')
  end.

Fixpoint b64_quads (s : string) : option string :=
  match s with
  | EmptyString => Some EmptyString
  | String a (String b (String c (String d rest))) =>
      x ← b64_val a; y ← b64_val b;
      let b1 := ascii_of_N (x * 4 + y / 16) in
      if Ascii.eqb c pad then
        if Ascii.eqb d pad && bool_decide (rest = EmptyString) then Some (String b1 EmptyString) else None
      else
        z ← b64_val c;
        let b2 := ascii_of_N (y mod 16 * 16 + z / 4) in
        if Ascii.eqb d pad then
          if bool_decide (rest = EmptyString) then Some (String b1 (String b2 EmptyString)) else None
        else
          u ← b64_val d;
          let b3 := ascii_of_N (z mod 4 * 64 + u) in
          tail ← b64_quads rest;
          Some (String b1 (String b2 (String b3 tail)))
  | _ => None
  end.

(** DecodeString. *)
Definition b64_decode (s : string) : option string := b64_quads (strip_newlines s).

(** ** The gossip key *)

Definition validSecretKeyLen (n : nat) : bool :=
  bool_decide (n = 16%nat) || bool_decide (n = 24%nat) || bool_decide (n = 32%nat).

(** [Ok None] is the nil key. *)
Definition parseSecretKey (raw : string) : result (option string) :=
  let v := TrimSpace raw in
  if bool_decide (v = EmptyString) then Ok None
  else
    let plain := if validSecretKeyLen (String.length v) then Ok (Some v)
                 else Err (ErrGossipKey (String.length v)) in
    match b64_decode v with
    | Some decoded => if validSecretKeyLen (String.length decoded) then Ok (Some decoded) else plain
    | None => plain
    end.

(** What [taklctl keygen gossip] prints for the random bytes [b]. *)
Definition keygen_gossip (b : string) : string := b64_encode b.

(** ** The configuration of memberlist *)

Record MlConfig := mkMlConfig {
  ml_wan : bool;                       (* DefaultWANConfig or DefaultLANConfig *)
  ml_Name : string;
  ml_BindPort : Z;
  ml_AdvertisePort : Z;
  ml_AdvertiseAddr : option string;    (* None: memberlist's default *)
  ml_SecretKey : option string;
  ml_Meta : string
}.

(** [NewCluster]: memberlist's [Create] and [Join], and json.Marshal of the metadata, are
    arguments; a failed join is only logged. *)
Definition NewCluster {C} (marshal_meta : string → string) (create : MlConfig → result C)
    (join : C → list string → C)
    (nodeID : string) (bindPort : Z) (advertiseAddr syncAddr profile gossipKey : string)
    (seeds : list string) : result C :=
  let config key :=
    mkMlConfig (bool_decide (profile = "wan"%string)) nodeID bindPort bindPort
      (if bool_decide (advertiseAddr = EmptyString) then None else Some advertiseAddr) key
      (marshal_meta syncAddr) in
  let start key :=
    match create (config key) with
    | Ok mlist => Ok (if bool_decide (length seeds = 0%nat) then mlist else join mlist seeds)
    | Err e => Err e
    | Panic => Panic
    end in
  if bool_decide (gossipKey = EmptyString) then start None
  else match parseSecretKey gossipKey with
       | Ok key => start key
       | Err e => Err e
       | Panic => Panic
       end.

(** [Members]: the other nodes whose metadata decodes to a sync address. *)
Definition Members (unmarshal_meta : string → option string) (localName : string)
    (members : list (string * string)) : list (string * string) :=
  omap (λ m : string * string,
          if bool_decide (m.1 = localName) then None
          else match unmarshal_meta m.2 with
               | Some syncAddr => if bool_decide (syncAddr = EmptyString) then None
                                  else Some (m.1, syncAddr)
               | None => None
               end) members.

(** ** The event channel *)

Definition chan_cap : nat := 256.

(** [trySend] on the buffered channel: the event is dropped when the buffer is full. *)
Definition trySend (e : MemberEvent) (events : list MemberEvent) : list MemberEvent :=
  if bool_decide (length events < chan_cap)%nat then events ++ [e] else events.

(** The delegate's callbacks, with the node's name and address. *)
Definition NotifyJoin (name addr : string) := trySend (mkMemberEvent EventJoin name addr).
Definition NotifyLeave (name addr : string) := trySend (mkMemberEvent EventLeave name addr).
Definition NotifyUpdate (name addr : string) := trySend (mkMemberEvent EventUpdate name addr).

(** The delegate's metadata, whatever the limit, and the leaving of the cluster: memberlist's [Leave]
    and [Shutdown] are arguments, the second runs only after the first succeeded. *)
Definition NodeMeta (meta : string) (limit : Z) : string := meta.
Definition Shutdown {C} (leave shutdown : C → option error * C) (mlist : C) : option error * C :=
  match leave mlist with
  | (Some err, mlist) => (Some err, mlist)
  | (None, mlist) => shutdown mlist
  end.
