(* ===== verification/MembershipProps.v ===== *)
(** * Properties of the membership code

    Keys printed by taklctl keygen are accepted by the daemon and decode to the random bytes; every
    accepted key has a length memberlist takes; the event channel delivers in order and drops only
    when it is full. *)

From Stdlib Require Import Ascii.
From S2P Require Import Prelude GoText Hlc Model Metrics World Store Agent Membership.
Local Open Scope N_scope.

(** ** base64 *)

Lemma N_of_ascii_lt (a : ascii) : N_of_ascii a < 256.
Proof. apply N_ascii_bounded. Qed.

Definition below64 : list N := N.of_nat <$> seq 0 64.

Lemma elem_of_below64 n : n < 64 → n ∈ below64.
Proof.
  intros Hn. apply list_elem_of_fmap. exists (N.to_nat n). split; [lia|]. apply elem_of_seq. lia.
Qed.

(** The 64 characters: each has its value, none is the padding, a space or a line break. *)
Definition b64_char_ok (n : N) : bool :=
  bool_decide (b64_val (b64_char n) = Some n) && negb (Ascii.eqb (b64_char n) pad) &&
  negb (Ascii.eqb (b64_char n) "010"%char || Ascii.eqb (b64_char n) "013"%char).

Lemma b64_chars_ok : Forall (λ n, b64_char_ok n = true) below64.
Proof. apply (bool_decide_unpack _). vm_compute. done. Qed.

Lemma b64_char_facts n :
  n < 64 → b64_val (b64_char n) = Some n ∧ Ascii.eqb (b64_char n) pad = false ∧
    (Ascii.eqb (b64_char n) "010"%char || Ascii.eqb (b64_char n) "013"%char) = false.
Proof.
  intros Hn. pose proof b64_chars_ok as H. rewrite Forall_forall in H.
  specialize (H n (elem_of_below64 n Hn)). unfold b64_char_ok in H.
  apply andb_true_iff in H as [H H3]. apply andb_true_iff in H as [H1 H2].
  apply bool_decide_eq_true in H1. apply negb_true_iff in H2, H3. done.
Qed.

(** Strings three bytes at a time. *)
Lemma triples_ind (P : string → Prop) :
  P EmptyString → (∀ a, P (String a EmptyString)) → (∀ a b, P (String a (String b EmptyString))) →
  (∀ a b c rest, P rest → P (String a (String b (String c rest)))) → ∀ s, P s.
Proof.
  intros H0 H1 H2 H3. fix IH 1. intros [|a [|b [|c rest]]]; [done|done|done|]. apply H3, IH.
Qed.

(** The characters of an encoding. *)
Definition b64_text_char (c : ascii) : Prop := c = pad ∨ ∃ n, n < 64 ∧ c = b64_char n.

Lemma sextets x y z :
  x < 256 → y < 256 → z < 256 →
  x / 4 < 64 ∧ x mod 4 * 16 + y / 16 < 64 ∧ y mod 16 * 4 + z / 64 < 64 ∧ z mod 64 < 64.
Proof.
  intros Hx Hy Hz.
  pose proof (N.mod_upper_bound x 4). pose proof (N.mod_upper_bound y 16).
  pose proof (N.mod_upper_bound z 64).
  assert (x / 4 < 64) by (apply N.Div0.div_lt_upper_bound; lia).
  assert (y / 16 < 16) by (apply N.Div0.div_lt_upper_bound; lia).
  assert (z / 64 < 4) by (apply N.Div0.div_lt_upper_bound; lia). lia.
Qed.

Lemma unpack k r m : r < m → (k * m + r) / m = k ∧ (k * m + r) mod m = r.
Proof.
  intros Hr. split.
  - symmetry. by apply (N.div_unique _ m k r); [|lia].
  - symmetry. by apply (N.mod_unique _ m k r); [|lia].
Qed.

(** The three bytes come back out of the four sextets. *)
Lemma bytes_back x y z :
  x < 256 → y < 256 → z < 256 →
  x / 4 * 4 + (x mod 4 * 16 + y / 16) / 16 = x ∧
  (x mod 4 * 16 + y / 16) mod 16 * 16 + (y mod 16 * 4 + z / 64) / 4 = y ∧
  (y mod 16 * 4 + z / 64) mod 4 * 64 + z mod 64 = z.
Proof.
  intros Hx Hy Hz.
  assert (y / 16 < 16) as H1 by (apply N.Div0.div_lt_upper_bound; lia).
  assert (z / 64 < 4) as H2 by (apply N.Div0.div_lt_upper_bound; lia).
  destruct (unpack (x mod 4) (y / 16) 16 H1) as [-> ->].
  destruct (unpack (y mod 16) (z / 64) 4 H2) as [-> ->].
  pose proof (N.Div0.div_mod x 4). pose proof (N.Div0.div_mod y 16).
  pose proof (N.Div0.div_mod z 64). lia.
Qed.

Lemma b64_encode_chars s : string_Forall b64_text_char (b64_encode s).
Proof.
  assert (∀ n, n < 64 → b64_text_char (b64_char n)) as Hch by (intros n Hn; right; eauto).
  assert (b64_text_char pad) as Hpad by by left.
  induction s as [|a|a b|a b c rest IH] using triples_ind; [done|..];
    pose proof (N_of_ascii_lt a) as Ha; try pose proof (N_of_ascii_lt b) as Hb;
    try pose proof (N_of_ascii_lt c) as Hc.
  - destruct (sextets (N_of_ascii a) 0 0) as (H1 & H2 & _); [lia..|].
    change (0 / 16) with 0 in H2. rewrite N.add_0_r in H2. simpl. auto 10.
  - destruct (sextets (N_of_ascii a) (N_of_ascii b) 0) as (H1 & H2 & H3 & _); [lia..|].
    change (0 / 64) with 0 in H3. rewrite N.add_0_r in H3. simpl. auto 10.
  - destruct (sextets (N_of_ascii a) (N_of_ascii b) (N_of_ascii c)) as (H1 & H2 & H3 & H4); [lia..|].
    simpl. auto 10.
Qed.

Lemma strip_newlines_id s : string_Forall b64_text_char s → strip_newlines s = s.
Proof.
  induction s as [|c s IH]; [done|]. intros [Hc Hs]. cbn [strip_newlines].
  assert ((Ascii.eqb c "010"%char || Ascii.eqb c "013"%char) = false) as ->.
  { destruct Hc as [->|(n & Hn & ->)]; [done|]. by apply b64_char_facts. }
  by rewrite IH.
Qed.

Lemma b64_quads_encode s : b64_quads (b64_encode s) = Some s.
Proof.
  induction s as [|a|a b|a b c rest IH] using triples_ind; [done|..];
    pose proof (N_of_ascii_lt a) as Ha; try pose proof (N_of_ascii_lt b) as Hb;
    try pose proof (N_of_ascii_lt c) as Hc.
  - destruct (sextets (N_of_ascii a) 0 0) as (H1 & H2 & _); [lia..|].
    destruct (bytes_back (N_of_ascii a) 0 0) as (B1 & _); [lia..|].
    change (0 / 16) with 0 in H2, B1. rewrite N.add_0_r in H2, B1.
    cbn [b64_encode b64_quads].
    destruct (b64_char_facts _ H1) as (-> & _). destruct (b64_char_facts _ H2) as (-> & _).
    simpl. by rewrite B1, ascii_N_embedding.
  - destruct (sextets (N_of_ascii a) (N_of_ascii b) 0) as (H1 & H2 & H3 & _); [lia..|].
    destruct (bytes_back (N_of_ascii a) (N_of_ascii b) 0) as (B1 & B2 & _); [lia..|].
    change (0 / 64) with 0 in H3, B2. rewrite N.add_0_r in H3, B2.
    cbn [b64_encode b64_quads].
    destruct (b64_char_facts _ H1) as (-> & _). destruct (b64_char_facts _ H2) as (-> & _).
    destruct (b64_char_facts _ H3) as (-> & -> & _).
    simpl. by rewrite B1, B2, !ascii_N_embedding.
  - destruct (sextets (N_of_ascii a) (N_of_ascii b) (N_of_ascii c)) as (H1 & H2 & H3 & H4); [lia..|].
    destruct (bytes_back (N_of_ascii a) (N_of_ascii b) (N_of_ascii c)) as (B1 & B2 & B3); [lia..|].
    cbn [b64_encode b64_quads].
    destruct (b64_char_facts _ H1) as (-> & _). destruct (b64_char_facts _ H2) as (-> & _).
    destruct (b64_char_facts _ H3) as (-> & -> & _). destruct (b64_char_facts _ H4) as (-> & -> & _).
    simpl. rewrite IH. simpl. by rewrite B1, B2, B3, !ascii_N_embedding.
Qed.

Lemma b64_decode_encode s : b64_decode (b64_encode s) = Some s.
Proof.
  unfold b64_decode. rewrite strip_newlines_id by apply b64_encode_chars. apply b64_quads_encode.
Qed.

(** ** Keys have no space around them *)

Lemma b64_not_space : Forall (λ n, starts_none spaces (b64_char n) = true ∧
  starts_none (string_rev <$> spaces) (b64_char n) = true) below64.
Proof. apply (bool_decide_unpack _). vm_compute. done. Qed.

Lemma b64_text_not_space c :
  b64_text_char c → starts_none spaces c = true ∧ starts_none (string_rev <$> spaces) c = true.
Proof.
  intros [->|(n & Hn & ->)]; [done|]. pose proof b64_not_space as H. rewrite Forall_forall in H.
  by apply H, elem_of_below64.
Qed.

Lemma TrimSpace_b64 s : string_Forall b64_text_char s → TrimSpace s = s.
Proof.
  intros Hs. unfold TrimSpace.
  rewrite (trim_left_id spaces).
  - rewrite trim_left_id; [apply string_rev_involutive|apply spaces_rev_nonempty|].
    apply string_Forall_rev in Hs. destruct (string_rev s) as [|c s']; [done|].
    destruct Hs as [Hc _]. by apply b64_text_not_space.
  - apply spaces_nonempty.
  - destruct s as [|c s']; [done|]. destruct Hs as [Hc _]. by apply b64_text_not_space.
Qed.

(** Whatever the input, an accepted key has a length memberlist takes. *)
Lemma parseSecretKey_result (raw : string) :
  match parseSecretKey raw with
  | Ok (Some key) => String.length key = 16%nat ∨ String.length key = 24%nat ∨ String.length key = 32%nat
  | Ok None => TrimSpace raw = EmptyString
  | Err e => e = ErrGossipKey (String.length (TrimSpace raw))
  | Panic => False
  end.
Proof.
  assert (∀ s, validSecretKeyLen s = true → s = 16%nat ∨ s = 24%nat ∨ s = 32%nat) as Hlen.
  { intros s. unfold validSecretKeyLen. rewrite !orb_true_iff, !bool_decide_eq_true. tauto. }
  unfold parseSecretKey. case_bool_decide; [done|].
  destruct (b64_decode _) as [d|]; [destruct (validSecretKeyLen (String.length d)) eqn:Hd; [by apply Hlen|]|];
    (destruct (validSecretKeyLen (String.length (TrimSpace raw))) eqn:Hr; [by apply Hlen|done]).
Qed.

(** C30: A gossip key printed by taklctl keygen is accepted by the daemon and gives back exactly the
    random bytes, for every key length memberlist takes; and whatever the input, an accepted key
    is the nil key of a blank input or has one of these lengths. *)
Theorem gossip_key_roundtrip (b : string) (raw : string) :
  validSecretKeyLen (String.length b) = true →
  parseSecretKey (keygen_gossip b) = Ok (Some b) ∧
  match parseSecretKey raw with
  | Ok (Some key) => String.length key = 16%nat ∨ String.length key = 24%nat ∨ String.length key = 32%nat
  | Ok None => TrimSpace raw = EmptyString
  | Err e => e = ErrGossipKey (String.length (TrimSpace raw))
  | Panic => False
  end.
Proof.
  intros Hb. split.
  - unfold parseSecretKey, keygen_gossip. rewrite TrimSpace_b64 by apply b64_encode_chars.
    rewrite b64_decode_encode, Hb. case_bool_decide as He; [|done].
    by destruct b as [|a [|c [|d b]]].
  - apply parseSecretKey_result.
Qed.

Lemma gossip_key_roundtrip_witness :
  parseSecretKey (keygen_gossip "0123456789abcdef") = Ok (Some "0123456789abcdef"%string) ∧
  match parseSecretKey " secret " with
  | Ok (Some key) => String.length key = 16%nat ∨ String.length key = 24%nat ∨ String.length key = 32%nat
  | Ok None => TrimSpace " secret " = EmptyString
  | Err e => e = ErrGossipKey (String.length (TrimSpace " secret "))
  | Panic => False
  end.
Proof. apply (gossip_key_roundtrip "0123456789abcdef" " secret "). vm_compute. reflexivity. Defined.

(** ** The event channel *)

Inductive chan_op := Send (e : MemberEvent) | Recv.

(** A run of the channel: what was received, and the buffer; a receive on an empty buffer waits. *)
Definition chan_step (st : list MemberEvent * list MemberEvent) (op : chan_op) :
    list MemberEvent * list MemberEvent :=
  match op with
  | Send e => (st.1, trySend e st.2)
  | Recv => match st.2 with [] => st | e :: buf => (st.1 ++ [e], buf) end
  end.
Definition chan_run (ops : list chan_op) : list MemberEvent * list MemberEvent :=
  foldl chan_step ([], []) ops.

Definition sent (ops : list chan_op) : list MemberEvent :=
  omap (λ op, match op with Send e => Some e | Recv => None end) ops.

(** The buffer was full at some send. *)
Definition overflowed (ops : list chan_op) : Prop :=
  ∃ ops1 e ops2, ops = ops1 ++ Send e :: ops2 ∧ length (chan_run ops1).2 = chan_cap.

(** The channel between memberlist and the agent never holds more than 256 events and never
    reorders or duplicates: what the agent received and what is buffered is a subsequence of what
    was sent, and all of it unless a send met a full buffer. *)
Theorem channel_fifo (ops : list chan_op) :
  (length (chan_run ops).2 ≤ 256)%nat ∧
  ((chan_run ops).1 ++ (chan_run ops).2) `sublist_of` sent ops ∧
  ((chan_run ops).1 ++ (chan_run ops).2 = sent ops ∨ overflowed ops).
Proof.
  change 256%nat with chan_cap. induction ops as [|op ops IH] using rev_ind.
  { split_and!; [simpl; unfold chan_cap; lia|done|by left]. }
  assert (∀ x, overflowed ops → overflowed (ops ++ [x])) as Hover.
  { intros x (o1 & e & o2 & -> & Hl). exists o1, e, (o2 ++ [x]). by rewrite <-app_assoc. }
  unfold chan_run in *. rewrite foldl_app. cbn [foldl].
  assert (sent (ops ++ [op]) = sent ops ++ sent [op]) as -> by (unfold sent; by rewrite omap_app).
  destruct (foldl chan_step ([], []) ops) as [got buf] eqn:Hrun. cbn [fst snd] in IH.
  destruct IH as (Hlen & Hsub & Hall). destruct op as [e|]; cbn [chan_step fst snd].
  - unfold trySend. case_bool_decide as Hb; (split_and!; [rewrite ?length_app; simpl; lia|..]).
    + rewrite app_assoc. by apply sublist_app.
    + destruct Hall as [<-|?]; [left; by rewrite app_assoc|right; auto].
    + etrans; [exact Hsub|]. by apply sublist_inserts_r.
    + right. exists ops, e, []. split; [done|]. unfold chan_run. rewrite Hrun. simpl. lia.
  - rewrite app_nil_r. destruct buf as [|x buf]; cbn [fst snd].
    + split_and!; [done|done|]. destruct Hall; auto.
    + simpl in Hlen. split_and!; [lia|by rewrite <-app_assoc|].
      destruct Hall as [<-|?]; [left; by rewrite <-app_assoc|right; auto].
Qed.
