(* ===== verification/Net.v ===== *)
(** * Addresses: what the program uses of Go's net package

    net.SplitHostPort, net.JoinHostPort, net.ParseIP and the methods of net.IP.  An [IP] is in the
    form its methods see it: an IPv4 address also when it was written as an IPv4-mapped IPv6 one. *)

From Stdlib Require Import Ascii.
From S2P Require Import Prelude GoText.
Local Open Scope N_scope.

(** ** Hosts and ports *)

(** The error is [None].  In brackets the first closing bracket must be followed by the last colon;
    without them the only colon is the one before the port. *)
Definition SplitHostPort (s : string) : option (string * string) :=
  match s with
  | String "["%char rest =>
      match cut "]"%char rest with
      | Some (host, String ":"%char port) =>
          if has ":"%char port || has "["%char host || has "["%char port || has "]"%char port
          then None else Some (host, port)
      | _ => None
      end
  | _ =>
      match cut ":"%char s with
      | Some (host, port) =>
          if has ":"%char port || has "["%char s || has "]"%char s then None else Some (host, port)
      | None => None
      end
  end.

Definition JoinHostPort (host port : string) : string :=
  if has ":"%char host then "[" +:+ (host +:+ ("]:" +:+ port)) else host +:+ (":" +:+ port).

(** ** IP addresses *)

Inductive IP :=
| V4 (a b c d : N)            (* four bytes *)
| V6 (gs : list N).           (* eight 16-bit groups, not IPv4-mapped *)

#[export] Instance IP_eq_dec : EqDecision IP.
Proof. solve_decision. Defined.

Definition IsLoopback (ip : IP) : bool :=
  match ip with
  | V4 a _ _ _ => a =? 127
  | V6 gs => bool_decide (gs = [0; 0; 0; 0; 0; 0; 0; 1])
  end.
Definition IsUnspecified (ip : IP) : bool := bool_decide (ip = V4 0 0 0 0 ∨ ip = V6 (replicate 8 0)).
Definition IsV4 (ip : IP) : bool := match ip with V4 _ _ _ _ => true | V6 _ => false end.

Definition ip_of_groups (gs : list N) : IP :=
  match gs with
  | [0; 0; 0; 0; 0; 0xffff; x; y] => V4 (x / 256) (x mod 256) (y / 256) (y mod 256)
  | _ => V6 gs
  end.

(** ** net.ParseIP *)

Definition in_range (lo hi : N) (c : ascii) : bool :=
  (lo <=? N_of_ascii c) && (N_of_ascii c <=? hi).
Definition dec_digit (c : ascii) : option N :=
  if in_range 48 57 c then Some (N_of_ascii c - 48) else None.
Definition hex_digit (c : ascii) : option N :=
  if in_range 48 57 c then Some (N_of_ascii c - 48)
  else if in_range 97 102 c then Some (N_of_ascii c - 87)
  else if in_range 65 70 c then Some (N_of_ascii c - 55) else None.

(** The digits of an octet after its first, with the value so far. *)
Fixpoint octet_rest (s : string) (v : N) : option N :=
  match s with
  | EmptyString => Some v
  | String c s' =>
      d ← dec_digit c;
      if v =? 0 then None
      else if 255 <? 10 * v + d then None else octet_rest s' (10 * v + d)
  end.
Definition octet (s : string) : option N :=
  match s with
  | EmptyString => None
  | String c s' => d ← dec_digit c; octet_rest s' d
  end.

Definition parseIPv4 (s : string) : option (N * N * N * N) :=
  match Split "."%char s with
  | [a; b; c; d] => a ← octet a; b ← octet b; c ← octet c; d ← octet d; Some (a, b, c, d)
  | _ => None
  end.

(** The hexadecimal digits at the start: how many, their value, the rest. *)
Fixpoint hex_run (s : string) (n : nat) (v : N) : nat * N * string :=
  match s with
  | String c s' => match hex_digit c with
                   | Some d => hex_run s' (S n) (16 * v + d)
                   | None => (n, v, s)
                   end
  | EmptyString => (n, v, s)
  end.

(** The loop of parseIPv6: the groups so far, the position of the ellipsis, the rest of the text.
    Each turn reads a group, so eight turns are all there can be. *)
Fixpoint v6_groups (fuel : nat) (gs : list N) (ellipsis : option nat) (s : string) :
    option (list N * option nat) :=
  match fuel with
  | O => if bool_decide (s = EmptyString) then Some (gs, ellipsis) else None
  | S fuel =>
      let '(n, v, rest) := hex_run s 0 0 in
      if bool_decide (n = 0%nat) || bool_decide (4 < n)%nat then None
      else match rest with
           | EmptyString => Some (gs ++ [v], ellipsis)
           | String "."%char _ =>
               if (bool_decide (ellipsis = None) && negb (bool_decide (length gs = 6%nat))) ||
                  bool_decide (6 < length gs)%nat then None
               else '(a, b, c, d) ← parseIPv4 s;
                    Some (gs ++ [256 * a + b; 256 * c + d], ellipsis)
           | String ":"%char (String c s') =>
               if Ascii.eqb c ":"%char then
                 match ellipsis with
                 | Some _ => None
                 | None => let gs := gs ++ [v] in
                           if bool_decide (s' = EmptyString) then Some (gs, Some (length gs))
                           else v6_groups fuel gs (Some (length gs)) s'
                 end
               else v6_groups fuel (gs ++ [v]) ellipsis (String c s')
           | _ => None
           end
  end.

Definition expand (gs : list N) (ellipsis : option nat) : option (list N) :=
  match ellipsis with
  | None => if bool_decide (length gs = 8%nat) then Some gs else None
  | Some e => if bool_decide (length gs < 8)%nat
              then Some (take e gs ++ replicate (8 - length gs) 0 ++ drop e gs) else None
  end.

Definition parseIPv6 (s : string) : option (list N) :=
  match s with
  | String ":"%char (String ":"%char EmptyString) => Some (replicate 8 0)
  | String ":"%char (String ":"%char s') =>
      '(gs, e) ← v6_groups 8 [] (Some 0%nat) s'; expand gs e
  | _ => '(gs, e) ← v6_groups 8 [] None s; expand gs e
  end.

(** Which parser the first of '.', ':' and '%' selects. *)
Fixpoint ip_family (s : string) : option bool :=
  match s with
  | EmptyString => None
  | String c s' => if Ascii.eqb c "."%char then Some true
                   else if Ascii.eqb c ":"%char then Some false
                   else if Ascii.eqb c "%"%char then None else ip_family s'
  end.

(** [None] is nil.  A zone makes net.ParseIP return nil. *)
Definition ParseIP (s : string) : option IP :=
  if has "%"%char s then None
  else match ip_family s with
       | Some true => '(a, b, c, d) ← parseIPv4 s; Some (V4 a b c d)
       | Some false => ip_of_groups <$> parseIPv6 s
       | None => None
       end.

(** ** IP.String *)

Definition dec_char (x : N) : ascii := ascii_of_N (48 + x mod 10).
Definition hex_char (x : N) : ascii :=
  let r := x mod 16 in ascii_of_N (if r <? 10 then 48 + r else 87 + r).
Definition chars (l : list ascii) : string := foldr String EmptyString l.

Definition dec_byte (n : N) : string :=
  chars ((if 100 <=? n then [dec_char (n / 100)] else []) ++
         (if 10 <=? n then [dec_char (n / 10)] else []) ++ [dec_char n]).
Definition hex_group (n : N) : string :=
  chars ((if 0x1000 <=? n then [hex_char (n / 0x1000)] else []) ++
         (if 0x100 <=? n then [hex_char (n / 0x100)] else []) ++
         (if 0x10 <=? n then [hex_char (n / 0x10)] else []) ++ [hex_char n]).

(** The first longest run of at least two zero groups: where it starts, how long it is. *)
Fixpoint zero_run (gs : list N) : nat :=
  match gs with g :: gs => if g =? 0 then S (zero_run gs) else O | [] => O end.
Fixpoint longest_run (i : nat) (gs : list N) (best : nat * nat) : nat * nat :=
  match gs with
  | [] => best
  | _ :: gs' =>
      let l := zero_run gs in
      longest_run (S i) gs' (if bool_decide (2 ≤ l)%nat && bool_decide (best.2 < l)%nat then (i, l) else best)
  end.

Definition IP_String (ip : IP) : string :=
  match ip with
  | V4 a b c d => join "." (dec_byte <$> [a; b; c; d])
  | V6 gs =>
      let '(start, len) := longest_run 0 gs (O, O) in
      if bool_decide (len = O) then join ":" (hex_group <$> gs)
      else join ":" (hex_group <$> take start gs) +:+ ("::" +:+ join ":" (hex_group <$> drop (start + len) gs))
  end.

Example parse_loopback : ParseIP "127.0.0.1" = Some (V4 127 0 0 1) ∧ ParseIP "::1" = Some (V6 [0; 0; 0; 0; 0; 0; 0; 1]) ∧
  ParseIP "::ffff:127.0.0.1" = Some (V4 127 0 0 1) ∧ ParseIP "::" = Some (V6 (replicate 8 0)) ∧
  ParseIP "::0" = Some (V6 (replicate 8 0)) ∧ ParseIP "2001:db8::8:800:200c:417a" = Some (V6 [0x2001; 0xdb8; 0; 0; 8; 0x800; 0x200c; 0x417a]).
Proof. vm_compute. by split_and!. Qed.
Example parse_rejects : Forall (λ s, ParseIP s = None)
  ["1.2.3"; "01.2.3.4"; "1.2.3.256"; "1:2:3"; "fe80::1%eth0"; "1::2::3"; "12345::"; "localhost"; ""; "1:2:3:4:5:6:7:8::"; "1:2:3:4:5:6:7:8:9"; "::1.2.3"]%string.
Proof. apply (bool_decide_unpack _). vm_compute. done. Qed.
Example print_ips : IP_String (V4 10 0 0 255) = "10.0.0.255"%string ∧
  IP_String (V6 [0x2001; 0xdb8; 0; 0; 8; 0x800; 0x200c; 0x417a]) = "2001:db8::8:800:200c:417a"%string ∧
  IP_String (V6 (replicate 8 0)) = "::"%string ∧ IP_String (V6 [0xfe80; 0; 0; 0; 0; 0; 0; 1]) = "fe80::1"%string ∧
  IP_String (V6 [1; 0; 0; 2; 0; 0; 0; 0]) = "1:0:0:2::"%string.
Proof. vm_compute. by split_and!. Qed.

(** ** Lemmas *)

(** No bracket and no colon, as in a port. *)
Definition plain_port (p : string) : bool := negb (has ":"%char p || has "["%char p || has "]"%char p).
Definition no_brackets (h : string) : bool := negb (has "["%char h || has "]"%char h).

(** A text is split either in brackets, or at its only colon. *)
Lemma SplitHostPort_cases (s h p : string) :
  SplitHostPort s = Some (h, p) →
  plain_port p = true ∧ no_brackets h = true ∧
  (s = "[" +:+ (h +:+ ("]:" +:+ p)) ∨ s = h +:+ (":" +:+ p) ∧ has ":"%char h = false).
Proof.
  unfold SplitHostPort, plain_port, no_brackets. intros H.
  assert (match cut ":"%char s with
          | Some (host, port) => if has ":"%char port || has "["%char s || has "]"%char s then None
                                 else Some (host, port)
          | None => None end = Some (h, p) →
          negb (has ":"%char p || has "["%char p || has "]"%char p) = true ∧
          negb (has "["%char h || has "]"%char h) = true ∧ s = h +:+ (":" +:+ p) ∧
          has ":"%char h = false) as Hplain.
  { destruct (cut ":"%char s) as [[h' p']|] eqn:Hc; [|done]. apply cut_spec in Hc as [-> Hh].
    destruct (_ || _) eqn:Hb; [done|]. intros [= -> ->]. rewrite !has_app in Hb. simpl in Hb.
    repeat (apply orb_false_iff in Hb as [Hb ?]). repeat (apply orb_false_iff in H0 as [H0 ?]).
    repeat (apply orb_false_iff in H1 as [H1 ?]). simpl in *.
    rewrite ?Hb, ?H0, ?H1, ?H2, ?H3, ?H4, ?orb_false_r in *. simpl in *.
    repeat match goal with X : _ || _ = false |- _ => apply orb_false_iff in X as [??] end.
    split_and!; try done; rewrite negb_true_iff, ?orb_false_iff; auto. }
  destruct s as [|a s]; [by destruct (Hplain H) as (? & ? & ? & ?); auto|].
  destruct (Ascii.eqb_spec a "["%char) as [->|Hne].
  - clear Hplain. destruct (cut "]"%char s) as [[h' [|b p']]|] eqn:Hc; [done| |done].
    destruct (Ascii.eqb_spec b ":"%char) as [->|Hb].
    + destruct (_ || _ || _ || _) eqn:Hbad; [done|]. injection H as -> ->.
      apply cut_spec in Hc as [-> Hh].
      repeat match goal with X : _ || _ = false |- _ => apply orb_false_iff in X as [??] end.
      split_and!; [rewrite negb_true_iff, !orb_false_iff; auto..|by left].
    + exfalso. revert H Hb. destruct b as [[] [] [] [] [] [] [] []]; done.
  - assert (match cut ":"%char (String a s) with
            | Some (host, port) => if has ":"%char port || has "["%char (String a s) || has "]"%char (String a s)
                                   then None else Some (host, port)
            | None => None end = Some (h, p)) as H'.
    { rewrite <-H. destruct a as [[] [] [] [] [] [] [] []]; done. }
    destruct (Hplain H') as (? & ? & ? & ?). auto.
Qed.

Lemma SplitHostPort_Join (h p : string) :
  no_brackets h = true → plain_port p = true → SplitHostPort (JoinHostPort h p) = Some (h, p).
Proof.
  unfold no_brackets, plain_port. rewrite !negb_true_iff, !orb_false_iff.
  intros [Ho Hc] [[Hpc Hpo] Hpb]. unfold JoinHostPort. destruct (has ":"%char h) eqn:Hcol.
  - unfold SplitHostPort. rewrite !string_cons_app. cbn [String.append].
    change ("" +:+ (h +:+ String "]" (String ":" ("" +:+ p)))) with (h +:+ String "]" (String ":" p)).
    rewrite cut_app by done. by rewrite Hpc, Ho, Hpo, Hpb.
  - assert (SplitHostPort (h +:+ (":" +:+ p)) =
      match cut ":"%char (h +:+ (":" +:+ p)) with
      | Some (host, port) => if has ":"%char port || has "["%char (h +:+ (":" +:+ p)) ||
                                has "]"%char (h +:+ (":" +:+ p)) then None else Some (host, port)
      | None => None end) as ->.
    { destruct h as [|a h]; [done|]. rewrite string_cons_app. unfold SplitHostPort.
      destruct (Ascii.eqb_spec a "["%char) as [->|Hne]; [by simpl in Ho|].
      destruct a as [[] [] [] [] [] [] [] []]; done. }
    change (":" +:+ p) with (String ":" p). rewrite cut_app, !has_app by done. simpl.
    by rewrite Hpc, Ho, Hc, Hpo, Hpb.
Qed.

(** ** The characters of a printed address *)

Definition ip_char (c : ascii) : bool :=
  in_range 48 57 c || in_range 97 102 c || Ascii.eqb c "."%char || Ascii.eqb c ":"%char.

Fixpoint all_chars (P : ascii → bool) (s : string) : bool :=
  match s with EmptyString => true | String c s' => P c && all_chars P s' end.

Lemma all_chars_app P (x y : string) : all_chars P (x +:+ y) = all_chars P x && all_chars P y.
Proof. induction x as [|c x IH]; [done|]. rewrite string_cons_app. simpl. by rewrite IH, andb_assoc. Qed.

Lemma all_chars_has P c (s : string) : P c = false → all_chars P s = true → has c s = false.
Proof.
  intros Hc. induction s as [|a s IH]; [done|]. simpl. rewrite andb_true_iff, orb_false_iff.
  intros [Ha Hs]. split; [|by apply IH]. destruct (Ascii.eqb_spec a c); [congruence|done].
Qed.

Lemma all_chars_join P sep l :
  all_chars P sep = true → Forall (λ s, all_chars P s = true) l → all_chars P (join sep l) = true.
Proof.
  intros Hsep. induction 1 as [|x l Hx Hl IH]; [done|]. destruct l as [|y l]; [done|].
  change (join sep (x :: y :: l)) with (x +:+ (sep +:+ join sep (y :: l))).
  by rewrite !all_chars_app, Hx, Hsep, IH.
Qed.

Definition below16 : list N := N.of_nat <$> seq 0 16.

Lemma below16_mod (n m : N) : m ≠ 0 → m ≤ 16 → n mod m ∈ below16.
Proof.
  intros Hm Hle. apply list_elem_of_fmap. pose proof (N.mod_upper_bound n m Hm).
  generalize dependent (n mod m). intros r Hr. exists (N.to_nat r). split; [lia|].
  apply elem_of_seq. lia.
Qed.

Lemma digit_chars : Forall (λ r, ip_char (ascii_of_N (48 + r)) = true ∨ 10 ≤ r) below16 ∧
  Forall (λ r, ip_char (ascii_of_N (if r <? 10 then 48 + r else 87 + r)) = true) below16.
Proof. split; apply (bool_decide_unpack _); vm_compute; done. Qed.

Lemma dec_char_ok n : ip_char (dec_char n) = true.
Proof.
  destruct digit_chars as [H _]. rewrite Forall_forall in H.
  destruct (H (n mod 10)) as [?|Hbad]; [apply below16_mod; lia|done|].
  assert (n mod 10 < 10) by (apply N.mod_upper_bound; lia). lia.
Qed.
Lemma hex_char_ok n : ip_char (hex_char n) = true.
Proof. destruct digit_chars as [_ H]. rewrite Forall_forall in H. apply H, below16_mod; lia. Qed.

Lemma all_chars_chars P (l : list ascii) : all_chars P (chars l) = forallb P l.
Proof. induction l as [|c l IH]; [done|]. simpl. by rewrite IH. Qed.

Lemma dec_byte_chars n : all_chars ip_char (dec_byte n) = true.
Proof.
  unfold dec_byte. rewrite all_chars_chars, !forallb_app. simpl.
  destruct (100 <=? n), (10 <=? n); simpl; by rewrite ?dec_char_ok.
Qed.
Lemma hex_group_chars n : all_chars ip_char (hex_group n) = true.
Proof.
  unfold hex_group. rewrite all_chars_chars, !forallb_app. simpl.
  destruct (0x1000 <=? n), (0x100 <=? n), (0x10 <=? n); simpl; by rewrite ?hex_char_ok.
Qed.

Lemma groups_chars (gs : list N) : all_chars ip_char (join ":" (hex_group <$> gs)) = true.
Proof.
  apply all_chars_join; [done|]. apply Forall_fmap, Forall_forall. intros g _. apply hex_group_chars.
Qed.

Lemma IP_String_chars ip : all_chars ip_char (IP_String ip) = true.
Proof.
  destruct ip as [a b c d|gs]; unfold IP_String.
  - apply all_chars_join; [done|]. apply Forall_fmap, Forall_forall. intros g _. apply dec_byte_chars.
  - destruct (longest_run 0 gs (0%nat, 0%nat)) as [start len].
    case_bool_decide; [apply groups_chars|]. by rewrite !all_chars_app, !groups_chars.
Qed.

Lemma IP_String_brackets ip : no_brackets (IP_String ip) = true.
Proof.
  unfold no_brackets. pose proof (IP_String_chars ip) as H.
  by rewrite !(all_chars_has ip_char) by done.
Qed.

(** ** Printed IPv4 addresses parse back *)

Definition below256 : list N := N.of_nat <$> seq 0 256.

Lemma elem_of_below256 n : n < 256 → n ∈ below256.
Proof.
  intros Hn. apply list_elem_of_fmap. exists (N.to_nat n). split; [lia|]. apply elem_of_seq. lia.
Qed.

Lemma octets_back : Forall (λ n, octet (dec_byte n) = Some n ∧ has "."%char (dec_byte n) = false ∧
  has ":"%char (dec_byte n) = false ∧ has "%"%char (dec_byte n) = false) below256.
Proof. apply (bool_decide_unpack _). vm_compute. done. Qed.

Lemma Split_cons sep (x s : string) :
  has sep x = false → Split sep (x +:+ String sep s) = x :: Split sep s.
Proof.
  induction x as [|a x IH]; [by simpl; rewrite Ascii.eqb_refl|]. rewrite string_cons_app. simpl.
  intros [-> Hx]%orb_false_iff. by rewrite IH.
Qed.
Lemma Split_last sep (x : string) : has sep x = false → Split sep x = [x].
Proof. induction x as [|a x IH]; [done|]. simpl. intros [-> Hx]%orb_false_iff. by rewrite IH. Qed.

Lemma ip_family_v4 (x s : string) :
  has "."%char x = false → has ":"%char x = false → has "%"%char x = false →
  ip_family (x +:+ String "."%char s) = Some true.
Proof.
  induction x as [|a x IH]; [done|]. rewrite string_cons_app. simpl.
  intros [-> H1]%orb_false_iff [-> H2]%orb_false_iff [-> H3]%orb_false_iff. by apply IH.
Qed.

Lemma ParseIP_String_v4 a b c d :
  a < 256 → b < 256 → c < 256 → d < 256 → ParseIP (IP_String (V4 a b c d)) = Some (V4 a b c d).
Proof.
  intros Ha Hb Hc Hd. pose proof octets_back as H. rewrite Forall_forall in H.
  destruct (H a (elem_of_below256 a Ha)) as (Pa & Da & Ca & Za).
  destruct (H b (elem_of_below256 b Hb)) as (Pb & Db & Cb & Zb).
  destruct (H c (elem_of_below256 c Hc)) as (Pc & Dc & Cc & Zc).
  destruct (H d (elem_of_below256 d Hd)) as (Pd & Dd & Cd & Zd).
  change (IP_String (V4 a b c d)) with
    (dec_byte a +:+ String "." (dec_byte b +:+ String "." (dec_byte c +:+ String "." (dec_byte d)))).
  unfold ParseIP.
  assert (has "%"%char (dec_byte a +:+ String "." (dec_byte b +:+ String "." (dec_byte c +:+ String "." (dec_byte d)))) = false) as ->.
  { rewrite has_app. simpl. rewrite has_app. simpl. rewrite has_app. simpl. by rewrite Za, Zb, Zc, Zd. }
  rewrite ip_family_v4 by done. unfold parseIPv4. rewrite !Split_cons, Split_last by done.
  by rewrite Pa, Pb, Pc, Pd.
Qed.
