(* ===== verification/Config.v ===== *)
(** * Configuration: internal/config/config.go

    The configuration tree, its defaults, and loading a file over them.  Reading files and the YAML
    library are parameters. *)

From S2P Require Import Prelude.
Local Open Scope Z_scope.

Module Config.

Record Cluster := mkCluster {
  NodeID : string;
  Bind : Z;
  Join : list string;
  Peers : list string;
  Profile : string;
  GossipKey : string
}.

Record SyncTLS := mkSyncTLS { CAFile : string; CertFile : string; KeyFile : string }.

Record Network := mkNetwork {
  HTTPAddr : string;
  SyncAddr : string;
  AdvertiseAddr : string;
  AdminToken : string;
  EnablePprof : bool;
  net_SyncTLS : SyncTLS
}.

Record Storage := mkStorage { DBPath : string }.
Record Execution := mkExecution { Capacity : Z; Region : string }.

(** Durations in nanoseconds. *)
Record Agent := mkAgent { Tick : Z; SyncInterval : Z }.

Record Config := mkConfig {
  cfg_Cluster : Cluster;
  cfg_Network : Network;
  cfg_Storage : Storage;
  cfg_Execution : Execution;
  cfg_Agent : Agent
}.

Definition second : Z := 1000000000.

Definition Default : Config :=
  mkConfig
    (mkCluster "runner-1" 7946 [] [] "lan" "")
    (mkNetwork "127.0.0.1:8090" "127.0.0.1:8100" "" "" false (mkSyncTLS "" "" ""))
    (mkStorage "takl.db")
    (mkExecution 4 "us-east-1")
    (mkAgent second (2 * second)).

(** [os.ReadFile]: the contents, os.ErrNotExist, or another error. *)
Inductive read_result := Contents (b : string) | NotExist | ReadError.

(** [yaml.Unmarshal(b, base)] sets the fields the document names, the others keep their values. *)
Definition Load (ReadFile : string → read_result) (Unmarshal : string → Config → option Config)
    (path : string) (base : Config) : result Config :=
  if bool_decide (path = ""%string) then Ok base
  else match ReadFile path with
       | NotExist => Ok base
       | ReadError => Err (ErrText "read config file")
       | Contents b => match Unmarshal b base with
                       | Some cfg => Ok cfg
                       | None => Err (ErrText "parse config file")
                       end
       end.

End Config.
