(* ===== verification/Tls.v ===== *)
(** * Sync credentials: internal/transport/tls.go

    Which files make sync use TLS, and the two configurations built from them.  crypto/tls and
    crypto/x509 are parameters: a key pair is loaded from two files, a pool from PEM text. *)

From S2P Require Import Prelude.
Local Open Scope Z_scope.

Record TLSFiles := mkTLSFiles { tls_CAFile : string; tls_CertFile : string; tls_KeyFile : string }.

Definition nonempty (s : string) : bool := negb (bool_decide (s = ""%string)).

Definition Enabled (t : TLSFiles) : bool :=
  nonempty (tls_CAFile t) || nonempty (tls_CertFile t) || nonempty (tls_KeyFile t).

Definition Validate (t : TLSFiles) : result unit :=
  if negb (nonempty (tls_CAFile t)) || negb (nonempty (tls_CertFile t)) || negb (nonempty (tls_KeyFile t))
  then Err (ErrText "sync tls requires ca_file, cert_file, and key_file")
  else Ok tt.

(** The fields of tls.Config the program sets. *)
Record tls_Config (cert pool : Type) := mkTlsConfig {
  MinVersion : Z;
  Certificates : list cert;
  ClientCAs : option pool;
  ClientAuth : Z;
  RootCAs : option pool
}.
Arguments mkTlsConfig {cert pool}.
Arguments MinVersion {cert pool}.
Arguments Certificates {cert pool}.
Arguments ClientCAs {cert pool}.
Arguments ClientAuth {cert pool}.
Arguments RootCAs {cert pool}.

Definition VersionTLS13 : Z := 0x0304.
Definition NoClientCert : Z := 0.
Definition RequireAndVerifyClientCert : Z := 4.

Section Load.
Context {cert pool : Type}.
Context (LoadX509KeyPair : string → string → option cert).
Context (ReadFile : string → option string).
(** [x509.NewCertPool()] and [AppendCertsFromPEM]; [None]: no certificate was parsed. *)
Context (AppendCertsFromPEM : string → option pool).

Definition LoadServerTLSCredentials (files : TLSFiles) : result (tls_Config cert pool) :=
  match Validate files with
  | Err e => Err e
  | Panic => Panic
  | Ok _ =>
      match LoadX509KeyPair (tls_CertFile files) (tls_KeyFile files) with
      | None => Err (ErrText "load key pair")
      | Some c =>
          match ReadFile (tls_CAFile files) with
          | None => Err (ErrText "read CA file")
          | Some caPEM =>
              match AppendCertsFromPEM caPEM with
              | None => Err (ErrText "failed to parse CA file")
              | Some caPool =>
                  Ok (mkTlsConfig VersionTLS13 [c] (Some caPool) RequireAndVerifyClientCert None)
              end
          end
      end
  end.

Definition LoadClientTLSCredentials (files : TLSFiles) : result (tls_Config cert pool) :=
  match Validate files with
  | Err e => Err e
  | Panic => Panic
  | Ok _ =>
      match LoadX509KeyPair (tls_CertFile files) (tls_KeyFile files) with
      | None => Err (ErrText "load key pair")
      | Some c =>
          match ReadFile (tls_CAFile files) with
          | None => Err (ErrText "read CA file")
          | Some caPEM =>
              match AppendCertsFromPEM caPEM with
              | None => Err (ErrText "failed to parse CA file")
              | Some caPool => Ok (mkTlsConfig VersionTLS13 [c] None NoClientCert (Some caPool))
              end
          end
      end
  end.

(** Both sides present the same certificate and trust the same CA, over TLS 1.3, and the server
    accepts no client without a certificate of that CA. *)
Definition mutual (server client : tls_Config cert pool) : Prop :=
  MinVersion server = 0x0304 ∧ MinVersion client = 0x0304 ∧ ClientAuth server = 4 ∧
  (∃ p, ClientCAs server = Some p ∧ RootCAs client = Some p) ∧
  Certificates server = Certificates client ∧ length (Certificates server) = 1%nat.

Lemma Validate_ok files :
  Validate files = Ok tt ↔ tls_CAFile files ≠ ""%string ∧ tls_CertFile files ≠ ""%string ∧
                           tls_KeyFile files ≠ ""%string.
Proof.
  unfold Validate, nonempty. rewrite !negb_involutive.
  repeat case_bool_decide; simpl; split; naive_solver.
Qed.

Lemma credentials_mutual files server client :
  LoadServerTLSCredentials files = Ok server → LoadClientTLSCredentials files = Ok client →
  mutual server client ∧ Validate files = Ok tt.
Proof.
  unfold LoadServerTLSCredentials, LoadClientTLSCredentials.
  destruct (Validate files) as [[]| |]; [|done..]. destruct (LoadX509KeyPair _ _) as [c|]; [|done].
  destruct (ReadFile _); [|done]. destruct (AppendCertsFromPEM _) as [p|]; [|done].
  intros [= <-] [= <-]. split; [|done]. split_and!; try done. by exists p.
Qed.

End Load.
