(* ===== verification/Takld.v ===== *)
(** * The daemon: cmd/takld/main.go

    Start-up as a computation that records what it does to the outside: the configuration from
    defaults, file and flags, the addresses, the refusals, then the store, the cluster, the sync
    server, the engine and the HTTP server in the order of the code, with the deferred calls.  A
    start-up that fails leaves through os.Exit, which runs no deferred call. *)

From Stdlib Require Import Ascii.
From S2P Require Import Prelude GoText Net Hlc Model Metrics World Store Agent Membership Config Tls.
Local Open Scope Z_scope.
Import Config.

(** ** Flags *)

(** The values of the flag variables after flag.Parse, and the names that were given. *)
Record Flags := mkFlags {
  f_config : string; f_node_id : string; f_http_addr : string; f_sync_addr : string;
  f_advertise_addr : string; f_admin_token : string; f_enable_pprof : bool; f_peers : string;
  f_bind : Z; f_join : string; f_cluster_profile : string; f_gossip_key : string;
  f_tls_ca_file : string; f_tls_cert_file : string; f_tls_key_file : string;
  f_allow_insecure_sync : bool; f_allow_insecure_gossip : bool; f_db : string; f_capacity : Z;
  f_region : string; f_tick : Z; f_sync_interval : Z;
  f_given : list string
}.

Definition on_Cluster (f : Cluster → Cluster) (c : Config) : Config :=
  mkConfig (f (cfg_Cluster c)) (cfg_Network c) (cfg_Storage c) (cfg_Execution c) (cfg_Agent c).
Definition on_Network (f : Network → Network) (c : Config) : Config :=
  mkConfig (cfg_Cluster c) (f (cfg_Network c)) (cfg_Storage c) (cfg_Execution c) (cfg_Agent c).
Definition on_SyncTLS (f : SyncTLS → SyncTLS) : Config → Config :=
  on_Network (λ n, mkNetwork (HTTPAddr n) (SyncAddr n) (AdvertiseAddr n) (AdminToken n)
                     (EnablePprof n) (f (net_SyncTLS n))).

(** The function passed to flag.Visit. *)
Definition visit (fl : Flags) (cfg : Config) (name : string) : Config :=
  let named k := bool_decide (name = k) in
  if named "node-id"%string then
    on_Cluster (λ c, mkCluster (f_node_id fl) (Bind c) (Join c) (Peers c) (Profile c) (GossipKey c)) cfg
  else if named "http-addr"%string then
    on_Network (λ n, mkNetwork (f_http_addr fl) (SyncAddr n) (AdvertiseAddr n) (AdminToken n)
                       (EnablePprof n) (net_SyncTLS n)) cfg
  else if named "sync-addr"%string then
    on_Network (λ n, mkNetwork (HTTPAddr n) (f_sync_addr fl) (AdvertiseAddr n) (AdminToken n)
                       (EnablePprof n) (net_SyncTLS n)) cfg
  else if named "advertise-addr"%string then
    on_Network (λ n, mkNetwork (HTTPAddr n) (SyncAddr n) (f_advertise_addr fl) (AdminToken n)
                       (EnablePprof n) (net_SyncTLS n)) cfg
  else if named "admin-token"%string then
    on_Network (λ n, mkNetwork (HTTPAddr n) (SyncAddr n) (AdvertiseAddr n) (f_admin_token fl)
                       (EnablePprof n) (net_SyncTLS n)) cfg
  else if named "enable-pprof"%string then
    on_Network (λ n, mkNetwork (HTTPAddr n) (SyncAddr n) (AdvertiseAddr n) (AdminToken n)
                       (f_enable_pprof fl) (net_SyncTLS n)) cfg
  else if named "peers"%string then
    on_Cluster (λ c, mkCluster (NodeID c) (Bind c) (Join c) (Split "," (f_peers fl)) (Profile c)
                       (GossipKey c)) cfg
  else if named "bind"%string then
    on_Cluster (λ c, mkCluster (NodeID c) (f_bind fl) (Join c) (Peers c) (Profile c) (GossipKey c)) cfg
  else if named "join"%string then
    on_Cluster (λ c, mkCluster (NodeID c) (Bind c) (Split "," (f_join fl)) (Peers c) (Profile c)
                       (GossipKey c)) cfg
  else if named "cluster-profile"%string then
    on_Cluster (λ c, mkCluster (NodeID c) (Bind c) (Join c) (Peers c) (f_cluster_profile fl)
                       (GossipKey c)) cfg
  else if named "gossip-key"%string then
    on_Cluster (λ c, mkCluster (NodeID c) (Bind c) (Join c) (Peers c) (Profile c) (f_gossip_key fl)) cfg
  else if named "sync-tls-ca-file"%string then
    on_SyncTLS (λ t, mkSyncTLS (f_tls_ca_file fl) (CertFile t) (KeyFile t)) cfg
  else if named "sync-tls-cert-file"%string then
    on_SyncTLS (λ t, mkSyncTLS (CAFile t) (f_tls_cert_file fl) (KeyFile t)) cfg
  else if named "sync-tls-key-file"%string then
    on_SyncTLS (λ t, mkSyncTLS (CAFile t) (CertFile t) (f_tls_key_file fl)) cfg
  else if named "db"%string then
    mkConfig (cfg_Cluster cfg) (cfg_Network cfg) (mkStorage (f_db fl)) (cfg_Execution cfg) (cfg_Agent cfg)
  else if named "capacity"%string then
    mkConfig (cfg_Cluster cfg) (cfg_Network cfg) (cfg_Storage cfg)
      (mkExecution (f_capacity fl) (Region (cfg_Execution cfg))) (cfg_Agent cfg)
  else if named "region"%string then
    mkConfig (cfg_Cluster cfg) (cfg_Network cfg) (cfg_Storage cfg)
      (mkExecution (Capacity (cfg_Execution cfg)) (f_region fl)) (cfg_Agent cfg)
  else if named "tick"%string then
    mkConfig (cfg_Cluster cfg) (cfg_Network cfg) (cfg_Storage cfg) (cfg_Execution cfg)
      (mkAgent (f_tick fl) (SyncInterval (cfg_Agent cfg)))
  else if named "sync-interval"%string then
    mkConfig (cfg_Cluster cfg) (cfg_Network cfg) (cfg_Storage cfg) (cfg_Execution cfg)
      (mkAgent (Tick (cfg_Agent cfg)) (f_sync_interval fl))
  else cfg.

(** flag.Visit calls it for the flags that were given, in lexicographical order. *)
Definition Visit (fl : Flags) (cfg : Config) : Config :=
  foldl (visit fl) cfg (merge_sort String.le (f_given fl)).

(** ** Addresses *)

Definition LookupIP := string → option (list IP).

Definition usable (ip : IP) : bool := negb (IsLoopback ip || IsUnspecified ip).

Definition resolveAdvertiseIP (lookup : LookupIP) (value : string) : string :=
  let host := TrimSpace value in
  if bool_decide (host = ""%string) then ""
  else match ParseIP host with
       | Some ip => if IsLoopback ip || IsUnspecified ip then ""%string else IP_String ip
       | None =>
           match lookup host with
           | None => ""%string
           | Some ips =>
               match List.find (λ ip, usable ip && IsV4 ip) ips with
               | Some v4 => IP_String v4
               | None => match List.find usable ips with
                         | Some ip => IP_String ip
                         | None => ""%string
                         end
               end
           end
       end.

(** net.Interfaces: flags and addresses, each of which may fail or not be an IP network. *)
Inductive ifaddr := IPNet (ip : option IP) | OtherAddr.
Record iface := mkIface { if_up : bool; if_loopback : bool; if_addrs : option (list ifaddr) }.

Definition iface_ip (a : ifaddr) : option string :=
  match a with
  | IPNet (Some ip) => if IsLoopback ip || IsUnspecified ip then None
                       else if IsV4 ip then Some (IP_String ip) else None
  | _ => None
  end.

(** The first result of a loop that returns from inside. *)
Fixpoint first_of {A B} (f : A → option B) (l : list A) : option B :=
  match l with
  | [] => None
  | a :: l => match f a with Some b => Some b | None => first_of f l end
  end.

Definition discoverAdvertiseIP (lookup : LookupIP) (interfaces : option (list iface))
    (addrs : list string) : string :=
  let from_addr addr :=
    match SplitHostPort addr with
    | None => None
    | Some (host, _) => let ip := resolveAdvertiseIP lookup host in
                        if bool_decide (ip = ""%string) then None else Some ip
    end in
  match first_of from_addr addrs with
  | Some ip => ip
  | None =>
      match interfaces with
      | None => ""%string
      | Some ifaces =>
          default ""%string
            (first_of (λ i, if negb (if_up i) || if_loopback i then None
                            else match if_addrs i with
                                 | None => None
                                 | Some addrs => first_of iface_ip addrs
                                 end) ifaces)
      end
  end.

Definition advertisedAddr (listenAddr advertiseIP : string) : result string :=
  if bool_decide (listenAddr = ""%string) then Ok ""%string
  else match SplitHostPort listenAddr with
       | None => Err (ErrText "net.SplitHostPort")
       | Some (host, port) =>
           let host := if bool_decide (host = ""%string ∨ host = "0.0.0.0"%string ∨ host = "::"%string)
                       then advertiseIP else host in
           Ok (JoinHostPort host port)
       end.

Definition compactList (l : list string) : list string :=
  foldl (λ out v, let v := TrimSpace v in
                  if bool_decide (v = ""%string) then out else out ++ [v]) [] l.

Definition addrExposed (lookup : LookupIP) (addr : string) : bool :=
  match SplitHostPort addr with
  | None => false
  | Some (host, _) =>
      let host := TrimSpace host in
      if bool_decide (host = ""%string ∨ host = "0.0.0.0"%string ∨ host = "::"%string) then true
      else match ParseIP host with
           | Some ip => negb (IsLoopback ip)
           | None =>
               if bool_decide (host = "localhost"%string) then false
               else match lookup host with
                    | None => true
                    | Some ips => List.existsb (λ ip, negb (IsLoopback ip)) ips
                    end
           end
  end.

(** ** Start-up *)

Inductive peer_source := FromCluster | StaticPeers (l : list string).

Section Daemon.
Context {cert pool : Type}.

(** What the process does to the outside, in order. *)
Inductive action :=
| OpenStore (path nodeID : string)
| CreateMemberlist (c : MlConfig)
| JoinSeeds (seeds : list string)
| GoAgent (nodeID : string) (tick : Z) (withCluster : bool)
| ListenSync (addr : string) (creds : option (tls_Config cert pool))
| GoEngine (peers : peer_source) (interval : Z) (creds : option (tls_Config cert pool))
| GoHTTP (addr token : string) (pprof : bool)
| ShutdownHTTP | StopSyncServer | CloseClient | ShutdownCluster | CloseStore.

Inductive exit_reason :=
| ExitConfig | ExitSyncAddr | ExitTLSConfig | ExitInsecureSync | ExitInsecureGossip | ExitPprof
| ExitClientCreds | ExitServerCreds | ExitStore | ExitMembership | ExitListen.

#[export] Instance exit_reason_eq_dec : EqDecision exit_reason.
Proof. solve_decision. Defined.

(** The outside as start-up sees it. *)
Record System := mkSystem {
  sys_ReadConfig : string → read_result;
  sys_Yaml : string → Config → option Config;
  sys_LookupIP : nat → LookupIP;      (* the answers may differ from call site to call site *)
  sys_Interfaces : option (list iface);
  sys_LoadX509KeyPair : string → string → option cert;
  sys_ReadFile : string → option string;
  sys_AppendCertsFromPEM : string → option pool;
  sys_StoreOpen : string → bool;
  sys_MarshalMeta : string → string;
  sys_MemberlistCreate : MlConfig → bool;
  sys_Listen : string → bool
}.

(** The process: what it has done, and the deferred calls, the latest first. *)
Record proc := mkProc { p_trace : list action; p_defer : list action }.

Inductive outcome (A : Type) := Running (a : A) | Exit (r : exit_reason).
Arguments Running {A} a.
Arguments Exit {A} r.

Definition Boot (A : Type) : Type := proc → outcome A * proc.
#[export] Instance Boot_ret : MRet Boot := λ A a p, (Running a, p).
#[export] Instance Boot_bind : MBind Boot := λ A B k m p,
  match m p with (Running a, p') => k a p' | (Exit r, p') => (Exit r, p') end.

Definition exit {A} (r : exit_reason) : Boot A := λ p, (Exit r, p).
Definition refuse (b : bool) (r : exit_reason) : Boot unit := if b then exit r else mret tt.
Definition perform (a : action) : Boot unit := λ p, (Running tt, mkProc (p_trace p ++ [a]) (p_defer p)).
Definition defer (a : action) : Boot unit := λ p, (Running tt, mkProc (p_trace p) (a :: p_defer p)).
Definition from_result {A} (r : exit_reason) (x : result A) : Boot A :=
  match x with Ok a => mret a | _ => exit r end.

Context (sys : System) (fl : Flags).

(** [cfg := config.Default()], the file, the flags. *)
Definition load_config : result Config :=
  let cfg := if bool_decide (f_config fl = ""%string) then Ok Default
             else Load (sys_ReadConfig sys) (sys_Yaml sys) (f_config fl) Default in
  match cfg with Ok cfg => Ok (Visit fl cfg) | Err e => Err e | Panic => Panic end.

Definition profile_of (cfg : Config) : string :=
  let profile := ToLower (TrimSpace (Profile (cfg_Cluster cfg))) in
  let profile := if bool_decide (profile = ""%string) then "lan"%string else profile in
  if bool_decide (profile ≠ "lan"%string ∧ profile ≠ "wan"%string) then "lan"%string else profile.

Definition runner_ip (cfg : Config) : string :=
  let ip := resolveAdvertiseIP (sys_LookupIP sys 0) (AdvertiseAddr (cfg_Network cfg)) in
  let ip := if bool_decide (ip = ""%string)
            then discoverAdvertiseIP (sys_LookupIP sys 1) (sys_Interfaces sys)
                   [SyncAddr (cfg_Network cfg); HTTPAddr (cfg_Network cfg)]
            else ip in
  if bool_decide (ip = ""%string) then "127.0.0.1"%string else ip.

Definition tls_files (cfg : Config) : TLSFiles :=
  let t := net_SyncTLS (cfg_Network cfg) in mkTLSFiles (CAFile t) (CertFile t) (KeyFile t).

(** What the checks leave: the configuration and what start-up derives from it. *)
Record plan := mkPlan {
  pl_cfg : Config;
  pl_profile : string;
  pl_ip : string;
  pl_advertised : string;
  pl_peers : list string;
  pl_seeds : list string;
  pl_client : option (tls_Config cert pool);
  pl_server : option (tls_Config cert pool)
}.

(** Up to the credentials: nothing outside is touched. *)
Definition prepare : Boot plan :=
  cfg ← from_result ExitConfig load_config;
  let profile := profile_of cfg in
  let runnerIP := runner_ip cfg in
  advertisedSyncAddr ← from_result ExitSyncAddr (advertisedAddr (SyncAddr (cfg_Network cfg)) runnerIP);
  let peerList := compactList (Peers (cfg_Cluster cfg)) in
  let seedList := compactList (Join (cfg_Cluster cfg)) in
  let tlsFiles := tls_files cfg in
  _ ← refuse (Enabled tlsFiles && negb (is_ok (Validate tlsFiles))) ExitTLSConfig;
  _ ← refuse (negb (bool_decide (SyncAddr (cfg_Network cfg) = ""%string)) &&
              addrExposed (sys_LookupIP sys 2) (SyncAddr (cfg_Network cfg)) &&
              (bool_decide (0 < length peerList)%nat || (Bind (cfg_Cluster cfg) >? 0)) &&
              negb (Enabled tlsFiles) && negb (f_allow_insecure_sync fl)) ExitInsecureSync;
  _ ← refuse ((Bind (cfg_Cluster cfg) >? 0) && bool_decide (profile = "wan"%string) &&
              bool_decide (TrimSpace (GossipKey (cfg_Cluster cfg)) = ""%string) &&
              negb (f_allow_insecure_gossip fl)) ExitInsecureGossip;
  _ ← refuse (EnablePprof (cfg_Network cfg) &&
              bool_decide (TrimSpace (AdminToken (cfg_Network cfg)) = ""%string)) ExitPprof;
  if Enabled tlsFiles then
    clientCreds ← from_result ExitClientCreds
      (LoadClientTLSCredentials (sys_LoadX509KeyPair sys) (sys_ReadFile sys)
         (sys_AppendCertsFromPEM sys) tlsFiles);
    serverCreds ← from_result ExitServerCreds
      (LoadServerTLSCredentials (sys_LoadX509KeyPair sys) (sys_ReadFile sys)
         (sys_AppendCertsFromPEM sys) tlsFiles);
    mret (mkPlan cfg profile runnerIP advertisedSyncAddr peerList seedList (Some clientCreds)
            (Some serverCreds))
  else mret (mkPlan cfg profile runnerIP advertisedSyncAddr peerList seedList None None).

(** [membership.NewCluster] with memberlist's answers; the join is attempted only when there are
    seeds, and its failure is logged. *)
Definition start_cluster (pl : plan) : Boot bool :=
  let c := cfg_Cluster (pl_cfg pl) in
  if Bind c >? 0 then
    x ← from_result ExitMembership
          (NewCluster (sys_MarshalMeta sys)
             (λ mc, if sys_MemberlistCreate sys mc then Ok (mc, []) else Err (ErrText "memberlist"))
             (λ m seeds, (m.1, seeds))
             (NodeID c) (Bind c) (pl_ip pl) (pl_advertised pl) (pl_profile pl) (GossipKey c) (pl_seeds pl));
    _ ← perform (CreateMemberlist x.1);
    _ ← (if bool_decide (x.2 = []) then mret tt else perform (JoinSeeds x.2));
    _ ← defer ShutdownCluster;
    mret true
  else mret false.

(** From the store to the HTTP server.  The deferred close of the client tests whether there is one,
    which is so exactly when the engine is started. *)
Definition serve (pl : plan) : Boot unit :=
  let cfg := pl_cfg pl in
  let n := cfg_Network cfg in
  _ ← (if sys_StoreOpen sys (DBPath (cfg_Storage cfg)) then mret tt else exit ExitStore);
  _ ← perform (OpenStore (DBPath (cfg_Storage cfg)) (NodeID (cfg_Cluster cfg)));
  _ ← defer CloseStore;
  cluster ← start_cluster pl;
  _ ← perform (GoAgent (NodeID (cfg_Cluster cfg)) (Tick (cfg_Agent cfg)) cluster);
  let syncs := negb (bool_decide (SyncAddr n = ""%string)) in
  let engine := bool_decide (0 < length (pl_peers pl))%nat || cluster in
  _ ← (if engine then defer CloseClient else mret tt);
  _ ← (if syncs then
         if sys_Listen sys (SyncAddr n) then
           _ ← perform (ListenSync (SyncAddr n) (pl_server pl)); defer StopSyncServer
         else exit ExitListen
       else mret tt);
  _ ← (if engine then
         perform (GoEngine (if cluster then FromCluster else StaticPeers (pl_peers pl))
               (SyncInterval (cfg_Agent cfg)) (pl_client pl))
       else mret tt);
  perform (GoHTTP (HTTPAddr n) (AdminToken n) (EnablePprof n)).

(** [<-ctx.Done()], the shutdown of the HTTP server, and the deferred calls on return. *)
Definition wait_and_return : Boot unit := λ p,
  (Running tt, mkProc (p_trace p ++ ShutdownHTTP :: p_defer p) []).

Definition main : outcome unit * proc :=
  (pl ← prepare; _ ← serve pl; wait_and_return) (mkProc [] []).

End Daemon.
Arguments action : clear implicits.
Arguments proc : clear implicits.
Arguments System : clear implicits.
Arguments plan : clear implicits.
Arguments Boot : clear implicits.
Arguments Running {A} a.
Arguments Exit {A} r.
