(* ===== verification/TakldProps.v ===== *)
(** * Properties of start-up

    Flags win over the file, which wins over the defaults; a refused configuration touches nothing;
    what start-up opens is protected as promised; every resource of a completed start-up is released
    on shutdown. *)

From Stdlib Require Import Ascii.
From S2P Require Import Prelude GoText Net Hlc Model Metrics World Store Agent Membership MembershipProps Config Tls Takld.
Local Open Scope Z_scope.
Import Config.

(** ** Flags *)

(** A field that one flag sets: after any number of visits it has the flag's value if the flag was
    among them, else its old one. *)
Lemma visit_field {A} (π : Config → A) fl k v (names : list string) cfg :
  (∀ cfg name, π (visit fl cfg name) = if bool_decide (name = k) then v else π cfg) →
  π (foldl (visit fl) cfg names) = if bool_decide (k ∈ names) then v else π cfg.
Proof.
  intros Hπ. revert cfg. induction names as [|name names IH]; intros cfg; [done|].
  cbn [foldl]. rewrite IH, Hπ. repeat case_bool_decide; set_solver.
Qed.

(** No flag sets anything but its own field. *)
Ltac visit_only := intros [? ? ? ? ?] ?; unfold visit; repeat case_bool_decide; subst; try done.

Lemma given_sorted (fl : Flags) k : k ∈ merge_sort String.le (f_given fl) ↔ k ∈ f_given fl.
Proof. by rewrite merge_sort_Permutation. Qed.

Definition flag_or {A} (fl : Flags) (k : string) (v old : A) : A :=
  if bool_decide (k ∈ f_given fl) then v else old.

Lemma Visit_field {A} (π : Config → A) fl k v cfg :
  (∀ cfg name, π (visit fl cfg name) = if bool_decide (name = k) then v else π cfg) →
  π (Visit fl cfg) = flag_or fl k v (π cfg).
Proof.
  intros Hπ. unfold Visit, flag_or. rewrite (visit_field π fl k v) by done.
  by rewrite (bool_decide_ext _ _ (given_sorted fl k)).
Qed.

(** C29: Precedence: every field of the configuration takes the value of its flag when the flag was
    given on the command line, and otherwise keeps what the file or the defaults say; no flag
    touches another field, whatever the order and the names given. *)
Theorem Visit_precedence fl cfg :
  let cl := cfg_Cluster (Visit fl cfg) in let cl0 := cfg_Cluster cfg in
  let n := cfg_Network (Visit fl cfg) in let n0 := cfg_Network cfg in
  let t := net_SyncTLS n in let t0 := net_SyncTLS n0 in
  (NodeID cl = flag_or fl "node-id" (f_node_id fl) (NodeID cl0) ∧
   Bind cl = flag_or fl "bind" (f_bind fl) (Bind cl0) ∧
   Join cl = flag_or fl "join" (Split "," (f_join fl)) (Join cl0) ∧
   Peers cl = flag_or fl "peers" (Split "," (f_peers fl)) (Peers cl0) ∧
   Profile cl = flag_or fl "cluster-profile" (f_cluster_profile fl) (Profile cl0) ∧
   GossipKey cl = flag_or fl "gossip-key" (f_gossip_key fl) (GossipKey cl0)) ∧
  (HTTPAddr n = flag_or fl "http-addr" (f_http_addr fl) (HTTPAddr n0) ∧
   SyncAddr n = flag_or fl "sync-addr" (f_sync_addr fl) (SyncAddr n0) ∧
   AdvertiseAddr n = flag_or fl "advertise-addr" (f_advertise_addr fl) (AdvertiseAddr n0) ∧
   AdminToken n = flag_or fl "admin-token" (f_admin_token fl) (AdminToken n0) ∧
   EnablePprof n = flag_or fl "enable-pprof" (f_enable_pprof fl) (EnablePprof n0)) ∧
  (CAFile t = flag_or fl "sync-tls-ca-file" (f_tls_ca_file fl) (CAFile t0) ∧
   CertFile t = flag_or fl "sync-tls-cert-file" (f_tls_cert_file fl) (CertFile t0) ∧
   KeyFile t = flag_or fl "sync-tls-key-file" (f_tls_key_file fl) (KeyFile t0)) ∧
  (DBPath (cfg_Storage (Visit fl cfg)) = flag_or fl "db" (f_db fl) (DBPath (cfg_Storage cfg)) ∧
   Capacity (cfg_Execution (Visit fl cfg)) =
     flag_or fl "capacity" (f_capacity fl) (Capacity (cfg_Execution cfg)) ∧
   Region (cfg_Execution (Visit fl cfg)) = flag_or fl "region" (f_region fl) (Region (cfg_Execution cfg)) ∧
   Tick (cfg_Agent (Visit fl cfg)) = flag_or fl "tick" (f_tick fl) (Tick (cfg_Agent cfg)) ∧
   SyncInterval (cfg_Agent (Visit fl cfg)) =
     flag_or fl "sync-interval" (f_sync_interval fl) (SyncInterval (cfg_Agent cfg))).
Proof.
  cbv zeta. split_and!.
  - apply (Visit_field (λ c, NodeID (cfg_Cluster c))). visit_only.
  - apply (Visit_field (λ c, Bind (cfg_Cluster c))). visit_only.
  - apply (Visit_field (λ c, Join (cfg_Cluster c))). visit_only.
  - apply (Visit_field (λ c, Peers (cfg_Cluster c))). visit_only.
  - apply (Visit_field (λ c, Profile (cfg_Cluster c))). visit_only.
  - apply (Visit_field (λ c, GossipKey (cfg_Cluster c))). visit_only.
  - apply (Visit_field (λ c, HTTPAddr (cfg_Network c))). visit_only.
  - apply (Visit_field (λ c, SyncAddr (cfg_Network c))). visit_only.
  - apply (Visit_field (λ c, AdvertiseAddr (cfg_Network c))). visit_only.
  - apply (Visit_field (λ c, AdminToken (cfg_Network c))). visit_only.
  - apply (Visit_field (λ c, EnablePprof (cfg_Network c))). visit_only.
  - apply (Visit_field (λ c, CAFile (net_SyncTLS (cfg_Network c)))). visit_only.
  - apply (Visit_field (λ c, CertFile (net_SyncTLS (cfg_Network c)))). visit_only.
  - apply (Visit_field (λ c, KeyFile (net_SyncTLS (cfg_Network c)))). visit_only.
  - apply (Visit_field (λ c, DBPath (cfg_Storage c))). visit_only.
  - apply (Visit_field (λ c, Capacity (cfg_Execution c))). visit_only.
  - apply (Visit_field (λ c, Region (cfg_Execution c))). visit_only.
  - apply (Visit_field (λ c, Tick (cfg_Agent c))). visit_only.
  - apply (Visit_field (λ c, SyncInterval (cfg_Agent c))). visit_only.
Qed.

(** ** Addresses *)

(** Everything the host stands for is a loopback address. *)
Definition loopback_only (lookup : LookupIP) (host : string) : Prop :=
  host ≠ ""%string ∧
  match ParseIP host with
  | Some ip => IsLoopback ip = true
  | None => host = "localhost"%string ∨ ∃ ips, lookup host = Some ips ∧ Forall (λ ip, IsLoopback ip = true) ips
  end.

Lemma addrExposed_false lookup addr host port :
  SplitHostPort addr = Some (host, port) →
  addrExposed lookup addr = false ↔ loopback_only lookup (TrimSpace host).
Proof.
  intros Hs. unfold addrExposed, loopback_only. rewrite Hs. generalize (TrimSpace host). intros h.
  case_bool_decide as Hw.
  { split; [done|]. intros [Hne Hl]. destruct Hw as [?|[-> | ->]]; [done|..];
      vm_compute in Hl; discriminate Hl. }
  destruct (ParseIP h) as [ip|].
  - rewrite negb_false_iff. naive_solver.
  - case_bool_decide as Hl; [naive_solver|]. destruct (lookup h) as [ips|].
    + rewrite <-not_true_iff_false, existsb_exists. split.
      * intros Hn. split; [tauto|]. right. exists ips. split; [done|]. apply Forall_forall. intros ip Hip.
        destruct (IsLoopback ip) eqn:Hlb; [done|]. destruct Hn. exists ip. rewrite Hlb.
        split; [by apply list_elem_of_In|done].
      * intros [_ [?|(ips' & [= <-] & Hall)]]; [done|]. intros (ip & Hin & Hneg).
        apply list_elem_of_In in Hin. rewrite Forall_forall in Hall. by rewrite (Hall ip Hin) in Hneg.
    + naive_solver.
Qed.

(** *** The address a node advertises *)

Lemma find_first {A} (f : A → bool) (l : list A) x :
  List.find f l = Some x ↔ ∃ before after, l = before ++ x :: after ∧ f x = true ∧
                             Forall (λ y, f y = false) before.
Proof.
  induction l as [|y l IH]; simpl; [split; [done|by intros (bf & af & Hl & _); destruct bf]|].
  destruct (f y) eqn:Hy.
  - split.
    + intros [= <-]. exists [], l. by split_and!.
    + intros ([|z before] & after & [= -> ->] & Hx & HF); [done|].
      apply Forall_cons in HF as [Hz _]. congruence.
  - rewrite IH. split.
    + intros (before & after & -> & Hx & HF). exists (y :: before), after. by split_and!; [| |constructor].
    + intros ([|z before] & after & [= -> ->] & Hx & HF); [congruence|].
      apply Forall_cons in HF as [_ HF]. by exists before, after.
Qed.

Lemma find_nothing {A} (f : A → bool) (l : list A) :
  List.find f l = None ↔ Forall (λ y, f y = false) l.
Proof.
  induction l as [|y l IH]; simpl; [done|]. rewrite Forall_cons.
  destruct (f y) eqn:Hy; [split; [done|by intros [? _]]|]. rewrite IH. tauto.
Qed.

(** An IPv4 address peers may be able to dial. *)
Definition usable_v4 (ip : IP) : bool := usable ip && IsV4 ip.

(** A configured value yields [ip], which is neither a loopback nor the unspecified address: it is
    written there, or the value is a name and [ip] the first IPv4 address of that sort it resolves
    to, or the first of that sort at all if there is no such IPv4 address. *)
Definition yields (lookup : LookupIP) (value : string) ip : Prop :=
  TrimSpace value ≠ ""%string ∧ usable ip = true ∧ IP_String ip ≠ ""%string ∧
  (ParseIP (TrimSpace value) = Some ip ∨
   ParseIP (TrimSpace value) = None ∧ ∃ before after,
     lookup (TrimSpace value) = Some (before ++ ip :: after) ∧
     (usable_v4 ip = true ∧ Forall (λ x, usable_v4 x = false) before ∨
      Forall (λ x, usable_v4 x = false) (before ++ ip :: after) ∧ Forall (λ x, usable x = false) before)).

Lemma resolve_yields lookup value ip : yields lookup value ip → resolveAdvertiseIP lookup value = IP_String ip.
Proof.
  intros (Hv & Hu & Hp & Hsrc). unfold resolveAdvertiseIP. rewrite bool_decide_false by done.
  destruct Hsrc as [->|(-> & before & after & -> & Hcase)].
  - unfold usable in Hu. apply negb_true_iff in Hu. by rewrite Hu.
  - fold usable_v4. destruct Hcase as [[H4 HF]|[Hno HF]].
    + replace (List.find _ _) with (Some ip); [done|]. symmetry. apply find_first. by exists before, after.
    + replace (List.find (λ ip, usable ip && IsV4 ip) _) with (@None IP) by (symmetry; by apply find_nothing).
      replace (List.find usable _) with (Some ip); [done|]. symmetry. apply find_first. by exists before, after.
Qed.

Lemma resolve_cases lookup value :
  resolveAdvertiseIP lookup value = ""%string ∧ (∀ ip, ¬ yields lookup value ip) ∨
  ∃ ip, resolveAdvertiseIP lookup value = IP_String ip ∧ yields lookup value ip.
Proof.
  destruct (decide (resolveAdvertiseIP lookup value = ""%string)) as [He|Hne].
  { left. split; [done|]. intros ip Hy. apply resolve_yields in Hy as Hr. destruct Hy as (_ & _ & Hp & _).
    congruence. }
  right. unfold resolveAdvertiseIP in *. revert Hne. case_bool_decide as Hv; [done|].
  destruct (ParseIP (TrimSpace value)) as [ip|] eqn:Hparse.
  { destruct (IsLoopback ip || IsUnspecified ip) eqn:Hu; [done|]. intros Hp. exists ip. split; [done|].
    unfold yields, usable. rewrite Hu. auto. }
  destruct (lookup (TrimSpace value)) as [ips|] eqn:Hl; [|done].
  destruct (List.find (λ ip, usable ip && IsV4 ip) ips) as [ip|] eqn:H4.
  - intros Hp. exists ip. split; [done|]. apply find_first in H4 as (before & after & -> & H4 & HF).
    split_and!; [done|by apply andb_true_iff in H4 as [? _]|done|]. right. split; [done|].
    exists before, after. split; [done|]. by left.
  - apply find_nothing in H4. destruct (List.find usable ips) as [ip|] eqn:Hf; [|done].
    intros Hp. exists ip. split; [done|]. apply find_first in Hf as (before & after & -> & Hu & HF).
    split_and!; [done|done|done|]. right. split; [done|]. exists before, after. split; [done|]. by right.
Qed.

(** A listen address yields [ip] through its host. *)
Definition addr_yields (lookup : LookupIP) (addr : string) ip : Prop :=
  ∃ host port, SplitHostPort addr = Some (host, port) ∧ yields lookup host ip.

(** An interface that is up and not the loopback one has the IPv4 address [ip]. *)
Definition iface_yields (ifaces : option (list iface)) ip : Prop :=
  ∃ l i addrs, ifaces = Some l ∧ i ∈ l ∧ if_up i = true ∧ if_loopback i = false ∧
    if_addrs i = Some addrs ∧ IPNet (Some ip) ∈ addrs ∧ usable_v4 ip = true.

Lemma first_of_Some {A B} (f : A → option B) l b : first_of f l = Some b → ∃ a, a ∈ l ∧ f a = Some b.
Proof.
  induction l as [|a l IH]; [done|]. simpl. destruct (f a) as [b'|] eqn:Hf.
  - intros [= <-]. exists a. split; [by left|done].
  - intros H. destruct (IH H) as (a' & ? & ?). exists a'. split; [by right|done].
Qed.

Lemma first_of_None {A B} (f : A → option B) l a : first_of f l = None → a ∈ l → f a = None.
Proof.
  induction l as [|x l IH]; simpl; [by intros _ ?%not_elem_of_nil|].
  destruct (f x) eqn:Hx; [done|]. intros Hl [->|Hin]%elem_of_cons; [done|by apply IH].
Qed.

Lemma v4_prints ip : IsV4 ip = true → IP_String ip ≠ ""%string.
Proof. destruct ip as [a b c d|]; [|done]. intros _. simpl. by destruct (dec_byte a). Qed.

(** The loop over the interfaces. *)
Definition scan_ifaces (ifaces : option (list iface)) : string :=
  match ifaces with
  | None => ""%string
  | Some ifaces =>
      default ""%string
        (first_of (λ i, if negb (if_up i) || if_loopback i then None
                        else match if_addrs i with
                             | None => None
                             | Some addrs => first_of iface_ip addrs
                             end) ifaces)
  end.

Lemma scan_ifaces_cases ifaces :
  scan_ifaces ifaces = ""%string ∧ (∀ ip, ¬ iface_yields ifaces ip) ∨
  ∃ ip, scan_ifaces ifaces = IP_String ip ∧ iface_yields ifaces ip.
Proof.
  unfold scan_ifaces. destruct ifaces as [l|]; [|left; split; [done|]; by intros ip (? & ? & ? & ? & _)].
  destruct (first_of _ l) as [s|] eqn:Hi; simpl.
  - right. apply first_of_Some in Hi as (i & Hin & Hi).
    destruct (if_up i) eqn:Hup, (if_loopback i) eqn:Hlo; try done. simpl in Hi.
    destruct (if_addrs i) as [al|] eqn:Hal; [|done]. apply first_of_Some in Hi as (a & Ha & Hs).
    unfold iface_ip in Hs. destruct a as [[ip|]|]; [|done..].
    destruct (IsLoopback ip || IsUnspecified ip) eqn:Hu; [done|]. destruct (IsV4 ip) eqn:H4; [|done].
    injection Hs as <-. exists ip. split; [done|]. exists l, i, al. unfold usable_v4, usable. by rewrite Hu, H4.
  - left. split; [done|]. intros ip (l' & i & al & [= <-] & Hin & Hup & Hlo & Hal & Hip & Hu).
    apply (first_of_None _ _ _ Hi) in Hin. rewrite Hup, Hlo, Hal in Hin. simpl in Hin.
    apply (first_of_None _ _ _ Hin) in Hip. unfold iface_ip in Hip.
    unfold usable_v4, usable in Hu. apply andb_true_iff in Hu as [Hu H4]. apply negb_true_iff in Hu.
    by rewrite Hu, H4 in Hip.
Qed.

(** Where the advertised address comes from: the configured one, else the host of the sync address,
    else that of the HTTP address, else an interface, else 127.0.0.1; a later source only when no
    earlier one yields an address. *)
Inductive advertise_source {cert pool} (sys : System cert pool) (cfg : Config) : IP → Prop :=
| from_config ip :
    yields (sys_LookupIP sys 0) (AdvertiseAddr (cfg_Network cfg)) ip → advertise_source sys cfg ip
| from_sync_addr ip :
    (∀ x, ¬ yields (sys_LookupIP sys 0) (AdvertiseAddr (cfg_Network cfg)) x) →
    addr_yields (sys_LookupIP sys 1) (SyncAddr (cfg_Network cfg)) ip → advertise_source sys cfg ip
| from_http_addr ip :
    (∀ x, ¬ yields (sys_LookupIP sys 0) (AdvertiseAddr (cfg_Network cfg)) x) →
    (∀ x, ¬ addr_yields (sys_LookupIP sys 1) (SyncAddr (cfg_Network cfg)) x) →
    addr_yields (sys_LookupIP sys 1) (HTTPAddr (cfg_Network cfg)) ip → advertise_source sys cfg ip
| from_iface ip :
    (∀ x, ¬ yields (sys_LookupIP sys 0) (AdvertiseAddr (cfg_Network cfg)) x) →
    (∀ x, ¬ addr_yields (sys_LookupIP sys 1) (SyncAddr (cfg_Network cfg)) x) →
    (∀ x, ¬ addr_yields (sys_LookupIP sys 1) (HTTPAddr (cfg_Network cfg)) x) →
    iface_yields (sys_Interfaces sys) ip → advertise_source sys cfg ip
| last_resort :
    (∀ x, ¬ yields (sys_LookupIP sys 0) (AdvertiseAddr (cfg_Network cfg)) x) →
    (∀ x, ¬ addr_yields (sys_LookupIP sys 1) (SyncAddr (cfg_Network cfg)) x) →
    (∀ x, ¬ addr_yields (sys_LookupIP sys 1) (HTTPAddr (cfg_Network cfg)) x) →
    (∀ x, ¬ iface_yields (sys_Interfaces sys) x) → advertise_source sys cfg (V4 127 0 0 1).

(** One listen address of the loop in [discoverAdvertiseIP]. *)
Lemma listen_cases lookup addr :
  let got := match SplitHostPort addr with
             | None => None
             | Some (host, _) => if bool_decide (resolveAdvertiseIP lookup host = ""%string) then None
                                 else Some (resolveAdvertiseIP lookup host)
             end in
  got = None ∧ (∀ ip, ¬ addr_yields lookup addr ip) ∨
  ∃ ip, got = Some (IP_String ip) ∧ addr_yields lookup addr ip.
Proof.
  cbv zeta. unfold addr_yields. destruct (SplitHostPort addr) as [[host port]|].
  2:{ left. split; [done|]. by intros ip (? & ? & ? & _). }
  destruct (resolve_cases lookup host) as [[-> Hno]|(ip & -> & Hy)].
  - left. rewrite bool_decide_true by done. split; [done|]. intros ip (h & p & [= <- <-] & Hy). by apply (Hno ip).
  - right. exists ip. rewrite bool_decide_false by apply Hy. split; [done|]. by exists host, port.
Qed.

Lemma runner_ip_source {cert pool} (sys : System cert pool) cfg :
  ∃ ip, runner_ip sys cfg = IP_String ip ∧ advertise_source sys cfg ip.
Proof.
  unfold runner_ip. cbv zeta.
  destruct (resolve_cases (sys_LookupIP sys 0) (AdvertiseAddr (cfg_Network cfg))) as [[-> H0]|(ip & -> & Hy)].
  2:{ assert (IP_String ip ≠ ""%string) as Hne by apply Hy. rewrite !(bool_decide_false (IP_String ip = _)) by done.
      exists ip. split; [done|by apply from_config]. }
  rewrite (bool_decide_true (""%string = ""%string)) by done. unfold discoverAdvertiseIP. cbn [first_of]. cbv zeta.
  fold (scan_ifaces (sys_Interfaces sys)).
  destruct (listen_cases (sys_LookupIP sys 1) (SyncAddr (cfg_Network cfg))) as [[-> H1]|(ip & -> & Hy)].
  2:{ rewrite bool_decide_false by (by destruct Hy as (? & ? & _ & _ & _ & ? & _)).
      exists ip. split; [done|by apply from_sync_addr]. }
  destruct (listen_cases (sys_LookupIP sys 1) (HTTPAddr (cfg_Network cfg))) as [[-> H2]|(ip & -> & Hy)].
  2:{ rewrite bool_decide_false by (by destruct Hy as (? & ? & _ & _ & _ & ? & _)).
      exists ip. split; [done|by apply from_http_addr]. }
  destruct (scan_ifaces_cases (sys_Interfaces sys)) as [[-> H3]|(ip & -> & Hy)].
  - exists (V4 127 0 0 1). split; [vm_compute; done|by apply last_resort].
  - rewrite bool_decide_false.
    + exists ip. split; [done|by apply from_iface].
    + destruct Hy as (l & i & al & _ & _ & _ & _ & _ & _ & Hu). apply v4_prints.
      by apply andb_true_iff in Hu as [_ ?].
Qed.

(** C28: The sync address a node advertises.  For a listen address that splits into host and port it
    splits with the same port; its host is the listen host, or, for a wildcard host, the printed
    form of the first address found in this order: the configured advertise address, the host of the
    sync address, that of the HTTP address (each written as an IP or resolved, IPv4 first), an IPv4
    address of an interface that is up and not the loopback one, all of them neither loopback nor
    unspecified; and 127.0.0.1 only when none of these yields an address.  It is empty for the empty
    listen address and fails exactly on any other one that does not split. *)
Theorem advertisedAddr_dialable {cert pool} (sys : System cert pool) cfg listen :
  match SplitHostPort listen with
  | Some (host, port) =>
      ∃ a host', advertisedAddr listen (runner_ip sys cfg) = Ok a ∧ SplitHostPort a = Some (host', port) ∧
        if bool_decide (host ∈ [""; "0.0.0.0"; "::"]%string)
        then ∃ ip, host' = IP_String ip ∧ advertise_source sys cfg ip ∧
               (IsLoopback ip = false ∧ IsUnspecified ip = false ∨ ip = V4 127 0 0 1)
        else host' = host
  | None => if bool_decide (listen = ""%string) then advertisedAddr listen (runner_ip sys cfg) = Ok ""%string
            else is_ok (advertisedAddr listen (runner_ip sys cfg)) = false
  end.
Proof.
  unfold advertisedAddr. destruct (SplitHostPort listen) as [[host port]|] eqn:Hs.
  2:{ case_bool_decide; by subst. }
  rewrite (bool_decide_false (listen = ""%string)) by (intros ->; discriminate Hs).
  apply SplitHostPort_cases in Hs as (Hp & Hh & _).
  destruct (runner_ip_source sys cfg) as (ip & -> & Hip).
  assert (bool_decide (host = ""%string ∨ host = "0.0.0.0"%string ∨ host = "::"%string) =
          bool_decide (host ∈ [""; "0.0.0.0"; "::"]%string)) as -> by (apply bool_decide_ext; set_solver).
  case_bool_decide.
  - eexists _, (IP_String ip). split_and!; [done|apply SplitHostPort_Join; [apply IP_String_brackets|done]|].
    exists ip. split_and!; [done|done|].
    assert (usable ip = true ∨ ip = V4 127 0 0 1) as [Hu| ->]; [|left|by right].
    { destruct Hip as [ip Hy|ip _ (? & ? & _ & Hy)|ip _ _ (? & ? & _ & Hy)|ip _ _ _ Hy|]; [left..|by right];
        [apply Hy..|]. destruct Hy as (? & ? & ? & _ & _ & _ & _ & _ & _ & Hu).
      by apply andb_true_iff in Hu as [? _]. }
    unfold usable in Hu. by apply negb_true_iff, orb_false_iff in Hu.
  - eexists _, host. split_and!; [done|by apply SplitHostPort_Join|done].
Qed.

(** ** Start-up *)

Section Boot.
Context {cert pool : Type}.
Context (sys : System cert pool) (fl : Flags).

(** What the checks guarantee of the plan. *)
Record plan_ok (pl : plan cert pool) : Prop := {
  po_cfg : load_config sys fl = Ok (pl_cfg pl);
  po_profile : pl_profile pl = profile_of (pl_cfg pl);
  po_peers : pl_peers pl = compactList (Peers (cfg_Cluster (pl_cfg pl)));
  po_advertised : advertisedAddr (SyncAddr (cfg_Network (pl_cfg pl))) (runner_ip sys (pl_cfg pl)) =
    Ok (pl_advertised pl);
  po_sync : SyncAddr (cfg_Network (pl_cfg pl)) ≠ ""%string →
    addrExposed (sys_LookupIP sys 2) (SyncAddr (cfg_Network (pl_cfg pl))) = true →
    pl_peers pl ≠ [] ∨ 0 < Bind (cfg_Cluster (pl_cfg pl)) →
    pl_server pl ≠ None ∨ f_allow_insecure_sync fl = true;
  po_gossip : 0 < Bind (cfg_Cluster (pl_cfg pl)) → pl_profile pl = "wan"%string →
    TrimSpace (GossipKey (cfg_Cluster (pl_cfg pl))) ≠ ""%string ∨ f_allow_insecure_gossip fl = true;
  po_pprof : EnablePprof (cfg_Network (pl_cfg pl)) = true →
    TrimSpace (AdminToken (cfg_Network (pl_cfg pl))) ≠ ""%string;
  po_creds : ∀ server, pl_server pl = Some server →
    ∃ client, pl_client pl = Some client ∧ mutual server client
}.

Definition early (r : exit_reason) : Prop := r ≠ ExitStore ∧ r ≠ ExitMembership ∧ r ≠ ExitListen.

Lemma refuse_inv b r (p p' : proc cert pool) out :
  refuse b r p = (out, p') → p' = p ∧ match out with Running _ => b = false | Exit r' => r' = r end.
Proof. unfold refuse. destruct b; intros [= <- <-]; done. Qed.

Lemma from_result_inv {A} r (x : result A) (p p' : proc cert pool) out :
  from_result r x p = (out, p') → p' = p ∧ match out with Running a => x = Ok a | Exit r' => r' = r end.
Proof. unfold from_result. destruct x; intros [= <- <-]; done. Qed.

Lemma bind_inv {A B} (m : Boot cert pool A) (k : A → Boot cert pool B) (p p2 : proc cert pool) out :
  (m ≫= k) p = (out, p2) →
  (∃ a p1, m p = (Running a, p1) ∧ k a p1 = (out, p2)) ∨ (∃ r, m p = (Exit r, p2) ∧ out = Exit r).
Proof.
  unfold mbind, Boot_bind. destruct (m p) as [[a|r] p1].
  - intros H. left. eauto.
  - intros [= <- <-]. right. eauto.
Qed.

(** One step of the inversion of a start-up: the exit, or its continuation. *)
Tactic Notation "boot_step" hyp(H) "as" ident(x) ident(Hx) :=
  apply bind_inv in H as [(x & ? & Hx & H)|(x & Hx & ->)];
  first [apply refuse_inv in Hx as [-> Hx] | apply from_result_inv in Hx as [-> Hx]];
  [|by subst; split].

Lemma prepare_spec p out p' :
  prepare sys fl p = (out, p') →
  p' = p ∧ match out with Running pl => plan_ok pl | Exit r => early r end.
Proof.
  unfold prepare. intros H.
  boot_step H as cfg Hcfg. boot_step H as adv Hadv. boot_step H as u1 Htls. boot_step H as u2 Hsync.
  boot_step H as u3 Hgossip. boot_step H as u4 Hpprof.
  assert (∀ cl sv, (Enabled (tls_files cfg) = true → sv ≠ None) →
    (∀ server, sv = Some server → ∃ client, cl = Some client ∧ mutual server client) →
    plan_ok (mkPlan cfg (profile_of cfg) (runner_ip sys cfg) adv (compactList (Peers (cfg_Cluster cfg)))
               (compactList (Join (cfg_Cluster cfg))) cl sv)) as Hplan.
  { intros cl sv Hsv Hmut. split; cbn; try done.
    - intros Hne Hexp Hpeers. destruct (Enabled (tls_files cfg)) eqn:Hen; [left; by apply Hsv|right].
      rewrite bool_decide_false, Hexp in Hsync by done. simpl in Hsync.
      destruct (f_allow_insecure_sync fl); [done|]. rewrite !andb_true_r in Hsync.
      apply orb_false_iff in Hsync as [Hl Hb]. apply bool_decide_eq_false in Hl.
      rewrite Z.gtb_ltb, Z.ltb_ge in Hb. destruct Hpeers as [Hp|?]; [|lia].
      destruct (compactList _); [done|simpl in Hl; lia].
    - intros Hb Hw. rewrite Hw, bool_decide_true, Z.gtb_ltb in Hgossip by done.
      apply Z.ltb_lt in Hb. rewrite Hb in Hgossip. simpl in Hgossip.
      destruct (f_allow_insecure_gossip fl); [by right|left]. rewrite andb_true_r in Hgossip.
      by apply bool_decide_eq_false in Hgossip.
    - intros Hp. rewrite Hp in Hpprof. simpl in Hpprof. by apply bool_decide_eq_false in Hpprof. }
  destruct (Enabled (tls_files cfg)) eqn:Hen.
  - boot_step H as client Hcl. boot_step H as server Hsv.
    injection H as <- <-. split; [done|]. apply Hplan; [done|]. intros ? [= <-].
    exists client. split; [done|]. by destruct (credentials_mutual _ _ _ _ _ _ Hsv Hcl).
  - injection H as <- <-. split; [done|]. by apply Hplan.
Qed.

(** ** What it opens *)

(** Actions as the plan allows them. *)
Definition act_ok (pl : plan cert pool) (a : action cert pool) : Prop :=
  let n := cfg_Network (pl_cfg pl) in
  match a with
  | ListenSync addr creds => addr = SyncAddr n ∧ addr ≠ ""%string ∧ creds = pl_server pl
  | CreateMemberlist c =>
      0 < Bind (cfg_Cluster (pl_cfg pl)) ∧ ml_wan c = bool_decide (pl_profile pl = "wan"%string) ∧
      (GossipKey (cfg_Cluster (pl_cfg pl)) = ""%string ∧ ml_SecretKey c = None ∨
       parseSecretKey (GossipKey (cfg_Cluster (pl_cfg pl))) = Ok (ml_SecretKey c))
  | GoHTTP addr token pprof => token = AdminToken n ∧ pprof = EnablePprof n
  | _ => True
  end.

Definition is_close (a : action cert pool) : Prop :=
  match a with ShutdownHTTP | StopSyncServer | CloseClient | ShutdownCluster | CloseStore => True | _ => False end.

(** [m] adds only allowed actions to the trace, and only closing ones to the deferred calls. *)
Definition allowed {A} (pl : plan cert pool) (m : Boot cert pool A) : Prop := ∀ p out p',
  m p = (out, p') → Forall is_close (p_defer p) →
  Forall is_close (p_defer p') ∧ ∃ acts, p_trace p' = p_trace p ++ acts ∧ Forall (act_ok pl) acts.

Lemma allowed_ret {A} pl (a : A) : allowed pl (mret a).
Proof. intros p out p' [= <- <-] Hd. split; [done|]. exists []. by rewrite app_nil_r. Qed.
Lemma allowed_exit {A} pl r : allowed (A := A) pl (exit r).
Proof. intros p out p' [= <- <-] Hd. split; [done|]. exists []. by rewrite app_nil_r. Qed.
Lemma allowed_perform pl a : act_ok pl a → allowed pl (perform a).
Proof. intros Ha p out p' [= <- <-] Hd. split; [done|]. exists [a]. by rewrite Forall_singleton. Qed.
Lemma allowed_defer pl a : is_close a → allowed pl (defer a).
Proof. intros Ha p out p' [= <- <-] Hd. split; [by constructor|]. exists []. by rewrite app_nil_r. Qed.

Lemma allowed_bind {A B} pl (m : Boot cert pool A) (k : A → Boot cert pool B) :
  allowed pl m → (∀ a, allowed pl (k a)) → allowed pl (m ≫= k).
Proof.
  intros Hm Hk p out p2 H Hd. apply bind_inv in H as [(a & p1 & H1 & H2)|(r & H1 & ->)].
  - destruct (Hm _ _ _ H1 Hd) as [Hd1 (acts1 & Ht1 & Ha1)].
    destruct (Hk _ _ _ _ H2 Hd1) as [Hd2 (acts2 & Ht2 & Ha2)]. split; [done|].
    exists (acts1 ++ acts2). rewrite Ht2, Ht1, app_assoc. split; [done|]. by apply Forall_app.
  - by apply (Hm _ _ _ H1).
Qed.

(** A bind whose first part is the outcome of a pure computation. *)
Lemma allowed_result_bind {A B} pl r (x : result A) (k : A → Boot cert pool B) :
  (∀ a, x = Ok a → allowed pl (k a)) → allowed pl (from_result r x ≫= k).
Proof.
  intros Hk p out p2 H Hd. destruct x as [a| |].
  - by apply (Hk a eq_refl p out p2).
  - by apply (allowed_exit pl r p out p2).
  - by apply (allowed_exit pl r p out p2).
Qed.

(** The configuration memberlist is created with. *)
Lemma NewCluster_config {C} meta (create : MlConfig → result C) join nodeID port adv sync profile key seeds x :
  NewCluster meta create join nodeID port adv sync profile key seeds = Ok x →
  ∃ mc m, create mc = Ok m ∧ x = (if bool_decide (length seeds = 0%nat) then m else join m seeds) ∧
    ml_wan mc = bool_decide (profile = "wan"%string) ∧
    (key = ""%string ∧ ml_SecretKey mc = None ∨ parseSecretKey key = Ok (ml_SecretKey mc)).
Proof.
  unfold NewCluster.
  assert (∀ k, match create (mkMlConfig (bool_decide (profile = "wan"%string)) nodeID port port
            (if bool_decide (adv = ""%string) then None else Some adv) k (meta sync)) with
          | Ok mlist => Ok (if bool_decide (length seeds = 0%nat) then mlist else join mlist seeds)
          | Err e => Err e | Panic => Panic end = Ok x →
          (key = ""%string ∧ k = None ∨ parseSecretKey key = Ok k) →
          ∃ mc m, create mc = Ok m ∧ x = (if bool_decide (length seeds = 0%nat) then m else join m seeds) ∧
            ml_wan mc = bool_decide (profile = "wan"%string) ∧
            (key = ""%string ∧ ml_SecretKey mc = None ∨ parseSecretKey key = Ok (ml_SecretKey mc))) as Hgo.
  { intros k. destruct (create _) as [m| |] eqn:Hc; [|done..]. intros [= <-] Hk.
    eexists _, m. split_and!; [exact Hc|done|done|exact Hk]. }
  destruct (bool_decide (key = ""%string)) eqn:Hkey.
  { intros H. apply (Hgo None H). apply bool_decide_eq_true in Hkey. auto. }
  destruct (parseSecretKey key) as [k| |] eqn:Hp; [|done..]. intros H. apply (Hgo k H). by right.
Qed.

Lemma allowed_cluster pl : allowed pl (start_cluster sys pl).
Proof.
  unfold start_cluster. destruct (Bind _ >? 0) eqn:Hb; [|apply allowed_ret].
  rewrite Z.gtb_ltb, Z.ltb_lt in Hb. apply allowed_result_bind. intros x Hx.
  apply NewCluster_config in Hx as (mc & m & Hc & Hx & Hwan & Hkey).
  destruct (sys_MemberlistCreate sys mc); [|done]. injection Hc as <-.
  assert (x.1 = mc) as Hx1 by (rewrite Hx; by destruct (bool_decide _)).
  apply allowed_bind; [apply allowed_perform; cbn; by rewrite Hx1|]. intros _.
  apply allowed_bind; [destruct (bool_decide (x.2 = [])); [apply allowed_ret|by apply allowed_perform]|]. intros _.
  apply allowed_bind; [by apply allowed_defer|]. intros _. apply allowed_ret.
Qed.

Lemma allowed_serve pl : allowed pl (serve sys pl).
Proof.
  unfold serve.
  apply allowed_bind; [destruct (sys_StoreOpen _ _); [apply allowed_ret|apply allowed_exit]|]. intros _.
  apply allowed_bind; [by apply allowed_perform|]. intros _.
  apply allowed_bind; [by apply allowed_defer|]. intros _.
  apply allowed_bind; [apply allowed_cluster|]. intros cluster.
  apply allowed_bind; [by apply allowed_perform|]. intros _.
  apply allowed_bind; [destruct (_ || _); [by apply allowed_defer|apply allowed_ret]|]. intros _.
  apply allowed_bind.
  { case_bool_decide as Hs; simpl; [apply allowed_ret|].
    destruct (sys_Listen _ _); [|apply allowed_exit].
    apply allowed_bind; [by apply allowed_perform|]. intros _. by apply allowed_defer. }
  intros _. apply allowed_bind; [destruct (_ || _); [by apply allowed_perform|apply allowed_ret]|].
  intros _. by apply allowed_perform.
Qed.

Lemma close_ok pl (l : list (action cert pool)) : Forall is_close l → Forall (act_ok pl) l.
Proof. intros H. eapply Forall_impl; [exact H|]. by intros []. Qed.

(** Everything start-up does is allowed by a plan that passed the checks; a start-up that the checks
    refuse does nothing. *)
Lemma main_allowed out p :
  main sys fl = (out, p) →
  (p_trace p = [] ∧ ∃ r, out = Exit r ∧ early r) ∨
  ∃ pl, plan_ok pl ∧ Forall (act_ok pl) (p_trace p).
Proof.
  unfold main. intros H. apply bind_inv in H as [(pl & p1 & H1 & H)|(r & H1 & ->)].
  2:{ apply prepare_spec in H1 as [-> Hr]. left. eauto. }
  apply prepare_spec in H1 as [-> Hpl]. right. exists pl. split; [done|].
  assert (Forall is_close (p_defer (@mkProc cert pool [] []))) as Hd by done.
  apply bind_inv in H as [(u & p2 & H2 & H)|(r & H2 & _)].
  - destruct (allowed_serve pl _ _ _ H2 Hd) as [Hd2 (acts & Ht & Ha)].
    injection H as _ <-. cbn. rewrite Ht. apply Forall_app. split; [done|].
    constructor; [done|]. by apply close_ok.
  - destruct (allowed_serve pl _ _ _ H2 Hd) as [_ (acts & Ht & Ha)]. by rewrite Ht.
Qed.

(** C10: What start-up opens is protected: the sync server listens without TLS only when the operator
    allowed it, or when the node has neither peers nor gossip, or when everything the listen host
    stands for is a loopback address; with TLS it is TLS 1.3 and demands a client certificate;
    memberlist is created in the wan profile only with a key of a valid length, unless the operator
    allowed it without; and profiling is served only with an admin token that is not blank. *)
Theorem takld_opens_safely :
  let trace := p_trace (main sys fl).2 in
  (∀ addr, ListenSync addr None ∈ trace →
     f_allow_insecure_sync fl = true ∨
     (∃ cfg, load_config sys fl = Ok cfg ∧ compactList (Peers (cfg_Cluster cfg)) = [] ∧
             Bind (cfg_Cluster cfg) ≤ 0) ∨
     ∃ host port, SplitHostPort addr = Some (host, port) ∧
       loopback_only (sys_LookupIP sys 2) (TrimSpace host)) ∧
  (∀ addr c, ListenSync addr (Some c) ∈ trace → MinVersion c = 0x0304 ∧ ClientAuth c = 4 ∧ ClientCAs c ≠ None) ∧
  (∀ c, CreateMemberlist c ∈ trace → ml_wan c = true →
     f_allow_insecure_gossip fl = true ∨
     ∃ key, ml_SecretKey c = Some key ∧ (String.length key ∈ [16; 24; 32])%nat) ∧
  (∀ addr token, GoHTTP addr token true ∈ trace → TrimSpace token ≠ ""%string).
Proof.
  cbv zeta. destruct (main sys fl) as [out p] eqn:Hmain. cbn [snd].
  destruct (main_allowed _ _ Hmain) as [[-> _]|(pl & Hpl & Hall)]; [split_and!; set_solver|].
  rewrite Forall_forall in Hall. split_and!.
  - intros addr Hin. destruct (Hall _ Hin) as (-> & Hne & Hnone).
    destruct (f_allow_insecure_sync fl) eqn:Hf; [by left|right].
    destruct (addrExposed (sys_LookupIP sys 2) (SyncAddr (cfg_Network (pl_cfg pl)))) eqn:Hexp.
    + left. exists (pl_cfg pl). split; [apply Hpl|].
      destruct (decide (pl_peers pl ≠ [] ∨ 0 < Bind (cfg_Cluster (pl_cfg pl)))) as [Hd|Hd].
      * destruct (po_sync _ Hpl Hne Hexp Hd) as [?|?]; congruence.
      * rewrite <-(po_peers _ Hpl). split; [|lia]. destruct (decide (pl_peers pl = [])); tauto.
    + right. pose proof (po_advertised _ Hpl) as Hadv. unfold advertisedAddr in Hadv.
      rewrite bool_decide_false in Hadv by done.
      destruct (SplitHostPort (SyncAddr (cfg_Network (pl_cfg pl)))) as [[host port]|] eqn:Hs; [|done].
      exists host, port. split; [done|]. by eapply addrExposed_false.
  - intros addr c Hin. destruct (Hall _ Hin) as (_ & _ & Hs).
    destruct (po_creds _ Hpl c (eq_sym Hs)) as (client & _ & Hm).
    destruct Hm as (? & _ & ? & (p' & Hp & _) & _). rewrite Hp. by split_and!.
  - intros c Hin Hw. destruct (Hall _ Hin) as (Hb & Hwan & Hkey). rewrite Hw in Hwan.
    symmetry in Hwan. apply bool_decide_eq_true in Hwan.
    destruct (po_gossip _ Hpl Hb Hwan) as [Hne|?]; [right|by left].
    destruct Hkey as [[He _]|Hk]; [rewrite He in Hne; vm_compute in Hne; done|].
    pose proof (parseSecretKey_result (GossipKey (cfg_Cluster (pl_cfg pl)))) as Hr. rewrite Hk in Hr.
    destruct (ml_SecretKey c) as [key|]; [|done]. exists key. split; [done|]. set_solver.
  - intros addr token Hin. destruct (Hall _ Hin) as (-> & Hp). by apply (po_pprof _ Hpl).
Qed.

(** ** What it releases *)

Inductive resource := RStore | RCluster | RSyncServer | RClient | RHTTP.

Definition acquires (a : action cert pool) : option resource :=
  match a with
  | OpenStore _ _ => Some RStore
  | CreateMemberlist _ => Some RCluster
  | ListenSync _ _ => Some RSyncServer
  | GoEngine _ _ _ => Some RClient
  | GoHTTP _ _ _ => Some RHTTP
  | _ => None
  end.
Definition releases (a : action cert pool) : option resource :=
  match a with
  | CloseStore => Some RStore
  | ShutdownCluster => Some RCluster
  | StopSyncServer => Some RSyncServer
  | CloseClient => Some RClient
  | ShutdownHTTP => Some RHTTP
  | _ => None
  end.

(** The ways through [serve]. *)
Ltac serve_cases H :=
  unfold serve, start_cluster, mbind, Boot_bind, mret, Boot_ret, from_result, perform, defer, exit in H;
  repeat (cbn in H; match type of H with
    | context [if ?b then _ else _] =>
        lazymatch b with context [if _ then _ else _] => fail | _ => destruct b end
    | context [match NewCluster ?a ?b ?c ?d ?e ?f ?g ?h ?i ?j with _ => _ end] =>
        destruct (NewCluster a b c d e f g h i j) as [[? ?]| |]
    end); cbn in H.

Lemma serve_releases pl p u :
  serve sys pl (mkProc [] []) = (Running u, p) →
  let t := p_trace p ++ ShutdownHTTP :: p_defer p in
  omap releases t ≡ₚ omap acquires t ∧ last t = Some CloseStore.
Proof.
  intros H. serve_cases H; try discriminate H; injection H as _ <-; cbn; (split; [solve_Permutation|done]).
Qed.

Lemma serve_exits pl p r :
  serve sys pl (mkProc [] []) = (Exit r, p) →
  match r with
  | ExitStore => omap acquires (p_trace p) = []
  | ExitMembership => omap acquires (p_trace p) = [RStore]
  | ExitListen => omap acquires (p_trace p) = [RStore] ∨ omap acquires (p_trace p) = [RStore; RCluster]
  | _ => False
  end ∧ omap releases (p_trace p) = [].
Proof.
  intros H. serve_cases H; try discriminate H; injection H as <- <-; cbn; auto.
Qed.

(** C17: Life cycle: a start-up that completes releases on shutdown exactly what it acquired, each
    resource once and the store last.  One that fails leaves through os.Exit and releases nothing:
    refused configurations have acquired nothing, a failed membership leaves the store open, and a
    sync address that cannot be listened on leaves the store open and the cluster joined, with the
    agent already running. *)
Theorem takld_life_cycle :
  let t := p_trace (main sys fl).2 in
  match (main sys fl).1 with
  | Running _ => omap releases t ≡ₚ omap acquires t ∧ last t = Some CloseStore
  | Exit r =>
      omap releases t = [] ∧
      match r with
      | ExitMembership => omap acquires t = [RStore]
      | ExitListen => omap acquires t = [RStore] ∨ omap acquires t = [RStore; RCluster]
      | _ => omap acquires t = []
      end
  end.
Proof.
  cbv zeta. destruct (main sys fl) as [out p] eqn:H. cbn [fst snd]. unfold main in H.
  apply bind_inv in H as [(pl & p1 & H1 & H)|(r & H1 & ->)].
  2:{ apply prepare_spec in H1 as [-> Hr]. split; [done|]. destruct Hr as (?&?&?). by destruct r. }
  apply prepare_spec in H1 as [-> Hpl]. apply bind_inv in H as [(u & p2 & H2 & H)|(r & H2 & ->)].
  - injection H as <- <-. by apply serve_releases in H2.
  - apply serve_exits in H2 as [H2 H3]. split; [done|]. by destruct r.
Qed.

End Boot.

(** ** Start-ups on concrete inputs *)

(** A machine without configuration file, certificates or names; everything else succeeds. *)
Definition plain_system : System unit unit := {|
  sys_ReadConfig _ := NotExist;
  sys_Yaml _ _ := None;
  sys_LookupIP _ _ := None;
  sys_Interfaces := Some [mkIface true false (Some [IPNet (Some (V4 192 0 2 7))])];
  sys_LoadX509KeyPair _ _ := None;
  sys_ReadFile _ := None;
  sys_AppendCertsFromPEM _ := None;
  sys_StoreOpen _ := true;
  sys_MarshalMeta s := s;
  sys_MemberlistCreate _ := true;
  sys_Listen _ := true
|}.

Definition no_flags : Flags :=
  mkFlags "" "" "" "" "" "" false "" 0 "" "" "" "" "" "" false false "" 0 "" 0 0 [].

(** With the defaults the node listens on loopback and gossips on the address of its interface. *)
Example default_start :
  (main plain_system no_flags).1 = Running tt ∧
  omap (λ a, match a with CreateMemberlist c => ml_AdvertiseAddr c | _ => None end)
    (p_trace (main plain_system no_flags).2) = ["192.0.2.7"%string].
Proof. vm_compute. done. Qed.

Definition lone_flags : Flags :=
  mkFlags "" "" "" "0.0.0.0:8100" "" "" false "" 0 "" "" "" "" "" "" false false "" 0 "" 0 0
    ["bind"; "sync-addr"]%string.

(** The refusal of plaintext sync has a gap: with gossip switched off and no peers configured, the
    daemon listens for sync on every interface without TLS although nobody allowed it, and serves its
    whole store to whoever connects. *)
Theorem lone_node_plaintext :
  f_allow_insecure_sync lone_flags = false ∧
  addrExposed (sys_LookupIP plain_system 2) "0.0.0.0:8100" = true ∧
  (main plain_system lone_flags).1 = Running tt ∧
  ListenSync "0.0.0.0:8100" None ∈ p_trace (main plain_system lone_flags).2.
Proof. split_and!; [vm_compute; done..|]. vm_compute. do 2 right. left. Qed.

Definition zero_tick_flags : Flags :=
  mkFlags "" "" "" "" "" "" false "" 0 "" "" "" "" "" "" false false "" 0 "" 0 0 ["tick"]%string.

(** Start-up does not check the agent's interval: with a tick of zero it starts the agent all the
    same, whose ticker then panics once the first row and event are written, whatever the backend,
    the store and the cluster. *)
Theorem zero_tick_panics {B} `{E : Env, J : Json, BK : Backend B} (a : Agent.Agent B) ticks w :
  (∃ id c, GoAgent id 0 c ∈ p_trace (main plain_system zero_tick_flags).2) ∧
  match (Start a w).1 with
  | Ok _ => (Agent_Run 0 ticks a w).1 = Panic
  | Err e => (Agent_Run 0 ticks a w).1 = Err e
  | Panic => True
  end.
Proof.
  split; [exists "runner-1"%string, true; vm_compute; do 2 right; left|].
  unfold Agent_Run, mbind, M_bind. by destruct (Start a w) as [[[]|e|] w1].
Qed.

(** The wildcard is recognised only in its usual spellings: a node told to listen on [::0] (the
    unspecified address as well) advertises that address, which no peer can dial. *)
Theorem wildcard_spelling (ip : string) :
  ParseIP "::0" = ParseIP "::" ∧ (∃ x, ParseIP "::0" = Some x ∧ IsUnspecified x = true) ∧
  advertisedAddr "[::]:8100" ip = Ok (JoinHostPort ip "8100") ∧
  advertisedAddr "[::0]:8100" ip = Ok "[::0]:8100"%string.
Proof. split_and!; [vm_compute; done|eexists; split; vm_compute; done|done|vm_compute; done]. Qed.
