(* ===== verification/Ctl.v ===== *)
(** * The command line client: cmd/taklctl/main.go

    The query commands with their tables, the gossip key, the certificate authority, and [main].  HTTP, JSON
    decoding and the cryptography are parameters; files are a map from paths to contents and modes,
    and every call of the operating system may fail. *)

From Stdlib Require Import Ascii.
From stdpp Require Import pretty.
From S2P Require Import Prelude GoText Net Hlc Model Metrics World Store Agent Membership.
Local Open Scope Z_scope.

(** ** Queries *)

(** The request path of a query command; [None] is the usage message and exit status 2. *)
Definition query_path (limit : Z) (args : list string) : option (string * string) :=
  match args with
  | [] => None
  | cmd :: rest =>
      if bool_decide (cmd = "runners"%string) then Some (cmd, "api/v1/runners"%string)
      else if bool_decide (cmd = "runner"%string) then
        match rest with
        | [id] => Some (cmd, "api/v1/runners/" +:+ id)
        | _ => None
        end
      else if bool_decide (cmd = "events"%string) then Some (cmd, "api/v1/events?limit=" +:+ pretty limit)
      else if bool_decide (cmd = "summary"%string) then Some (cmd, "api/v1/summary"%string)
      else if bool_decide (cmd = "cluster"%string) then Some (cmd, "api/v1/cluster"%string)
      else None
  end.

(** [get]: [http.Get] answers a status code, its line and a body, or fails; so may reading the
    body. *)
Definition get (Get : string → option (Z * string * option string)) (addr path : string) : result string :=
  match Get (addr +:+ ("/" +:+ path)) with
  | None => Err (ErrText "http.Get")
  | Some (_, _, None) => Err (ErrText "io.ReadAll")
  | Some (code, status, Some body) =>
      if code =? 200 then Ok body else Err (ErrText (status +:+ ": " +:+ body))
  end.

(** [m[k]] on a decoded object: nil for a missing key. *)
Definition any_get (k : string) (m : gmap string any) : any := default AnyNull (m !! k).
Fixpoint obj_get (k : string) (l : list (string * any)) : option any :=
  match l with
  | [] => None
  | (k', v) :: l => match obj_get k l with
                    | Some v' => Some v'
                    | None => if bool_decide (k' = k) then Some v else None
                    end
  end.

Definition as_float (v : any) : option float64 := match v with AnyNum f => Some f | _ => None end.

(** A table: its header and its rows of cells, before fmt and tabwriter lay them out. *)
Inductive cell := Cell (v : any) | CellInt (n : Z).
Record table := mkTable { tb_header : list string; tb_rows : list (list cell) }.

(** [int64(f)]: truncation towards zero. *)
Definition f64_trunc (f : float64) : Z :=
  match f with
  | S754_finite s m e => let z := if e >=? 0 then Zpos m * 2 ^ e else Zpos m / 2 ^ (- e) in if s then - z else z
  | _ => 0
  end.

(** [hlc, _ := e["hlc"].(map[string]any); ts := int64(hlc["ts"].(float64))]: the second assertion is
    unchecked. *)
Definition event_row (e : gmap string any) : result (list cell) :=
  let hlc := match any_get "hlc" e with AnyObj l => l | _ => [] end in
  match obj_get "ts" hlc with
  | Some (AnyNum ts) => Ok [Cell (any_get "runner_id" e); Cell (any_get "seq" e); Cell (any_get "type" e);
                            CellInt (f64_trunc ts)]
  | _ => Panic
  end.

Fixpoint event_rows (items : list (gmap string any)) : result (list (list cell)) :=
  match items with
  | [] => Ok []
  | e :: items => match event_row e with
                  | Ok row => match event_rows items with Ok rows => Ok (row :: rows) | r => r end
                  | Err er => Err er
                  | Panic => Panic
                  end
  end.

Definition runner_row (r : gmap string any) : list cell :=
  (λ k, Cell (any_get k r)) <$> ["runner_id"; "hostname"; "status"; "worker_capacity"; "active_builds"; "cpu_util";
                                 "mem_util"]%string.

Definition cluster_row (c : gmap string any) : list cell :=
  ((λ k, Cell (any_get k c)) <$> ["active_runners"; "worker_capacity"; "available_workers"; "active_builds"]%string) ++
  ((λ k, Cell (AnyNum (default (S754_zero false) (as_float (any_get k c))))) <$>
     ["avg_cpu_util"; "avg_mem_util"]%string).

(** [printTable], with json.Unmarshal as it leaves the variables when its error is dropped; the
    commands without a table print the body. *)
Definition printTable (items : string → list (gmap string any)) (object : string → gmap string any)
    (cmd body : string) : result (table + string) :=
  if bool_decide (cmd = "runners"%string) then
    Ok (inl (mkTable ["ID"; "HOSTNAME"; "STATUS"; "CAPACITY"; "ACTIVE"; "CPU%"; "MEM%"]%string
               (runner_row <$> items body)))
  else if bool_decide (cmd = "events"%string) then
    match event_rows (items body) with
    | Ok rows => Ok (inl (mkTable ["RUNNER"; "SEQ"; "TYPE"; "HLC"]%string rows))
    | Err e => Err e
    | Panic => Panic
    end
  else if bool_decide (cmd = "cluster"%string) then
    Ok (inl (mkTable ["ACTIVE RUNNERS"; "WORKER CAPACITY"; "AVAILABLE"; "ACTIVE BUILDS"; "AVG CPU%"; "AVG MEM%"]%string
               [cluster_row (object body)]))
  else Ok (inr body).

(** An event as encoding/json writes it and reads it back: [HLC] has no field tags. *)
Definition event_json (e : Event) : gmap string any :=
  <["seq"%string := AnyNum (f64_of_Z (e_Seq e))]>
  (<["type"%string := AnyStr (e_Type e)]>
  (<["runner_id"%string := AnyStr (e_RunnerID e)]>
  (<["hlc"%string := AnyObj [("TS"%string, AnyNum (f64_of_Z (TS (e_HLC e))));
                             ("Seq"%string, AnyNum (f64_of_Z (Seq (e_HLC e))))]]>
  (match e_Payload e with
   | Some m => if bool_decide (m = ∅) then ∅ else {[ "payload"%string := AnyObj (map_to_list m) ]}
   | None => ∅
   end)))).

(** ** Lists *)

Definition splitCSV (s : string) : list string :=
  if bool_decide (TrimSpace s = ""%string) then []
  else foldl (λ out p, let p := TrimSpace p in
                       if bool_decide (p = ""%string) then out else out ++ [p]) [] (Split "," s).

(** ** Keys *)

(** [runKeygen], with the random bytes; the result is what is printed. *)
Definition runKeygen (rand_Read : nat → option string) (args : list string) : result string :=
  match args with
  | [] => Err (ErrText "usage: taklctl keygen gossip")
  | cmd :: _ =>
      if bool_decide (cmd = "gossip"%string) then
        match rand_Read 32%nat with
        | None => Err (ErrText "rand.Read")
        | Some b => Ok (keygen_gossip b)
        end
      else Err (ErrText ("unknown keygen command: " +:+ cmd))
  end.

(** ** Paths *)

(** [filepath.Join(dir, name)]; an empty element is ignored. *)
Definition Join (dir name : string) : string :=
  if bool_decide (dir = ""%string) then (if bool_decide (name = ""%string) then ""%string else Clean name)
  else if bool_decide (name = ""%string) then Clean dir else Clean (dir +:+ ("/" +:+ name)).

(** ** Certificates *)

(** x509.Certificate as a template: the fields the program sets; times in nanoseconds. *)
Record Template := mkTemplate {
  SerialNumber : Z;
  CommonName : string;
  Organization : list string;
  NotBefore : Z;
  NotAfter : Z;
  KeyUsage : Z;
  ExtKeyUsage : list Z;
  BasicConstraintsValid : bool;
  IsCA : bool;
  IPAddresses : list IP;
  DNSNames : list string
}.

Definition KeyUsageDigitalSignature : Z := 1.
Definition KeyUsageKeyEncipherment : Z := 4.
Definition KeyUsageCertSign : Z := 32.
Definition KeyUsageCRLSign : Z := 64.
Definition ExtKeyUsageServerAuth : Z := 1.
Definition ExtKeyUsageClientAuth : Z := 2.

(** A certificate holds its times to the second. *)
Definition to_second (ns : Z) : Z := ns / 1000000000 * 1000000000.
Definition encoded (t : Template) : Template :=
  mkTemplate (SerialNumber t) (CommonName t) (Organization t) (to_second (NotBefore t))
    (to_second (NotAfter t)) (KeyUsage t) (ExtKeyUsage t) (BasicConstraintsValid t) (IsCA t)
    (IPAddresses t) (DNSNames t).

(** crypto/ecdsa, crypto/x509 and encoding/pem, with what the program relies on: a private key and
    PEM text read back, a created certificate parses and records its template and its signer. *)
Class X509 := {
  priv : Type;
  pub : Type;
  Certificate : Type;
  public : priv → pub;
  cert_template : Certificate → Template;
  (** [signed_by c p k]: [c] was issued for the key [p] under the private key [k]. *)
  signed_by : Certificate → pub → priv → Prop;
  (** The parent of a certificate is a template of its own or a parsed certificate. *)
  CreateCertificate : Template → Template + Certificate → pub → priv → option string;
  ParseCertificate : string → option Certificate;
  MarshalECPrivateKey : priv → option string;
  ParseECPrivateKey : string → option priv;
  pem_Encode : string → string → string;
  pem_Decode : string → option (string * string);
  pem_Decode_Encode : ∀ type b, pem_Decode (pem_Encode type b) = Some (type, b);
  ParseEC_Marshal : ∀ k b, MarshalECPrivateKey k = Some b → ParseECPrivateKey b = Some k;
  Parse_Create : ∀ t parent p k der, CreateCertificate t parent p k = Some der →
    ∃ c, ParseCertificate der = Some c ∧ cert_template c = encoded t ∧ signed_by c p k
}.

(** A file: its contents and its mode. *)
Record file := mkFile { f_data : string; f_mode : Z }.
Abbreviation files := (gmap string file).

Definition hour : Z := 3600 * 1000000000.
(** [time.Duration(days) * 24 * time.Hour]: int64 nanoseconds. *)
Definition days_duration (days : Z) : Z := wrap_i64 (wrap_i64 (days * 24) * hour).

Section CA.
Context `{C : X509}.

(** The outside of one invocation. *)
Record Host := mkHost {
  MkdirAll : string → bool;
  CanOpen : string → bool;
  CanWrite : string → bool;
  CanRead : string → bool;
  umask : Z;
  GenerateKey : option priv;
  rand_Int : option Z;        (* below 1 << 128 *)
  now : Z
}.

Definition F (A : Type) : Type := files → result A * files.
#[local] Instance F_ret : MRet F := λ A a fs, (Ok a, fs).
#[local] Instance F_bind : MBind F := λ A B k m fs,
  match m fs with (Ok a, fs') => k a fs' | (Err e, fs') => (Err e, fs') | (Panic, fs') => (Panic, fs') end.
Definition fail {A} (msg : string) : F A := λ fs, (Err (ErrText msg), fs).
Definition or_fail {A} (msg : string) (o : option A) : F A :=
  match o with Some a => mret a | None => fail msg end.
Definition check (b : bool) (msg : string) : F unit := if b then mret tt else fail msg.

Context (h : Host).

(** [os.OpenFile(path, O_CREATE|O_WRONLY|O_TRUNC, perm)] and [pem.Encode]: an existing file keeps its
    mode, a new one gets [perm] less the umask. *)
Definition writePEM (path pemType der : string) (perm : Z) : F unit := λ fs,
  if CanOpen h path then
    let mode := match fs !! path with Some f => f_mode f | None => Z.land perm (Z.lnot (umask h)) end in
    if CanWrite h path then (Ok tt, <[path := mkFile (pem_Encode pemType der) mode]> fs)
    else (Err (ErrText "write"), <[path := mkFile "" mode]> fs)
  else (Err (ErrText "os.OpenFile"), fs).

Definition ReadFile (path : string) : F string := λ fs,
  match fs !! path with
  | Some f => if CanRead h path then (Ok (f_data f), fs) else (Err (ErrText "os.ReadFile"), fs)
  | None => (Err (ErrText "os.ReadFile"), fs)
  end.

Definition serialNumber : option Z := rand_Int h.

(** The two files written are what is printed. *)
Definition caInit (outDir cn : string) (days : Z) : F (string * string) :=
  _ ← check (0 <? days) "days must be > 0";
  _ ← check (MkdirAll h outDir) "os.MkdirAll";
  key ← or_fail "ecdsa.GenerateKey" (GenerateKey h);
  serial ← or_fail "rand.Int" serialNumber;
  let tpl := mkTemplate serial cn ["takl"%string] (now h - hour) (now h + days_duration days)
               (Z.lor KeyUsageCertSign KeyUsageCRLSign) [] true true [] [] in
  der ← or_fail "x509.CreateCertificate" (CreateCertificate tpl (inl tpl) (public key) key);
  let certOut := Join outDir "ca.crt" in
  let keyOut := Join outDir "ca.key" in
  _ ← writePEM certOut "CERTIFICATE" der 420;
  b ← or_fail "x509.MarshalECPrivateKey" (MarshalECPrivateKey key);
  _ ← writePEM keyOut "EC PRIVATE KEY" b 384;
  mret (certOut, keyOut).

Definition loadCA (caCertPath caKeyPath : string) : F (Certificate * priv) :=
  certPEM ← ReadFile caCertPath;
  cert ← (match pem_Decode certPEM with
          | Some (type, bytes) =>
              if bool_decide (type = "CERTIFICATE"%string)
              then or_fail "x509.ParseCertificate" (ParseCertificate bytes)
              else fail "invalid ca cert pem"
          | None => fail "invalid ca cert pem"
          end);
  keyPEM ← ReadFile caKeyPath;
  key ← (match pem_Decode keyPEM with
         | Some (_, bytes) => or_fail "x509.ParseECPrivateKey" (ParseECPrivateKey bytes)
         | None => fail "invalid ca key pem"
         end);
  mret (cert, key).

(** The loop over the addresses: the first invalid one ends it. *)
Fixpoint parse_ips (ips : list string) : F (list IP) :=
  match ips with
  | [] => mret []
  | v :: ips => match ParseIP v with
                | None => fail ("invalid ip: " +:+ v)
                | Some ip => rest ← parse_ips ips; mret (ip :: rest)
                end
  end.

Definition caIssue (caCertPath caKeyPath outDir node : string) (ips dns : list string) (days : Z) :
    F (string * string) :=
  _ ← check (0 <? days) "days must be > 0";
  _ ← check (MkdirAll h outDir) "os.MkdirAll";
  ca ← loadCA caCertPath caKeyPath;
  key ← or_fail "ecdsa.GenerateKey" (GenerateKey h);
  serial ← or_fail "rand.Int" serialNumber;
  addrs ← parse_ips ips;
  let tpl := mkTemplate serial node ["takl"%string] (now h - hour) (now h + days_duration days)
               (Z.lor KeyUsageDigitalSignature KeyUsageKeyEncipherment)
               [ExtKeyUsageServerAuth; ExtKeyUsageClientAuth] true false addrs dns in
  der ← or_fail "x509.CreateCertificate" (CreateCertificate tpl (inr ca.1) (public key) ca.2);
  let certOut := Join outDir (node +:+ ".crt") in
  let keyOut := Join outDir (node +:+ ".key") in
  _ ← writePEM certOut "CERTIFICATE" der 420;
  b ← or_fail "x509.MarshalECPrivateKey" (MarshalECPrivateKey key);
  _ ← writePEM keyOut "EC PRIVATE KEY" b 384;
  mret (certOut, keyOut).

(** [runCA] after its flags are parsed: the values of the flag set, or the parse error. *)
Record ca_flags := mkCaFlags {
  cf_out_dir : string; cf_cn : string; cf_days : Z; cf_ca_cert : string; cf_ca_key : string;
  cf_node : string; cf_ips : string; cf_dns : string
}.
Definition runCA (parse : string → list string → option ca_flags) (args : list string) :
    F (string * string) :=
  match args with
  | [] => fail "usage: taklctl ca <init|issue>"
  | cmd :: rest =>
      if bool_decide (cmd = "init"%string) then
        fs ← or_fail "flag.Parse" (parse cmd rest);
        caInit (cf_out_dir fs) (cf_cn fs) (cf_days fs)
      else if bool_decide (cmd = "issue"%string) then
        fs ← or_fail "flag.Parse" (parse cmd rest);
        if bool_decide (TrimSpace (cf_ca_cert fs) = ""%string ∨ TrimSpace (cf_ca_key fs) = ""%string ∨
                        TrimSpace (cf_node fs) = ""%string)
        then fail "usage: taklctl ca issue"
        else caIssue (cf_ca_cert fs) (cf_ca_key fs) (cf_out_dir fs) (cf_node fs)
               (splitCSV (cf_ips fs)) (splitCSV (cf_dns fs)) (cf_days fs)
      else fail ("unknown ca command: " +:+ cmd)
  end.

(** ** The command *)

(** What is printed on standard output. *)
Inductive output :=
| OText (s : string)
| OTable (t : table + string)
| OPaths (cert key : string).

(** The exit status with the output, or a panic (status 2 and a stack trace). *)
Inductive ctl_exit :=
| Exit (status : Z) (out : option output)
| ExitPanic.

Definition exit_with {A} (out : A → output) (r : result A) : ctl_exit :=
  match r with Ok a => Exit 0 (Some (out a)) | Err _ => Exit 1 None | Panic => ExitPanic end.

(** [main] on the arguments after the program's name, with the parsed global flags, or the
    status the flag package exits with itself. *)
Definition main (info : string) (rand_Read : nat → option string)
    (parse_ca : string → list string → option ca_flags)
    (parse : list string → Z + string * Z * bool * list string)
    (Get : string → option (Z * string * option string))
    (items : string → list (gmap string any)) (object : string → gmap string any)
    (argv : list string) : files → ctl_exit * files := λ fs,
  let query :=
    match parse argv with
    | inl status => Exit status None
    | inr (addr, limit, jsonOut, args) =>
        match query_path limit args with
        | None => Exit 2 None
        | Some (cmd, path) =>
            match get Get addr path with
            | Ok body => if jsonOut : bool then Exit 0 (Some (OText body))
                         else exit_with OTable (printTable items object cmd body)
            | Err _ => Exit 1 None
            | Panic => ExitPanic
            end
        end
    end in
  match argv with
  | cmd :: rest =>
      if bool_decide (cmd = "version"%string) then (Exit 0 (Some (OText info)), fs)
      else if bool_decide (cmd = "keygen"%string ∧ rest ≠ []) then
        (exit_with OText (runKeygen rand_Read rest), fs)
      else if bool_decide (cmd = "ca"%string ∧ rest ≠ []) then
        let '(r, fs') := runCA parse_ca rest fs in (exit_with (λ ck, OPaths ck.1 ck.2) r, fs')
      else (query, fs)
  | [] => (query, fs)
  end.

End CA.

(** version.Info. *)
Definition Info (Version GitCommit BuildDate : string) : string :=
  "takl " +:+ Version +:+ " (" +:+ GitCommit +:+ ") built " +:+ BuildDate.
