(* ===== verification/CtlProps.v ===== *)
(** * The command line client: what its commands give

    The validity of certificates and its bound, the chain from [ca init] to [ca issue], what a
    failed command leaves behind, the lists in flags, and the tables. *)

From Stdlib Require Import Ascii.
From stdpp Require Import pretty.
From S2P Require Import Prelude GoText Net Hlc Model Metrics World Store Agent Membership Config Tls Takld Ctl.
Local Open Scope Z_scope.

(** ** Lists in flags *)

Lemma has_rev c (s : string) : has c (string_rev s) = has c s.
Proof.
  induction s as [|a s IH]; [done|]. change (String a s) with (String a "" +:+ s).
  rewrite string_rev_app_distr, !has_app, IH. simpl. by rewrite orb_false_r, orb_comm.
Qed.

Lemma has_trim_left c ps fuel (s : string) :
  Forall (λ p, has c p = false) ps → has c (trim_left ps fuel s) = has c s.
Proof.
  intros Hps. revert s. induction fuel as [|fuel IH]; intros s; [done|]. cbn [trim_left].
  destruct (cut_any ps s) as [s'|] eqn:Hs; [|done].
  apply cut_any_Some in Hs as (p & Hp & ->). rewrite IH, has_app.
  rewrite Forall_forall in Hps. by rewrite (Hps p Hp).
Qed.

Lemma has_TrimSpace c (s : string) :
  Forall (λ p, has c p = false) spaces → has c (TrimSpace s) = has c s.
Proof.
  intros Hsp. unfold TrimSpace. rewrite has_rev, has_trim_left, has_rev; [by apply has_trim_left|].
  apply Forall_fmap. eapply Forall_impl; [exact Hsp|]. intros p Hp. simpl. by rewrite has_rev.
Qed.

(** Taklctl and takld read comma-separated lists alike: [splitCSV], with its early return on a
    blank text, is [compactList] on the parts between the commas. *)
Theorem splitCSV_compactList (s : string) : splitCSV s = compactList (Split "," s).
Proof.
  unfold splitCSV. case_bool_decide as Hs; [|done].
  rewrite Split_no_sep; [unfold compactList; cbn; by rewrite Hs, bool_decide_eq_true_2|].
  rewrite <-(has_TrimSpace "," s), Hs; [done|]. apply (bool_decide_unpack _). by vm_compute.
Qed.

(** ** Tables *)

Lemma event_row_panics (e : Event) : event_row (event_json e) = Panic.
Proof.
  unfold event_row, event_json, any_get. do 3 (rewrite lookup_insert_ne by done).
  rewrite lookup_insert_eq. done.
Qed.

Lemma event_rows_ok items :
  Forall (λ e, ∃ row, event_row e = Ok row) items → ∃ rows, event_rows items = Ok rows.
Proof.
  induction 1 as [|e items (row & He) _ (rows & IH)]; [by exists []|].
  exists (row :: rows). simpl. by rewrite He, IH.
Qed.

(** [taklctl events] panics on every answer that holds an event as the server writes it: [HLC] is
    encoded under its field names, and the table asserts [hlc["ts"]].  An empty answer, and every
    answer to the other commands, prints. *)
Theorem events_table_panics (items : string → list (gmap string any)) object body cmd :
  (∀ e es, items body = event_json <$> (e :: es) →
     printTable items object "events" body = Panic) ∧
  (items body = [] →
     printTable items object "events" body = Ok (inl (mkTable ["RUNNER"; "SEQ"; "TYPE"; "HLC"]%string []))) ∧
  (cmd ≠ "events"%string → ∃ t, printTable items object cmd body = Ok t).
Proof.
  unfold printTable. repeat split.
  - intros e es ->. cbn [fmap list_fmap event_rows bool_decide]. by rewrite event_row_panics.
  - intros ->. done.
  - intros Hc. rewrite (bool_decide_eq_false_2 _ Hc).
    destruct (bool_decide (cmd = "runners"%string)); [eauto|].
    destruct (bool_decide (cmd = "cluster"%string)); eauto.
Qed.

(** ** Paths *)

Fixpoint last_char (s : string) : option ascii :=
  match s with
  | EmptyString => None
  | String c s' => match last_char s' with Some d => Some d | None => Some c end
  end.

Lemma last_char_app (x y : string) c : last_char y = Some c → last_char (x +:+ y) = Some c.
Proof. intros Hy. induction x as [|a x IH]; [done|]. rewrite string_cons_app. simpl. by rewrite IH. Qed.

(** A text without the separator stays at the end of the last part. *)
Lemma Split_suffix c (x y : string) :
  has c y = false → ∃ l z, Split c (x +:+ y) = l ++ [z +:+ y].
Proof.
  intros Hy. induction x as [|a x IH]; [exists [], ""; by rewrite Split_no_sep|].
  destruct IH as (l & z & IH). rewrite string_cons_app. simpl. rewrite IH.
  destruct (Ascii.eqb a c); [by exists ("" :: l)%string, z|].
  destruct l as [|p l]; [by exists [], (String a z)|]. by exists (String a p :: l), z.
Qed.

Lemma clean_segs_app rooted l1 l2 kept :
  clean_segs rooted (l1 ++ l2) kept = clean_segs rooted l2 (clean_segs rooted l1 kept).
Proof.
  revert kept. induction l1 as [|s l1 IH]; intros kept; [done|]. simpl.
  destruct (bool_decide (s = "" ∨ s = ".")%string); [apply IH|].
  destruct (bool_decide (s = "..")%string); [|apply IH].
  destruct kept as [|k kept]; [apply IH|]. destruct (bool_decide (k = "..")%string); apply IH.
Qed.

Lemma join_last (sep : string) l z c : last_char z = Some c → last_char (join sep (l ++ [z])) = Some c.
Proof.
  intros Hz. induction l as [|p l IH]; [done|].
  destruct l as [|q l]; cbn [app join] in *; by do 2 apply last_char_app.
Qed.

(** A path that ends in an extension keeps it: the paths of a certificate and of its key differ. *)
Lemma Join_last (dir name ext : string) c :
  has "/" ext = false → last_char ext = Some c → (3 ≤ String.length ext)%nat →
  last_char (Join dir (name +:+ ext)) = Some c.
Proof.
  intros He Hc Hlen.
  assert (∀ x, last_char (Clean (x +:+ ext)) = Some c) as HClean.
  { intros x. unfold Clean. set (rooted := match x +:+ ext with String a _ => _ | EmptyString => _ end).
    destruct (Split_suffix "/" x ext He) as (l & z & ->).
    rewrite clean_segs_app. set (kept := clean_segs rooted l []). simpl.
    assert (2 < String.length (z +:+ ext))%nat as Hz by (rewrite string_length_app; lia).
    rewrite bool_decide_eq_false_2 by (intros [E|E]; rewrite E in Hz; simpl in Hz; lia).
    rewrite bool_decide_eq_false_2 by (intros E; rewrite E in Hz; simpl in Hz; lia).
    rewrite reverse_cons.
    assert (last_char (join "/" (reverse kept ++ [z +:+ ext])) = Some c) as Hj by by apply join_last, last_char_app.
    destruct rooted; [by apply (last_char_app "/")|]. by destruct (reverse kept). }
  unfold Join. assert (name +:+ ext ≠ ""%string) as Hne.
  { intros E. apply (f_equal String.length) in E. rewrite string_length_app in E. simpl in E. lia. }
  rewrite (bool_decide_eq_false_2 (name +:+ ext = _)) by done. case_bool_decide; [apply HClean|].
  rewrite <-!string_app_assoc. apply HClean.
Qed.

Lemma crt_key_paths (dir dir' name name' : string) :
  Join dir (name +:+ ".crt") ≠ Join dir' (name' +:+ ".key").
Proof.
  intros E. apply (f_equal last_char) in E.
  rewrite (Join_last _ _ ".crt" "t"), (Join_last _ _ ".key" "y") in E by (done || (simpl; lia)). done.
Qed.

(** ** Validity *)

(** Up to 106751 days the duration is exact; from there on the product leaves int64. *)
Lemma days_duration_exact (days : Z) :
  0 < days → days_duration days = days * 24 * hour ↔ days ≤ 106751.
Proof.
  intros Hd. unfold days_duration. split.
  - intros E. assert (in_i64 (days * 24 * hour)) as Hr by (rewrite <-E; apply wrap_i64_range).
    unfold in_i64, max_i64, hour in Hr. lia.
  - intros Hb. rewrite (wrap_i64_id (days * 24)), wrap_i64_id;
      unfold in_i64, min_i64, max_i64, hour; lia.
Qed.

Lemma to_second_bounds (ns : Z) : ns - 1000000000 < to_second ns ≤ ns.
Proof. unfold to_second. pose proof (Z.mod_pos_bound ns 1000000000). pose proof (Z_div_mod_eq_full ns 1000000000). lia. Qed.

Definition valid_at (t : Template) (ns : Z) : Prop := NotBefore t ≤ ns ≤ NotAfter t.

(** ** Files *)

Section CA.
Context `{C : X509}.

(** What the files hold: a certificate, a private key. *)
Definition stored_cert (fs : files) (path : string) : option Certificate :=
  fs !! path ≫= λ f, pem_Decode (f_data f) ≫= λ b,
    if bool_decide (b.1 = "CERTIFICATE"%string) then ParseCertificate b.2 else None.
Definition stored_key (fs : files) (path : string) : option priv :=
  fs !! path ≫= λ f, pem_Decode (f_data f) ≫= λ b, ParseECPrivateKey b.2.

(** *** The monad *)

Lemma F_bind_Ok {A B} (k : A → F B) (m : F A) fs b fs' :
  @mbind F F_bind A B k m fs = (Ok b, fs') → ∃ a fs1, m fs = (Ok a, fs1) ∧ k a fs1 = (Ok b, fs').
Proof. unfold mbind, F_bind. destruct (m fs) as [[a|e|] fs1]; intros H; simplify_eq; eauto. Qed.

Lemma check_Ok b msg fs u fs' : check b msg fs = (Ok u, fs') → b = true ∧ fs' = fs.
Proof. by destruct b; intros [=]. Qed.

Lemma or_fail_Ok {A} msg (o : option A) fs a fs' : or_fail msg o fs = (Ok a, fs') → o = Some a ∧ fs' = fs.
Proof. by destruct o; intros [= -> ->]. Qed.

(** The steps of a command that succeeded. *)
Ltac run_Ok H :=
  lazymatch type of H with
  | (@mbind _ _ _ _ _ _) _ = _ =>
      let a := fresh "a" in let fs := fresh "fs" in let H1 := fresh "H" in
      apply F_bind_Ok in H as (a & fs & H1 & H); cbv beta in H;
      first [apply check_Ok in H1 as [H1 ->] | apply or_fail_Ok in H1 as [H1 ->] | idtac]; run_Ok H
  | _ => idtac
  end.

Definition writes (h : Host) (path : string) : Prop := CanOpen h path = true ∧ CanWrite h path = true.

Definition mode_of (h : Host) (fs : files) (path : string) (perm : Z) : Z :=
  match fs !! path with Some f => f_mode f | None => Z.land perm (Z.lnot (umask h)) end.

Lemma writePEM_Ok h path type der perm fs u fs' :
  writePEM h path type der perm fs = (Ok u, fs') →
  fs' = <[path := mkFile (pem_Encode type der) (mode_of h fs path perm)]> fs.
Proof.
  unfold writePEM, mode_of. destruct (CanOpen h path), (CanWrite h path); intros [=]; done.
Qed.

Ltac writes_Ok :=
  repeat match goal with H : writePEM _ _ _ _ _ _ = (Ok _, _) |- _ => apply writePEM_Ok in H as -> end.

Lemma caInit_Ok h outDir cn days fs paths fs' :
  caInit h outDir cn days fs = (Ok paths, fs') →
  let crt := Join outDir "ca.crt" in let key := Join outDir "ca.key" in
  ∃ k serial der b, let tpl := mkTemplate serial cn ["takl"%string] (now h - hour) (now h + days_duration days)
                 (Z.lor KeyUsageCertSign KeyUsageCRLSign) [] true true [] [] in
    0 < days ∧ GenerateKey h = Some k ∧
    CreateCertificate tpl (inl tpl) (public k) k = Some der ∧ MarshalECPrivateKey k = Some b ∧
    paths = (crt, key) ∧
    fs' = <[key := mkFile (pem_Encode "EC PRIVATE KEY" b) (mode_of h fs key 384)]>
          (<[crt := mkFile (pem_Encode "CERTIFICATE" der) (mode_of h fs crt 420)]> fs).
Proof.
  intros H. unfold caInit in H. cbv zeta in H. run_Ok H.
  writes_Ok. injection H as <- <-. eexists _, _, _, _. split_and!; eauto; [by apply Z.ltb_lt|].
  do 2 f_equal. unfold mode_of. rewrite lookup_insert_ne; [done|apply (crt_key_paths _ _ "ca" "ca")].
Qed.

(** *** Reading the authority *)

Lemma ReadFile_Ok h path fs s fs' :
  ReadFile h path fs = (Ok s, fs') → ∃ f, fs !! path = Some f ∧ s = f_data f ∧ fs' = fs.
Proof. unfold ReadFile. destruct (fs !! path); [destruct (CanRead h path)|]; intros [=]; naive_solver. Qed.

Lemma loadCA_Ok h crt key fs ca fs' :
  loadCA h crt key fs = (Ok ca, fs') →
  stored_cert fs crt = Some ca.1 ∧ stored_key fs key = Some ca.2 ∧ fs' = fs.
Proof.
  intros H. unfold loadCA in H. run_Ok H. injection H as <- <-.
  repeat match goal with H : ReadFile _ _ _ = (Ok _, _) |- _ => apply ReadFile_Ok in H as (? & ? & -> & ->) end.
  unfold stored_cert, stored_key.
  repeat match goal with H : _ !! _ = Some _ |- _ => rewrite H; clear H end. simpl.
  repeat case_match; simplify_eq; simpl;
    repeat match goal with H : or_fail _ _ _ = (Ok _, _) |- _ => apply or_fail_Ok in H as [? ->] end; try done.
  match goal with H : fs !! key = Some _ |- _ => rewrite H; simpl end.
  repeat match goal with H : _ = Some _ |- _ => rewrite H; simpl; clear H
                    | H : bool_decide _ = true |- _ => rewrite H; clear H end. done.
Qed.

Lemma parse_ips_spec ips fs :
  match mapM ParseIP ips with
  | Some l => parse_ips ips fs = (Ok l, fs)
  | None => ∃ v, v ∈ ips ∧ ParseIP v = None ∧ parse_ips ips fs = (Err (ErrText ("invalid ip: " +:+ v)), fs)
  end.
Proof.
  induction ips as [|v ips IH]; [done|]. simpl.
  destruct (ParseIP v) as [ip|] eqn:Hv; simpl; [|exists v; set_solver].
  destruct (mapM ParseIP ips) as [l|]; simpl.
  - unfold mbind, F_bind. by rewrite IH.
  - destruct IH as (w & Hw & HwN & IH). exists w. split_and!; [set_solver|done|].
    unfold mbind, F_bind. by rewrite IH.
Qed.

Lemma parse_ips_Ok ips fs l fs' : parse_ips ips fs = (Ok l, fs') → mapM ParseIP ips = Some l ∧ fs' = fs.
Proof.
  pose proof (parse_ips_spec ips fs) as H. destruct (mapM ParseIP ips) as [l'|];
    [rewrite H; by intros [= -> ->]|]. destruct H as (v & _ & _ & ->). done.
Qed.

Lemma caIssue_Ok h caCrt caKey outDir node ips dns days fs paths fs' :
  caIssue h caCrt caKey outDir node ips dns days fs = (Ok paths, fs') →
  let crt := Join outDir (node +:+ ".crt") in let key := Join outDir (node +:+ ".key") in
  ∃ ca_cert ca_key k serial addrs der b,
    let tpl := mkTemplate serial node ["takl"%string] (now h - hour) (now h + days_duration days)
               (Z.lor KeyUsageDigitalSignature KeyUsageKeyEncipherment)
               [ExtKeyUsageServerAuth; ExtKeyUsageClientAuth] true false addrs dns in
    0 < days ∧ stored_cert fs caCrt = Some ca_cert ∧ stored_key fs caKey = Some ca_key ∧
    GenerateKey h = Some k ∧ mapM ParseIP ips = Some addrs ∧
    CreateCertificate tpl (inr ca_cert) (public k) ca_key = Some der ∧ MarshalECPrivateKey k = Some b ∧
    paths = (crt, key) ∧
    fs' = <[key := mkFile (pem_Encode "EC PRIVATE KEY" b) (mode_of h fs key 384)]>
          (<[crt := mkFile (pem_Encode "CERTIFICATE" der) (mode_of h fs crt 420)]> fs).
Proof.
  intros H. unfold caIssue in H. cbv zeta in H. run_Ok H. writes_Ok. injection H as <- <-.
  match goal with H : loadCA _ _ _ _ = _ |- _ => apply loadCA_Ok in H as (? & ? & ->) end.
  match goal with H : parse_ips _ _ = _ |- _ => apply parse_ips_Ok in H as (? & ->) end.
  eexists _, _, _, _, _, _, _. split_and!; eauto; [by apply Z.ltb_lt|].
  do 2 f_equal. unfold mode_of. rewrite lookup_insert_ne; [done|apply crt_key_paths].
Qed.

(** What the pair of files written by a command holds. *)
Lemma stored_pair (fs : files) crt key der b m m' c k :
  crt ≠ key → ParseCertificate der = Some c → MarshalECPrivateKey k = Some b →
  let fs' := <[key := mkFile (pem_Encode "EC PRIVATE KEY" b) m]>
             (<[crt := mkFile (pem_Encode "CERTIFICATE" der) m']> fs) in
  stored_cert fs' crt = Some c ∧ stored_key fs' key = Some k ∧ f_mode <$> fs' !! key = Some m.
Proof.
  intros Hne Hc Hk fs'. unfold stored_cert, stored_key, fs'.
  rewrite lookup_insert_ne, !lookup_insert_eq by done. simpl. rewrite !pem_Decode_Encode. simpl.
  by rewrite Hc, (ParseEC_Marshal k b Hk).
Qed.

(** The bits for the group and the others. *)
Definition shared_bits : Z := 63.

Lemma private_mode h fs key : fs !! key = None → Z.land (mode_of h fs key 384) shared_bits = 0.
Proof.
  intros Hk. unfold mode_of, shared_bits. rewrite Hk.
  rewrite (Z.land_comm 384), <-Z.land_assoc. apply Z.land_0_r.
Qed.

(** A certificate of this many days, made now: from an hour before for the days asked for. *)
Lemma validity_window (tpl : Template) n days :
  0 < days ≤ 106751 → NotBefore tpl = n - hour → NotAfter tpl = n + days_duration days →
  NotAfter (encoded tpl) = to_second (n + days * 24 * hour) ∧
  ∀ t, n - hour ≤ t ≤ n + days * 24 * hour - 1000000000 → valid_at (encoded tpl) t.
Proof.
  intros Hd Hb Ha. rewrite (proj2 (days_duration_exact days ltac:(lia)) ltac:(lia)) in Ha.
  unfold valid_at, encoded. simpl. rewrite Ha, Hb. split; [done|]. intros t.
  pose proof (to_second_bounds (n - hour)). pose proof (to_second_bounds (n + days * 24 * hour)). lia.
Qed.

(** ** The commands *)

(** C25: [ca init] followed by [ca issue] on the files it printed.  Whenever both succeed, the
    authority is a self-signed CA certificate beside its key; the node's certificate is signed under
    that same key for the key stored beside it, is no CA, names the node, its addresses and names,
    and serves both ends of a connection; both are valid from an hour before their creation for the
    days asked for, up to 106751; and a key file that did not exist is readable by its owner only. *)
Theorem ca_chain (hi hn : Host) outDir cn days dir node ips dns ndays fs ca fs1 nd fs2 :
  days ≤ 106751 → ndays ≤ 106751 →
  caInit hi outDir cn days fs = (Ok ca, fs1) →
  caIssue hn ca.1 ca.2 dir node ips dns ndays fs1 = (Ok nd, fs2) →
  ∃ ca_cert ca_key cert key addrs,
    (stored_cert fs1 ca.1 = Some ca_cert ∧ stored_key fs1 ca.2 = Some ca_key ∧
     signed_by ca_cert (public ca_key) ca_key ∧ IsCA (cert_template ca_cert) = true ∧
     (∀ t, now hi - hour ≤ t ≤ now hi + days * 24 * hour - 1000000000 → valid_at (cert_template ca_cert) t) ∧
     (fs !! ca.2 = None → ∃ m, f_mode <$> fs1 !! ca.2 = Some m ∧ Z.land m shared_bits = 0)) ∧
    (stored_cert fs2 nd.1 = Some cert ∧ stored_key fs2 nd.2 = Some key ∧
     signed_by cert (public key) ca_key ∧ mapM ParseIP ips = Some addrs ∧
     let t := cert_template cert in
     IsCA t = false ∧ CommonName t = node ∧ IPAddresses t = addrs ∧ DNSNames t = dns ∧
     ExtKeyUsage t = [ExtKeyUsageServerAuth; ExtKeyUsageClientAuth] ∧
     (∀ ns, now hn - hour ≤ ns ≤ now hn + ndays * 24 * hour - 1000000000 → valid_at t ns) ∧
     (fs1 !! nd.2 = None → ∃ m, f_mode <$> fs2 !! nd.2 = Some m ∧ Z.land m shared_bits = 0)).
Proof.
  intros Hd Hnd Hi Hn.
  apply caInit_Ok in Hi as (k & serial & der & b & Hpos & _ & Hder & Hb & -> & ->).
  apply caIssue_Ok in Hn as (ca_cert & ca_key & k' & serial' & addrs & der' & b' & Hpos' & Hcc & Hck & _ &
    Hips & Hder' & Hb' & -> & ->). simpl in *.
  destruct (Parse_Create _ _ _ _ _ Hder) as (c & Hc & Ht & Hs).
  destruct (Parse_Create _ _ _ _ _ Hder') as (c' & Hc' & Ht' & Hs').
  destruct (stored_pair fs (Join outDir "ca.crt") (Join outDir "ca.key") der b
    (mode_of hi fs (Join outDir "ca.key") 384) (mode_of hi fs (Join outDir "ca.crt") 420) c k)
    as (Hsc & Hsk & Hm); [apply (crt_key_paths _ _ "ca" "ca")|done..|].
  rewrite Hsc in Hcc. rewrite Hsk in Hck. injection Hcc as <-. injection Hck as <-.
  set (fs1 := <[_ := _]> (<[_ := _]> fs)) in *.
  destruct (stored_pair fs1 (Join dir (node +:+ ".crt")) (Join dir (node +:+ ".key")) der' b'
    (mode_of hn fs1 (Join dir (node +:+ ".key")) 384) (mode_of hn fs1 (Join dir (node +:+ ".crt")) 420) c' k')
    as (Hsc' & Hsk' & Hm'); [apply crt_key_paths|done..|].
  exists c, k, c', k', addrs. rewrite Ht, Ht'. split; split_and!; eauto using private_mode.
  - eapply (validity_window _ (now hi) days); try done; lia.
  - eapply (validity_window _ (now hn) ndays); try done; lia.
Qed.

(** Between 106752 and 213503 days the duration has wrapped to more than an hour before. *)
Lemma days_duration_wrapped (days : Z) : 106752 ≤ days ≤ 213503 → days_duration days < - hour - 1000000000.
Proof.
  intros Hd. unfold days_duration. rewrite (wrap_i64_id (days * 24)) by (unfold in_i64, min_i64, max_i64; lia).
  unfold wrap_i64, hour.
  replace (days * 24 * (3600 * 1000000000) + 2 ^ 63) with ((days * 24 * (3600 * 1000000000) - 2 ^ 63) + 1 * 2 ^ 64) by lia.
  rewrite Z_mod_plus_full, Z.mod_small; lia.
Qed.

(** C26: the bounds of a certificate's life.  Whatever number of days [ca init] accepts is positive; up
    to 106751 days (292 years) the certificate it stores ends, to the second, that many days after
    now, and is valid until then from an hour ago; from 106752 to 213503 days the int64 product of
    nanoseconds wraps and the certificate, stored without an error, is valid at no time at all. *)
Theorem ca_days_bounds (h : Host) outDir cn days fs ca fs' :
  caInit h outDir cn days fs = (Ok ca, fs') →
  0 < days ∧ ∃ cert, stored_cert fs' ca.1 = Some cert ∧
    (days ≤ 106751 → NotAfter (cert_template cert) = to_second (now h + days * 24 * hour) ∧
       ∀ t, now h - hour ≤ t ≤ now h + days * 24 * hour - 1000000000 → valid_at (cert_template cert) t) ∧
    (106752 ≤ days ≤ 213503 → ∀ t, ¬ valid_at (cert_template cert) t).
Proof.
  intros Hi. apply caInit_Ok in Hi as (k & serial & der & b & Hpos & _ & Hder & Hb & -> & ->).
  destruct (Parse_Create _ _ _ _ _ Hder) as (c & Hc & Ht & _).
  destruct (stored_pair fs (Join outDir "ca.crt") (Join outDir "ca.key") der b
    (mode_of h fs (Join outDir "ca.key") 384) (mode_of h fs (Join outDir "ca.crt") 420) c k)
    as (Hsc & _ & _); [apply (crt_key_paths _ _ "ca" "ca")|done..|].
  split; [done|]. exists c. rewrite Ht. split_and!; [done|..].
  - intros Hd. by eapply (validity_window _ (now h) days).
  - intros Hd t. pose proof (days_duration_wrapped days Hd). unfold valid_at, encoded. simpl.
    pose proof (to_second_bounds (now h + days_duration days)). pose proof (to_second_bounds (now h - hour)). lia.
Qed.

(** *** What a command touches *)

(** [m] changes no file outside [ps] and does not panic. *)
Definition touches {A} (ps : list string) (m : F A) : Prop :=
  ∀ fs, (m fs).1 ≠ Panic ∧ ∀ p, p ∉ ps → (m fs).2 !! p = fs !! p.

Lemma touches_ret {A} ps (a : A) : touches ps (@mret F F_ret A a).
Proof. done. Qed.
Lemma touches_fail {A} ps msg : touches ps (@fail A msg).
Proof. done. Qed.
Lemma touches_or_fail {A} ps msg (o : option A) : touches ps (or_fail msg o).
Proof. by destruct o. Qed.
Lemma touches_check ps b msg : touches ps (check b msg).
Proof. by destruct b. Qed.

Lemma touches_bind {A B} ps (k : A → F B) (m : F A) :
  touches ps m → (∀ a, touches ps (k a)) → touches ps (@mbind F F_bind A B k m).
Proof.
  intros Hm Hk fs. unfold mbind, F_bind. specialize (Hm fs) as [Hp Hm].
  destruct (m fs) as [[a|e|] fs1]; simpl in *; [|by split..].
  specialize (Hk a fs1) as [Hp' Hk]. split; [done|]. intros p Hin. by rewrite Hk, Hm.
Qed.

Lemma touches_writePEM h ps path type der perm : path ∈ ps → touches ps (writePEM h path type der perm).
Proof.
  intros Hin fs. unfold writePEM. destruct (CanOpen h path), (CanWrite h path); split; try done;
    intros p Hp; simpl; by rewrite lookup_insert_ne by set_solver.
Qed.

Lemma touches_ReadFile h ps path : touches ps (ReadFile h path).
Proof. intros fs. unfold ReadFile. destruct (fs !! path); [destruct (CanRead h path)|]; done. Qed.

Lemma touches_parse_ips ps ips : touches ps (parse_ips ips).
Proof.
  intros fs. pose proof (parse_ips_spec ips fs) as H. destruct (mapM ParseIP ips); [by rewrite H|].
  destruct H as (v & _ & _ & ->). done.
Qed.

#[local] Hint Resolve touches_ret touches_fail touches_or_fail touches_check
  touches_ReadFile touches_parse_ips : touches.

Ltac touch :=
  first [solve [auto with touches] | apply touches_writePEM; set_solver | apply touches_bind; [|intros ?]].

Lemma touches_loadCA h ps crt key : touches ps (loadCA h crt key).
Proof. unfold loadCA. repeat touch; repeat case_match; touch. Qed.
#[local] Hint Resolve touches_loadCA : touches.

(** [m] fails on these files and leaves them. *)
Definition refuses {A} (m : F A) (fs : files) : Prop := ∃ e, m fs = (Err e, fs).

(** A step that touches nothing refuses, or the rest does. *)
Lemma refuses_bind {A B} (k : A → F B) (m : F A) fs :
  touches [] m → (∀ a, m fs = (Ok a, fs) → refuses (k a) fs) → refuses (@mbind F F_bind A B k m) fs.
Proof.
  intros Hm Hk. specialize (Hm fs) as [Hp Hm]. unfold refuses, mbind, F_bind.
  assert ((m fs).2 = fs) as Hfs by (apply map_eq; intros p; apply Hm, not_elem_of_nil).
  destruct (m fs) as [[a|e|] fs1]; simpl in *; subst; [by apply Hk|eauto|done].
Qed.

(** Whatever its outcome, [ca issue] changes no file but the two it names and does not panic; with
    no days, an authority that cannot be loaded or an address that does not parse it fails and
    changes nothing at all. *)
Theorem caIssue_touches h caCrt caKey outDir node ips dns days fs :
  let run := caIssue h caCrt caKey outDir node ips dns days in
  touches [Join outDir (node +:+ ".crt"); Join outDir (node +:+ ".key")] run ∧
  (days ≤ 0 ∨ (∀ ca, loadCA h caCrt caKey fs ≠ (Ok ca, fs)) ∨ Exists (λ v, ParseIP v = None) ips →
   ∃ e, run fs = (Err e, fs)).
Proof.
  intros run. subst run. unfold caIssue. split.
  { repeat touch. }
  intros Hbad.
  apply refuses_bind; [touch|]. intros _ [Hd _]%check_Ok. apply Z.ltb_lt in Hd.
  apply refuses_bind; [touch|]. intros _ _.
  apply refuses_bind; [touch|]. intros ca Hca.
  apply refuses_bind; [touch|]. intros key _.
  apply refuses_bind; [touch|]. intros serial _.
  apply refuses_bind; [touch|]. intros addrs [Hips _]%parse_ips_Ok. exfalso.
  destruct Hbad as [Hbad|[Hbad|Hbad]]; [lia|by eapply Hbad|].
  apply Exists_exists in Hbad as (v & Hv & HN).
  apply mapM_Some_1 in Hips. apply list_elem_of_lookup_1 in Hv as [i Hi].
  eapply Forall2_lookup_l in Hips as (ip & _ & E); [|exact Hi]. congruence.
Qed.

(** A node called ca, issued into the directory of the authority, replaces it: the files [ca init]
    wrote now hold the node's certificate, which is no CA, and the node's key. *)
Theorem issue_ca_overwrites (hi hn : Host) dir cn days ips dns ndays fs ca fs1 nd fs2 :
  caInit hi dir cn days fs = (Ok ca, fs1) →
  caIssue hn ca.1 ca.2 dir "ca" ips dns ndays fs1 = (Ok nd, fs2) →
  nd = ca ∧ stored_key fs2 ca.2 = GenerateKey hn ∧
  ∃ cert, stored_cert fs2 ca.1 = Some cert ∧ IsCA (cert_template cert) = false.
Proof.
  intros Hi Hn.
  apply caInit_Ok in Hi as (k & serial & der & b & Hpos & _ & Hder & Hb & -> & ->).
  apply caIssue_Ok in Hn as (ca_cert & ca_key & k' & serial' & addrs & der' & b' & _ & _ & _ & Hk' &
    _ & Hder' & Hb' & -> & ->).
  change ("ca" +:+ ".crt") with "ca.crt"%string. change ("ca" +:+ ".key") with "ca.key"%string. simpl.
  destruct (Parse_Create _ _ _ _ _ Hder') as (c' & Hc' & Ht' & _).
  set (fs1 := <[_ := _]> (<[_ := _]> fs)) in *.
  destruct (stored_pair fs1 (Join dir "ca.crt") (Join dir "ca.key") der' b'
    (mode_of hn fs1 (Join dir "ca.key") 384) (mode_of hn fs1 (Join dir "ca.crt") 420) c' k')
    as (Hsc' & Hsk' & _); [apply (crt_key_paths _ _ "ca" "ca")|done..|].
  rewrite Hsk', Hk'. split_and!; [done..|]. exists c'. by rewrite Ht'.
Qed.
End CA.

(** ** A concrete authority

    Texts stand for keys; the certificates that can be created are in a register, and the encoded
    certificate is its place there, in unary. *)
Module ToyX509.

#[local] Instance Template_eq_dec : EqDecision Template.
Proof. solve_decision. Defined.

Definition cert : Type := Template * string * string.

Fixpoint unary (n : nat) : string := match n with O => "" | S n => String "1" (unary n) end.
Lemma length_unary n : String.length (unary n) = n.
Proof. induction n as [|n IH]; simpl; congruence. Qed.

(** A PEM block: its type with every character marked, a colon, the bytes. *)
Fixpoint block (type b : string) : string :=
  match type with EmptyString => String ":" b | String c type => String "." (String c (block type b)) end.
Fixpoint unblock (s : string) : option (string * string) :=
  match s with
  | String ":" b => Some (EmptyString, b)
  | String _ (String c s) => match unblock s with Some (type, b) => Some (String c type, b) | None => None end
  | _ => None
  end.
Lemma unblock_block type b : unblock (block type b) = Some (type, b).
Proof. induction type as [|c type IH]; [done|]. simpl. by rewrite IH. Qed.

Definition start : Z := 1700000000 * 1000000000.
Definition leaf (node : string) : Template :=
  mkTemplate 7 node ["takl"%string] (start - hour) (start + 365 * 24 * hour) 5 [1; 2] true false
    [V4 10 0 0 7] ["n1.local"%string].
Definition register : list cert :=
  [(mkTemplate 7 "takl-ca" ["takl"%string] (start - hour) (start + 3650 * 24 * hour) 96 [] true true [] [],
    "public root", "root"); (leaf "n1", "public leaf", "root"); (leaf "ca", "public leaf", "root")]%string.

#[refine] Instance toy : X509 := {|
  priv := string; pub := string; Certificate := cert;
  public := λ k, "public " +:+ k;
  cert_template := λ c, c.1.1;
  signed_by := λ c p k, c.1.2 = p ∧ c.2 = k;
  CreateCertificate := λ t _ p k, (λ x, unary x.1) <$> list_find ((encoded t, p, k) =.) register;
  ParseCertificate := λ s, register !! String.length s;
  MarshalECPrivateKey := Some;
  ParseECPrivateKey := Some;
  pem_Encode := block;
  pem_Decode := unblock
|}.
Proof.
  - apply unblock_block.
  - by intros k b [= ->].
  - intros t parent p k der ([i c] & Hf & ->)%fmap_Some. apply list_find_Some in Hf as (Hi & <- & _).
    exists (encoded t, p, k). by rewrite length_unary.
Defined.

(** An invocation in which every call succeeds. *)
Definition host (key : string) (ns : Z) : @Host toy :=
  @mkHost toy (λ _, true) (λ _, true) (λ _, true) (λ _, true) 18 (Some key) (Some 7) ns.

Definition init := caInit (host "root" start) "pki" "takl-ca" 3650 ∅.
Definition issue (node : string) :=
  caIssue (host "leaf" start) "pki/ca.crt" "pki/ca.key" "pki" node ["10.0.0.7"%string] ["n1.local"%string] 365
    init.2.

(** The outcome of the two commands, evaluated. *)
Lemma init_eq : init = (Ok ("pki/ca.crt", "pki/ca.key")%string, init.2).
Proof. assert (init.1 = Ok ("pki/ca.crt", "pki/ca.key")%string) as <- by by vm_compute. by destruct init. Qed.
Lemma issue_n1 : issue "n1" = (Ok ("pki/n1.crt", "pki/n1.key")%string, (issue "n1").2).
Proof.
  assert ((issue "n1").1 = Ok ("pki/n1.crt", "pki/n1.key")%string) as <- by by vm_compute.
  by destruct (issue "n1").
Qed.
Lemma issue_ca : issue "ca" = (Ok ("pki/ca.crt", "pki/ca.key")%string, (issue "ca").2).
Proof.
  assert ((issue "ca").1 = Ok ("pki/ca.crt", "pki/ca.key")%string) as <- by by vm_compute.
  by destruct (issue "ca").
Qed.

Lemma ca_chain_witness :
  ∃ cert key, stored_cert (issue "n1").2 "pki/n1.crt" = Some cert ∧
    stored_key (issue "n1").2 "pki/n1.key" = Some key ∧ signed_by cert (public key) "root"%string ∧
    valid_at (cert_template cert) (start + 364 * 24 * hour).
Proof.
  destruct (ca_chain (host "root" start) (host "leaf" start) "pki" "takl-ca" 3650 "pki" "n1"
    ["10.0.0.7"%string] ["n1.local"%string] 365 ∅ ("pki/ca.crt", "pki/ca.key")%string init.2
    ("pki/n1.crt", "pki/n1.key")%string (issue "n1").2)
    as (ca_cert & ca_key & cert & key & addrs & (Hcc & Hck & _) & (Hc & Hk & Hs & _ & _ & _ & _ & _ & _ & Hv & _));
    [lia|lia|exact init_eq|exact issue_n1|].
  assert (ca_key = "root"%string) as -> by (vm_compute in Hck; by injection Hck).
  exists cert, key. split_and!; [done..|]. apply Hv. unfold host, start, hour. simpl. lia.
Defined.

Lemma ca_days_bounds_witness :
  ∃ cert, stored_cert init.2 "pki/ca.crt" = Some cert ∧ valid_at (cert_template cert) (start + 3649 * 24 * hour).
Proof.
  destruct (ca_days_bounds (host "root" start) "pki" "takl-ca" 3650 ∅ ("pki/ca.crt", "pki/ca.key")%string init.2)
    as (_ & cert & Hc & Hv & _); [exact init_eq|].
  exists cert. split; [done|]. apply Hv; [lia|]. unfold host, start, hour. simpl. lia.
Defined.

Lemma issue_ca_overwrites_witness :
  stored_key init.2 "pki/ca.key" = Some "root"%string ∧
  stored_key (issue "ca").2 "pki/ca.key" = Some "leaf"%string.
Proof.
  split; [by vm_compute|].
  apply (issue_ca_overwrites (host "root" start) (host "leaf" start) "pki" "takl-ca" 3650
    ["10.0.0.7"%string] ["n1.local"%string] 365 ∅ ("pki/ca.crt", "pki/ca.key")%string init.2
    ("pki/ca.crt", "pki/ca.key")%string (issue "ca").2); [exact init_eq|exact issue_ca].
Defined.
End ToyX509.
