(* ===== verification/CtlServe.v ===== *)
(** * taklctl against takld: the query of a command at the server *)

From Stdlib Require Import Ascii.
From stdpp Require Import pretty.
From S2P Require Import Prelude GoText Net Hlc Model Metrics World Store Agent Membership Api Route Ctl.
Local Open Scope Z_scope.

(** ** Decimal numbers: strconv.Atoi reads what fmt writes *)

Lemma digit_pretty n : (n < 10)%N → digit (pretty_N_char n) = Some (Z.of_N n).
Proof.
  intros Hn. destruct n as [|p]; [done|]. by do 4 (destruct p as [p|p|]; try lia; try done).
Qed.

Lemma digits_pretty x s acc : acc = 0 → digits (pretty_N_go x s) acc = digits s (Z.of_N x).
Proof.
  intros ->. revert s. induction (N.lt_wf_0 x) as [x _ IH]; intros s.
  destruct (decide (x = 0)%N) as [->|Hx]; [by rewrite pretty_N_go_0|].
  rewrite pretty_N_go_step by lia. rewrite IH by (apply N.div_lt; lia).
  cbn [digits]. rewrite digit_pretty by (apply N.mod_lt; lia). f_equal.
  pose proof (N.div_mod' x 10). lia.
Qed.

Definition dec_char (c : ascii) : Prop := byte_in 48 57 c = true ∨ c = "-"%char.

Lemma pretty_N_go_chars x s : string_Forall dec_char s → string_Forall dec_char (pretty_N_go x s).
Proof.
  revert s. induction (N.lt_wf_0 x) as [x _ IH]; intros s Hs.
  destruct (decide (x = 0)%N) as [->|Hx]; [by rewrite pretty_N_go_0|].
  rewrite pretty_N_go_step by lia. apply IH; [apply N.div_lt; lia|]. split; [|done]. left.
  assert ((x `mod` 10) < 10)%N as Hn by (apply N.mod_lt; lia).
  pose proof (digit_pretty _ Hn) as Hd. unfold digit in Hd. by destruct (byte_in 48 57 _).
Qed.

Lemma pretty_Z_chars (n : Z) : string_Forall dec_char (pretty n).
Proof.
  assert (∀ p, string_Forall dec_char (pretty (Npos p))) as H.
  { intros p. unfold pretty, pretty_N. rewrite decide_False by done. by apply pretty_N_go_chars. }
  destruct n; simpl; [split; [by left|done]|apply H|]. split; [by right|apply H].
Qed.

Lemma pretty_pos_first p : ∃ c s, pretty (Npos p) = String c s ∧ byte_in 48 57 c = true.
Proof.
  unfold pretty, pretty_N. rewrite decide_False by done.
  assert (∀ x s, (0 < x)%N → ∃ c s', pretty_N_go x s = String c s' ∧ byte_in 48 57 c = true) as H; [|by apply H].
  intros x. induction (N.lt_wf_0 x) as [x _ IH]; intros s Hx.
  rewrite pretty_N_go_step by lia. destruct (decide (x `div` 10 = 0)%N) as [E|E].
  - rewrite E, pretty_N_go_0. eexists _, _. split; [done|].
    assert ((x `mod` 10) < 10)%N as Hn by (apply N.mod_lt; lia).
    pose proof (digit_pretty _ Hn) as Hd. unfold digit in Hd. by destruct (byte_in 48 57 _).
  - apply IH; [apply N.div_lt; lia|by apply N.neq_0_lt_0].
Qed.

Lemma digits_pretty_pos p : digits (pretty (Npos p)) 0 = Some (Zpos p).
Proof. unfold pretty, pretty_N. rewrite decide_False by done. by rewrite digits_pretty. Qed.

Lemma Atoi_pretty (n : Z) : in_i64 n → Atoi (pretty n) = Some n.
Proof.
  intros [Hlo Hhi]. destruct n as [|p|p]; [done|..].
  - change (pretty (Zpos p)) with (pretty (Npos p)).
    destruct (pretty_pos_first p) as (c & s & Hp & Hc). pose proof (digits_pretty_pos p) as Hd.
    rewrite Hp in *. unfold Atoi.
    destruct (Ascii.eqb_spec c "-"); [by subst|]. destruct (Ascii.eqb_spec c "+"); [by subst|].
    rewrite Hd. rewrite (proj2 (Z.leb_le _ _)), (proj2 (Z.leb_le _ _)) by lia. done.
  - change (pretty (Zneg p)) with (String "-" (pretty (Npos p))).
    destruct (pretty_pos_first p) as (c & s & Hp & Hc). pose proof (digits_pretty_pos p) as Hd.
    rewrite Hp in *. unfold Atoi. rewrite Ascii.eqb_refl, Hd.
    rewrite (proj2 (Z.leb_le _ _)), (proj2 (Z.leb_le _ _)) by lia. done.
Qed.

(** ** The query string *)

Lemma dec_not c s : string_Forall dec_char s → byte_in 48 57 c = false → c ≠ "-"%char → has c s = false.
Proof.
  intros Hs Hc Hm. induction s as [|a s IH]; [done|]. destruct Hs as [Ha Hs]. simpl.
  rewrite (IH Hs), orb_false_r. apply Ascii.eqb_neq. intros ->. destruct Ha; congruence.
Qed.

Lemma unescape_dec plus s : string_Forall dec_char s → unescape plus s = Some s.
Proof.
  induction s as [|a s IH]; [done|]. intros [Ha Hs]. simpl. rewrite (IH Hs).
  destruct (Ascii.eqb_spec a "%") as [->|_]; [by destruct Ha|].
  destruct (Ascii.eqb_spec a "+") as [->|_]; [by destruct Ha|]. by rewrite andb_false_r.
Qed.

(** A query of one pair without special characters. *)
Lemma ParseQuery_pair (k v : string) :
  k ≠ ""%string → unescape true k = Some k → string_Forall dec_char v →
  (∀ c, c ∈ ["&"; ";"; "="]%char → has c k = false) →
  ParseQuery (k +:+ String "=" v) = {[ k := [v] ]}.
Proof.
  intros Hk Hu Hv Hsep. unfold ParseQuery.
  assert (∀ c, c ∈ ["&"; ";"]%char → has c (k +:+ String "=" v) = false) as Hno.
  { intros c Hc. assert (byte_in 48 57 c = false ∧ c ≠ "-"%char ∧ Ascii.eqb "=" c = false) as (H1 & H2 & H3)
      by (repeat (apply elem_of_cons in Hc as [->|Hc]; [done|]); by apply elem_of_nil in Hc).
    rewrite has_app, Hsep by set_solver. cbn [has]. by rewrite H3, (dec_not c v). }
  rewrite Split_no_sep by (apply Hno; set_solver). simpl. unfold query_pair.
  rewrite (Hno ";"%char) by set_solver. rewrite bool_decide_eq_false_2 by (by destruct k).
  rewrite cut_app by (apply Hsep; set_solver). simpl. by rewrite Hu, (unescape_dec _ _ Hv).
Qed.

(** C27: [taklctl events -limit n] asks for what it was told to: for every int n the request it makes
    reaches [handleEvents], which answers at most n events, at least 1 and no more than 1000. *)
Theorem ctl_events_limit (n : Z) (s : Server) header body :
  in_i64 n →
  ∃ path target query,
    query_path n ["events"%string] = Some ("events"%string, path) ∧
    cut "?" ("/" +:+ path) = Some (target, query) ∧
    let r := mkHttp "GET" ("/" +:+ path) target target query header body in
    findHandler (patterns s) r = Serve REvents [] ∧
    events_limit (request_of r []) = Z.max 1 (Z.min n 1000).
Proof.
  intros Hn. exists ("api/v1/events?limit=" +:+ pretty n), "/api/v1/events"%string, ("limit=" +:+ pretty n).
  split; [done|]. split; [done|]. cbv zeta. split.
  - unfold findHandler, patterns. cbn [hr_RequestURI hr_Method hr_EscapedPath hr_Path hr_RawQuery].
    rewrite bool_decide_eq_false_2 by done. generalize ("limit=" +:+ pretty n). intros query.
    by destruct (s_enablePprof s); vm_compute.
  - unfold events_limit, Query_Get, request_of. cbn [req_query hr_RawQuery].
    change ("limit=" +:+ pretty n) with ("limit" +:+ String "=" (pretty n)).
    rewrite (ParseQuery_pair "limit" (pretty n)); [|done|done|apply pretty_Z_chars|].
    2:{ intros c Hc. repeat (apply elem_of_cons in Hc as [->|Hc]; [done|]). by apply elem_of_nil in Hc. }
    rewrite lookup_singleton_eq, bool_decide_eq_false_2.
    2:{ intros E. pose proof (Atoi_pretty n Hn) as Ha. by rewrite E in Ha. }
    rewrite (Atoi_pretty n Hn). simpl. destruct (Z.ltb_spec n 1); [simpl; lia|].
    rewrite Z.gtb_ltb. destruct (Z.ltb_spec 1000 n); lia.
Qed.

Lemma ctl_events_limit_witness :
  ∃ path target query,
    query_path 5000 ["events"%string] = Some ("events"%string, path) ∧
    cut "?" ("/" +:+ path) = Some (target, query) ∧
    events_limit (request_of (mkHttp "GET" ("/" +:+ path) target target query ∅ "") []) = 1000.
Proof.
  destruct (ctl_events_limit 5000 (New "n1" []) ∅ "") as (path & target & query & Hp & Hc & _ & Hl);
    [unfold in_i64, min_i64, max_i64; lia|]. exists path, target, query. by rewrite Hl.
Defined.
